(* ===== verification/_CoqProject ===== *)
-Q . S2P
Prelude.v
Sorts.v
Bytes.v
Text.v
Json.v
Paths.v
StateMonad.v
Merkle.v
MerkleEncode.v
MerkleTree.v
MerkleProof.v
MerkleTheorems.v
Twab.v
TwabSpec.v
TwabReplay.v
TwabWalk.v
TwabHolders.v
TwabLedger.v
Alloc.v
AllocSpec.v
Cases.v
TwabTheorems.v
AllocTheorems.v
Report.v
ReportTheorems.v
Chain.v
ChainTheorems.v
Crc.v
Cache.v
CacheSpec.v
CacheOps.v
CacheSync.v
CacheCase.v
CacheTheorems.v
Lock.v
LockTheorems.v
Wire.v
Reader.v
Epoch.v
RootStream.v
EpochSpec.v
EpochRefine.v
EpochHistory.v
EpochWalk.v
EpochCase.v
EpochTheorems.v
ChainReader.v
Pacing.v
FakeNode.v
WireSpec.v
Honest.v
ReaderSpec.v
ReaderTruth.v
ReaderLive.v
ReaderServes.v
Node.v
ReaderCase.v
ReaderTheorems.v
Threads.v
ThreadSpec.v
FanOut.v
FanOutSpec.v
FanOutLive.v
FanOutTheorems.v
FakeNodeSpec.v
FakeNodeTheorems.v
JsonFacts.v
Render.v
RenderTheorems.v
Artifacts.v
ArtifactsTheorems.v
Verify.v
ParseTheorems.v
Below.v
ReaderIdeal.v
RunSpec.v
RunTruth.v
RunDocs.v
RunLive.v
RunTheorems.v
