(* ===== verification/Prelude.v ===== *)
(** * nutz-verify: a verification development

    nutz-verify recomputes, from a chain's history alone, who is owed what in an Epoch
    of the NUTZ Distributor, and says whether the Root posted on chain commits to the
    same list. The development models the Go of the repository and proves what each
    package promises, up to the exit status of a run.

    ** The program, and how its parts meet

    main runs the command line (cmd/nutz-verify). A run opens a chain Reader over one or
    more JSON-RPC endpoints, settles on a tip, and binds an epoch Engine to it. The
    Engine brings the transfer Cache up to the tip (cache), replays it into Holders
    (internal/twab), weighs them into Allocations (internal/alloc), builds the tree over
    those (merkle), and finds the Roots and the ledger() books of the Distributor
    through the Reader (chain). Every Result becomes Assertion lines and a Verdict
    (internal/report); the worst Verdict is the exit status. A published bundle may be
    compared on the side. The development follows the same order:

    - [Prelude], [Sorts], [Bytes], [Text], [StateMonad]: results with errors and panics
      ([Res]), slices, sorting and [sort.Search], big-endian words, decimal and hex text,
      calls that change state ([StM]).
    - merkle, in [Merkle]: [New], [placeLeaves], [fillNodes], [Proof_], [Verify],
      [Dump_] of merkle.go, tree.go and dump.go. A tree is the slice of nodes of the code.
      [MerkleEncode], [MerkleTree], [MerkleProof]: the leaf codec, the heap, what a Root
      binds. Claims: [MerkleTheorems].
    - internal/twab, in [Twab]: [Replay], [ExcludedAsOf], [holders] of replay.go and the
      forward-only [Ledger] of ledger.go, both over maps from addresses to balances.
      [TwabSpec] says with no state what a balance, a token-second and a first buy are;
      [TwabReplay], [TwabWalk], [TwabHolders], [TwabLedger] refine it. Claims:
      [TwabTheorems].
    - internal/alloc, in [Alloc]: [StreakDays], [MultBps], [Allocate], [Compute] of
      streak.go and compute.go. [AllocSpec] is spec section 5, in its own numbers ([owed]),
      and the code against it. Claims: [AllocTheorems].
    - internal/report, in [Report] (assess.go: [Assess], [Worst], [ExitCode]) and [Render]
      (report.go: the document, [WriteJSON], [WriteText]) over [Json] (encoding/json, writing
      and scanning). Claims: [ReportTheorems], [RenderTheorems].
    - chain, in six files. [Chain]: types, words, event and return-data decoders, the
      exclusion store (chain.go, word.go, event.go, call.go, excluded.go; claims:
      [ChainTheorems]). [Wire]: one endpoint, its request ids, batches, retries and refusals
      (rpc.go and the per-endpoint half of reader.go). [ChainReader]: the fan-out over the
      endpoints, the byte-for-byte cross-check and every read built on it (reader.go).
      [Pacing]: the token bucket and the waits between attempts, in time (rpc.go, with its
      claims).
      [WireSpec], [Honest], [ReaderSpec], [ReaderTruth] say what a successful read means;
      [ReaderLive], [ReaderServes] when reads succeed. [Node] is a server over any chain,
      for the witnesses. Claims: [ReaderTheorems].
      [Threads]: the same reads as trees of atomic steps on what goroutines share. [FanOut]:
      firstFailure, eachEndpoint, the workers of inParallel and Timestamps with those steps
      interleaved in any order, a cancelled context giving exchanges up (reader.go).
      [ThreadSpec]: a thread alone is the read of [Wire], and what it may come to among
      others ([may_end]); [FanOutSpec]: the invariant of a fan-out and of a pool;
      [FanOutLive]: they end, and [ChainReader]'s order is one of theirs. Claims:
      [FanOutTheorems].
    - internal/fakenode, in [FakeNode]: the server the repository's tests run against, its
      builders and the chain it serves ([FakeNodeSpec]). Claims: [FakeNodeTheorems].
    - cache, in [Cache]: the record codec, [Open_], [Append], [Each], [Truncate], [Close] of
      cache.go and [Sync] of sync.go over the bytes of a file; [Crc] is hash/crc32.
      [CacheSpec], [CacheOps], [CacheSync] refine it to a list of records. Claims:
      [CacheTheorems]. [Lock]: the steps of [Open] (lock_unix.go, lock_other.go) taken by any
      number of runs in any order; [LockTheorems] refines them to a list with one holder.
    - epoch, in [Epoch]: [EngineSync], [EngineCompute], [Walk], [LatestRoot] of engine.go
      with the stream searches of roots.go and the pinned addresses of deployment.go. An
      [Engine] is what New binds, [EngineState] what its methods remember. [RootStream] is the
      Distributor's posting rule as a step relation, [EpochSpec] what the Engine should
      answer with no memory at all, [EpochRefine], [EpochHistory], [EpochWalk] the refinement.
      Claims: [EpochTheorems].
    - cmd/nutz-verify, in [Verify] (run.go, recompute.go, main.go, cache.Dir) and [Artifacts]
      (artifacts.go) over [Paths]. [RunSpec] takes a run apart, [Below], [ReaderIdeal] and
      [RunTruth] are the Engine over a Reader that may fail, [RunDocs] and [RunLive] what the
      Report of a run says, when a run succeeds, what a bundle can change.
      Claims: [ParseTheorems], [ArtifactsTheorems], [RunTheorems].
    - [Cases] and the files ending in Case hold the concrete inputs of the witnesses: two of the
      repository's own Cases, and one hourly chain taken all the way to exit status 0 and 1.

    ** Interfaces

    [Reader] (file Reader) is the record of methods the Engine is given, and the class
    [ReadsChain] what they promise of one chain up to one tip: the epoch theorems assume the
    class, [ReaderTheorems] provides it. [extends] (file Below) relates a Reader that may fail
    to one that does not. [Source] is what [Sync] reads transfers from, [serves] its promise.

    ** What the claims show

    A run that exits 0 or 1 with one truthful endpoint among any others says what the
    rules say of the chain, and a run over endpoints that serve the chain does end so;
    whatever stops a run is exit 2; a bundle decides nothing. Below that: replay, Ledger and
    allocation against the written rules, with conservation, fairness and independence of
    order; a MATCH binds the list of claims or exhibits a collision; proofs verify and forged
    ones collide; the Engine refines its memoryless specification and its searches
    end at the standing Root; a cross-checked read is true once one endpoint is, its goroutines
    one after the other or at once, the failure reported is the first and its endpoint's own,
    and concurrent reads end; any bytes on
    disk open to a good prefix and a Sync brings whole blocks up to the tip, but not the
    records a cut took from inside one; runs that share a file take turns, unless one starts
    afresh; an endpoint is asked no faster than its rate, unless the rate is NaN or so small
    that the wait fits no int64; the tests' server is an endpoint the claims apply to; a
    bundle's comparison says what its files hold; the JSON Report reads back whole.

    The exit-status claims rest on the terms of [run_over] (file RunDocs): a chain the
    contracts can have made, a complete history, an Epoch whose window fits an int64, and,
    unless the run is --fresh or there is no file, a Cache file holding whole blocks.

    ** Numbers, loops and faults

    [*big.Int] is Z, nil is None; uint64 and int64 values are Z with the range checks
    and wrap-arounds of the code written out; a float64 ([float64] of [Text]) is a rational, an
    infinity or NaN, without rounding, and what one out of range is converted to is the
    machine's choice ([Pacing]); [int] indices are nat, bounded by a length. A
    panic is [Fault GoPanic]. Loops that are not structural carry fuel and end in
    [Fault OutOfFuel] without it: 64 doubling pages reach any block number ([searchFuel]),
    64 halvings any binary search over uint64 ([endSearch], [logsFrom] adds the blocks left),
    a scan one record of the file at a time, a Sync one block at a time. The claims
    exclude faults, or give the result outright, so the fuel is enough.

    ** Parameters and hypotheses

    keccak256 is any function from bytes to 32 bytes; where a claim needs it not to collide
    it says so, or exhibits the collision. url.Parse, strconv.ParseFloat, the texts of errors
    and floats, the environment and the published files are parameters of [Machine] or of a
    Section. A server is any function of the endpoint, the time and what is posted, so it may
    lie, change its mind or fall silent. [world_ok] says a chain's blocks and logs
    are well formed, [chain_ok] that its token conserves supply and its Distributor posts by
    [posts], [contracts_ok] that its return data is ABI-encoded, [truthful] that an endpoint's
    successful replies are of the chain, [helpful] that it does reply, [prompt] that it never
    asks to wait. The claims on interleaved reads are of runs of at most 2^64 turns, in which
    no endpoint's request id comes round again; [FanOutLive] bounds the turns.

    ** Not modelled

    Signals, and a context its caller cancels; progress lines on stderr; fsync and refused writes;
    the JSON text of RPC messages, of which the model has what [json.Unmarshal] makes;
    the rounding and overflow of floats; starting fakenode's HTTP server. Outside
    [FanOut] goroutines run one after another in an arbitrary order, and outside [Pacing] no
    time passes. *)
From Stdlib Require Export Strings.Byte.
From stdpp Require Export base tactics list sorting vector gmap.
From Stdlib Require Export ZArith Lia.
Open Scope Z_scope.

#[export] Set Warnings "-clear-no-such-hyp".

Declare Scope go_scope.
Delimit Scope go_scope with go.

(** ** Results, errors and faults *)

(** What stops a Go function without returning: a run-time panic, or (in the
    model only) a loop that was given too little fuel. *)
Inductive fault := GoPanic | OutOfFuel.

(** A Go call returning [(T, error)]. *)
Inductive Res (E A : Type) :=
  | Ok (a : A)
  | Err (e : E)
  | Fault (f : fault).
Arguments Ok {E A} a.
Arguments Err {E A} e.
Arguments Fault {E A} f.

#[global] Instance Res_ret {E} : MRet (Res E) := λ A a, Ok a.
#[global] Instance Res_bind {E} : MBind (Res E) := λ A B f m,
  match m with Ok a => f a | Err e => Err e | Fault x => Fault x end.
#[global] Instance Res_fmap {E} : FMap (Res E) := λ A B f m,
  match m with Ok a => Ok (f a) | Err e => Err e | Fault x => Fault x end.

(** [fmt.Errorf("...: %w", err)]: the callee's error inside the caller's. *)
Definition wrap {E E' A} (f : E → E') (m : Res E A) : Res E' A :=
  match m with Ok a => Ok a | Err e => Err (f e) | Fault x => Fault x end.

(** A Go operation that panics unless its side condition holds. *)
Definition or_panic {E A} (ok : bool) (a : A) : Res E A :=
  if ok then Ok a else Fault GoPanic.

(** A value that may be absent, with the error the code returns for it. *)
Definition or_err {E A} (o : option A) (e : E) : Res E A :=
  match o with Some a => Ok a | None => Err e end.

(** [l[i]] and [l[i] = x], which panic out of range. *)
Definition index {E A} (l : list A) (i : nat) : Res E A :=
  match l !! i with Some x => Ok x | None => Fault GoPanic end.
Definition set_index {E A} (l : list A) (i : nat) (x : A) : Res E (list A) :=
  or_panic (i <? length l)%nat (<[i := x]> l).

Definition is_Ok {E A} (m : Res E A) : Prop := ∃ a, m = Ok a.
Definition ok_of {E A} (m : Res E A) : option A :=
  match m with Ok a => Some a | _ => None end.

Section res.
Context {E : Type}.

Lemma bind_Ok {A B} (m : Res E A) (f : A → Res E B) b :
  m ≫= f = Ok b ↔ ∃ a, m = Ok a ∧ f a = Ok b.
Proof. destruct m; cbn; naive_solver. Qed.

Lemma Res_assoc {A B C} (m : Res E A) (f : A → Res E B) (g : B → Res E C) :
  (m ≫= f) ≫= g = m ≫= (λ a, f a ≫= g).
Proof. by destruct m. Qed.

Lemma bind_Err {A B} (m : Res E A) (f : A → Res E B) e :
  m ≫= f = Err e ↔ m = Err e ∨ ∃ a, m = Ok a ∧ f a = Err e.
Proof. destruct m; cbn; naive_solver. Qed.

Lemma bind_Fault {A B} (m : Res E A) (f : A → Res E B) x :
  m ≫= f = Fault x ↔ m = Fault x ∨ ∃ a, m = Ok a ∧ f a = Fault x.
Proof. destruct m; cbn; naive_solver. Qed.

Lemma fmap_Ok {A B} (m : Res E A) (f : A → B) b :
  f <$> m = Ok b ↔ ∃ a, m = Ok a ∧ f a = b.
Proof. destruct m; cbn; naive_solver. Qed.

Lemma wrap_Ok {E' A} (f : E → E') (m : Res E A) a :
  wrap f m = Ok a ↔ m = Ok a.
Proof. destruct m; cbn; naive_solver. Qed.

Lemma wrap_Err {E' A} (f : E → E') (m : Res E A) e :
  wrap f m = Err e ↔ ∃ e', m = Err e' ∧ e = f e'.
Proof. destruct m; cbn; naive_solver. Qed.

Lemma wrap_Fault {E' A} (f : E → E') (m : Res E A) x :
  wrap f m = Fault x ↔ m = Fault x.
Proof. destruct m; cbn; naive_solver. Qed.

Lemma or_panic_Ok {A} c (a b : A) :
  or_panic (E:=E) c a = Ok b ↔ c = true ∧ a = b.
Proof. destruct c; cbn; naive_solver. Qed.

Lemma or_err_Ok {A} (o : option A) e (a : A) :
  or_err (E:=E) o e = Ok a ↔ o = Some a.
Proof. destruct o; cbn; naive_solver. Qed.
End res.

Lemma index_Ok {E A} (l : list A) i x : index (E:=E) l i = Ok x ↔ l !! i = Some x.
Proof. unfold index. destruct (l !! i); naive_solver. Qed.

Lemma set_index_Ok {E A} (l : list A) i x :
  (i < length l)%nat → set_index (E:=E) l i x = Ok (<[i := x]> l).
Proof. intros Hi. unfold set_index. by rewrite (proj2 (Nat.ltb_lt _ _) Hi). Qed.

Create Rewrite HintDb go_res.
#[export] Hint Rewrite @bind_Ok @wrap_Ok @fmap_Ok @or_panic_Ok @or_err_Ok : go_res.

(** Opens a hypothesis [m = Ok a] built from binds into its steps. *)
Ltac inv_ok H :=
  repeat first
    [ progress (autorewrite with go_res in H)
    | match type of H with
      | (if ?c then _ else _) = Ok _ => destruct c eqn:?; try discriminate H
      | (match ?m with _ => _ end) = Ok _ => destruct m eqn:?; try discriminate H
      | mret _ = Ok _ => apply (inj Ok) in H
      | Ok _ = Ok _ => injection H as H
      | ∃ _, _ => let x := fresh "v" in let Hx := fresh "Hv" in
                  destruct H as [x H]
      | _ ∧ _ => let H1 := fresh "Hok" in destruct H as [H1 H]
      end ].

#[global] Instance Ok_inj {E A} : Inj (=) (=) (@Ok E A).
Proof. by intros ?? [= ->]. Qed.

(** ** Loops *)

(** [for _, x := range l { s, err = f(s, x) }], stopping at the first error. *)
Fixpoint foldM {E S A} (f : S → A → Res E S) (l : list A) (s : S) : Res E S :=
  match l with
  | [] => Ok s
  | x :: l => f s x ≫= foldM f l
  end.

(** [for i, x := range l { y, err := f(i, x); out = append(out, y) }]. *)
Fixpoint traverseI {E A B} (f : nat → A → Res E B) (i : nat) (l : list A)
    : Res E (list B) :=
  match l with
  | [] => Ok []
  | x :: l => y ← f i x; ys ← traverseI f (S i) l; mret (y :: ys)
  end.

Definition traverse {E A B} (f : A → Res E B) : list A → Res E (list B) :=
  traverseI (λ _, f) 0.

(** The same over an array. *)
Fixpoint vtraverseI {E A B n} (f : nat → A → Res E B) (i : nat) (v : vec A n) : Res E (vec B n) :=
  match v with
  | [#] => Ok [#]
  | x ::: v => y ← f i x; ys ← vtraverseI f (S i) v; mret (y ::: ys)
  end.

Section loops.
Context {E : Type}.

Lemma foldM_app {S A} (f : S → A → Res E S) l1 l2 s :
  foldM f (l1 ++ l2) s = foldM f l1 s ≫= foldM f l2.
Proof.
  revert s. induction l1 as [|x l1 IH]; intros s; [done|]. cbn.
  destruct (f s x); cbn; [apply IH|done..].
Qed.

(** The invariant rule of a [foldM] loop, over the processed prefix. *)
Lemma foldM_inv {S A} (P : list A → S → Prop) (f : S → A → Res E S) l s s' :
  P [] s →
  (∀ pre x s1 s2, pre ++ [x] `prefix_of` l → P pre s1 → f s1 x = Ok s2 → P (pre ++ [x]) s2) →
  foldM f l s = Ok s' → P l s'.
Proof.
  intros H0 Hstep. cut (∀ suf pre s, pre ++ suf = l → P pre s →
    foldM f suf s = Ok s' → P l s').
  { intros H. by apply (H l []). }
  clear s H0. induction suf as [|x suf IH]; intros pre s Hl HP Hf; cbn in Hf.
  { apply (inj Ok) in Hf as <-. rewrite app_nil_r in Hl. by subst. }
  apply bind_Ok in Hf as (s1 & H1 & H2).
  apply (IH (pre ++ [x]) s1); [by rewrite <-app_assoc| |done].
  apply (Hstep _ _ s); [|done..]. exists suf. by rewrite <-app_assoc.
Qed.

Lemma traverseI_Ok {A B} (f : nat → A → Res E B) i l k :
  traverseI f i l = Ok k ↔
  length k = length l ∧
  ∀ j x, l !! j = Some x → ∃ y, k !! j = Some y ∧ f (i + j)%nat x = Ok y.
Proof.
  revert i k. induction l as [|x l IH]; intros i k; cbn.
  { split.
    - intros H. apply (inj Ok) in H as <-. split; [done|]. intros j x; by rewrite lookup_nil.
    - intros [?%nil_length_inv _]. by subst. }
  rewrite bind_Ok. split.
  - intros (y & Hy & (ys & Hys & Hk)%bind_Ok). apply (inj Ok) in Hk as <-.
    apply IH in Hys as [Hlen Hys]. split; [cbn; lia|].
    intros [|j] z Hz; cbn in *.
    + simplify_eq. exists y. by rewrite Nat.add_0_r.
    + destruct (Hys j z Hz) as (w & ? & Hw). exists w. split; [done|].
      by rewrite <-Nat.add_succ_comm.
  - intros [Hlen Hk]. destruct k as [|y k]; [done|].
    destruct (Hk 0%nat x eq_refl) as (y' & Hy' & Hfy). cbn in Hy'. simplify_eq.
    exists y'. rewrite Nat.add_0_r in Hfy. split; [done|].
    apply bind_Ok. exists k. split; [|done]. apply IH. split; [cbn in *; lia|].
    intros j z Hz. destruct (Hk (S j) z Hz) as (w & ? & Hw). exists w.
    split; [done|]. by rewrite Nat.add_succ_comm.
Qed.

Lemma traverseI_Ok_const {A B} (f : A → Res E B) i l k :
  traverseI (λ _, f) i l = Ok k ↔ Forall2 (λ x y, f x = Ok y) l k.
Proof.
  revert i k. induction l as [|x l IH]; intros i k; cbn.
  { split; [intros H; by apply (inj Ok) in H as <-|by inversion 1]. }
  rewrite bind_Ok. split.
  - intros (y & ? & (ys & ?%IH & Hk)%bind_Ok). apply (inj Ok) in Hk as <-.
    by constructor.
  - inversion 1; simplify_eq. eexists; split; [done|].
    apply bind_Ok. eexists. split; [by apply IH|done].
Qed.

Lemma traverse_Ok {A B} (f : A → Res E B) l k :
  traverse f l = Ok k ↔ Forall2 (λ x y, f x = Ok y) l k.
Proof. apply traverseI_Ok_const. Qed.

Lemma traverse_cons {A B} (f : A → Res E B) x l :
  traverse f (x :: l) = (y ← f x; ys ← traverse f l; mret (y :: ys)).
Proof.
  unfold traverse. cbn [traverseI]. enough (∀ i j, traverseI (λ _, f) i l = traverseI (λ _, f) j l) as Heq
    by by rewrite (Heq 1%nat 0%nat).
  clear x. induction l as [|x l IH]; intros i j; cbn [traverseI]; [done|]. by rewrite (IH (S i) (S j)).
Qed.

Lemma traverse_ext {A B} (f g : A → Res E B) l :
  (∀ x, x ∈ l → f x = g x) → traverse f l = traverse g l.
Proof.
  induction l as [|x l IH]; intros Hfg; [done|]. rewrite !traverse_cons, Hfg, IH; [done| |by constructor].
  intros y Hy. apply Hfg. by constructor.
Qed.

Lemma vtraverseI_Ok {A B n} (f : nat → A → Res E B) i (v : vec A n) (w : vec B n) :
  vtraverseI f i v = Ok w ↔ ∀ j : fin n, f (i + fin_to_nat j)%nat (v !!! j) = Ok (w !!! j).
Proof.
  revert i w. induction v as [|x n v IH]; intros i w; cbn [vtraverseI].
  { inv_vec w. split; [intros _ j; inv_fin j|done]. }
  inv_vec w. intros y w. rewrite bind_Ok. split.
  - intros (y' & Hy & (ys & Hys & Heq)%bind_Ok). apply (inj Ok) in Heq.
    pose proof (proj1 (IH _ _) Hys) as Hys'.
    apply vcons_inj in Heq as [-> ->]. intros j. inv_fin j; cbn.
    + by rewrite Nat.add_0_r.
    + intros j. rewrite <-Nat.add_succ_comm. apply Hys'.
  - intros H. exists y. split; [specialize (H 0%fin); cbn in H; by rewrite Nat.add_0_r in H|].
    apply bind_Ok. exists w. split; [|done]. apply IH. intros j. specialize (H (FS j)). cbn in H.
    by rewrite <-Nat.add_succ_comm in H.
Qed.

(** The error of a traversal is the one of its first failing element. *)
Lemma traverseI_Err {A B} (f : nat → A → Res E B) i l e :
  traverseI f i l = Err e →
  ∃ j x, l !! j = Some x ∧ f (i + j)%nat x = Err e.
Proof.
  revert i. induction l as [|x l IH]; intros i; cbn; [done|].
  rewrite bind_Err. intros [H|(y & ? & H)].
  - exists 0%nat, x. by rewrite Nat.add_0_r.
  - apply bind_Err in H as [H|(ys & _ & ?)]; [|done].
    apply IH in H as (j & z & ? & Hz). exists (S j), z.
    split; [done|]. by rewrite <-Nat.add_succ_comm.
Qed.
End loops.

(** ** Machine integers *)

(** [uint64] and [int64] conversions: reduction modulo [2^64], the latter into
    the signed range. Go's integer operations are these applied to the exact
    result. *)
Definition u64 (x : Z) : Z := x `mod` 2 ^ 64.
Definition i64 (x : Z) : Z := (x + 2 ^ 63) `mod` 2 ^ 64 - 2 ^ 63.

Definition is_u64 (x : Z) : Prop := 0 ≤ x < 2 ^ 64.
Definition is_i64 (x : Z) : Prop := - 2 ^ 63 ≤ x < 2 ^ 63.
#[global] Instance is_u64_dec x : Decision (is_u64 x).
Proof. unfold is_u64. apply _. Defined.
#[global] Instance is_i64_dec x : Decision (is_i64 x).
Proof. unfold is_i64. apply _. Defined.

Definition MaxInt64 : Z := 2 ^ 63 - 1.

Lemma u64_id x : is_u64 x → u64 x = x.
Proof. intros. by apply Z.mod_small. Qed.
Lemma u64_range x : is_u64 (u64 x).
Proof. by apply Z.mod_pos_bound. Qed.
Lemma i64_id x : is_i64 x → i64 x = x.
Proof. unfold is_i64, i64. intros. rewrite Z.mod_small; lia. Qed.
Lemma i64_range x : is_i64 (i64 x).
Proof. unfold is_i64, i64. pose proof (Z.mod_pos_bound (x + 2^63) (2^64)). lia. Qed.
Lemma i64_add_period x k : i64 (x + k * 2 ^ 64) = i64 x.
Proof.
  unfold i64. replace (x + k * 2 ^ 64 + 2 ^ 63) with (x + 2 ^ 63 + k * 2 ^ 64) by ring.
  by rewrite Z_mod_plus_full.
Qed.
Lemma i64_mul_l x y : i64 (i64 x * y) = i64 (x * y).
Proof.
  unfold i64 at 2. set (q := (x + 2 ^ 63) / 2 ^ 64).
  replace ((x + 2 ^ 63) `mod` 2 ^ 64 - 2 ^ 63) with (x + (- q) * 2 ^ 64)
    by (pose proof (Z.div_mod (x + 2 ^ 63) (2 ^ 64)); lia).
  replace ((x + (- q) * 2 ^ 64) * y) with (x * y + (- q * y) * 2 ^ 64) by ring.
  apply i64_add_period.
Qed.
Lemma u64_i64 x : is_i64 x → i64 (u64 x) = x.
Proof.
  unfold is_i64, u64. intros H. destruct (decide (0 ≤ x)).
  - rewrite Z.mod_small, i64_id; unfold is_i64; lia.
  - replace x with (x + 2 ^ 64 + (-1) * 2 ^ 64) at 1 by ring.
    rewrite Z_mod_plus_full, Z.mod_small by lia.
    replace (x + 2 ^ 64) with (x + 1 * 2 ^ 64) by ring.
    by rewrite i64_add_period, i64_id.
Qed.

Lemma i64_u64 x : is_u64 x → u64 (i64 x) = x.
Proof.
  unfold is_u64, u64, i64. intros H.
  rewrite (Z.mod_eq (x + 2 ^ 63) (2 ^ 64)) by lia. set (q := (x + 2 ^ 63) / 2 ^ 64).
  replace (x + 2 ^ 63 - 2 ^ 64 * q - 2 ^ 63) with (x + (- q) * 2 ^ 64) by ring.
  by rewrite Z_mod_plus_full, Z.mod_small.
Qed.

(** Go's [/] and [big.Int.Quo] truncate; where the quotient is positive they
    are the floor. *)
Lemma quot_div_pos a b :
  0 < b → (a ÷ b <=? 0) = (a / b <=? 0) ∧ (0 < a / b → a ÷ b = a / b).
Proof.
  intros Hb. destruct (Z.le_gt_cases 0 a) as [Ha|Ha].
  { by rewrite Z.quot_div_nonneg by lia. }
  assert (a / b < 0) by (apply Z.div_lt_upper_bound; lia). split; [|lia].
  rewrite (proj2 (Z.leb_le (a / b) 0)) by lia. apply Z.leb_le.
  rewrite <-(Z.opp_involutive a), Z.quot_opp_l, Z.quot_div_nonneg by lia.
  pose proof (Z.div_pos (- a) b). lia.
Qed.

(** ** Sums *)

Definition sum_of {A} (f : A → Z) (l : list A) : Z := foldr (λ x acc, f x + acc) 0 l.

Section sums.
Context {A : Type}.
Implicit Types (f g : A → Z) (l : list A).

Lemma sum_of_cons f x l : sum_of f (x :: l) = f x + sum_of f l.
Proof. done. Qed.

Lemma sum_of_app f l1 l2 : sum_of f (l1 ++ l2) = sum_of f l1 + sum_of f l2.
Proof. induction l1 as [|x l1 IH]; [done|]. cbn [app]. rewrite !sum_of_cons. lia. Qed.

Lemma sum_of_ext f g l : (∀ x, x ∈ l → f x = g x) → sum_of f l = sum_of g l.
Proof.
  induction l as [|x l IH]; intros H; [done|]. rewrite !sum_of_cons, IH, H by set_solver. done.
Qed.

Lemma sum_of_perm f l l' : l ≡ₚ l' → sum_of f l = sum_of f l'.
Proof. induction 1; rewrite ?sum_of_cons; lia. Qed.

Lemma sum_of_le f g l : (∀ x, x ∈ l → f x ≤ g x) → sum_of f l ≤ sum_of g l.
Proof.
  induction l as [|x l IH]; intros H; [done|]. rewrite !sum_of_cons.
  specialize (IH ltac:(set_solver)). specialize (H x ltac:(set_solver)). lia.
Qed.

Lemma sum_of_const (c : Z) l : sum_of (λ _, c) l = c * Z.of_nat (length l).
Proof. induction l as [|x l IH]; [cbn; lia|]. cbn [length]. rewrite sum_of_cons, IH. lia. Qed.

Lemma sum_of_0 f l : (∀ x, x ∈ l → f x = 0) → sum_of f l = 0.
Proof. intros H. rewrite (sum_of_ext f (λ _, 0)) by done. rewrite sum_of_const. lia. Qed.

Lemma sum_of_nonneg f l : (∀ x, x ∈ l → 0 ≤ f x) → 0 ≤ sum_of f l.
Proof. intros H. apply (sum_of_le (λ _, 0)) in H. by rewrite sum_of_const in H. Qed.

Lemma sum_of_elem_le f l x : (∀ y, y ∈ l → 0 ≤ f y) → x ∈ l → f x ≤ sum_of f l.
Proof.
  intros H Hx. induction Hx as [x l|x y l Hx IH]; rewrite sum_of_cons.
  - assert (0 ≤ sum_of f l); [apply sum_of_nonneg; set_solver|lia].
  - specialize (IH ltac:(set_solver)). specialize (H y ltac:(set_solver)). lia.
Qed.

Lemma sum_of_add f g l : sum_of (λ x, f x + g x) l = sum_of f l + sum_of g l.
Proof. induction l as [|x l IH]; [done|]. rewrite !sum_of_cons, IH. lia. Qed.

Lemma sum_of_mul_l (c : Z) f l : sum_of (λ x, c * f x) l = c * sum_of f l.
Proof. induction l as [|x l IH]; [cbn; lia|]. rewrite !sum_of_cons, IH. lia. Qed.

Lemma sum_of_fmap {B} (g : B → A) f (l : list B) : sum_of f (g <$> l) = sum_of (λ x, f (g x)) l.
Proof. induction l as [|x l IH]; [done|]. rewrite fmap_cons, !sum_of_cons, IH. done. Qed.

(** Elements where [f] vanishes may be dropped. *)
Lemma sum_of_filter (P : A → Prop) `{!∀ x, Decision (P x)} f l :
  (∀ x, x ∈ l → ¬ P x → f x = 0) → sum_of f (filter P l) = sum_of f l.
Proof.
  induction l as [|x l IH]; intros Hf; [done|]. rewrite filter_cons.
  destruct (decide (P x)); rewrite !sum_of_cons, IH by set_solver; [done|].
  rewrite (Hf x) by set_solver. lia.
Qed.

(** Flooring each share of a sum loses less than one unit per share. *)
Lemma sum_of_div_bounds f (d : Z) l :
  0 < d →
  d * sum_of (λ x, f x / d) l ≤ sum_of f l ≤
    d * sum_of (λ x, f x / d) l + (d - 1) * Z.of_nat (length l).
Proof.
  intros Hd. induction l as [|x l IH]; [cbn; lia|].
  rewrite !sum_of_cons. cbn [length]. rewrite Nat2Z.inj_succ.
  pose proof (Z.mod_pos_bound (f x) d Hd). pose proof (Z.div_mod (f x) d ltac:(lia)). lia.
Qed.
End sums.

Lemma elem_of_exists_cons {A} (P : A → Prop) x l :
  (∃ y, y ∈ x :: l ∧ P y) ↔ P x ∨ ∃ y, y ∈ l ∧ P y.
Proof.
  split.
  - intros (y & [->|?]%elem_of_cons & ?); [by left|right; by exists y].
  - intros [?|(y & ? & ?)]; [exists x|exists y]; (split; [|done]); [by left|by right].
Qed.

(** Splits membership in a literal list into its cases. *)
Ltac each_in H :=
  repeat (apply elem_of_cons in H as [->|H]); [..|by apply elem_of_nil in H].

(** ** Filters that keep all or nothing *)

Section filters.
Context {A : Type} (P : A → Prop) `{!∀ x, Decision (P x)}.

Lemma filter_all l : Forall P l → filter P l = l.
Proof. induction 1 as [|x l Hx _ IH]; [done|]. by rewrite filter_cons_True, IH. Qed.

Lemma filter_none l : Forall (λ x, ¬ P x) l → filter P l = [].
Proof. induction 1 as [|x l Hx _ IH]; [done|]. by rewrite filter_cons_False. Qed.
End filters.

(** What holds of a list holds of what a filter keeps. *)
Lemma Forall_filter_keep {A} (P Q : A → Prop) `{!∀ x, Decision (P x)} (l : list A) :
  Forall Q l → Forall Q (filter P l).
Proof. rewrite !Forall_forall. intros HQ x [_ ?]%list_elem_of_filter. by apply HQ. Qed.

Lemma StronglySorted_filter {A} (R : A → A → Prop) (P : A → Prop) `{!∀ x, Decision (P x)} l :
  StronglySorted R l → StronglySorted R (filter P l).
Proof.
  induction 1 as [|x l _ IH Hx]; [constructor|]. rewrite filter_cons. destruct (decide (P x)); [|done].
  constructor; [done|]. rewrite Forall_forall in Hx |- *. intros y [_ Hy]%list_elem_of_filter. by apply Hx.
Qed.

(** In a list sorted by a key, two adjoining ranges of it are one. *)
Lemma filter_ranges {A} (f : A → Z) (P Q R : A → Prop) `{!∀ x, Decision (P x), !∀ x, Decision (Q x), !∀ x, Decision (R x)}
    lo mid hi l :
  (∀ x, P x ↔ lo ≤ f x ≤ hi) → (∀ x, Q x ↔ lo ≤ f x ≤ mid) → (∀ x, R x ↔ mid + 1 ≤ f x ≤ hi) →
  StronglySorted (λ x y, f x ≤ f y) l → lo ≤ mid + 1 → mid ≤ hi →
  filter P l = filter Q l ++ filter R l.
Proof.
  intros HP HQ HR Hs Hlo Hhi. induction Hs as [|x l Hs IH Hx]; [done|]. rewrite !filter_cons.
  destruct (decide (P x)) as [Hp|Hp], (decide (Q x)) as [Hq|Hq], (decide (R x)) as [Hr|Hr];
    rewrite HP in Hp; rewrite HQ in Hq; rewrite HR in Hr; try lia.
  - by rewrite IH.
  - assert (filter Q l = []) as Hnone.
    { apply filter_none. eapply Forall_impl; [exact Hx|]. intros y Hy. rewrite HQ. cbn in Hy. lia. }
    by rewrite IH, Hnone.
  - exact IH.
Qed.

(** A list sorted by a relation is sorted by a coarser one. *)
Lemma StronglySorted_weaken {A} (R S : A → A → Prop) l :
  (∀ x y, R x y → S x y) → StronglySorted R l → StronglySorted S l.
Proof.
  intros HRS. induction 1 as [|x l _ IH Hx]; constructor; [done|].
  eapply Forall_impl; [exact Hx|]. cbn. auto.
Qed.

(** ** Extremes of a list of integers *)

Definition min_of (l : list Z) : option Z :=
  foldr (λ x o, Some (match o with Some m => x `min` m | None => x end)) None l.
Definition max_of (l : list Z) : option Z :=
  foldr (λ x o, Some (match o with Some m => x `max` m | None => x end)) None l.

Lemma min_of_spec l m : min_of l = Some m ↔ m ∈ l ∧ ∀ x, x ∈ l → m ≤ x.
Proof.
  revert m. induction l as [|y l IH]; intros m; cbn [min_of foldr]; [set_solver|].
  fold (min_of l). destruct (min_of l) as [m'|] eqn:E.
  - destruct (proj1 (IH m') eq_refl) as [Hin Hle]. split.
    + intros [= <-]. split; [destruct (Z.min_spec y m') as [[_ ->]|[_ ->]]; set_solver|].
      intros x [->|Hx]%elem_of_cons; [lia|]. specialize (Hle x Hx). lia.
    + intros [Hm Hle']. f_equal. specialize (Hle' y ltac:(set_solver)) as Hy.
      specialize (Hle' m' ltac:(set_solver)) as Hm'.
      apply elem_of_cons in Hm as [->|Hm]; [lia|]. specialize (Hle m Hm). lia.
  - assert (l = []) as -> by by destruct l. split; [intros [= <-]; set_solver|].
    intros [[->|?]%elem_of_cons _]; [done|set_solver].
Qed.

Lemma max_of_spec l m : max_of l = Some m ↔ m ∈ l ∧ ∀ x, x ∈ l → x ≤ m.
Proof.
  revert m. induction l as [|y l IH]; intros m; cbn [max_of foldr]; [set_solver|].
  fold (max_of l). destruct (max_of l) as [m'|] eqn:E.
  - destruct (proj1 (IH m') eq_refl) as [Hin Hle]. split.
    + intros [= <-]. split; [destruct (Z.max_spec y m') as [[_ ->]|[_ ->]]; set_solver|].
      intros x [->|Hx]%elem_of_cons; [lia|]. specialize (Hle x Hx). lia.
    + intros [Hm Hle']. f_equal. specialize (Hle' y ltac:(set_solver)) as Hy.
      specialize (Hle' m' ltac:(set_solver)) as Hm'.
      apply elem_of_cons in Hm as [->|Hm]; [lia|]. specialize (Hle m Hm). lia.
  - assert (l = []) as -> by by destruct l. split; [intros [= <-]; set_solver|].
    intros [[->|?]%elem_of_cons _]; [done|set_solver].
Qed.

Lemma min_of_None l : min_of l = None ↔ l = [].
Proof. by destruct l. Qed.
Lemma max_of_None l : max_of l = None ↔ l = [].
Proof. by destruct l. Qed.

(** On an ascending list the extremes are its ends. *)
Lemma min_of_sorted l : StronglySorted Z.le l → min_of l = head l.
Proof.
  destruct 1 as [|x l _ Hx]; [done|]. apply min_of_spec. rewrite Forall_forall in Hx.
  split; [set_solver|]. intros y [->|?]%elem_of_cons; [done|by apply Hx].
Qed.
Lemma max_of_sorted l : StronglySorted Z.le l → max_of l = last l.
Proof.
  induction l as [|x l _] using rev_ind; [done|].
  rewrite StronglySorted_app, last_snoc. intros (Hx & _). apply max_of_spec.
  split; [set_solver|]. intros y [Hy|Hy]%elem_of_app; [|set_solver].
  apply Hx; set_solver.
Qed.

Lemma min_of_perm l l' : l ≡ₚ l' → min_of l = min_of l'.
Proof.
  intros Hp. destruct (min_of l') as [m|] eqn:E.
  - apply min_of_spec. apply min_of_spec in E. by setoid_rewrite Hp.
  - apply min_of_None in E as ->. by apply min_of_None, Permutation_nil_r.
Qed.
Lemma max_of_perm l l' : l ≡ₚ l' → max_of l = max_of l'.
Proof.
  intros Hp. destruct (max_of l') as [m|] eqn:E.
  - apply max_of_spec. apply max_of_spec in E. by setoid_rewrite Hp.
  - apply max_of_None in E as ->. by apply max_of_None, Permutation_nil_r.
Qed.

(** ** Calls that never panic

    What a call is made of decides whether it can end in a Fault. *)

Definition no_fault {E A} (m : Res E A) : Prop := ∀ x, m ≠ Fault x.

Section no_fault.
Context {E : Type}.

Lemma no_fault_Ok {A} (a : A) : no_fault (Ok a : Res E A).
Proof. by intros x. Qed.
Lemma no_fault_Err {A} (e : E) : no_fault (Err e : Res E A).
Proof. by intros x. Qed.
Lemma no_fault_bind {A B} (m : Res E A) (f : A → Res E B) : no_fault m → (∀ a, no_fault (f a)) → no_fault (m ≫= f).
Proof. intros Hm Hf x [H|(a & _ & H)]%bind_Fault; [by eapply Hm|by eapply Hf]. Qed.
Lemma no_fault_wrap {E' A} (g : E → E') (m : Res E A) : no_fault m → no_fault (wrap g m).
Proof. intros Hm x H%wrap_Fault. by eapply Hm. Qed.
Lemma no_fault_or_err {A} (o : option A) (e : E) : no_fault (or_err o e).
Proof. by destruct o. Qed.
Lemma no_fault_foldM {S A} (f : S → A → Res E S) l s : (∀ s x, no_fault (f s x)) → no_fault (foldM f l s).
Proof. intros Hf. revert s. induction l as [|x l IH]; intros s; cbn [foldM]; [by intros ?|]. by apply no_fault_bind. Qed.
Lemma no_fault_traverseI {A B} (f : nat → A → Res E B) i l : (∀ i x, no_fault (f i x)) → no_fault (traverseI f i l).
Proof.
  intros Hf. revert i. induction l as [|x l IH]; intros i; cbn [traverseI]; [by intros ?|].
  apply no_fault_bind; [done|]. intros y. by apply no_fault_bind.
Qed.
Lemma no_fault_vtraverseI {A B n} (f : nat → A → Res E B) i (v : vec A n) :
  (∀ i x, no_fault (f i x)) → no_fault (vtraverseI f i v).
Proof.
  intros Hf. revert i. induction v as [|x n v IH]; intros i; cbn [vtraverseI]; [by intros ?|].
  apply no_fault_bind; [done|]. intros y. by apply no_fault_bind.
Qed.
End no_fault.

Create HintDb faults.
#[export] Hint Resolve no_fault_Ok no_fault_Err no_fault_or_err no_fault_wrap : faults.

(** Goes through a decoder's steps. *)
Ltac solve_faults :=
  repeat first
    [ done
    | progress eauto with faults
    | apply no_fault_bind; [|intros ?]
    | apply no_fault_foldM; intros ? ?
    | apply no_fault_traverseI; intros ? ?
    | apply no_fault_vtraverseI; intros ? ?
    | apply no_fault_wrap
    | case_match ].
