(* ===== verification/Sorts.v ===== *)
(** * Go's sorts and binary searches

    [slices.SortStableFunc] returns the one stable sorted permutation of its
    input, which [sort_by] computes. [slices.SortFunc] is not stable, so it
    returns some sorted permutation; where the code uses it the keys are
    distinct, and [sort_by_unique] says that then there is only one. *)
From S2P Require Import Prelude.

Class CompareLaws {A} (cmp : A → A → comparison) : Prop := {
  cmp_antisym : ∀ x y, cmp y x = CompOpp (cmp x y);
  cmp_trans : ∀ x y z, cmp x y ≠ Gt → cmp y z ≠ Gt → cmp x z ≠ Gt;
}.

(** Comparison functions that only equate equal values. *)
Class CompareEq {A} (cmp : A → A → comparison) : Prop :=
  cmp_eq : ∀ x y, cmp x y = Eq → x = y.

Fixpoint insert_by {A} (cmp : A → A → comparison) (x : A) (l : list A) : list A :=
  match l with
  | [] => [x]
  | y :: l' => match cmp x y with Gt => y :: insert_by cmp x l' | _ => x :: l end
  end.

Definition sort_by {A} (cmp : A → A → comparison) (l : list A) : list A :=
  foldr (insert_by cmp) [] l.

Definition cmp_le {A} (cmp : A → A → comparison) (x y : A) : Prop := cmp x y ≠ Gt.
Definition cmp_lt {A} (cmp : A → A → comparison) (x y : A) : Prop := cmp x y = Lt.

(** Sorting by a key. *)
Definition compare_on {A B} (f : A → B) (cmp : B → B → comparison) (x y : A) : comparison :=
  cmp (f x) (f y).

#[global] Instance compare_on_laws {A B} (f : A → B) cmp `{!CompareLaws cmp} :
  CompareLaws (compare_on f cmp).
Proof.
  split; unfold compare_on; intros; [apply cmp_antisym|by eapply cmp_trans].
Qed.

#[global] Instance Zcompare_laws : CompareLaws Z.compare.
Proof.
  split; [intros; by rewrite Z.compare_antisym|].
  intros x y z. rewrite !Z.compare_le_iff. lia.
Qed.
#[global] Instance Zcompare_eq : CompareEq Z.compare.
Proof. intros x y. apply Z.compare_eq. Qed.

Section sort.
Context {A} (cmp : A → A → comparison) `{!CompareLaws cmp}.

Lemma cmp_refl x : cmp x x = Eq.
Proof. pose proof (cmp_antisym (cmp:=cmp) x x). by destruct (cmp x x). Qed.

Lemma cmp_le_total x y : cmp_le cmp x y ∨ cmp_le cmp y x.
Proof. unfold cmp_le. rewrite (cmp_antisym (cmp:=cmp) x y). destruct (cmp x y); cbn; auto. Qed.

Lemma insert_by_perm x l : insert_by cmp x l ≡ₚ x :: l.
Proof.
  induction l as [|y l IH]; [done|]. cbn. destruct (cmp x y); [done..|].
  rewrite IH. by constructor.
Qed.

Lemma sort_by_perm l : sort_by cmp l ≡ₚ l.
Proof.
  induction l as [|x l IH]; [done|]. cbn. rewrite insert_by_perm.
  by constructor.
Qed.

Lemma elem_of_sort_by x l : x ∈ sort_by cmp l ↔ x ∈ l.
Proof. by rewrite sort_by_perm. Qed.

Lemma length_sort_by l : length (sort_by cmp l) = length l.
Proof. by rewrite sort_by_perm. Qed.

Lemma insert_by_sorted x l :
  StronglySorted (cmp_le cmp) l → StronglySorted (cmp_le cmp) (insert_by cmp x l).
Proof.
  induction 1 as [|y l Hl IH Hy]; cbn; [by repeat constructor|].
  destruct (cmp x y) eqn:E.
  - constructor; [by constructor|]. constructor; [by unfold cmp_le; rewrite E|].
    eapply Forall_impl; [exact Hy|]. intros z. apply (cmp_trans (cmp:=cmp)). by rewrite E.
  - constructor; [by constructor|]. constructor; [by unfold cmp_le; rewrite E|].
    eapply Forall_impl; [exact Hy|]. intros z. apply (cmp_trans (cmp:=cmp)). by rewrite E.
  - constructor; [done|]. rewrite insert_by_perm. constructor; [|done].
    unfold cmp_le. rewrite (cmp_antisym (cmp:=cmp) x y), E. done.
Qed.

Lemma sort_by_sorted l : StronglySorted (cmp_le cmp) (sort_by cmp l).
Proof. induction l; cbn; [constructor|by apply insert_by_sorted]. Qed.

(** A sorted permutation with distinct keys is the only one. *)
Lemma sorted_perm_unique l1 l2 :
  (∀ x y, x ∈ l1 → y ∈ l1 → cmp x y = Eq → x = y) →
  StronglySorted (cmp_le cmp) l1 → StronglySorted (cmp_le cmp) l2 →
  l1 ≡ₚ l2 → l1 = l2.
Proof.
  intros Heq H1 H2 Hp. eapply StronglySorted_unique_strong; [|done..].
  intros x y Hx Hy. rewrite <-Hp in Hy. unfold cmp_le. rewrite (cmp_antisym (cmp:=cmp) x y).
  intros. apply Heq; [done..|]. by destruct (cmp x y).
Qed.

Lemma sort_by_unique l l' :
  (∀ x y, x ∈ l → y ∈ l → cmp x y = Eq → x = y) →
  StronglySorted (cmp_le cmp) l' → l' ≡ₚ l → l' = sort_by cmp l.
Proof.
  intros Heq Hs Hp. symmetry.
  apply sorted_perm_unique; [|apply sort_by_sorted|done|by rewrite sort_by_perm].
  intros x y. rewrite !elem_of_sort_by. apply Heq.
Qed.

(** The order of the input is immaterial when the keys are distinct. *)
Lemma sort_by_Permutation l l' :
  (∀ x y, x ∈ l → y ∈ l → cmp x y = Eq → x = y) →
  l ≡ₚ l' → sort_by cmp l = sort_by cmp l'.
Proof.
  intros Heq Hp. symmetry. apply sort_by_unique; [done|apply sort_by_sorted|].
  by rewrite sort_by_perm.
Qed.

(** Distinct keys sort into a strictly ascending list. *)
Lemma sort_by_strict l :
  NoDup l → (∀ x y, x ∈ l → y ∈ l → cmp x y = Eq → x = y) →
  StronglySorted (cmp_lt cmp) (sort_by cmp l).
Proof.
  intros Hnd Heq. pose proof (sort_by_sorted l) as Hs.
  assert (NoDup (sort_by cmp l)) as Hnd' by by rewrite sort_by_perm.
  assert (∀ x y, x ∈ sort_by cmp l → y ∈ sort_by cmp l → cmp x y = Eq → x = y) as Heq'.
  { intros x y. rewrite !elem_of_sort_by. apply Heq. }
  clear Hnd Heq. induction Hs as [|x k Hs IH Hx]; [constructor|].
  apply NoDup_cons in Hnd' as [Hni Hnd']. constructor.
  { apply IH; [done|]. intros y z Hy Hz. apply Heq'; by constructor. }
  rewrite Forall_forall in Hx |- *. intros y Hy. specialize (Hx y Hy).
  unfold cmp_le, cmp_lt in *. destruct (cmp x y) eqn:E; [|done..].
  apply Heq' in E as ->; [done|by constructor..].
Qed.
End sort.

(** Sorting by a key sorts the keys. *)
Lemma fmap_sort_by {A B} (f : A → B) (cmp : B → B → comparison) (l : list A) :
  f <$> sort_by (compare_on f cmp) l = sort_by cmp (f <$> l).
Proof.
  induction l as [|x l IH]; [done|]. cbn [sort_by foldr fmap list_fmap].
  fold (sort_by (compare_on f cmp) l). fold (sort_by cmp (f <$> l)). rewrite <-IH. clear IH.
  generalize (sort_by (compare_on f cmp) l). intros k.
  induction k as [|y k IH]; [done|]. cbn [insert_by fmap list_fmap]. unfold compare_on at 1.
  destruct (cmp (f x) (f y)); [done..|]. cbn. by f_equal.
Qed.

(** With a comparison that only equates equal values, sorting forgets the order. *)
Lemma sort_by_eq_Permutation {A} (cmp : A → A → comparison) `{!CompareLaws cmp, !CompareEq cmp} l l' :
  l ≡ₚ l' → sort_by cmp l = sort_by cmp l'.
Proof. apply sort_by_Permutation; [done|]. intros x y _ _. apply cmp_eq. Qed.

Create HintDb go_sort.
#[export] Hint Resolve sort_by_sorted sort_by_perm : go_sort.
#[export] Hint Extern 1 (CompareLaws _) => typeclasses eauto : go_sort.

(** ** Binary searches

    [sort.Search] and [slices.BinarySearchFunc], the two binary searches of the
    standard library the sources call. The loop [for i < j] halves the interval,
    so fuel equal to its length is enough ([search_loop_total]). *)


(** The loop of [sort.Search(n, f)] on the interval [i, j), with a predicate
    that may fail. *)
Fixpoint search_loop {E} (fuel : nat) (f : nat → Res E bool) (i j : nat) : Res E nat :=
  if (i <? j)%nat then
    match fuel with
    | O => Fault OutOfFuel
    | S fuel =>
        let h := ((i + j) / 2)%nat in
        b ← f h;
        if (b : bool) then search_loop fuel f i h else search_loop fuel f (S h) j
    end
  else Ok i.

Definition Search {E} (n : nat) (f : nat → Res E bool) : Res E nat := search_loop n f 0 n.

(** [_, found := slices.BinarySearchFunc(x, target, cmp)]. *)
Definition BinarySearchFound {A} (cmp : A → A → comparison) (x : list A) (target : A) : bool :=
  match Search (E:=Empty_set) (length x) (λ h,
          match x !! h with
          | Some y => Ok (match cmp y target with Lt => false | _ => true end)
          | None => Fault GoPanic
          end) with
  | Ok i => match x !! i with
            | Some y => match cmp y target with Eq => true | _ => false end
            | None => false
            end
  | _ => false
  end.

Section search.
Context {E : Type} (f : nat → Res E bool) (p : nat → bool) (n : nat).
Hypothesis f_total : ∀ h, (h < n)%nat → f h = Ok (p h).

(** What the search returns for any total predicate: a point where it turns
    from false to true. *)
Lemma search_loop_total fuel i j :
  (i ≤ j ≤ n)%nat → (j - i ≤ fuel)%nat →
  (i = 0%nat ∨ p (pred i) = false) → (j = n ∨ p j = true) →
  ∃ k, search_loop fuel f i j = Ok k ∧ (i ≤ k ≤ j)%nat ∧
       (k = 0%nat ∨ p (pred k) = false) ∧ (k = n ∨ p k = true).
Proof.
  revert i j. induction fuel as [|fuel IH]; intros i j Hij Hf Hi Hj; cbn [search_loop];
    destruct (Nat.ltb_spec i j); try (exists i; assert (i = j) as <- by lia; split; [done|]; by split; [lia|]).
  { lia. }
  set (h := ((i + j) / 2)%nat).
  assert (i ≤ h < j)%nat as Hh.
  { unfold h. split; [apply Nat.div_le_lower_bound|apply Nat.Div0.div_lt_upper_bound]; lia. }
  rewrite f_total by lia. cbn [mbind Res_bind]. destruct (p h) eqn:Ep.
  - destruct (IH i h) as (k & -> & ? & ?); [lia..|done|by right|].
    exists k. split; [done|]. split; [lia|done].
  - destruct (IH (S h) j) as (k & -> & ? & ?); [lia..|by right|done|].
    exists k. split; [done|]. split; [lia|done].
Qed.

Lemma Search_total :
  ∃ k, Search n f = Ok k ∧ (k ≤ n)%nat ∧
       (k = 0%nat ∨ p (pred k) = false) ∧ (k = n ∨ p k = true).
Proof.
  destruct (search_loop_total n 0 n) as (k & ? & ? & ?); [lia..|by left|by left|].
  exists k. split; [done|]. split; [lia|done].
Qed.

(** For a predicate that is false and then true, it is the first true index. *)
Lemma Search_first :
  (∀ h h', (h ≤ h' < n)%nat → p h = true → p h' = true) →
  ∃ k, Search n f = Ok k ∧ (k ≤ n)%nat ∧
       (∀ h, (h < k)%nat → p h = false) ∧ (∀ h, (k ≤ h < n)%nat → p h = true).
Proof.
  intros Hmono. destruct Search_total as (k & ? & ? & Hlo & Hhi).
  exists k. split_and!; [done..| |].
  - intros h Hh. destruct Hlo as [->|Hlo]; [lia|].
    destruct (p h) eqn:E1; [|done]. rewrite <-Hlo. symmetry. apply (Hmono h); [lia|done].
  - intros h Hh. destruct Hhi as [->|Hhi]; [lia|]. by apply (Hmono k).
Qed.
End search.

(** On an ascending slice, [found] is membership. *)
Lemma BinarySearchFound_spec {A} (cmp : A → A → comparison)
    `{!CompareLaws cmp, !CompareEq cmp} (x : list A) (target : A) :
  StronglySorted (cmp_le cmp) x →
  BinarySearchFound cmp x target = true ↔ target ∈ x.
Proof.
  intros Hs. unfold BinarySearchFound.
  set (p := λ h, match x !! h with
                 | Some y => match cmp y target with Lt => false | _ => true end
                 | None => false end).
  assert (∀ i j y z, (i ≤ j)%nat → x !! i = Some y → x !! j = Some z → cmp_le cmp y z) as Hle.
  { clear p. induction Hs as [|w x Hs IH Hw]; intros i j y z Hij Hi Hj; [done|].
    destruct i as [|i], j as [|j]; cbn in *; [|..|lia|].
    - simplify_eq. unfold cmp_le. by rewrite (cmp_refl cmp).
    - simplify_eq. rewrite Forall_lookup in Hw. eauto.
    - apply (IH i j); [lia|done..]. }
  destruct (Search_first (E:=Empty_set) (λ h,
    match x !! h with
    | Some y => Ok (match cmp y target with Lt => false | _ => true end)
    | None => Fault GoPanic end) p (length x)) as (k & -> & Hk & Hlo & Hhi).
  { intros h [y Hy]%lookup_lt_is_Some_2. unfold p. by rewrite Hy. }
  { intros h h' [Hhh' Hn]. unfold p.
    destruct (lookup_lt_is_Some_2 x h) as [y Hy]; [lia|].
    destruct (lookup_lt_is_Some_2 x h') as [z Hz]; [lia|]. rewrite Hy, Hz.
    pose proof (Hle h h' y z Hhh' Hy Hz) as Hyz.
    destruct (cmp y target) eqn:Ey, (cmp z target) eqn:Ez; try done;
      exfalso; apply Hyz; rewrite (cmp_antisym (cmp:=cmp) z y).
    - apply (cmp_eq (cmp:=cmp)) in Ey as ->. by rewrite Ez.
    - destruct (cmp z y) eqn:Ezy; [| done|].
      + apply (cmp_eq (cmp:=cmp)) in Ezy as ->. congruence.
      + exfalso. apply (cmp_trans (cmp:=cmp) y z target); [done|by rewrite Ez|done]. }
  split.
  - destruct (x !! k) as [y|] eqn:Ey; [|done]. destruct (cmp y target) eqn:E; [|done..].
    intros _. apply (cmp_eq (cmp:=cmp)) in E as ->. by eapply list_elem_of_lookup_2.
  - intros [i Hi]%list_elem_of_lookup. pose proof (lookup_lt_Some _ _ _ Hi).
    assert (k ≤ i)%nat as Hki.
    { destruct (decide (k ≤ i)%nat); [done|]. specialize (Hlo i ltac:(lia)).
      unfold p in Hlo. rewrite Hi, (cmp_refl cmp) in Hlo. done. }
    destruct (lookup_lt_is_Some_2 x k) as [y Hy]; [lia|]. rewrite Hy.
    specialize (Hhi k ltac:(lia)). unfold p in Hhi. rewrite Hy in Hhi.
    pose proof (Hle k i y target Hki Hy Hi) as Hyt. unfold cmp_le in Hyt.
    by destruct (cmp y target).
Qed.
