(* ===== verification/Bytes.v ===== *)
(** * Bytes, fixed-size arrays and big-endian words

    [[n]byte] is [vec byte n], [[]byte] is [list byte]; [math/big]'s [SetBytes]
    and [FillBytes] and [encoding/binary]'s big-endian words are [be_decode] and
    [be_encode]; [bytes.Compare] is [bytes_compare]. *)
From S2P Require Import Prelude Sorts.

#[global] Instance byte_eq_decision : EqDecision byte := byte_eq_dec.
#[global] Program Instance byte_countable : Countable byte :=
  inj_countable Byte.to_N Byte.of_N _.
Next Obligation. apply Byte.of_to_N. Qed.

Definition byte_to_Z (b : byte) : Z := Z.of_N (Byte.to_N b).

(** [byte(z)]: the low eight bits. *)
Definition byte_of_Z (z : Z) : byte :=
  default x00 (Byte.of_N (Z.to_N (z `mod` 256))).

Lemma byte_to_Z_range b : 0 ≤ byte_to_Z b < 256.
Proof. unfold byte_to_Z. pose proof (Byte.to_N_bounded b). lia. Qed.

Lemma byte_to_of_Z z : byte_to_Z (byte_of_Z z) = z `mod` 256.
Proof.
  unfold byte_to_Z, byte_of_Z. pose proof (Z.mod_pos_bound z 256 ltac:(lia)).
  destruct (Byte.of_N _) as [b|] eqn:E; cbn.
  - apply Byte.to_of_N in E. rewrite E. lia.
  - apply Byte.of_N_None_iff in E. lia.
Qed.

Lemma byte_of_to_Z b : byte_of_Z (byte_to_Z b) = b.
Proof.
  unfold byte_of_Z. pose proof (byte_to_Z_range b).
  rewrite Z.mod_small by done. unfold byte_to_Z. rewrite N2Z.id.
  by rewrite Byte.of_to_N.
Qed.

#[global] Instance byte_to_Z_inj : Inj (=) (=) byte_to_Z.
Proof. intros a b H. by rewrite <-(byte_of_to_Z a), H, byte_of_to_Z. Qed.

Lemma byte_of_Z_mod z : byte_of_Z (z `mod` 256) = byte_of_Z z.
Proof. unfold byte_of_Z. by rewrite Z.mod_mod. Qed.

(** ** Big-endian words *)

(** [new(big.Int).SetBytes(l)]. *)
Definition be_decode (l : list byte) : Z :=
  foldl (λ n b, n * 256 + byte_to_Z b) 0 l.

(** [x.FillBytes(buf)] into [n] bytes (the low [8n] bits). *)
Fixpoint be_encode (n : nat) (z : Z) : list byte :=
  match n with
  | O => []
  | S n => be_encode n (z / 256) ++ [byte_of_Z z]
  end.

Lemma be_decode_snoc l b : be_decode (l ++ [b]) = be_decode l * 256 + byte_to_Z b.
Proof. unfold be_decode. by rewrite foldl_app. Qed.

Lemma length_be_encode n z : length (be_encode n z) = n.
Proof. revert z. induction n; intros z; cbn; [done|]. rewrite length_app, IHn. cbn. lia. Qed.

Lemma be_decode_range l : 0 ≤ be_decode l < 256 ^ Z.of_nat (length l).
Proof.
  induction l as [|b l IH] using rev_ind; [cbn; lia|].
  rewrite be_decode_snoc, length_app, Nat2Z.inj_add, Z.pow_add_r by lia.
  pose proof (byte_to_Z_range b). cbn [length]. change (256 ^ Z.of_nat 1) with 256. nia.
Qed.

Lemma be_decode_encode_mod n z : be_decode (be_encode n z) = z `mod` 256 ^ Z.of_nat n.
Proof.
  revert z. induction n as [|n IH]; intros z; cbn [be_encode].
  { change (256 ^ Z.of_nat 0) with 1. by rewrite Z.mod_1_r. }
  rewrite be_decode_snoc, IH, byte_to_of_Z, Nat2Z.inj_succ, Z.pow_succ_r by lia.
  rewrite Z.rem_mul_r by (try apply Z.pow_pos_nonneg; lia). lia.
Qed.

Lemma be_decode_encode n z : 0 ≤ z < 256 ^ Z.of_nat n → be_decode (be_encode n z) = z.
Proof. intros. rewrite be_decode_encode_mod. by apply Z.mod_small. Qed.

Lemma be_encode_decode l : be_encode (length l) (be_decode l) = l.
Proof.
  induction l as [|b l IH] using rev_ind; [done|].
  rewrite length_app, Nat.add_comm. cbn [length Nat.add be_encode].
  pose proof (byte_to_Z_range b). rewrite be_decode_snoc. f_equal.
  - rewrite Z.div_add_l, Z.div_small, Z.add_0_r by lia. done.
  - rewrite <-byte_of_Z_mod, Z.add_comm, Z_mod_plus_full, byte_of_Z_mod.
    by rewrite byte_of_to_Z.
Qed.

Lemma be_decode_inj l k : length l = length k → be_decode l = be_decode k → l = k.
Proof. intros Hl H. by rewrite <-(be_encode_decode l), <-(be_encode_decode k), Hl, H. Qed.

Lemma be_encode_inj n x y :
  0 ≤ x < 256 ^ Z.of_nat n → 0 ≤ y < 256 ^ Z.of_nat n → be_encode n x = be_encode n y → x = y.
Proof. intros Hx Hy H. rewrite <-(be_decode_encode n x), H; [|done]. by apply be_decode_encode. Qed.

Lemma be_decode_zeros n l : be_decode (replicate n x00 ++ l) = be_decode l.
Proof. induction n as [|n IH]; [done|]. exact IH. Qed.

#[global] Arguments be_encode : simpl never.

(** ** Fixed-size arrays *)

(** [var out [n]byte; copy(out[:], l)]. *)
Fixpoint copy_array (n : nat) (l : list byte) : vec byte n :=
  match n with
  | O => [#]
  | S n => match l with
           | [] => x00 ::: copy_array n []
           | b :: l => b ::: copy_array n l
           end
  end.

Lemma copy_array_to_list n (l : list byte) : length l = n → vec_to_list (copy_array n l) = l.
Proof. revert l. induction n; intros [|b l] [=]; cbn; [done|]. by rewrite IHn. Qed.

Lemma copy_array_of_list n (v : vec byte n) : copy_array n (vec_to_list v) = v.
Proof. apply vec_to_list_inj2. by rewrite copy_array_to_list by apply length_vec_to_list. Qed.

#[global] Arguments copy_array : simpl never.

(** Arrays as map keys, by an encoding that evaluates. *)
#[global] Instance array_countable n : Countable (vec byte n) | 0 :=
  inj_countable vec_to_list (λ l, Some (copy_array n l)) (λ v, f_equal Some (copy_array_of_list n v)).

(** ** [bytes.Compare] *)

Fixpoint bytes_compare (l k : list byte) : comparison :=
  match l, k with
  | [], [] => Eq
  | [], _ :: _ => Lt
  | _ :: _, [] => Gt
  | a :: l, b :: k => match Z.compare (byte_to_Z a) (byte_to_Z b) with
                      | Eq => bytes_compare l k
                      | c => c
                      end
  end.

#[global] Instance bytes_compare_eq : CompareEq bytes_compare.
Proof.
  intros l. induction l as [|a l IH]; intros [|b k]; cbn; try done.
  destruct (Z.compare_spec (byte_to_Z a) (byte_to_Z b)) as [E| |]; try done.
  apply (inj byte_to_Z) in E as ->. intros H. f_equal. by apply IH.
Qed.

#[global] Instance bytes_compare_laws : CompareLaws bytes_compare.
Proof.
  split.
  - intros l. induction l as [|a l IH]; intros [|b k]; cbn; try done.
    rewrite (Z.compare_antisym (byte_to_Z a)).
    destruct (Z.compare (byte_to_Z a) (byte_to_Z b)); cbn; [apply IH|done..].
  - intros l. induction l as [|a l IH]; intros [|b k] [|c m]; cbn; try done.
    destruct (Z.compare_spec (byte_to_Z a) (byte_to_Z b)),
      (Z.compare_spec (byte_to_Z b) (byte_to_Z c)),
      (Z.compare_spec (byte_to_Z a) (byte_to_Z c)); try done; try lia.
    apply IH.
Qed.

(** Comparison of two [[n]byte] values through their slices. *)
Definition array_compare {n} (a b : vec byte n) : comparison :=
  bytes_compare (vec_to_list a) (vec_to_list b).

#[global] Instance array_compare_laws n : CompareLaws (@array_compare n).
Proof.
  split; unfold array_compare; intros; [apply cmp_antisym|by eapply (cmp_trans (cmp:=bytes_compare))].
Qed.
#[global] Instance array_compare_eq n : CompareEq (@array_compare n).
Proof. intros a b H%bytes_compare_eq. by apply vec_to_list_inj2. Qed.

(** ** The types the packages share *)

Definition AddressLen : nat := 20.
Definition HashLen : nat := 32.
Abbreviation Address := (vec byte 20).
Abbreviation Hash := (vec byte 32).

Definition zeroAddress : Address := vreplicate 20 x00.
Definition zeroHash : Hash := vreplicate 32 x00.

#[global] Arguments zeroAddress : simpl never.
#[global] Arguments zeroHash : simpl never.

(** The address with a given numeric value, for concrete histories. *)
Definition address_of (z : Z) : Address := copy_array 20 (be_encode 20 z).
