(* ===== verification/Text.v ===== *)
(** * Numbers and bytes as text

    [strconv.FormatUint], [strconv.ParseUint], [big.Int.String] and
    [encoding/hex], over Go strings as [string]; and float64 with its comparisons. *)
From S2P Require Import Prelude Sorts Bytes.
From Stdlib Require Import QArith.
From Stdlib Require Export Ascii.
From stdpp Require Export strings.

Open Scope Z_scope.

(** ** Digits *)

Definition ascii_code (c : ascii) : Z := Z.of_nat (nat_of_ascii c).
Definition ascii_at (z : Z) : ascii := ascii_of_nat (Z.to_nat z).

(** The digit of value [d], lower case past nine. *)
Definition digit (d : Z) : ascii := if d <? 10 then ascii_at (48 + d) else ascii_at (87 + d).

(** The value of a digit, in either case. *)
Definition digit_value (c : ascii) : option Z :=
  let k := ascii_code c in
  if (48 <=? k) && (k <=? 57) then Some (k - 48)
  else if (97 <=? k) && (k <=? 122) then Some (k - 87)
  else if (65 <=? k) && (k <=? 90) then Some (k - 55)
  else None.

Lemma digit_value_digit d : 0 ≤ d < 36 → digit_value (digit d) = Some d.
Proof.
  intros Hd. assert (∃ n : nat, (n < 36)%nat ∧ d = Z.of_nat n) as (n & Hn & ->).
  { exists (Z.to_nat d). lia. }
  clear Hd. do 36 (destruct n as [|n]; [by vm_compute|]). lia.
Qed.

(** ** Positional notation *)

(** The digits of [n], most significant first, in front of [acc]. *)
Fixpoint format_loop (fuel : nat) (base n : Z) (acc : string) : string :=
  match fuel with
  | O => acc
  | S fuel => if n =? 0 then acc else format_loop fuel base (n / base) (String (digit (n `mod` base)) acc)
  end.

(** [strconv.FormatUint(n, base)] and, at base 10, [big.Int.String] of a value that
    is not negative. A number has at most as many digits as bits. *)
Definition FormatUint (base n : Z) : string :=
  if n =? 0 then "0" else format_loop (Z.to_nat (Z.log2 n + 1)) base n "".

(** [big.Int.String]. *)
Definition BigString (z : Z) : string :=
  if z <? 0 then ("-" ++ FormatUint 10 (- z))%string else FormatUint 10 z.

Fixpoint parse_digits (base acc : Z) (s : string) : option Z :=
  match s with
  | EmptyString => Some acc
  | String c s =>
      match digit_value c with
      | Some d => if d <? base then parse_digits base (acc * base + d) s else None
      | None => None
      end
  end.

(** Unsigned digits in [base], with no bound on their number. *)
Definition ParseDigits (base : Z) (s : string) : option Z :=
  match s with EmptyString => None | _ => parse_digits base 0 s end.

(** [strconv.ParseUint(s, base, 64)]. *)
Definition ParseUint (base : Z) (s : string) : option Z :=
  match ParseDigits base s with
  | Some n => if n <? 2 ^ 64 then Some n else None
  | None => None
  end.

Section positional.
Context (base : Z) (Hbase : 2 ≤ base ≤ 36).

Lemma parse_format_loop fuel n acc0 acc :
  0 ≤ n < 2 ^ Z.of_nat fuel → 
  ∃ w, parse_digits base acc0 (format_loop fuel base n acc) = parse_digits base (acc0 * w + n) acc ∧
       (acc0 = 0 → acc0 * w + n = n).
Proof using Hbase.
  revert n acc. induction fuel as [|fuel IH]; intros n acc Hn; cbn [format_loop].
  { exists 1. replace n with 0 by (cbn in Hn; lia). split; [f_equal; lia|lia]. }
  destruct (Z.eqb_spec n 0) as [->|Hn0].
  { exists 1. split; [f_equal; lia|lia]. }
  assert (0 ≤ n `mod` base < base) by (apply Z.mod_pos_bound; lia).
  destruct (IH (n / base) (String (digit (n `mod` base)) acc)) as (w & -> & Hw).
  { split; [apply Z.div_pos; lia|]. apply Z.div_lt_upper_bound; [lia|].
    rewrite Nat2Z.inj_succ, Z.pow_succ_r in Hn by lia. nia. }
  exists (w * base). cbn [parse_digits].
  rewrite digit_value_digit, (proj2 (Z.ltb_lt _ _)) by lia. split; [|lia]. f_equal.
  pose proof (Z.div_mod n base ltac:(lia)). lia.
Qed.

Lemma format_loop_nonempty fuel n acc : acc ≠ ""%string → format_loop fuel base n acc ≠ ""%string.
Proof using Type.
  revert n acc. induction fuel as [|fuel IH]; intros n acc Hacc; cbn; [done|].
  destruct (n =? 0); [done|]. by apply IH.
Qed.

Lemma ParseDigits_FormatUint n : 0 ≤ n → ParseDigits base (FormatUint base n) = Some n.
Proof using Hbase.
  intros Hn. unfold FormatUint. destruct (Z.eqb_spec n 0) as [->|Hn0].
  { cbn [ParseDigits parse_digits]. change (digit_value "0") with (Some 0).
    cbv beta iota. by rewrite (proj2 (Z.ltb_lt 0 base)) by lia. }
  pose proof (Z.log2_spec n ltac:(lia)) as Hlog. pose proof (Z.log2_nonneg n) as Hlog0.
  assert (0 ≤ n < 2 ^ Z.of_nat (Z.to_nat (Z.log2 n + 1))) as Hf by (rewrite Z2Nat.id; lia).
  destruct (parse_format_loop _ n 0 "" Hf) as (w & Hp & _).
  unfold ParseDigits. destruct (format_loop _ _ _ _) eqn:E.
  - exfalso. destruct (Z.to_nat (Z.log2 n + 1)) eqn:Ef; [lia|]. cbn [format_loop] in E.
    rewrite (proj2 (Z.eqb_neq n 0)) in E by done. by apply format_loop_nonempty in E.
  - rewrite Hp. cbn [parse_digits]. f_equal.
Qed.

Lemma ParseUint_FormatUint n : is_u64 n → ParseUint base (FormatUint base n) = Some n.
Proof using Hbase.
  intros [? ?]. unfold ParseUint. rewrite ParseDigits_FormatUint by done.
  by rewrite (proj2 (Z.ltb_lt _ _)).
Qed.
End positional.

(** ** encoding/hex *)

Definition hex_byte (b : byte) (s : string) : string :=
  String (digit (byte_to_Z b / 16)) (String (digit (byte_to_Z b `mod` 16)) s).

(** [hex.EncodeToString]. *)
Definition EncodeToString (l : list byte) : string := foldr hex_byte "" l.

Definition hex_value (c : ascii) : option Z :=
  d ← digit_value c; if d <? 16 then Some d else None.

(** [hex.DecodeString]: pairs of hex digits in either case. *)
Fixpoint DecodeString (s : string) : option (list byte) :=
  match s with
  | EmptyString => Some []
  | String a (String b s) =>
      x ← hex_value a; y ← hex_value b; l ← DecodeString s;
      Some (byte_of_Z (x * 16 + y) :: l)
  | String _ EmptyString => None
  end.

Lemma DecodeString_EncodeToString l : DecodeString (EncodeToString l) = Some l.
Proof.
  induction l as [|b l IH]; [done|]. cbn [EncodeToString foldr hex_byte DecodeString].
  pose proof (byte_to_Z_range b). pose proof (Z.div_mod (byte_to_Z b) 16 ltac:(lia)).
  pose proof (Z.mod_pos_bound (byte_to_Z b) 16 ltac:(lia)).
  assert (0 ≤ byte_to_Z b / 16 < 16) by
    (split; [apply Z.div_pos; lia|apply Z.div_lt_upper_bound; lia]).
  unfold hex_value. rewrite !digit_value_digit by lia. cbn [mbind option_bind].
  rewrite !(proj2 (Z.ltb_lt _ 16)) by lia. cbn [mbind option_bind].
  fold (EncodeToString l). rewrite IH. cbn [mbind option_bind]. do 2 f_equal.
  replace (byte_to_Z b / 16 * 16 + byte_to_Z b `mod` 16) with (byte_to_Z b) by lia.
  apply byte_of_to_Z.
Qed.

(** Every decoded string is two digits per byte. *)
Lemma DecodeString_length s l :
  DecodeString s = Some l → String.length s = (2 * length l)%nat.
Proof.
  revert l. induction s as [s IH] using (induction_ltof1 _ String.length). intros l.
  destruct s as [|a [|b s]]; cbn [DecodeString]; [by intros [= <-]|done|].
  destruct (hex_value a), (hex_value b); cbn [mbind option_bind]; try done.
  destruct (DecodeString s) as [l'|] eqn:E; cbn [mbind option_bind]; [|done].
  intros [= <-]. apply IH in E; [|unfold ltof; cbn; lia]. cbn. lia.
Qed.

#[global] Instance EncodeToString_inj : Inj (=) (=) EncodeToString.
Proof.
  intros l k H. apply (f_equal DecodeString) in H.
  rewrite !DecodeString_EncodeToString in H. by injection H.
Qed.

(** ** float64 *)

(** A float64: a rational, an infinity or NaN. Zero has no sign. *)
Inductive float64 := Float (q : Q) | Infinite (negative : bool) | NaN.

(** [x <= y], [x == y] and [x < y], none of them true of NaN. *)
Definition float_le (x y : float64) : bool :=
  match x, y with
  | NaN, _ | _, NaN => false
  | Infinite true, _ | _, Infinite false => true
  | Float p, Float q => Qle_bool p q
  | _, _ => false
  end.
Definition float_eq (x y : float64) : bool := float_le x y && float_le y x.
Definition float_lt (x y : float64) : bool := float_le x y && negb (float_le y x).

Definition is_finite (x : float64) : bool := match x with Float _ => true | _ => false end.
