(* ===== verification/Json.v ===== *)
(** * encoding/json

    What [internal/report] writes and [cmd/nutz-verify] reads through it: a document
    as a tree whose strings are kept as they are written, [Marshal]'s strings,
    [Encoder.Encode] with its indentation, and the scanner of [Unmarshal] as the
    state machine it is, one character at a time. *)
From S2P Require Import Prelude Sorts Bytes Text.

#[warnings="-register-all"]
Inductive json :=
  | JNull
  | JBool (b : bool)
  | JNum (literal : string)
  | JStr (raw : string)
  | JArr (items : list json)
  | JObj (fields : list (string * json)).

(** Characters that cannot be written in a Rocq string. *)
Definition quoteChar : ascii := "034".
Definition backslash : ascii := "092".
Definition newline : ascii := "010".

(** ** UTF-8 *)

Definition contBetween (lo hi : Z) (c : ascii) : bool := (lo <=? ascii_code c) && (ascii_code c <=? hi).
Definition cont : ascii → bool := contBetween 128 191.

(** How many bytes follow the first one of the sequence [c :: s], if [utf8.DecodeRune]
    takes it as a rune. *)
Definition runeTail (c : ascii) (s : string) : option nat :=
  let k := ascii_code c in
  if k <? 128 then Some 0%nat
  else match s with
  | EmptyString => None
  | String c1 s =>
      if (194 <=? k) && (k <=? 223) then (if cont c1 then Some 1%nat else None)
      else match s with
      | EmptyString => None
      | String c2 s =>
          if (224 <=? k) && (k <=? 239) then
            let ok := if k =? 224 then contBetween 160 191 c1
                      else if k =? 237 then contBetween 128 159 c1 else cont c1 in
            if ok && cont c2 then Some 2%nat else None
          else match s with
          | EmptyString => None
          | String c3 _ =>
              if (240 <=? k) && (k <=? 244) then
                let ok := if k =? 240 then contBetween 144 191 c1
                          else if k =? 244 then contBetween 128 143 c1 else cont c1 in
                if ok && cont c2 && cont c3 then Some 3%nat else None
              else None
          end
      end
  end.

(** [utf8.ValidString], past [copy] bytes of a rune already checked. *)
Fixpoint validFrom (copy : nat) (s : string) : bool :=
  match s with
  | EmptyString => true
  | String c s =>
      match copy with
      | S copy => validFrom copy s
      | O => match runeTail c s with Some n => validFrom n s | None => false end
      end
  end.
Definition ValidString (s : string) : bool := validFrom 0 s.

(** [string([]rune(s))]: every byte of no rune becomes U+FFFD. *)
Definition replacementText (s : string) : string := String "239" (String "191" (String "189" s)).
Fixpoint runesFrom (copy : nat) (s : string) : string :=
  match s with
  | EmptyString => EmptyString
  | String c s =>
      match copy with
      | S copy => String c (runesFrom copy s)
      | O => match runeTail c s with Some n => String c (runesFrom n s) | None => replacementText (runesFrom 0 s) end
      end
  end.
Definition runesText (s : string) : string := runesFrom 0 s.

(** ** Strings *)

Definition unicodeEscape (d1 d2 d3 d4 : ascii) (s : string) : string :=
  String backslash (String "u" (String d1 (String d2 (String d3 (String d4 s))))).

(** One ASCII byte of [appendString], without HTML escaping. *)
Definition escapeByte (c : ascii) (s : string) : string :=
  let k := ascii_code c in
  if bool_decide (c = quoteChar) || bool_decide (c = backslash) then String backslash (String c s)
  else if 32 <=? k then String c s
  else if k =? 8 then String backslash (String "b" s)
  else if k =? 12 then String backslash (String "f" s)
  else if k =? 10 then String backslash (String "n" s)
  else if k =? 13 then String backslash (String "r" s)
  else if k =? 9 then String backslash (String "t" s)
  else unicodeEscape "0" "0" (digit (k / 16)) (digit (k `mod` 16)) s.

(** The body of [appendString], past [copy] bytes of a rune already written. U+2028
    and U+2029 are escaped; a byte of no rune is written as U+FFFD. *)
Fixpoint quoteFrom (copy : nat) (s : string) : string :=
  match s with
  | EmptyString => EmptyString
  | String c s =>
      match copy with
      | S copy => String c (quoteFrom copy s)
      | O =>
          if ascii_code c <? 128 then escapeByte c (quoteFrom 0 s)
          else
            let rest := match runeTail c s with
                        | Some n => String c (quoteFrom n s)
                        | None => unicodeEscape "f" "f" "f" "d" (quoteFrom 0 s)
                        end in
            match s with
            | String "128" (String c2 s') =>
                if bool_decide (c = "226"%char) && (bool_decide (c2 = "168"%char) || bool_decide (c2 = "169"%char))
                then unicodeEscape "2" "0" "2" (digit (ascii_code c2 `mod` 16)) (quoteFrom 0 s')
                else rest
            | _ => rest
            end
      end
  end.
Definition quoteString (s : string) : string := quoteFrom 0 s.
Definition JText (s : string) : json := JStr (quoteString s).

(** ** [unquote] *)

(** [utf8.EncodeRune]. *)
Definition encodeRune (r : Z) (s : string) : string :=
  if r <? 128 then String (ascii_at r) s
  else if r <? 2048 then String (ascii_at (192 + r / 64)) (String (ascii_at (128 + r `mod` 64)) s)
  else if (55296 <=? r) && (r <=? 57343) || (1114111 <? r) then String "239" (String "191" (String "189" s))
  else if r <? 65536 then
    String (ascii_at (224 + r / 4096)) (String (ascii_at (128 + (r / 64) `mod` 64)) (String (ascii_at (128 + r `mod` 64)) s))
  else String (ascii_at (240 + r / 262144)) (String (ascii_at (128 + (r / 4096) `mod` 64))
         (String (ascii_at (128 + (r / 64) `mod` 64)) (String (ascii_at (128 + r `mod` 64)) s))).

Definition replacement : Z := 65533.

(** [getu4], past the backslash and the u. *)
Definition hex4 (a b c d : ascii) : Z :=
  let v x := default 0 (hex_value x) in ((v a * 16 + v b) * 16 + v c) * 16 + v d.

Definition isSurrogate (r : Z) : bool := (55296 <=? r) && (r <=? 57343).
(** [utf16.DecodeRune]. *)
Definition decodeSurrogates (hi lo : Z) : Z :=
  if (55296 <=? hi) && (hi <? 56320) && (56320 <=? lo) && (lo <? 57344)
  then (hi - 55296) * 1024 + (lo - 56320) + 65536 else replacement.

(** A raw string as [unquote] reads it, past [copy] bytes of a rune. The scanner has
    checked the escapes. *)
Fixpoint unquoteFrom (copy : nat) (s : string) : string :=
  match s with
  | EmptyString => EmptyString
  | String c s =>
      match copy with
      | S copy => String c (unquoteFrom copy s)
      | O =>
          if bool_decide (c = backslash) then
            match s with
            | String "u" (String a (String b (String x (String d s)))) =>
                let r := hex4 a b x d in
                if isSurrogate r then
                  match s with
                  | String b' (String "u" (String e (String f (String g (String h s'))))) =>
                      let dec := decodeSurrogates r (hex4 e f g h) in
                      if bool_decide (b' = backslash) && negb (dec =? replacement)
                      then encodeRune dec (unquoteFrom 0 s')
                      else encodeRune replacement (unquoteFrom 0 s)
                  | _ => encodeRune replacement (unquoteFrom 0 s)
                  end
                else encodeRune r (unquoteFrom 0 s)
            | String "b" s => String (ascii_at 8) (unquoteFrom 0 s)
            | String "f" s => String (ascii_at 12) (unquoteFrom 0 s)
            | String "n" s => String newline (unquoteFrom 0 s)
            | String "r" s => String (ascii_at 13) (unquoteFrom 0 s)
            | String "t" s => String (ascii_at 9) (unquoteFrom 0 s)
            | String e s => String e (unquoteFrom 0 s)
            | EmptyString => EmptyString
            end
          else
            match runeTail c s with
            | Some n => String c (unquoteFrom n s)
            | None => encodeRune replacement (unquoteFrom 0 s)
            end
      end
  end.
Definition unquote (raw : string) : string := unquoteFrom 0 raw.

(** ** [Encoder.Encode] with [SetIndent] of two spaces *)

Definition quoted (raw : string) : string := String quoteChar (raw +:+ String quoteChar EmptyString).

Fixpoint indent (depth : nat) : string :=
  match depth with O => EmptyString | S depth => (String " " (String " " (indent depth))) end.
Definition newlineAt (depth : nat) : string := String newline (indent depth).

(** Items on lines of their own between brackets; empty brackets stay closed. *)
Definition bracketed (opening closing : string) (depth : nat) (items : list string) : string :=
  match items with
  | [] => opening +:+ closing
  | _ => opening +:+ newlineAt (S depth) +:+ String.concat (String "," (newlineAt (S depth))) items +:+
         newlineAt depth +:+ closing
  end.

Fixpoint showAt (depth : nat) (j : json) : string :=
  match j with
  | JNull => "null"
  | JBool b => if b then "true" else "false"
  | JNum literal => literal
  | JStr raw => quoted raw
  | JArr items => bracketed "[" "]" depth (map (showAt (S depth)) items)
  | JObj fields => bracketed "{" "}" depth (map (λ '(k, v), quoted k +:+ ": " +:+ showAt (S depth) v) fields)
  end.

(** The document, newline-terminated. *)
Definition EncodeJSON (j : json) : string := showAt 0 j +:+ String newline EmptyString.

(** ** The scanner *)

(** Where a number is: after the sign, in or after its integer part, and so on. *)
Inductive numState := NNeg | NZero | NInt | NDot | NFrac | NExp | NExpSign | NExpInt.

(** Where a string is: in its text, after a backslash, or with hex digits to come. *)
Inductive strState := InText | InEscape | InHex (more : nat).

Inductive scanMode :=
  | MValue
  | MValueOrEnd
  | MKey
  | MKeyOrEnd
  | MColon
  | MAfter
  | MDone (j : json)
  | MString (key : bool) (st : strState) (acc : list ascii)
  | MLiteral (todo : string) (j : json)
  | MNumber (st : numState) (acc : list ascii).

(** What is open: an array with its items, newest first, or an object with its
    fields and the key whose value is being read. *)
Inductive frame :=
  | InArray (items : list json)
  | InObject (fields : list (string * json)) (key : string).

Definition scanState : Type := scanMode * list frame.

Definition maxNestingDepth : Z := 10000.

(** A value is complete. *)
Definition complete (j : json) (stack : list frame) : scanState :=
  match stack with
  | [] => (MDone j, [])
  | InArray items :: stack => (MAfter, InArray (j :: items) :: stack)
  | InObject fields key :: stack => (MAfter, InObject ((key, j) :: fields) key :: stack)
  end.

Definition push (m : scanMode) (f : frame) (stack : list frame) : option scanState :=
  if Z.of_nat (length stack) <? maxNestingDepth then Some (m, f :: stack) else None.

Definition isSpace (c : ascii) : bool :=
  match c with " " | "009" | "010" | "013" => true | _ => false end%char.
Definition isDigit (c : ascii) : bool := (48 <=? ascii_code c) && (ascii_code c <=? 57).
Definition isHex (c : ascii) : bool := match hex_value c with Some _ => true | None => false end.

Definition text (acc : list ascii) : string := String.string_of_list_ascii (reverse acc).

(** [stateBeginValue]. *)
Definition beginValue (c : ascii) (stack : list frame) : option scanState :=
  match c with
  | "{" => push MKeyOrEnd (InObject [] EmptyString) stack
  | "[" => push MValueOrEnd (InArray []) stack
  | "-" => Some (MNumber NNeg [c], stack)
  | "0" => Some (MNumber NZero [c], stack)
  | "t" => Some (MLiteral "rue" (JBool true), stack)
  | "f" => Some (MLiteral "alse" (JBool false), stack)
  | "n" => Some (MLiteral "ull" JNull, stack)
  | _ =>
      if bool_decide (c = quoteChar) then Some (MString false InText [], stack)
      else if isDigit c then Some (MNumber NInt [c], stack) else None
  end%char.

Definition closeArray (stack : list frame) : option scanState :=
  match stack with InArray items :: stack => Some (complete (JArr (reverse items)) stack) | _ => None end.
Definition closeObject (stack : list frame) : option scanState :=
  match stack with InObject fields _ :: stack => Some (complete (JObj (reverse fields)) stack) | _ => None end.

(** [stateEndValue] and [stateEndTop]. *)
Definition afterValue (c : ascii) (stack : list frame) : option scanState :=
  if isSpace c then Some (MAfter, stack)
  else match c, stack with
  | ",", InArray _ :: _ => Some (MValue, stack)
  | ",", InObject _ _ :: _ => Some (MKey, stack)
  | "]", InArray _ :: _ => closeArray stack
  | "}", InObject _ _ :: _ => closeObject stack
  | _, _ => None
  end%char.

(** A number may go on, or end before this character. *)
Definition numberStep (st : numState) (c : ascii) : option numState :=
  let e := bool_decide (c = "e"%char) || bool_decide (c = "E"%char) in
  let dot := bool_decide (c = "."%char) in
  match st with
  | NNeg => if bool_decide (c = "0"%char) then Some NZero else if isDigit c then Some NInt else None
  | NZero => if dot then Some NDot else if e then Some NExp else None
  | NInt => if isDigit c then Some NInt else if dot then Some NDot else if e then Some NExp else None
  | NDot => if isDigit c then Some NFrac else None
  | NFrac => if isDigit c then Some NFrac else if e then Some NExp else None
  | NExp => if isDigit c then Some NExpInt
            else if bool_decide (c = "+"%char) || bool_decide (c = "-"%char) then Some NExpSign else None
  | NExpSign => if isDigit c then Some NExpInt else None
  | NExpInt => if isDigit c then Some NExpInt else None
  end.
Definition numberEnds (st : numState) : bool :=
  match st with NZero | NInt | NFrac | NExpInt => true | _ => false end.

Definition strStep (st : strState) (c : ascii) : option strState :=
  match st with
  | InText => if bool_decide (c = backslash) then Some InEscape
              else if ascii_code c <? 32 then None else Some InText
  | InEscape =>
      match c with
      | "b" | "f" | "n" | "r" | "t" | "/" => Some InText
      | "u" => Some (InHex 3)
      | _ => if bool_decide (c = backslash) || bool_decide (c = quoteChar) then Some InText else None
      end%char
  | InHex more => if isHex c then Some (match more with O => InText | S more => InHex more end) else None
  end.

(** A string has ended: a key waits for its colon, a value is complete. *)
Definition endString (key : bool) (raw : string) (stack : list frame) : option scanState :=
  if key then
    match stack with
    | InObject fields _ :: stack => Some (MColon, InObject fields raw :: stack)
    | _ => None
    end
  else Some (complete (JStr raw) stack).

(** One character after a complete value, wherever it was. *)
Definition pastValue (c : ascii) (st : scanState) : option scanState :=
  match st with
  | (MDone j, _) => if isSpace c then Some (MDone j, []) else None
  | (_, stack) => afterValue c stack
  end.

Definition scanStep (c : ascii) (st : scanState) : option scanState :=
  let '(m, stack) := st in
  match m with
  | MValue => if isSpace c then Some st else beginValue c stack
  | MValueOrEnd =>
      if isSpace c then Some st
      else if bool_decide (c = "]"%char) then closeArray stack else beginValue c stack
  | MKey => if isSpace c then Some st
            else if bool_decide (c = quoteChar) then Some (MString true InText [], stack) else None
  | MKeyOrEnd =>
      if isSpace c then Some st
      else if bool_decide (c = "}"%char) then closeObject stack
      else if bool_decide (c = quoteChar) then Some (MString true InText [], stack) else None
  | MColon => if isSpace c then Some st else if bool_decide (c = ":"%char) then Some (MValue, stack) else None
  | MAfter | MDone _ => pastValue c st
  | MString key InText acc =>
      if bool_decide (c = quoteChar) then endString key (text acc) stack
      else match strStep InText c with Some s => Some (MString key s (c :: acc), stack) | None => None end
  | MString key s acc =>
      match strStep s c with Some s => Some (MString key s (c :: acc), stack) | None => None end
  | MLiteral todo j =>
      match todo with
      | String d EmptyString => if bool_decide (c = d) then Some (complete j stack) else None
      | String d todo => if bool_decide (c = d) then Some (MLiteral todo j, stack) else None
      | EmptyString => None
      end
  | MNumber s acc =>
      match numberStep s c with
      | Some s => Some (MNumber s (c :: acc), stack)
      | None => if numberEnds s then pastValue c (complete (JNum (text acc)) stack) else None
      end
  end.

Fixpoint scanFrom (s : string) (st : scanState) : option scanState :=
  match s with
  | EmptyString => Some st
  | String c s => st ← scanStep c st; scanFrom s st
  end.

(** The end of the input. *)
Definition scanEnd (st : scanState) : option json :=
  match st with
  | (MDone j, _) => Some j
  | (MNumber s acc, []) => if numberEnds s then Some (JNum (text acc)) else None
  | _ => None
  end.

(** The text of one JSON value, as [Unmarshal] accepts it. *)
Definition ScanJSON (s : string) : option json :=
  st ← scanFrom s (MValue, []); scanEnd st.
