(* ===== verification/Paths.v ===== *)
(** * strings.TrimSpace and path/filepath

    What [cmd/nutz-verify] and [cache] use of them, over Unix paths. *)
From S2P Require Import Prelude Sorts Bytes Text Json.

(** ** Trimming *)

(** [unicode.IsSpace] of an ASCII byte. *)
Definition asciiSpace (c : ascii) : bool := let k := ascii_code c in ((9 <=? k) && (k <=? 13)) || (k =? 32).

(** The last byte of the spaces U+2000 to U+200A, U+2028, U+2029 and U+202F. *)
Definition spaceE280 (c : ascii) : bool :=
  let k := ascii_code c in ((128 <=? k) && (k <=? 138)) || (k =? 168) || (k =? 169) || (k =? 175).

Fixpoint trimLeft (s : string) : string :=
  match s with
  | EmptyString => EmptyString
  | String c s1 =>
      if asciiSpace c then trimLeft s1
      else match s with
      | String "194" (String "133" s') | String "194" (String "160" s') => trimLeft s'
      | String "225" (String "154" (String "128" s')) => trimLeft s'
      | String "226" (String "128" (String c3 s')) => if spaceE280 c3 then trimLeft s' else s
      | String "226" (String "129" (String "159" s')) => trimLeft s'
      | String "227" (String "128" (String "128" s')) => trimLeft s'
      | _ => s
      end
  end.

(** The same from the end, over the reversed string. *)
Fixpoint trimReversed (s : string) : string :=
  match s with
  | EmptyString => EmptyString
  | String c s1 =>
      if asciiSpace c then trimReversed s1
      else match s with
      | String "133" (String "194" s') | String "160" (String "194" s') => trimReversed s'
      | String "128" (String "154" (String "225" s')) => trimReversed s'
      | String "159" (String "129" (String "226" s')) => trimReversed s'
      | String "128" (String "128" (String "227" s')) => trimReversed s'
      | String c3 (String "128" (String "226" s')) => if spaceE280 c3 then trimReversed s' else s
      | _ => s
      end
  end.

(** [strings.TrimSpace]. *)
Definition TrimSpace (s : string) : string := String.rev (trimReversed (String.rev (trimLeft s))).

Fixpoint trimLeftQuotes (s : string) : string :=
  match s with
  | String c s' => if bool_decide (c = quoteChar) then trimLeftQuotes s' else s
  | EmptyString => EmptyString
  end.
(** [strings.Trim] of double quotes. *)
Definition TrimQuotes (s : string) : string := String.rev (trimLeftQuotes (String.rev (trimLeftQuotes s))).

(** [strings.TrimPrefix(s, "0x")]. *)
Definition TrimHexPrefix (s : string) : string :=
  match s with String "0" (String "x" s') => s' | _ => s end.

(** ** Paths *)

(** The elements of a path, between its slashes. *)
Fixpoint splitPath (s : string) : list string :=
  match s with
  | EmptyString => [EmptyString]
  | String c s =>
      if bool_decide (c = "/"%char) then EmptyString :: splitPath s
      else match splitPath s with
           | e :: l => String c e :: l
           | [] => [String c EmptyString]
           end
  end.

Definition isRooted (s : string) : bool := match s with String "/" _ => true | _ => false end.

(** One element of [Clean], onto the elements kept, newest first. *)
Definition cleanElement (rooted : bool) (out : list string) (e : string) : list string :=
  if decide (e = EmptyString ∨ e = "."%string) then out
  else if decide (e = ".."%string) then
    match out with
    | [] => if rooted then [] else [".."%string]
    | o :: out' => if decide (o = ".."%string) then ".."%string :: out else out'
    end
  else e :: out.

(** [filepath.Clean]. *)
Definition Clean (s : string) : string :=
  let rooted := isRooted s in
  let body := String.concat "/" (reverse (foldl (cleanElement rooted) [] (splitPath s))) in
  if rooted then String "/" body else if decide (body = EmptyString) then "."%string else body.

(** [filepath.Join]: empty elements in front are left out. *)
Fixpoint Join (elements : list string) : string :=
  match elements with
  | [] => EmptyString
  | e :: l => if decide (e = EmptyString) then Join l else Clean (String.concat "/" (e :: l))
  end.

(** Up to the last slash, itself included. *)
Fixpoint dirPart (s : string) : string :=
  match s with
  | EmptyString => EmptyString
  | String c s =>
      let rest := dirPart s in
      if decide (rest = EmptyString) then (if bool_decide (c = "/"%char) then String c EmptyString else EmptyString)
      else String c rest
  end.
(** [filepath.Dir]. *)
Definition PathDir (s : string) : string := Clean (dirPart s).

Open Scope string_scope.

Example clean_examples : Clean <$> ["a//b/./c/../d/"; "/../x"; "../../a/.."; ""; "/"; "a/.."] =
  ["a/b/d"; "/x"; "../.."; "."; "/"; "."].
Proof. by vm_compute. Qed.
Example dir_examples : PathDir <$> ["epochs/1000/root.txt"; "root.txt"; "/root.txt"; "a/b/"] = ["epochs/1000"; "."; "/"; "a/b"].
Proof. by vm_compute. Qed.
Example trim_example : TrimSpace " 0x12 " = "0x12".
Proof. by vm_compute. Qed.
