(* ===== verification/StateMonad.v ===== *)
(** * Calls that change shared state

    A method with a pointer receiver takes the state and returns the new one with
    its result; a failed call keeps what it had written. *)
From S2P Require Import Prelude Sorts.

Definition StM (S E A : Type) : Type := S → Res E A * S.

#[global] Instance StM_ret {S E} : MRet (StM S E) := λ A a s, (Ok a, s).
#[global] Instance StM_bind {S E} : MBind (StM S E) := λ A B f m s,
  match m s with
  | (Ok a, s) => f a s
  | (Err e, s) => (Err e, s)
  | (Fault x, s) => (Fault x, s)
  end.

(** A call that neither reads nor writes the state. *)
Definition lift {S E A} (m : Res E A) : StM S E A := λ s, (m, s).
Definition gets {S E A} (f : S → A) : StM S E A := λ s, (Ok (f s), s).
Definition modify {S E} (f : S → S) : StM S E () := λ s, (Ok (), f s).
Definition throw {S E A} (e : E) : StM S E A := λ s, (Err e, s).

(** [for _, x := range l { acc, err = f(acc, x) }]. *)
Fixpoint foldS {S E B A} (f : B → A → StM S E B) (l : list A) (acc : B) : StM S E B :=
  match l with
  | [] => mret acc
  | x :: l => acc ← f acc x; foldS f l acc
  end.

(** [for _, x := range l { y, err := f(x); out = append(out, y) }]. *)
Fixpoint mapS {S E A B} (f : A → StM S E B) (l : list A) : StM S E (list B) :=
  match l with
  | [] => mret []
  | x :: l => y ← f x; ys ← mapS f l; mret (y :: ys)
  end.

(** What is made of an error: [errors.As] and a fallback. *)
Definition catch {S E A} (m : StM S E A) (handle : E → StM S E A) : StM S E A := λ s,
  match m s with
  | (Err e, s) => handle e s
  | r => r
  end.

(** The callee's errors inside the caller's: [fmt.Errorf] with the verb w. *)
Definition wrapS {S E E' A} (g : E → E') (m : StM S E A) : StM S E' A := λ s,
  let '(r, s) := m s in (wrap g r, s).

(** [sort.Search(n, f)] with an [f] that changes the state. *)
Fixpoint search_loopS {S E} (fuel : nat) (f : nat → StM S E bool) (i j : nat) : StM S E nat :=
  if (i <? j)%nat then
    match fuel with
    | O => lift (Fault OutOfFuel)
    | S fuel =>
        let h := ((i + j) / 2)%nat in
        b ← f h;
        if (b : bool) then search_loopS fuel f i h else search_loopS fuel f (Datatypes.S h) j
    end
  else mret i.

Definition SearchS {S E} (n : nat) (f : nat → StM S E bool) : StM S E nat := search_loopS n f 0 n.

Section rules.
Context {S E : Type}.

(** What a call answers, whatever the state it is made in. *)
Definition answers {A} (I : S → Prop) (m : StM S E A) (r : Res E A) : Prop :=
  ∀ s, I s → ∃ s', m s = (r, s') ∧ I s'.

(** The same of a call that leaves the state in another condition. *)
Definition answers_to {A} (I J : S → Prop) (m : StM S E A) (r : Res E A) : Prop :=
  ∀ s, I s → ∃ s', m s = (r, s') ∧ J s'.

Lemma answers_to_answers {A} (I : S → Prop) (m : StM S E A) r : answers I m r → answers_to I I m r.
Proof. done. Qed.

Lemma answers_to_step {A B} (I J K : S → Prop) (m : StM S E A) (f : A → StM S E B) a r :
  answers_to I J m (Ok a) → answers_to J K (f a) r → answers_to I K (m ≫= f) r.
Proof.
  intros Hm Hf s Hs. destruct (Hm s Hs) as (s1 & H1 & Hs1). unfold mbind, StM_bind. rewrite H1. by apply Hf.
Qed.

Context (I : S → Prop).

Lemma answers_ret {A} (a : A) : answers I (mret a) (Ok a).
Proof. intros s Hs. by exists s. Qed.

Lemma answers_lift {A} (r : Res E A) : answers I (lift r) r.
Proof. intros s Hs. by exists s. Qed.

Lemma answers_throw {A} (e : E) : answers I (throw (A:=A) e) (Err e).
Proof. intros s Hs. by exists s. Qed.

Lemma answers_bind {A B} (m : StM S E A) (f : A → StM S E B) r k :
  answers I m r → (∀ a, r = Ok a → answers I (f a) (k a)) → answers I (m ≫= f) (r ≫= k).
Proof.
  intros Hm Hf s Hs. destruct (Hm s Hs) as (s1 & H1 & Hs1). unfold mbind, StM_bind. rewrite H1.
  destruct r as [a|e|x]; cbn [mbind Res_bind]; [by apply Hf|by exists s1..].
Qed.

(** A call that succeeds, and what is made of its result. *)
Lemma answers_step {A B} (m : StM S E A) (f : A → StM S E B) a r :
  answers I m (Ok a) → answers I (f a) r → answers I (m ≫= f) r.
Proof.
  intros Hm Hf s Hs. destruct (Hm s Hs) as (s1 & H1 & Hs1). unfold mbind, StM_bind. rewrite H1. by apply Hf.
Qed.

(** A call that fails, and with it all that follows. *)
Lemma answers_stop {A B} (m : StM S E A) (f : A → StM S E B) r :
  (∀ a, r ≠ Ok a) → answers I m r → answers I (m ≫= f) (r ≫= λ _, Fault OutOfFuel).
Proof. intros Hr Hm. apply answers_bind; [done|]. intros a Ha. by destruct (Hr a). Qed.

Lemma answers_eq {A} (m : StM S E A) r r' : answers I m r → r = r' → answers I m r'.
Proof. by intros ? <-. Qed.

(** A loop answers what its pure counterpart does. *)
Lemma answers_foldS {B A} (f : B → A → StM S E B) (g : B → A → Res E B) l acc :
  (∀ b x, x ∈ l → answers I (f b x) (g b x)) → answers I (foldS f l acc) (foldM g l acc).
Proof.
  revert acc. induction l as [|x l IH]; intros acc Hf; cbn [foldS foldM]; [apply answers_ret|].
  apply answers_bind; [apply Hf; set_solver|]. intros b _. apply IH. intros b' y Hy. apply Hf. set_solver.
Qed.

(** A search answers what it does over the pure predicate. *)
Lemma answers_SearchS (f : nat → StM S E bool) (g : nat → Res E bool) n :
  (∀ h, (h < n)%nat → answers I (f h) (g h)) → answers I (SearchS n f) (Search n g).
Proof.
  intros Hf. unfold SearchS, Search. assert (∀ fuel i j, (j ≤ n)%nat →
    answers I (search_loopS fuel f i j) (search_loop fuel g i j)) as Hloop; [|by apply Hloop].
  induction fuel as [|fuel IH]; intros i j Hj; cbn [search_loopS search_loop];
    destruct (Nat.ltb_spec i j); try apply answers_ret; [apply answers_lift|].
  assert ((i + j) / 2 < j)%nat as Hh by (apply Nat.Div0.div_lt_upper_bound; lia).
  apply answers_bind; [apply Hf; lia|]. intros [] _; apply IH; lia.
Qed.

Lemma answers_wrapS {E0 A} (g : E0 → E) (m : StM S E0 A) r :
  (∀ s, I s → ∃ s', m s = (r, s') ∧ I s') → answers I (wrapS g m) (wrap g r).
Proof. intros Hm s Hs. destruct (Hm s Hs) as (s' & H & Hs'). exists s'. unfold wrapS. by rewrite H. Qed.
End rules.

(** What a call answers in any state at all. *)
Abbreviation always := (answers (λ _, True)).

Lemma always_run {S E A} (m : StM S E A) r s : always m r → ∃ s', m s = (r, s').
Proof. intros Hm. destruct (Hm s I) as (s' & H & _). by exists s'. Qed.

Create HintDb answers.
#[export] Hint Resolve answers_ret answers_lift answers_throw : answers.

(** ** What a call guarantees when it succeeds *)

Definition ensures {S E A} (m : StM S E A) (P : A → Prop) : Prop :=
  ∀ s a s', m s = (Ok a, s') → P a.

Section ensures.
Context {S E : Type}.

Lemma ensures_ret {A} (a : A) (P : A → Prop) : P a → ensures (mret a : StM S E A) P.
Proof. by intros HP s a' s' [= <- <-]. Qed.

Lemma ensures_lift {A} (r : Res E A) (P : A → Prop) : (∀ a, r = Ok a → P a) → ensures (lift r : StM S E A) P.
Proof. intros HP s a' s' [= Hr <-]. by apply HP. Qed.

Lemma ensures_throw {A} (e : E) (P : A → Prop) : ensures (throw e : StM S E A) P.
Proof. by intros s a s'. Qed.

Lemma ensures_any {A} (m : StM S E A) : ensures m (λ _, True).
Proof. done. Qed.

Lemma ensures_mono {A} (m : StM S E A) (P Q : A → Prop) : ensures m P → (∀ a, P a → Q a) → ensures m Q.
Proof. intros Hm HPQ s a s' H. by eapply HPQ, Hm. Qed.

Lemma ensures_and {A} (m : StM S E A) (P Q : A → Prop) : ensures m P → ensures m Q → ensures m (λ a, P a ∧ Q a).
Proof. intros HP HQ s a s' H. split; [by eapply HP|by eapply HQ]. Qed.

Lemma ensures_bind {A B} (m : StM S E A) (f : A → StM S E B) (P : A → Prop) (Q : B → Prop) :
  ensures m P → (∀ a, P a → ensures (f a) Q) → ensures (m ≫= f) Q.
Proof.
  intros Hm Hf s b s'. unfold mbind, StM_bind. destruct (m s) as [[a|e|x] s1] eqn:E1; [|done..].
  intros H. eapply Hf; [by eapply Hm|exact H].
Qed.

Lemma ensures_catch {A} (m : StM S E A) handle (P : A → Prop) :
  ensures m P → (∀ e, ensures (handle e) P) → ensures (catch m handle) P.
Proof.
  intros Hm Hh s a s'. unfold catch. destruct (m s) as [[b|e|x] s1] eqn:E1; intros H.
  - injection H as <- <-. by eapply Hm.
  - by eapply Hh.
  - done.
Qed.

Lemma ensures_foldS {A B} (f : B → A → StM S E B) (I : B → Prop) l b :
  I b → (∀ b x, x ∈ l → I b → ensures (f b x) I) → ensures (foldS f l b) I.
Proof.
  revert b. induction l as [|x l IH]; intros b Hb Hf; cbn [foldS]; [by apply ensures_ret|].
  eapply ensures_bind; [apply Hf; [set_solver|done]|]. intros b' Hb'. apply IH; [done|].
  intros b2 y Hy. apply Hf. set_solver.
Qed.

Lemma ensures_mapS {A B} (f : A → StM S E B) (R : A → B → Prop) l :
  (∀ x, x ∈ l → ensures (f x) (R x)) → ensures (mapS f l) (Forall2 R l).
Proof.
  induction l as [|x l IH]; intros Hf; cbn [mapS]; [by apply ensures_ret|].
  eapply ensures_bind; [apply Hf; set_solver|]. intros y Hy.
  eapply ensures_bind; [apply IH; intros; apply Hf; set_solver|]. intros ys Hys. by apply ensures_ret, Forall2_cons.
Qed.
End ensures.
