(* ===== verification/Merkle.v ===== *)
(** * merkle: the OpenZeppelin StandardMerkleTree port

    [merkle.go], [tree.go] and [dump.go]. [keccak256] comes from
    golang.org/x/crypto and is a parameter, the function on the concatenation of
    its arguments. [int] indices into the node slice are [nat]: they are bounded
    by its length. *)
From S2P Require Import Prelude Sorts Bytes Text.

(** ** merkle.go *)

Definition AmountCount : nat := 5.
Definition wordSize : nat := 32.
Definition leafWords : nat := 2 + AmountCount.

Inductive merkleError :=
  | errNilAmount
  | errNegativeAmount
  | errBits (bits : Z)
  | errId (cause : merkleError)
  | errAmount (i : nat) (cause : merkleError)
  | errClaim (i : nat) (cause : merkleError)
  | ErrNoClaims.

(** The [*big.Int] fields may be nil. *)
Record Claim := mkClaim {
  c_ID : option Z;
  c_Account : Address;
  c_Amounts : vec (option Z) 5;
}.

(** [big.Int.BitLen] of a value that is not negative. *)
Definition BitLen (x : Z) : Z := if x =? 0 then 0 else Z.log2 x + 1.

(** The word [putUint256] fills. *)
Definition putUint256 (x : option Z) : Res merkleError (list byte) :=
  match x with
  | None => Err errNilAmount
  | Some x =>
      if x <? 0 then Err errNegativeAmount
      else if 8 * Z.of_nat wordSize <? BitLen x then Err (errBits (BitLen x))
      else Ok (be_encode wordSize x)
  end.

(** [copy(out[at:at+len(w)], w)]. *)
Definition splice (out : list byte) (at_ : nat) (w : list byte) : list byte :=
  take at_ out ++ w ++ drop (at_ + length w) out.

(** The loop over the amounts, from the [i]-th on. *)
Fixpoint encodeAmounts (out : list byte) (i : nat) (amounts : list (option Z))
    : Res merkleError (list byte) :=
  match amounts with
  | [] => Ok out
  | amount :: amounts =>
      w ← wrap (errAmount i) (putUint256 amount);
      encodeAmounts (splice out ((2 + i) * wordSize) w) (S i) amounts
  end.

(** [Claim.encode]. *)
Definition encode (c : Claim) : Res merkleError (list byte) :=
  let out := replicate (leafWords * wordSize) x00 in
  w ← wrap errId (putUint256 (c_ID c));
  let out := splice out 0 w in
  let out := splice out (2 * wordSize - 20) (vec_to_list (c_Account c)) in
  encodeAmounts out 0 (vec_to_list (c_Amounts c)).

(** ** tree.go *)

Record Tree := mkTree {
  t_nodes : list Hash;
  t_leafAt : list nat;
  t_encoded : list (list byte);
}.

(** [hashed]: a leaf hash and the claim it came from. *)
Abbreviation hashed := (Hash * nat)%type.

Definition compareHashed : hashed → hashed → comparison := compare_on fst array_compare.

Definition siblingIndex (at_ : nat) : nat :=
  if (at_ mod 2 =? 0)%nat then (at_ - 1)%nat else (at_ + 1)%nat.

(** Leaves fill the tail back to front. *)
Fixpoint placeLeaves (i : nat) (leaves : list hashed) (nodes : list Hash) (leafAt : list nat)
    : Res merkleError (list Hash * list nat) :=
  match leaves with
  | [] => Ok (nodes, leafAt)
  | leaf :: leaves =>
      let at_ := (length nodes - 1 - i)%nat in
      nodes ← set_index nodes at_ leaf.1;
      leafAt ← set_index leafAt leaf.2 at_;
      placeLeaves (S i) leaves nodes leafAt
  end.

Section hashes.
Context (keccak256 : list byte → Hash).

(** [leafHashOf] hashes twice. *)
Definition leafHashOf (encoded : list byte) : Hash :=
  keccak256 (vec_to_list (keccak256 encoded)).

Definition hashPair (a b : Hash) : Hash :=
  let '(a, b) := match array_compare a b with Gt => (b, a) | _ => (a, b) end in
  keccak256 (vec_to_list a ++ vec_to_list b).

(** The internal nodes below index [k], from the last to the root. *)
Fixpoint fillNodes (k : nat) (nodes : list Hash) : Res merkleError (list Hash) :=
  match k with
  | O => Ok nodes
  | S i =>
      l ← index nodes (2 * i + 1);
      r ← index nodes (2 * i + 2);
      nodes ← set_index nodes i (hashPair l r);
      fillNodes i nodes
  end.

Definition New (claims : list Claim) : Res merkleError Tree :=
  match claims with
  | [] => Err ErrNoClaims
  | _ =>
      encoded ← traverseI (λ i c, wrap (errClaim i) (encode c)) 0 claims;
      let leaves := imap (λ i e, (leafHashOf e, i)) encoded in
      let leaves := sort_by compareHashed leaves in
      let nodes := replicate (2 * length claims - 1) zeroHash in
      let leafAt := replicate (length claims) 0%nat in
      '(nodes, leafAt) ← placeLeaves 0 leaves nodes leafAt;
      nodes ← fillNodes (length nodes - length leaves) nodes;
      mret (mkTree nodes leafAt encoded)
  end.

Definition Verify (root leaf : Hash) (proof : list Hash) : bool :=
  bool_decide (foldl hashPair leaf proof = root).
End hashes.

Definition Len (t : Tree) : nat := length (t_leafAt t).

Definition Root (t : Tree) : Res merkleError Hash := index (t_nodes t) 0.

Definition TreeIndex (t : Tree) (i : nat) : Res merkleError nat := index (t_leafAt t) i.

Definition Leaf (t : Tree) (i : nat) : Res merkleError Hash :=
  at_ ← index (t_leafAt t) i; index (t_nodes t) at_.

(** The loop of [Proof]: the index halves, so fuel [at_] is enough. *)
Fixpoint proofFrom (fuel : nat) (nodes : list Hash) (at_ : nat) (proof : list Hash)
    : Res merkleError (list Hash) :=
  if (at_ =? 0)%nat then Ok proof
  else
    match fuel with
    | O => Fault OutOfFuel
    | S fuel =>
        sibling ← index nodes (siblingIndex at_);
        proofFrom fuel nodes ((at_ - 1) / 2) (proof ++ [sibling])
    end.

(** [Tree.Proof]. *)
Definition Proof_ (t : Tree) (i : nat) : Res merkleError (list Hash) :=
  at_ ← index (t_leafAt t) i; proofFrom at_ (t_nodes t) at_ [].

(** ** dump.go *)

Definition DumpFormat : string := "standard-v1".
Definition LeafEncoding : list string := ["uint256"; "address"; "uint256[5]"]%string.

Record DumpValue := mkDumpValue {
  dv_id : string;
  dv_account : string;
  dv_amounts : list string;
  dv_TreeIndex : nat;
}.

Record Dump := mkDump {
  d_Format : string;
  d_LeafEncoding : list string;
  d_Tree : list string;
  d_Values : list DumpValue;
}.

Definition hexOf (b : list byte) : string := ("0x" ++ EncodeToString b)%string.

(** [e[from:to]]. *)
Definition slice {A} (l : list A) (from to : nat) : list A := take (to - from) (drop from l).

Definition dumpValue (t : Tree) (i : nat) (e : list byte) : Res merkleError DumpValue :=
  at_ ← index (t_leafAt t) i;
  let word at_ := BigString (be_decode (slice e at_ (at_ + wordSize))) in
  mret (mkDumpValue (word 0%nat)
          (hexOf (slice e (2 * wordSize - 20) (2 * wordSize)))
          ((λ j, word ((2 + j) * wordSize)%nat) <$> seq 0 AmountCount)
          at_).

(** [Tree.Dump]. *)
Definition Dump_ (t : Tree) : Res merkleError Dump :=
  let nodes := (λ n, hexOf (vec_to_list n)) <$> t_nodes t in
  values ← traverseI (dumpValue t) 0 (t_encoded t);
  mret (mkDump DumpFormat LeafEncoding nodes values).
