(* ===== verification/MerkleEncode.v ===== *)
(** * The leaf encoding

    What [putUint256] and [Claim.encode] accept, the words they write, and the
    decoding that inverts them. *)
From S2P Require Import Prelude Sorts Bytes Text Merkle.

(** A [*big.Int] that a uint256 holds. *)
Definition is_word (x : option Z) : Prop := ∃ z, x = Some z ∧ 0 ≤ z < 2 ^ 256.

(** What [New] needs of a claim. *)
Definition claim_ok (c : Claim) : Prop :=
  is_word (c_ID c) ∧ Forall is_word (vec_to_list (c_Amounts c)).

#[global] Instance is_word_dec x : Decision (is_word x).
Proof.
  refine (match x with Some z => cast_if (decide (0 ≤ z < 2 ^ 256)) | None => right _ end);
    abstract (unfold is_word; naive_solver).
Defined.
#[global] Instance claim_ok_dec c : Decision (claim_ok c).
Proof. unfold claim_ok. apply _. Defined.

Lemma BitLen_le x k : 0 ≤ x → 0 ≤ k → BitLen x ≤ k ↔ x < 2 ^ k.
Proof.
  intros Hx Hk. unfold BitLen. destruct (Z.eqb_spec x 0) as [->|].
  - pose proof (Z.pow_pos_nonneg 2 k). lia.
  - pose proof (Z.log2_lt_pow2 x k ltac:(lia)). lia.
Qed.

Lemma putUint256_Ok x w :
  putUint256 x = Ok w ↔ ∃ z, x = Some z ∧ 0 ≤ z < 2 ^ 256 ∧ w = be_encode wordSize z.
Proof.
  unfold putUint256. destruct x as [z|]; [|naive_solver].
  change (8 * Z.of_nat wordSize) with 256.
  destruct (Z.ltb_spec z 0); [split; [done|intros (? & [= <-] & ? & _); lia]|].
  pose proof (BitLen_le z 256 ltac:(done) ltac:(lia)).
  destruct (Z.ltb_spec 256 (BitLen z)).
  - split; [done|]. intros (? & [= <-] & ? & _). lia.
  - split; [intros [= <-]; exists z; split_and!; [done|lia|lia|done]|by intros (? & [= <-] & _ & ->)].
Qed.

Lemma putUint256_no_fault x f : putUint256 x ≠ Fault f.
Proof. unfold putUint256. by repeat case_match. Qed.

Lemma splice_app p q r w :
  length q = length w → splice (p ++ q ++ r) (length p) w = p ++ w ++ r.
Proof.
  intros Hq. unfold splice. rewrite take_app_length, <-Hq. do 2 f_equal.
  by rewrite <-drop_drop, drop_app_length, drop_app_length.
Qed.

Lemma encodeAmounts_Ok amounts : ∀ p i e,
  length p = ((2 + i) * wordSize)%nat →
  encodeAmounts (p ++ replicate (length amounts * wordSize) x00) i amounts = Ok e ↔
  ∃ zs, amounts = Some <$> zs ∧ Forall (λ z, 0 ≤ z < 2 ^ 256) zs ∧
        e = p ++ (zs ≫= be_encode wordSize).
Proof.
  induction amounts as [|amount amounts IH]; intros p i e Hp; cbn [encodeAmounts length].
  { rewrite app_nil_r. split.
    - intros [= <-]. exists []. by rewrite app_nil_r.
    - intros (zs & Hzs & _ & ->). symmetry in Hzs. apply fmap_nil_inv in Hzs as ->. by rewrite app_nil_r. }
  rewrite bind_Ok. setoid_rewrite wrap_Ok. setoid_rewrite putUint256_Ok.
  assert (∀ z, splice (p ++ replicate (S (length amounts) * wordSize) x00) ((2 + i) * wordSize)
                 (be_encode wordSize z) =
               (p ++ be_encode wordSize z) ++ replicate (length amounts * wordSize) x00) as Hsp.
  { intros z. change (S (length amounts) * wordSize)%nat with (wordSize + length amounts * wordSize)%nat.
    rewrite replicate_add, <-Hp, splice_app, app_assoc; [done|]. by rewrite length_replicate, length_be_encode. }
  split.
  - intros (w & (z & -> & Hz & ->) & He). rewrite Hsp in He.
    apply IH in He as (zs & -> & Hzs & ->); [|rewrite length_app, length_be_encode, Hp; unfold wordSize; lia].
    exists (z :: zs). split_and!; [done|by constructor|]. by rewrite <-app_assoc.
  - intros ([|z zs] & Ha & Hzs & ->); [done|]. injection Ha as -> ->.
    apply Forall_cons in Hzs as [Hz Hzs]. exists (be_encode wordSize z). split; [by exists z|].
    rewrite Hsp. apply IH; [rewrite length_app, length_be_encode, Hp; unfold wordSize; lia|].
    exists zs. split_and!; [done..|]. by rewrite <-app_assoc.
Qed.

(** The seven words of a claim. *)
Definition claim_words (id : Z) (account : Address) (amounts : list Z) : list byte :=
  be_encode wordSize id ++ replicate 12 x00 ++ vec_to_list account ++
  (amounts ≫= be_encode wordSize).

Lemma encode_Ok c e :
  encode c = Ok e ↔
  ∃ id amounts, c_ID c = Some id ∧ 0 ≤ id < 2 ^ 256 ∧
    vec_to_list (c_Amounts c) = Some <$> amounts ∧ Forall (λ z, 0 ≤ z < 2 ^ 256) amounts ∧
    e = claim_words id (c_Account c) amounts.
Proof.
  unfold encode. rewrite bind_Ok. setoid_rewrite wrap_Ok. setoid_rewrite putUint256_Ok.
  assert (∀ id, splice (splice (replicate (leafWords * wordSize) x00) 0 (be_encode wordSize id))
                  (2 * wordSize - 20) (vec_to_list (c_Account c)) =
    (be_encode wordSize id ++ replicate 12 x00 ++ vec_to_list (c_Account c)) ++
    replicate (length (vec_to_list (c_Amounts c)) * wordSize) x00) as Hout.
  { intros id. rewrite length_vec_to_list.
    change (replicate (leafWords * wordSize) x00)
      with ([] ++ replicate wordSize x00 ++ replicate 12 x00 ++ replicate 20 x00 ++ replicate (5 * wordSize) x00).
    rewrite (splice_app []) by (by rewrite length_be_encode). cbn [app].
    rewrite app_assoc. replace (2 * wordSize - 20)%nat
      with (length (be_encode wordSize id ++ replicate 12 x00)) by (by rewrite length_app, length_be_encode).
    rewrite splice_app by (by rewrite length_vec_to_list). by rewrite <-!app_assoc. }
  assert (∀ id, length (be_encode wordSize id ++ replicate 12 x00 ++ vec_to_list (c_Account c)) =
                ((2 + 0) * wordSize)%nat) as Hlen.
  { intros id. by rewrite !length_app, length_be_encode, length_replicate, length_vec_to_list. }
  unfold claim_words. split.
  - intros (w & (id & Hid & Hr & ->) & He). rewrite Hout in He.
    apply encodeAmounts_Ok in He as (zs & Ha & Hzs & ->); [|apply Hlen].
    exists id, zs. by rewrite <-!app_assoc.
  - intros (id & zs & Hid & Hr & Ha & Hzs & ->). exists (be_encode wordSize id).
    split; [by exists id|]. rewrite Hout. apply encodeAmounts_Ok; [apply Hlen|].
    exists zs. by rewrite <-!app_assoc.
Qed.

Lemma encodeAmounts_no_fault amounts out i f : encodeAmounts out i amounts ≠ Fault f.
Proof.
  revert out i. induction amounts as [|a amounts IH]; intros out i; cbn [encodeAmounts]; [done|].
  rewrite bind_Fault, wrap_Fault. intros [?|(w & _ & ?)]; [by eapply putUint256_no_fault|by eapply IH].
Qed.

Lemma encode_no_fault c f : encode c ≠ Fault f.
Proof.
  unfold encode. rewrite bind_Fault, wrap_Fault.
  intros [?|(w & _ & ?)]; [by eapply putUint256_no_fault|by eapply encodeAmounts_no_fault].
Qed.

Lemma is_word_all amounts :
  Forall is_word amounts ↔ ∃ zs, amounts = Some <$> zs ∧ Forall (λ z, 0 ≤ z < 2 ^ 256) zs.
Proof.
  split.
  - induction 1 as [|x l (z & -> & Hz) _ (zs & -> & Hzs)]; [by exists []|].
    exists (z :: zs). by split; [|constructor].
  - intros (zs & -> & Hzs). induction Hzs as [|z zs Hz _ IH]; constructor; [by exists z|done].
Qed.

Lemma encode_accepts c : is_Ok (encode c) ↔ claim_ok c.
Proof.
  unfold claim_ok. rewrite is_word_all. split.
  - intros [e (id & zs & Hid & Hr & Ha & Hzs & _)%encode_Ok]. split; [by exists id|by exists zs].
  - intros [(id & Hid & Hr) (zs & Ha & Hzs)]. eexists. apply encode_Ok. by exists id, zs.
Qed.

(** ** Reading a claim back *)

(** The claim a leaf's words say, as [Dump] reads them. *)
Definition decode_claim (e : list byte) : Claim :=
  let word i := Some (be_decode (slice e (i * wordSize) (i * wordSize + wordSize))) in
  mkClaim (word 0%nat) (copy_array 20 (slice e (2 * wordSize - 20) (2 * wordSize)))
    [# word 2%nat; word 3%nat; word 4%nat; word 5%nat; word 6%nat].

Lemma slice_app {A} (p q r : list A) from to :
  from = length p → to = (length p + length q)%nat → slice (p ++ q ++ r) from to = q.
Proof.
  intros -> ->. unfold slice. rewrite drop_app_length, Nat.add_comm, Nat.add_sub. apply take_app_length.
Qed.

Lemma claim_words_word id account zs k i :
  length zs = 5%nat → k = (2 + i)%nat →
  slice (claim_words id account zs) (k * wordSize) (k * wordSize + wordSize) =
  from_option (be_encode wordSize) [] (zs !! i).
Proof.
  intros Hlen ->. unfold claim_words. rewrite !app_assoc.
  set (h := (be_encode wordSize id ++ _) ++ _).
  assert (length h = 64%nat) as Hh.
  { unfold h. by rewrite !length_app, length_be_encode, length_replicate, length_vec_to_list. }
  destruct (zs !! i) as [z|] eqn:Hz; cbn [from_option].
  - apply list_elem_of_split_length in Hz as (l & r & -> & ->).
    rewrite bind_app, bind_cons, app_assoc. apply slice_app.
    + rewrite length_app, Hh. clear. unfold wordSize.
      induction l as [|x l IH]; [done|]. rewrite bind_cons, length_app, length_be_encode. cbn [length]. lia.
    + rewrite length_app, length_be_encode, Hh. clear. unfold wordSize.
      induction l as [|x l IH]; [done|]. rewrite bind_cons, length_app, length_be_encode. cbn [length]. lia.
  - apply lookup_ge_None in Hz. unfold slice. rewrite drop_ge; [by rewrite take_nil|].
    rewrite length_app, Hh. assert (length (zs ≫= be_encode wordSize) = (length zs * wordSize)%nat) as ->.
    { clear. induction zs as [|x l IH]; [done|]. rewrite bind_cons, length_app, length_be_encode, IH. done. }
    unfold wordSize in *. lia.
Qed.

Lemma claim_words_id id account zs :
  slice (claim_words id account zs) (0 * wordSize) (0 * wordSize + wordSize) = be_encode wordSize id.
Proof. apply (slice_app []); [done|]. by rewrite length_be_encode. Qed.

Lemma length_claim_words id account zs :
  length zs = 5%nat → length (claim_words id account zs) = (leafWords * wordSize)%nat.
Proof.
  intros Hlen. unfold claim_words. rewrite !length_app, length_be_encode, length_replicate, length_vec_to_list.
  assert (length (zs ≫= be_encode wordSize) = (length zs * wordSize)%nat) as ->; [|by rewrite Hlen].
  clear. induction zs as [|x l IH]; [done|]. rewrite bind_cons, length_app, length_be_encode, IH. done.
Qed.

Lemma decode_encode c e : encode c = Ok e → decode_claim e = c ∧ length e = (leafWords * wordSize)%nat.
Proof.
  intros (id & zs & Hid & Hr & Ha & Hzs & ->)%encode_Ok.
  assert (length zs = 5%nat) as Hlen.
  { apply (f_equal length) in Ha. by rewrite length_vec_to_list, length_fmap in Ha. }
  split; [|by apply length_claim_words]. destruct c as [cid account amounts]. cbn [c_ID c_Account c_Amounts] in *. subst cid.
  unfold decode_claim.
  assert (∀ z, 0 ≤ z < 2 ^ 256 → be_decode (be_encode wordSize z) = z) as Hbe.
  { intros z Hz. by apply be_decode_encode. }
  rewrite (claim_words_word id account zs 2 0), (claim_words_word id account zs 3 1),
    (claim_words_word id account zs 4 2), (claim_words_word id account zs 5 3),
    (claim_words_word id account zs 6 4) by done.
  destruct zs as [|z0 [|z1 [|z2 [|z3 [|z4 [|]]]]]]; try done. cbn [lookup list_lookup from_option].
  repeat (apply Forall_cons in Hzs as [? Hzs]). rewrite !Hbe by done. f_equal.
  - by rewrite claim_words_id, Hbe.
  - unfold claim_words. rewrite app_assoc, slice_app; [apply copy_array_of_list|..];
      by rewrite !length_app, length_be_encode, ?length_vec_to_list.
  - apply vec_to_list_inj2. by rewrite Ha.
Qed.

Lemma encode_inj c c' e : encode c = Ok e → encode c' = Ok e → c = c'.
Proof. intros [<- _]%decode_encode [<- _]%decode_encode. done. Qed.
