(* ===== verification/MerkleTree.v ===== *)
(** * The tree as a heap of hashes

    [placeLeaves] and [fillNodes] never index out of range and leave a heap: the
    sorted leaf hashes at the tail, back to front, and above them every node the
    hash of its two children ([New_Ok]). [reify] reads the heap as a binary tree
    whose leaves are the encoded claims. *)
From S2P Require Import Prelude Sorts Bytes Text Merkle MerkleEncode.

(** ** Placing the leaves *)

Lemma placeLeaves_Ok leaves : ∀ i nodes leafAt,
  (i + length leaves ≤ length nodes)%nat → NoDup (snd <$> leaves) →
  (∀ x, x ∈ leaves → (x.2 < length leafAt)%nat) →
  ∃ nodes' leafAt', placeLeaves i leaves nodes leafAt = Ok (nodes', leafAt') ∧
    length nodes' = length nodes ∧ length leafAt' = length leafAt ∧
    (∀ j x, leaves !! j = Some x →
       nodes' !! (length nodes - 1 - (i + j))%nat = Some x.1 ∧
       leafAt' !! x.2 = Some (length nodes - 1 - (i + j))%nat) ∧
    (∀ p, (p < length nodes - i - length leaves ∨ length nodes - i ≤ p)%nat → nodes' !! p = nodes !! p) ∧
    (∀ c, c ∉ snd <$> leaves → leafAt' !! c = leafAt !! c).
Proof.
  induction leaves as [|x leaves IH]; intros i nodes leafAt Hlen Hnd Hx; cbn [placeLeaves].
  { exists nodes, leafAt. split_and!; try done. }
  cbn [length] in Hlen. rewrite fmap_cons in Hnd. apply NoDup_cons in Hnd as [Hni Hnd].
  rewrite (set_index_Ok nodes) by lia. cbn [mbind Res_bind].
  rewrite set_index_Ok by (apply Hx; set_solver). cbn [mbind Res_bind].
  set (nodes1 := <[_ := x.1]> nodes). set (leafAt1 := <[x.2 := _]> leafAt).
  assert (length nodes1 = length nodes) as Hl1 by apply length_insert.
  assert (length leafAt1 = length leafAt) as Hl2 by apply length_insert.
  destruct (IH (S i) nodes1 leafAt1) as (nodes' & leafAt' & -> & Hn' & Hf' & Hat & Hn & Hf).
  { rewrite Hl1. lia. } { done. } { intros y Hy. rewrite Hl2. apply Hx. set_solver. }
  rewrite Hl1, Hl2 in *. exists nodes', leafAt'. split_and!; [done..| | |].
  - intros [|j] y Hy; cbn in Hy.
    + injection Hy as <-. rewrite Hn, Hf by (first [lia|done]).
      rewrite Nat.add_0_r. split.
      * unfold nodes1. apply list_lookup_insert_eq. lia.
      * unfold leafAt1. apply list_lookup_insert_eq. apply Hx. set_solver.
    + rewrite <-Nat.add_succ_comm. by apply Hat.
  - intros p Hp. cbn [length] in Hp. rewrite Hn by lia. unfold nodes1.
    apply list_lookup_insert_ne. lia.
  - intros c Hc. rewrite fmap_cons, not_elem_of_cons in Hc. destruct Hc as [Hc Hc'].
    rewrite Hf by done. by apply list_lookup_insert_ne.
Qed.

Section heap.
Context (keccak256 : list byte → Hash).
Abbreviation hashPair := (hashPair keccak256).
Abbreviation leafHashOf := (leafHashOf keccak256).

(** ** Filling the internal nodes *)

Lemma fillNodes_Ok k : ∀ nodes,
  (2 * k < length nodes ∨ k = 0)%nat →
  ∃ nodes', fillNodes keccak256 k nodes = Ok nodes' ∧ length nodes' = length nodes ∧
    (∀ i, (i < k)%nat → ∃ l r, nodes' !! (2 * i + 1)%nat = Some l ∧ nodes' !! (2 * i + 2)%nat = Some r ∧
       nodes' !! i = Some (hashPair l r)) ∧
    (∀ i, (k ≤ i)%nat → nodes' !! i = nodes !! i).
Proof.
  induction k as [|k IH]; intros nodes Hk; cbn [fillNodes].
  { exists nodes. split_and!; [done..|lia|done]. }
  destruct (lookup_lt_is_Some_2 nodes (2 * k + 1)) as [l Hl]; [lia|].
  destruct (lookup_lt_is_Some_2 nodes (2 * k + 2)) as [r Hr]; [lia|].
  unfold index. rewrite Hl. cbn [mbind Res_bind]. rewrite Hr. cbn [mbind Res_bind].
  rewrite set_index_Ok by lia. cbn [mbind Res_bind].
  set (nodes1 := <[k := _]> nodes).
  assert (length nodes1 = length nodes) as Hl1 by apply length_insert.
  destruct (IH nodes1) as (nodes' & Hf & Hlen & Hint & Hsame); [lia|].
  exists nodes'. split_and!; [done|congruence| |].
  - intros i Hi. destruct (decide (i = k)) as [->|]; [|apply Hint; lia].
    exists l, r. rewrite !Hsame by lia. unfold nodes1.
    rewrite !list_lookup_insert_ne by lia. split_and!; [done..|]. apply list_lookup_insert_eq. lia.
  - intros i Hi. rewrite Hsame by lia. apply list_lookup_insert_ne. lia.
Qed.

(** ** What New builds *)

Record heap_ok (t : Tree) : Prop := {
  ho_some : t_encoded t ≠ [];
  ho_nodes : length (t_nodes t) = (2 * length (t_encoded t) - 1)%nat;
  ho_leafAt : length (t_leafAt t) = length (t_encoded t);
  ho_internal : ∀ i, (i < length (t_encoded t) - 1)%nat → ∃ l r,
    t_nodes t !! (2 * i + 1)%nat = Some l ∧ t_nodes t !! (2 * i + 2)%nat = Some r ∧
    t_nodes t !! i = Some (hashPair l r);
  ho_leaf : ∀ i e, t_encoded t !! i = Some e → ∃ at_,
    t_leafAt t !! i = Some at_ ∧ (length (t_encoded t) - 1 ≤ at_ < length (t_nodes t))%nat ∧
    t_nodes t !! at_ = Some (leafHashOf e);
  ho_inj : NoDup (t_leafAt t);
  ho_tail : drop (length (t_encoded t) - 1) (t_nodes t) =
    reverse (sort_by array_compare (leafHashOf <$> t_encoded t));
}.

Definition hashed_leaves (encoded : list (list byte)) : list hashed :=
  imap (λ i e, (leafHashOf e, i)) encoded.

Lemma hashed_leaves_fst encoded : fst <$> hashed_leaves encoded = leafHashOf <$> encoded.
Proof.
  unfold hashed_leaves. rewrite fmap_imap. apply list_eq. intros i.
  rewrite list_lookup_imap, list_lookup_fmap. by destruct (encoded !! i).
Qed.

Lemma hashed_leaves_snd encoded : snd <$> hashed_leaves encoded = seq 0 (length encoded).
Proof.
  unfold hashed_leaves. rewrite fmap_imap. apply list_eq. intros i. rewrite list_lookup_imap.
  destruct (encoded !! i) as [e|] eqn:He; cbn.
  - symmetry. apply lookup_seq. apply lookup_lt_Some in He. lia.
  - symmetry. apply lookup_seq_ge. by apply lookup_ge_None.
Qed.

Lemma elem_of_hashed_leaves encoded h i :
  (h, i) ∈ hashed_leaves encoded ↔ ∃ e, encoded !! i = Some e ∧ h = leafHashOf e.
Proof.
  unfold hashed_leaves. rewrite elem_of_lookup_imap. naive_solver.
Qed.

(** The slices [New] builds for a list of encoded claims: it cannot fail past the
    encoding. *)
Lemma build_Ok encoded :
  encoded ≠ [] →
  let n := length encoded in
  let leaves := sort_by compareHashed (hashed_leaves encoded) in
  ∃ nodes leafAt t,
    placeLeaves 0 leaves (replicate (2 * n - 1) zeroHash) (replicate n 0%nat) = Ok (nodes, leafAt) ∧
    nodes = replicate (n - 1) zeroHash ++ reverse (sort_by array_compare (leafHashOf <$> encoded)) ∧
    fillNodes keccak256 (length nodes - length leaves) nodes = Ok (t_nodes t) ∧
    t_leafAt t = leafAt ∧ t_encoded t = encoded ∧ heap_ok t.
Proof.
  intros Hne n leaves.
  assert (0 < n)%nat as Hn by (unfold n; destruct encoded; [done|cbn; lia]).
  assert (leaves ≡ₚ hashed_leaves encoded) as Hperm by apply (sort_by_perm _).
  assert (length leaves = n) as Hll.
  { rewrite Hperm. unfold hashed_leaves. apply length_imap. }
  assert (length (fst <$> leaves) = n) as Hl1 by by rewrite length_fmap.
  assert (fst <$> leaves = sort_by array_compare (leafHashOf <$> encoded)) as Hfst.
  { unfold leaves, compareHashed. by rewrite fmap_sort_by, hashed_leaves_fst. }
  assert (snd <$> leaves ≡ₚ seq 0 n) as Hsnd by by rewrite Hperm, hashed_leaves_snd.
  assert (NoDup (snd <$> leaves)) as Hnd by (rewrite Hsnd; apply NoDup_seq).
  destruct (placeLeaves_Ok leaves 0 (replicate (2 * n - 1) zeroHash) (replicate n 0%nat))
    as (nodes & leafAt & Hpl & Hln & Hlf & Hat & Hrest & _).
  { rewrite length_replicate. lia. } { done. }
  { intros [h i] Hx. rewrite length_replicate.
    assert (i ∈ seq 0 n) as Hi by (rewrite <-Hsnd; by apply (list_elem_of_fmap_2 snd) in Hx).
    cbn. apply elem_of_seq in Hi. lia. }
  rewrite length_replicate in Hln, Hat, Hrest. rewrite length_replicate in Hlf.
  assert (nodes = replicate (n - 1) zeroHash ++ reverse (fst <$> leaves)) as Hnodes.
  { apply list_eq. intros p. destruct (decide (p < n - 1)%nat) as [Hp|Hp].
    - rewrite Hrest by lia. rewrite lookup_app_l by (rewrite length_replicate; lia).
      by rewrite !lookup_replicate_2 by lia.
    - rewrite lookup_app_r by (rewrite length_replicate; lia). rewrite length_replicate.
      destruct (decide (p < 2 * n - 1)%nat) as [Hp2|Hp2].
      + destruct (lookup_lt_is_Some_2 leaves (2 * n - 1 - 1 - p)) as [x Hx]; [lia|].
        destruct (Hat _ _ Hx) as [Hx1 _].
        replace (2 * n - 1 - 1 - (0 + (2 * n - 1 - 1 - p)))%nat with p in Hx1 by lia.
        rewrite Hx1. symmetry. rewrite reverse_lookup by lia. rewrite Hl1. replace (n - S (p - (n - 1)))%nat with (2 * n - 1 - 1 - p)%nat by lia.
        by rewrite list_lookup_fmap, Hx.
      + rewrite !lookup_ge_None_2; [done| |lia]. rewrite length_reverse. lia. }
  destruct (fillNodes_Ok (n - 1) nodes) as (nodes' & Hfill & Hln' & Hint & Hsame); [lia|].
  exists nodes, leafAt, (mkTree nodes' leafAt encoded). cbn [t_nodes t_leafAt t_encoded].
  split_and!; [done|by rewrite Hnodes, Hfst|rewrite <-Hfill; f_equal; lia|done..|].
  fold n in Hint. split; cbn [t_nodes t_leafAt t_encoded]; fold n; try done; try lia.
  - intros i e He.
    assert ((leafHashOf e, i) ∈ leaves) as Hin by (rewrite Hperm; apply elem_of_hashed_leaves; by exists e).
    apply list_elem_of_lookup in Hin as [j Hj]. destruct (Hat _ _ Hj) as [Hn1 Hf1]. cbn in Hn1, Hf1.
    apply lookup_lt_Some in Hj. exists (2 * n - 1 - 1 - (0 + j))%nat. split_and!; [done|lia|lia|].
    rewrite Hsame by lia. done.
  - apply NoDup_alt. intros i j at_ Hi Hj.
    assert (∀ i at_, leafAt !! i = Some at_ → ∃ h, leaves !! (2 * n - 1 - 1 - at_)%nat = Some (h, i)) as Hback.
    { intros c at1 Hc. assert (c ∈ seq 0 n) as Hin.
      { apply elem_of_seq. apply lookup_lt_Some in Hc. lia. }
      rewrite <-Hsnd in Hin. apply list_elem_of_fmap in Hin as ([h c'] & -> & Hin). cbn [snd] in *.
      apply list_elem_of_lookup in Hin as [k Hk]. destruct (Hat _ _ Hk) as [_ Hf]. cbn [snd] in Hf.
      assert (at1 = (2 * n - 1 - 1 - (0 + k))%nat) as -> by congruence. apply lookup_lt_Some in Hk as Hk'. exists h.
      by replace (2 * n - 1 - 1 - (2 * n - 1 - 1 - (0 + k)))%nat with k by lia. }
    destruct (Hback _ _ Hi) as [h Hh], (Hback _ _ Hj) as [h' Hh']. congruence.
  - rewrite <-Hfst. apply list_eq. intros p. rewrite lookup_drop, Hsame by lia.
    rewrite Hnodes, lookup_app_r by (rewrite length_replicate; lia).
    rewrite length_replicate. f_equal. lia.
Qed.

Lemma New_Ok claims :
  claims ≠ [] → Forall claim_ok claims →
  ∃ t, New keccak256 claims = Ok t ∧ heap_ok t ∧ Forall2 (λ c e, encode c = Ok e) claims (t_encoded t).
Proof.
  intros Hne Hok.
  assert (∃ encoded, traverseI (λ i c, wrap (errClaim i) (encode c)) 0 claims = Ok encoded ∧
            Forall2 (λ c e, encode c = Ok e) claims encoded) as (encoded & Htr & Henc).
  { generalize 0%nat. clear Hne. induction Hok as [|c claims Hc _ IH]; intros i; [by exists []|].
    apply encode_accepts in Hc as [e He]. destruct (IH (S i)) as (es & Hes & Hall).
    exists (e :: es). cbn [traverseI]. rewrite He. cbn [wrap mbind Res_bind]. rewrite Hes. by split; [|constructor]. }
  assert (length claims = length encoded) as Hlen by by eapply Forall2_length.
  assert (encoded ≠ []) as Hne' by (intros ->; by destruct claims).
  destruct (build_Ok encoded Hne') as (nodes & leafAt & t & Hpl & _ & Hf & Hla & He & Hheap).
  exists t. split; [|by rewrite He]. unfold New. destruct claims as [|c claims]; [done|].
  rewrite Htr. cbn [mbind Res_bind]. rewrite Hlen. fold (hashed_leaves encoded).
  rewrite Hpl. cbn [mbind Res_bind]. rewrite Hf. cbn [mbind Res_bind].
  destruct t. cbn in *. by subst.
Qed.

(** The ways [New] refuses. *)
Lemma New_Err claims :
  claims = [] ∨ ¬ Forall claim_ok claims → ∃ e, New keccak256 claims = Err e.
Proof.
  intros Hbad. destruct claims as [|c claims]; [by eexists|]. destruct Hbad as [[=]|Hbad].
  unfold New. set (tr := traverseI _ 0 _). assert (∃ e, tr = Err e) as [e ->]; [|by exists e].
  unfold tr. generalize 0%nat. revert Hbad. clear. generalize (c :: claims). clear c claims.
  induction l as [|c l IH]; intros Hbad i; [by destruct Hbad|]. cbn [traverseI].
  destruct (encode c) as [e|e|f] eqn:He; cbn [wrap mbind Res_bind].
  - assert (¬ Forall claim_ok l) as Hl.
    { intros Hl. destruct Hbad. constructor; [|done]. apply encode_accepts. by exists e. }
    destruct (IH Hl (S i)) as [e' ->]. by eexists.
  - by eexists.
  - by apply encode_no_fault in He.
Qed.

Lemma New_inv claims t :
  New keccak256 claims = Ok t →
  heap_ok t ∧ claims ≠ [] ∧ Forall claim_ok claims ∧ Forall2 (λ c e, encode c = Ok e) claims (t_encoded t).
Proof.
  intros HN. destruct (decide (claims = [])) as [->|Hne]; [done|].
  destruct (decide (Forall claim_ok claims)) as [Hok|Hbad].
  - destruct (New_Ok claims Hne Hok) as (t' & HN' & Hh & He). assert (t = t') as -> by congruence. done.
  - destruct (New_Err claims) as [e He]; [by right|]. congruence.
Qed.

(** The nodes are a function of the leaf hashes as a multiset. *)
Lemma heap_unique t t' :
  heap_ok t → heap_ok t' → t_encoded t ≡ₚ t_encoded t' → t_nodes t = t_nodes t'.
Proof.
  intros H H' Hp. assert (length (t_encoded t) = length (t_encoded t')) as Hlen by by rewrite Hp.
  assert (drop (length (t_encoded t) - 1) (t_nodes t) = drop (length (t_encoded t') - 1) (t_nodes t'))
    as Htail.
  { rewrite (ho_tail t H), (ho_tail t' H'). f_equal. apply (sort_by_eq_Permutation _). by rewrite Hp. }
  rewrite <-Hlen in Htail. set (n := length (t_encoded t)) in *.
  assert (∀ m i, (2 * n - i ≤ m)%nat → t_nodes t !! i = t_nodes t' !! i) as Hall.
  { induction m as [|m IH]; intros i Hi.
    - rewrite !lookup_ge_None_2; [done|rewrite (ho_nodes t' H')|rewrite (ho_nodes t H)]; lia.
    - destruct (decide (i < n - 1)%nat) as [Hin|Hin].
      + destruct (ho_internal t H i) as (l & r & Hl & Hr & ->); [done|].
        destruct (ho_internal t' H' i) as (l' & r' & Hl' & Hr' & ->); [lia|].
        rewrite (IH (2 * i + 1)%nat) in Hl by lia. rewrite (IH (2 * i + 2)%nat) in Hr by lia.
        by simplify_eq.
      + apply (f_equal (lookup (i - (n - 1))%nat)) in Htail. rewrite !lookup_drop in Htail.
        by replace (n - 1 + (i - (n - 1)))%nat with i in Htail by lia. }
  apply list_eq. intros i. by apply (Hall (2 * n)%nat); lia.
Qed.
End heap.
