(* ===== verification/MerkleProof.v ===== *)
(** * Proofs, and what a Root commits to

    A proof of [Tree.Proof] verifies ([proof_verifies]). Conversely, and with no
    assumption on the hash: a leaf that verifies against a Root is one of its
    claims, and two equal Roots have the same claims, or else two of the byte
    strings that were hashed along the way are different and collide. *)
From S2P Require Import Prelude Sorts Bytes Text Merkle MerkleEncode MerkleTree.

Section proofs.
Context (keccak256 : list byte → Hash).
Abbreviation hashPair := (hashPair keccak256).
Abbreviation leafHashOf := (leafHashOf keccak256).

(** The 64 bytes [hashPair] hashes. *)
Definition pair_input (a b : Hash) : list byte :=
  match array_compare a b with
  | Gt => vec_to_list b ++ vec_to_list a
  | _ => vec_to_list a ++ vec_to_list b
  end.

Lemma hashPair_eq a b : hashPair a b = keccak256 (pair_input a b).
Proof. unfold Merkle.hashPair, pair_input. by destruct (array_compare a b). Qed.

Lemma pair_input_comm a b : pair_input a b = pair_input b a.
Proof.
  unfold pair_input. rewrite (cmp_antisym a b).
  destruct (array_compare a b) eqn:E; cbn; [|done..]. by apply array_compare_eq in E as ->.
Qed.

Lemma hashPair_comm a b : hashPair a b = hashPair b a.
Proof. by rewrite !hashPair_eq, pair_input_comm. Qed.

Lemma pair_input_inj a b c d :
  pair_input a b = pair_input c d → (a = c ∧ b = d) ∨ (a = d ∧ b = c).
Proof.
  assert (∀ x y z w : Hash, vec_to_list x ++ vec_to_list y = vec_to_list z ++ vec_to_list w →
    x = z ∧ y = w) as H.
  { intros x y z w [Hx Hy]%app_inj_1; [|by rewrite !length_vec_to_list].
    split; by apply vec_to_list_inj2. }
  unfold pair_input. destruct (array_compare a b), (array_compare c d); intros [-> ->]%H; auto.
Qed.

Lemma length_pair_input a b : length (pair_input a b) = 64%nat.
Proof. unfold pair_input. by destruct (array_compare a b); rewrite length_app, !length_vec_to_list. Qed.

(** ** Proofs verify *)

Lemma sibling_pair (at_ : nat) :
  at_ ≠ 0%nat →
  let p := ((at_ - 1) / 2)%nat in
  (at_ = 2 * p + 1 ∧ siblingIndex at_ = 2 * p + 2)%nat ∨
  (at_ = 2 * p + 2 ∧ siblingIndex at_ = 2 * p + 1)%nat.
Proof.
  intros Hat p. unfold siblingIndex.
  pose proof (Nat.div_mod (at_ - 1) 2 ltac:(lia)) as Hd. fold p in Hd.
  pose proof (Nat.mod_upper_bound (at_ - 1) 2 ltac:(lia)).
  pose proof (Nat.div_mod at_ 2 ltac:(lia)). pose proof (Nat.mod_upper_bound at_ 2 ltac:(lia)).
  destruct (Nat.eqb_spec (at_ mod 2) 0); lia.
Qed.

Lemma proofFrom_Ok (t : Tree) (root : Hash) fuel : ∀ at_ acc x,
  heap_ok keccak256 t → t_nodes t !! 0%nat = Some root → (at_ ≤ fuel)%nat →
  t_nodes t !! at_ = Some x →
  ∃ p, proofFrom fuel (t_nodes t) at_ acc = Ok (acc ++ p) ∧ foldl hashPair x p = root ∧
       (2 ^ length p ≤ at_ + 1 < 2 ^ (length p + 1))%nat.
Proof.
  induction fuel as [|fuel IH]; intros at_ acc x Hh Hroot Hf Hx; cbn [proofFrom].
  - replace at_ with 0%nat in * by lia. exists []. rewrite app_nil_r. cbn. split_and!; [done|congruence|lia|lia].
  - destruct (Nat.eqb_spec at_ 0) as [->|Hne].
    { exists []. rewrite app_nil_r. cbn. split_and!; [done|congruence|lia|lia]. }
    set (p := ((at_ - 1) / 2)%nat). pose proof (sibling_pair at_ Hne) as Hsib. cbn zeta in Hsib. fold p in Hsib.
    apply lookup_lt_Some in Hx as Hlt. rewrite (ho_nodes _ _ Hh) in Hlt.
    destruct (ho_internal _ _ Hh p) as (l & r & Hl & Hr & Hp); [lia|].
    assert (∃ s, t_nodes t !! siblingIndex at_ = Some s ∧ hashPair x s = hashPair l r) as (s & Hs & Hxs).
    { destruct Hsib as [[He Hsi]|[He Hsi]]; rewrite Hsi; rewrite He in Hx.
      - exists r. split; [done|]. congruence.
      - exists l. split; [done|]. rewrite hashPair_comm. congruence. }
    unfold index. rewrite Hs. cbn [mbind Res_bind].
    destruct (IH p (acc ++ [s]) (hashPair x s)) as (q & -> & Hq & Hlen); [done|done|lia|by rewrite Hxs|].
    exists (s :: q). rewrite <-app_assoc. split_and!; [done..| |].
    + cbn [length Nat.pow]. lia.
    + cbn [length Nat.add]. rewrite Nat.pow_succ_r'. lia.
Qed.

(** Every claim has a proof, as long as its leaf is deep, and it verifies. *)
Lemma proof_verifies t i :
  heap_ok keccak256 t → (i < Len t)%nat →
  ∃ root at_ leaf p, Root t = Ok root ∧ TreeIndex t i = Ok at_ ∧ Leaf t i = Ok leaf ∧
    Proof_ t i = Ok p ∧ Verify keccak256 root leaf p = true ∧
    (2 ^ length p ≤ at_ + 1 < 2 ^ (length p + 1))%nat.
Proof.
  intros Hh Hi. unfold Len in Hi. rewrite (ho_leafAt _ _ Hh) in Hi.
  destruct (lookup_lt_is_Some_2 _ _ Hi) as [e He].
  destruct (ho_leaf _ _ Hh i e He) as (at_ & Hat & Hr & Hx).
  destruct (lookup_lt_is_Some_2 (t_nodes t) 0) as [root Hroot]; [lia|].
  destruct (proofFrom_Ok t root at_ at_ [] _ Hh Hroot ltac:(lia) Hx) as (p & Hp & Hfold & Hlen).
  exists root, at_, (leafHashOf e), p.
  unfold Root, TreeIndex, Leaf, Proof_, Verify, index. rewrite Hroot, Hat. cbn [mbind Res_bind].
  rewrite Hx. split_and!; try done; try lia. by rewrite bool_decide_eq_true.
Qed.

(** ** The heap as a tree *)

Inductive tree := Lf (e : list byte) | Nd (l r : tree).

Fixpoint thash (T : tree) : Hash :=
  match T with Lf e => leafHashOf e | Nd l r => hashPair (thash l) (thash r) end.
Fixpoint leaves (T : tree) : list (list byte) :=
  match T with Lf e => [e] | Nd l r => leaves l ++ leaves r end.
(** Every byte string hashed to get the hash of the tree. *)
Fixpoint inputs (T : tree) : list (list byte) :=
  match T with
  | Lf e => [e; vec_to_list (keccak256 e)]
  | Nd l r => pair_input (thash l) (thash r) :: inputs l ++ inputs r
  end.

(** Two different strings of two lists with one hash. *)
Definition collision (xs ys : list (list byte)) : Prop :=
  ∃ x y, x ∈ xs ∧ y ∈ ys ∧ x ≠ y ∧ keccak256 x = keccak256 y.

Lemma collision_mono xs ys xs' ys' :
  xs ⊆ xs' → ys ⊆ ys' → collision xs ys → collision xs' ys'.
Proof. intros Hx Hy (x & y & ? & ? & ? & ?). exists x, y. split_and!; auto. Qed.

(** Equal hashes of known strings: equal strings, or a collision. *)
Lemma keccak_eq x y xs ys :
  keccak256 x = keccak256 y → x ∈ xs → y ∈ ys → x = y ∨ collision xs ys.
Proof.
  intros H Hx Hy. destruct (decide (x = y)); [by left|]. right. by exists x, y.
Qed.

Lemma length_neq (x y : list byte) : length x ≠ length y → x ≠ y.
Proof. by intros H ->. Qed.

(** A leaf and an internal node hash strings of different lengths. *)
Lemma leaf_node_collision e a b xs ys :
  leafHashOf e = hashPair a b → vec_to_list (keccak256 e) ∈ xs → pair_input a b ∈ ys → collision xs ys.
Proof.
  rewrite hashPair_eq. unfold Merkle.leafHashOf. intros H Hx Hy.
  destruct (keccak_eq _ _ _ _ H Hx Hy) as [Heq|]; [|done].
  apply (f_equal length) in Heq. by rewrite length_vec_to_list, length_pair_input in Heq.
Qed.

Lemma leaf_leaf e e' xs ys :
  leafHashOf e = leafHashOf e' → e ∈ xs → e' ∈ ys →
  vec_to_list (keccak256 e) ∈ xs → vec_to_list (keccak256 e') ∈ ys → e = e' ∨ collision xs ys.
Proof.
  unfold Merkle.leafHashOf. intros H He He' Hk Hk'.
  destruct (keccak_eq _ _ _ _ H Hk Hk') as [Heq|]; [|by right].
  apply vec_to_list_inj2 in Heq. by eapply keccak_eq.
Qed.

Lemma collision_sym xs ys : collision xs ys → collision ys xs.
Proof. intros (x & y & ? & ? & ? & ?). by exists y, x. Qed.

(** ** Soundness of a proof *)

(** Every byte string [Verify] hashes for the leaf [e], the leaf hash included. *)
Definition verify_inputs (e : list byte) (proof : list Hash) : list (list byte) :=
  e :: vec_to_list (keccak256 e) ::
  imap (λ i s, pair_input (foldl hashPair (leafHashOf e) (take i proof)) s) proof.

Lemma verify_inputs_snoc e proof s :
  verify_inputs e (proof ++ [s]) =
  verify_inputs e proof ++ [pair_input (foldl hashPair (leafHashOf e) proof) s].
Proof.
  unfold verify_inputs. cbn [app]. do 2 f_equal. rewrite imap_app. cbn [imap]. f_equal.
  - apply imap_ext. intros i x Hi. by rewrite take_app_le by (apply lookup_lt_Some in Hi; lia).
  - by rewrite Nat.add_0_r, take_app_length.
Qed.

Lemma verify_sound e proof T :
  foldl hashPair (leafHashOf e) proof = thash T →
  e ∈ leaves T ∨ collision (inputs T) (verify_inputs e proof).
Proof.
  revert T. induction proof as [|s proof IH] using rev_ind; intros T HT.
  - destruct T as [e'|l r]; cbn [foldl thash leaves inputs] in *.
    + destruct (leaf_leaf e' e [e'; vec_to_list (keccak256 e')] (verify_inputs e [])) as [->|?];
        [done|unfold verify_inputs; set_solver..|left; set_solver|by right].
    + right. apply collision_sym. eapply leaf_node_collision; [exact HT|unfold verify_inputs; set_solver..].
  - rewrite foldl_app in HT. cbn [foldl] in HT. rewrite verify_inputs_snoc.
    set (c := foldl hashPair (leafHashOf e) proof) in *.
    destruct T as [e'|l r]; cbn [thash leaves inputs] in *.
    { right. symmetry in HT. eapply leaf_node_collision; [exact HT|set_solver..]. }
    rewrite !hashPair_eq in HT.
    destruct (keccak_eq _ _ (pair_input c s :: []) (pair_input (thash l) (thash r) :: []) HT)
      as [Heq|Hc]; [set_solver..| |right; apply collision_sym; eapply collision_mono; [..|exact Hc]; set_solver].
    apply pair_input_inj in Heq as [[Hc _]|[Hc _]]; destruct (IH _ Hc) as [Hin|Hcol].
    + left. set_solver.
    + right. eapply collision_mono; [..|exact Hcol]; set_solver.
    + left. set_solver.
    + right. eapply collision_mono; [..|exact Hcol]; set_solver.
Qed.

(** ** Roots bind their claims *)

Lemma tree_binding T T' :
  thash T = thash T' → leaves T ≡ₚ leaves T' ∨ collision (inputs T) (inputs T').
Proof.
  revert T'. induction T as [e|l IHl r IHr]; intros [e'|l' r'] H; cbn [thash leaves inputs] in *.
  - destruct (leaf_leaf e e' [e; vec_to_list (keccak256 e)] [e'; vec_to_list (keccak256 e')])
      as [->|?]; [done|set_solver..|by left|by right].
  - right. eapply leaf_node_collision; [exact H|set_solver..].
  - right. symmetry in H. apply collision_sym. eapply leaf_node_collision; [exact H|set_solver..].
  - rewrite !hashPair_eq in H.
    destruct (keccak_eq _ _ [pair_input (thash l) (thash r)] [pair_input (thash l') (thash r')] H)
      as [Heq|Hc]; [set_solver..| |right; eapply collision_mono; [..|exact Hc]; set_solver].
    apply pair_input_inj in Heq as [[H1 H2]|[H1 H2]].
    + destruct (IHl _ H1) as [->|Hc]; [|right; eapply collision_mono; [..|exact Hc]; set_solver].
      destruct (IHr _ H2) as [->|Hc]; [|right; eapply collision_mono; [..|exact Hc]; set_solver].
      by left.
    + destruct (IHl _ H1) as [->|Hc]; [|right; eapply collision_mono; [..|exact Hc]; set_solver].
      destruct (IHr _ H2) as [->|Hc]; [|right; eapply collision_mono; [..|exact Hc]; set_solver].
      left. apply Permutation_app_comm.
Qed.

(** ** From the heap to the tree *)

(** Every byte string hashed to build [t]. *)
Definition tree_inputs (t : Tree) : list (list byte) :=
  t_encoded t ++ ((λ e, vec_to_list (keccak256 e)) <$> t_encoded t) ++
  omap (λ i, l ← t_nodes t !! (2 * i + 1)%nat; r ← t_nodes t !! (2 * i + 2)%nat; Some (pair_input l r))
    (seq 0 (length (t_encoded t) - 1)).

Lemma heap_leafAt_perm t :
  heap_ok keccak256 t →
  t_leafAt t ≡ₚ seq (length (t_encoded t) - 1) (length (t_encoded t)).
Proof.
  intros Hh. symmetry. apply submseteq_length_Permutation.
  2:{ by rewrite length_seq, (ho_leafAt _ _ Hh). }
  assert (t_leafAt t ⊆+ seq (length (t_encoded t) - 1) (length (t_encoded t))) as Hsub.
  { apply NoDup_submseteq; [by apply (ho_inj _ _ Hh)|]. intros at_ [i Hi]%list_elem_of_lookup.
    apply elem_of_seq. apply lookup_lt_Some in Hi as Hlt. rewrite (ho_leafAt _ _ Hh) in Hlt.
    destruct (lookup_lt_is_Some_2 _ _ Hlt) as [e He]. destruct (ho_leaf _ _ Hh i e He) as (at2 & Hat & Hr & _).
    assert (at_ = at2) as -> by congruence. rewrite (ho_nodes _ _ Hh) in Hr. lia. }
  apply submseteq_length_Permutation in Hsub; [by rewrite Hsub|].
  by rewrite length_seq, (ho_leafAt _ _ Hh).
Qed.

Lemma bind_singletons {A B} (g : A → list B) l k :
  Forall2 (λ x y, g x = [y]) l k → l ≫= g = k.
Proof. induction 1 as [|x y l k Hx _ IH]; [done|]. by rewrite bind_cons, Hx, IH. Qed.

(** The trees at the indices from [k] on, of which those up to [2k] hold the
    claims. *)
Definition frontier (t : Tree) (k : nat) (f : nat → tree) : Prop :=
  (∀ i, (k ≤ i < length (t_nodes t))%nat →
     t_nodes t !! i = Some (thash (f i)) ∧ inputs (f i) ⊆ tree_inputs t) ∧
  (seq k (k + 1) ≫= λ i, leaves (f i)) ≡ₚ t_encoded t.

Lemma frontier_leaves t :
  heap_ok keccak256 t → ∃ f, frontier t (length (t_encoded t) - 1) f.
Proof.
  intros Hh. pose proof (heap_leafAt_perm t Hh) as Hperm. set (n := length (t_encoded t)) in *.
  assert (0 < n)%nat as Hn.
  { pose proof (ho_some _ _ Hh). unfold n. destruct (t_encoded t); [done|cbn; lia]. }
  set (f at_ := match list_find (λ a, a = at_) (t_leafAt t) with
                | Some (i, _) => Lf (default [] (t_encoded t !! i)) | None => Lf [] end).
  assert (∀ i at_ e, t_leafAt t !! i = Some at_ → t_encoded t !! i = Some e → f at_ = Lf e) as Hf.
  { intros i at_ e Hi He. unfold f.
    assert (list_find (λ a, a = at_) (t_leafAt t) = Some (i, at_)) as ->; [|by rewrite He].
    apply list_find_Some. split_and!; [done..|]. intros j y Hj Hlt ->.
    pose proof (NoDup_lookup _ _ _ _ (ho_inj _ _ Hh) Hi Hj). lia. }
  exists f. split.
  - intros at_ Hat. assert (at_ ∈ t_leafAt t) as [i Hi]%list_elem_of_lookup.
    { rewrite Hperm. apply elem_of_seq. rewrite (ho_nodes _ _ Hh) in Hat. fold n in Hat. lia. }
    apply lookup_lt_Some in Hi as Hlt. rewrite (ho_leafAt _ _ Hh) in Hlt.
    destruct (lookup_lt_is_Some_2 _ _ Hlt) as [e He]. destruct (ho_leaf _ _ Hh i e He) as (at2 & Hat2 & _ & Hx).
    assert (at_ = at2) as <- by congruence. rewrite (Hf i at_ e) by done. split; [done|].
    apply list_elem_of_lookup_2 in He. cbn [inputs]. unfold tree_inputs.
    intros x [->|[->|[]%not_elem_of_nil]%elem_of_cons]%elem_of_cons; [set_solver|].
    rewrite !elem_of_app. right; left. apply list_elem_of_fmap. by exists e.
  - replace (n - 1 + 1)%nat with n by lia. rewrite <-Hperm.
    rewrite (bind_singletons _ _ (t_encoded t)); [done|].
    apply Forall2_same_length_lookup_2; [by apply (ho_leafAt _ _ Hh)|].
    intros i at_ e Hi He. by rewrite (Hf i at_ e).
Qed.

Lemma frontier_up t k f :
  heap_ok keccak256 t → (k < length (t_encoded t) - 1)%nat → frontier t (S k) f →
  frontier t k (λ i, if decide (i = k) then Nd (f (2 * k + 1)%nat) (f (2 * k + 2)%nat) else f i).
Proof.
  intros Hh Hk [Hf Hp]. destruct (ho_internal _ _ Hh k Hk) as (l & r & Hl & Hr & Hx).
  apply lookup_lt_Some in Hr as Hlt.
  destruct (Hf (2 * k + 1)%nat) as [Hl' Hil]; [lia|]. destruct (Hf (2 * k + 2)%nat) as [Hr' Hir]; [lia|].
  simplify_eq. split.
  - intros i Hi. case_decide as Hik; [subst i|apply Hf; lia]. split; [done|]. cbn [inputs].
    intros x [->|[?|?]%elem_of_app]%elem_of_cons; [|by apply Hil|by apply Hir].
    unfold tree_inputs. rewrite !elem_of_app. right; right. apply list_elem_of_omap.
    exists k. rewrite elem_of_seq, Hl, Hr. cbn. split; [lia|done].
  - rewrite <-Hp. replace (S k + 1)%nat with (k + 2)%nat by lia.
    rewrite (seq_app k 2), bind_app. replace (k + 1)%nat with (S k) by lia. cbn [seq].
    rewrite bind_cons, decide_True by done.
    assert ((seq (S k) k ≫= λ i, leaves (if decide (i = k) then Nd (f (2 * k + 1)%nat) (f (2 * k + 2)%nat) else f i)) =
            seq (S k) k ≫= λ i, leaves (f i)) as ->.
    { assert (∀ i, i ∈ seq (S k) k → i ≠ k) as Hne by (intros i [? _]%elem_of_seq; lia).
      revert Hne. generalize (seq (S k) k). induction l as [|i l IH]; intros Hne; [done|].
      rewrite !bind_cons, decide_False, IH by set_solver. done. }
    cbn [leaves]. rewrite !bind_cons. cbn [mbind list_bind]. rewrite app_nil_r.
    replace (S k + k)%nat with (2 * k + 1)%nat by lia. replace (S (2 * k + 1)) with (2 * k + 2)%nat by lia.
    apply Permutation_app_comm.
Qed.

Lemma heap_tree t :
  heap_ok keccak256 t →
  ∃ T, t_nodes t !! 0%nat = Some (thash T) ∧ leaves T ≡ₚ t_encoded t ∧ inputs T ⊆ tree_inputs t.
Proof.
  intros Hh. destruct (frontier_leaves t Hh) as [f Hf].
  assert (∃ f, frontier t 0 f) as (f0 & Hf0 & Hp).
  { assert (length (t_encoded t) - 1 ≤ length (t_encoded t) - 1)%nat as Hle by lia.
    revert Hle f Hf. generalize (length (t_encoded t) - 1)%nat at 1 3 as k.
    induction k as [|k IH]; intros Hle f Hf; [by exists f|].
    eapply IH; [lia|]. apply frontier_up; [done|lia|done]. }
  assert (0 < length (t_nodes t))%nat as Hlt.
  { rewrite (ho_nodes _ _ Hh). pose proof (ho_some _ _ Hh). destruct (t_encoded t); [done|cbn; lia]. }
  destruct (Hf0 0%nat) as [Hr Hi]; [lia|]. exists (f0 0%nat). split_and!; [done| |done].
  change (seq 0 (0 + 1)) with [0%nat] in Hp. rewrite bind_cons in Hp. cbn [mbind list_bind] in Hp.
  by rewrite app_nil_r in Hp.
Qed.
End proofs.

(** ** From the tree back to the claims *)

Lemma claims_decode claims encoded :
  Forall2 (λ c e, encode c = Ok e) claims encoded → claims = decode_claim <$> encoded.
Proof. induction 1 as [|c e claims encoded He _ IH]; [done|]. apply decode_encode in He as [<- _]. cbn. by f_equal. Qed.

Lemma claims_encode claims encoded :
  Forall2 (λ c e, encode c = Ok e) claims encoded → encoded = (λ c, default [] (ok_of (encode c))) <$> claims.
Proof. induction 1 as [|c e claims encoded He _ IH]; [done|]. cbn. rewrite He. by f_equal. Qed.

Lemma New_length keccak256 claims t :
  New keccak256 claims = Ok t → Len t = length claims ∧ length (t_encoded t) = length claims.
Proof.
  intros (Hh & _ & _ & He)%New_inv. unfold Len. rewrite (ho_leafAt _ _ Hh).
  by rewrite <-(Forall2_length _ _ _ He).
Qed.

Lemma Root_tree keccak256 claims t root :
  New keccak256 claims = Ok t → Root t = Ok root →
  ∃ T, root = thash keccak256 T ∧ leaves T ≡ₚ t_encoded t ∧ inputs keccak256 T ⊆ tree_inputs keccak256 t.
Proof.
  intros (Hh & _ & _ & He)%New_inv Hr. apply index_Ok in Hr.
  destruct (heap_tree keccak256 t Hh) as (T & HT & Hl & Hi). exists T. split_and!; [congruence|done..].
Qed.

Lemma Root_tree_binds keccak256 claims claims' t t' root :
  New keccak256 claims = Ok t → New keccak256 claims' = Ok t' →
  Root t = Ok root → Root t' = Ok root →
  claims ≡ₚ claims' ∨ collision keccak256 (tree_inputs keccak256 t) (tree_inputs keccak256 t').
Proof.
  intros HN HN' Hr Hr'. destruct (Root_tree _ _ _ _ HN Hr) as (T & -> & Hl & Hi).
  destruct (Root_tree _ _ _ _ HN' Hr') as (T' & HT & Hl' & Hi').
  apply New_inv in HN as (_ & _ & _ & He), HN' as (_ & _ & _ & He').
  destruct (tree_binding keccak256 T T' HT) as [Hp|Hcol].
  - left. rewrite (claims_decode _ _ He), (claims_decode _ _ He'). by rewrite <-Hl, <-Hl', Hp.
  - right. by eapply collision_mono; [..|exact Hcol].
Qed.
