(* ===== verification/MerkleTheorems.v ===== *)
(** * What the merkle package promises

    The claims on [New], [Proof], [Verify], [Root] and [Dump], for any
    [keccak256]; the witnesses use a small polynomial hash. *)
From S2P Require Import Prelude Sorts Bytes Text Merkle MerkleEncode MerkleTree MerkleProof.

(** ** Facts the claims share *)

(** *** Reading a dump back *)

Definition unhex (s : string) : option (list byte) :=
  match s with String "0" (String "x" s) => DecodeString s | _ => None end.

Definition load_value (v : DumpValue) : option Claim :=
  id ← ParseDigits 10 (dv_id v);
  account ← unhex (dv_account v);
  amounts ← mapM (ParseDigits 10) (dv_amounts v);
  match amounts with
  | [a; b; c; d; e] => Some (mkClaim (Some id) (copy_array 20 account) [# Some a; Some b; Some c; Some d; Some e])
  | _ => None
  end.

Lemma unhex_hexOf l : unhex (hexOf l) = Some l.
Proof. apply DecodeString_EncodeToString. Qed.

Lemma ParseDigits_BigString z : 0 ≤ z → ParseDigits 10 (BigString z) = Some z.
Proof.
  intros Hz. unfold BigString. rewrite (proj2 (Z.ltb_ge z 0)) by done. by apply ParseDigits_FormatUint.
Qed.

Lemma be_decode_nonneg l : 0 ≤ be_decode l.
Proof. apply be_decode_range. Qed.

Lemma load_dumpValue t i e at_ :
  t_leafAt t !! i = Some at_ →
  ∃ v, dumpValue t i e = Ok v ∧ dv_TreeIndex v = at_ ∧ load_value v = Some (decode_claim e).
Proof.
  intros Hi. unfold dumpValue, index. rewrite Hi. cbn [mbind Res_bind]. eexists. split; [done|]. split; [done|].
  unfold load_value. cbn [dv_id dv_account dv_amounts seq AmountCount fmap list_fmap].
  rewrite !ParseDigits_BigString by apply be_decode_nonneg. rewrite unhex_hexOf.
  cbn [mbind option_bind mapM]. rewrite !ParseDigits_BigString by apply be_decode_nonneg.
  reflexivity.
Qed.

(** *** A hash and two claims to evaluate on *)

Definition toy_hash (l : list byte) : Hash :=
  copy_array 32 (be_encode 2 (foldl (λ acc b, (acc * 31 + byte_to_Z b + 1) `mod` 65536) 7 l)).

Definition toy_claim (account : Z) (amount : Z) : Claim :=
  mkClaim (Some 1000) (address_of account) (vreplicate 5 (Some amount)).

Definition toy_claims : list Claim := [toy_claim 161 500; toy_claim 178 500; toy_claim 9 1].

Lemma toy_claims_ok : Forall claim_ok toy_claims.
Proof. by apply (bool_decide_unpack _); vm_compute. Qed.

Definition toy_tree : Tree :=
  default (mkTree [] [] []) (ok_of (New toy_hash toy_claims)).

Lemma toy_tree_New : New toy_hash toy_claims = Ok toy_tree.
Proof. by vm_compute. Qed.

(** ** The claims *)

(** [New] builds a tree exactly when there is a claim and every id and amount
    is there, is not negative and is below [2^256]; otherwise it returns an error,
    and it never panics. *)
Theorem New_accepts keccak256 claims :
  (is_Ok (New keccak256 claims) ↔ claims ≠ [] ∧ Forall claim_ok claims) ∧
  (is_Ok (New keccak256 claims) ∨ ∃ e, New keccak256 claims = Err e).
Proof.
  destruct (decide (claims = [] ∨ ¬ Forall claim_ok claims)) as [Hbad|Hok].
  - destruct (New_Err keccak256 claims Hbad) as [e He]. split; [|right; by exists e].
    rewrite He. split; [by intros [? [=]]|tauto].
  - destruct (New_Ok keccak256 claims) as (t & HN & _); [tauto|by destruct (decide (Forall claim_ok claims)); tauto|].
    split; [|left; by exists t]. split; [|by exists t].
    intros _. split; [tauto|by destruct (decide (Forall claim_ok claims)); tauto].
Qed.

(** The tree is the complete binary tree of OpenZeppelin's layout: [2n-1] nodes,
    each internal one the hash of its children in ascending order, the leaves the
    double hashes of the encoded claims at the tail in descending order, and
    [leafAt] a bijection from claims to leaves. *)
Theorem New_layout keccak256 claims t :
  New keccak256 claims = Ok t →
  length (t_nodes t) = (2 * length claims - 1)%nat ∧
  (∀ i, (i < length claims - 1)%nat → ∃ l r,
     t_nodes t !! (2 * i + 1)%nat = Some l ∧ t_nodes t !! (2 * i + 2)%nat = Some r ∧
     t_nodes t !! i = Some (hashPair keccak256 l r)) ∧
  (∀ i c, claims !! i = Some c → ∃ e at_,
     encode c = Ok e ∧ TreeIndex t i = Ok at_ ∧ Leaf t i = Ok (leafHashOf keccak256 e) ∧
     (length claims - 1 ≤ at_ < length (t_nodes t))%nat) ∧
  NoDup (t_leafAt t) ∧
  StronglySorted (cmp_le array_compare) (reverse (drop (length claims - 1) (t_nodes t))).
Proof.
  intros HN. destruct (New_length _ _ _ HN) as [_ Hlen]. apply New_inv in HN as (Hh & _ & _ & He).
  rewrite <-Hlen. split_and!; [apply (ho_nodes _ _ Hh)|apply (ho_internal _ _ Hh)| |apply (ho_inj _ _ Hh)|].
  - intros i c Hc. destruct (Forall2_lookup_l _ _ _ _ _ He Hc) as (e & Hi & Hce).
    destruct (ho_leaf _ _ Hh i e Hi) as (at_ & Hat & Hr & Hx). exists e, at_.
    unfold TreeIndex, Leaf, index. rewrite Hat. cbn [mbind Res_bind]. by rewrite Hx.
  - rewrite (ho_tail _ _ Hh), reverse_involutive. apply (sort_by_sorted _).
Qed.

Lemma New_layout_witness :
  New toy_hash toy_claims = Ok toy_tree ∧ length (t_nodes toy_tree) = 5%nat.
Proof.
  split; [exact toy_tree_New|].
  exact (proj1 (New_layout toy_hash toy_claims toy_tree toy_tree_New)).
Defined.

(** C39: every claim of a tree has a proof, of the depth of its leaf, and the proof
    verifies against the Root. *)
Theorem Proof_verifies keccak256 claims t i :
  New keccak256 claims = Ok t → (i < length claims)%nat →
  ∃ root at_ leaf p, Root t = Ok root ∧ TreeIndex t i = Ok at_ ∧ Leaf t i = Ok leaf ∧
    Proof_ t i = Ok p ∧ Verify keccak256 root leaf p = true ∧
    (2 ^ length p ≤ at_ + 1 < 2 ^ (length p + 1))%nat.
Proof.
  intros HN Hi. destruct (New_length _ _ _ HN) as [Hlen _]. apply New_inv in HN as (Hh & _).
  apply proof_verifies; [done|lia].
Qed.

Lemma Proof_verifies_witness :
  New toy_hash toy_claims = Ok toy_tree ∧ (1 < length toy_claims)%nat ∧
  ∃ root at_ leaf p, Root toy_tree = Ok root ∧ TreeIndex toy_tree 1 = Ok at_ ∧
    Leaf toy_tree 1 = Ok leaf ∧ Proof_ toy_tree 1 = Ok p ∧ Verify toy_hash root leaf p = true ∧
    (2 ^ length p ≤ at_ + 1 < 2 ^ (length p + 1))%nat.
Proof.
  split; [exact toy_tree_New|]. assert (1 < length toy_claims)%nat as H by (cbn; lia).
  split; [exact H|]. exact (Proof_verifies toy_hash toy_claims toy_tree 1 toy_tree_New H).
Defined.

(** C17: whatever the proof, a claim whose leaf verifies against the Root of a tree
    is one of the tree's claims, unless two different byte strings, one hashed to
    build the tree and one to verify the proof, have the same hash. *)
Theorem Verify_sound keccak256 claims t root c e proof :
  New keccak256 claims = Ok t → Root t = Ok root → encode c = Ok e →
  Verify keccak256 root (leafHashOf keccak256 e) proof = true →
  c ∈ claims ∨ collision keccak256 (tree_inputs keccak256 t) (verify_inputs keccak256 e proof).
Proof.
  intros HN Hr Hc HV. destruct (Root_tree _ _ _ _ HN Hr) as (T & -> & Hl & Hi).
  apply New_inv in HN as (_ & _ & _ & He). apply bool_decide_eq_true in HV.
  destruct (verify_sound keccak256 e proof T HV) as [Hin|Hcol].
  - left. rewrite Hl in Hin. rewrite (claims_decode _ _ He). apply decode_encode in Hc as [<- _].
    by apply list_elem_of_fmap_2.
  - right. by eapply collision_mono; [..|exact Hcol].
Qed.

Lemma Verify_sound_witness :
  ∃ root e proof, Root toy_tree = Ok root ∧ encode (toy_claim 9 1) = Ok e ∧
    Verify toy_hash root (leafHashOf toy_hash e) proof = true ∧
    (toy_claim 9 1 ∈ toy_claims ∨
     collision toy_hash (tree_inputs toy_hash toy_tree) (verify_inputs toy_hash e proof)).
Proof.
  set (root := default zeroHash (ok_of (Root toy_tree))).
  set (e := default [] (ok_of (encode (toy_claim 9 1)))).
  set (proof := default [] (ok_of (Proof_ toy_tree 2))).
  assert (Root toy_tree = Ok root) as H1 by by vm_compute.
  assert (encode (toy_claim 9 1) = Ok e) as H2 by by vm_compute.
  assert (Verify toy_hash root (leafHashOf toy_hash e) proof = true) as H3 by by vm_compute.
  exists root, e, proof. split; [exact H1|]. split; [exact H2|]. split; [exact H3|].
  exact (Verify_sound toy_hash toy_claims toy_tree root (toy_claim 9 1) e proof toy_tree_New H1 H2 H3).
Defined.

(** C16: two trees with one Root have the same claims, as multisets and whatever
    their sizes, unless two different byte strings hashed to build them have the
    same hash: comparing Roots compares Allocations. *)
Theorem Root_binds keccak256 claims claims' t t' root :
  New keccak256 claims = Ok t → New keccak256 claims' = Ok t' →
  Root t = Ok root → Root t' = Ok root →
  claims ≡ₚ claims' ∨ collision keccak256 (tree_inputs keccak256 t) (tree_inputs keccak256 t').
Proof.
  apply Root_tree_binds.
Qed.

Lemma Root_binds_witness :
  ∃ t' root, New toy_hash (reverse toy_claims) = Ok t' ∧ Root toy_tree = Ok root ∧ Root t' = Ok root ∧
  (toy_claims ≡ₚ reverse toy_claims ∨
   collision toy_hash (tree_inputs toy_hash toy_tree) (tree_inputs toy_hash t')).
Proof.
  set (t' := default (mkTree [] [] []) (ok_of (New toy_hash (reverse toy_claims)))).
  set (root := default zeroHash (ok_of (Root toy_tree))).
  assert (New toy_hash (reverse toy_claims) = Ok t') as H1 by by vm_compute.
  assert (Root toy_tree = Ok root) as H2 by by vm_compute.
  assert (Root t' = Ok root) as H3 by by vm_compute.
  exists t', root. split; [exact H1|]. split; [exact H2|]. split; [exact H3|].
  exact (Root_binds toy_hash toy_claims (reverse toy_claims) toy_tree t' root toy_tree_New H1 H2 H3).
Defined.

(** The order of the claims does not reach the Root, or any other node. *)
Theorem Root_order_free keccak256 claims claims' t :
  claims ≡ₚ claims' → New keccak256 claims = Ok t →
  ∃ t', New keccak256 claims' = Ok t' ∧ t_nodes t' = t_nodes t ∧ Root t' = Root t.
Proof.
  intros Hp HN. apply New_inv in HN as (Hh & Hne & Hok & He).
  destruct (New_Ok keccak256 claims') as (t' & HN' & Hh' & He').
  { intros ->. by apply Hne, Permutation_nil_r. } { by rewrite <-Hp. }
  assert (t_nodes t' = t_nodes t) as Hn.
  { apply (heap_unique keccak256); [done..|]. rewrite (claims_encode _ _ He), (claims_encode _ _ He'). by rewrite Hp. }
  exists t'. unfold Root. by rewrite Hn.
Qed.

Lemma Root_order_free_witness :
  toy_claims ≡ₚ reverse toy_claims ∧ New toy_hash toy_claims = Ok toy_tree ∧
  ∃ t', New toy_hash (reverse toy_claims) = Ok t' ∧ t_nodes t' = t_nodes toy_tree ∧ Root t' = Root toy_tree.
Proof.
  assert (toy_claims ≡ₚ reverse toy_claims) as H by (symmetry; apply reverse_Permutation).
  split; [exact H|]. split; [exact toy_tree_New|].
  exact (Root_order_free toy_hash toy_claims (reverse toy_claims) toy_tree H toy_tree_New).
Defined.

(** C40: a dump loses nothing: read back, its nodes are the tree's, and its values
    are the claims in their order, each with the node its leaf is at. *)
Theorem Dump_roundtrip keccak256 claims t :
  New keccak256 claims = Ok t →
  ∃ d, Dump_ t = Ok d ∧
    Forall2 (λ s n, unhex s = Some (vec_to_list n)) (d_Tree d) (t_nodes t) ∧
    Forall2 (λ v c, load_value v = Some c) (d_Values d) claims ∧
    dv_TreeIndex <$> d_Values d = t_leafAt t.
Proof.
  intros (Hh & _ & _ & He)%New_inv. rewrite (claims_decode _ _ He). unfold Dump_.
  assert (∃ vs, traverseI (dumpValue t) 0 (t_encoded t) = Ok vs ∧
            Forall2 (λ v e, load_value v = Some (decode_claim e)) vs (t_encoded t) ∧
            dv_TreeIndex <$> vs = drop 0 (t_leafAt t)) as (vs & Hvs & Hload & Hidx).
  { pose proof (ho_leafAt _ _ Hh) as Hlen.
    assert (length (drop 0 (t_leafAt t)) = length (t_encoded t)) as Hl by done. clear Hlen Hh He claims.
    revert Hl. generalize 0%nat as i. generalize (t_encoded t) as es.
    induction es as [|e es IH]; intros i Hl; cbn [traverseI].
    { apply nil_length_inv in Hl. exists []. rewrite Hl. by split_and!; [|constructor|]. }
    rewrite length_drop in Hl. cbn [length] in Hl.
    destruct (lookup_lt_is_Some_2 (t_leafAt t) i) as [at_ Hat]; [lia|].
    destruct (load_dumpValue t i e at_ Hat) as (v & Hv & Hidx & Hload).
    destruct (IH (S i)) as (vs & Hvs & Hloads & Hidxs); [rewrite length_drop; lia|].
    exists (v :: vs). rewrite Hv. cbn [mbind Res_bind]. rewrite Hvs. split_and!; [done|by constructor|].
    rewrite fmap_cons, Hidxs, Hidx. symmetry. by apply drop_S. }
  rewrite Hvs. cbn [mbind Res_bind]. eexists. split; [done|]. cbn [d_Tree d_Values]. split_and!; [| |done].
  - apply Forall2_fmap_l. apply Forall_Forall2_diag. apply Forall_forall. intros n _. apply unhex_hexOf.
  - by apply Forall2_fmap_r.
Qed.

Lemma Dump_roundtrip_witness :
  New toy_hash toy_claims = Ok toy_tree ∧
  ∃ d, Dump_ toy_tree = Ok d ∧
    Forall2 (λ s n, unhex s = Some (vec_to_list n)) (d_Tree d) (t_nodes toy_tree) ∧
    Forall2 (λ v c, load_value v = Some c) (d_Values d) toy_claims ∧
    dv_TreeIndex <$> d_Values d = t_leafAt toy_tree.
Proof.
  split; [exact toy_tree_New|]. exact (Dump_roundtrip toy_hash toy_claims toy_tree toy_tree_New).
Defined.
