(* ===== verification/Twab.v ===== *)
(** * internal/twab: the replay of NUTZ balances over one Epoch

    The data, the replay state and every operation of [twab.go], [replay.go] and
    [ledger.go]. A [map[Address]*standing] is a [gmap] whose values are written
    back after each mutation: the code never holds two pointers to one standing
    at once ([apply] is done with the sender before it looks the receiver up).
    The scratch integer [replayState.scratch] holds no state between calls and is
    left out. Specifications are in [TwabSpec], the Ledger's refinement in
    [TwabLedger]. *)
From S2P Require Import Prelude Sorts Bytes.

(** ** twab.go *)

Definition EpochSeconds : Z := 3600.

Record Window := mkWindow { w_Start : Z; w_End : Z }.

(** [int64(epochID) * EpochSeconds] and [start + EpochSeconds] wrap. *)
Definition WindowOf (epochID : Z) : Window :=
  let start := i64 (i64 epochID * EpochSeconds) in
  {| w_Start := start; w_End := i64 (start + EpochSeconds) |}.

(** ** replay.go: inputs and outputs *)

Inductive twabError :=
  | errNilValue
  | errNegativeValue
  | errTransfer (i : nat) (ts : Z) (cause : twabError)
  | errNegativeBalance (account : Address) (balance ts : Z)
  | errEpochClosed (epochID floor : Z).

(** [Value] is a [*big.Int], which may be nil. *)
Record Transfer := mkTransfer {
  tr_Timestamp : Z;
  tr_From : Address;
  tr_To : Address;
  tr_Value : option Z;
}.

Record Exclusion := mkExclusion { ex_Timestamp : Z; ex_Account : Address }.

Record Holder := mkHolder {
  h_Account : Address;
  h_TWAB : Z;
  h_FirstBuyAt : Z;
  h_LastSellAt : Z;
}.

#[global] Instance Holder_eq_dec : EqDecision Holder.
Proof. solve_decision. Defined.

(** ** replay.go: the state *)

Record standing := mkStanding {
  s_balance : Z;
  s_since : Z;
  s_weighted : Z;
  s_bought : bool;
  s_firstBuyAt : Z;
  s_lastSellAt : Z;
  s_listed : bool;
}.

Record replayState := mkReplayState {
  r_window : Window;
  r_balances : gmap Address standing;
  r_active : list Address;
  r_moved : list Address;
}.

(** [&standing{balance: new(big.Int), weighted: new(big.Int)}]. *)
Definition newStanding : standing := mkStanding 0 0 0 false 0 0 false.

(** [replayState{window: window, balances: map[Address]*standing{}}]. *)
Definition newReplayState (w : Window) : replayState := mkReplayState w ∅ [] [].

Definition setStanding (a : Address) (s : standing) (r : replayState) : replayState :=
  mkReplayState (r_window r) (<[a := s]> (r_balances r)) (r_active r) (r_moved r).

(** [scratch.SetInt64(ts - s.since)] wraps the subtraction. *)
Definition accrueTo (ts : Z) (s : standing) : standing :=
  if ts <=? s_since s then s
  else mkStanding (s_balance s) ts (s_weighted s + i64 (ts - s_since s) * s_balance s)
         (s_bought s) (s_firstBuyAt s) (s_lastSellAt s) (s_listed s).

(** [replayState.at]: the standing, listed, and the state that holds it. *)
Definition at_ (a : Address) (r : replayState) : standing * replayState :=
  let s := default newStanding (r_balances r !! a) in
  if s_listed s then (s, setStanding a s r)
  else
    let s := mkStanding (s_balance s) (w_Start (r_window r)) (s_weighted s)
               (s_bought s) (s_firstBuyAt s) (s_lastSellAt s) true in
    (s, mkReplayState (r_window r) (<[a := s]> (r_balances r)) (r_active r ++ [a]) (r_moved r)).

(** The sender's half of [apply]. *)
Definition debit (tr : Transfer) (v : Z) (r : replayState) : replayState :=
  let '(from, r) := at_ (tr_From tr) r in
  let from := accrueTo (tr_Timestamp tr) from in
  let from := mkStanding (s_balance from - v) (s_since from) (s_weighted from)
                (s_bought from) (s_firstBuyAt from) (tr_Timestamp tr) (s_listed from) in
  mkReplayState (r_window r) (<[tr_From tr := from]> (r_balances r)) (r_active r)
    (r_moved r ++ [tr_From tr]).

(** The receiver's half of [apply]. *)
Definition credit (tr : Transfer) (v : Z) (r : replayState) : replayState :=
  let '(to, r) := at_ (tr_To tr) r in
  let to := accrueTo (tr_Timestamp tr) to in
  let to := mkStanding (s_balance to + v) (s_since to) (s_weighted to)
              true (if s_bought to then s_firstBuyAt to else tr_Timestamp tr)
              (s_lastSellAt to) (s_listed to) in
  setStanding (tr_To tr) to r.

Definition apply (r : replayState) (tr : Transfer) : Res twabError replayState :=
  match tr_Value tr with
  | None => Err errNilValue
  | Some v =>
      if v <? 0 then Err errNegativeValue
      else if v =? 0 then Ok r
      else
        let r := if decide (tr_From tr = zeroAddress) then r else debit tr v r in
        let r := if decide (tr_To tr = zeroAddress) then r else credit tr v r in
        Ok r
  end.

(** [replayState.settle]. *)
Fixpoint settle_moved (ts : Z) (balances : gmap Address standing) (moved : list Address)
    : Res twabError () :=
  match moved with
  | [] => Ok ()
  | a :: moved =>
      match balances !! a with
      | None => Fault GoPanic
      | Some s => if s_balance s <? 0 then Err (errNegativeBalance a (s_balance s) ts)
                  else settle_moved ts balances moved
      end
  end.

Definition settle (ts : Z) (r : replayState) : Res twabError replayState :=
  _ ← settle_moved ts (r_balances r) (r_moved r);
  mret (mkReplayState (r_window r) (r_balances r) (r_active r) []).

Definition compareAddresses (a b : Address) : comparison := array_compare a b.

(** One turn of the loop of [holders]. *)
Definition holderStep (excluded : list Address)
    (st : replayState * list Holder) (account : Address) : Res twabError (replayState * list Holder) :=
  let '(r, out) := st in
  if BinarySearchFound compareAddresses excluded account then Ok (r, out)
  else
    match r_balances r !! account with
    | None => Fault GoPanic
    | Some s =>
        let s := accrueTo (w_End (r_window r)) s in
        let r := setStanding account s r in
        let average := Z.quot (s_weighted s) EpochSeconds in
        if average <=? 0 then Ok (r, out)
        else Ok (r, out ++ [mkHolder account average (s_firstBuyAt s) (s_lastSellAt s)])
    end.

Definition compareHolders : Holder → Holder → comparison :=
  compare_on h_Account array_compare.

(** [replayState.holders], with the state whose last sub-intervals it closed. *)
Definition holders (excluded : list Address) (r : replayState)
    : Res twabError (replayState * list Holder) :=
  '(r', out) ← foldM (holderStep excluded) (r_active r) (r, []);
  mret (r', sort_by compareHolders out).

(** ** replay.go: the walk *)

Definition compareTimestamps : Transfer → Transfer → comparison :=
  compare_on tr_Timestamp Z.compare.

Definition sortedByTimestamp (transfers : list Transfer) : list Transfer :=
  sort_by compareTimestamps transfers.

Definition excludedStep (window : Window) (st : gset Address * list Address) (e : Exclusion)
    : gset Address * list Address :=
  let '(seen, set) := st in
  if (w_End window <=? ex_Timestamp e) || bool_decide (ex_Account e ∈ seen) then (seen, set)
  else ({[ex_Account e]} ∪ seen, set ++ [ex_Account e]).

Definition ExcludedAsOf (epochID : Z) (exclusions : list Exclusion) : list Address :=
  let '(_, set) := foldl (excludedStep (WindowOf epochID)) (∅, []) exclusions in
  sort_by array_compare set.

(** The inner loop: every transfer sharing the timestamp [ts] is applied. [i] is
    the index of the head of [rest] in the ordered history. *)
Fixpoint applyBlock (ts : Z) (i : nat) (rest : list Transfer) (r : replayState)
    : Res twabError (nat * list Transfer * replayState) :=
  match rest with
  | [] => Ok (i, rest, r)
  | tr :: rest' =>
      if tr_Timestamp tr =? ts then
        r ← wrap (errTransfer i ts) (apply r tr);
        applyBlock ts (S i) rest' r
      else Ok (i, rest, r)
  end.

(** The outer loop, up to the first transfer at or past the window's end. Every
    turn applies at least one transfer, so fuel [length rest] is enough. *)
Fixpoint walk (fuel : nat) (i : nat) (rest : list Transfer) (r : replayState)
    : Res twabError (nat * list Transfer * replayState) :=
  match rest with
  | [] => Ok (i, rest, r)
  | tr :: _ =>
      let ts := tr_Timestamp tr in
      if w_End (r_window r) <=? ts then Ok (i, rest, r)
      else
        match fuel with
        | O => Fault OutOfFuel
        | S fuel =>
            '(i, rest, r) ← applyBlock ts i rest r;
            r ← settle ts r;
            walk fuel i rest r
        end
  end.

Definition Replay (epochID : Z) (transfers : list Transfer) (exclusions : list Exclusion)
    : Res twabError (list Holder) :=
  let window := WindowOf epochID in
  let excluded := ExcludedAsOf epochID exclusions in
  let ordered := sortedByTimestamp transfers in
  '(_, _, r) ← walk (length ordered) 0 ordered (newReplayState window);
  '(_, hs) ← holders excluded r;
  mret hs.

(** ** ledger.go *)

Record Ledger := mkLedger {
  l_ordered : list Transfer;
  l_exclusions : list Exclusion;
  l_next : nat;
  l_state : replayState;
  l_floor : Z;
  l_failed : option twabError;
}.

Definition NewLedger (transfers : list Transfer) (exclusions : list Exclusion) : Ledger :=
  {| l_ordered := sortedByTimestamp transfers;
     l_exclusions := exclusions;
     l_next := 0;
     l_state := newReplayState (mkWindow 0 0);
     l_floor := 0;
     l_failed := None |}.

(** One turn of the loop of [open]. *)
Definition openStep (window : Window) (st : gmap Address standing * list Address)
    (account : Address) : Res twabError (gmap Address standing * list Address) :=
  let '(balances, kept) := st in
  match balances !! account with
  | None => Fault GoPanic
  | Some s =>
      let idle := s_balance s =? 0 in
      let s := mkStanding (s_balance s) (w_Start window) 0
                 (s_bought s) (s_firstBuyAt s) (s_lastSellAt s)
                 (if idle then false else s_listed s) in
      Ok (<[account := s]> balances, if idle then kept else kept ++ [account])
  end.

(** [replayState.open]. *)
Definition open_ (window : Window) (r : replayState) : Res twabError replayState :=
  '(balances, kept) ← foldM (openStep window) (r_active r) (r_balances r, []);
  mret (mkReplayState window balances kept (r_moved r)).

Definition fail_ (l : Ledger) (err : twabError) : Ledger :=
  mkLedger (l_ordered l) (l_exclusions l) (l_next l) (l_state l) (l_floor l) (Some err).

(** [Ledger.Advance], with the Ledger it leaves. After a refused history only
    [failed] is ever read again, so the half-advanced state is not kept. *)
Definition Advance (l : Ledger) (epochID : Z) : Res twabError (list Holder) * Ledger :=
  match l_failed l with
  | Some err => (Err err, l)
  | None =>
      if epochID <? l_floor l then (Err (errEpochClosed epochID (l_floor l)), l)
      else
        let rest := drop (l_next l) (l_ordered l) in
        match (r ← open_ (WindowOf epochID) (l_state l);
               walk (length rest) (l_next l) rest r) with
        | Ok (next, _, r) =>
            match holders (ExcludedAsOf epochID (l_exclusions l)) r with
            | Ok (r, hs) =>
                (Ok hs, mkLedger (l_ordered l) (l_exclusions l) next r (u64 (epochID + 1)) None)
            | Err err => (Err err, l)
            | Fault x => (Fault x, l)
            end
        | Err err => (Err err, fail_ l err)
        | Fault x => (Fault x, l)
        end
  end.
