(* ===== verification/TwabSpec.v ===== *)
(** * What a replay is supposed to compute

    The rules of engineering spec 4.2-4.3 stated over the account statements of a
    history, with no state, no order of logs and no accrual: balances are sums,
    a TWAB is the sum of the balance over the seconds of the window divided by
    3600, the first buy and the last sell are the earliest credit and the latest
    debit. [Replay] is proved against them in [TwabReplay]. *)
From S2P Require Import Prelude Sorts Bytes Twab.

(** ** Account statements *)

Definition value_of (tr : Transfer) : Z := default 0 (tr_Value tr).

(** A movement: when, and by how much. *)
Definition entry : Type := Z * Z.

Definition debit_entries (a : Address) (tr : Transfer) : list entry :=
  if decide (tr_From tr = a ∧ a ≠ zeroAddress ∧ 0 < value_of tr)
  then [(tr_Timestamp tr, - value_of tr)] else [].
Definition credit_entries (a : Address) (tr : Transfer) : list entry :=
  if decide (tr_To tr = a ∧ a ≠ zeroAddress ∧ 0 < value_of tr)
  then [(tr_Timestamp tr, value_of tr)] else [].

(** What one transfer writes on the statement of [a]. *)
Definition entries_of (a : Address) (tr : Transfer) : list entry :=
  debit_entries a tr ++ credit_entries a tr.

(** The statement of [a]: every movement of its balance. *)
Definition entries (a : Address) (h : list Transfer) : list entry := h ≫= entries_of a.

(** ** Balances and the time-weighted average *)

Definition upto (t : Z) (e : entry) : Z := if e.1 <=? t then e.2 else 0.

(** The balance of a statement once every movement up to second [t] is made. *)
Definition bal_at (es : list entry) (t : Z) : Z := sum_of (upto t) es.

(** The balance summed over the [n] seconds from [s]. *)
Definition area (es : list entry) (s : Z) (n : nat) : Z :=
  sum_of (λ k, bal_at es (s + Z.of_nat k)) (seq 0 n).

Definition balance_at (h : list Transfer) (a : Address) (t : Z) : Z := bal_at (entries a h) t.

(** TWAB: the balance averaged over the seconds of the Epoch, floored. *)
Definition twab_of (epochID : Z) (h : list Transfer) (a : Address) : Z :=
  area (entries a h) (w_Start (WindowOf epochID)) (Z.to_nat EpochSeconds) / EpochSeconds.

(** ** First buy, last sell *)

Definition buys (es : list entry) : list Z := fst <$> filter (λ e, 0 < e.2) es.
Definition sells (es : list entry) : list Z := fst <$> filter (λ e, e.2 < 0) es.
Definition before (t : Z) (es : list entry) : list entry := filter (λ e, e.1 < t) es.

Definition first_buy (epochID : Z) (h : list Transfer) (a : Address) : Z :=
  default 0 (min_of (buys (before (w_End (WindowOf epochID)) (entries a h)))).
Definition last_sell (epochID : Z) (h : list Transfer) (a : Address) : Z :=
  default 0 (max_of (sells (before (w_End (WindowOf epochID)) (entries a h)))).

(** ** The Excluded set and the Holders of an Epoch *)

Definition is_excluded (epochID : Z) (xs : list Exclusion) (a : Address) : Prop :=
  ∃ x, x ∈ xs ∧ ex_Account x = a ∧ ex_Timestamp x < w_End (WindowOf epochID).

#[global] Instance is_excluded_dec epochID xs a : Decision (is_excluded epochID xs a).
Proof.
  refine (cast_if (decide (Exists (λ x, ex_Account x = a ∧
    ex_Timestamp x < w_End (WindowOf epochID)) xs))); abstract by rewrite Exists_exists in *.
Defined.

Definition holder_at (epochID : Z) (h : list Transfer) (a : Address) : Holder :=
  mkHolder a (twab_of epochID h a) (first_buy epochID h a) (last_sell epochID h a).

(** [hs] is exactly the eligible Holders of the Epoch, ascending by address. *)
Definition is_holders (epochID : Z) (h : list Transfer) (xs : list Exclusion)
    (hs : list Holder) : Prop :=
  StronglySorted (cmp_lt compareHolders) hs ∧
  ∀ x, x ∈ hs ↔ x = holder_at epochID h (h_Account x) ∧ 0 < h_TWAB x ∧
                ¬ is_excluded epochID xs (h_Account x).

(** ** Which histories are complete *)

(** A transfer of the Epoch or before it carries a value that is there and is
    not negative. *)
Definition values_ok (limit : Z) (h : list Transfer) : Prop :=
  ∀ tr, tr ∈ h → tr_Timestamp tr < limit → ∃ v, tr_Value tr = Some v ∧ 0 ≤ v.

(** Nobody has sent more than it held, once every transfer of the second is made. *)
Definition senders_ok (limit : Z) (h : list Transfer) : Prop :=
  ∀ tr, tr ∈ h → tr_Timestamp tr < limit → 0 < value_of tr → tr_From tr ≠ zeroAddress →
        0 ≤ balance_at h (tr_From tr) (tr_Timestamp tr).

Definition history_ok (limit : Z) (h : list Transfer) : Prop :=
  values_ok limit h ∧ senders_ok limit h.

(** The Epoch ids whose window does not overflow an int64. *)
Definition epoch_ok (epochID : Z) : Prop :=
  0 ≤ epochID ∧ EpochSeconds * (epochID + 1) < 2 ^ 63.

(** ** Lemmas on windows *)

Lemma WindowOf_ok epochID :
  epoch_ok epochID →
  WindowOf epochID = mkWindow (EpochSeconds * epochID) (EpochSeconds * (epochID + 1)).
Proof.
  unfold epoch_ok, WindowOf, EpochSeconds. intros [? ?].
  rewrite (i64_id epochID), (i64_id (epochID * 3600)), i64_id by (unfold is_i64; lia).
  f_equal; lia.
Qed.

(** ** Lemmas on statements *)

Section entries.
Implicit Types (es : list entry) (h : list Transfer) (a : Address).

Lemma entries_cons a tr h : entries a (tr :: h) = entries_of a tr ++ entries a h.
Proof. done. Qed.

Lemma entries_app a h1 h2 : entries a (h1 ++ h2) = entries a h1 ++ entries a h2.
Proof. apply bind_app. Qed.

Lemma entries_snoc a h tr : entries a (h ++ [tr]) = entries a h ++ entries_of a tr.
Proof. rewrite entries_app. unfold entries. cbn. by rewrite app_nil_r. Qed.

Lemma entries_perm a h h' : h ≡ₚ h' → entries a h ≡ₚ entries a h'.
Proof. intros Hp. unfold entries. by rewrite Hp. Qed.

Lemma elem_of_entries a h e :
  e ∈ entries a h ↔ ∃ tr, tr ∈ h ∧ e ∈ entries_of a tr.
Proof. unfold entries. rewrite list_elem_of_bind. naive_solver. Qed.

Lemma entries_of_time a tr e : e ∈ entries_of a tr → e.1 = tr_Timestamp tr.
Proof.
  unfold entries_of, debit_entries, credit_entries. rewrite elem_of_app.
  repeat case_decide; set_solver.
Qed.

Lemma entries_zero h : entries zeroAddress h = [].
Proof.
  induction h as [|tr h IH]; [done|]. rewrite entries_cons, IH.
  unfold entries_of, debit_entries, credit_entries.
  repeat case_decide; [naive_solver..|done].
Qed.

Lemma bal_at_app es1 es2 t : bal_at (es1 ++ es2) t = bal_at es1 t + bal_at es2 t.
Proof. apply sum_of_app. Qed.

Lemma bal_at_perm es es' t : es ≡ₚ es' → bal_at es t = bal_at es' t.
Proof. apply sum_of_perm. Qed.

Lemma bal_at_all es t : Forall (λ e, e.1 ≤ t) es → bal_at es t = sum_of snd es.
Proof.
  rewrite Forall_forall. intros H. apply sum_of_ext. intros e He. unfold upto.
  by rewrite (proj2 (Z.leb_le _ _) (H e He)).
Qed.

Lemma bal_at_later es t : Forall (λ e, t < e.1) es → bal_at es t = 0.
Proof.
  rewrite Forall_forall. intros H. apply sum_of_0. intros e He. unfold upto.
  by rewrite (proj2 (Z.leb_gt _ _) (H e He)).
Qed.

Lemma area_ext es es' s n :
  (∀ t, s ≤ t < s + Z.of_nat n → bal_at es t = bal_at es' t) → area es s n = area es' s n.
Proof.
  intros H. apply sum_of_ext. intros k [_ Hk]%elem_of_seq. apply H. lia.
Qed.

(** Movements at or after the end of a span leave its area alone. *)
Lemma area_app_later es es2 s n :
  Forall (λ e, s + Z.of_nat n ≤ e.1) es2 → area (es ++ es2) s n = area es s n.
Proof.
  intros H. apply area_ext. intros t Ht. rewrite bal_at_app, (bal_at_later es2); [lia|].
  eapply Forall_impl; [exact H|]. cbn. lia.
Qed.

(** Extending a span over which nothing moves. *)
Lemma area_extend es s n m :
  Forall (λ e, e.1 ≤ s + Z.of_nat n) es →
  area es s (n + m) = area es s n + Z.of_nat m * sum_of snd es.
Proof.
  intros H. unfold area. rewrite seq_app, sum_of_app. f_equal.
  rewrite (sum_of_ext _ (λ _, sum_of snd es)).
  { rewrite sum_of_const, length_seq. lia. }
  intros k [Hk _]%elem_of_seq. apply bal_at_all.
  eapply Forall_impl; [exact H|]. cbn. lia.
Qed.

Lemma buys_app es1 es2 : buys (es1 ++ es2) = buys es1 ++ buys es2.
Proof. unfold buys. by rewrite filter_app, fmap_app. Qed.
Lemma sells_app es1 es2 : sells (es1 ++ es2) = sells es1 ++ sells es2.
Proof. unfold sells. by rewrite filter_app, fmap_app. Qed.
Lemma before_app t es1 es2 : before t (es1 ++ es2) = before t es1 ++ before t es2.
Proof. apply filter_app. Qed.

Lemma before_all t es : Forall (λ e, e.1 < t) es → before t es = es.
Proof. apply filter_all. Qed.
Lemma before_none t es : Forall (λ e, t ≤ e.1) es → before t es = [].
Proof. intros H. apply filter_none. eapply Forall_impl; [exact H|]. cbn. lia. Qed.

Lemma elem_of_buys t es : t ∈ buys es ↔ ∃ v, (t, v) ∈ es ∧ 0 < v.
Proof.
  unfold buys. rewrite list_elem_of_fmap. setoid_rewrite list_elem_of_filter. split.
  - intros ([t' v] & -> & ? & ?). by exists v.
  - intros (v & ? & ?). by exists (t, v).
Qed.
Lemma elem_of_sells t es : t ∈ sells es ↔ ∃ v, (t, v) ∈ es ∧ v < 0.
Proof.
  unfold sells. rewrite list_elem_of_fmap. setoid_rewrite list_elem_of_filter. split.
  - intros ([t' v] & -> & ? & ?). by exists v.
  - intros (v & ? & ?). by exists (t, v).
Qed.
End entries.

(** The specification reads a history as a multiset. *)
#[export] Instance entries_proper a : Proper ((≡ₚ) ==> (≡ₚ)) (entries a).
Proof. intros h h' Hp. by apply entries_perm. Qed.

Section multiset.
Context (h h' : list Transfer) (Hp : h ≡ₚ h').

Lemma balance_at_perm a t : balance_at h a t = balance_at h' a t.
Proof. apply bal_at_perm. by rewrite Hp. Qed.

Lemma twab_of_perm epochID a : twab_of epochID h a = twab_of epochID h' a.
Proof. unfold twab_of. f_equal. apply area_ext. intros. apply balance_at_perm. Qed.

Lemma holder_at_perm epochID a : holder_at epochID h a = holder_at epochID h' a.
Proof.
  unfold holder_at, first_buy, last_sell. rewrite twab_of_perm. do 2 f_equal.
  - apply min_of_perm. unfold buys, before. by rewrite Hp.
  - apply max_of_perm. unfold sells, before. by rewrite Hp.
Qed.

Lemma history_ok_perm limit : history_ok limit h → history_ok limit h'.
Proof.
  intros [Hv Hs]. split; intros tr Htr; rewrite <-Hp in Htr; [by apply Hv|].
  rewrite <-balance_at_perm. by apply Hs.
Qed.

Lemma is_holders_perm epochID xs hs :
  is_holders epochID h xs hs → is_holders epochID h' xs hs.
Proof. intros [Hs Hin]. split; [done|]. intros x. rewrite Hin. by rewrite holder_at_perm. Qed.
End multiset.

(** The Holders of an Epoch are one list: address order leaves no choice. *)
Lemma is_holders_unique epochID h xs hs hs' :
  is_holders epochID h xs hs → is_holders epochID h xs hs' → hs = hs'.
Proof.
  intros [Hs Hin] [Hs' Hin'].
  assert (∀ l, StronglySorted (cmp_lt compareHolders) l → NoDup l) as Hnd.
  { induction 1 as [|x l _ IH Hx]; constructor; [|done]. rewrite Forall_forall in Hx.
    intros Hxl. specialize (Hx x Hxl). unfold cmp_lt in Hx. by rewrite (cmp_refl _) in Hx. }
  eapply StronglySorted_unique_strong; [|done|done|].
  - intros x y _ _ Hxy Hyx. unfold cmp_lt in *.
    rewrite (cmp_antisym (cmp:=compareHolders) x y), Hxy in Hyx. done.
  - apply NoDup_Permutation; [by apply Hnd..|]. intros x. by rewrite Hin, Hin'.
Qed.
