(* ===== verification/TwabReplay.v ===== *)
(** * The replay keeps every account's statement

    [Inv w now E r]: the replay state [r], in window [w], holds for every address
    the summary of its statement [E a], whose movements are all at or before
    [now]. Each operation of the state is shown to keep it; the walk is reduced to
    a walk that keeps no state ([spec_walk]), and that one to the completeness of
    the history ([history_ok]). *)
From S2P Require Import Prelude Sorts Bytes Twab TwabSpec.

Definition window_ok (w : Window) : Prop := 0 ≤ w_Start w ∧ w_Start w ≤ w_End w < 2 ^ 63.

(** What a standing says of the statement it summarises. *)
Record core_ok (es : list entry) (s : standing) : Prop := {
  core_balance : s_balance s = sum_of snd es;
  core_bought : s_bought s = bool_decide (buys es ≠ []);
  core_first : s_firstBuyAt s = default 0 (head (buys es));
  core_last : s_lastSellAt s = default 0 (last (sells es));
}.

(** A listed standing has accrued the window up to [since]; an idle one holds
    nothing. *)
Definition accrual_ok (w : Window) (now : Z) (es : list entry) (s : standing) : Prop :=
  if s_listed s then
    w_Start w ≤ s_since s ≤ Z.max (w_Start w) now ∧
    Forall (λ e, e.1 ≤ s_since s) es ∧
    s_weighted s = area es (w_Start w) (Z.to_nat (s_since s - w_Start w))
  else
    s_balance s = 0 ∧ s_weighted s = 0 ∧ Forall (λ e, e.1 ≤ w_Start w) es.

Record Inv (w : Window) (now : Z) (E : Address → list entry) (r : replayState) : Prop := {
  inv_window : r_window r = w;
  inv_now : ∀ a, Forall (λ e, e.1 ≤ now) (E a);
  inv_some : ∀ a s, r_balances r !! a = Some s → core_ok (E a) s ∧ accrual_ok w now (E a) s;
  inv_none : ∀ a, r_balances r !! a = None → E a = [];
  inv_nodup : NoDup (r_active r);
  inv_active : ∀ a, a ∈ r_active r ↔ ∃ s, r_balances r !! a = Some s ∧ s_listed s = true;
}.

(** One more movement on the statement of [a]. *)
Definition add_entries (a : Address) (es : list entry) (E : Address → list entry)
    : Address → list entry :=
  λ b, if decide (b = a) then E b ++ es else E b.

Lemma add_entries_eq a es E : add_entries a es E a = E a ++ es.
Proof. unfold add_entries. by rewrite decide_True. Qed.
Lemma add_entries_ne a b es E : b ≠ a → add_entries a es E b = E b.
Proof. intros. unfold add_entries. by rewrite decide_False. Qed.

#[export] Instance Inv_proper w now :
  Proper (pointwise_relation _ (=) ==> (=) ==> iff) (Inv w now).
Proof.
  assert (∀ E E' r, (∀ a, E a = E' a) → Inv w now E r → Inv w now E' r) as H.
  { intros E E' r HE []. split; try done; intros; rewrite <-!HE; eauto. }
  intros E E' HE r ? <-. split; apply H; [done|]. intros a. by rewrite HE.
Qed.

Lemma accrual_ok_later w now now' es s :
  now ≤ now' → accrual_ok w now es s → accrual_ok w now' es s.
Proof. unfold accrual_ok. destruct (s_listed s); [|done]. intros ? ([]&?&?). split_and!; try done; lia. Qed.

Lemma Inv_later w now now' E r : now ≤ now' → Inv w now E r → Inv w now' E r.
Proof.
  intros Hle []. split; try done.
  - intros a. eapply Forall_impl; [apply inv_now0|]. cbn. lia.
  - intros a s Hs. destruct (inv_some0 a s Hs). split; [done|]. by eapply accrual_ok_later.
Qed.

Lemma Inv_new w now : Inv w now (λ _, []) (newReplayState w).
Proof.
  split; cbn; try done.
  - constructor.
  - intros a. split; [by intros ?%elem_of_nil|]. intros (s & H & _). by rewrite lookup_empty in H.
Qed.

(** ** The operations of a standing *)

(** The two halves of a movement, on the standing that already accrued to it. *)
Definition post (ts v : Z) (s : standing) : standing :=
  mkStanding (s_balance s + v) (s_since s) (s_weighted s)
    (if 0 <? v then true else s_bought s)
    (if 0 <? v then (if s_bought s then s_firstBuyAt s else ts) else s_firstBuyAt s)
    (if v <? 0 then ts else s_lastSellAt s) (s_listed s).

Lemma head_app_default (l k : list Z) d :
  default d (head (l ++ k)) = if decide (l = []) then default d (head k) else default d (head l).
Proof. by destruct l. Qed.

Lemma buys_one ts v : buys [(ts, v)] = if 0 <? v then [ts] else [].
Proof.
  unfold buys. rewrite filter_cons. cbn. by destruct (Z.ltb_spec 0 v); case_decide; try lia.
Qed.
Lemma sells_one ts v : sells [(ts, v)] = if v <? 0 then [ts] else [].
Proof.
  unfold sells. rewrite filter_cons. cbn. by destruct (Z.ltb_spec v 0); case_decide; try lia.
Qed.

Lemma core_ok_post es s ts v :
  v ≠ 0 → core_ok es s → core_ok (es ++ [(ts, v)]) (post ts v s).
Proof.
  intros Hv []. split; cbn; rewrite ?buys_app, ?sells_app, ?buys_one, ?sells_one.
  - rewrite sum_of_app, core_balance0. cbn. lia.
  - rewrite core_bought0. destruct (0 <? v); [|by rewrite app_nil_r].
    symmetry. apply bool_decide_eq_true. by destruct (buys es).
  - rewrite head_app_default, core_bought0, core_first0.
    destruct (0 <? v); case_decide as E; cbn.
    + by rewrite bool_decide_eq_false_2 by naive_solver.
    + by rewrite bool_decide_eq_true_2.
    + by rewrite E.
    + done.
  - rewrite core_last0. destruct (v <? 0); [by rewrite last_snoc|by rewrite app_nil_r].
Qed.

Lemma core_ok_accrue es s ts : core_ok es s → core_ok es (accrueTo ts s).
Proof. intros []. unfold accrueTo. destruct (ts <=? s_since s); by split. Qed.

Lemma accrueTo_listed ts s : s_listed (accrueTo ts s) = s_listed s.
Proof. unfold accrueTo. by destruct (ts <=? s_since s). Qed.

Lemma accrueTo_since ts s : s_since (accrueTo ts s) = Z.max (s_since s) ts.
Proof. unfold accrueTo. destruct (Z.leb_spec ts (s_since s)); cbn; lia. Qed.

Lemma accrual_ok_accrue w now ts es s :
  window_ok w → now ≤ ts → ts ≤ w_End w → s_listed s = true →
  core_ok es s → accrual_ok w now es s → accrual_ok w ts es (accrueTo ts s).
Proof.
  intros [] ? ? Hl Hc. unfold accrual_ok. rewrite accrueTo_listed, Hl.
  intros (Hs & Hes & Hw). rewrite accrueTo_since. split_and!; [lia|lia|..].
  - eapply Forall_impl; [exact Hes|]. cbn. lia.
  - unfold accrueTo. destruct (Z.leb_spec ts (s_since s)); cbn.
    + by rewrite Z.max_l.
    + rewrite Z.max_r, i64_id by (unfold is_i64; lia).
      replace (Z.to_nat (ts - w_Start w))
        with (Z.to_nat (s_since s - w_Start w) + Z.to_nat (ts - s_since s))%nat by lia.
      rewrite area_extend, Hw, (core_balance _ _ Hc), Z2Nat.id by
        (first [lia | eapply Forall_impl; [exact Hes|]; cbn; lia]).
      lia.
Qed.

Lemma accrual_ok_post w ts v es s :
  s_listed s = true → ts ≤ s_since s → accrual_ok w ts es s →
  accrual_ok w ts (es ++ [(ts, v)]) (post ts v s).
Proof.
  unfold accrual_ok, post. cbn. intros -> Hts (Hs & Hes & Hw). split_and!; [lia|lia|..].
  - apply Forall_app. split; [done|]. by repeat constructor.
  - rewrite Hw. destruct (decide (s_since s = w_Start w)) as [->|].
    + by rewrite Z.sub_diag.
    + rewrite area_app_later; [done|]. repeat constructor. cbn. lia.
Qed.

(** ** The operations of the state *)

Lemma at_spec w now E r a s r' :
  Inv w now E r → at_ a r = (s, r') →
  Inv w now E r' ∧ r_balances r' !! a = Some s ∧ s_listed s = true ∧ r_moved r' = r_moved r.
Proof.
  intros HI. pose proof (inv_window _ _ _ _ HI) as Hwin. subst w.
  unfold at_. destruct (r_balances r !! a) as [s0|] eqn:Ha; cbn.
  - destruct (inv_some _ _ _ _ HI a s0 Ha) as [Hc Hacc].
    destruct (s_listed s0) eqn:Hl; intros [= <- <-]; cbn; rewrite lookup_insert_eq.
    { split_and!; try done. destruct HI. split; cbn; try rewrite insert_id by done; done. }
    split_and!; try done. destruct HI. unfold accrual_ok in Hacc. rewrite Hl in Hacc.
    destruct Hacc as (Hb & Hw & Hes). split; cbn; try done.
    + intros b sb. destruct (decide (a = b)) as [<-|].
      * rewrite lookup_insert_eq. intros [= <-]. destruct Hc. split; [by split|].
        unfold accrual_ok; cbn. split_and!; [lia|lia|done|by rewrite Z.sub_diag, Hw].
      * rewrite lookup_insert_ne by done. apply inv_some0.
    + intros b. rewrite lookup_insert_None. intros [Hb' _]. by apply inv_none0.
    + apply NoDup_app. split_and!; [done| |apply NoDup_singleton].
      intros b Hb' ->%list_elem_of_singleton. apply inv_active0 in Hb' as (? & ? & ?). congruence.
    + intros b. rewrite elem_of_app, list_elem_of_singleton, inv_active0.
      destruct (decide (a = b)) as [<-|].
      * rewrite lookup_insert_eq. split; [intros _; by eexists|by right].
      * rewrite lookup_insert_ne by done. naive_solver.
  - intros [= <- <-]. cbn. rewrite lookup_insert_eq. split_and!; try done.
    destruct HI. split; cbn; try done.
    + intros b sb. destruct (decide (a = b)) as [<-|].
      * rewrite lookup_insert_eq. intros [= <-]. rewrite (inv_none0 a Ha). split; [by split|].
        unfold accrual_ok; cbn. split_and!; [lia|lia|constructor|by rewrite Z.sub_diag].
      * rewrite lookup_insert_ne by done. apply inv_some0.
    + intros b. rewrite lookup_insert_None. intros [Hb' _]. by apply inv_none0.
    + apply NoDup_app. split_and!; [done| |apply NoDup_singleton].
      intros b Hb' ->%list_elem_of_singleton. apply inv_active0 in Hb' as (? & ? & ?). congruence.
    + intros b. rewrite elem_of_app, list_elem_of_singleton, inv_active0.
      destruct (decide (a = b)) as [<-|].
      * rewrite lookup_insert_eq. split; [intros _; by eexists|by right].
      * rewrite lookup_insert_ne by done. naive_solver.
Qed.

(** Writing back a listed standing that summarises the longer statement. *)
Lemma Inv_update w now now' E (es : list entry) a s s' r m :
  Inv w now E r → now ≤ now' → r_balances r !! a = Some s →
  s_listed s = true → s_listed s' = true → Forall (λ e, e.1 ≤ now') es →
  core_ok (E a ++ es) s' → accrual_ok w now' (E a ++ es) s' →
  Inv w now' (add_entries a es E)
    (mkReplayState (r_window r) (<[a := s']> (r_balances r)) (r_active r) m).
Proof.
  intros HI Hle Ha Hl Hl' Hes Hc Hacc. apply (Inv_later _ _ now') in HI; [|done].
  destruct HI. split; cbn; try done.
  - intros b. unfold add_entries. case_decide; [|done]. by apply Forall_app.
  - intros b sb. destruct (decide (a = b)) as [<-|].
    + rewrite lookup_insert_eq, add_entries_eq. by intros [= <-].
    + rewrite lookup_insert_ne, add_entries_ne by done. apply inv_some0.
  - intros b. rewrite lookup_insert_None. intros [Hb ?]. rewrite add_entries_ne by done.
    by apply inv_none0.
  - intros b. rewrite inv_active0. destruct (decide (a = b)) as [<-|].
    + rewrite lookup_insert_eq, Ha. naive_solver.
    + by rewrite lookup_insert_ne.
Qed.

(** One movement of the account [a], as [debit] and [credit] make it. *)
Lemma move_spec w now E r a s r' ts v m :
  window_ok w → Inv w now E r → now ≤ ts → ts ≤ w_End w → v ≠ 0 → at_ a r = (s, r') →
  Inv w ts (add_entries a [(ts, v)] E)
    (mkReplayState (r_window r') (<[a := post ts v (accrueTo ts s)]> (r_balances r')) (r_active r') m).
Proof.
  intros Hw HI Hnow Hts Hv Hat. destruct (at_spec _ _ _ _ _ _ _ HI Hat) as (HI' & Ha & Hl & _).
  destruct (inv_some _ _ _ _ HI' a s Ha) as [Hc Hacc].
  eapply (Inv_update w now ts E [(ts, v)] a s); [done|done|done|done|by cbn; rewrite accrueTo_listed|by repeat constructor|..].
  - by apply core_ok_post, core_ok_accrue.
  - apply accrual_ok_post.
    + by rewrite accrueTo_listed.
    + rewrite accrueTo_since. lia.
    + by eapply accrual_ok_accrue.
Qed.

Lemma debit_spec w now E r tr v :
  window_ok w → Inv w now E r → now ≤ tr_Timestamp tr → tr_Timestamp tr ≤ w_End w → 0 < v →
  Inv w (tr_Timestamp tr) (add_entries (tr_From tr) [(tr_Timestamp tr, - v)] E) (debit tr v r) ∧
  r_moved (debit tr v r) = r_moved r ++ [tr_From tr].
Proof.
  intros Hw HI Hnow Hts Hv. unfold debit. destruct (at_ (tr_From tr) r) as [s r'] eqn:Hat.
  split; cbn; [|by rewrite (proj2 (proj2 (proj2 (at_spec _ _ _ _ _ _ _ HI Hat))))].
  pose proof (move_spec w now E r _ s r' (tr_Timestamp tr) (- v) (r_moved r' ++ [tr_From tr])
                Hw HI Hnow Hts ltac:(lia) Hat) as H.
  unfold post in H. rewrite (proj2 (Z.ltb_ge 0 (- v))), (proj2 (Z.ltb_lt (- v) 0)) in H by lia.
  exact H.
Qed.

Lemma credit_spec w now E r tr v :
  window_ok w → Inv w now E r → now ≤ tr_Timestamp tr → tr_Timestamp tr ≤ w_End w → 0 < v →
  Inv w (tr_Timestamp tr) (add_entries (tr_To tr) [(tr_Timestamp tr, v)] E) (credit tr v r) ∧
  r_moved (credit tr v r) = r_moved r.
Proof.
  intros Hw HI Hnow Hts Hv. unfold credit. destruct (at_ (tr_To tr) r) as [s r'] eqn:Hat.
  split; cbn; [|by rewrite (proj2 (proj2 (proj2 (at_spec _ _ _ _ _ _ _ HI Hat))))].
  pose proof (move_spec w now E r _ s r' (tr_Timestamp tr) v (r_moved r')
                Hw HI Hnow Hts ltac:(lia) Hat) as H.
  unfold post in H. rewrite (proj2 (Z.ltb_lt 0 v)), (proj2 (Z.ltb_ge v 0)) in H by lia.
  exact H.
Qed.

(** The senders a transfer puts on [moved]. *)
Definition moved_by (tr : Transfer) : list Address :=
  if decide (tr_From tr ≠ zeroAddress ∧ 0 < value_of tr) then [tr_From tr] else [].

(** What [apply] refuses, from the value alone. *)
Definition value_error (tr : Transfer) : option twabError :=
  match tr_Value tr with
  | None => Some errNilValue
  | Some v => if v <? 0 then Some errNegativeValue else None
  end.

Definition statement (h : list Transfer) : Address → list entry := λ a, entries a h.

Lemma entries_of_split tr a E :
  add_entries (tr_To tr) (credit_entries (tr_To tr) tr)
    (add_entries (tr_From tr) (debit_entries (tr_From tr) tr) E) a = E a ++ entries_of a tr.
Proof.
  unfold add_entries, entries_of, debit_entries, credit_entries.
  repeat case_decide; rewrite <-?app_assoc, ?app_nil_r; try done;
    exfalso; destruct_and?;
    first [congruence | match goal with H : ¬ _ |- _ => apply H; split_and!; congruence end].
Qed.

Lemma Inv_entries w now E E' r :
  (∀ a, E a = E' a) → Inv w now E r → Inv w now E' r.
Proof. intros HE. by apply Inv_proper. Qed.

Lemma apply_spec w now pre r tr :
  window_ok w → Inv w now (statement pre) r → now ≤ tr_Timestamp tr →
  tr_Timestamp tr ≤ w_End w →
  match value_error tr with
  | Some e => apply r tr = Err e
  | None => ∃ r', apply r tr = Ok r' ∧
      Inv w (tr_Timestamp tr) (statement (pre ++ [tr])) r' ∧ r_moved r' = r_moved r ++ moved_by tr
  end.
Proof.
  intros Hw HI Hnow Hts. apply (Inv_later _ _ (tr_Timestamp tr)) in HI; [|done].
  assert (∀ r', Inv w (tr_Timestamp tr) (add_entries (tr_To tr) (credit_entries (tr_To tr) tr)
    (add_entries (tr_From tr) (debit_entries (tr_From tr) tr) (statement pre))) r' →
    Inv w (tr_Timestamp tr) (statement (pre ++ [tr])) r') as Hsplit.
  { intros r'. apply Inv_entries. intros a. rewrite entries_of_split. symmetry. apply entries_snoc. }
  unfold value_error, apply, moved_by, value_of.
  unfold debit_entries, credit_entries, value_of in Hsplit.
  destruct (tr_Value tr) as [v|]; [|done]. cbn in *.
  destruct (Z.ltb_spec v 0); [done|].
  destruct (Z.eqb_spec v 0) as [->|Hv].
  { eexists. split; [done|]. rewrite !decide_False by lia. rewrite app_nil_r. split; [|done].
    apply Hsplit. revert HI. apply Inv_entries. intros a. unfold add_entries.
    rewrite !(decide_False (P := _ ∧ _ ∧ 0 < 0)) by lia. clear Hsplit.
    repeat case_decide; by rewrite ?app_nil_r. }
  eexists. split; [done|].
  set (r1 := if decide (tr_From tr = zeroAddress) then r else debit tr v r).
  assert (Inv w (tr_Timestamp tr) (add_entries (tr_From tr)
    (if decide (tr_From tr = tr_From tr ∧ tr_From tr ≠ zeroAddress ∧ 0 < v)
     then [(tr_Timestamp tr, - v)] else []) (statement pre)) r1 ∧
    r_moved r1 = r_moved r ++ if decide (tr_From tr ≠ zeroAddress ∧ 0 < v) then [tr_From tr] else [])
    as [HI1 Hm1].
  { unfold r1. destruct (decide (tr_From tr = zeroAddress)).
    - rewrite !decide_False by naive_solver. rewrite app_nil_r. split; [|done].
      revert HI. apply Inv_entries. intros a. unfold add_entries.
      destruct (decide (a = _)); [symmetry; apply app_nil_r|done].
    - rewrite !decide_True by (split_and!; first [done|lia]).
      apply (debit_spec _ (tr_Timestamp tr)); first [done|lia]. }
  rewrite <-Hm1. clearbody r1. destruct (decide (tr_To tr = zeroAddress)).
  - split; [|done]. apply Hsplit. revert HI1. apply Inv_entries. intros a.
    unfold add_entries at 2. destruct (decide (a = tr_To tr)); [|done].
    rewrite (decide_False (P := tr_To tr = tr_To tr ∧ _)) by naive_solver. by rewrite app_nil_r.
  - destruct (credit_spec w (tr_Timestamp tr) _ _ tr v Hw HI1) as [HI2 Hm2]; [lia..|].
    split; [|done]. apply Hsplit. revert HI2. apply Inv_entries. intros a.
    by rewrite (decide_True (P := tr_To tr = tr_To tr ∧ _)) by (split_and!; first [done|lia]).
Qed.
