(* ===== verification/TwabWalk.v ===== *)
(** * The walk over an ordered history

    [spec_walk] is the walk without the state: the same loops over the same list,
    in which a balance is the sum of a statement. [walk_spec] says that the code's
    walk returns what it returns, with a state that satisfies [Inv];
    [spec_walk_Ok] that it refuses exactly the incomplete histories. *)
From S2P Require Import Prelude Sorts Bytes Twab TwabSpec TwabReplay.

Fixpoint spec_block (ts : Z) (i : nat) (rest : list Transfer)
    : Res twabError (nat * list Transfer * list Transfer) :=
  match rest with
  | [] => Ok (i, [], [])
  | tr :: rest' =>
      if tr_Timestamp tr =? ts then
        match value_error tr with
        | Some e => Err (errTransfer i ts e)
        | None => '(i', blk, rest'') ← spec_block ts (S i) rest'; mret (i', tr :: blk, rest'')
        end
      else Ok (i, [], rest)
  end.

Fixpoint spec_settle (ts : Z) (pre : list Transfer) (moved : list Address) : Res twabError () :=
  match moved with
  | [] => Ok ()
  | a :: moved =>
      let b := sum_of snd (entries a pre) in
      if b <? 0 then Err (errNegativeBalance a b ts) else spec_settle ts pre moved
  end.

Fixpoint spec_walk (fuel : nat) (limit : Z) (i : nat) (pre rest : list Transfer)
    : Res twabError (nat * list Transfer * list Transfer) :=
  match rest with
  | [] => Ok (i, pre, rest)
  | tr :: _ =>
      let ts := tr_Timestamp tr in
      if limit <=? ts then Ok (i, pre, rest)
      else
        match fuel with
        | O => Fault OutOfFuel
        | S fuel =>
            '(i, blk, rest) ← spec_block ts i rest;
            _ ← spec_settle ts (pre ++ blk) (blk ≫= moved_by);
            spec_walk fuel limit i (pre ++ blk) rest
        end
  end.

Abbreviation ascending := (StronglySorted (λ x y, tr_Timestamp x ≤ tr_Timestamp y)).

(** ** Facts of the stateless walk *)

Lemma spec_block_Ok ts i rest i' blk rest' :
  spec_block ts i rest = Ok (i', blk, rest') →
  rest = blk ++ rest' ∧ i' = (i + length blk)%nat ∧
  Forall (λ tr, tr_Timestamp tr = ts ∧ value_error tr = None) blk ∧
  (∀ tr, head rest' = Some tr → tr_Timestamp tr ≠ ts).
Proof.
  revert i blk. induction rest as [|tr rest IH]; intros i blk; cbn.
  { intros [= <- <- <-]. split_and!; [done|cbn; lia|constructor|done]. }
  destruct (Z.eqb_spec (tr_Timestamp tr) ts) as [Hts|Hts].
  - destruct (value_error tr) eqn:Hv; [done|].
    intros ([[i1 b1] r1] & Hb & [= <- <- <-])%bind_Ok.
    destruct (IH _ _ Hb) as (-> & -> & ? & ?). cbn. split_and!; [done|lia|by constructor|done].
  - intros [= <- <- <-]. split_and!; [done|cbn; lia|constructor|by intros ? [= <-]].
Qed.

Lemma spec_block_no_fault ts i rest x : spec_block ts i rest ≠ Fault x.
Proof.
  revert i. induction rest as [|tr rest IH]; intros i; cbn; [done|].
  destruct (_ =? _); [|done]. destruct (value_error tr); [done|].
  rewrite bind_Fault. intros [?|([[]] & _ & [=])]. by eapply IH.
Qed.

Lemma spec_block_head ts i tr rest i' blk rest' :
  tr_Timestamp tr = ts → spec_block ts i (tr :: rest) = Ok (i', blk, rest') →
  ∃ blk', blk = tr :: blk'.
Proof.
  intros Hts H. destruct (spec_block_Ok _ _ _ _ _ _ H) as (Hr & _ & _ & Hhead).
  destruct blk as [|tr' blk]; cbn in Hr; simplify_eq; [|by eexists].
  by destruct (Hhead tr eq_refl).
Qed.

Lemma spec_settle_Ok ts pre moved :
  spec_settle ts pre moved = Ok () ↔ ∀ a, a ∈ moved → 0 ≤ sum_of snd (entries a pre).
Proof.
  induction moved as [|a moved IH]; cbn; [set_solver|].
  destruct (Z.ltb_spec (sum_of snd (entries a pre)) 0).
  - split; [done|]. intros Ha. specialize (Ha a ltac:(set_solver)). lia.
  - rewrite IH. set_solver.
Qed.

Lemma spec_settle_no_fault ts pre moved x : spec_settle ts pre moved ≠ Fault x.
Proof. induction moved as [|a moved IH]; cbn; [done|]. by destruct (_ <? 0). Qed.

(** Fuel [length rest] is enough, and more changes nothing. *)
Lemma spec_walk_fuel f f' limit i pre rest :
  (length rest ≤ f)%nat → (length rest ≤ f')%nat →
  spec_walk f limit i pre rest = spec_walk f' limit i pre rest.
Proof.
  revert f' i pre rest. induction f as [|f IH]; intros [|f'] i pre [|tr rest]; cbn [length];
    intros Hf Hf'; try lia; try done.
  cbn [spec_walk]. destruct (limit <=? _); [done|].
  destruct (spec_block _ _ _) as [[[i1 blk] r1]| |] eqn:Hb; cbn [mbind Res_bind]; [|done..].
  destruct (spec_settle _ _ _); cbn [mbind Res_bind]; [|done..].
  destruct (spec_block_head _ _ _ _ _ _ _ eq_refl Hb) as [blk' ->].
  apply spec_block_Ok in Hb as (Hr & _). injection Hr as Hr.
  apply (f_equal length) in Hr. rewrite length_app in Hr. apply IH; lia.
Qed.

Lemma spec_walk_no_fault f limit i pre rest x :
  (length rest ≤ f)%nat → spec_walk f limit i pre rest ≠ Fault x.
Proof.
  revert i pre rest. induction f as [|f IH]; intros i pre [|tr rest]; cbn [length];
    intros Hf; try lia; try done.
  cbn [spec_walk]. destruct (limit <=? _); [done|].
  rewrite bind_Fault. intros [Hx|([[i1 blk] r1] & Hb & Hx)]; [by eapply spec_block_no_fault|].
  apply bind_Fault in Hx as [Hx|([] & _ & Hx)]; [by eapply spec_settle_no_fault|].
  destruct (spec_block_head _ _ _ _ _ _ _ eq_refl Hb) as [blk' ->].
  apply spec_block_Ok in Hb as (Hr & _). injection Hr as Hr.
  apply (f_equal length) in Hr. rewrite length_app in Hr. eapply IH; [|exact Hx]. lia.
Qed.

Section spec_walk_induction.
(** Induction over a successful stateless walk, block by block. *)
Context (limit : Z) (P : list Transfer → list Transfer → list Transfer → list Transfer → Prop).
Hypothesis P_stop : ∀ pre rest,
  (∀ tr, head rest = Some tr → limit ≤ tr_Timestamp tr) → P pre rest pre rest.
Hypothesis P_block : ∀ ts pre blk rest pre' rest',
  ts < limit → Forall (λ tr, tr_Timestamp tr = ts ∧ value_error tr = None) blk →
  (∀ tr, head rest = Some tr → tr_Timestamp tr ≠ ts) →
  (∀ a, a ∈ blk ≫= moved_by → 0 ≤ sum_of snd (entries a (pre ++ blk))) →
  P (pre ++ blk) rest pre' rest' → P pre (blk ++ rest) pre' rest'.

Lemma spec_walk_ind f i pre rest i' pre' rest' :
  spec_walk f limit i pre rest = Ok (i', pre', rest') → P pre rest pre' rest'.
Proof.
  revert i pre rest. induction f as [|f IH]; intros i pre [|tr rest]; cbn [spec_walk].
  - intros [= _ <- <-]. by apply P_stop.
  - destruct (Z.leb_spec limit (tr_Timestamp tr)); [|done].
    intros [= _ <- <-]. apply P_stop. by intros ? [= <-].
  - intros [= _ <- <-]. by apply P_stop.
  - destruct (Z.leb_spec limit (tr_Timestamp tr)).
    { intros [= _ <- <-]. apply P_stop. by intros ? [= <-]. }
    intros ([[i1 blk] r1] & Hb & ([] & Hs & Hw)%bind_Ok)%bind_Ok.
    pose proof (proj1 (spec_settle_Ok _ _ _) Hs) as Hs'.
    apply spec_block_Ok in Hb as (-> & _ & Hblk & Hhead). by eapply P_block; eauto.
Qed.
End spec_walk_induction.

(** The walk splits the history at the limit. *)
Lemma spec_walk_split f limit i pre rest i' pre' rest' :
  ascending rest → spec_walk f limit i pre rest = Ok (i', pre', rest') →
  ∃ done, pre' = pre ++ done ∧ rest = done ++ rest' ∧
    Forall (λ tr, tr_Timestamp tr < limit) done ∧ Forall (λ tr, limit ≤ tr_Timestamp tr) rest'.
Proof.
  intros Hs Hw. revert Hs. revert Hw. apply (spec_walk_ind limit (λ pre rest pre' rest',
    ascending rest → ∃ done, pre' = pre ++ done ∧ rest = done ++ rest' ∧
    Forall (λ tr, tr_Timestamp tr < limit) done ∧ Forall (λ tr, limit ≤ tr_Timestamp tr) rest')); clear.
  - intros pre rest Hhead Hs. exists []. split_and!; [by rewrite app_nil_r|done|constructor|].
    destruct Hs as [|tr rest _ Htr]; constructor; [by apply Hhead|].
    specialize (Hhead tr eq_refl). eapply Forall_impl; [exact Htr|]. cbn. lia.
  - intros ts pre blk rest pre' rest' Hts Hblk _ _ IH (_ & _ & Hs)%StronglySorted_app.
    destruct (IH Hs) as (dn & -> & -> & Hd & Hr). exists (blk ++ dn).
    rewrite !app_assoc. split_and!; [done..| |done]. apply Forall_app. split; [|done].
    eapply Forall_impl; [exact Hblk|]. cbn. lia.
Qed.

Lemma spec_walk_index f limit i pre rest i' pre' rest' :
  spec_walk f limit i pre rest = Ok (i', pre', rest') → (i' + length pre = i + length pre')%nat.
Proof.
  revert i pre rest. induction f as [|f IH]; intros i pre [|tr rest]; cbn [spec_walk].
  - by intros [= <- <- _].
  - destruct (_ <=? _); [|done]. by intros [= <- <- _].
  - by intros [= <- <- _].
  - destruct (_ <=? _); [by intros [= <- <- _]|].
    intros ([[i1 blk] r1] & Hb & ([] & _ & Hw)%bind_Ok)%bind_Ok.
    apply IH in Hw. apply spec_block_Ok in Hb as (_ & -> & _). rewrite length_app in Hw. lia.
Qed.

(** Walking to one limit and then to a later one is walking to the later one. *)
Lemma spec_walk_resume f L1 L2 i pre rest i1 pre1 rest1 :
  L1 ≤ L2 → (length rest ≤ f)%nat → spec_walk f L1 i pre rest = Ok (i1, pre1, rest1) →
  spec_walk f L2 i pre rest = spec_walk (length rest1) L2 i1 pre1 rest1.
Proof.
  intros HL. revert i pre rest. induction f as [|f IH]; intros i pre [|tr rest] Hf;
    cbn [length] in Hf; try lia.
  - by intros [= <- <- <-].
  - by intros [= <- <- <-].
  - cbn [spec_walk]. destruct (Z.leb_spec L1 (tr_Timestamp tr)).
    { intros [= <- <- <-]. apply (spec_walk_fuel (S f) (length (tr :: rest)) L2 i pre (tr :: rest)); cbn [length]; lia. }
    intros ([[i2 blk] r2] & Hb & ([] & Hs & Hw)%bind_Ok)%bind_Ok.
    rewrite (proj2 (Z.leb_gt L2 _)), Hb by lia. cbn [mbind Res_bind]. rewrite Hs.
    cbn [mbind Res_bind].
    destruct (spec_block_head _ _ _ _ _ _ _ eq_refl Hb) as [blk' ->].
    apply spec_block_Ok in Hb as (Hr & _). injection Hr as Hr.
    apply (f_equal length) in Hr. rewrite length_app in Hr. apply IH; [lia|done].
Qed.

(** ** The code's walk *)

Lemma applyBlock_spec w now pre r ts i rest :
  window_ok w → Inv w now (statement pre) r → now ≤ ts → ts ≤ w_End w →
  match spec_block ts i rest with
  | Ok (i', blk, rest') => ∃ r', applyBlock ts i rest r = Ok (i', rest', r') ∧
      Inv w ts (statement (pre ++ blk)) r' ∧ r_moved r' = r_moved r ++ (blk ≫= moved_by)
  | Err e => applyBlock ts i rest r = Err e
  | Fault x => False
  end.
Proof.
  intros Hw HI Hnow Hts. apply (Inv_later _ _ ts) in HI; [|done].
  revert i pre r HI. induction rest as [|tr rest IH]; intros i pre r HI; cbn [spec_block applyBlock].
  { eexists. split; [done|]. by rewrite !app_nil_r. }
  destruct (Z.eqb_spec (tr_Timestamp tr) ts) as [<-|]; cycle 1.
  { eexists. split; [done|]. by rewrite !app_nil_r. }
  pose proof (apply_spec w _ pre r tr Hw HI ltac:(lia) Hts) as Ha.
  destruct (value_error tr) as [e|]; [by rewrite Ha|].
  destruct Ha as (r1 & -> & HI1 & Hm1). cbn [wrap mbind Res_bind].
  specialize (IH (S i) _ _ HI1).
  destruct (spec_block _ (S i) rest) as [[[i2 blk] r2]| |]; cbn; [|done..].
  destruct IH as (r' & -> & HI' & Hm'). exists r'. split; [done|].
  rewrite <-app_assoc in HI'. split; [done|]. by rewrite Hm', Hm1, <-app_assoc.
Qed.

Lemma settle_moved_spec w now pre r ts moved :
  Inv w now (statement pre) r → (∀ a, a ∈ moved → entries a pre ≠ []) →
  settle_moved ts (r_balances r) moved = spec_settle ts pre moved.
Proof.
  intros HI. induction moved as [|a moved IH]; intros Hm; [done|]. cbn.
  destruct (r_balances r !! a) as [s|] eqn:Ha.
  - destruct (inv_some _ _ _ _ HI a s Ha) as [[Hb _ _ _] _]. rewrite Hb.
    destruct (_ <? 0); [done|]. apply IH. set_solver.
  - destruct (Hm a); [set_solver|]. by apply (inv_none _ _ _ _ HI).
Qed.

Lemma moved_by_entries a pre blk : a ∈ blk ≫= moved_by → entries a (pre ++ blk) ≠ [].
Proof.
  rewrite list_elem_of_bind. intros (tr & Ha & Htr) H.
  assert ((tr_Timestamp tr, - value_of tr) ∈ entries a (pre ++ blk)) as He.
  { apply elem_of_entries. exists tr. split; [set_solver|]. unfold moved_by in Ha.
    case_decide as Hd; [|set_solver]. apply list_elem_of_singleton in Ha as ->.
    unfold entries_of, debit_entries. rewrite decide_True by naive_solver. set_solver. }
  rewrite H in He. set_solver.
Qed.

Lemma settle_spec w now pre blk r ts :
  Inv w now (statement (pre ++ blk)) r → r_moved r = blk ≫= moved_by →
  match spec_settle ts (pre ++ blk) (blk ≫= moved_by) with
  | Ok _ => ∃ r', settle ts r = Ok r' ∧ Inv w now (statement (pre ++ blk)) r' ∧ r_moved r' = []
  | Err e => settle ts r = Err e
  | Fault x => False
  end.
Proof.
  intros HI Hm. unfold settle. rewrite Hm.
  rewrite (settle_moved_spec _ _ _ _ _ _ HI) by (intros a; apply moved_by_entries).
  destruct (spec_settle _ _ _) eqn:Hs; cbn; [|done|by eapply spec_settle_no_fault].
  eexists. split; [done|]. split; [|done]. by destruct HI; split.
Qed.

Lemma walk_spec f w now pre r i rest :
  window_ok w → Inv w now (statement pre) r → r_moved r = [] →
  ascending rest → (∀ tr, tr ∈ rest → now ≤ tr_Timestamp tr) →
  match spec_walk f (w_End w) i pre rest with
  | Ok (i', pre', rest') => ∃ r' now', walk f i rest r = Ok (i', rest', r') ∧
      Inv w now' (statement pre') r' ∧ r_moved r' = [] ∧ now' ≤ Z.max now (w_End w)
  | Err e => walk f i rest r = Err e
  | Fault x => walk f i rest r = Fault x
  end.
Proof.
  intros Hw. revert now pre r i rest.
  induction f as [|f IH]; intros now pre r i [|tr rest] HI Hm Hs Hnow; cbn [spec_walk walk].
  - exists r, now. split_and!; [done..|lia].
  - rewrite (inv_window _ _ _ _ HI). destruct (_ <=? _); [|done].
    exists r, now. split_and!; [done..|lia].
  - exists r, now. split_and!; [done..|lia].
  - rewrite (inv_window _ _ _ _ HI). destruct (Z.leb_spec (w_End w) (tr_Timestamp tr)).
    { exists r, now. split_and!; [done..|lia]. }
    pose proof (applyBlock_spec w now pre r (tr_Timestamp tr) i (tr :: rest) Hw HI
      (Hnow tr ltac:(set_solver)) ltac:(lia)) as Hb.
    destruct (spec_block _ i (tr :: rest)) as [[[i1 blk] r1]| |] eqn:Hsb; cbn [mbind Res_bind];
      [|by rewrite Hb|done].
    destruct Hb as (r2 & -> & HI2 & Hm2). rewrite Hm in Hm2. cbn [mbind Res_bind].
    pose proof (settle_spec w _ pre blk r2 (tr_Timestamp tr) HI2 Hm2) as Hst.
    destruct (spec_settle _ _ _); cbn [mbind Res_bind]; [|by rewrite Hst|done].
    destruct Hst as (r3 & -> & HI3 & Hm3). cbn [mbind Res_bind].
    destruct (spec_block_head _ _ _ _ _ _ _ eq_refl Hsb) as [blk' ->].
    apply spec_block_Ok in Hsb as (Hr & _). injection Hr as Hr. subst rest.
    rewrite StronglySorted_cons, Forall_app in Hs. destruct Hs as ([_ Hle] & Hs).
    apply StronglySorted_app_1_r in Hs. rewrite Forall_forall in Hle.
    specialize (IH (tr_Timestamp tr) _ r3 i1 r1 HI3 Hm3 Hs ltac:(auto)).
    destruct (spec_walk _ _ _ _ _) as [[[i' pre'] rest']| |]; [|done..].
    destruct IH as (r' & now' & ? & ? & ? & ?). exists r', now'. split_and!; [done..|lia].
Qed.
