(* ===== verification/TwabHolders.v ===== *)
(** * From the final state to the Holders

    The Excluded set ([ExcludedAsOf_spec]), the reduction of the active list
    ([holders_fold]) and its agreement with the specification
    ([holders_correct]). *)
From S2P Require Import Prelude Sorts Bytes Twab TwabSpec TwabReplay TwabWalk.

(** ** The Excluded set *)

Lemma excludedStep_spec w xs seen set seen' set' :
  foldl (excludedStep w) (seen, set) xs = (seen', set') →
  NoDup set → (∀ a, a ∈ seen ↔ a ∈ set) →
  NoDup set' ∧ ∀ a, a ∈ set' ↔ a ∈ set ∨ ∃ x, x ∈ xs ∧ ex_Account x = a ∧ ex_Timestamp x < w_End w.
Proof.
  revert seen set. induction xs as [|x xs IH]; intros seen set; cbn [foldl].
  { intros [= <- <-] ? ?. split; [done|]. intros a. split; [by left|].
    intros [?|(x & Hx & _)]; [done|]. by apply elem_of_nil in Hx. }
  unfold excludedStep at 2. setoid_rewrite elem_of_exists_cons.
  destruct (Z.leb_spec (w_End w) (ex_Timestamp x)) as [Hx|Hx]; cbn [orb].
  { intros Hf Hnd Hin. destruct (IH _ _ Hf Hnd Hin) as [? Hs]. split; [done|].
    intros a. rewrite Hs. intuition lia. }
  case_bool_decide as Hseen.
  - intros Hf Hnd Hin. destruct (IH _ _ Hf Hnd Hin) as [? Hs]. split; [done|].
    intros a. rewrite Hs. apply Hin in Hseen. intuition (subst; tauto).
  - intros Hf Hnd Hin. destruct (IH _ _ Hf) as [? Hs].
    + apply NoDup_app. split_and!; [done| |apply NoDup_singleton]. intros a Ha ->%list_elem_of_singleton.
      by apply Hseen, Hin.
    + intros a. rewrite elem_of_union, elem_of_singleton, elem_of_app, list_elem_of_singleton, Hin. tauto.
    + split; [done|]. intros a. rewrite Hs, elem_of_app, list_elem_of_singleton.
      split; [intros [[?| ->]|?]|intros [?|[[<- _]|?]]]; auto.
Qed.

Lemma ExcludedAsOf_spec epochID xs :
  StronglySorted (cmp_lt array_compare) (ExcludedAsOf epochID xs) ∧
  ∀ a, a ∈ ExcludedAsOf epochID xs ↔ is_excluded epochID xs a.
Proof.
  unfold ExcludedAsOf.
  destruct (foldl _ _ xs) as [seen set] eqn:Hf.
  destruct (excludedStep_spec _ _ _ _ _ _ Hf) as [Hnd Hin]; [constructor|set_solver|]. split.
  - apply (sort_by_strict array_compare); [done|]. intros x y _ _. apply array_compare_eq.
  - intros a. rewrite elem_of_sort_by, Hin. unfold is_excluded. set_solver.
Qed.

Lemma cmp_lt_le {A} (cmp : A → A → comparison) l :
  StronglySorted (cmp_lt cmp) l → StronglySorted (cmp_le cmp) l.
Proof.
  induction 1 as [|x l _ IH Hx]; constructor; [done|]. eapply Forall_impl; [exact Hx|].
  unfold cmp_lt, cmp_le. by intros y ->.
Qed.

Lemma excluded_found epochID xs a :
  BinarySearchFound compareAddresses (ExcludedAsOf epochID xs) a = true ↔ is_excluded epochID xs a.
Proof.
  destruct (ExcludedAsOf_spec epochID xs) as [Hs Hin]. rewrite <-Hin.
  apply (BinarySearchFound_spec array_compare). by apply cmp_lt_le.
Qed.

(** ** The reduction of the active list *)

Definition holder_out (excluded : list Address) (r : replayState) (a : Address) : option Holder :=
  if BinarySearchFound compareAddresses excluded a then None
  else
    s ← r_balances r !! a;
    let s := accrueTo (w_End (r_window r)) s in
    let average := Z.quot (s_weighted s) EpochSeconds in
    if average <=? 0 then None
    else Some (mkHolder a average (s_firstBuyAt s) (s_lastSellAt s)).

(** What [holders] leaves of a standing: the same, or accrued to the end. *)
Definition closed (r r' : replayState) : Prop :=
  r_window r' = r_window r ∧ r_active r' = r_active r ∧ r_moved r' = r_moved r ∧
  ∀ a, r_balances r' !! a = r_balances r !! a ∨
       (a ∈ r_active r ∧ r_balances r' !! a = accrueTo (w_End (r_window r)) <$> r_balances r !! a).

Lemma holderStep_eq excluded r out a :
  holderStep excluded (r, out) a =
  if BinarySearchFound compareAddresses excluded a then Ok (r, out)
  else match r_balances r !! a with
       | None => Fault GoPanic
       | Some s =>
           let s := accrueTo (w_End (r_window r)) s in
           let average := Z.quot (s_weighted s) EpochSeconds in
           if average <=? 0 then Ok (setStanding a s r, out)
           else Ok (setStanding a s r, out ++ [mkHolder a average (s_firstBuyAt s) (s_lastSellAt s)])
       end.
Proof. done. Qed.

Lemma holders_fold excluded r l : ∀ r0 out,
  NoDup l → (∀ a, a ∈ l → a ∈ r_active r ∧ is_Some (r_balances r !! a)) →
  closed r r0 → (∀ a, a ∈ l → r_balances r0 !! a = r_balances r !! a) →
  ∃ r', foldM (holderStep excluded) l (r0, out) = Ok (r', out ++ omap (holder_out excluded r) l) ∧
        closed r r'.
Proof.
  induction l as [|a l IH]; intros r0 out Hnd Hl Hc Hsame; cbn [foldM omap list_omap].
  { exists r0. by rewrite app_nil_r. }
  apply NoDup_cons in Hnd as [Ha Hnd].
  destruct (Hl a) as [Hact [s Hs]]; [set_solver|].
  pose proof (Hsame a ltac:(set_solver)) as Hs0. rewrite Hs in Hs0.
  rewrite holderStep_eq. unfold holder_out at 1. rewrite Hs0, Hs.
  pose proof Hc as (Hw & Hra & Hrm & Hrb). rewrite Hw.
  destruct (BinarySearchFound _ _ _); cbn [mbind Res_bind option_bind].
  { destruct (IH r0 out) as (r' & ? & ?); [done|set_solver|done|set_solver|]. by exists r'. }
  set (s' := accrueTo _ s).
  assert (closed r (setStanding a s' r0)) as Hc'.
  { split_and!; [done..|]. intros b. cbn. destruct (decide (a = b)) as [<-|].
    - right. split; [done|]. by rewrite lookup_insert_eq, Hs.
    - rewrite lookup_insert_ne by done. apply Hrb. }
  assert (∀ b, b ∈ l → r_balances (setStanding a s' r0) !! b = r_balances r !! b) as Hsame'.
  { intros b Hb. cbn. rewrite lookup_insert_ne by set_solver. apply Hsame. set_solver. }
  destruct (_ <=? 0); cbn [mbind Res_bind].
  - destruct (IH (setStanding a s' r0) out) as (r' & ? & ?); [done|set_solver|done..|]. by exists r'.
  - edestruct (IH (setStanding a s' r0)) as (r' & -> & ?); [done|set_solver|done..|].
    exists r'. by rewrite <-app_assoc.
Qed.

Lemma closed_refl r : closed r r.
Proof. split_and!; try done. intros a. by left. Qed.

Lemma holders_total excluded r :
  NoDup (r_active r) → (∀ a, a ∈ r_active r → is_Some (r_balances r !! a)) →
  ∃ r', holders excluded r = Ok (r', sort_by compareHolders (omap (holder_out excluded r) (r_active r)))
        ∧ closed r r'.
Proof.
  intros Hnd Hl. unfold holders.
  destruct (holders_fold excluded r (r_active r) r []) as (r' & -> & Hc);
    [done|naive_solver|apply closed_refl|done|]. by exists r'.
Qed.

(** ** Agreement with the specification *)

Lemma entries_ascending a h : ascending h → StronglySorted Z.le (fst <$> entries a h).
Proof.
  induction 1 as [|tr h Hh IH Htr]; [constructor|].
  rewrite entries_cons, fmap_app. apply StronglySorted_app. split_and!; [|clear|done].
  - intros t t' (e & -> & He)%list_elem_of_fmap (e' & -> & (tr' & ? & He')%elem_of_entries)%list_elem_of_fmap.
    apply entries_of_time in He as ->, He' as ->. rewrite Forall_forall in Htr. by apply Htr.
  - unfold entries_of, debit_entries, credit_entries.
    repeat case_decide; cbn; repeat first [apply Z.le_refl | constructor].
Qed.

Lemma StronglySorted_fmap_filter (P : entry → Prop) `{!∀ x, Decision (P x)} es :
  StronglySorted Z.le (fst <$> es) → StronglySorted Z.le (fst <$> filter P es).
Proof.
  induction es as [|e es IH]; [done|]. rewrite fmap_cons, StronglySorted_cons. intros [He Hes].
  rewrite filter_cons. case_decide; [|by apply IH]. rewrite fmap_cons. constructor; [by apply IH|].
  rewrite Forall_forall in He |- *. intros t (e' & -> & [_ ?]%list_elem_of_filter)%list_elem_of_fmap.
  apply He, list_elem_of_fmap. by exists e'.
Qed.

Lemma buys_sorted a h : ascending h → StronglySorted Z.le (buys (entries a h)).
Proof. intros. by apply StronglySorted_fmap_filter, entries_ascending. Qed.
Lemma sells_sorted a h : ascending h → StronglySorted Z.le (sells (entries a h)).
Proof. intros. by apply StronglySorted_fmap_filter, entries_ascending. Qed.

Lemma Forall_entries (P : Z → Prop) a h :
  Forall (λ tr, P (tr_Timestamp tr)) h → Forall (λ e, P e.1) (entries a h).
Proof.
  rewrite !Forall_forall. intros H e (tr & ? & ->%entries_of_time)%elem_of_entries. by apply H.
Qed.

Section holders_correct.
Context (epochID : Z) (xs : list Exclusion) (pre rest : list Transfer).
Let w := WindowOf epochID.
Hypothesis Hepoch : epoch_ok epochID.
Hypothesis Hasc : ascending pre.
Hypothesis Hpre : Forall (λ tr, tr_Timestamp tr < w_End w) pre.
Hypothesis Hrest : Forall (λ tr, w_End w ≤ tr_Timestamp tr) rest.

Lemma window_ok_epoch : window_ok w ∧ w_End w = w_Start w + EpochSeconds.
Proof using Hepoch.
  unfold w. rewrite WindowOf_ok by done. unfold epoch_ok, window_ok, EpochSeconds in *. cbn. lia.
Qed.

Lemma before_split a : before (w_End w) (entries a (pre ++ rest)) = entries a pre.
Proof using Hpre Hrest.
  rewrite entries_app, before_app, before_all, before_none, app_nil_r; [done|..].
  - exact (Forall_entries (λ t, w_End w ≤ t) a rest Hrest).
  - exact (Forall_entries (λ t, t < w_End w) a pre Hpre).
Qed.

(** The Holder of the specification, from the summary of the prefix. *)
Lemma holder_at_split a :
  holder_at epochID (pre ++ rest) a =
  mkHolder a (area (entries a pre) (w_Start w) (Z.to_nat EpochSeconds) / EpochSeconds)
    (default 0 (head (buys (entries a pre)))) (default 0 (last (sells (entries a pre)))).
Proof using Hepoch Hasc Hpre Hrest.
  unfold holder_at, twab_of, first_buy, last_sell. fold w.
  rewrite !before_split, min_of_sorted, max_of_sorted; [|by apply sells_sorted|by apply buys_sorted].
  do 2 f_equal. rewrite entries_app. apply area_app_later.
  destruct window_ok_epoch as [_ He]. unfold EpochSeconds in *.
  rewrite Z2Nat.id, <-He by lia. exact (Forall_entries (λ t, w_End w ≤ t) a rest Hrest).
Qed.

(** One account of the active list. *)
Lemma holder_out_spec now r a :
  Inv w now (statement pre) r → now ≤ w_End w → a ∈ r_active r →
  holder_out (ExcludedAsOf epochID xs) r a =
  if decide (¬ is_excluded epochID xs a ∧ 0 < h_TWAB (holder_at epochID (pre ++ rest) a))
  then Some (holder_at epochID (pre ++ rest) a) else None.
Proof using Hepoch Hasc Hpre Hrest.
  intros HI Hnow Ha. rewrite holder_at_split. cbn [h_TWAB]. unfold holder_out.
  destruct (BinarySearchFound _ _ _) eqn:Hex.
  { rewrite excluded_found in Hex. by rewrite decide_False by naive_solver. }
  assert (¬ is_excluded epochID xs a) as Hnex by (rewrite <-excluded_found, Hex; done).
  apply (inv_active _ _ _ _ HI) in Ha as (s & Hs & Hl).
  destruct (inv_some _ _ _ _ HI a s Hs) as [Hc Hacc].
  rewrite Hs, (inv_window _ _ _ _ HI). cbn [mbind option_bind].
  destruct window_ok_epoch as [Hw Hend].
  pose proof (accrual_ok_accrue _ _ _ _ _ Hw Hnow (Z.le_refl _) Hl Hc Hacc) as Hacc'.
  unfold accrual_ok in Hacc, Hacc'. rewrite Hl in Hacc. rewrite accrueTo_listed, Hl, accrueTo_since in Hacc'.
  destruct Hacc' as (_ & _ & Hwt). destruct Hw as [? ?]. rewrite Z.max_r in Hwt by lia.
  rewrite Hwt. unfold statement. replace (w_End w - w_Start w) with EpochSeconds by lia.
  set (A := area _ _ _).
  destruct (core_ok_accrue _ _ (w_End w) Hc) as [_ _ Hfirst Hlast]. rewrite Hfirst, Hlast.
  destruct (quot_div_pos A EpochSeconds) as [-> Hq]; [done|].
  destruct (Z.leb_spec (A / EpochSeconds) 0).
  - rewrite decide_False; [done|]. intros [_ ?]. lia.
  - rewrite decide_True by done. by rewrite Hq.
Qed.

(** Whoever is not on the active list has no weight in the window. *)
Lemma inactive_no_twab now r a :
  Inv w now (statement pre) r → a ∉ r_active r →
  h_TWAB (holder_at epochID (pre ++ rest) a) = 0.
Proof using Hepoch Hasc Hpre Hrest.
  intros HI Ha. rewrite holder_at_split. cbn [h_TWAB].
  assert (Forall (λ e, e.1 ≤ w_Start w + Z.of_nat 0) (entries a pre) ∧ sum_of snd (entries a pre) = 0)
    as [Hes Hsum].
  { destruct (r_balances r !! a) as [s|] eqn:Hs; cycle 1.
    { apply (inv_none _ _ _ _ HI) in Hs. unfold statement in Hs. rewrite Hs.
      split; [by constructor|done]. }
    destruct (inv_some _ _ _ _ HI a s Hs) as [[Hb _ _ _] Hacc]. unfold accrual_ok in Hacc.
    destruct (s_listed s) eqn:Hl; [destruct Ha; apply (inv_active _ _ _ _ HI); by exists s|].
    destruct Hacc as (Hb0 & _ & Hes). rewrite Z.add_0_r. split; [done|].
    unfold statement in Hb. congruence. }
  rewrite (area_extend _ _ 0 (Z.to_nat EpochSeconds)), Hsum by done. by rewrite Z.mul_0_r.
Qed.

Lemma holders_correct now r :
  Inv w now (statement pre) r → now ≤ w_End w →
  ∃ r' hs, holders (ExcludedAsOf epochID xs) r = Ok (r', hs) ∧
           is_holders epochID (pre ++ rest) xs hs ∧ closed r r'.
Proof using Hepoch Hasc Hpre Hrest.
  intros HI Hnow. set (h := pre ++ rest).
  destruct (holders_total (ExcludedAsOf epochID xs) r (inv_nodup _ _ _ _ HI)) as (r' & -> & Hc).
  { intros a (s & ? & _)%(inv_active _ _ _ _ HI). by exists s. }
  set (out := omap _ _). exists r', (sort_by compareHolders out). split; [done|]. split; [|done].
  assert (∀ x, x ∈ out ↔ x = holder_at epochID h (h_Account x) ∧ 0 < h_TWAB x ∧
                         ¬ is_excluded epochID xs (h_Account x)) as Hout.
  { intros x. unfold out. rewrite list_elem_of_omap. split.
    - intros (a & Ha & Hx). rewrite (holder_out_spec now) in Hx by done. fold h in Hx.
      case_decide; simplify_eq. naive_solver.
    - intros (Hx & Hpos & Hnex). exists (h_Account x).
      assert (h_Account x ∈ r_active r) as Ha.
      { destruct (decide (h_Account x ∈ r_active r)) as [|Hn]; [done|].
        rewrite Hx in Hpos. pose proof (inactive_no_twab now r _ HI Hn) as H0. fold h in H0. lia. }
      split; [done|]. rewrite (holder_out_spec now) by done. fold h.
      rewrite <-Hx. by rewrite decide_True. }
  split; [|intros x; by rewrite elem_of_sort_by, Hout].
  apply (sort_by_strict compareHolders).
  - unfold out. pose proof (inv_nodup _ _ _ _ HI) as Hnd.
    assert (∀ a x, holder_out (ExcludedAsOf epochID xs) r a = Some x → h_Account x = a) as Hacc.
    { intros a x. unfold holder_out. destruct (BinarySearchFound _ _ _); [done|].
      destruct (r_balances r !! a); cbn [mbind option_bind]; [|done].
      destruct (_ <=? 0); [done|]. by intros [= <-]. }
    clear -Hnd Hacc. induction Hnd as [|a l Ha Hnd IH]; cbn; [constructor|].
    destruct (holder_out _ r a) as [x|] eqn:Hx; [|done]. constructor; [|done].
    intros (b & Hb & Hbx)%list_elem_of_omap. apply Hacc in Hx, Hbx. by simplify_eq.
  - intros x y (Hx & _)%Hout (Hy & _)%Hout Heq%array_compare_eq.
    by rewrite Hx, Hy, Heq.
Qed.
End holders_correct.
