(* ===== verification/TwabLedger.v ===== *)
(** * Replay is correct, and the Ledger is Replay walked once

    [Replay_spec]: what [Replay] returns is the specification's Holders, and what
    it refuses is an incomplete history. [Advance_spec]: a Ledger advanced through
    rising Epochs returns what [Replay] returns for each. *)
From S2P Require Import Prelude Sorts Bytes Twab TwabSpec TwabReplay TwabWalk TwabHolders.

Lemma spec_walk_Err_later f L1 L2 i pre rest e :
  L1 ≤ L2 → spec_walk f L1 i pre rest = Err e → spec_walk f L2 i pre rest = Err e.
Proof.
  intros HL. revert i pre rest. induction f as [|f IH]; intros i pre [|tr rest]; cbn [spec_walk]; try done.
  { by destruct (_ <=? _). }
  destruct (Z.leb_spec L1 (tr_Timestamp tr)); [done|]. rewrite (proj2 (Z.leb_gt L2 _)) by lia.
  destruct (spec_block _ _ _) as [[[i2 blk] r2]| |]; cbn [mbind Res_bind]; [|done..].
  destruct (spec_settle _ _ _); cbn [mbind Res_bind]; [|done..]. apply IH.
Qed.

(** ** Replay *)

Lemma sortedByTimestamp_perm ts : sortedByTimestamp ts ≡ₚ ts.
Proof. apply sort_by_perm. Qed.

Lemma sortedByTimestamp_ascending ts : ascending (sortedByTimestamp ts).
Proof.
  eapply StronglySorted_weaken; [|apply (sort_by_sorted compareTimestamps)]. done.
Qed.

(** The end of a walk in a window, from any state that summarises a prefix. *)
Lemma walk_holders epochID xs f now pre r i rest :
  epoch_ok epochID → Inv (WindowOf epochID) now (statement pre) r → r_moved r = [] →
  ascending (pre ++ rest) → Forall (λ tr, tr_Timestamp tr < w_End (WindowOf epochID)) pre →
  (∀ tr, tr ∈ rest → now ≤ tr_Timestamp tr) → now ≤ w_End (WindowOf epochID) →
  match spec_walk f (w_End (WindowOf epochID)) i pre rest with
  | Ok (i', pre', rest') => ∃ r' r'' hs,
      walk f i rest r = Ok (i', rest', r') ∧
      holders (ExcludedAsOf epochID xs) r' = Ok (r'', hs) ∧
      is_holders epochID (pre ++ rest) xs hs ∧
      (∃ now', Inv (WindowOf epochID) now' (statement pre') r') ∧ closed r' r'' ∧ r_moved r' = []
  | Err e => walk f i rest r = Err e
  | Fault x => walk f i rest r = Fault x
  end.
Proof.
  intros He HI Hm Hasc Hpre Hnow Hend.
  destruct (window_ok_epoch epochID He) as [Hw _].
  pose proof (walk_spec f _ now pre r i rest Hw HI Hm ltac:(by apply StronglySorted_app_1_r in Hasc) Hnow) as H.
  destruct (spec_walk _ _ _ _ _) as [[[i' pre'] rest']| |] eqn:Hsw; [|done..].
  destruct H as (r' & now' & Hwalk & HI' & Hm' & Hnow').
  apply spec_walk_split in Hsw as (dn & -> & -> & Hd & Hr); [|by apply StronglySorted_app_1_r in Hasc].
  rewrite app_assoc in Hasc |- *.
  destruct (holders_correct epochID xs (pre ++ dn) rest' He) with (now := now') (r := r')
    as (r'' & hs & ? & ? & ?).
  - by apply StronglySorted_app_1_l in Hasc.
  - by apply Forall_app.
  - done.
  - done.
  - lia.
  - exists r', r'', hs. split_and!; try done. by exists now'.
Qed.

Lemma Replay_walk epochID ts xs :
  epoch_ok epochID →
  let ordered := sortedByTimestamp ts in
  match spec_walk (length ordered) (w_End (WindowOf epochID)) 0 [] ordered with
  | Ok _ => ∃ hs, Replay epochID ts xs = Ok hs ∧ is_holders epochID ts xs hs
  | Err e => Replay epochID ts xs = Err e
  | Fault _ => False
  end.
Proof.
  intros He ordered. unfold Replay. fold ordered.
  set (now := Z.min (default 0 (min_of (tr_Timestamp <$> ordered))) (w_End (WindowOf epochID))).
  assert (∀ tr, tr ∈ ordered → now ≤ tr_Timestamp tr) as Hnow.
  { intros tr Htr. unfold now. destruct (min_of _) as [m|] eqn:Hm; cbn.
    - apply min_of_spec in Hm as [_ Hm].
      specialize (Hm (tr_Timestamp tr) ltac:(by apply list_elem_of_fmap_2)). lia.
    - apply min_of_None, fmap_nil_inv in Hm. by rewrite Hm in Htr; apply elem_of_nil in Htr. }
  pose proof (walk_holders epochID xs (length ordered) now []
    (newReplayState (WindowOf epochID)) 0 ordered He (Inv_new _ _) eq_refl
    (sortedByTimestamp_ascending ts) (Forall_nil_2 _) Hnow ltac:(lia)) as H.
  destruct (spec_walk _ _ _ _ _) as [[[i pre] rest]|e|x] eqn:Hsw; cycle 2.
  { by eapply spec_walk_no_fault, Hsw. }
  - destruct H as (r' & r'' & hs & Hw & Hh & His & _). rewrite Hw. cbn [mbind Res_bind].
    rewrite Hh. exists hs. split; [done|]. by apply (is_holders_perm _ _ (sortedByTimestamp_perm ts)).
  - by rewrite H.
Qed.

(** ** Which histories are accepted *)

Lemma spec_block_accepts ts i rest :
  ascending rest → (∀ tr, tr ∈ rest → ts ≤ tr_Timestamp tr) →
  is_Ok (spec_block ts i rest) ↔
  ∀ tr, tr ∈ rest → tr_Timestamp tr = ts → value_error tr = None.
Proof.
  intros Hasc. revert i. induction Hasc as [|tr rest _ IH Htr]; intros i Hts; cbn [spec_block].
  { split; [set_solver|by eexists]. }
  rewrite Forall_forall in Htr. destruct (Z.eqb_spec (tr_Timestamp tr) ts) as [Heq|Hne].
  - destruct (value_error tr) eqn:Hv.
    { split; [by intros [? [=]]|]. intros H. specialize (H tr ltac:(set_solver) Heq). congruence. }
    specialize (IH (S i) ltac:(set_solver)). split.
    + intros [res ([[i' blk] r'] & Hb & _)%bind_Ok] tr' [->|Hin]%elem_of_cons; [done|].
      by apply IH; [eexists|].
    + intros H. destruct (proj2 IH) as [[[i' blk] r'] Hb]; [set_solver|]. rewrite Hb. by eexists.
  - split; [|by eexists]. intros _ tr' Hin Heq'. specialize (Hts tr ltac:(set_solver)).
    apply elem_of_cons in Hin as [->|Hin]; [lia|]. specialize (Htr tr' Hin). lia.
Qed.

(** What the code asks of one transfer. *)
Definition accepted (h : list Transfer) (tr : Transfer) : Prop :=
  value_error tr = None ∧ ∀ a, a ∈ moved_by tr → 0 ≤ balance_at h a (tr_Timestamp tr).

Lemma balance_at_split pre rest a ts :
  (∀ p, p ∈ pre → tr_Timestamp p ≤ ts) → (∀ q, q ∈ rest → ts < tr_Timestamp q) →
  balance_at (pre ++ rest) a ts = sum_of snd (entries a pre).
Proof.
  intros Hp Hq. unfold balance_at. rewrite entries_app, bal_at_app, bal_at_all, bal_at_later; [lia|..].
  - apply (Forall_entries (λ t, ts < t)). by apply Forall_forall.
  - apply (Forall_entries (λ t, t ≤ ts)). by apply Forall_forall.
Qed.

Lemma spec_walk_accepts f limit i pre rest :
  (length rest ≤ f)%nat → ascending rest →
  (∀ p q, p ∈ pre → q ∈ rest → tr_Timestamp p < tr_Timestamp q) →
  is_Ok (spec_walk f limit i pre rest) ↔
  ∀ tr, tr ∈ rest → tr_Timestamp tr < limit → accepted (pre ++ rest) tr.
Proof.
  revert i pre rest. induction f as [|f IH]; intros i pre [|tr rest] Hf Hasc Hpre; cbn [length] in Hf;
    cbn [spec_walk]; try lia; [split; [set_solver|by eexists]..|].
  apply StronglySorted_cons in Hasc as Htr. destruct Htr as [Htr _]. rewrite Forall_forall in Htr.
  destruct (Z.leb_spec limit (tr_Timestamp tr)) as [Hl|Hl].
  { split; [|by eexists]. intros _ tr' [->|Hin]%elem_of_cons; [lia|]. specialize (Htr tr' Hin). lia. }
  pose proof (spec_block_accepts (tr_Timestamp tr) i (tr :: rest) Hasc) as Hblock.
  ospecialize (Hblock _). { intros tr' [->|Hin]%elem_of_cons; [lia|by apply Htr]. }
  destruct (spec_block _ _ _) as [[[i2 blk] r2]|e|x] eqn:Hb; cycle 1.
  { split; [by intros [? [=]]|]. intros H. destruct (proj2 Hblock); [|done].
    intros tr' Hin Heq. apply H; [done|lia]. }
  { by destruct (spec_block_no_fault _ _ _ _ Hb). }
  clear Hblock. destruct (spec_block_head _ _ _ _ _ _ _ eq_refl Hb) as [blk' Hblk'].
  apply spec_block_Ok in Hb as (Hr & _ & Hblk & Hhead). cbn [mbind Res_bind].
  rewrite Hr in Hasc, Hpre |- *. rewrite Forall_forall in Hblk.
  apply StronglySorted_app in Hasc as (Hbr & _ & Hr2).
  assert (∀ q, q ∈ r2 → tr_Timestamp tr < tr_Timestamp q) as Hlater.
  { assert (tr ∈ blk) as Hin by (rewrite Hblk'; set_solver).
    destruct Hr2 as [|q r2 _ Hq]; [set_solver|]. specialize (Hhead q eq_refl).
    specialize (Hbr tr q Hin ltac:(set_solver)). rewrite Forall_forall in Hq.
    intros q' [->|Hq']%elem_of_cons; [lia|]. specialize (Hq q' Hq'). lia. }
  assert (∀ a, balance_at (pre ++ blk ++ r2) a (tr_Timestamp tr) = sum_of snd (entries a (pre ++ blk)))
    as Hbal.
  { intros a. rewrite app_assoc. apply balance_at_split; [|done]. intros p [Hp|Hp]%elem_of_app.
    - apply Z.lt_le_incl, Hpre; [done|]. rewrite Hblk'. set_solver.
    - destruct (Hblk p Hp). lia. }
  specialize (IH i2 (pre ++ blk) r2). rewrite <-app_assoc in IH. ospecialize (IH _ _ _).
  { apply (f_equal length) in Hr. rewrite Hblk', length_app in Hr. cbn in Hr. lia. }
  { done. }
  { intros p q [Hp|Hp]%elem_of_app Hq; [apply Hpre; set_solver|]. destruct (Hblk p Hp).
    specialize (Hlater q Hq). lia. }
  split.
  - intros [res ([] & Hs & Hw)%bind_Ok]. pose proof (proj1 (spec_settle_Ok _ _ _) Hs) as Hs'.
    intros tr' [Hin|Hin]%elem_of_app Hl'; [|by apply IH; [eexists|..]].
    destruct (Hblk tr' Hin) as [Hts ?]. unfold accepted. rewrite Hts. split; [done|]. intros a Ha. rewrite Hbal. apply Hs'.
    apply list_elem_of_bind. by exists tr'.
  - intros H. rewrite (proj2 (spec_settle_Ok _ _ _)); cbn [mbind Res_bind].
    + apply IH. intros tr' Hin. apply H. set_solver.
    + intros a (tr' & Ha & Hin)%list_elem_of_bind. destruct (Hblk tr' Hin) as [Hts _].
      rewrite <-Hbal, <-Hts. apply H; [set_solver|lia|done].
Qed.

Lemma accepted_history limit h :
  (∀ tr, tr ∈ h → tr_Timestamp tr < limit → accepted h tr) ↔ history_ok limit h.
Proof.
  unfold accepted, history_ok, values_ok, senders_ok, value_error, moved_by, value_of.
  split.
  - intros H. split; intros tr Hin Hl; destruct (H tr Hin Hl) as [Hv Hm].
    + destruct (tr_Value tr) as [v|]; [|done]. destruct (Z.ltb_spec v 0); [done|]. by exists v.
    + intros Hpos Hz. apply Hm. rewrite decide_True by done. by apply list_elem_of_singleton.
  - intros [Hv Hs] tr Hin Hl. destruct (Hv tr Hin Hl) as (v & Hval & Hpos).
    rewrite Hval, (proj2 (Z.ltb_ge v 0)) by done. split; [done|]. intros a Ha.
    case_decide as Hd; [|set_solver]. apply list_elem_of_singleton in Ha as ->.
    destruct Hd. apply Hs; [done..|by rewrite Hval|done].
Qed.

(** A replay over any history: the Holders, or a refusal if it is incomplete. *)
Lemma Replay_total epochID ts xs :
  epoch_ok epochID →
  (history_ok (w_End (WindowOf epochID)) ts ∧
   ∃ hs, Replay epochID ts xs = Ok hs ∧ is_holders epochID ts xs hs) ∨
  (¬ history_ok (w_End (WindowOf epochID)) ts ∧ ∃ e, Replay epochID ts xs = Err e).
Proof.
  intros He. pose proof (Replay_walk epochID ts xs He) as H. cbn zeta in H.
  pose proof (spec_walk_accepts (length (sortedByTimestamp ts)) (w_End (WindowOf epochID)) 0 []
    (sortedByTimestamp ts) ltac:(lia) (sortedByTimestamp_ascending ts) ltac:(set_solver)) as Hacc.
  cbn [app] in Hacc. rewrite accepted_history in Hacc.
  assert (history_ok (w_End (WindowOf epochID)) (sortedByTimestamp ts) ↔
          history_ok (w_End (WindowOf epochID)) ts) as Hp.
  { split; apply history_ok_perm; by rewrite sortedByTimestamp_perm. }
  rewrite Hp in Hacc. destruct (spec_walk _ _ _ _ _) as [res|e|x]; [|right|done].
  - left. split; [|done]. by apply Hacc; eexists.
  - split; [|by eexists]. intros Hok%Hacc. by destruct Hok.
Qed.

(** ** The Ledger between two Epochs *)

(** The state after an Epoch closed: every account's summary is there, nothing is
    said of what an interval accrued. *)
Record Between (pre : list Transfer) (r : replayState) : Prop := {
  btw_core : ∀ a s, r_balances r !! a = Some s → core_ok (entries a pre) s;
  btw_idle : ∀ a s, r_balances r !! a = Some s → s_listed s = false →
             s_balance s = 0 ∧ s_weighted s = 0;
  btw_none : ∀ a, r_balances r !! a = None → entries a pre = [];
  btw_nodup : NoDup (r_active r);
  btw_active : ∀ a, a ∈ r_active r ↔ ∃ s, r_balances r !! a = Some s ∧ s_listed s = true;
  btw_moved : r_moved r = [];
}.

Lemma Between_closed w now pre r r' :
  Inv w now (statement pre) r → r_moved r = [] → closed r r' → Between pre r'.
Proof.
  intros HI Hm (Hw & Ha & Hm' & Hb).
  assert (∀ a s', r_balances r' !! a = Some s' → ∃ s, r_balances r !! a = Some s ∧
            (s' = s ∨ a ∈ r_active r ∧ s' = accrueTo (w_End (r_window r)) s)) as Hsome.
  { intros a s' Hs'. destruct (Hb a) as [Heq|[? Heq]]; rewrite Hs' in Heq; [by eauto|].
    symmetry in Heq. apply fmap_Some in Heq as (s & ? & ->). eauto. }
  split.
  - intros a s' (s & Hs & Heq)%Hsome. destruct (inv_some _ _ _ _ HI a s Hs) as [Hc _].
    destruct Heq as [->|[_ ->]]; [done|by apply core_ok_accrue].
  - intros a s' (s & Hs & Heq)%Hsome Hl. destruct (inv_some _ _ _ _ HI a s Hs) as [_ Hacc].
    unfold accrual_ok in Hacc. destruct Heq as [->|[Hact ->]].
    { rewrite Hl in Hacc. naive_solver. }
    rewrite accrueTo_listed in Hl. apply (inv_active _ _ _ _ HI) in Hact as (? & ? & ?). congruence.
  - intros a Hn. apply (inv_none _ _ _ _ HI). destruct (Hb a) as [Heq|[_ Heq]]; rewrite Hn in Heq; [done|].
    symmetry in Heq. by apply fmap_None in Heq.
  - rewrite Ha. by apply (inv_nodup _ _ _ _ HI).
  - intros a. rewrite Ha, (inv_active _ _ _ _ HI). destruct (Hb a) as [->|[_ ->]]; [done|]. split.
    + intros (s & -> & Hl). eexists. split; [done|]. by rewrite accrueTo_listed.
    + intros (s' & (s & -> & ->)%fmap_Some & Hl). rewrite accrueTo_listed in Hl. by exists s.
  - by rewrite Hm'.
Qed.

(** What [open] makes of a listed standing. *)
Definition opened (w : Window) (s : standing) : standing :=
  mkStanding (s_balance s) (w_Start w) 0 (s_bought s) (s_firstBuyAt s) (s_lastSellAt s)
    (if s_balance s =? 0 then false else s_listed s).

Lemma open_fold w l : ∀ b kept,
  NoDup l → (∀ a, a ∈ l → is_Some (b !! a)) →
  ∃ b' k, foldM (openStep w) l (b, kept) = Ok (b', kept ++ k) ∧ NoDup k ∧
    (∀ a, b' !! a = if decide (a ∈ l) then opened w <$> b !! a else b !! a) ∧
    ∀ a, a ∈ k ↔ a ∈ l ∧ ∃ s, b !! a = Some s ∧ s_balance s ≠ 0.
Proof.
  induction l as [|a l IH]; intros b kept Hnd Hl; cbn [foldM].
  { exists b, []. rewrite app_nil_r. split_and!; [done|constructor|done|set_solver]. }
  apply NoDup_cons in Hnd as [Ha Hnd]. destruct (Hl a ltac:(set_solver)) as [s Hs].
  assert (openStep w (b, kept) a =
          Ok (<[a := opened w s]> b, if s_balance s =? 0 then kept else kept ++ [a])) as ->.
  { unfold openStep. by rewrite Hs. }
  cbn [mbind Res_bind].
  destruct (IH (<[a := opened w s]> b) (if s_balance s =? 0 then kept else kept ++ [a]) Hnd)
    as (b' & k & -> & Hk & Hb' & Hin).
  { intros c Hc. destruct (decide (a = c)) as [<-|]; [by rewrite lookup_insert_eq; eexists|].
    rewrite lookup_insert_ne by done. apply Hl. set_solver. }
  exists b', ((if s_balance s =? 0 then [] else [a]) ++ k). split_and!.
  - destruct (s_balance s =? 0); [done|]. by rewrite <-app_assoc.
  - apply NoDup_app. split_and!; [|intros c|done].
    + destruct (_ =? _); [constructor|apply NoDup_singleton].
    + destruct (_ =? _); [set_solver|]. intros ->%list_elem_of_singleton. naive_solver.
  - intros c. rewrite Hb'. destruct (decide (a = c)) as [<-|Hne].
    + rewrite lookup_insert_eq, Hs, decide_False, decide_True by set_solver. done.
    + rewrite lookup_insert_ne by done.
      by rewrite (decide_ext (c ∈ l) (c ∈ a :: l)) by set_solver.
  - intros c. rewrite elem_of_app, Hin. destruct (decide (a = c)) as [<-|Hne].
    + rewrite Hs. destruct (Z.eqb_spec (s_balance s) 0); set_solver.
    + rewrite lookup_insert_ne by done. destruct (s_balance s =? 0); set_solver.
Qed.

Lemma open_spec w now pre r :
  Between pre r → Forall (λ tr, tr_Timestamp tr ≤ now) pre → now ≤ w_Start w →
  ∃ r', open_ w r = Ok r' ∧ Inv w now (statement pre) r' ∧ r_moved r' = [].
Proof.
  intros [Hc Hi Hn Hnd Hact Hm] Hpre Hnow. unfold open_.
  destruct (open_fold w (r_active r) (r_balances r) [] Hnd) as (b' & k & -> & Hk & Hb' & Hin).
  { intros a (s & ? & _)%Hact. by eexists. }
  cbn [mbind Res_bind app]. eexists. split; [done|]. split; [|done].
  assert (∀ a t, now ≤ t → Forall (λ e, e.1 ≤ t) (entries a pre)) as Hes.
  { intros a t Ht. apply (Forall_entries (λ u, u ≤ t)).
    eapply Forall_impl; [exact Hpre|]. cbn. lia. }
  split; cbn [r_window r_balances r_active r_moved]; [done|by intros; apply Hes|..].
  - intros a s'. rewrite Hb'. case_decide as Ha.
    + intros (s & Hs & ->)%fmap_Some. destruct (Hc a s Hs). split; [by split|].
      apply Hact in Ha as (s2 & Hs2 & Hl). assert (s2 = s) as -> by congruence.
      unfold accrual_ok. cbn. destruct (Z.eqb_spec (s_balance s) 0).
      { split_and!; [done..|by apply Hes]. }
      rewrite Hl, Z.sub_diag. split_and!; [lia|lia|by apply Hes|done].
    + intros Hs. split; [by apply Hc|]. unfold accrual_ok.
      destruct (s_listed s') eqn:Hl; [destruct Ha; apply Hact; eauto|].
      destruct (Hi a s' Hs Hl). split_and!; [done..|by apply Hes].
  - intros a. rewrite Hb'. intros H. apply Hn. case_decide; [by apply fmap_None in H|done].
  - done.
  - intros a. rewrite Hin, Hb'. case_decide as Ha.
    + apply Hact in Ha as Ha'. destruct Ha' as (s & Hs & Hl). rewrite Hs. cbn. split.
      * intros (_ & s2 & [= <-] & Hne). eexists. split; [done|]. cbn.
        by rewrite (proj2 (Z.eqb_neq _ _)).
      * intros (s2 & [= <-] & Hl2). cbn in Hl2. split; [done|]. eexists. split; [done|].
        destruct (Z.eqb_spec (s_balance s) 0); [done|lia].
    + split; [by intros []|]. intros (s & Hs & Hl). destruct Ha. apply Hact. eauto.
Qed.

(** The Ledger that has closed every Epoch before [floor]. *)
Record LInv (ts : list Transfer) (xs : list Exclusion) (floor now : Z) (l : Ledger)
    (pre rest : list Transfer) : Prop := {
  li_ordered : l_ordered l = sortedByTimestamp ts;
  li_split : l_ordered l = pre ++ rest;
  li_next : l_next l = length pre;
  li_exclusions : l_exclusions l = xs;
  li_failed : l_failed l = None;
  li_floor : l_floor l = floor ∧ 0 ≤ floor;
  li_now : now ≤ EpochSeconds * floor;
  li_pre : Forall (λ tr, tr_Timestamp tr ≤ now) pre;
  li_rest : ∀ tr, tr ∈ rest → now ≤ tr_Timestamp tr;
  li_state : Between pre (l_state l);
  li_resume : ∀ limit, EpochSeconds * floor ≤ limit →
    spec_walk (length (l_ordered l)) limit 0 [] (l_ordered l) =
    spec_walk (length rest) limit (length pre) pre rest;
}.

Lemma NewLedger_LInv ts xs : ∃ now, LInv ts xs 0 now (NewLedger ts xs) [] (sortedByTimestamp ts).
Proof.
  exists (Z.min (default 0 (min_of (tr_Timestamp <$> sortedByTimestamp ts))) 0).
  split; cbn; try done; [lia|..].
  - intros tr Htr. destruct (min_of _) as [m|] eqn:Hm; cbn.
    + apply min_of_spec in Hm as [_ Hm].
      specialize (Hm (tr_Timestamp tr) ltac:(by apply list_elem_of_fmap_2)). lia.
    + apply min_of_None, fmap_nil_inv in Hm. by rewrite Hm in Htr; apply elem_of_nil in Htr.
  - split; cbn; [done|done|done|constructor| |done].
    intros a. split; [by intros ?%elem_of_nil|]. intros (s & H & _). by rewrite lookup_empty in H.
Qed.

Lemma Advance_spec ts xs floor now l pre rest epochID :
  LInv ts xs floor now l pre rest → epoch_ok epochID → floor ≤ epochID →
  match Replay epochID ts xs with
  | Ok hs => ∃ l' now' pre' rest',
      Advance l epochID = (Ok hs, l') ∧ LInv ts xs (epochID + 1) now' l' pre' rest'
  | Err e => ∃ l', Advance l epochID = (Err e, l') ∧ l_failed l' = Some e ∧
      ∀ later, epochID ≤ later → epoch_ok later → Replay later ts xs = Err e
  | Fault _ => False
  end.
Proof.
  intros HI He Hfl. pose proof HI as [Ho Hsplit Hn Hx Hf [Hfloor Hfloor0] Hnow Hpre Hrest Hst Hres].
  pose proof (WindowOf_ok epochID He) as HwE.
  assert (EpochSeconds * floor ≤ w_Start (WindowOf epochID)) as HwS.
  { rewrite HwE. unfold EpochSeconds. cbn. lia. }
  assert (w_End (WindowOf epochID) = EpochSeconds * (epochID + 1)) as HwEnd by by rewrite HwE.
  pose proof (Replay_walk epochID ts xs He) as HR. cbn zeta in HR.
  rewrite <-Ho, Hres in HR by (rewrite HwEnd; unfold EpochSeconds in *; lia).
  destruct (open_spec (WindowOf epochID) now pre (l_state l) Hst Hpre) as (r & Hopen & HInv & Hm); [lia|].
  assert (ascending (pre ++ rest)) as Hasc by (rewrite <-Hsplit, Ho; apply sortedByTimestamp_ascending).
  pose proof (walk_holders epochID xs (length rest) now pre r (length pre) rest He HInv Hm Hasc) as HW.
  ospecialize (HW _ Hrest _).
  { eapply Forall_impl; [exact Hpre|]. rewrite HwEnd. unfold EpochSeconds in *. cbn. lia. }
  { rewrite HwEnd. unfold EpochSeconds in *. lia. }
  unfold Advance. rewrite Hf, Hfloor, (proj2 (Z.ltb_ge epochID floor)), Hn, Hsplit, drop_app_length, Hopen by lia.
  cbn [mbind Res_bind].
  destruct (spec_walk _ _ _ pre rest) as [[[i' pre'] rest']|e|x] eqn:Hsw; [| |done].
  - destruct HR as (hs & -> & His). destruct HW as (r' & r'' & hs' & -> & Hh & His' & [now' HI'] & Hcl & Hm').
    rewrite Hx, Hh. rewrite <-Hsplit, Ho in His'.
    assert (hs' = hs) as ->.
    { eapply is_holders_unique; [|exact His]. eapply is_holders_perm; [|exact His'].
      apply sortedByTimestamp_perm. }
    pose proof (spec_walk_index _ _ _ _ _ _ _ _ Hsw) as Hidx.
    pose proof Hsw as Hsw'. apply spec_walk_split in Hsw' as (dn & -> & -> & Hd & Hr);
      [|by apply StronglySorted_app_1_r in Hasc].
    rewrite HwEnd in Hd, Hr.
    eexists _, (EpochSeconds * (epochID + 1) - 1), (pre ++ dn), rest'. split; [done|].
    unfold epoch_ok, EpochSeconds in *. rewrite u64_id by (unfold is_u64; lia).
    split; cbn [l_ordered l_exclusions l_next l_state l_floor l_failed]; try done; try lia.
    + by rewrite <-Hsplit.
    + by rewrite app_assoc.
    + unfold EpochSeconds. lia.
    + apply Forall_app. split; eapply Forall_impl; [exact Hpre| |exact Hd|]; cbn; lia.
    + rewrite Forall_forall in Hr. intros tr Htr. specialize (Hr tr Htr). lia.
    + by eapply Between_closed.
    + intros limit Hlim. unfold EpochSeconds in Hlim. rewrite <-Hsplit, Hres by lia.
      rewrite (spec_walk_resume _ (w_End (WindowOf epochID)) limit _ _ _ i' (pre ++ dn) rest'); [|lia..|done].
      f_equal. lia.
  - rewrite HR, HW. eexists. split; [done|]. split; [done|].
    intros later Hle Hlater. pose proof (Replay_walk later ts xs Hlater) as HL. cbn zeta in HL.
    pose proof (WindowOf_ok later Hlater) as HwL.
    rewrite <-Ho, Hres in HL by (rewrite HwL; unfold EpochSeconds in *; cbn; lia).
    rewrite (spec_walk_Err_later _ (w_End (WindowOf epochID)) _ _ _ _ e) in HL; [done| |done].
    rewrite HwEnd, HwL. unfold EpochSeconds. cbn. lia.
Qed.

(** The answers of a Ledger advanced through a list of Epochs. *)
Fixpoint advances (l : Ledger) (es : list Z) : list (Res twabError (list Holder)) :=
  match es with
  | [] => []
  | e :: es => let '(r, l') := Advance l e in r :: advances l' es
  end.

Lemma advances_failed l err es :
  l_failed l = Some err → advances l es = (λ _, Err err) <$> es.
Proof.
  intros Hf. induction es as [|e es IH]; [done|]. cbn. unfold Advance at 1. rewrite Hf. by f_equal.
Qed.

Lemma advances_spec ts xs floor now l pre rest es :
  LInv ts xs floor now l pre rest → StronglySorted Z.lt es → Forall epoch_ok es →
  Forall (Z.le floor) es → advances l es = (λ e, Replay e ts xs) <$> es.
Proof.
  intros HI Hs. revert floor now l pre rest HI.
  induction Hs as [|e es Hs IH He]; intros floor now l pre rest HI Hok Hfl; [done|].
  apply Forall_cons in Hok as [Hek Hok]. apply Forall_cons in Hfl as [Hef _].
  pose proof (Advance_spec _ _ _ _ _ _ _ e HI Hek Hef) as HA. cbn [advances].
  rewrite fmap_cons. destruct (Replay e ts xs) as [hs|err|x] eqn:HR; [| |done].
  - destruct HA as (l' & now' & pre' & rest' & -> & HI'). f_equal. eapply IH; [exact HI'|done|].
    eapply Forall_impl; [exact He|]. cbn. lia.
  - destruct HA as (l' & -> & Hf & Hlater). f_equal. rewrite (advances_failed _ err) by done.
    apply list_fmap_ext. intros i e' Hi%list_elem_of_lookup_2. symmetry.
    rewrite Forall_forall in He, Hok. apply Hlater; [|by apply Hok]. specialize (He e' Hi). lia.
Qed.
