(* ===== verification/Alloc.v ===== *)
(** * internal/alloc: from Holders to the Allocations of a Root

    [streak.go] and [compute.go]. [Funded] and [CarryIn] are [*big.Int]s that may
    be nil; the amounts of an [Allocation] are nil only between [weigh] and the
    loop that fills them, before anything reads them, so [weigh] yields rows
    without amounts and [fillRow] makes the Allocation. *)
From S2P Require Import Prelude Sorts Bytes Text Merkle Twab.

(** ** streak.go *)

Definition secondsPerDay : Z := 86400.
Definition StreakWeek : Z := 7.
Definition StreakMonth : Z := 30.
Definition MultBpsBase : Z := 10000.
Definition MultBpsWeek : Z := 12500.
Definition MultBpsMonth : Z := 15000.

(** [/] on int64 truncates. *)
Definition StreakDays (window : Window) (holder : Holder) : Z :=
  let since := h_FirstBuyAt holder in
  let since := if since <? h_LastSellAt holder then h_LastSellAt holder else since in
  Z.quot (i64 (w_End window - since)) secondsPerDay.

Definition MultBps (streakDays : Z) : Z :=
  if StreakMonth <=? streakDays then MultBpsMonth
  else if StreakWeek <=? streakDays then MultBpsWeek
  else MultBpsBase.

(** ** compute.go: data *)

Record Params := mkParams {
  p_EpochID : Z;
  p_Transfers : list Transfer;
  p_Exclusions : list Exclusion;
  p_DevWallet : Address;
  p_Funded : vec (option Z) 5;
  p_CarryIn : vec (option Z) 5;
}.

Record Allocation := mkAllocation {
  a_Account : Address;
  a_TWAB : Z;
  a_MultBps : Z;
  a_Weight : Z;
  a_Amounts : vec Z 5;
}.

Record Result := mkResult {
  res_Allocations : list Allocation;
  res_Totals : vec Z 5;
  res_CarryOut : vec Z 5;
  res_TotalWeight : Z;
  res_Tree : option Tree;
  res_Root : Hash;
  res_HasRoot : bool;
}.

Inductive allocError :=
  | errNilAmount
  | errNegativeAmount
  | errFunded (t : nat) (cause : allocError)
  | errCarryIn (t : nat) (cause : allocError)
  | errEpoch (epochID : Z) (cause : merkleError)
  | errReplay (cause : twabError).

(** ** compute.go: operations *)

(** The amount, if [checkAmount] accepts it. *)
Definition checkAmount (x : option Z) : Res allocError Z :=
  match x with
  | None => Err errNilAmount
  | Some x => if x <? 0 then Err errNegativeAmount else Ok x
  end.

(** One turn of the loop of [base]. *)
Definition baseStep (t : nat) (x : option Z * option Z) : Res allocError Z :=
  f ← wrap (errFunded t) (checkAmount x.1);
  c ← wrap (errCarryIn t) (checkAmount x.2);
  mret (f + c).

(** [Params.base]. *)
Definition base (p : Params) : Res allocError (vec Z 5) :=
  vtraverseI baseStep 0 (vzip_with pair (p_Funded p) (p_CarryIn p)).

Definition isEmpty (amounts : vec Z 5) : bool := forallb (Z.eqb 0) (vec_to_list amounts).

(** An Allocation whose amounts are still nil. *)
Record row := mkRow { w_Account : Address; w_TWAB : Z; w_MultBps : Z; w_Weight : Z }.

(** One turn of the loop of [weigh]. *)
Definition weighHolder (p : Params) (h : Holder) : row :=
  let window := WindowOf (p_EpochID p) in
  let multBps := MultBps (StreakDays window h) in
  let multBps := if decide (h_Account h = p_DevWallet p) then MultBpsBase else multBps in
  mkRow (h_Account h) (h_TWAB h) multBps (h_TWAB h * multBps).

(** [Params.weigh], with the total it accumulates. *)
Definition weigh (p : Params) (holders : list Holder) (totalWeight : Z) : list row * Z :=
  foldl (λ '(rows, total) h,
           let r := weighHolder p h in (rows ++ [r], total + w_Weight r))
    ([], totalWeight) holders.

(** The amounts of one row: [Quo] panics on a zero divisor. *)
Definition fillRow (base : vec Z 5) (totalWeight : Z) (r : row) : Res allocError Allocation :=
  or_panic (negb (totalWeight =? 0))
    (mkAllocation (w_Account r) (w_TWAB r) (w_MultBps r) (w_Weight r)
       (vmap (λ b, Z.quot (b * w_Weight r) totalWeight) base)).

(** One turn of the omission loop. *)
Definition keepRow (st : list Allocation * vec Z 5) (a : Allocation) : list Allocation * vec Z 5 :=
  let '(kept, totals) := st in
  if isEmpty (a_Amounts a) then (kept, totals)
  else (kept ++ [a], vzip_with Z.add totals (a_Amounts a)).

(** [Result.claims]. *)
Definition claims (epochID : Z) (allocations : list Allocation) : list Claim :=
  (λ a, mkClaim (Some epochID) (a_Account a) (vmap Some (a_Amounts a))) <$> allocations.

Section compute.
Context (keccak256 : list byte → Hash).

Definition Allocate (p : Params) (holders : list Holder) : Res allocError Result :=
  base ← base p;
  let '(rows, totalWeight) := weigh p holders 0 in
  weighted ← traverse (fillRow base totalWeight) rows;
  let '(allocations, totals) := foldl keepRow ([], vreplicate 5 0) weighted in
  let carryOut := vzip_with Z.sub base totals in
  match allocations with
  | [] => mret (mkResult [] totals carryOut totalWeight None zeroHash false)
  | _ =>
      tree ← wrap (errEpoch (p_EpochID p)) (New keccak256 (claims (p_EpochID p) allocations));
      root ← wrap (errEpoch (p_EpochID p)) (Root tree);
      mret (mkResult allocations totals carryOut totalWeight (Some tree) root true)
  end.

Definition Compute (p : Params) : Res allocError Result :=
  holders ← wrap errReplay (Replay (p_EpochID p) (p_Transfers p) (p_Exclusions p));
  Allocate p holders.
End compute.
