(* ===== verification/AllocSpec.v ===== *)
(** * The allocation rules, and Allocate against them

    Spec section 5 in its own numbers: funding and Carry, Multipliers, weights, the floor
    of the pro rata share, omission. [Allocate_eq] reduces [Allocate] to the same over
    the code's weights and bases, and [allocations_rule] those to the rules. *)
From S2P Require Import Prelude Sorts Bytes Text Merkle MerkleEncode MerkleTree Twab TwabSpec Alloc.

(** ** The rules of spec section 5 *)

(** What an Epoch has to give of a token: the funding and the Carry from before. *)
Definition funding (p : Params) (t : fin 5) : Z :=
  default 0 (p_Funded p !!! t) + default 0 (p_CarryIn p !!! t).

(** Funding and Carry are there for each token, and not negative. *)
Definition funded (p : Params) : Prop :=
  ∀ t : fin 5, (∃ f, p_Funded p !!! t = Some f ∧ 0 ≤ f) ∧ (∃ c, p_CarryIn p !!! t = Some c ∧ 0 ≤ c).

(** In basis points: 1.5 for holding 30 days up to the Epoch's end without selling, 1.25
    for 7, else 1; the dev wallet always 1. *)
Definition multiplier (p : Params) (h : Holder) : Z :=
  let held := 3600 * (p_EpochID p + 1) - Z.max (h_FirstBuyAt h) (h_LastSellAt h) in
  if decide (h_Account h = p_DevWallet p) then 10000
  else if decide (30 * 86400 ≤ held) then 15000
  else if decide (7 * 86400 ≤ held) then 12500
  else 10000.

Definition rule_weight (p : Params) (h : Holder) : Z := h_TWAB h * multiplier p h.
Definition rule_total (p : Params) (hs : list Holder) : Z := sum_of (rule_weight p) hs.

(** What a Holder is owed: of each token the floor of its pro rata share. *)
Definition owed (p : Params) (hs : list Holder) (h : Holder) : Allocation :=
  mkAllocation (h_Account h) (h_TWAB h) (multiplier p h) (rule_weight p h)
    (fun_to_vec (λ t, funding p t * rule_weight p h / rule_total p hs)).

(** Only who is owed something has an Allocation. *)
Definition earns (a : Allocation) : Prop := Exists (λ x, x ≠ 0) (vec_to_list (a_Amounts a)).
#[global] Instance earns_dec a : Decision (earns a).
Proof. unfold earns. apply _. Defined.

(** A Holder with a share, whose times are those of Unix seconds in an int64. *)
Definition holder_ok (h : Holder) : Prop :=
  0 < h_TWAB h ∧ 0 ≤ h_FirstBuyAt h < 2 ^ 63 ∧ 0 ≤ h_LastSellAt h < 2 ^ 63.

(** ** The same, over the code's weights and bases *)

Definition weight (p : Params) (h : Holder) : Z := w_Weight (weighHolder p h).
Definition total_weight (p : Params) (hs : list Holder) : Z := sum_of (weight p) hs.

(** What a Holder is owed: [floor(base[t] * weight / W)] of each token. *)
Definition alloc_of (p : Params) (b : vec Z 5) (hs : list Holder) (h : Holder) : Allocation :=
  let r := weighHolder p h in
  mkAllocation (w_Account r) (w_TWAB r) (w_MultBps r) (w_Weight r)
    (vmap (λ x, x * weight p h / total_weight p hs) b).

(** Omission: a Holder is left out when all five of its amounts are zero. *)
Definition kept (a : Allocation) : Prop := isEmpty (a_Amounts a) = false.
#[global] Instance kept_dec a : Decision (kept a).
Proof. unfold kept. apply _. Defined.

Definition allocations_of (p : Params) (b : vec Z 5) (hs : list Holder) : list Allocation :=
  filter kept (alloc_of p b hs <$> hs).

(** What [Replay] promises of its Holders. *)
Definition holders_ok (hs : list Holder) : Prop := Forall (λ h, 0 < h_TWAB h) hs.

(** Funding and Carry that are there and not negative. *)
Definition funding_ok (p : Params) (b : vec Z 5) : Prop :=
  ∀ t : fin 5, ∃ f c, p_Funded p !!! t = Some f ∧ p_CarryIn p !!! t = Some c ∧
    0 ≤ f ∧ 0 ≤ c ∧ b !!! t = f + c.

(** ** Lemmas *)

Lemma checkAmount_Ok x z : checkAmount x = Ok z ↔ x = Some z ∧ 0 ≤ z.
Proof.
  unfold checkAmount. destruct x as [y|]; [|naive_solver].
  destruct (Z.ltb_spec y 0).
  - split; [done|]. intros [[= <-] ?]. lia.
  - split; [by intros [= <-]|]. by intros [[= <-] _].
Qed.

Lemma base_Ok p b : base p = Ok b ↔ funding_ok p b.
Proof.
  unfold base. rewrite vtraverseI_Ok. unfold funding_ok.
  assert (∀ t i, baseStep i (vzip_with pair (p_Funded p) (p_CarryIn p) !!! t) = Ok (b !!! t) ↔
    ∃ f c, p_Funded p !!! t = Some f ∧ p_CarryIn p !!! t = Some c ∧ 0 ≤ f ∧ 0 ≤ c ∧ b !!! t = f + c) as H.
  { intros t i. rewrite vlookup_zip_with. unfold baseStep. cbn [fst snd].
    rewrite bind_Ok. setoid_rewrite bind_Ok. setoid_rewrite wrap_Ok. setoid_rewrite checkAmount_Ok. split.
    - intros (f & [? ?] & c & [? ?] & [= <-]). by exists f, c.
    - intros (f & c & ? & ? & ? & ? & ->). exists f. split; [done|]. by exists c. }
  setoid_rewrite H. done.
Qed.

Lemma funding_nonneg p b t : funding_ok p b → 0 ≤ b !!! t.
Proof. intros H. destruct (H t) as (f & c & _ & _ & ? & ? & ->). lia. Qed.

Lemma MultBps_range d : MultBpsBase ≤ MultBps d ≤ MultBpsMonth.
Proof. unfold MultBps, MultBpsBase, MultBpsWeek, MultBpsMonth. repeat case_match; lia. Qed.

Lemma weighHolder_mult p h :
  MultBpsBase ≤ w_MultBps (weighHolder p h) ≤ MultBpsMonth.
Proof.
  unfold weighHolder. cbn. case_decide; [unfold MultBpsBase, MultBpsMonth; lia|apply MultBps_range].
Qed.

Lemma weight_eq p h : weight p h = h_TWAB h * w_MultBps (weighHolder p h).
Proof. done. Qed.

Lemma weight_pos p h : 0 < h_TWAB h → 0 < weight p h.
Proof.
  intros. rewrite weight_eq. pose proof (weighHolder_mult p h). unfold MultBpsBase in *. nia.
Qed.

Lemma total_weight_nonneg p hs : holders_ok hs → 0 ≤ total_weight p hs.
Proof.
  intros Hh. apply sum_of_nonneg. intros h Hin. apply Z.lt_le_incl, weight_pos.
  unfold holders_ok in Hh. rewrite Forall_forall in Hh. by apply Hh.
Qed.

Lemma total_weight_pos p hs h : holders_ok hs → h ∈ hs → 0 < weight p h ≤ total_weight p hs.
Proof.
  intros Hh Hin. unfold holders_ok in Hh. rewrite Forall_forall in Hh. split; [by apply weight_pos, Hh|].
  apply (sum_of_elem_le (weight p)); [|done]. intros y Hy. by apply Z.lt_le_incl, weight_pos, Hh.
Qed.

Lemma weigh_eq p hs W :
  weigh p hs W = (weighHolder p <$> hs, W + total_weight p hs).
Proof.
  unfold weigh, total_weight.
  enough (∀ acc W, foldl (λ '(rows, total) h, let r := weighHolder p h in (rows ++ [r], total + w_Weight r))
    (acc, W) hs = (acc ++ (weighHolder p <$> hs), W + sum_of (weight p) hs)) as H by apply (H []).
  clear W. induction hs as [|h hs IH]; intros acc W; cbn [foldl].
  { by rewrite app_nil_r, Z.add_0_r. }
  rewrite IH, fmap_cons, <-app_assoc, sum_of_cons. f_equal. unfold weight. lia.
Qed.

Lemma fillRow_eq p b hs h :
  holders_ok hs → h ∈ hs → (∀ t, 0 ≤ b !!! t) →
  fillRow b (total_weight p hs) (weighHolder p h) = Ok (alloc_of p b hs h).
Proof.
  intros Hh Hin Hb. pose proof (total_weight_pos p hs h Hh Hin) as HW. unfold fillRow, alloc_of.
  rewrite (proj2 (Z.eqb_neq _ 0)) by lia. cbn [negb or_panic]. do 2 f_equal.
  apply vec_eq. intros t. rewrite !vlookup_map. apply Z.quot_div_nonneg; [|lia].
  apply Z.mul_nonneg_nonneg; [done|]. fold (weight p h). lia.
Qed.

Lemma traverse_fillRow p b hs :
  holders_ok hs → (∀ t, 0 ≤ b !!! t) →
  traverse (fillRow b (total_weight p hs)) (weighHolder p <$> hs) = Ok (alloc_of p b hs <$> hs).
Proof.
  intros Hh Hb. apply traverse_Ok. apply Forall2_fmap, Forall_Forall2_diag, Forall_forall.
  intros h Hin. by apply fillRow_eq.
Qed.

Lemma isEmpty_true v : isEmpty v = true ↔ ∀ t : fin 5, v !!! t = 0.
Proof.
  unfold isEmpty. rewrite forallb_forall. setoid_rewrite Z.eqb_eq. split.
  - intros H t. symmetry. apply H, list_elem_of_In, elem_of_vlookup. by exists t.
  - intros H x Hx%list_elem_of_In. apply elem_of_vlookup in Hx as [t <-]. by rewrite H.
Qed.

Lemma keepRow_fold l k0 t0 :
  ∃ totals, foldl keepRow (k0, t0) l = (k0 ++ filter kept l, totals) ∧
    ∀ t, totals !!! t = t0 !!! t + sum_of (λ a, a_Amounts a !!! t) l.
Proof.
  revert k0 t0. induction l as [|a l IH]; intros k0 t0; cbn [foldl].
  { exists t0. rewrite app_nil_r. split; [done|]. intros t. cbn. lia. }
  rewrite filter_cons. unfold keepRow at 2. destruct (decide (kept a)) as [Hk|Hk]; unfold kept in Hk.
  2: apply not_false_is_true in Hk.
  all: rewrite Hk; cycle 1.
  - destruct (IH k0 t0) as (totals & -> & Ht). exists totals. split; [done|].
    intros t. rewrite Ht, sum_of_cons, (proj1 (isEmpty_true _) Hk t). lia.
  - destruct (IH (k0 ++ [a]) (vzip_with Z.add t0 (a_Amounts a))) as (totals & -> & Ht).
    exists totals. split; [cbn; by rewrite <-app_assoc|].
    intros t. rewrite Ht, sum_of_cons, vlookup_zip_with. lia.
Qed.

(** Omitted rows carry nothing, so the sums over all Holders and over the tree's
    Allocations agree. *)
Lemma kept_sum l t : sum_of (λ a, a_Amounts a !!! t) (filter kept l) = sum_of (λ a, a_Amounts a !!! t) l.
Proof.
  apply sum_of_filter. intros a _ Hk. unfold kept in Hk. apply not_false_is_true in Hk.
  by apply (proj1 (isEmpty_true _) Hk).
Qed.

Section allocate.
Context (keccak256 : list byte → Hash) (p : Params) (b : vec Z 5) (hs : list Holder).
Hypothesis Hb : base p = Ok b.
Hypothesis Hh : holders_ok hs.

Lemma base_nonneg t : 0 ≤ b !!! t.
Proof using Hb. apply base_Ok in Hb. by apply (funding_nonneg p). Qed.

(** [Allocate], with the loops replaced by the rules. *)
Lemma Allocate_eq :
  ∃ totals, (∀ t, totals !!! t = sum_of (λ a, a_Amounts a !!! t) (allocations_of p b hs)) ∧
  Allocate keccak256 p hs =
  match allocations_of p b hs with
  | [] => Ok (mkResult [] totals (vzip_with Z.sub b totals) (total_weight p hs) None zeroHash false)
  | _ =>
      tree ← wrap (errEpoch (p_EpochID p)) (New keccak256 (claims (p_EpochID p) (allocations_of p b hs)));
      root ← wrap (errEpoch (p_EpochID p)) (Root tree);
      mret (mkResult (allocations_of p b hs) totals (vzip_with Z.sub b totals) (total_weight p hs)
              (Some tree) root true)
  end.
Proof using Hb Hh.
  destruct (keepRow_fold (alloc_of p b hs <$> hs) [] (vreplicate 5 0)) as (totals & Hk & Ht).
  exists totals. split.
  { intros t. rewrite Ht, vlookup_replicate, Z.add_0_l. unfold allocations_of. by rewrite kept_sum. }
  unfold Allocate. rewrite Hb. cbn [mbind Res_bind]. rewrite weigh_eq, Z.add_0_l.
  rewrite traverse_fillRow by (first [done|apply base_nonneg]). cbn [mbind Res_bind]. rewrite Hk. cbn [app].
  done.
Qed.

Lemma Allocate_inv r :
  Allocate keccak256 p hs = Ok r →
  res_Allocations r = allocations_of p b hs ∧ res_TotalWeight r = total_weight p hs ∧
  (∀ t, res_Totals r !!! t = sum_of (λ a, a_Amounts a !!! t) (allocations_of p b hs)) ∧
  (∀ t, res_CarryOut r !!! t = b !!! t - res_Totals r !!! t) ∧
  (res_HasRoot r = true ↔ allocations_of p b hs ≠ []) ∧
  (if res_HasRoot r then ∃ tree, res_Tree r = Some tree ∧ Root tree = Ok (res_Root r) ∧
     New keccak256 (claims (p_EpochID p) (allocations_of p b hs)) = Ok tree
   else res_Tree r = None ∧ res_Root r = zeroHash).
Proof using Hb Hh.
  destruct Allocate_eq as (totals & Ht & ->). destruct (allocations_of p b hs) as [|a l] eqn:Ha.
  - intros [= <-]. cbn. split_and!; try done. intros t. by rewrite vlookup_zip_with.
  - intros (tree & HN & (root & Hr & [= <-])%bind_Ok)%bind_Ok. rewrite wrap_Ok in HN. rewrite wrap_Ok in Hr.
    cbn. split_and!; try done; [intros t; by rewrite vlookup_zip_with|by exists tree].
Qed.

(** One Holder's amount of one token. *)
Lemma alloc_of_bounds h t :
  h ∈ hs → let x := a_Amounts (alloc_of p b hs h) !!! t in
  0 ≤ x ≤ b !!! t ∧ x * total_weight p hs ≤ b !!! t * weight p h < (x + 1) * total_weight p hs.
Proof using Hb Hh.
  intros Hin x. pose proof (total_weight_pos p hs h Hh Hin) as HW. pose proof (base_nonneg t) as Hbt.
  unfold x, alloc_of. cbn [a_Amounts]. rewrite vlookup_map.
  set (N := b !!! t * weight p h). set (W := total_weight p hs) in *.
  pose proof (Z.div_mod N W ltac:(lia)). pose proof (Z.mod_pos_bound N W ltac:(lia)).
  split; [split|nia].
  - apply Z.div_pos; [unfold N; nia|lia].
  - apply Z.div_le_upper_bound; [lia|]. unfold N. nia.
Qed.

(** The sum of the floors: at most the base, and short of it by less than one unit
    per Holder. *)
Lemma totals_bounds t :
  let S := sum_of (λ a, a_Amounts a !!! t) (allocations_of p b hs) in
  0 ≤ S ≤ b !!! t ∧ (hs ≠ [] → b !!! t - S < Z.of_nat (length hs)).
Proof using Hb Hh.
  cbn zeta. unfold allocations_of. rewrite kept_sum, sum_of_fmap. cbn [alloc_of a_Amounts].
  rewrite (sum_of_ext _ (λ h, b !!! t * weight p h / total_weight p hs))
    by (intros h _; by rewrite vlookup_map).
  pose proof (base_nonneg t) as Hbt.
  destruct (decide (hs = [])) as [->|Hne]; [cbn [sum_of foldr]; split; [lia|done]|].
  assert (0 < total_weight p hs) as HW.
  { destruct hs as [|h l]; [done|]. pose proof (total_weight_pos p (h :: l) h Hh ltac:(set_solver)). lia. }
  assert (sum_of (λ h, b !!! t * weight p h) hs = b !!! t * total_weight p hs) as Hsum
    by apply (sum_of_mul_l (b !!! t) (weight p)).
  pose proof (sum_of_div_bounds (λ h, b !!! t * weight p h) (total_weight p hs) hs HW) as [Hlo Hhi].
  rewrite Hsum in Hlo, Hhi.
  set (S := sum_of _ hs) in *. set (W := total_weight p hs) in *.
  assert (0 < Z.of_nat (length hs)) by (destruct hs; [done|cbn; lia]).
  split; [split|intros _; nia].
  - apply sum_of_nonneg. intros h Hin. pose proof (total_weight_pos p hs h Hh Hin).
    apply Z.div_pos; [nia|lia].
  - nia.
Qed.

Lemma claims_accepted :
  is_u64 (p_EpochID p) → (∀ t, b !!! t < 2 ^ 256) →
  Forall claim_ok (claims (p_EpochID p) (allocations_of p b hs)).
Proof using Hb Hh.
  intros [Hid Hid'] Hlt. apply Forall_forall. intros c (a & -> & Ha)%list_elem_of_fmap.
  apply list_elem_of_filter in Ha as [_ (h & -> & Hin)%list_elem_of_fmap]. split; cbn [c_ID c_Amounts].
  { exists (p_EpochID p). split; [done|]. lia. }
  apply Forall_forall. intros x [t <-]%elem_of_vlookup. rewrite vlookup_map.
  eexists. split; [done|]. pose proof (alloc_of_bounds h t Hin) as [? _]. specialize (Hlt t). lia.
Qed.

Lemma Allocate_Ok :
  is_u64 (p_EpochID p) → (∀ t, b !!! t < 2 ^ 256) → is_Ok (Allocate keccak256 p hs).
Proof using Hb Hh.
  intros Hid Hlt. destruct Allocate_eq as (totals & Ht & ->).
  pose proof (claims_accepted Hid Hlt) as Hok.
  destruct (allocations_of p b hs) as [|a l] eqn:Ha; [by eexists|].
  destruct (New_Ok keccak256 (claims (p_EpochID p) (a :: l))) as (tree & -> & Hheap & _); [done..|].
  cbn [wrap mbind Res_bind].
  destruct (lookup_lt_is_Some_2 (t_nodes tree) 0) as [root Hr].
  { rewrite (ho_nodes _ _ Hheap). pose proof (ho_some _ _ Hheap). destruct (t_encoded tree); [done|cbn; lia]. }
  unfold Root, index. rewrite Hr. by eexists.
Qed.
End allocate.

(** ** The rules and the code's weights *)

Lemma funding_base p b : base p = Ok b → funded p ∧ ∀ t, b !!! t = funding p t.
Proof.
  rewrite base_Ok. intros H. split; intros t; destruct (H t) as (f & c & Hf & Hc & ? & ? & Hbt).
  - split; [by exists f|by exists c].
  - unfold funding. by rewrite Hf, Hc.
Qed.

Lemma base_funded p : funded p → ∃ b, base p = Ok b.
Proof.
  intros H. exists (fun_to_vec (funding p)). apply base_Ok. intros t. destruct (H t) as [(f & Hf & ?) (c & Hc & ?)].
  exists f, c. rewrite lookup_fun_to_vec. unfold funding. by rewrite Hf, Hc.
Qed.

Lemma base_unfunded p : ¬ funded p → ∃ e, base p = Err e.
Proof.
  intros H. destruct (base p) as [b|e|x] eqn:E; [by apply funding_base in E as [? _]|by exists e|].
  assert (no_fault (base p)) as Hn by (unfold base, baseStep, checkAmount; solve_faults). by apply Hn in E.
Qed.

Lemma Allocate_funded keccak256 p hs r : Allocate keccak256 p hs = Ok r →
  ∃ b, base p = Ok b ∧ funded p ∧ ∀ t, b !!! t = funding p t.
Proof. unfold Allocate. intros (b & Hb & _)%bind_Ok. exists b. split; [done|]. by apply funding_base. Qed.

Lemma multiplier_rule p h : epoch_ok (p_EpochID p) → holder_ok h → w_MultBps (weighHolder p h) = multiplier p h.
Proof.
  intros He (_ & Hf & Hl). pose proof (WindowOf_ok _ He) as Hw. unfold weighHolder, multiplier. cbn [w_MultBps].
  destruct (decide (h_Account h = p_DevWallet p)); [done|].
  set (held := 3600 * (p_EpochID p + 1) - Z.max (h_FirstBuyAt h) (h_LastSellAt h)).
  assert (StreakDays (WindowOf (p_EpochID p)) h = Z.quot held 86400) as ->.
  { unfold StreakDays, secondsPerDay. replace (if _ <? _ then _ else _)
      with (Z.max (h_FirstBuyAt h) (h_LastSellAt h)) by (destruct (Z.ltb_spec (h_FirstBuyAt h) (h_LastSellAt h)); lia).
    rewrite Hw. cbn [w_End]. fold EpochSeconds held. unfold epoch_ok, EpochSeconds in *. rewrite i64_id by (unfold is_i64; lia). done. }
  unfold MultBps, StreakMonth, StreakWeek, MultBpsMonth, MultBpsWeek, MultBpsBase.
  clearbody held. destruct (Z.leb_spec 30 (Z.quot held 86400)), (Z.leb_spec 7 (Z.quot held 86400));
    repeat case_decide; first [done|Z.to_euclidean_division_equations; lia].
Qed.

Section rules.
Context (p : Params) (b : vec Z 5) (hs : list Holder).
Context (He : epoch_ok (p_EpochID p)) (Hb : ∀ t, b !!! t = funding p t) (Hh : Forall holder_ok hs).

Lemma holders_rule : holders_ok hs.
Proof using Hh. eapply Forall_impl; [exact Hh|]. by intros h (? & _). Qed.

Lemma weight_rule h : h ∈ hs → weight p h = rule_weight p h.
Proof using He Hh.
  intros Hin. rewrite weight_eq. unfold rule_weight. f_equal. apply multiplier_rule; [done|]. by eapply Forall_forall in Hin.
Qed.

Lemma total_rule : total_weight p hs = rule_total p hs.
Proof using He Hh. apply sum_of_ext. intros h. apply weight_rule. Qed.

Lemma owed_rule h : h ∈ hs → alloc_of p b hs h = owed p hs h.
Proof using He Hb Hh.
  intros Hin. unfold alloc_of, owed. rewrite <-(weight_rule h Hin), <-total_rule.
  rewrite <-multiplier_rule by (first [done|by eapply Forall_forall in Hin]). cbn [weighHolder w_Account w_TWAB].
  f_equal. apply vec_eq. intros t. by rewrite vlookup_map, lookup_fun_to_vec, Hb.
Qed.

Lemma kept_rule a : kept a ↔ earns a.
Proof using Type.
  unfold kept, earns, isEmpty. rewrite <-not_true_iff_false, forallb_forall, Exists_exists. split.
  - intros H. destruct (decide (Exists (λ x, x ≠ 0) (a_Amounts a))) as [Hx|Hx]; [by apply Exists_exists in Hx|].
    destruct H. intros x Hx'%list_elem_of_In. apply Z.eqb_eq. destruct (decide (0 = x)) as [|Hne]; [done|].
    destruct Hx. apply Exists_exists. exists x. by split.
  - intros (x & Hx & Hne) H. apply Hne. symmetry. apply Z.eqb_eq, H. by apply list_elem_of_In.
Qed.

Lemma allocations_rule : allocations_of p b hs = filter earns (owed p hs <$> hs).
Proof using He Hb Hh.
  unfold allocations_of. replace (owed p hs <$> hs) with (alloc_of p b hs <$> hs).
  - apply list_filter_iff. apply kept_rule.
  - apply list_fmap_ext. intros i h Hi. apply owed_rule. by eapply list_elem_of_lookup_2.
Qed.

(** [Allocate] against the rules. *)
Lemma Allocate_by_rule keccak256 : base p = Ok b → (∀ t, funding p t < 2 ^ 256) →
  ∃ r, Allocate keccak256 p hs = Ok r ∧ res_TotalWeight r = rule_total p hs ∧
    res_Allocations r = filter earns (owed p hs <$> hs).
Proof using He Hb Hh.
  intros Hbase Hlt. assert (is_u64 (p_EpochID p)) as Hid by (unfold epoch_ok, EpochSeconds, is_u64 in *; lia).
  destruct (Allocate_Ok keccak256 p b hs Hbase holders_rule Hid) as [r HA]; [intros t; by rewrite Hb|].
  exists r. split; [done|]. destruct (Allocate_inv keccak256 p b hs Hbase holders_rule r HA) as (-> & -> & _).
  split; [apply total_rule|apply allocations_rule].
Qed.
End rules.
