(* ===== verification/Cases.v ===== *)
(** * Two of the repository's Cases

    The inputs of [testdata/cases/sell-at-minute-1.json] and
    [testdata/cases/buy-at-minute-59.json], for the theorems to be applied to. *)
From S2P Require Import Prelude Sorts Bytes Twab Text Merkle TwabSpec Alloc AllocSpec.

Definition curve : Address := copy_array 20 (replicate 20 xcc).
Definition alice : Address := copy_array 20 (replicate 20 xa1).
Definition bob : Address := copy_array 20 (replicate 20 xb2).
Definition relay : Address := copy_array 20 (replicate 20 x9e).

Definition transfer (ts : Z) (from to : Address) (value : Z) : Transfer :=
  mkTransfer ts from to (Some value).

(** sell-at-minute-1 *)
Definition sell_history : list Transfer :=
  [ transfer 1 zeroAddress curve 1000000;
    transfer 3599999 curve alice 3600;
    transfer 3599999 curve bob 60;
    transfer 3600060 alice curve 3600 ].

(** buy-at-minute-59 *)
Definition buy_history : list Transfer :=
  [ transfer 1 zeroAddress curve 1000000;
    transfer 3599999 curve bob 60;
    transfer 3603540 curve relay 3600;
    transfer 3603540 relay alice 3600 ].

Definition curve_excluded : list Exclusion := [ mkExclusion 0 curve ].

(** A history with a log missing: Bob sends what nobody sent him. *)
Definition broken_history : list Transfer := [ transfer 3600060 bob curve 3600 ].

Example sell_holders :
  Replay 1000 sell_history curve_excluded =
  Ok [ mkHolder alice 60 3599999 3600060; mkHolder bob 60 3599999 0 ].
Proof. by vm_compute. Qed.

Example buy_holders :
  Replay 1000 buy_history curve_excluded =
  Ok [ mkHolder alice 60 3603540 0; mkHolder bob 60 3599999 0 ].
Proof. by vm_compute. Qed.

(** ** sell-at-minute-1, allocated

    The funding of the Case and its expected Allocations. *)


Definition sell_params : Params :=
  mkParams 1000 sell_history curve_excluded zeroAddress
    (vreplicate 5 (Some 1000)) (vreplicate 5 (Some 0)).
Definition sell_base : vec Z 5 := vreplicate 5 1000.
Definition sell_hs : list Holder := [ mkHolder alice 60 3599999 3600060; mkHolder bob 60 3599999 0 ].

(** A hash to evaluate on. *)
Definition sum_hash (l : list byte) : Hash :=
  copy_array 32 (be_encode 2 (foldl (λ acc b, (acc * 31 + byte_to_Z b + 1) `mod` 65536) 5 l)).

Definition sell_result : Result :=
  default (mkResult [] (vreplicate 5 0) (vreplicate 5 0) 0 None zeroHash false)
    (ok_of (Allocate sum_hash sell_params sell_hs)).

Lemma sell_allocates : Allocate sum_hash sell_params sell_hs = Ok sell_result.
Proof. by vm_compute. Qed.

Lemma sell_base_Ok : base sell_params = Ok sell_base.
Proof. by vm_compute. Qed.

Lemma sell_holders_ok : holders_ok sell_hs.
Proof. by repeat constructor. Qed.

Lemma sell_epoch_ok : epoch_ok (p_EpochID sell_params).
Proof. unfold epoch_ok, EpochSeconds. cbn. lia. Qed.

Lemma sell_hs_ok : Forall holder_ok sell_hs.
Proof. by repeat constructor. Qed.

Lemma sell_funded : funded sell_params.
Proof. intros t. unfold sell_params. cbn [p_Funded p_CarryIn]. rewrite !vlookup_replicate. split; by eexists. Qed.

Lemma sell_funding_fits (t : fin 5) : funding sell_params t < 2 ^ 256.
Proof. unfold funding, sell_params. cbn [p_Funded p_CarryIn]. rewrite !vlookup_replicate. cbn. lia. Qed.

Lemma sell_complete : history_ok (w_End (WindowOf 1000)) sell_history.
Proof. split; intros tr Htr; each_in Htr; vm_compute; intros; first [by eexists | done]. Qed.

(** The Case's expected Allocations: 500 of each token for Alice and for Bob. *)
Example sell_amounts :
  (λ a, (a_Account a, a_Weight a, vec_to_list (a_Amounts a))) <$> res_Allocations sell_result =
  [(alice, 600000, [500; 500; 500; 500; 500]); (bob, 600000, [500; 500; 500; 500; 500])].
Proof. by vm_compute. Qed.
