(* ===== verification/TwabTheorems.v ===== *)
(** * What the twab package promises

    The claims on [Replay], [ExcludedAsOf], the [Ledger] and [WindowOf], each
    with the Case it is applied to. *)
From S2P Require Import Prelude Sorts Bytes Twab TwabSpec TwabReplay TwabWalk TwabHolders TwabLedger Cases.

(** ** Facts the claims share *)

Lemma epoch_1000 : epoch_ok 1000.
Proof. by unfold epoch_ok, EpochSeconds. Qed.

Lemma Replay_Ok epochID ts xs hs :
  epoch_ok epochID → Replay epochID ts xs = Ok hs →
  history_ok (w_End (WindowOf epochID)) ts ∧ is_holders epochID ts xs hs.
Proof.
  intros He HR. destruct (Replay_total epochID ts xs He) as [(Hok & hs' & HR' & His)|(_ & e & HR')];
    [|congruence]. split; [done|]. by assert (hs = hs') as -> by congruence.
Qed.

Lemma Replay_complete epochID ts xs hs :
  epoch_ok epochID → history_ok (w_End (WindowOf epochID)) ts → is_holders epochID ts xs hs →
  Replay epochID ts xs = Ok hs.
Proof.
  intros He Hok His. destruct (Replay_total epochID ts xs He) as [(_ & hs' & HR' & His')|[]]; [|done].
  by rewrite (is_holders_unique _ _ _ _ _ His His').
Qed.

Lemma is_holders_exclusions epochID ts xs xs' hs :
  (∀ a, is_excluded epochID xs a ↔ is_excluded epochID xs' a) →
  is_holders epochID ts xs hs → is_holders epochID ts xs' hs.
Proof. intros Hx [Hs Hin]. split; [done|]. intros x. by rewrite Hin, Hx. Qed.

Section later_history.
(** Transfers at or after the close of the Epoch. *)
Context (epochID : Z) (ts later : list Transfer).
Hypothesis Hepoch : epoch_ok epochID.
Hypothesis Hlater : ∀ tr, tr ∈ later → w_End (WindowOf epochID) ≤ tr_Timestamp tr.

Lemma entries_later a : Forall (λ e, w_End (WindowOf epochID) ≤ e.1) (entries a later).
Proof using Hepoch Hlater.
  apply (Forall_entries (λ t, w_End (WindowOf epochID) ≤ t)). by apply Forall_forall.
Qed.

Lemma balance_at_later a t :
  t < w_End (WindowOf epochID) → balance_at (ts ++ later) a t = balance_at ts a t.
Proof using Hepoch Hlater.
  intros Ht. unfold balance_at. rewrite entries_app, bal_at_app, (bal_at_later (entries a later)); [lia|].
  eapply Forall_impl; [apply entries_later|]. cbn beta. lia.
Qed.

Lemma holder_at_later a : holder_at epochID (ts ++ later) a = holder_at epochID ts a.
Proof using Hepoch Hlater.
  unfold holder_at, twab_of, first_buy, last_sell.
  rewrite entries_app, before_app, (before_none _ (entries a later)), app_nil_r by apply entries_later.
  f_equal. f_equal. apply area_app_later. eapply Forall_impl; [apply entries_later|].
  rewrite WindowOf_ok by done. unfold EpochSeconds. rewrite Z2Nat.id by lia. cbn. lia.
Qed.

Lemma history_ok_later :
  history_ok (w_End (WindowOf epochID)) (ts ++ later) ↔ history_ok (w_End (WindowOf epochID)) ts.
Proof using Hepoch Hlater.
  split; intros [Hv Hs]; split; intros tr Htr Hl.
  - apply Hv; set_solver.
  - intros. rewrite <-balance_at_later by done. apply Hs; set_solver.
  - apply elem_of_app in Htr as [?|Htr]; [by apply Hv|]. specialize (Hlater tr Htr). lia.
  - intros. rewrite balance_at_later by done.
    apply elem_of_app in Htr as [?|Htr]; [by apply Hs|]. specialize (Hlater tr Htr). lia.
Qed.

Lemma is_holders_later xs hs :
  is_holders epochID (ts ++ later) xs hs ↔ is_holders epochID ts xs hs.
Proof using Hepoch Hlater.
  unfold is_holders. setoid_rewrite holder_at_later. done.
Qed.
End later_history.

(** A concrete history is complete. *)
Ltac solve_history :=
  split; intros tr Htr; each_in Htr; vm_compute; intros;
    first [by eexists | done].

Lemma sell_history_ok : history_ok (w_End (WindowOf 1000)) sell_history.
Proof. solve_history. Qed.

Lemma broken_history_bad : ¬ history_ok (w_End (WindowOf 1000)) broken_history.
Proof.
  intros [_ Hs]. specialize (Hs (transfer 3600060 bob curve 3600) ltac:(set_solver)).
  revert Hs. vm_compute. intros Hs. by apply Hs.
Qed.

(** ** Replay *)

(** C3: on a complete history, [Replay] returns exactly the eligible Holders of
    the Epoch, ascending by address, each with the average of its balance over
    the 3600 seconds of the window (floored), its first credit and its last debit
    before the window closes. *)
Theorem Replay_correct epochID ts xs :
  epoch_ok epochID → history_ok (w_End (WindowOf epochID)) ts →
  ∃ hs, Replay epochID ts xs = Ok hs ∧ is_holders epochID ts xs hs.
Proof.
  intros He Hok. by destruct (Replay_total epochID ts xs He) as [[_ H]|[[] _]].
Qed.

Lemma Replay_correct_witness :
  epoch_ok 1000 ∧ history_ok (w_End (WindowOf 1000)) sell_history ∧
  ∃ hs, Replay 1000 sell_history curve_excluded = Ok hs ∧
        is_holders 1000 sell_history curve_excluded hs.
Proof.
  split; [exact epoch_1000|]. split; [exact sell_history_ok|].
  exact (Replay_correct 1000 sell_history curve_excluded epoch_1000 sell_history_ok).
Defined.

(** [Replay] answers if and only if the history is complete up to the close of
    the Epoch; otherwise it returns an error, and it never panics. *)
Theorem Replay_accepts epochID ts xs :
  epoch_ok epochID →
  (is_Ok (Replay epochID ts xs) ↔ history_ok (w_End (WindowOf epochID)) ts) ∧
  (¬ history_ok (w_End (WindowOf epochID)) ts → ∃ e, Replay epochID ts xs = Err e).
Proof.
  intros He. destruct (Replay_total epochID ts xs He) as [(? & hs & HR & _)|(? & e & HR)]; rewrite HR.
  - split; [|done]. split; [done|by eexists].
  - split; [|by eexists]. split; [by intros [? [=]]|done].
Qed.

Lemma Replay_accepts_witness :
  epoch_ok 1000 ∧ ¬ history_ok (w_End (WindowOf 1000)) broken_history ∧
  ∃ e, Replay 1000 broken_history [] = Err e.
Proof.
  split; [exact epoch_1000|]. split; [exact broken_history_bad|].
  apply (Replay_accepts 1000 broken_history [] epoch_1000), broken_history_bad.
Defined.

(** C11: a Ledger advanced through any rising sequence of Epochs, skipping as it
    likes, gives for each what [Replay] gives over the whole history, the refusal
    of a broken history included. *)
Theorem Ledger_refines_Replay ts xs es :
  StronglySorted Z.lt es → Forall epoch_ok es →
  advances (NewLedger ts xs) es = (λ e, Replay e ts xs) <$> es.
Proof.
  intros Hs Hok. destruct (NewLedger_LInv ts xs) as [now HI].
  apply (advances_spec _ _ _ _ _ _ _ _ HI Hs Hok).
  eapply Forall_impl; [exact Hok|]. by intros e [].
Qed.

Lemma Ledger_refines_Replay_witness :
  StronglySorted Z.lt [999; 1000; 1003] ∧ Forall epoch_ok [999; 1000; 1003] ∧
  advances (NewLedger sell_history curve_excluded) [999; 1000; 1003] =
  (λ e, Replay e sell_history curve_excluded) <$> [999; 1000; 1003].
Proof.
  assert (StronglySorted Z.lt [999; 1000; 1003]) as H1 by (repeat constructor).
  assert (Forall epoch_ok [999; 1000; 1003]) as H2
    by (repeat constructor; unfold epoch_ok, EpochSeconds; lia).
  split; [exact H1|]. split; [exact H2|].
  exact (Ledger_refines_Replay sell_history curve_excluded [999; 1000; 1003] H1 H2).
Defined.

(** The order in which logs arrive is no part of the input: any permutation of
    the transfers, and any Exclusions that name the same Excluded set, give the
    same Holders. *)
Theorem Replay_order_free epochID ts ts' xs xs' hs :
  epoch_ok epochID → ts ≡ₚ ts' →
  (∀ a, is_excluded epochID xs a ↔ is_excluded epochID xs' a) →
  Replay epochID ts xs = Ok hs → Replay epochID ts' xs' = Ok hs.
Proof.
  intros He Hp Hx HR. apply Replay_Ok in HR as [Hok His]; [|done].
  apply Replay_complete; [done|by eapply history_ok_perm|].
  eapply is_holders_exclusions; [exact Hx|]. by eapply is_holders_perm.
Qed.

Lemma Replay_order_free_witness :
  Replay 1000 (reverse buy_history) (curve_excluded ++ curve_excluded) =
  Ok [ mkHolder alice 60 3603540 0; mkHolder bob 60 3599999 0 ].
Proof.
  apply (Replay_order_free 1000 buy_history (reverse buy_history) curve_excluded).
  - exact epoch_1000.
  - symmetry. apply reverse_Permutation.
  - intros a. unfold is_excluded. set_solver.
  - by vm_compute.
Defined.

(** Transfers at or after the closing instant of the Epoch are ignored rather
    than rejected, whatever they carry. *)
Theorem Replay_ignores_later epochID ts later xs hs :
  epoch_ok epochID → (∀ tr, tr ∈ later → w_End (WindowOf epochID) ≤ tr_Timestamp tr) →
  Replay epochID (ts ++ later) xs = Ok hs ↔ Replay epochID ts xs = Ok hs.
Proof.
  intros He Hl. split; intros [Hok His]%Replay_Ok; try done; apply Replay_complete; try done.
  - by eapply history_ok_later.
  - by eapply is_holders_later.
  - by apply history_ok_later.
  - by apply is_holders_later.
Qed.

Lemma Replay_ignores_later_witness :
  Replay 1000 (sell_history ++ [mkTransfer 3603600 bob curve None; transfer 3603600 relay bob 9])
    curve_excluded = Ok [ mkHolder alice 60 3599999 3600060; mkHolder bob 60 3599999 0 ].
Proof.
  apply (Replay_ignores_later 1000).
  - exact epoch_1000.
  - intros tr Htr. each_in Htr; by vm_compute.
  - by vm_compute.
Defined.

(** ** The Excluded set and the window *)

(** [ExcludedAsOf] is the set of accounts some log of which is before the close
    of the Epoch, each once, ascending by address. *)
Theorem ExcludedAsOf_correct epochID xs :
  StronglySorted (cmp_lt compareAddresses) (ExcludedAsOf epochID xs) ∧
  (∀ a, a ∈ ExcludedAsOf epochID xs ↔ is_excluded epochID xs a).
Proof. apply ExcludedAsOf_spec. Qed.

(** the windows tile the timeline: every second that is not negative lies in
    the half-open window of exactly one Epoch, the one its quotient by 3600 names. *)
Theorem WindowOf_tiles epochID t :
  epoch_ok epochID → 0 ≤ t →
  w_Start (WindowOf epochID) ≤ t < w_End (WindowOf epochID) ↔ epochID = t / EpochSeconds.
Proof.
  intros He Ht. rewrite WindowOf_ok by done. unfold EpochSeconds. cbn. split.
  - intros. apply (Z.div_unique_pos t 3600 epochID (t - 3600 * epochID)); lia.
  - intros ->. pose proof (Z.div_mod t 3600 ltac:(lia)).
    pose proof (Z.mod_pos_bound t 3600 ltac:(lia)). lia.
Qed.

Lemma WindowOf_tiles_witness :
  epoch_ok 1000 ∧ 0 ≤ 3600060 ∧
  (w_Start (WindowOf 1000) ≤ 3600060 < w_End (WindowOf 1000) ↔ 1000 = 3600060 / EpochSeconds).
Proof.
  split; [exact epoch_1000|]. split; [lia|].
  apply (WindowOf_tiles 1000 3600060 epoch_1000). lia.
Defined.

(** The window is computed in 64-bit arithmetic without a bound check, so Epoch
    ids [2^60] apart share it: a replay of the one is a replay of the other. *)
Theorem WindowOf_aliases epochID ts xs :
  WindowOf (epochID + 2 ^ 60) = WindowOf epochID ∧
  Replay (epochID + 2 ^ 60) ts xs = Replay epochID ts xs.
Proof.
  assert (WindowOf (epochID + 2 ^ 60) = WindowOf epochID) as Hw.
  { unfold WindowOf, EpochSeconds.
    assert (i64 (i64 (epochID + 2 ^ 60) * 3600) = i64 (i64 epochID * 3600)) as ->; [|done].
    rewrite !i64_mul_l. replace ((epochID + 2 ^ 60) * 3600) with (epochID * 3600 + 225 * 2 ^ 64) by lia.
    apply i64_add_period. }
  split; [done|]. unfold Replay, ExcludedAsOf. by rewrite Hw.
Qed.
