(* ===== verification/AllocTheorems.v ===== *)
(** * What the alloc package promises

    The claims on [Allocate], [Compute], [StreakDays] and [MultBps], applied to
    the Case sell-at-minute-1. *)
From S2P Require Import Prelude Sorts Bytes Text Merkle MerkleEncode MerkleTree MerkleProof.
From S2P Require Import Twab TwabSpec TwabReplay TwabWalk TwabHolders TwabLedger Cases Alloc AllocSpec.

(** ** Allocate *)

(** C4: the Allocations are those of spec section 5. When funding and Carry are there for
    each token and not negative, [Allocate] returns, in the Holders' order and with
    nobody missing or added, for each Holder the floor of its pro rata share of funding
    plus Carry, by weight TWAB times the Multiplier (1.5 from 30 days held, 1.25 from 7,
    1 below and for the dev wallet) over the total weight of all Holders; a Holder is
    left out exactly when all five amounts are zero. Otherwise it refuses. *)
Theorem Allocate_rule keccak256 p hs :
  epoch_ok (p_EpochID p) → Forall holder_ok hs → (∀ t, funding p t < 2 ^ 256) →
  (funded p → ∃ r, Allocate keccak256 p hs = Ok r ∧
     res_TotalWeight r = rule_total p hs ∧ res_Allocations r = filter earns (owed p hs <$> hs)) ∧
  (¬ funded p → ∃ e, Allocate keccak256 p hs = Err e).
Proof.
  intros He Hh Hlt. split.
  - intros [b Hb]%base_funded. apply (Allocate_by_rule p b hs He); [|done..]. by apply funding_base in Hb as [_ ?].
  - intros [e Hb]%base_unfunded. unfold Allocate. rewrite Hb. by exists e.
Qed.

Lemma Allocate_rule_witness :
  ∃ r, Allocate sum_hash sell_params sell_hs = Ok r ∧ res_TotalWeight r = 1200000 ∧
    res_Allocations r = filter earns (owed sell_params sell_hs <$> sell_hs) ∧ length (res_Allocations r) = 2%nat.
Proof.
  destruct (proj1 (Allocate_rule sum_hash sell_params sell_hs sell_epoch_ok sell_hs_ok sell_funding_fits) sell_funded)
    as (r & HA & HW & Hr).
  exists r. split; [exact HA|]. split; [rewrite HW; by vm_compute|]. split; [exact Hr|]. rewrite Hr. by vm_compute.
Defined.

(** C12: nothing is created and next to nothing is left: for each token the totals are
    the sum of the Allocations, totals plus Carry out are the funding plus the Carry in,
    neither is negative, and with [n] Holders less than [n] units are carried over. *)
Theorem Allocate_conserves keccak256 p hs r t :
  Forall (λ h, 0 < h_TWAB h) hs → Allocate keccak256 p hs = Ok r →
  ∃ f c, p_Funded p !!! t = Some f ∧ p_CarryIn p !!! t = Some c ∧
    res_Totals r !!! t + res_CarryOut r !!! t = f + c ∧
    res_Totals r !!! t = sum_of (λ a, a_Amounts a !!! t) (res_Allocations r) ∧
    0 ≤ res_Totals r !!! t ∧ 0 ≤ res_CarryOut r !!! t ∧
    (hs ≠ [] → res_CarryOut r !!! t < Z.of_nat (length hs)).
Proof.
  intros Hh HA. destruct (Allocate_funded keccak256 p hs r HA) as (b & Hb & Hf & Hbt).
  destruct (Hf t) as [(f & Hft & _) (c & Hct & _)]. exists f, c. split; [done|]. split; [done|].
  destruct (Allocate_inv keccak256 p b hs Hb Hh r HA) as (-> & _ & Ht & Hc & _).
  pose proof (totals_bounds p b hs Hb Hh t) as [Hr Hd]. cbn zeta in Hr, Hd.
  assert (b !!! t = f + c) as Hfc by (rewrite Hbt; unfold funding; by rewrite Hft, Hct).
  rewrite Hc, Ht. split_and!; [lia|done|lia..|]. intros Hne. specialize (Hd Hne). lia.
Qed.

Lemma Allocate_conserves_witness :
  Allocate sum_hash sell_params sell_hs = Ok sell_result ∧
  ∃ f c, p_Funded sell_params !!! (0%fin : fin 5) = Some f ∧ p_CarryIn sell_params !!! (0%fin : fin 5) = Some c ∧
    res_Totals sell_result !!! (0%fin : fin 5) + res_CarryOut sell_result !!! (0%fin : fin 5) = f + c.
Proof.
  split; [exact sell_allocates|].
  destruct (Allocate_conserves sum_hash sell_params sell_hs sell_result 0%fin sell_holders_ok sell_allocates)
    as (f & c & Hf & Hc & Hsum & _).
  exists f, c. split; [exact Hf|]. split; [exact Hc|]. exact Hsum.
Defined.

(** Each amount is within one unit of the exact share, and between two
    Allocations the heavier one gets at least as much of every token. *)
Theorem Allocate_fair keccak256 p hs b r a a' t :
  base p = Ok b → holders_ok hs → Allocate keccak256 p hs = Ok r →
  a ∈ res_Allocations r → a' ∈ res_Allocations r → a_Weight a ≤ a_Weight a' →
  a_Amounts a !!! t * res_TotalWeight r ≤ b !!! t * a_Weight a ∧
  b !!! t * a_Weight a < (a_Amounts a !!! t + 1) * res_TotalWeight r ∧
  a_Amounts a !!! t ≤ a_Amounts a' !!! t.
Proof.
  intros Hb Hh HA Ha Ha' Hle. destruct (Allocate_inv keccak256 p b hs Hb Hh r HA) as (Hal & -> & _).
  rewrite Hal in Ha, Ha'.
  apply list_elem_of_filter in Ha as [_ (h & -> & Hin)%list_elem_of_fmap].
  apply list_elem_of_filter in Ha' as [_ (h' & -> & Hin')%list_elem_of_fmap].
  pose proof (alloc_of_bounds p b hs Hb Hh h t Hin) as [_ [? ?]]. split_and!; [done..|].
  cbn [alloc_of a_Amounts]. rewrite !vlookup_map.
  pose proof (total_weight_pos p hs h Hh Hin). pose proof (base_nonneg p b Hb t).
  apply Z.div_le_mono; [lia|]. change (weight p h ≤ weight p h') in Hle. nia.
Qed.

Lemma Allocate_fair_witness :
  ∃ a a', a ∈ res_Allocations sell_result ∧ a' ∈ res_Allocations sell_result ∧ a ≠ a' ∧
    a_Amounts a !!! (0%fin : fin 5) ≤ a_Amounts a' !!! (0%fin : fin 5).
Proof.
  set (a := alloc_of sell_params sell_base sell_hs (mkHolder alice 60 3599999 3600060)).
  set (a' := alloc_of sell_params sell_base sell_hs (mkHolder bob 60 3599999 0)).
  assert (res_Allocations sell_result = [a; a']) as Hr by by vm_compute.
  assert (a ∈ res_Allocations sell_result) as Ha by (rewrite Hr; left).
  assert (a' ∈ res_Allocations sell_result) as Ha' by (rewrite Hr; right; left).
  exists a, a'. split; [exact Ha|]. split; [exact Ha'|]. split; [by intros [=]|].
  refine (proj2 (proj2 (Allocate_fair sum_hash sell_params sell_hs sell_base sell_result a a' 0%fin
    sell_base_Ok sell_holders_ok sell_allocates Ha Ha' _))). by vm_compute.
Defined.

(** [Allocate] never panics and fails only on bad funding: over Holders with
    positive TWABs, and with bases a uint256 holds, it returns a result, and the
    result has a Root, which is that of the tree over its Allocations, exactly when
    some amount is positive. *)
Theorem Allocate_total keccak256 p hs b :
  base p = Ok b → holders_ok hs → is_u64 (p_EpochID p) → (∀ t, b !!! t < 2 ^ 256) →
  ∃ r, Allocate keccak256 p hs = Ok r ∧
    (res_HasRoot r = true ↔ ∃ h t, h ∈ hs ∧ 0 < b !!! t * weight p h / res_TotalWeight r) ∧
    (res_HasRoot r = true → ∃ tree, res_Tree r = Some tree ∧ Root tree = Ok (res_Root r) ∧
       New keccak256 (claims (p_EpochID p) (res_Allocations r)) = Ok tree) ∧
    (res_HasRoot r = false → res_Root r = zeroHash ∧ res_CarryOut r = b).
Proof.
  intros Hb Hh Hid Hlt. destruct (Allocate_Ok keccak256 p b hs Hb Hh Hid Hlt) as [r HA]. exists r.
  destruct (Allocate_inv keccak256 p b hs Hb Hh r HA) as (Hal & HW & Ht & Hc & Hroot & Htree).
  split; [done|]. split_and!.
  - rewrite Hroot, HW. split.
    + intros Hne. destruct (allocations_of p b hs) as [|a l] eqn:Ha; [done|].
      assert (a ∈ allocations_of p b hs) as Hin by (rewrite Ha; left).
      apply list_elem_of_filter in Hin as [Hk (h & -> & Hin)%list_elem_of_fmap]. exists h.
      destruct (decide (∃ t : fin 5, 0 < a_Amounts (alloc_of p b hs h) !!! t)) as [[t Hpos]|Hno].
      { exists t. split; [done|]. cbn [alloc_of a_Amounts] in Hpos. by rewrite vlookup_map in Hpos. }
      exfalso. unfold kept in Hk. enough (isEmpty (a_Amounts (alloc_of p b hs h)) = true) by congruence.
      apply isEmpty_true. intros t. pose proof (alloc_of_bounds p b hs Hb Hh h t Hin) as [[? _] _].
      apply Z.le_antisymm; [|done]. apply Z.nlt_ge. intros Hpos. destruct Hno. by exists t.
    + intros (h & t & Hin & Hpos) Hnil.
      assert (alloc_of p b hs h ∉ allocations_of p b hs) as Hni by (rewrite Hnil; apply not_elem_of_nil).
      apply Hni, list_elem_of_filter. split; [|by apply list_elem_of_fmap_2].
      apply not_true_is_false. intros He. apply isEmpty_true with (t := t) in He.
      cbn [alloc_of a_Amounts] in He. rewrite vlookup_map in He. lia.
  - intros Hr. rewrite Hr in Htree. by rewrite Hal.
  - intros Hr. rewrite Hr in Htree. split; [by destruct Htree|]. apply vec_eq. intros t.
    rewrite Hc, Ht. assert (allocations_of p b hs = []) as ->; [|cbn; lia].
    destruct (decide (allocations_of p b hs = [])) as [|Hne]; [done|]. apply Hroot in Hne. congruence.
Qed.

Lemma Allocate_total_witness :
  base sell_params = Ok sell_base ∧ holders_ok sell_hs ∧
  ∃ r, Allocate sum_hash sell_params sell_hs = Ok r.
Proof.
  split; [exact sell_base_Ok|]. split; [exact sell_holders_ok|].
  destruct (Allocate_total sum_hash sell_params sell_hs sell_base sell_base_Ok sell_holders_ok) as (r & Hr & _).
  - unfold is_u64. cbn. lia.
  - intros t. unfold sell_base. rewrite vlookup_replicate. lia.
  - exists r. exact Hr.
Defined.

(** ** Compute, end to end *)

Lemma is_holders_ok epochID ts xs hs : is_holders epochID ts xs hs → holders_ok hs.
Proof. intros [_ Hin]. apply Forall_forall. intros h Hh. by apply Hin in Hh as (_ & ? & _). Qed.

(** What a complete history says of the Holders: their times are those of its transfers. *)
Lemma is_holders_rule epochID ts xs hs : epoch_ok epochID → Forall (λ tr, 0 ≤ tr_Timestamp tr) ts →
  is_holders epochID ts xs hs → Forall holder_ok hs.
Proof.
  intros He Hts [_ Hin]. apply Forall_forall. intros h Hh. apply Hin in Hh as (Hx & Htwab & _). split; [done|].
  pose proof (WindowOf_ok _ He) as Hw. unfold epoch_ok, EpochSeconds in *.
  assert (∀ e, e ∈ before (w_End (WindowOf epochID)) (entries (h_Account h) ts) → 0 ≤ e.1 < 2 ^ 63) as Htime.
  { intros e [Hlate (tr & Htr & Ht%entries_of_time)%elem_of_entries]%list_elem_of_filter.
    rewrite Hw in Hlate. cbn in Hlate. rewrite Forall_forall in Hts. specialize (Hts tr Htr). cbn in Hts. lia. }
  rewrite Hx. cbn [holder_at h_FirstBuyAt h_LastSellAt]. split.
  - unfold first_buy. destruct (min_of _) as [t|] eqn:E; cbn; [|lia].
    apply min_of_spec, proj1, elem_of_buys in E as (v & Hv & _). by apply (Htime (t, v)).
  - unfold last_sell. destruct (max_of _) as [t|] eqn:E; cbn; [|lia].
    apply max_of_spec, proj1, elem_of_sells in E as (v & Hv & _). by apply (Htime (t, v)).
Qed.

(** C38: from the raw chain data to the Allocations. On a complete history, funded,
    [Compute] pays every address that is not Excluded by the average of its balance over
    the Epoch's seconds times its Multiplier, over the sum of these weights: an address
    has a row exactly when it is not Excluded, its average is positive and it is owed
    something, the row is the rules', and there is one row to an address, in ascending
    order. An incomplete history is refused, and so is one without funding. *)
Theorem Compute_correct keccak256 p :
  epoch_ok (p_EpochID p) → Forall (λ tr, 0 ≤ tr_Timestamp tr) (p_Transfers p) → (∀ t, funding p t < 2 ^ 256) →
  (history_ok (w_End (WindowOf (p_EpochID p))) (p_Transfers p) → funded p →
   ∃ r hs, Compute keccak256 p = Ok r ∧ is_holders (p_EpochID p) (p_Transfers p) (p_Exclusions p) hs ∧
     res_TotalWeight r = rule_total p hs ∧ res_Allocations r = filter earns (owed p hs <$> hs) ∧
     (∀ a, a ∈ res_Allocations r ↔ earns a ∧ ∃ x, a = owed p hs (holder_at (p_EpochID p) (p_Transfers p) x) ∧
        0 < twab_of (p_EpochID p) (p_Transfers p) x ∧ ¬ is_excluded (p_EpochID p) (p_Exclusions p) x)) ∧
  (¬ (history_ok (w_End (WindowOf (p_EpochID p))) (p_Transfers p) ∧ funded p) → ∃ e, Compute keccak256 p = Err e).
Proof.
  intros He Hts Hlt. destruct (Replay_total (p_EpochID p) (p_Transfers p) (p_Exclusions p) He)
    as [(Hok & hs & HR & His)|(Hbad & e & HR)]; unfold Compute; rewrite HR; cbn [wrap mbind Res_bind].
  - pose proof (is_holders_rule _ _ _ _ He Hts His) as Hh. split.
    + intros _ [b Hb]%base_funded. destruct (Allocate_by_rule p b hs He) with (keccak256 := keccak256) as (r & HA & HW & Hr);
        [by apply funding_base in Hb as [_ ?]|done..|].
      exists r, hs. split_and!; [done..|]. intros a. rewrite Hr, list_elem_of_filter, list_elem_of_fmap. f_equiv. split.
      * intros (h & -> & (Hx & Htwab & Hex)%His). exists (h_Account h). rewrite <-Hx. split; [done|].
        split; [|done]. by rewrite Hx in Htwab.
      * intros (x & -> & Htwab & Hex). eexists. split; [done|]. by apply His.
    + intros Hnot. destruct (base_unfunded p) as [e Hb]; [by intros Hf; apply Hnot|]. exists e. unfold Allocate. by rewrite Hb.
  - split; [done|]. intros _. by exists (errReplay e).
Qed.

Lemma Compute_correct_witness :
  history_ok (w_End (WindowOf 1000)) sell_history ∧
  ∃ r hs, Compute sum_hash sell_params = Ok r ∧ is_holders 1000 sell_history curve_excluded hs ∧
    res_Allocations r = filter earns (owed sell_params hs <$> hs).
Proof.
  split; [exact sell_complete|].
  destruct (proj1 (Compute_correct sum_hash sell_params sell_epoch_ok
    ltac:(repeat (constructor; [cbn; lia|]); constructor) sell_funding_fits) sell_complete sell_funded)
    as (r & hs & Hr & Hhs & _ & Hrows & _).
  exists r, hs. split; [exact Hr|]. split; [exact Hhs|]. exact Hrows.
Defined.
