(* ===== verification/Report.v ===== *)
(** * internal/report: from a Recompute to a Verdict

    [assess.go], and the text helpers of [report.go] it uses. A [chain.Amounts]
    is five [*big.Int]s that may be nil. [Assess] has no error to return, but
    adding a nil amount would panic, so it is a [Res] over the empty error type. *)
From S2P Require Import Prelude Sorts Bytes Text.

Abbreviation Amounts := (vec (option Z) 5).

(** ** Verdicts and statuses *)

Abbreviation Verdict := string.
Definition Match : Verdict := "MATCH".
Definition Mismatch : Verdict := "MISMATCH".
Definition Indeterminate : Verdict := "INDETERMINATE".

(** [Verdict.ExitCode]. *)
Definition ExitCode (v : Verdict) : Z :=
  if decide (v = Match) then 0 else if decide (v = Mismatch) then 1 else 2.

Fixpoint worst_loop (worst : Verdict) (verdicts : list Verdict) : Verdict :=
  match verdicts with
  | [] => worst
  | v :: verdicts =>
      if decide (v = Indeterminate) then Indeterminate
      else if decide (v = Mismatch) then worst_loop Mismatch verdicts
      else worst_loop worst verdicts
  end.

Definition Worst (verdicts : list Verdict) : Verdict := worst_loop Match verdicts.

Abbreviation Status := string.
Definition Pass : Status := "pass".
Definition Fail_ : Status := "fail".
Definition NotApplicable : Status := "n/a".

Definition AssertRoot : string := "root".
Definition AssertTotals : string := "totals".
Definition AssertCap : string := "cap".
Definition AssertCarryIn : string := "carryIn".
Definition AssertExpected : string := "expected".

Record Assertion := mkAssertion { as_Name : string; as_Status : Status; as_Detail : string }.

Record Recompute := mkRecompute {
  rc_HasRoot : bool;
  rc_Root : Hash;
  rc_Totals : Amounts;
  rc_Holders : Z;
  rc_ExpectedCarryIn : Amounts;
  rc_CarryFrom : string;
}.

Record Posted := mkPosted {
  po_HasRoot : bool;
  po_Skipped : bool;
  po_Root : Hash;
  po_Totals : Amounts;
  po_Funded : Amounts;
  po_CarryIn : Amounts;
}.

Record Assessment := mkAssessment {
  as_Verdict : Verdict;
  as_Assertions : list Assertion;
  as_Reason : string;
}.

(** ** Text *)

(** [fmt.Sprint] of a [*big.Int]. *)
Definition bigText (x : option Z) : string :=
  match x with None => "<nil>" | Some x => BigString x end.

(** [chain.Hash.String]. *)
Definition hashText (h : Hash) : string := ("0x" ++ EncodeToString (vec_to_list h))%string.

Definition Decimals (amounts : Amounts) : list string :=
  (λ a, match a with None => "?"%string | Some x => BigString x end) <$> vec_to_list amounts.

Definition list_ (values : list string) : string :=
  ("[" ++ String.concat " " values ++ "]")%string.

Definition formatAmounts (amounts : Amounts) : string := list_ (Decimals amounts).

(** ** Assertions *)

(** The first index at which two arrays differ, from [t] on. *)
Fixpoint firstDifference_from (t : nat) (a b : list (option Z)) : option nat :=
  match a, b with
  | x :: a, y :: b =>
      match x, y with
      | Some x, Some y => if x =? y then firstDifference_from (S t) a b else Some t
      | _, _ => Some t
      end
  | _, _ => None
  end.

Definition firstDifference (a b : Amounts) : option nat :=
  firstDifference_from 0 (vec_to_list a) (vec_to_list b).

(** [amounts[t]] for the text, where [t] is in range. *)
Definition amountText (amounts : Amounts) (t : nat) : string :=
  bigText (default None (vec_to_list amounts !! t)).

Definition natText (n : nat) : string := FormatUint 10 (Z.of_nat n).

Open Scope string_scope.

Definition assertRoot (recompute : Recompute) (posted : Posted) : Assertion :=
  if negb (rc_HasRoot recompute) then
    mkAssertion AssertRoot Fail_
      ("posted " +:+ hashText (po_Root posted) +:+
       ", but the Recompute has no eligible Holders and so no Root")
  else if decide (rc_Root recompute = po_Root posted) then
    mkAssertion AssertRoot Pass (hashText (po_Root posted))
  else
    mkAssertion AssertRoot Fail_
      ("recomputed " +:+ hashText (rc_Root recompute) +:+ ", posted " +:+ hashText (po_Root posted)).

Definition assertTotals (recomputed posted : Amounts) : Assertion :=
  match firstDifference recomputed posted with
  | Some t =>
      mkAssertion AssertTotals Fail_
        ("token " +:+ natText t +:+ ": recomputed " +:+ amountText recomputed t +:+
         ", posted " +:+ amountText posted t +:+ " (recomputed " +:+ formatAmounts recomputed +:+
         ", posted " +:+ formatAmounts posted +:+ ")")
  | None => mkAssertion AssertTotals Pass (formatAmounts posted)
  end.

(** The loop of [assertCapOver] from token [t] on; [Add] and [Cmp] panic on nil. *)
Fixpoint overCap (t : nat) (totals funded carryIn : list (option Z))
    : Res Empty_set (option nat) :=
  match totals, funded, carryIn with
  | x :: totals, f :: funded, c :: carryIn =>
      match x, f, c with
      | Some x, Some f, Some c =>
          if (f + c <? x)%Z then Ok (Some t) else overCap (S t) totals funded carryIn
      | _, _, _ => Fault GoPanic
      end
  | _, _, _ => Ok None
  end.

Definition assertCapOver (totals funded carryIn : Amounts) : Res Empty_set Assertion :=
  over ← overCap 0 (vec_to_list totals) (vec_to_list funded) (vec_to_list carryIn);
  mret match over with
       | Some t =>
           mkAssertion AssertCap Fail_
             ("token " +:+ natText t +:+ ": totals " +:+ amountText totals t +:+
              " > funded " +:+ amountText funded t +:+ " + carryIn " +:+ amountText carryIn t)
       | None =>
           mkAssertion AssertCap Pass
             ("totals <= funded " +:+ formatAmounts funded +:+ " + carryIn " +:+
              formatAmounts carryIn +:+ " in every token")
       end.

Definition assertCap (posted : Posted) : Res Empty_set Assertion :=
  assertCapOver (po_Totals posted) (po_Funded posted) (po_CarryIn posted).

Definition assertCarryIn (recompute : Recompute) (posted : Amounts) : Assertion :=
  match firstDifference (rc_ExpectedCarryIn recompute) posted with
  | Some t =>
      mkAssertion AssertCarryIn Fail_
        ("token " +:+ natText t +:+ ": posted " +:+ amountText posted t +:+ ", but " +:+
         rc_CarryFrom recompute +:+ " leaves " +:+ amountText (rc_ExpectedCarryIn recompute) t +:+
         " (posted " +:+ formatAmounts posted +:+ ", expected " +:+
         formatAmounts (rc_ExpectedCarryIn recompute) +:+ ")")
  | None =>
      mkAssertion AssertCarryIn Pass (formatAmounts posted +:+ " = " +:+ rc_CarryFrom recompute)
  end.

Definition fromAssertions (assertions : list Assertion) : Assessment :=
  mkAssessment
    (foldl (λ verdict a, if decide (as_Status a = Fail_) then Mismatch else verdict) Match assertions)
    assertions "".

Definition assertExpected (expected posted : Hash) : Assertion :=
  if decide (expected = posted) then mkAssertion AssertExpected Pass "equals the posted Root"
  else mkAssertion AssertExpected Fail_
         ("expected " +:+ hashText expected +:+ ", posted " +:+ hashText posted).

Definition expectedStoodIn : Assertion :=
  mkAssertion AssertExpected NotApplicable
    "no Root posted: the expectation was the root line's comparand".

Definition withExpected (assessed : Assessment) (expected : Assertion) : Assessment :=
  fromAssertions ((as_Assertions assessed ++ [expected])%list).

Definition assessPosted (recompute : Recompute) (posted : Posted) : Res Empty_set Assessment :=
  cap ← assertCap posted;
  mret (fromAssertions
    [ assertRoot recompute posted;
      assertTotals (rc_Totals recompute) (po_Totals posted);
      cap;
      assertCarryIn recompute (po_CarryIn posted) ]).

Definition assessSkipped (recompute : Recompute) : Assessment :=
  let root :=
    if rc_HasRoot recompute then
      mkAssertion AssertRoot Fail_
        ("skipped by a later Root, but the Recompute has a Root " +:+ hashText (rc_Root recompute) +:+
         " over " +:+ BigString (rc_Holders recompute) +:+ " Holders")
    else mkAssertion AssertRoot Pass
           "skipped by a later Root, and no Root recomputed: no eligible Holders" in
  let totals :=
    if rc_HasRoot recompute then
      mkAssertion AssertTotals Fail_
        ("nothing committed, but the Recompute allocates " +:+ formatAmounts (rc_Totals recompute))
    else mkAssertion AssertTotals Pass "nothing committed, and nothing allocated" in
  fromAssertions
    [ root; totals;
      mkAssertion AssertCap NotApplicable "no totals committed";
      mkAssertion AssertCarryIn NotApplicable "skipped; the funding rolled into the next Root's Carry" ].

Definition assessExpected (recompute : Recompute) (posted : Posted) (expected : Hash)
    : Res Empty_set Assessment :=
  if negb (rc_HasRoot recompute) then
    mret (fromAssertions
      [ mkAssertion AssertRoot Fail_
          ("expected " +:+ hashText expected +:+ ", but the Recompute has no eligible Holders and so no Root");
        mkAssertion AssertTotals Pass "nothing allocated";
        mkAssertion AssertCap NotApplicable "no totals recomputed";
        mkAssertion AssertCarryIn NotApplicable
          "no Root posted; the funding stays as Carry for the next Root";
        expectedStoodIn ])
  else
    let root :=
      if decide (rc_Root recompute = expected) then
        mkAssertion AssertRoot Pass (hashText expected +:+ ", as expected; no Root posted yet")
      else mkAssertion AssertRoot Fail_
             ("recomputed " +:+ hashText (rc_Root recompute) +:+ ", expected " +:+ hashText expected) in
    cap ← assertCapOver (rc_Totals recompute) (po_Funded posted) (rc_ExpectedCarryIn recompute);
    mret (fromAssertions
      [ root;
        mkAssertion AssertTotals Pass
          (formatAmounts (rc_Totals recompute) +:+ " recomputed; nothing posted to compare with");
        cap;
        mkAssertion AssertCarryIn Pass
          (formatAmounts (rc_ExpectedCarryIn recompute) +:+ " = " +:+ rc_CarryFrom recompute +:+
           "; nothing posted to compare with");
        expectedStoodIn ]).

(** [expected] is a [*chain.Hash], nil without [--expect]. *)
Definition Assess (recompute : Recompute) (posted : Posted) (expected : option Hash)
    : Res Empty_set Assessment :=
  if po_HasRoot posted then
    assessed ← assessPosted recompute posted;
    mret match expected with
         | Some e => withExpected assessed (assertExpected e (po_Root posted))
         | None => assessed
         end
  else if po_Skipped posted then
    let assessed := assessSkipped recompute in
    mret match expected with
         | Some e => withExpected assessed (mkAssertion AssertExpected Fail_
             ("expected " +:+ hashText e +:+
              ", but the Epoch was skipped by a later Root: nothing can be posted for it"))
         | None => assessed
         end
  else
    match expected with
    | Some e => assessExpected recompute posted e
    | None =>
        if rc_HasRoot recompute then
          mret (mkAssessment Indeterminate []
            ("no Root posted yet: the Recompute has one over " +:+
             BigString (rc_Holders recompute) +:+ " Holders"))
        else
          mret (fromAssertions
            [ mkAssertion AssertRoot Pass "no Root posted, and none recomputed: no eligible Holders";
              mkAssertion AssertTotals Pass "nothing committed, and nothing allocated";
              mkAssertion AssertCap NotApplicable "no totals committed";
              mkAssertion AssertCarryIn NotApplicable
                "no Root posted; the funding stays as Carry for the next Root" ])
    end.

Close Scope string_scope.
