(* ===== verification/ReportTheorems.v ===== *)
(** * What a Verdict asserts

    The claims on [Assess], [ExitCode] and [Worst], and what they mean together
    with the tree and the allocation rules. *)
From S2P Require Import Prelude Sorts Bytes Text Merkle MerkleEncode MerkleTree MerkleProof.
From S2P Require Import Twab TwabSpec Cases Alloc AllocSpec Report.

(** ** The specification of MATCH *)

(** Five amounts, none nil, that are equal. *)
Definition amounts_eq (a b : Amounts) : Prop := ∀ t, ∃ x, a !!! t = Some x ∧ b !!! t = Some x.

(** Totals within funding plus Carry, none nil. *)
Definition within_cap (totals funded carryIn : Amounts) : Prop :=
  ∀ t, ∃ x f c, totals !!! t = Some x ∧ funded !!! t = Some f ∧ carryIn !!! t = Some c ∧ x ≤ f + c.

Definition amounts_set (a : Amounts) : Prop := ∀ t, is_Some (a !!! t).

(** What has to hold for MATCH, case by case. *)
Definition matches (rc : Recompute) (po : Posted) (expected : option Hash) : Prop :=
  if po_HasRoot po then
    rc_HasRoot rc = true ∧ rc_Root rc = po_Root po ∧
    amounts_eq (rc_Totals rc) (po_Totals po) ∧
    within_cap (po_Totals po) (po_Funded po) (po_CarryIn po) ∧
    amounts_eq (rc_ExpectedCarryIn rc) (po_CarryIn po) ∧
    from_option (λ e, e = po_Root po) True expected
  else if po_Skipped po then rc_HasRoot rc = false ∧ expected = None
  else match expected with
       | Some e => rc_HasRoot rc = true ∧ rc_Root rc = e ∧
                   within_cap (rc_Totals rc) (po_Funded po) (rc_ExpectedCarryIn rc)
       | None => rc_HasRoot rc = false
       end.

(** The amounts the chain and the Recompute supply are not nil, but for those of a
    Root that is not posted. *)
Definition inputs_set (rc : Recompute) (po : Posted) : Prop :=
  amounts_set (rc_Totals rc) ∧ amounts_set (rc_ExpectedCarryIn rc) ∧ amounts_set (po_Funded po) ∧
  (po_HasRoot po = true → amounts_set (po_Totals po) ∧ amounts_set (po_CarryIn po)).

(** ** Lemmas *)

Lemma firstDifference_from_None a b t :
  length a = length b →
  firstDifference_from t a b = None ↔ Forall2 (λ x y, ∃ z, x = Some z ∧ y = Some z) a b.
Proof.
  revert b t. induction a as [|x a IH]; intros [|y b] t Hlen; cbn; try done.
  injection Hlen as Hlen. rewrite Forall2_cons. destruct x as [x|], y as [y|]; try naive_solver.
  destruct (Z.eqb_spec x y) as [<-|Hne].
  - rewrite IH by done. naive_solver.
  - split; [done|]. intros [(z & [= ->] & [= ->]) _]. done.
Qed.

Lemma Forall2_vec {A B n} (R : A → B → Prop) (v : vec A n) (w : vec B n) :
  Forall2 R (vec_to_list v) (vec_to_list w) ↔ ∀ t, R (v !!! t) (w !!! t).
Proof.
  split.
  - intros H t. eapply Forall2_lookup_lr; [exact H|..]; by apply vlookup_lookup.
  - intros H. apply Forall2_same_length_lookup_2; [by rewrite !length_vec_to_list|].
    intros i x y Hx Hy. assert (i < n)%nat as Hi.
    { apply lookup_lt_Some in Hx. by rewrite length_vec_to_list in Hx. }
    specialize (H (nat_to_fin Hi)).
    pose proof (proj1 (vlookup_lookup v (nat_to_fin Hi) _) eq_refl) as H1.
    pose proof (proj1 (vlookup_lookup w (nat_to_fin Hi) _) eq_refl) as H2.
    rewrite fin_to_nat_to_fin in H1, H2. congruence.
Qed.

Lemma firstDifference_None a b : firstDifference a b = None ↔ amounts_eq a b.
Proof.
  unfold firstDifference. rewrite firstDifference_from_None by by rewrite !length_vec_to_list.
  exact (Forall2_vec (λ x y, ∃ z, x = Some z ∧ y = Some z) a b).
Qed.

Lemma overCap_spec {n} (totals funded carryIn : vec (option Z) n) t0 :
  (∀ t, is_Some (totals !!! t)) → (∀ t, is_Some (funded !!! t)) → (∀ t, is_Some (carryIn !!! t)) →
  ∃ o, overCap t0 (vec_to_list totals) (vec_to_list funded) (vec_to_list carryIn) = Ok o ∧
    (o = None ↔ ∀ t, ∃ x f c, totals !!! t = Some x ∧ funded !!! t = Some f ∧ carryIn !!! t = Some c ∧ x ≤ f + c).
Proof.
  revert t0. induction totals as [|x n totals IH]; inv_vec funded; inv_vec carryIn.
  { intros. exists None. split; [done|]. split; [|done]. intros _ t. inv_fin t. }
  intros c carryIn f funded t0 Hx Hf Hc.
  destruct (Hx 0%fin) as [x' Hx0], (Hf 0%fin) as [f' Hf0], (Hc 0%fin) as [c' Hc0].
  cbn in Hx0, Hf0, Hc0. subst. cbn [vec_to_list overCap].
  destruct (Z.ltb_spec (f' + c') x').
  - exists (Some t0). split; [done|]. split; [done|]. intros H0.
    destruct (H0 0%fin) as (? & ? & ? & [= <-] & [= <-] & [= <-] & ?). lia.
  - destruct (IH funded carryIn (S t0)) as (o & -> & Ho).
    { intros t. apply (Hx (FS t)). } { intros t. apply (Hf (FS t)). } { intros t. apply (Hc (FS t)). }
    exists o. split; [done|]. rewrite Ho. split.
    + intros H1 t. inv_fin t; [by exists x', f', c'|]. intros t. apply H1.
    + intros H1 t. apply (H1 (FS t)).
Qed.

Lemma assertCapOver_spec totals funded carryIn :
  amounts_set totals → amounts_set funded → amounts_set carryIn →
  ∃ a, assertCapOver totals funded carryIn = Ok a ∧ as_Name a = AssertCap ∧
    (as_Status a = Pass ∨ as_Status a = Fail_) ∧
    (as_Status a ≠ Fail_ ↔ within_cap totals funded carryIn).
Proof.
  intros Hx Hf Hc. destruct (overCap_spec totals funded carryIn 0 Hx Hf Hc) as (o & Ho & Hcap).
  unfold assertCapOver. rewrite Ho. cbn [mbind Res_bind]. eexists. split; [done|].
  destruct o as [t|]; cbn [as_Status as_Name]; (split; [done|]; split; [auto|]).
  - split; [done|]. intros H%Hcap. done.
  - split; [|done]. intros _. exact (proj1 Hcap eq_refl).
Qed.

(** The Verdict of a list of Assertions. *)
Lemma fromAssertions_Match l :
  as_Verdict (fromAssertions l) = Match ↔ Forall (λ a, as_Status a ≠ Fail_) l.
Proof.
  unfold fromAssertions. cbn [as_Verdict].
  enough (∀ v, v = Match ∨ v = Mismatch →
    foldl (λ verdict a, if decide (as_Status a = Fail_) then Mismatch else verdict) v l = Match ↔
    v = Match ∧ Forall (λ a, as_Status a ≠ Fail_) l) as H.
  { rewrite H by by left. naive_solver. }
  induction l as [|a l IH]; intros v Hv; cbn [foldl]; [naive_solver|].
  rewrite Forall_cons. destruct (decide (as_Status a = Fail_)) as [Ha|Ha].
  - rewrite IH by by right. split; [by intros [[=] _]|naive_solver].
  - rewrite IH by done. naive_solver.
Qed.

Lemma fromAssertions_verdict l :
  as_Verdict (fromAssertions l) = Match ∨ as_Verdict (fromAssertions l) = Mismatch.
Proof.
  unfold fromAssertions. cbn [as_Verdict].
  enough (∀ v, v = Match ∨ v = Mismatch →
    let w := foldl (λ verdict a, if decide (as_Status a = Fail_) then Mismatch else verdict) v l in
    w = Match ∨ w = Mismatch) as H by (apply H; by left).
  induction l as [|a l IH]; intros v Hv; cbn [foldl]; [done|]. apply IH. case_decide; auto.
Qed.

Definition names_of (expected : option Hash) : list string :=
  [AssertRoot; AssertTotals; AssertCap; AssertCarryIn] ++
  (if expected is Some _ then [AssertExpected] else []).

(** What [fromAssertions] gives for the lines of one branch. *)
Lemma assessed l (P : Prop) expected :
  as_Name <$> l = names_of expected → (Forall (λ a, as_Status a ≠ Fail_) l ↔ P) →
  (as_Verdict (fromAssertions l) = Match ↔ P) ∧
  (as_Verdict (fromAssertions l) = Mismatch ↔ ¬ P) ∧
  as_Name <$> as_Assertions (fromAssertions l) = names_of expected.
Proof.
  intros Hn HP. rewrite <-HP, <-fromAssertions_Match. split_and!; [done| |done].
  destruct (fromAssertions_verdict l) as [->| ->]; split; try done.
Qed.

Lemma assertRoot_spec rc po :
  as_Name (assertRoot rc po) = AssertRoot ∧
  (as_Status (assertRoot rc po) ≠ Fail_ ↔ rc_HasRoot rc = true ∧ rc_Root rc = po_Root po).
Proof.
  unfold assertRoot. destruct (rc_HasRoot rc); cbn [negb]; [|split; [done|naive_solver]].
  destruct (decide _); cbn; (split; [done|]); naive_solver.
Qed.

Lemma assertTotals_spec a b :
  as_Name (assertTotals a b) = AssertTotals ∧ (as_Status (assertTotals a b) ≠ Fail_ ↔ amounts_eq a b).
Proof.
  unfold assertTotals. rewrite <-firstDifference_None. destruct (firstDifference a b); cbn; naive_solver.
Qed.

Lemma assertCarryIn_spec rc b :
  as_Name (assertCarryIn rc b) = AssertCarryIn ∧
  (as_Status (assertCarryIn rc b) ≠ Fail_ ↔ amounts_eq (rc_ExpectedCarryIn rc) b).
Proof.
  unfold assertCarryIn. rewrite <-firstDifference_None. destruct (firstDifference _ b); cbn; naive_solver.
Qed.

Lemma assertExpected_spec e r :
  as_Name (assertExpected e r) = AssertExpected ∧ (as_Status (assertExpected e r) ≠ Fail_ ↔ e = r).
Proof. unfold assertExpected. destruct (decide (e = r)); cbn; naive_solver. Qed.

(** What a run knows when it is INDETERMINATE: nothing was there to compare. *)
Definition unposted (rc : Recompute) (po : Posted) (expected : option Hash) : Prop :=
  po_HasRoot po = false ∧ po_Skipped po = false ∧ expected = None ∧ rc_HasRoot rc = true.

Lemma Assess_spec rc po expected :
  inputs_set rc po →
  ∃ a, Assess rc po expected = Ok a ∧
    if decide (unposted rc po expected) then as_Verdict a = Indeterminate ∧ as_Assertions a = []
    else (as_Verdict a = Match ↔ matches rc po expected) ∧
         (as_Verdict a = Mismatch ↔ ¬ matches rc po expected) ∧
         as_Name <$> as_Assertions a = names_of expected.
Proof.
  intros (H1 & H2 & H4 & H35). unfold Assess, matches, unposted.
  destruct (po_HasRoot po); [destruct (H35 eq_refl) as [H3 H5]|].
  - destruct (decide (_ ∧ _)) as [Hu|_]; [naive_solver|]. unfold assessPosted, assertCap.
    destruct (assertCapOver_spec _ _ _ H3 H4 H5) as (cap & -> & Hcn & _ & Hcs). cbn [mbind Res_bind].
    destruct (assertRoot_spec rc po) as [Hrn Hrs], (assertTotals_spec (rc_Totals rc) (po_Totals po)) as [Htn Hts],
      (assertCarryIn_spec rc (po_CarryIn po)) as [Hin His].
    destruct expected as [e|]; eexists; (split; [done|]); cbn [from_option].
    + destruct (assertExpected_spec e (po_Root po)) as [Hen Hes]. unfold withExpected.
      apply assessed; cbn [as_Assertions fromAssertions app fmap list_fmap].
      * by rewrite Hrn, Htn, Hcn, Hin, Hen.
      * rewrite !Forall_cons, Forall_nil, Hrs, Hts, Hcs, His, Hes. tauto.
    + apply assessed; cbn [fmap list_fmap].
      * by rewrite Hrn, Htn, Hcn, Hin.
      * rewrite !Forall_cons, Forall_nil, Hrs, Hts, Hcs, His. tauto.
  - destruct (po_Skipped po).
    + destruct (decide (_ ∧ _)) as [Hu|_]; [naive_solver|].
      destruct expected as [e|]; eexists; (split; [done|]); unfold withExpected, assessSkipped;
        apply assessed; cbn [as_Assertions fromAssertions app fmap list_fmap];
        destruct (rc_HasRoot rc); try done; rewrite !Forall_cons, Forall_nil; cbn [as_Status];
        split; intros; destruct_and?; try done; split_and!; done.
    + destruct expected as [e|].
      * destruct (decide (_ ∧ _)) as [Hu|_]; [naive_solver|]. unfold assessExpected.
        destruct (rc_HasRoot rc) eqn:Hr; cbn [negb].
        -- destruct (assertCapOver_spec _ _ _ H1 H4 H2) as (cap & -> & Hcn & _ & Hcs). cbn [mbind Res_bind].
           eexists. split; [done|]. apply assessed; cbn [fmap list_fmap].
           ++ rewrite Hcn. by destruct (decide _).
           ++ rewrite !Forall_cons, Forall_nil, Hcs. destruct (decide (rc_Root rc = e)); cbn [as_Status]; 
                split; intros; destruct_and?; try done; split_and!; done.
        -- eexists. split; [done|]. apply assessed; [done|].
           rewrite !Forall_cons, Forall_nil. cbn [as_Status]. split; intros; destruct_and?; done.
      * destruct (rc_HasRoot rc).
        -- destruct (decide (_ ∧ _)) as [_|[]]; [|done]. by eexists.
        -- destruct (decide (_ ∧ _)) as [Hu|_]; [naive_solver|]. eexists. split; [done|]. apply assessed; [done|].
           rewrite !Forall_cons, Forall_nil. cbn [as_Status]. split; [done|]. intros _. split_and!; done.
Qed.

(** But for INDETERMINATE, every Assessment comes from its lines. *)
Lemma Assess_from rc po expected a :
  Assess rc po expected = Ok a → unposted rc po expected ∨ ∃ l, a = fromAssertions l.
Proof.
  unfold Assess, assessPosted, assessExpected, withExpected, unposted.
  destruct (po_HasRoot po).
  { intros (b & (cap & _ & Hb)%bind_Ok & Ha)%bind_Ok. apply (inj Ok) in Hb, Ha. subst.
    right. destruct expected; by eexists. }
  destruct (po_Skipped po).
  { intros Ha. apply (inj Ok) in Ha. subst. right. unfold assessSkipped. destruct expected; by eexists. }
  destruct expected as [e|].
  - destruct (rc_HasRoot rc); cbn [negb].
    + intros (cap & _ & Ha)%bind_Ok. apply (inj Ok) in Ha. subst. right. by eexists.
    + intros Ha. apply (inj Ok) in Ha. subst. right. by eexists.
  - destruct (rc_HasRoot rc); [by left|]. intros Ha. apply (inj Ok) in Ha. subst. right. by eexists.
Qed.

(** ** The claims *)

(** C14: [Assess] is MATCH exactly when everything it stands for holds: the Roots
    and all five totals and carries agree and the cap holds when a Root is posted;
    nothing was recomputed when none is posted or the Epoch was skipped; the
    Expectation is the recomputed Root and fits the cap when it stands in. It is
    INDETERMINATE exactly when there is a Recompute and nothing to compare it with,
    and MISMATCH otherwise. *)
Theorem Assess_verdict rc po expected :
  inputs_set rc po →
  ∃ a, Assess rc po expected = Ok a ∧
    (as_Verdict a = Match ↔ matches rc po expected) ∧
    (as_Verdict a = Indeterminate ↔ unposted rc po expected) ∧
    (as_Verdict a = Mismatch ↔ ¬ matches rc po expected ∧ ¬ unposted rc po expected).
Proof.
  intros Hin. destruct (Assess_spec rc po expected Hin) as (a & HA & Ha). exists a. split; [done|].
  case_decide as Hu.
  - destruct Ha as [-> _]. destruct Hu as (Hu1 & Hu2 & -> & Hu4). unfold matches. rewrite Hu1, Hu2, Hu4.
    split_and!; split; try done. intros [_ []]. split_and!; done.
  - destruct Ha as (Hm & Hmm & _). split_and!; [done| |naive_solver].
    split; [|done]. intros Hi. exfalso.
    assert (as_Verdict a ≠ Match) as Hn by (rewrite Hi; done). rewrite Hm in Hn. apply Hmm in Hn. by rewrite Hi in Hn.
Qed.

Definition some_amounts (x : Z) : Amounts := vreplicate 5 (Some x).

Lemma some_amounts_set x : amounts_set (some_amounts x).
Proof. intros t. unfold some_amounts. rewrite vlookup_replicate. by eexists. Qed.

Definition toy_recompute : Recompute :=
  mkRecompute true zeroHash (some_amounts 7) 2 (some_amounts 0) "the first Epoch".
Definition toy_posted : Posted :=
  mkPosted true false zeroHash (some_amounts 7) (some_amounts 7) (some_amounts 0).

Lemma toy_inputs_set : inputs_set toy_recompute toy_posted.
Proof. split_and!; try (intros _; split); apply some_amounts_set. Qed.

Lemma Assess_verdict_witness :
  inputs_set toy_recompute toy_posted ∧ ∃ a, Assess toy_recompute toy_posted None = Ok a.
Proof.
  split; [exact toy_inputs_set|].
  destruct (Assess_verdict toy_recompute toy_posted None toy_inputs_set) as (a & Ha & _).
  exists a. exact Ha.
Defined.

(** The lines are always the four Assertions in their order, five with an
    Expectation, unless the run is INDETERMINATE; a MISMATCH has a failed line and
    a MATCH has none. *)
Theorem Assess_lines rc po expected a :
  inputs_set rc po → Assess rc po expected = Ok a →
  (as_Verdict a = Indeterminate ∧ as_Assertions a = []) ∨
  (as_Name <$> as_Assertions a =
     [AssertRoot; AssertTotals; AssertCap; AssertCarryIn] ++ (if expected is Some _ then [AssertExpected] else []) ∧
   (as_Verdict a = Match ↔ Forall (λ l, as_Status l ≠ Fail_) (as_Assertions a)) ∧
   (as_Verdict a = Mismatch ↔ Exists (λ l, as_Status l = Fail_) (as_Assertions a))).
Proof.
  intros Hin HA. destruct (Assess_spec rc po expected Hin) as (a' & HA' & Ha).
  assert (a = a') as <- by congruence. clear HA'. case_decide as Hu; [by left|right].
  destruct Ha as (Hm & Hmm & Hn). split; [done|].
  destruct (Assess_from rc po expected a HA) as [?|[l ->]]; [done|].
  rewrite fromAssertions_Match. cbn [as_Assertions fromAssertions]. split; [done|].
  rewrite Hmm, <-Hm, fromAssertions_Match. split.
  - intros Hf. apply not_Forall_Exists in Hf; [|apply _]. eapply Exists_impl; [exact Hf|].
    cbn. intros x Hx. by apply dec_stable.
  - intros Hx Hf. apply Exists_exists in Hx as (x & Hin' & Hx). rewrite Forall_forall in Hf. by apply (Hf x).
Qed.

Lemma Assess_lines_witness :
  ∃ a, Assess toy_recompute toy_posted (Some zeroHash) = Ok a ∧ as_Verdict a = Match ∧
       length (as_Assertions a) = 5%nat.
Proof.
  set (r := Assess toy_recompute toy_posted (Some zeroHash)).
  destruct r as [a|e|f] eqn:Hr; [|by vm_compute in Hr..].
  exists a. split; [reflexivity|].
  assert (as_Verdict a = Match) as Hm by (vm_compute in Hr; by injection Hr as <-).
  split; [exact Hm|].
  destruct (Assess_lines toy_recompute toy_posted (Some zeroHash) a toy_inputs_set Hr) as [[Hi _]|[Hn _]].
  - rewrite Hm in Hi. done.
  - apply (f_equal length) in Hn. rewrite length_fmap in Hn. exact Hn.
Defined.

(** Exit 0 is MATCH and nothing else, for one Epoch and for a run of several:
    one INDETERMINATE makes the run exit 2 whatever the rest, otherwise one
    MISMATCH makes it exit 1. *)
Theorem Exit_codes v vs :
  (ExitCode v = 0 ↔ v = Match) ∧
  (Indeterminate ∈ vs → ExitCode (Worst vs) = 2) ∧
  (Indeterminate ∉ vs → Mismatch ∈ vs → ExitCode (Worst vs) = 1) ∧
  (ExitCode (Worst vs) = 0 ↔ (Indeterminate ∉ vs) ∧ (Mismatch ∉ vs)).
Proof.
  assert (∀ w, w = Match ∨ w = Mismatch → worst_loop w vs =
    if decide (Indeterminate ∈ vs) then Indeterminate
    else if decide (Mismatch ∈ vs) then Mismatch else w) as Hw.
  { induction vs as [|x vs IH]; intros w Hw; cbn [worst_loop]; [done|].
    destruct (decide (x = Indeterminate)) as [->|Hi].
    { by rewrite decide_True by set_solver. }
    rewrite (decide_ext (Indeterminate ∈ x :: vs) (Indeterminate ∈ vs)) by set_solver.
    destruct (decide (x = Mismatch)) as [->|Hm]; rewrite IH by auto.
    - destruct (decide (Indeterminate ∈ vs)); [done|]. rewrite (decide_True (P := Mismatch ∈ Mismatch :: vs)) by set_solver.
      by destruct (decide (Mismatch ∈ vs)).
    - by rewrite (decide_ext (Mismatch ∈ x :: vs) (Mismatch ∈ vs)) by set_solver. }
  unfold Worst. rewrite (Hw Match) by by left. split.
  { unfold ExitCode. destruct (decide (v = Match)); [done|]. by destruct (decide (v = Mismatch)). }
  split_and!.
  - intros Hi. by rewrite decide_True.
  - intros Hi Hm. by rewrite decide_False, decide_True.
  - destruct (decide (Indeterminate ∈ vs)); [split; [done|naive_solver]|].
    destruct (decide (Mismatch ∈ vs)); [split; [done|naive_solver]|]. by split.
Qed.

Lemma Exit_codes_witness :
  ExitCode (Worst [Mismatch; Indeterminate; Match]) = 2 ∧ ExitCode (Worst [Match; Mismatch]) = 1.
Proof.
  split.
  - apply (proj1 (proj2 (Exit_codes Match [Mismatch; Indeterminate; Match]))). set_solver.
  - apply (proj1 (proj2 (proj2 (Exit_codes Match [Match; Mismatch])))); [|set_solver].
    rewrite !elem_of_cons, elem_of_nil. by intros [?|[?|?]].
Defined.

(** ** Verdicts over Recomputes *)

(** A [Recompute] that reports the Result of [Allocate] under [p]. *)
Definition reports (rc : Recompute) (p : Params) (r : Result) : Prop :=
  rc_HasRoot rc = res_HasRoot r ∧ rc_Root rc = res_Root r ∧
  rc_Totals rc = vmap Some (res_Totals r) ∧ rc_ExpectedCarryIn rc = p_CarryIn p.

Lemma vmap_Some_set (v : vec Z 5) : amounts_set (vmap Some v).
Proof. intros t. rewrite vlookup_map. by eexists. Qed.

Lemma funding_set p b : base p = Ok b → amounts_set (p_Funded p) ∧ amounts_set (p_CarryIn p).
Proof.
  rewrite base_Ok. intros H. split; intros t; destruct (H t) as (f & c & Hf & Hc & _); by eexists.
Qed.

Lemma result_within_cap keccak256 p hs b r :
  base p = Ok b → holders_ok hs → Allocate keccak256 p hs = Ok r →
  within_cap (vmap Some (res_Totals r)) (p_Funded p) (p_CarryIn p).
Proof.
  intros Hb Hh HA t. destruct (Allocate_inv keccak256 p b hs Hb Hh r HA) as (_ & _ & Ht & _).
  pose proof (totals_bounds p b hs Hb Hh t) as [Hr _]. cbn zeta in Hr. rewrite <-Ht in Hr.
  apply base_Ok in Hb. destruct (Hb t) as (f & c & Hf & Hc & _ & _ & Hsum).
  exists (res_Totals r !!! t), f, c. rewrite vlookup_map. split_and!; [done..|lia].
Qed.

(** An honest poster passes: a Root posted with the totals and the Carry the
    rules give is a MATCH, and so is the same Root as an Expectation before it is
    posted. *)
Theorem Honest_match keccak256 p hs b r rc skipped :
  base p = Ok b → holders_ok hs → Allocate keccak256 p hs = Ok r → res_HasRoot r = true →
  reports rc p r →
  (∃ a, Assess rc (mkPosted true skipped (res_Root r) (vmap Some (res_Totals r)) (p_Funded p) (p_CarryIn p)) None
        = Ok a ∧ as_Verdict a = Match) ∧
  (∀ totals carryIn, ∃ a, Assess rc (mkPosted false false zeroHash totals (p_Funded p) carryIn)
        (Some (res_Root r)) = Ok a ∧ as_Verdict a = Match).
Proof.
  intros Hb Hh HA Hroot (H1 & H2 & H3 & H4). destruct (funding_set p b Hb) as [Hfs Hcs].
  pose proof (result_within_cap keccak256 p hs b r Hb Hh HA) as Hcap. split.
  - edestruct (Assess_spec rc) as (a & HAs & Ha); [|exists a; split; [exact HAs|]].
    { unfold inputs_set. rewrite H3, H4. cbn. split_and!; [apply vmap_Some_set|done|done|]. intros _.
      split; [apply vmap_Some_set|done]. }
    case_decide as Hu; [by destruct Hu|]. apply Ha. unfold matches. cbn.
    rewrite H1, H2, H3, H4, Hroot. split_and!; try done.
    + intros t. rewrite vlookup_map. by eexists.
    + intros t. destruct (Hcs t) as [c ->]. by exists c.
  - intros totals carryIn. edestruct (Assess_spec rc) as (a & HAs & Ha); [|exists a; split; [exact HAs|]].
    { unfold inputs_set. rewrite H3, H4. cbn. split_and!; [apply vmap_Some_set|done|done|done]. }
    case_decide as Hu; [by destruct Hu as (_ & _ & [=] & _)|]. apply Ha. unfold matches. cbn.
    rewrite H1, H2, H3, H4, Hroot. split_and!; done.
Qed.

Definition sell_recompute : Recompute :=
  mkRecompute true (res_Root sell_result) (vmap Some (res_Totals sell_result)) 2
    (p_CarryIn sell_params) "the first Epoch".

Lemma sell_reports : reports sell_recompute sell_params sell_result.
Proof. split_and!; by vm_compute. Qed.

Lemma Honest_match_witness :
  Allocate sum_hash sell_params sell_hs = Ok sell_result ∧ res_HasRoot sell_result = true ∧
  ∃ a, Assess sell_recompute
         (mkPosted true false (res_Root sell_result) (vmap Some (res_Totals sell_result))
            (p_Funded sell_params) (p_CarryIn sell_params)) None = Ok a ∧ as_Verdict a = Match.
Proof.
  split; [exact sell_allocates|]. assert (res_HasRoot sell_result = true) as Hr by by vm_compute.
  split; [exact Hr|].
  exact (proj1 (Honest_match sum_hash sell_params sell_hs sell_base sell_result sell_recompute false
    sell_base_Ok sell_holders_ok sell_allocates Hr sell_reports)).
Defined.

(** C13: a MATCH pins the poster: if a posted Root gets MATCH and is the Root of a
    tree over some claims, those claims are the Recompute's Allocations, whoever
    built the tree, unless the hash collides on what was hashed; and its totals are
    the sums of those Allocations, within funding plus Carry. *)
Theorem Match_binds keccak256 p hs b r rc po a claims' t' :
  base p = Ok b → holders_ok hs → Allocate keccak256 p hs = Ok r → reports rc p r →
  inputs_set rc po → po_HasRoot po = true → Assess rc po None = Ok a → as_Verdict a = Match →
  New keccak256 claims' = Ok t' → Root t' = Ok (po_Root po) →
  (claims' ≡ₚ claims (p_EpochID p) (res_Allocations r) ∨
   ∃ t, res_Tree r = Some t ∧
        collision keccak256 (tree_inputs keccak256 t) (tree_inputs keccak256 t')) ∧
  (∀ i, po_Totals po !!! i = Some (sum_of (λ x, a_Amounts x !!! i) (res_Allocations r))) ∧
  within_cap (po_Totals po) (po_Funded po) (po_CarryIn po).
Proof.
  intros Hb Hh HA (H1 & H2 & H3 & H4) Hin Hpo HAs Hm HN HR.
  destruct (Assess_spec rc po None Hin) as (a' & HAs' & Ha). assert (a = a') as <- by congruence.
  case_decide as Hu; [destruct Hu; congruence|]. apply Ha in Hm. unfold matches in Hm. rewrite Hpo in Hm.
  destruct Hm as (Hhas & Hroot & Htot & Hcap & _).
  destruct (Allocate_inv keccak256 p b hs Hb Hh r HA) as (Hal & _ & Ht & _ & _ & Htree).
  rewrite <-H1, Hhas in Htree. destruct Htree as (t & Hres & HRt & HNt).
  split_and!; [| |done].
  - rewrite Hal. rewrite <-H2, Hroot in HRt.
    destruct (Root_tree_binds keccak256 _ _ t t' _ HNt HN HRt HR) as [Hp|Hc]; [by left|right; by exists t].
  - intros i. destruct (Htot i) as (x & Hx1 & Hx2). rewrite Hx2. rewrite H3, vlookup_map in Hx1.
    injection Hx1 as <-. by rewrite Ht, Hal.
Qed.

Lemma Match_binds_witness :
  ∃ t' a, let claims' := reverse (claims 1000 (res_Allocations sell_result)) in
  let po := mkPosted true false (res_Root sell_result) (vmap Some (res_Totals sell_result))
              (p_Funded sell_params) (p_CarryIn sell_params) in
  New sum_hash claims' = Ok t' ∧ Assess sell_recompute po None = Ok a ∧ as_Verdict a = Match ∧
  (claims' ≡ₚ claims 1000 (res_Allocations sell_result) ∨
   ∃ t, res_Tree sell_result = Some t ∧ collision sum_hash (tree_inputs sum_hash t) (tree_inputs sum_hash t')).
Proof.
  set (claims' := reverse (claims 1000 (res_Allocations sell_result))).
  set (po := mkPosted true false (res_Root sell_result) (vmap Some (res_Totals sell_result))
              (p_Funded sell_params) (p_CarryIn sell_params)).
  set (t' := default (mkTree [] [] []) (ok_of (New sum_hash claims'))).
  set (a := default (mkAssessment "" [] "") (ok_of (Assess sell_recompute po None))).
  assert (New sum_hash claims' = Ok t') as HN by (vm_compute; reflexivity).
  assert (Root t' = Ok (po_Root po)) as HR by (vm_compute; reflexivity).
  assert (Assess sell_recompute po None = Ok a) as HA by (vm_compute; reflexivity).
  assert (as_Verdict a = Match) as Hm by (vm_compute; reflexivity).
  assert (inputs_set sell_recompute po) as Hin.
  { destruct (funding_set sell_params sell_base sell_base_Ok) as [Hf Hc].
    pose proof (vmap_Some_set (res_Totals sell_result)) as Ht.
    exact (conj Ht (conj Hc (conj Hf (λ _, conj Ht Hc)))). }
  exists t', a. split; [exact HN|]. split; [exact HA|]. split; [exact Hm|].
  exact (proj1 (Match_binds sum_hash sell_params sell_hs sell_base sell_result sell_recompute po a claims' t'
    sell_base_Ok sell_holders_ok sell_allocates sell_reports Hin eq_refl HA Hm HN HR)).
Defined.
