(* ===== verification/Chain.v ===== *)
(** * chain: types, words and the ABI decoders

    [chain.go], [word.go], [event.go], [call.go] and [excluded.go]: what is read
    off the wire once the JSON is gone. Go strings are [string], byte slices
    [list byte]. The text of most errors carries the offending value; the model
    keeps which check failed and its numbers. [keccak256] is a parameter, as in
    [Merkle]. The names the events share with [internal/twab] keep their package's
    name as a prefix: [ChainTransfer], [ChainExclusion]. *)
From S2P Require Import Prelude Sorts Bytes Text Merkle Twab.

(** ** chain.go *)

Definition TokenCount : nat := 5.

Inductive Kind := KindEpoch | KindDraw.

#[global] Instance Kind_eq_dec : EqDecision Kind.
Proof. solve_decision. Defined.

(** The enum's ordinal. *)
Definition kindOrdinal (k : Kind) : Z := match k with KindEpoch => 0 | KindDraw => 1 end.

Record Block := mkBlock {
  b_Number : Z;
  b_Hash : Hash;
  b_ParentHash : Hash;
  b_Timestamp : Z;
}.

Record Site := mkSite {
  site_BlockNumber : Z;
  site_BlockHash : Hash;
  site_LogIndex : Z;
  site_Timestamp : Z;
}.

Record ChainTransfer := mkChainTransfer {
  ct_Site : Site;
  ct_From : Address;
  ct_To : Address;
  ct_Value : option Z;
}.

Record ChainExclusion := mkChainExclusion { ce_Site : Site; ce_Account : Address }.

Record RootPosted := mkRootPosted {
  rp_Site : Site;
  rp_Kind : Kind;
  rp_ID : Z;
  rp_Root : Hash;
  rp_Totals : vec (option Z) 5;
  rp_CarryIn : vec (option Z) 5;
}.

Record LedgerBook := mkLedgerBook {
  lb_Root : Hash;
  lb_RootPostedAt : Z;
  lb_Skipped : bool;
  lb_Funded : vec (option Z) 5;
  lb_Totals : vec (option Z) 5;
  lb_Claimed : vec (option Z) 5;
}.

(** [Ledger.HasRoot]. *)
Definition HasRoot (l : LedgerBook) : bool := negb (lb_RootPostedAt l =? 0).

(** ** word.go *)

Definition addressSize : nat := 20.

Inductive chainError :=
  | errNoPrefix
  | errNoDigits
  | errOddDigits
  | errNotQuantity
  | errNotHex
  | errSize (got want : nat)
  | errNotUint64
  | errNotAddress
  | errNotBool
  | errNotThisEvent
  | errTopics (got want : nat)
  | errData (got want : nat)
  | errKind
  | errField (name : string) (cause : chainError)
  | errReturned (got want : nat)
  | errNotUnixSecond
  | errNoLaunch
  | errNoCurve
  | errHeadOffset
  | errEntries (claimed : Z) (bytes : nat)
  | errEntry (i : nat) (cause : chainError)
  | errFinality (level : string)
  | errNoEndpoint
  | errRate
  | errEndpointURL (position : nat)
  | errNoToken
  | errNoDistributor
  | errNoFactory
  | errTransport
  | errRetryable (status : Z)
  | errHTTP (status : Z)
  | errGaveUp (last : chainError)
  | errJSON
  | errRPC (code : Z) (message : string)
  | errNoAnswer
  | errUnanswered (id : Z)
  | errBatchRefused (cause : chainError)
  | errRemoved
  | errWrongBlock (asked given : Z)
  | errLogAddress (address : Address)
  | errLogTopic (block index : Z)
  | errLogBlock (block : Z)
  | errEndpoint (endpoint : nat) (cause : chainError)
  | errDisagreement (endpoint : nat)
  | errBackwards (from to : Z)
  | errCancelled
  | errEpochNotClosed (epochID number timestamp : Z)
  | errPredatesChain (epochID : Z).

Definition digitsOf (s : string) : Res chainError string :=
  match s with
  | String "0" (String "x" digits) | String "0" (String "X" digits) => Ok digits
  | _ => Err errNoPrefix
  end.

Definition parseQuantity (s : string) : Res chainError Z :=
  digits ← digitsOf s;
  if decide (digits = EmptyString) then Err errNoDigits
  else or_err (ParseUint 16 digits) errNotQuantity.

Definition quantity (n : Z) : string := String "0" (String "x" (FormatUint 16 n)).

Definition parseHexBytes (s : string) : Res chainError (list byte) :=
  digits ← digitsOf s;
  if (String.length digits mod 2 =? 0)%nat then or_err (DecodeString digits) errNotHex
  else Err errOddDigits.

Definition hexBytes (b : list byte) : string := String "0" (String "x" (EncodeToString b)).

Definition ParseHash (s : string) : Res chainError Hash :=
  raw ← parseHexBytes s;
  if (length raw =? wordSize)%nat then Ok (copy_array 32 raw) else Err (errSize (length raw) wordSize).

Definition ParseAddress (s : string) : Res chainError Address :=
  raw ← parseHexBytes s;
  if (length raw =? addressSize)%nat then Ok (copy_array 20 raw)
  else Err (errSize (length raw) addressSize).

(** [Address.String] and [Hash.String]. *)
Definition AddressString (a : Address) : string := hexBytes (vec_to_list a).
Definition HashString (h : Hash) : string := hexBytes (vec_to_list h).

Definition wordUint256 (word : list byte) : Z := be_decode word.

Definition zeros (l : list byte) : bool := forallb (λ b, bool_decide (b = x00)) l.

(** [n = n<<8 | uint64(b)] over the last eight bytes. *)
Definition wordUint64 (word : list byte) : Res chainError Z :=
  if zeros (take (wordSize - 8) word) then
    Ok (foldl (λ n b, Z.lor (u64 (Z.shiftl n 8)) (byte_to_Z b)) 0 (drop (wordSize - 8) word))
  else Err errNotUint64.

Definition wordAddress (word : list byte) : Res chainError Address :=
  if zeros (take (wordSize - addressSize) word)
  then Ok (copy_array 20 (drop (wordSize - addressSize) word)) else Err errNotAddress.

Definition wordBool (word : list byte) : Res chainError bool :=
  match wordUint64 word with
  | Ok n => if n <=? 1 then Ok (n =? 1) else Err errNotBool
  | Err _ => Err errNotBool
  | Fault x => Fault x
  end.

(** [data[i*32 : (i+1)*32]] of a payload whose length was checked. *)
Definition dataWord (data : list byte) (i : nat) : list byte :=
  slice data (i * wordSize) ((i + 1) * wordSize).

(** Five consecutive words of a payload. *)
Definition dataAmounts (data : list byte) (i : nat) : vec (option Z) 5 :=
  let word j := Some (wordUint256 (dataWord data (i + j))) in
  [# word 0%nat; word 1%nat; word 2%nat; word 3%nat; word 4%nat].

(** ** event.go *)

Record eventLog := mkEventLog {
  el_Address : Address;
  el_Topics : list Hash;
  el_Data : list byte;
  el_BlockNumber : Z;
  el_BlockHash : Hash;
  el_LogIndex : Z;
}.

(** [eventLog.check]. *)
Definition check (l : eventLog) (topic0 : Hash) (topics dataWords : nat) : Res chainError () :=
  match el_Topics l with
  | [] => Err errNotThisEvent
  | t :: _ =>
      if decide (t = topic0) then
        if (length (el_Topics l) =? topics + 1)%nat then
          if (length (el_Data l) =? dataWords * wordSize)%nat then Ok ()
          else Err (errData (length (el_Data l)) (dataWords * wordSize))
        else Err (errTopics (length (el_Topics l)) (topics + 1))
      else Err errNotThisEvent
  end.

(** [eventLog.site]: the timestamp is filled in later. *)
Definition site (l : eventLog) : Site :=
  mkSite (el_BlockNumber l) (el_BlockHash l) (el_LogIndex l) 0.

Definition topicWord (l : eventLog) (i : nat) : Res chainError (list byte) :=
  vec_to_list <$> index (el_Topics l) i.

Definition rootPostedWords : nat := 1 + 2 * TokenCount.
Definition ledgerWords : nat := 3 + 3 * TokenCount.
Definition launchedTokenWords : nat := 15.
Definition selectorSize : nat := 4.

(** ** call.go: the decoders *)

Definition decodeLedger (data : list byte) : Res chainError LedgerBook :=
  if negb (length data =? ledgerWords * wordSize)%nat
  then Err (errReturned (length data) (ledgerWords * wordSize))
  else
    skipped ← wrap (errField "skipped") (wordBool (dataWord data 2));
    postedAt ← match wordUint64 (dataWord data 1) with
               | Ok n => if MaxInt64 <? n then Err errNotUnixSecond else Ok n
               | Err _ => Err errNotUnixSecond
               | Fault x => Fault x
               end;
    mret (mkLedgerBook (copy_array 32 (dataWord data 0)) postedAt skipped
            (dataAmounts data 3) (dataAmounts data (3 + TokenCount))
            (dataAmounts data (3 + 2 * TokenCount))).

Definition decodeLaunchedToken (data : list byte) : Res chainError Address :=
  if negb (length data =? launchedTokenWords * wordSize)%nat
  then Err (errReturned (length data) (launchedTokenWords * wordSize))
  else
    exists_ ← wrap (errField "exists") (wordBool (dataWord data (launchedTokenWords - 1)));
    if (exists_ : bool) then
      curve ← wrap (errField "curve") (wordAddress (dataWord data 1));
      if decide (curve = zeroAddress) then Err errNoCurve else Ok curve
    else Err errNoLaunch.

(** The elements of an address array, from the [i]-th on. *)
Fixpoint decodeEntries (data : list byte) (i n : nat) : Res chainError (list Address) :=
  match n with
  | O => Ok []
  | S n =>
      a ← wrap (errEntry i) (wordAddress (dataWord data (2 + i)));
      rest ← decodeEntries data (S i) n;
      mret (a :: rest)
  end.

Definition decodeAddressArray (data : list byte) : Res chainError (list Address) :=
  let header := (2 * wordSize)%nat in
  if (length data <? header)%nat then Err (errReturned (length data) header)
  else
    _ ← match wordUint64 (dataWord data 0) with
        | Ok offset => if offset =? Z.of_nat wordSize then Ok () else Err errHeadOffset
        | Err _ => Err errHeadOffset
        | Fault x => Fault x
        end;
    length_ ← wrap (errField "length") (wordUint64 (dataWord data 1));
    if Z.of_nat ((length data - header) / wordSize) <? length_ then Err (errEntries length_ (length data))
    else
      let n := Z.to_nat length_ in
      if negb (length data =? header + n * wordSize)%nat then Err (errEntries length_ (length data))
      else decodeEntries data 0 n.

(** ** event.go and call.go: what depends on the hash *)

Definition stringBytes (s : string) : list byte :=
  (λ c, byte_of_Z (ascii_code c)) <$> String.list_ascii_of_string s.

Section hashed.
Context (keccak256 : list byte → Hash).

Definition topicTransfer : Hash := keccak256 (stringBytes "Transfer(address,address,uint256)").
Definition topicRootPosted : Hash :=
  keccak256 (stringBytes "RootPosted(uint8,uint256,bytes32,uint256[5],uint256[5])").
Definition topicExcludedAppended : Hash := keccak256 (stringBytes "ExcludedAppended(address)").

Definition decodeTransfer (l : eventLog) : Res chainError ChainTransfer :=
  _ ← check l topicTransfer 2 1;
  w1 ← topicWord l 1;
  from ← wrap (errField "from") (wordAddress w1);
  w2 ← topicWord l 2;
  to ← wrap (errField "to") (wordAddress w2);
  mret (mkChainTransfer (site l) from to (Some (wordUint256 (el_Data l)))).

Definition decodeRootPosted (l : eventLog) : Res chainError RootPosted :=
  _ ← check l topicRootPosted 2 rootPostedWords;
  w1 ← topicWord l 1;
  kind ← match wordUint64 w1 with
         | Ok n => if n =? 0 then Ok KindEpoch else if n =? 1 then Ok KindDraw else Err errKind
         | Err _ => Err errKind
         | Fault x => Fault x
         end;
  w2 ← topicWord l 2;
  id ← wrap (errField "id") (wordUint64 w2);
  mret (mkRootPosted (site l) kind id (copy_array 32 (take wordSize (el_Data l)))
          (dataAmounts (el_Data l) 1) (dataAmounts (el_Data l) (1 + TokenCount))).

Definition decodeExcludedAppended (l : eventLog) : Res chainError ChainExclusion :=
  _ ← check l topicExcludedAppended 1 0;
  w1 ← topicWord l 1;
  account ← wrap (errField "account") (wordAddress w1);
  mret (mkChainExclusion (site l) account).

Definition selectorOf (signature : string) : list byte :=
  take selectorSize (vec_to_list (keccak256 (stringBytes signature))).

Definition selectorLedger : list byte := selectorOf "ledger(uint8,uint256)".
Definition selectorExcluded : list byte := selectorOf "excluded()".
Definition selectorGetLaunchedToken : list byte := selectorOf "getLaunchedToken(address)".

Definition encodeLedgerCall (kind : Kind) (id : Z) : list byte :=
  let out := replicate (selectorSize + 2 * wordSize) x00 in
  let out := splice out 0 selectorLedger in
  let out := splice out (selectorSize + wordSize - 1) [byte_of_Z (kindOrdinal kind)] in
  splice out (selectorSize + wordSize) (be_encode wordSize id).

Definition encodeGetLaunchedToken (token : Address) : list byte :=
  let out := replicate (selectorSize + wordSize) x00 in
  let out := splice out 0 selectorGetLaunchedToken in
  splice out (selectorSize + wordSize - addressSize) (vec_to_list token).

(** ** excluded.go *)

(** [chain.ExcludedAsOf]. *)
Definition ChainExcludedAsOf (epochID : Z) (exclusions : list ChainExclusion) : list Address :=
  ExcludedAsOf epochID
    ((λ e, mkExclusion (site_Timestamp (ce_Site e)) (ce_Account e)) <$> exclusions).

(** [ExcludedSet.Hash]. *)
Definition ExcludedSetHash (s : list Address) : Hash := keccak256 (s ≫= vec_to_list).
End hashed.
