(* ===== verification/ChainTheorems.v ===== *)
(** * The decoders accept exactly the encodings

    Each ABI decoder of the chain package against the encoding Solidity makes:
    what it accepts is the encoding of what it returns, and nothing else. *)
From S2P Require Import Prelude Sorts Bytes Text Merkle MerkleEncode Twab Chain.

(** ** The encodings *)

Definition abi_uint (z : Z) : list byte := be_encode wordSize z.
Definition abi_address (a : Address) : list byte := replicate 12 x00 ++ vec_to_list a.
Definition abi_bool (b : bool) : list byte := abi_uint (if b then 1 else 0).
Definition abi_amounts (v : vec Z 5) : list byte := vec_to_list v ≫= abi_uint.

(** [abi.encode(address[])]. *)
Definition abi_address_array (l : list Address) : list byte :=
  abi_uint 32 ++ abi_uint (Z.of_nat (length l)) ++ (l ≫= abi_address).

Definition is_uint256 (z : Z) : Prop := 0 ≤ z < 2 ^ 256.

(** ** Words *)

Lemma length_abi_uint z : length (abi_uint z) = wordSize.
Proof. apply length_be_encode. Qed.
Lemma length_abi_address a : length (abi_address a) = wordSize.
Proof. unfold abi_address. by rewrite length_app, length_replicate, length_vec_to_list. Qed.

Lemma zeros_spec l : zeros l = true ↔ l = replicate (length l) x00.
Proof.
  unfold zeros. induction l as [|b l IH]; [done|]. cbn [forallb length replicate].
  rewrite andb_true_iff, bool_decide_eq_true, IH. split; [by intros [-> <-]|].
  intros [= -> Hl]. by rewrite <-Hl.
Qed.

Lemma be_decode_app l k : be_decode (l ++ k) = be_decode l * 256 ^ Z.of_nat (length k) + be_decode k.
Proof.
  revert l. induction k as [|b k IH] using rev_ind; intros l; [rewrite app_nil_r; cbn; lia|].
  rewrite app_assoc, !be_decode_snoc, IH, length_app. cbn [length].
  rewrite Nat2Z.inj_add, Z.pow_add_r by lia. change (256 ^ Z.of_nat 1) with 256. ring.
Qed.

Lemma lor_shift x b : 0 ≤ b < 256 → Z.lor (Z.shiftl x 8) b = x * 256 + b.
Proof.
  intros Hb. pose proof (Z.add_lor_land (Z.shiftl x 8) b) as Hsum.
  assert (Z.shiftl x 8 = x * 256) as He by (rewrite Z.shiftl_mul_pow2; lia).
  enough (Z.land (Z.shiftl x 8) b = 0) by lia.
  apply Z.bits_inj'. intros i Hi. rewrite Z.land_spec, Z.bits_0.
  destruct (Z.lt_ge_cases i 8) as [Hlt|Hge].
  - by rewrite Z.shiftl_spec_low.
  - rewrite (Z.bits_above_log2 b), andb_false_r; [done|lia|].
    destruct (decide (b = 0)) as [->|]; [cbn; lia|].
    apply Z.log2_lt_pow2; [lia|]. apply Z.lt_le_trans with (2 ^ 8); [lia|]. apply Z.pow_le_mono_r; lia.
Qed.

(** The shift-and-or loop is the big-endian value when it fits. *)
Lemma shift_or_decode l :
  (length l ≤ 8)%nat →
  foldl (λ n b, Z.lor (u64 (Z.shiftl n 8)) (byte_to_Z b)) 0 l = be_decode l.
Proof.
  induction l as [|b l IH] using rev_ind; intros Hl; [done|].
  rewrite length_app in Hl. cbn [length] in Hl. rewrite foldl_app, be_decode_snoc. cbn [foldl].
  rewrite IH by lia. pose proof (be_decode_range l) as Hr.
  assert (256 ^ Z.of_nat (length l) ≤ 256 ^ 7) by (apply Z.pow_le_mono_r; lia).
  rewrite u64_id; [apply lor_shift, byte_to_Z_range|].
  rewrite Z.shiftl_mul_pow2 by lia. unfold is_u64. lia.
Qed.

Lemma wordUint64_Ok w n :
  length w = wordSize → wordUint64 w = Ok n ↔ is_u64 n ∧ w = abi_uint n.
Proof.
  intros Hlen. unfold wordUint64, abi_uint. change (wordSize - 8)%nat with 24%nat.
  assert (length (drop 24 w) = 8%nat) as Hd by by rewrite length_drop, Hlen.
  assert (length (take 24 w) = 24%nat) as Ht by (rewrite length_take, Hlen; done).
  rewrite shift_or_decode by lia. split.
  - destruct (zeros _) eqn:Hz; [|done]. intros [= <-]. apply zeros_spec in Hz.
    pose proof (be_decode_range (drop 24 w)) as Hr. rewrite Hd in Hr. split; [exact Hr|].
    apply be_decode_inj; [by rewrite length_be_encode|].
    rewrite be_decode_encode by (change (256 ^ Z.of_nat wordSize) with (2 ^ 256); change (256 ^ Z.of_nat 8) with (2 ^ 64) in Hr; lia).
    rewrite <-(take_drop 24 w) at 1. by rewrite Hz, be_decode_zeros.
  - intros [Hn ->]. assert (be_encode wordSize n = replicate 24 x00 ++ be_encode 8 n) as Hsplit.
    { apply be_decode_inj; [by rewrite length_app, !length_be_encode|].
      rewrite be_decode_zeros, !be_decode_encode; [done|exact Hn|].
      unfold is_u64 in Hn. change (256 ^ Z.of_nat wordSize) with (2 ^ 256). lia. }
    rewrite Hsplit.
    rewrite take_app_length', drop_app_length' by by rewrite length_replicate.
    rewrite (proj2 (zeros_spec _)) by by rewrite length_replicate.
    f_equal. apply be_decode_encode. exact Hn.
Qed.

Lemma wordAddress_Ok w a : length w = wordSize → wordAddress w = Ok a ↔ w = abi_address a.
Proof.
  intros Hlen. unfold wordAddress, abi_address. change (wordSize - addressSize)%nat with 12%nat.
  assert (length (drop 12 w) = 20%nat) as Hd by by rewrite length_drop, Hlen.
  assert (length (take 12 w) = 12%nat) as Ht by (rewrite length_take, Hlen; done). split.
  - destruct (zeros _) eqn:Hz; [|done]. intros [= <-]. apply zeros_spec in Hz. rewrite Ht in Hz.
    rewrite copy_array_to_list by done. rewrite <-(take_drop 12 w) at 1. by rewrite Hz.
  - intros ->. rewrite take_app_length', drop_app_length' by by rewrite length_replicate.
    rewrite (proj2 (zeros_spec _)) by by rewrite length_replicate. by rewrite copy_array_of_list.
Qed.

Lemma wordBool_Ok w b : length w = wordSize → wordBool w = Ok b ↔ w = abi_bool b.
Proof.
  intros Hlen. unfold wordBool, abi_bool. split.
  - destruct (wordUint64 w) as [n|e|x] eqn:Hw; [|done..].
    apply wordUint64_Ok in Hw as [[? ?] ->]; [|done].
    destruct (Z.leb_spec n 1); [|done]. intros [= <-].
    assert (n = 0 ∨ n = 1) as [->| ->] by lia; done.
  - intros ->. assert (wordUint64 (abi_uint (if b then 1 else 0)) = Ok (if b then 1 else 0)) as ->.
    { apply wordUint64_Ok; [done|]. split; [|done]. by destruct b. }
    by destruct b.
Qed.

Lemma wordUint256_word w : length w = wordSize → is_uint256 (wordUint256 w) ∧ abi_uint (wordUint256 w) = w.
Proof.
  intros Hlen. unfold is_uint256, wordUint256, abi_uint. split.
  - pose proof (be_decode_range w) as Hr. by rewrite Hlen in Hr.
  - rewrite <-Hlen at 1. apply be_encode_decode.
Qed.

Lemma wordUint256_abi z : is_uint256 z → wordUint256 (abi_uint z) = z.
Proof. intros Hz. by apply be_decode_encode. Qed.

(** ** Payloads of words *)

Definition words_ok (ws : list (list byte)) : Prop := Forall (λ w, length w = wordSize) ws.

Lemma length_words ws : words_ok ws → length (ws ≫= id) = (length ws * wordSize)%nat.
Proof.
  induction 1 as [|w ws Hw _ IH]; [done|]. rewrite bind_cons, length_app. cbn [length id]. rewrite IH. unfold id. lia.
Qed.

Lemma dataWord_words ws i w :
  words_ok ws → ws !! i = Some w → dataWord (ws ≫= id) i = w.
Proof.
  intros Hok Hi. apply list_elem_of_split_length in Hi as (l & r & -> & ->).
  apply Forall_app in Hok as [Hl Hr]. apply Forall_cons in Hr as [Hw Hr].
  rewrite bind_app, bind_cons. unfold dataWord. apply slice_app.
  - by rewrite length_words.
  - rewrite length_words by done. unfold id. lia.
Qed.

(** A payload of [n] words is the concatenation of its words. *)
Lemma words_of data n :
  length data = (n * wordSize)%nat → ∃ ws, words_ok ws ∧ length ws = n ∧ data = ws ≫= id.
Proof.
  revert data. induction n as [|n IH]; intros data Hlen.
  { apply nil_length_inv in Hlen as ->. exists []. split_and!; [constructor|done..]. }
  destruct (IH (drop wordSize data)) as (ws & Hok & Hws & Hd); [rewrite length_drop; lia|].
  exists (take wordSize data :: ws). split_and!.
  - constructor; [|done]. rewrite length_take. unfold wordSize in *. lia.
  - by cbn; f_equal.
  - rewrite bind_cons, <-Hd. unfold id. by rewrite take_drop.
Qed.

(** ** address[] *)

Lemma decodeEntries_Ok l : ∀ pre i,
  words_ok pre → length pre = (2 + i)%nat →
  decodeEntries ((pre ++ (abi_address <$> l)) ≫= id) i (length l) = Ok l.
Proof.
  induction l as [|a l IH]; intros pre i Hok Hlen; cbn [length decodeEntries]; [done|].
  rewrite fmap_cons.
  assert (words_ok (pre ++ abi_address a :: (abi_address <$> l))) as Hall.
  { apply Forall_app. split; [done|]. constructor; [apply length_abi_address|].
    apply Forall_fmap, Forall_forall. intros ? _. apply length_abi_address. }
  rewrite (dataWord_words _ (2 + i) (abi_address a)) by (first [done | by rewrite lookup_app_r, Hlen, Nat.sub_diag by lia]).
  rewrite (proj2 (wordAddress_Ok _ a (length_abi_address a)) eq_refl). cbn [wrap mbind Res_bind].
  rewrite (cons_middle (abi_address a)), app_assoc.
  rewrite IH; [done| |rewrite length_app; cbn; lia].
  apply Forall_app. split; [done|]. constructor; [apply length_abi_address|constructor].
Qed.

Lemma decodeEntries_inv n : ∀ ws i l,
  words_ok ws → length ws = (2 + i + n)%nat →
  decodeEntries (ws ≫= id) i n = Ok l → drop (2 + i) ws = abi_address <$> l ∧ length l = n.
Proof.
  induction n as [|n IH]; intros ws i l Hok Hlen; cbn [decodeEntries].
  { intros [= <-]. split; [|done]. apply drop_ge. lia. }
  intros (a & Ha & (l' & Hl & Heq)%bind_Ok)%bind_Ok. apply (inj Ok) in Heq as <-. apply wrap_Ok in Ha.
  destruct (lookup_lt_is_Some_2 ws (2 + i)) as [w Hw]; [lia|].
  rewrite (dataWord_words _ _ w) in Ha by done.
  apply wordAddress_Ok in Ha; [|unfold words_ok in Hok; rewrite Forall_lookup in Hok; by eapply Hok].
  apply IH in Hl as [Hl <-]; [|done|lia]. split; [|done].
  rewrite (drop_S _ w _ Hw), fmap_cons, Ha. f_equal. exact Hl.
Qed.

Lemma abi_address_array_words l :
  abi_address_array l = ([abi_uint 32; abi_uint (Z.of_nat (length l))] ++ (abi_address <$> l)) ≫= id.
Proof.
  unfold abi_address_array. rewrite bind_app. cbn [mbind list_bind app id]. rewrite app_nil_r, <-app_assoc.
  do 2 f_equal. induction l as [|a l IH]; [done|]. by rewrite fmap_cons, !bind_cons, IH.
Qed.

(** [decodeAddressArray] accepts exactly the ABI encodings of address arrays and
    returns the array: no trailing bytes, no dirty padding, no other head offset,
    no length the bytes do not back. *)
Theorem decodeAddressArray_exact data l :
  Z.of_nat (length data) < 2 ^ 63 →
  decodeAddressArray data = Ok l ↔ data = abi_address_array l.
Proof.
  intros Hsmall. unfold decodeAddressArray. change (2 * wordSize)%nat with 64%nat. split.
  - destruct (Nat.ltb_spec (length data) 64) as [|Hge]; [done|].
    intros ([] & Hoff & (n & Hn & Hrest)%bind_Ok)%bind_Ok. apply wrap_Ok in Hn.
    destruct (Z.ltb_spec (Z.of_nat ((length data - 64) / wordSize)) n) as [|Hle]; [done|].
    destruct (Nat.eqb_spec (length data) (64 + Z.to_nat n * wordSize)) as [Hlen|]; [|done].
    cbn [negb] in Hrest. destruct (words_of data (2 + Z.to_nat n)) as (ws & Hok & Hws & ->).
    { rewrite Hlen. unfold wordSize. lia. }
    destruct ws as [|w0 [|w1 ws]]; [cbn in Hws; lia..|]. pose proof Hok as Hok'.
    apply Forall_cons in Hok' as [Hw0 [Hw1 _]%Forall_cons].
    rewrite (dataWord_words _ 1 w1) in Hn by done. apply wordUint64_Ok in Hn as [Hn ->]; [|done].
    rewrite (dataWord_words _ 0 w0) in Hoff by done.
    destruct (wordUint64 w0) as [o|e|x] eqn:Ho; [|done..].
    apply wordUint64_Ok in Ho as [_ ->]; [|done].
    destruct (Z.eqb_spec o (Z.of_nat wordSize)) as [->|]; [|done].
    apply decodeEntries_inv in Hrest as [Hdrop Hll]; [|done|by rewrite Hws, Nat.add_0_r].
    rewrite abi_address_array_words. cbn in Hdrop. rewrite drop_0 in Hdrop. rewrite <-Hdrop. cbn [app].
    do 3 f_equal. rewrite Hll. rewrite Z2Nat.id by (unfold is_u64 in Hn; lia). done.
  - intros ->. rewrite abi_address_array_words in Hsmall |- *.
    set (ws := [abi_uint 32; abi_uint (Z.of_nat (length l))] ++ (abi_address <$> l)) in *.
    assert (words_ok [abi_uint 32; abi_uint (Z.of_nat (length l))]) as Hok2.
    { repeat constructor; apply length_abi_uint. }
    assert (words_ok ws) as Hok.
    { apply Forall_app. split; [done|]. apply Forall_fmap, Forall_forall. intros ? _. apply length_abi_address. }
    assert (length (ws ≫= id) = (64 + length l * wordSize)%nat) as Hlen.
    { rewrite length_words by done. unfold ws. rewrite length_app, length_fmap. cbn [length]. unfold wordSize. lia. }
    rewrite (dataWord_words ws 0 (abi_uint 32)), (dataWord_words ws 1 (abi_uint (Z.of_nat (length l)))) by done.
    rewrite (proj2 (wordUint64_Ok _ 32 (length_abi_uint 32))) by (split; [by vm_compute|done]).
    assert (is_u64 (Z.of_nat (length l))) as Hu by (unfold is_u64, wordSize in *; lia).
    rewrite (proj2 (wordUint64_Ok _ (Z.of_nat (length l)) (length_abi_uint (Z.of_nat (length l))))) by done.
    rewrite Hlen. rewrite (proj2 (Nat.ltb_ge _ 64)) by lia. cbn [mbind Res_bind wrap].
    replace (64 + length l * wordSize - 64)%nat with (length l * wordSize)%nat by lia.
    rewrite Nat.div_mul by done. rewrite (proj2 (Z.ltb_ge _ _)) by lia.
    rewrite Nat2Z.id, Nat.eqb_refl. cbn [negb]. by apply decodeEntries_Ok.
Qed.

Lemma decodeAddressArray_exact_witness :
  decodeAddressArray (abi_address_array [address_of 7; address_of 9]) = Ok [address_of 7; address_of 9].
Proof.
  apply (decodeAddressArray_exact (abi_address_array [address_of 7; address_of 9])); [by vm_compute|reflexivity].
Defined.

(** ** ledger() *)

Definition some_vec (v : vec Z 5) : vec (option Z) 5 := vmap Some v.

(** The Solidity encoding of the Distributor's Ledger struct. *)
Definition abi_ledger (root : Hash) (postedAt : Z) (skipped : bool) (funded totals claimed : vec Z 5) : list byte :=
  vec_to_list root ++ abi_uint postedAt ++ abi_bool skipped ++
  abi_amounts funded ++ abi_amounts totals ++ abi_amounts claimed.

Definition vec_ok (v : vec Z 5) : Prop := Forall is_uint256 (vec_to_list v).

Lemma dataAmounts_words ws i :
  words_ok ws → (i + 5 ≤ length ws)%nat →
  ∃ v : vec Z 5, vec_ok v ∧ dataAmounts (ws ≫= id) i = some_vec v ∧ take 5 (drop i ws) = abi_uint <$> vec_to_list v.
Proof.
  intros Hok Hlen.
  assert (∀ j, (j < 5)%nat → ∃ w, ws !! (i + j)%nat = Some w ∧ length w = wordSize) as Hw.
  { intros j Hj. destruct (lookup_lt_is_Some_2 ws (i + j)) as [w Hw]; [lia|]. exists w. split; [done|].
    unfold words_ok in Hok. rewrite Forall_lookup in Hok. by eapply Hok. }
  destruct (Hw 0%nat) as (w0 & H0 & L0), (Hw 1%nat) as (w1 & H1 & L1), (Hw 2%nat) as (w2 & H2 & L2),
    (Hw 3%nat) as (w3 & H3 & L3), (Hw 4%nat) as (w4 & H4 & L4); [lia..|].
  destruct (wordUint256_word w0 L0) as [U0 E0], (wordUint256_word w1 L1) as [U1 E1],
    (wordUint256_word w2 L2) as [U2 E2], (wordUint256_word w3 L3) as [U3 E3], (wordUint256_word w4 L4) as [U4 E4].
  exists [# wordUint256 w0; wordUint256 w1; wordUint256 w2; wordUint256 w3; wordUint256 w4]. split_and!.
  - by repeat (apply Forall_cons; split; [done|]).
  - unfold dataAmounts.
    by rewrite (dataWord_words _ _ w0), (dataWord_words _ _ w1), (dataWord_words _ _ w2),
      (dataWord_words _ _ w3), (dataWord_words _ _ w4) by done.
  - cbn [vec_to_list fmap list_fmap]. rewrite E0, E1, E2, E3, E4. apply list_eq. intros j.
    destruct (decide (j < 5)%nat).
    + rewrite lookup_take_lt, lookup_drop by done.
      do 5 (destruct j as [|j]; [done|]). lia.
    + rewrite lookup_take_ge by lia. symmetry. apply lookup_ge_None. cbn. lia.
Qed.

Lemma dataAmounts_at ws i (v : vec Z 5) :
  words_ok ws → (i + 5 ≤ length ws)%nat → vec_ok v →
  take 5 (drop i ws) = abi_uint <$> vec_to_list v → dataAmounts (ws ≫= id) i = some_vec v.
Proof.
  intros Hok Hlen Hv Ht. destruct (dataAmounts_words ws i Hok Hlen) as (v' & Hv' & -> & Ht').
  f_equal. apply vec_to_list_inj2. rewrite Ht in Ht'. unfold vec_ok in *. clear -Hv Hv' Ht'.
  revert Ht' Hv Hv'. generalize (vec_to_list v) as l, (vec_to_list v') as k.
  induction l as [|x l IH]; intros [|y k]; try done. rewrite !fmap_cons.
  intros Heq [Hx Hl]%Forall_cons [Hy Hk]%Forall_cons. apply (f_equal head) in Heq as Hxy. apply (f_equal tail) in Heq as Hlk. apply (inj Some) in Hxy. cbn [tail] in Hlk. f_equal.
  - exact (be_encode_inj wordSize y x Hy Hx (eq_sym Hxy)).
  - by apply IH.
Qed.

Definition ledger_words (root : Hash) (postedAt : Z) (skipped : bool) (funded totals claimed : vec Z 5) :=
  [vec_to_list root; abi_uint postedAt; abi_bool skipped] ++ (abi_uint <$> vec_to_list funded) ++
  (abi_uint <$> vec_to_list totals) ++ (abi_uint <$> vec_to_list claimed).

Lemma bind_fmap_id {A} (f : A → list byte) l : (f <$> l) ≫= id = l ≫= f.
Proof. induction l as [|x l IH]; [done|]. by rewrite fmap_cons, !bind_cons, IH. Qed.

Lemma abi_ledger_words root p s f t c :
  abi_ledger root p s f t c = ledger_words root p s f t c ≫= id.
Proof.
  unfold abi_ledger, ledger_words, abi_amounts. rewrite !bind_app, !bind_fmap_id, !bind_cons.
  cbn [mbind list_bind id]. unfold id. by rewrite app_nil_r, <-!app_assoc.
Qed.

Lemma ledger_words_ok root p s f t c :
  words_ok (ledger_words root p s f t c) ∧ length (ledger_words root p s f t c) = ledgerWords.
Proof.
  split.
  - unfold ledger_words, words_ok.
    repeat first [apply Forall_app; split | apply Forall_cons; split | constructor];
      try apply length_vec_to_list; try apply length_abi_uint;
      apply Forall_fmap, Forall_forall; intros ? _; apply length_abi_uint.
  - unfold ledger_words. by rewrite !length_app, !length_fmap, !length_vec_to_list.
Qed.

Lemma split_18 {A} (ws : list A) :
  length ws = 18%nat →
  ∃ r p s, ws = [r; p; s] ++ take 5 (drop 3 ws) ++ take 5 (drop 8 ws) ++ take 5 (drop 13 ws).
Proof.
  intros Hlen. destruct ws as [|r [|p [|s ws]]]; [done..|]. exists r, p, s. cbn [app drop]. do 3 f_equal.
  rewrite drop_0. rewrite <-(take_drop 5 ws) at 1. f_equal.
  rewrite <-(take_drop 5 (drop 5 ws)) at 1. rewrite drop_drop. f_equal. symmetry. apply take_ge.
  rewrite length_drop. cbn in Hlen. lia.
Qed.

Lemma postedAt_Ok w n :
  length w = wordSize →
  match wordUint64 w with
  | Ok n => if MaxInt64 <? n then Err errNotUnixSecond else Ok n
  | Err _ => Err errNotUnixSecond
  | Fault x => Fault x
  end = Ok n ↔ 0 ≤ n ≤ MaxInt64 ∧ w = abi_uint n.
Proof.
  intros Hlen. pose proof (wordUint64_Ok w) as Hw. split.
  - destruct (wordUint64 w) as [m|e|x] eqn:E; [|done..]. destruct (Z.ltb_spec MaxInt64 m); [done|].
    intros [= <-]. destruct (proj1 (Hw m Hlen) eq_refl) as [[? ?] ->]. split; [lia|done].
  - intros [Hn Heq]. rewrite (proj2 (Hw n Hlen)) by (split; [unfold is_u64, MaxInt64 in *; lia|done]).
    by rewrite (proj2 (Z.ltb_ge _ _)) by lia.
Qed.

(** [decodeLedger] accepts exactly the encodings of the Ledger struct whose time
    fits an int64, and reads every field where it is. *)
Theorem decodeLedger_exact data lb :
  decodeLedger data = Ok lb ↔
  ∃ root postedAt skipped funded totals claimed,
    0 ≤ postedAt ≤ MaxInt64 ∧ vec_ok funded ∧ vec_ok totals ∧ vec_ok claimed ∧
    data = abi_ledger root postedAt skipped funded totals claimed ∧
    lb = mkLedgerBook root postedAt skipped (some_vec funded) (some_vec totals) (some_vec claimed).
Proof.
  unfold decodeLedger. split.
  - destruct (Nat.eqb_spec (length data) (ledgerWords * wordSize)) as [Hlen|]; cbn [negb]; [|done].
    destruct (words_of data ledgerWords Hlen) as (ws & Hok & Hws & ->).
    intros (sk & Hsk & (pa & Hpa & Heq)%bind_Ok)%bind_Ok. apply (inj Ok) in Heq as <-. apply wrap_Ok in Hsk.
    destruct (dataAmounts_words ws 3 Hok) as (vf & Vf & Ef & Tf); [rewrite Hws; cbn; lia|].
    destruct (dataAmounts_words ws 8 Hok) as (vt & Vt & Et & Tt); [rewrite Hws; cbn; lia|].
    destruct (dataAmounts_words ws 13 Hok) as (vc & Vc & Ec & Tc); [rewrite Hws; cbn; lia|].
    destruct (split_18 ws Hws) as (r & p & s & Hsplit). rewrite Tf, Tt, Tc in Hsplit.
    pose proof Hok as Hok'. rewrite Hsplit in Hok'. cbn [app] in Hok'.
    apply Forall_cons in Hok' as [Lr [Lp [Ls _]%Forall_cons]%Forall_cons].
    rewrite (dataWord_words ws 0 r), (dataWord_words ws 1 p), (dataWord_words ws 2 s) in * by (first [done | by rewrite Hsplit]).
    apply wordBool_Ok in Hsk; [|done]. apply postedAt_Ok in Hpa as [Hpa ->]; [|done].
    exists (copy_array 32 r), pa, sk, vf, vt, vc. split_and!; try done; try lia.
    + rewrite abi_ledger_words. unfold ledger_words. rewrite copy_array_to_list by done. by rewrite <-Hsk, <-Hsplit.
    + change (3 + TokenCount)%nat with 8%nat. change (3 + 2 * TokenCount)%nat with 13%nat. by rewrite Ef, Et, Ec.
  - intros (root & pa & sk & vf & vt & vc & Hpa & Vf & Vt & Vc & -> & ->). rewrite abi_ledger_words.
    destruct (ledger_words_ok root pa sk vf vt vc) as [Hok Hws]. set (ws := ledger_words root pa sk vf vt vc) in *.
    rewrite (length_words ws Hok), Hws, Nat.eqb_refl. cbn [negb].
    rewrite (dataWord_words ws 0 (vec_to_list root)), (dataWord_words ws 1 (abi_uint pa)),
      (dataWord_words ws 2 (abi_bool sk)) by done.
    rewrite (proj2 (wordBool_Ok (abi_bool sk) sk (length_abi_uint _)) eq_refl). cbn [wrap mbind Res_bind].
    rewrite (proj2 (postedAt_Ok (abi_uint pa) pa (length_abi_uint pa)) (conj Hpa eq_refl)). cbn [mbind Res_bind].
    change (3 + TokenCount)%nat with 8%nat. change (3 + 2 * TokenCount)%nat with 13%nat.
    rewrite copy_array_of_list, (dataAmounts_at ws 3 vf), (dataAmounts_at ws 8 vt), (dataAmounts_at ws 13 vc);
      try done; try (rewrite Hws; cbn; lia); unfold ws, ledger_words; clear; inv_vec vf; inv_vec vt; inv_vec vc; done.
Qed.

(** ** Parsing never panics *)

Lemma ParseAddress_faults s : no_fault (ParseAddress s).
Proof. unfold ParseAddress, parseHexBytes, digitsOf. solve_faults. Qed.
Lemma ParseHash_faults s : no_fault (ParseHash s).
Proof. unfold ParseHash, parseHexBytes, digitsOf. solve_faults. Qed.
#[export] Hint Resolve ParseAddress_faults ParseHash_faults : faults.
