(* ===== verification/Crc.v ===== *)
(** * hash/crc32 with the Castagnoli polynomial

    [crc32.Checksum(p, crc32.MakeTable(crc32.Castagnoli))], a bit at a time, and
    the reason a Cache record is checksummed: a change confined to one byte never
    goes unnoticed ([Checksum_one_byte]). *)
From S2P Require Import Prelude Sorts Bytes.

Definition castagnoli : Z := 0x82F63B78.

(** One bit of the reflected division. *)
Definition crc_bit (c : Z) : Z :=
  if Z.testbit c 0 then Z.lxor (Z.shiftr c 1) castagnoli else Z.shiftr c 1.

Definition crc_byte (c : Z) (b : byte) : Z := Nat.iter 8 crc_bit (Z.lxor c (byte_to_Z b)).

Definition Checksum (p : list byte) : Z := Z.lxor (foldl crc_byte 0xFFFFFFFF p) 0xFFFFFFFF.

(** The check value of CRC-32C. *)
Example Checksum_123456789 :
  Checksum [x31; x32; x33; x34; x35; x36; x37; x38; x39] = 0xE3069283.
Proof. by vm_compute. Qed.

Definition is_u32 (x : Z) : Prop := 0 ≤ x < 2 ^ 32.

(** ** Bits below 32 *)

Lemma is_u32_bits x : 0 ≤ x → is_u32 x ↔ ∀ i, 32 ≤ i → Z.testbit x i = false.
Proof.
  intros Hx. split.
  - intros [_ Hlt] i Hi. destruct (decide (x = 0)) as [->|]; [apply Z.bits_0|].
    apply Z.bits_above_log2; [done|]. apply Z.lt_le_trans with 32; [|done].
    apply Z.log2_lt_pow2; lia.
  - intros Hb. split; [done|]. destruct (Z.lt_ge_cases x (2 ^ 32)) as [|Hge]; [done|].
    assert (0 < x) as Hpos by lia. pose proof (Z.bit_log2 x Hpos) as Ht.
    rewrite Hb in Ht; [done|]. change 32 with (Z.log2 (2 ^ 32)). by apply Z.log2_le_mono.
Qed.

Lemma lxor_u32 x y : is_u32 x → is_u32 y → is_u32 (Z.lxor x y).
Proof.
  intros Hx Hy. assert (0 ≤ Z.lxor x y) as H0 by (apply Z.lxor_nonneg; unfold is_u32 in *; lia).
  apply is_u32_bits; [done|]. intros i Hi. rewrite Z.lxor_spec.
  by rewrite (proj1 (is_u32_bits x ltac:(unfold is_u32 in *; lia)) Hx i Hi),
    (proj1 (is_u32_bits y ltac:(unfold is_u32 in *; lia)) Hy i Hi).
Qed.

Lemma lxor_inj_l x y z : Z.lxor x z = Z.lxor y z → x = y.
Proof.
  intros H. apply (f_equal (λ w, Z.lxor w z)) in H.
  by rewrite !Z.lxor_assoc, Z.lxor_nilpotent, !Z.lxor_0_r in H.
Qed.
Lemma lxor_inj_r x y z : Z.lxor z x = Z.lxor z y → x = y.
Proof. rewrite !(Z.lxor_comm z). apply lxor_inj_l. Qed.

Lemma shiftr_u32 c : is_u32 c → 0 ≤ Z.shiftr c 1 < 2 ^ 31.
Proof.
  intros [? ?]. rewrite Z.shiftr_div_pow2 by lia. change (2 ^ 1) with 2.
  split; [apply Z.div_pos; lia|apply Z.div_lt_upper_bound; lia].
Qed.

Lemma bit31_low x : 0 ≤ x < 2 ^ 31 → Z.testbit x 31 = false.
Proof.
  intros Hx. destruct (decide (x = 0)) as [->|]; [apply Z.bits_0|].
  apply Z.bits_above_log2; [lia|]. apply Z.log2_lt_pow2; lia.
Qed.

(** ** Each step is injective on 32-bit states *)

Lemma crc_bit_u32 c : is_u32 c → is_u32 (crc_bit c).
Proof.
  intros Hc. pose proof (shiftr_u32 c Hc) as Hs. assert (is_u32 (Z.shiftr c 1)) by (unfold is_u32; lia).
  unfold crc_bit. destruct (Z.testbit c 0); [|done]. apply lxor_u32; [done|]. by unfold is_u32, castagnoli.
Qed.

Lemma crc_bit_inj c d : is_u32 c → is_u32 d → crc_bit c = crc_bit d → c = d.
Proof.
  intros Hc Hd H. pose proof (shiftr_u32 c Hc) as Hsc. pose proof (shiftr_u32 d Hd) as Hsd.
  assert (∀ x, 0 ≤ x < 2 ^ 31 → Z.testbit (Z.lxor x castagnoli) 31 = true) as Htop.
  { intros x Hx. by rewrite Z.lxor_spec, bit31_low. }
  assert (Z.testbit c 0 = Z.testbit d 0 ∧ Z.shiftr c 1 = Z.shiftr d 1) as [H0 Hs].
  { unfold crc_bit in H. destruct (Z.testbit c 0), (Z.testbit d 0).
    - split; [done|]. by apply lxor_inj_l in H.
    - exfalso. pose proof (Htop _ Hsc) as Ht. rewrite H, bit31_low in Ht by done. done.
    - exfalso. pose proof (Htop _ Hsd) as Ht. rewrite <-H, bit31_low in Ht by done. done.
    - done. }
  apply Z.bits_inj'. intros i Hi. destruct (decide (i = 0)) as [->|]; [done|].
  apply (f_equal (λ x, Z.testbit x (i - 1))) in Hs. rewrite !Z.shiftr_spec in Hs by lia.
  by replace (i - 1 + 1) with i in Hs by lia.
Qed.

Lemma crc_iter_inj n c d :
  is_u32 c → is_u32 d → Nat.iter n crc_bit c = Nat.iter n crc_bit d → c = d.
Proof.
  revert c d. induction n as [|n IH]; intros c d Hc Hd; [done|]. rewrite !Nat.iter_succ_r. intros H.
  apply IH in H; [by apply crc_bit_inj|by apply crc_bit_u32..].
Qed.

Lemma crc_iter_u32 n c : is_u32 c → is_u32 (Nat.iter n crc_bit c).
Proof. intros Hc. induction n as [|n IH]; [done|]. by apply crc_bit_u32. Qed.

Lemma byte_u32 b : is_u32 (byte_to_Z b).
Proof. pose proof (byte_to_Z_range b). unfold is_u32. lia. Qed.

Lemma crc_byte_u32 c b : is_u32 c → is_u32 (crc_byte c b).
Proof. intros Hc. apply crc_iter_u32, lxor_u32; [done|apply byte_u32]. Qed.

Lemma crc_byte_inj_state c d b : is_u32 c → is_u32 d → crc_byte c b = crc_byte d b → c = d.
Proof.
  intros Hc Hd H. apply crc_iter_inj in H; [by apply lxor_inj_l in H|..];
    (apply lxor_u32; [done|apply byte_u32]).
Qed.

Lemma crc_byte_inj_byte c b b' : is_u32 c → crc_byte c b = crc_byte c b' → b = b'.
Proof.
  intros Hc H. apply crc_iter_inj in H; [|apply lxor_u32; [done|apply byte_u32]..].
  apply lxor_inj_r in H. by apply (inj byte_to_Z).
Qed.

Lemma crc_fold_u32 l c : is_u32 c → is_u32 (foldl crc_byte c l).
Proof. revert c. induction l as [|b l IH]; intros c Hc; [done|]. cbn. by apply IH, crc_byte_u32. Qed.

Lemma crc_fold_inj l c d :
  is_u32 c → is_u32 d → foldl crc_byte c l = foldl crc_byte d l → c = d.
Proof.
  revert c d. induction l as [|b l IH]; intros c d Hc Hd H; [done|]. cbn in H.
  apply (IH _ _ (crc_byte_u32 c b Hc) (crc_byte_u32 d b Hd)) in H. by apply (crc_byte_inj_state c d b).
Qed.

Lemma init_u32 : is_u32 0xFFFFFFFF.
Proof. by unfold is_u32. Qed.

Lemma Checksum_u32 p : is_u32 (Checksum p).
Proof. apply lxor_u32; [apply crc_fold_u32|]; apply init_u32. Qed.

(** Two strings that differ in one byte have different checksums. *)
Lemma Checksum_one_byte l b b' k :
  b ≠ b' → Checksum (l ++ b :: k) ≠ Checksum (l ++ b' :: k).
Proof.
  intros Hne H. apply lxor_inj_l in H. rewrite !foldl_app in H. cbn [foldl] in H.
  pose proof (crc_fold_u32 l _ init_u32) as Hu.
  apply crc_fold_inj in H; [|by apply crc_byte_u32..]. by apply crc_byte_inj_byte in H.
Qed.
