(* ===== verification/Cache.v ===== *)
(** * cache: the append-only record of transfers

    [cache.go] and [sync.go]. The file is its bytes, the [bufio.Writer] in front
    of it the bytes it holds back, and what the operating system may refuse
    (opening, locking, a failed write or fsync) is left out: reads past the end of
    the file still fail. An operation that changes the Cache returns the new one;
    after an error the Cache can only be closed, so where an error comes after a
    flush the model keeps the Cache from before it. Directories and the
    progress callback are not modelled; the lock is in [Lock]. *)
From S2P Require Import Prelude Sorts Bytes StateMonad Text Merkle Twab Chain Crc.

(** ** Layout *)

Definition magic : list byte := stringBytes "NUTZCACH".
Definition formatVersion : Z := 1.
Definition headerSize : nat := 52.
Definition payloadSize : nat := 120.
Definition stride : nat := payloadSize + 4.
Definition checkpointRecords : Z := 10000.
Definition bufferSize : Z := 2 ^ 20.

Inductive cacheError :=
  | errNilRecordValue
  | errNegativeRecordValue
  | errRecordValueBits
  | errNotCache
  | errHeaderDamaged
  | errMismatch (what file run : string)
  | errReading (i : nat)
  | errChecksum (i : nat)
  | errBehind (i : nat) (block floor : Z)
  | errBatch (i : nat) (block : Z) (cause : cacheError)
  | errNoTipHash
  | errSource (cause : chainError)
  | errCallback.

(** ** Records *)

Record CacheRecord := mkCacheRecord {
  rec_BlockNumber : Z;
  rec_BlockHash : Hash;
  rec_Timestamp : Z;
  rec_From : Address;
  rec_To : Address;
  rec_Value : option Z;
}.

(** [Record{}]. *)
Definition zeroRecord : CacheRecord := mkCacheRecord 0 zeroHash 0 zeroAddress zeroAddress None.

Definition FromTransfer (t : ChainTransfer) : CacheRecord :=
  mkCacheRecord (site_BlockNumber (ct_Site t)) (site_BlockHash (ct_Site t))
    (site_Timestamp (ct_Site t)) (ct_From t) (ct_To t) (ct_Value t).

(** [Record.Equal]. *)
Definition RecordEqual (r o : CacheRecord) : bool :=
  (rec_BlockNumber r =? rec_BlockNumber o) && bool_decide (rec_BlockHash r = rec_BlockHash o) &&
  (rec_Timestamp r =? rec_Timestamp o) && bool_decide (rec_From r = rec_From o) &&
  bool_decide (rec_To r = rec_To o) &&
  match rec_Value r, rec_Value o with Some x, Some y => x =? y | _, _ => false end.

(** The 120 bytes before the checksum: the fields are back to back. *)
Definition payload (r : CacheRecord) (value : Z) : list byte :=
  be_encode 8 (rec_BlockNumber r) ++ vec_to_list (rec_BlockHash r) ++
  be_encode 8 (u64 (rec_Timestamp r)) ++ vec_to_list (rec_From r) ++ vec_to_list (rec_To r) ++
  be_encode 32 value.

(** [Record.encode]: the stride-sized buffer it fills. *)
Definition encodeRecord (r : CacheRecord) : Res cacheError (list byte) :=
  match rec_Value r with
  | None => Err errNilRecordValue
  | Some v =>
      if v <? 0 then Err errNegativeRecordValue
      else if 256 <? BitLen v then Err errRecordValueBits
      else Ok (payload r v ++ be_encode 4 (Checksum (payload r v)))
  end.

(** [decode] of a stride-sized buffer. *)
Definition decodeRecord (buf : list byte) : option CacheRecord :=
  if Checksum (take payloadSize buf) =? be_decode (slice buf payloadSize stride) then
    Some (mkCacheRecord
      (be_decode (slice buf 0 8)) (copy_array 32 (slice buf 8 40))
      (i64 (be_decode (slice buf 40 48))) (copy_array 20 (slice buf 48 68))
      (copy_array 20 (slice buf 68 88)) (Some (be_decode (slice buf 88 120))))
  else None.

(** ** The open Cache *)

Record Options := mkOptions {
  o_ChainID : Z;
  o_Token : Address;
  o_Start : Z;
  o_Fresh : bool;
}.

Record Repair := mkRepair {
  rep_Reason : string;
  rep_At : nat;
  rep_Kept : nat;
  rep_LastGoodBlock : Z;
  rep_Dropped : nat;
}.

Record Cache := mkCache {
  k_file : list byte;
  k_writer : list byte;
  k_count : nat;
  k_last : CacheRecord;
  k_start : Z;
  k_pending : Z;
  k_repaired : option Repair;
}.

Definition offsetOf (i : nat) : nat := headerSize + i * stride.

(** [Cache.recordAt]. *)
Definition recordAt (c : Cache) (i : nat) : Res cacheError CacheRecord :=
  let buf := take stride (drop (offsetOf i) (k_file c)) in
  if (length buf =? stride)%nat then or_err (decodeRecord buf) (errChecksum i)
  else Err (errReading i).

(** The header [writeHeader] builds. *)
Definition headerFields (opts : Options) : list byte :=
  magic ++ be_encode 4 formatVersion ++ be_encode 8 (o_ChainID opts) ++
  vec_to_list (o_Token opts) ++ be_encode 8 (o_Start opts).

Definition headerBytes (opts : Options) : list byte :=
  headerFields opts ++ be_encode 4 (Checksum (headerFields opts)).

(** [Cache.writeHeader]: the file is opened for appending. *)
Definition writeHeader (opts : Options) (c : Cache) : Cache :=
  mkCache (k_file c ++ headerBytes opts) (k_writer c) (k_count c) (k_last c) (k_start c)
    (k_pending c) (k_repaired c).

Definition decimal (z : Z) : string := FormatUint 10 z.

(** [Cache.checkHeader]. *)
Definition checkHeader (opts : Options) (c : Cache) : Res cacheError () :=
  let buf := take headerSize (k_file c) in
  if negb (bool_decide (slice buf 0 8 = magic)) then Err errNotCache
  else if negb (Checksum (take 48 buf) =? be_decode (slice buf 48 52)) then Err errHeaderDamaged
  else
    let v := be_decode (slice buf 8 12) in
    let id := be_decode (slice buf 12 20) in
    let token : Address := copy_array 20 (slice buf 20 40) in
    let s := be_decode (slice buf 40 48) in
    if negb (v =? formatVersion) then
      Err (errMismatch "format version" (decimal v) (decimal formatVersion))
    else if negb (id =? o_ChainID opts) then
      Err (errMismatch "chain id" (decimal id) (decimal (o_ChainID opts)))
    else if negb (bool_decide (token = o_Token opts)) then
      Err (errMismatch "token" (AddressString token) (AddressString (o_Token opts)))
    else if negb (s =? o_Start opts) then
      Err (errMismatch "start block" (decimal s) (decimal (o_Start opts)))
    else Ok ().

(** [Cache.repair]. *)
Definition repair (reason : string) (size keep : nat) (lastGoodBlock : Z) (c : Cache)
    : Res cacheError Cache :=
  let complete := ((size - headerSize) / stride)%nat in
  let file := take (offsetOf keep) (k_file c) in
  let repaired := Some (mkRepair reason (k_count c) keep lastGoodBlock (complete - keep)) in
  let c := mkCache file (k_writer c) keep (k_last c) (k_start c) (k_pending c) repaired in
  last ← (if (keep =? 0)%nat then mret zeroRecord else recordAt c (keep - 1));
  mret (mkCache file (k_writer c) keep last (k_start c) (k_pending c) repaired).

Definition reasonPartial (n : nat) : string :=
  ("a partial record of " +:+ decimal (Z.of_nat n) +:+ " bytes")%string.
Definition reasonChecksum : string := "a record that fails its checksum".
Definition reasonBeforeStart (block start : Z) : string :=
  ("a record from block " +:+ decimal block +:+ ", before the start block " +:+ decimal start)%string.
Definition reasonBehind (block last : Z) : string :=
  ("a record from block " +:+ decimal block +:+ ", behind the previous " +:+ decimal last)%string.

(** The loop of [scan] over the bytes after the header. Every turn but the last
    reads a whole record, so one more than their number is enough fuel. *)
Fixpoint scanFrom (fuel size : nat) (rest : list byte) (blockStart : nat) (beforeBlock : Z) (c : Cache)
    : Res cacheError Cache :=
  match fuel with
  | O => Fault OutOfFuel
  | S fuel =>
      match rest with
      | [] => Ok c
      | _ =>
          let buf := take stride rest in
          if (length buf <? stride)%nat then
            repair (reasonPartial (length buf)) size blockStart beforeBlock c
          else
            match decodeRecord buf with
            | None => repair reasonChecksum size blockStart beforeBlock c
            | Some r =>
                if rec_BlockNumber r <? k_start c then
                  repair (reasonBeforeStart (rec_BlockNumber r) (k_start c)) size blockStart beforeBlock c
                else if (0 <? k_count c)%nat && (rec_BlockNumber r <? rec_BlockNumber (k_last c)) then
                  repair (reasonBehind (rec_BlockNumber r) (rec_BlockNumber (k_last c)))
                    size blockStart beforeBlock c
                else
                  let newBlock := (0 <? k_count c)%nat &&
                                  negb (rec_BlockNumber r =? rec_BlockNumber (k_last c)) in
                  let blockStart' := if newBlock then k_count c else blockStart in
                  let beforeBlock' := if newBlock then rec_BlockNumber (k_last c) else beforeBlock in
                  scanFrom fuel size (drop stride rest) blockStart' beforeBlock'
                    (mkCache (k_file c) (k_writer c) (S (k_count c)) r (k_start c) (k_pending c) (k_repaired c))
            end
      end
  end.

(** [Cache.scan]. *)
Definition scan (c : Cache) : Res cacheError Cache :=
  let size := length (k_file c) in
  let rest := drop headerSize (k_file c) in
  scanFrom (S (length rest)) size rest 0 0 c.

(** [Cache.load]. *)
Definition load (opts : Options) (c : Cache) : Res cacheError Cache :=
  let size := length (k_file c) in
  if (size =? 0)%nat then Ok (writeHeader opts c)
  else if (size <? headerSize)%nat then
    let c := mkCache [] (k_writer c) (k_count c) (k_last c) (k_start c) (k_pending c) (k_repaired c) in
    let c := writeHeader opts c in
    Ok (mkCache (k_file c) (k_writer c) (k_count c) (k_last c) (k_start c) (k_pending c)
          (Some (mkRepair ("a partial header of " +:+ decimal (Z.of_nat size) +:+ " bytes")%string 0 0 0 0)))
  else
    _ ← checkHeader opts c;
    scan c.

(** [Open], on the bytes the file holds, none if it was not there. *)
Definition Open_ (file : list byte) (opts : Options) : Res cacheError Cache :=
  let file := if o_Fresh opts then [] else file in
  load opts (mkCache file [] 0 zeroRecord (o_Start opts) 0 None).

(** [Cache.Len] and [Cache.Last]. *)
Definition CacheLen (c : Cache) : nat := k_count c.
Definition Last (c : Cache) : option CacheRecord := if (0 <? k_count c)%nat then Some (k_last c) else None.

(** [bufio.Writer.Write] onto the file. *)
Definition bufWrite (file buf p : list byte) : list byte * list byte :=
  let avail := bufferSize - Z.of_nat (length buf) in
  if Z.of_nat (length p) <=? avail then (file, buf ++ p)
  else
    match buf with
    | [] => (file ++ p, [])
    | _ =>
        let n := Z.to_nat avail in
        let file := file ++ buf ++ take n p in
        let p := drop n p in
        if Z.of_nat (length p) <=? bufferSize then (file, p) else (file ++ p, [])
    end.

(** [bufio.Writer.Flush]. *)
Definition flush (c : Cache) : Cache :=
  mkCache (k_file c ++ k_writer c) [] (k_count c) (k_last c) (k_start c) (k_pending c) (k_repaired c).

(** [Cache.checkpoint]. *)
Definition checkpoint (c : Cache) : Cache :=
  let c := flush c in
  mkCache (k_file c) (k_writer c) (k_count c) (k_last c) (k_start c) 0 (k_repaired c).

(** The encoding loop of [Append]. *)
Fixpoint encodeBatch (i : nat) (floor : Z) (records : list CacheRecord) : Res cacheError (list byte) :=
  match records with
  | [] => Ok []
  | r :: records =>
      if rec_BlockNumber r <? floor then Err (errBehind i (rec_BlockNumber r) floor)
      else
        e ← wrap (errBatch i (rec_BlockNumber r)) (encodeRecord r);
        rest ← encodeBatch (S i) (rec_BlockNumber r) records;
        mret (e ++ rest)
  end.

(** [Cache.Append]. *)
Definition Append (records : list CacheRecord) (c : Cache) : Res cacheError Cache :=
  let floor := if (0 <? k_count c)%nat then rec_BlockNumber (k_last c) else k_start c in
  encoded ← encodeBatch 0 floor records;
  match last records with
  | None => Ok c
  | Some r =>
      let '(file, writer) := bufWrite (k_file c) (k_writer c) encoded in
      let pending := k_pending c + Z.of_nat (length records) in
      let c := mkCache file writer (k_count c + length records) r (k_start c) pending (k_repaired c) in
      if checkpointRecords <=? pending then Ok (checkpoint c) else Ok c
  end.

(** The reading loop of [Each], with the callback's state. *)
Fixpoint eachFrom {S} (fn : S → CacheRecord → Res cacheError S) (section : list byte)
    (i n : nat) (s : S) : Res cacheError S :=
  match n with
  | O => Ok s
  | Datatypes.S n =>
      let buf := take stride section in
      if (length buf <? stride)%nat then Err (errReading i)
      else
        r ← or_err (decodeRecord buf) (errChecksum i);
        s ← fn s r;
        eachFrom fn (drop stride section) (Datatypes.S i) n s
  end.

(** [Cache.Each]. *)
Definition Each {S} (fn : S → CacheRecord → Res cacheError S) (s : S) (c : Cache) : Res cacheError (S * Cache) :=
  let c := flush c in
  let section := take (k_count c * stride) (drop headerSize (k_file c)) in
  s ← eachFrom fn section 0 (k_count c) s;
  mret (s, c).

(** [Cache.Close]: what is left on disk. *)
Definition Close (c : Cache) : list byte := k_file (checkpoint c).

(** ** sync.go *)

Definition defaultChunk : Z := 10000.

(** [Source], an interface whose implementation keeps a state of its own. *)
Record Source (N : Type) := mkSource {
  src_Transfers : Z → Z → StM N chainError (list ChainTransfer);
  src_BlockByNumber : Z → StM N chainError Block;
}.
Arguments mkSource {N}.
Arguments src_Transfers {N}.
Arguments src_BlockByNumber {N}.

Record Reorg := mkReorg { ro_Block : Z; ro_Dropped : nat }.
Record Synced := mkSynced { sy_Reorg : option Reorg; sy_Appended : Z }.

(** [firstWhere]: [sort.Search] over a predicate that can fail. *)
Definition firstWhere (n : nat) (pred : nat → Res cacheError bool) : Res cacheError nat := Search n pred.

(** [Cache.firstAtOrAbove]. *)
Definition firstAtOrAbove (block : Z) (c : Cache) : Res cacheError nat :=
  firstWhere (k_count c) (λ i, r ← recordAt c i; mret (block <=? rec_BlockNumber r)).

(** [Cache.Truncate], with how many records went. *)
Definition Truncate (block : Z) (c : Cache) : Res cacheError (nat * Cache) :=
  let c := flush c in
  keep ← firstAtOrAbove block c;
  let dropped := (k_count c - keep)%nat in
  if (dropped =? 0)%nat then mret (0%nat, c)
  else
    let file := take (offsetOf keep) (k_file c) in
    let c := mkCache file (k_writer c) keep (k_last c) (k_start c) 0 (k_repaired c) in
    last ← (if (0 <? keep)%nat then recordAt c (keep - 1) else mret zeroRecord);
    mret (dropped, mkCache file (k_writer c) keep last (k_start c) 0 (k_repaired c)).

Section sync.
Context {N : Type} (src : Source N).

Definition stillOnChain (c : Cache) (i : nat) : StM N cacheError bool :=
  r ← lift (recordAt c i);
  block ← wrapS errSource (src_BlockByNumber src (rec_BlockNumber r));
  mret (bool_decide (b_Hash block = rec_BlockHash r)).

(** [Cache.verify]. *)
Definition verify (tipNumber : Z) (c : Cache) : StM N cacheError (option Reorg * Cache) :=
  if (k_count c =? 0)%nat then mret (None, c)
  else
    let c := flush c in
    n ← lift (firstAtOrAbove (u64 (tipNumber + 1)) c);
    if (n =? 0)%nat then mret (None, c)
    else
      ok ← stillOnChain c (n - 1);
      if (ok : bool) then mret (None, c)
      else
        fork ← SearchS n (λ i, ok ← stillOnChain c i; mret (negb ok));
        r ← lift (recordAt c fork);
        '(dropped, c) ← lift (Truncate (rec_BlockNumber r) c);
        mret (Some (mkReorg (rec_BlockNumber r) dropped), c).

(** The chunk loop of [Sync], from block [start]. Each turn covers at least one
    block, so the number of blocks left is enough fuel. *)
Fixpoint syncFrom (fuel : nat) (tip chunk start : Z) (synced : Synced) (c : Cache) (w : N)
    : Synced * Cache * Res cacheError () * N :=
  if tip <? start then (synced, c, Ok (), w)
  else
    match fuel with
    | O => (synced, c, Fault OutOfFuel, w)
    | S fuel =>
        let end_ := if chunk <=? u64 (tip - start) then u64 (start + chunk - 1) else tip in
        let '(r, w) := src_Transfers src start end_ w in
        match (transfers ← wrap errSource r;
               c' ← Append (FromTransfer <$> transfers) c;
               mret (length transfers, c')) with
        | Ok (n, c') =>
            let synced := mkSynced (sy_Reorg synced) (sy_Appended synced + Z.of_nat n) in
            if end_ =? tip then (synced, c', Ok (), w)
            else syncFrom fuel tip chunk (u64 (end_ + 1)) synced c' w
        | Err e => (synced, c, Err e, w)
        | Fault x => (synced, c, Fault x, w)
        end
    end.

(** [Cache.Sync]: what it did, the Cache it leaves and the error it stopped at, with
    the Source as the calls left it. *)
Definition Sync (tip : Block) (chunk0 : Z) (c : Cache) (w : N) : Synced * Cache * Res cacheError () * N :=
  if bool_decide (b_Hash tip = zeroHash) then (mkSynced None 0, c, Err errNoTipHash, w)
  else
    let chunk := if chunk0 =? 0 then defaultChunk else chunk0 in
    match verify (b_Number tip) c w with
    | (Err e, w) => (mkSynced None 0, c, Err e, w)
    | (Fault x, w) => (mkSynced None 0, c, Fault x, w)
    | (Ok (reorg, c), w) =>
        let synced := mkSynced reorg 0 in
        match Last c with
        | Some last =>
            if b_Number tip <=? rec_BlockNumber last then (synced, c, Ok (), w)
            else
              let from := u64 (rec_BlockNumber last + 1) in
              syncFrom (Z.to_nat (b_Number tip - from + 1)) (b_Number tip) chunk from synced c w
        | None =>
            syncFrom (Z.to_nat (b_Number tip - k_start c + 1)) (b_Number tip) chunk (k_start c) synced c w
        end
    end.
End sync.
