(* ===== verification/CacheSpec.v ===== *)
(** * The Cache as a list of records

    The encoding of one record and of the header, and the relation [holds] between
    an open Cache and the list of records it stands for: the bytes in the file and
    in the write buffer are the header and the records' encodings, back to back. *)
From S2P Require Import Prelude Sorts Bytes Text Merkle MerkleEncode Twab Chain Crc Cache.

(** ** One record *)

(** A record whose machine integers are in range and whose value is a uint256. *)
Definition record_typed (r : CacheRecord) : Prop :=
  is_u64 (rec_BlockNumber r) ∧ is_i64 (rec_Timestamp r).
Definition record_ok (r : CacheRecord) : Prop :=
  record_typed r ∧ ∃ v, rec_Value r = Some v ∧ 0 ≤ v < 2 ^ 256.

(** The stored form of a record. *)
Definition encoding (r : CacheRecord) : list byte :=
  let p := payload r (default 0 (rec_Value r)) in p ++ be_encode 4 (Checksum p).

Lemma length_payload r v : length (payload r v) = payloadSize.
Proof. unfold payload. by rewrite !length_app, !length_be_encode, !length_vec_to_list. Qed.
Lemma length_encoding r : length (encoding r) = stride.
Proof. unfold encoding. by rewrite length_app, length_payload, length_be_encode. Qed.

Lemma encodeRecord_Ok r e :
  record_typed r → encodeRecord r = Ok e ↔ record_ok r ∧ e = encoding r.
Proof.
  intros Ht. unfold encodeRecord, record_ok, encoding. destruct (rec_Value r) as [v|]; cbn [default].
  2:{ split; [done|]. by intros [(_ & ? & ? & _) _]. }
  destruct (Z.ltb_spec v 0) as [Hv|Hv].
  { split; [done|]. intros [(_ & w & [= <-] & ?) _]. lia. }
  pose proof (BitLen_le v 256 Hv ltac:(lia)) as HB.
  destruct (Z.ltb_spec 256 (BitLen v)).
  { split; [done|]. intros [(_ & w & [= <-] & ?) _]. lia. }
  split.
  - intros H'%(inj Ok). subst e. split; [|done]. split; [done|]. exists v. split; [done|lia].
  - intros [_ ->]. done.
Qed.

(** *** Fields of a buffer *)

Lemma drop_slice {A} (l : list A) from to :
  (from ≤ to)%nat → drop from l = slice l from to ++ drop to l.
Proof.
  intros H. unfold slice. rewrite <-(take_drop (to - from) (drop from l)) at 1.
  f_equal. rewrite drop_drop. f_equal. lia.
Qed.

Lemma length_slice {A} (l : list A) from to :
  (from ≤ to ≤ length l)%nat → length (slice l from to) = (to - from)%nat.
Proof. intros H. unfold slice. rewrite length_take, length_drop. lia. Qed.

(** Re-encoding a decoded word gives its bytes back. *)
Lemma be_encode_slice l from to n :
  (from ≤ to ≤ length l)%nat → n = (to - from)%nat → be_encode n (be_decode (slice l from to)) = slice l from to.
Proof. intros Hl ->. rewrite <-(length_slice l) by done. apply be_encode_decode. Qed.

Lemma be_decode_slice_range l from to (z : Z) :
  (from ≤ to ≤ length l)%nat → 256 ^ Z.of_nat (to - from) = z → 0 ≤ be_decode (slice l from to) < z.
Proof. intros Hl <-. rewrite <-(length_slice l) by done. apply be_decode_range. Qed.

Lemma copy_array_slice l from to n :
  (from ≤ to ≤ length l)%nat → n = (to - from)%nat →
  vec_to_list (copy_array n (slice l from to)) = slice l from to.
Proof. intros Hl ->. apply copy_array_to_list. by apply length_slice. Qed.

Lemma slice_prefix {A} (l k : list A) from to :
  (to ≤ length l)%nat → slice (l ++ k) from to = slice l from to.
Proof.
  intros H. unfold slice. destruct (decide (from ≤ to)%nat).
  - rewrite drop_app_le by lia. rewrite take_app_le; [done|]. rewrite length_drop. lia.
  - by replace (to - from)%nat with 0%nat by lia.
Qed.

(** The field at an offset, past the fields before it. *)
Lemma slice_skip {A} (p l : list A) from to :
  (length p ≤ from)%nat → slice (p ++ l) from to = slice l (from - length p) (to - length p).
Proof. intros H. unfold slice. rewrite drop_app_ge by done. f_equal. lia. Qed.
Lemma slice_head {A} (q r : list A) to : to = length q → slice (q ++ r) 0 to = q.
Proof. intros ->. unfold slice. rewrite drop_0, Nat.sub_0_r. apply take_app_length. Qed.
Lemma slice_all {A} (q : list A) to : to = length q → slice q 0 to = q.
Proof. intros ->. unfold slice. rewrite drop_0, Nat.sub_0_r. by apply take_ge. Qed.

Section payload_fields.
Context {A : Type} (n h t f w v : list A).
Hypothesis Hlen : length n = 8%nat ∧ length h = 32%nat ∧ length t = 8%nat ∧
  length f = 20%nat ∧ length w = 20%nat ∧ length v = 32%nat.

Lemma payload_slices :
  let p := n ++ h ++ t ++ f ++ w ++ v in
  slice p 0 8 = n ∧ slice p 8 40 = h ∧ slice p 40 48 = t ∧ slice p 48 68 = f ∧ slice p 68 88 = w ∧
  slice p 88 120 = v.
Proof using Hlen.
  destruct Hlen as (Hn & Hh & Ht & Hf & Hw & Hv). cbn zeta.
  split_and!; rewrite ?slice_skip by lia; rewrite ?Hn, ?Hh, ?Ht, ?Hf, ?Hw; cbn [Nat.sub];
    first [by apply slice_head | by apply slice_all].
Qed.
End payload_fields.

Lemma be_decode_encode_u64 x : is_u64 x → be_decode (be_encode 8 x) = x.
Proof. intros. by apply be_decode_encode. Qed.
Lemma be_decode_encode_u32 x : is_u32 x → be_decode (be_encode 4 x) = x.
Proof. intros. by apply be_decode_encode. Qed.
Lemma be_decode_encode_u256 x : 0 ≤ x < 2 ^ 256 → be_decode (be_encode 32 x) = x.
Proof. intros. by apply be_decode_encode. Qed.

Lemma decode_encoding r : record_ok r → decodeRecord (encoding r) = Some r.
Proof.
  intros ([Hb Ht] & v & Hv & Hr). unfold decodeRecord, encoding. rewrite Hv. cbn [default from_option id].
  set (p := payload r v). assert (length p = payloadSize) as Hp by apply length_payload.
  rewrite take_app_length' by done.
  rewrite (slice_skip p), Hp by (rewrite Hp; done).
  rewrite slice_all by by rewrite length_be_encode.
  rewrite be_decode_encode_u32 by apply Checksum_u32. rewrite Z.eqb_refl. f_equal.
  rewrite !slice_prefix by (rewrite Hp; unfold payloadSize; lia). unfold p, payload.
  destruct (payload_slices (be_encode 8 (rec_BlockNumber r)) (rec_BlockHash r)
    (be_encode 8 (u64 (rec_Timestamp r))) (rec_From r) (rec_To r) (be_encode 32 v))
    as (-> & -> & -> & -> & -> & ->).
  { by rewrite !length_be_encode, !length_vec_to_list. }
  rewrite !copy_array_of_list, !be_decode_encode_u64, be_decode_encode_u256, u64_i64, <-Hv
    by first [done|apply u64_range]. by destruct r.
Qed.

Lemma split_fields {A} (buf : list A) :
  length buf = stride →
  buf = (slice buf 0 8 ++ slice buf 8 40 ++ slice buf 40 48 ++ slice buf 48 68 ++ slice buf 68 88 ++
         slice buf 88 120) ++ slice buf 120 124.
Proof.
  intros Hl. rewrite <-!app_assoc.
  assert (∀ from to, (from ≤ to)%nat → slice buf from to ++ drop to buf = drop from buf) as Hd
    by (intros; by rewrite <-drop_slice).
  rewrite <-(app_nil_r (slice buf 120 124)), <-(drop_ge buf 124) by by rewrite Hl.
  by rewrite !Hd by lia.
Qed.

(** What decodes is exactly what encodes to it. *)
Lemma decodeRecord_Some buf r :
  length buf = stride → decodeRecord buf = Some r ↔ record_ok r ∧ buf = encoding r.
Proof.
  intros Hl. split; [|intros [? ->]; by apply decode_encoding].
  unfold decodeRecord. destruct (Z.eqb_spec (Checksum (take payloadSize buf)) (be_decode (slice buf payloadSize stride)))
    as [Hsum|]; [|done]. intros [= <-].
  assert (∀ from to, (from ≤ to ≤ 124)%nat → (from ≤ to ≤ length buf)%nat) as Hle by (rewrite Hl; done).
  split.
  - split; [|eexists; split; [done|]; apply be_decode_slice_range; [apply Hle; lia|done]].
    split; [|apply i64_range]. apply be_decode_slice_range; [apply Hle; lia|done].
  - unfold encoding, payload. cbn [rec_Value rec_BlockNumber rec_BlockHash rec_Timestamp rec_From rec_To default from_option id].
    rewrite !copy_array_slice, !be_encode_slice by first [done|apply Hle; lia].
    assert (u64 (i64 (be_decode (slice buf 40 48))) = be_decode (slice buf 40 48)) as ->.
    { apply i64_u64. apply be_decode_slice_range; [apply Hle; lia|done]. }
    rewrite be_encode_slice by first [done|apply Hle; lia].
    pose proof (split_fields buf Hl) as Hs.
    replace (slice buf 0 8 ++ slice buf 8 40 ++ slice buf 40 48 ++ slice buf 48 68 ++ slice buf 68 88 ++
         slice buf 88 120) with (take payloadSize buf) in *.
    2:{ rewrite Hs at 1. apply take_app_length'. rewrite !length_app, !length_slice by (apply Hle; lia). done. }
    rewrite Hsum. rewrite (be_encode_slice buf payloadSize stride 4); [exact Hs|apply Hle; unfold stride, payloadSize; lia|done].
Qed.

(** ** Runs of records *)

Abbreviation block := rec_BlockNumber.

(** Block numbers never go back, and none is below [floor]. *)
Fixpoint runs (floor : Z) (l : list CacheRecord) : Prop :=
  match l with
  | [] => True
  | r :: l => floor ≤ block r ∧ runs (block r) l
  end.

(** The block of the newest record, or [floor]. *)
Definition last_block (floor : Z) (l : list CacheRecord) : Z :=
  match last l with Some r => block r | None => floor end.

Lemma last_block_cons floor r l : last_block floor (r :: l) = last_block (block r) l.
Proof. unfold last_block. rewrite last_cons. by destruct (last l). Qed.
Lemma last_block_snoc floor l r : last_block floor (l ++ [r]) = block r.
Proof. unfold last_block. by rewrite last_snoc. Qed.

Lemma runs_app floor l k : runs floor (l ++ k) ↔ runs floor l ∧ runs (last_block floor l) k.
Proof.
  revert floor. induction l as [|r l IH]; intros floor; cbn [app runs]; [tauto|].
  rewrite IH, last_block_cons. tauto.
Qed.

Lemma runs_weaken floor floor' l : floor' ≤ floor → runs floor l → runs floor' l.
Proof. destruct l; cbn; [done|]. intros ? [? ?]. split; [lia|done]. Qed.

Lemma runs_floor floor l r : runs floor l → r ∈ l → floor ≤ block r.
Proof.
  revert floor. induction l as [|x l IH]; intros floor; cbn; [set_solver|].
  intros [Hx Hl] [->|Hr]%elem_of_cons; [done|]. specialize (IH _ Hl Hr). lia.
Qed.

Lemma runs_last floor l : runs floor l → floor ≤ last_block floor l.
Proof.
  unfold last_block. intros H. destruct (last l) as [r|] eqn:E; [|done].
  apply (runs_floor _ l); [done|]. by apply last_Some_elem_of.
Qed.

Lemma runs_top floor l r : runs floor l → r ∈ l → block r ≤ last_block floor l.
Proof.
  revert floor. induction l as [|x l IH]; intros floor; cbn [runs]; [set_solver|]. rewrite last_block_cons.
  intros [Hx Hl] [->|Hr]%elem_of_cons; [by apply runs_last|by apply IH].
Qed.

(** Keeping the records below, or above, a block splits a run. *)
Lemma runs_split floor l b :
  runs floor l → l = filter (λ r, block r < b) l ++ filter (λ r, b ≤ block r) l.
Proof.
  revert floor. induction l as [|r l IH]; intros floor; cbn [runs]; [done|]. intros [_ Hl].
  rewrite !filter_cons. destruct (decide (block r < b)), (decide (b ≤ block r)); try lia.
  - cbn. by rewrite <-(IH _ Hl).
  - rewrite (filter_none (λ r, block r < b)), filter_all; [done|..];
      apply Forall_forall; intros x Hx; pose proof (runs_floor _ _ _ Hl Hx); lia.
Qed.

Lemma runs_filter floor l (P : CacheRecord → Prop) `{!∀ r, Decision (P r)} :
  runs floor l → runs floor (filter P l).
Proof.
  revert floor. induction l as [|r l IH]; intros floor; cbn [runs]; [done|]. intros [Hr Hl].
  rewrite filter_cons. destruct (decide (P r)); cbn [runs]; [auto|].
  apply IH. by apply (runs_weaken (block r)).
Qed.

(** ** The records in the file *)

Definition encodings (l : list CacheRecord) : list byte := l ≫= encoding.

Lemma length_encodings l : length (encodings l) = (length l * stride)%nat.
Proof.
  unfold encodings. induction l as [|r l IH]; [done|].
  rewrite bind_cons, length_app, length_encoding, IH. done.
Qed.
Lemma encodings_app l k : encodings (l ++ k) = encodings l ++ encodings k.
Proof. apply bind_app. Qed.
Lemma encodings_cons r l : encodings (r :: l) = encoding r ++ encodings l.
Proof. apply bind_cons. Qed.

(** The bytes of record [i]. *)
Lemma encodings_lookup l i r :
  l !! i = Some r → take stride (drop (i * stride) (encodings l)) = encoding r.
Proof.
  intros H. apply list_elem_of_split_length in H as (l1 & l2 & -> & ->).
  rewrite encodings_app, encodings_cons.
  rewrite drop_app_length' by by rewrite length_encodings. apply take_app_length'. by rewrite length_encoding.
Qed.

Lemma encodings_take l n : take (n * stride) (encodings l) = encodings (take n l).
Proof.
  destruct (decide (n ≤ length l)%nat).
  - rewrite <-(take_drop n l) at 1. rewrite encodings_app. apply take_app_length'.
    rewrite length_encodings, length_take. f_equal. lia.
  - rewrite !take_ge; [done|lia|]. rewrite length_encodings. apply Nat.mul_le_mono_r. lia.
Qed.

(** ** The header *)

Definition opts_ok (opts : Options) : Prop := is_u64 (o_ChainID opts) ∧ is_u64 (o_Start opts).

Lemma length_headerBytes opts : length (headerBytes opts) = headerSize.
Proof.
  unfold headerBytes, headerFields.
  by rewrite !length_app, !length_be_encode, length_vec_to_list.
Qed.

Section header_fields.
Context {A : Type} (m v c t s : list A).
Hypothesis Hlen : length m = 8%nat ∧ length v = 4%nat ∧ length c = 8%nat ∧
  length t = 20%nat ∧ length s = 8%nat.

Lemma header_slices :
  let p := m ++ v ++ c ++ t ++ s in
  slice p 0 8 = m ∧ slice p 8 12 = v ∧ slice p 12 20 = c ∧ slice p 20 40 = t ∧ slice p 40 48 = s.
Proof using Hlen.
  destruct Hlen as (Hm & Hv & Hc & Ht & Hs). cbn zeta.
  split_and!; rewrite ?slice_skip by lia; rewrite ?Hm, ?Hv, ?Hc, ?Ht; cbn [Nat.sub];
    first [by apply slice_head | by apply slice_all].
Qed.
End header_fields.

Lemma checkHeader_own opts c rest :
  opts_ok opts → k_file c = headerBytes opts ++ rest → checkHeader opts c = Ok ().
Proof.
  intros [Hc Hs] Hf. unfold checkHeader. rewrite Hf, take_app_length' by by rewrite length_headerBytes.
  unfold headerBytes. set (h := headerFields opts).
  assert (length h = 48%nat) as Hh.
  { unfold h, headerFields. by rewrite !length_app, !length_be_encode, length_vec_to_list. }
  rewrite (slice_skip h _ 48), Hh by (rewrite Hh; lia). rewrite !slice_prefix by (rewrite Hh; lia).
  rewrite (slice_all (be_encode 4 _)) by by rewrite length_be_encode.
  rewrite take_app_length' by done. rewrite be_decode_encode_u32 by apply Checksum_u32. rewrite Z.eqb_refl.
  unfold h, headerFields.
  destruct (header_slices magic (be_encode 4 formatVersion) (be_encode 8 (o_ChainID opts))
    (o_Token opts) (be_encode 8 (o_Start opts))) as (-> & -> & -> & -> & ->).
  { by rewrite !length_be_encode, !length_vec_to_list. }
  rewrite copy_array_of_list, !be_decode_encode_u64, be_decode_encode_u32 by done.
  rewrite !Z.eqb_refl, !bool_decide_eq_true_2 by done. done.
Qed.

Lemma split_header {A} (buf : list A) :
  length buf = headerSize →
  buf = (slice buf 0 8 ++ slice buf 8 12 ++ slice buf 12 20 ++ slice buf 20 40 ++ slice buf 40 48) ++
        slice buf 48 52.
Proof.
  intros Hl. rewrite <-!app_assoc.
  assert (∀ from to, (from ≤ to)%nat → slice buf from to ++ drop to buf = drop from buf) as Hd
    by (intros; by rewrite <-drop_slice).
  rewrite <-(app_nil_r (slice buf 48 52)), <-(drop_ge buf 52) by by rewrite Hl.
  by rewrite !Hd by lia.
Qed.

(** A header is accepted only when it is the one this run writes. *)
Lemma checkHeader_exact opts c :
  (headerSize ≤ length (k_file c))%nat → checkHeader opts c = Ok () → take headerSize (k_file c) = headerBytes opts.
Proof.
  intros Hlen. unfold checkHeader. set (buf := take headerSize (k_file c)).
  assert (length buf = headerSize) as Hl by (unfold buf; rewrite length_take; lia).
  assert (∀ from to, (from ≤ to ≤ 52)%nat → (from ≤ to ≤ length buf)%nat) as Hle by (rewrite Hl; done).
  pose proof (split_header buf Hl) as Hs.
  assert (take 48 buf = slice buf 0 8 ++ slice buf 8 12 ++ slice buf 12 20 ++ slice buf 20 40 ++ slice buf 40 48) as Ht.
  { rewrite Hs at 1. apply take_app_length'. rewrite !length_app, !length_slice by (apply Hle; lia). done. }
  destruct (bool_decide_reflect (slice buf 0 8 = magic)) as [Hm|]; cbn [negb]; [|done].
  destruct (Z.eqb_spec (Checksum (take 48 buf)) (be_decode (slice buf 48 52))) as [Hcrc|]; cbn [negb]; [|done].
  destruct (Z.eqb_spec (be_decode (slice buf 8 12)) formatVersion) as [Hv|]; cbn [negb]; [|done].
  destruct (Z.eqb_spec (be_decode (slice buf 12 20)) (o_ChainID opts)) as [Hc|]; cbn [negb]; [|done].
  destruct (bool_decide_reflect (copy_array 20 (slice buf 20 40) = o_Token opts)) as [Htok|]; cbn [negb]; [|done].
  destruct (Z.eqb_spec (be_decode (slice buf 40 48)) (o_Start opts)) as [Hst|]; cbn [negb]; [|done].
  intros _. unfold headerBytes. assert (headerFields opts = take 48 buf) as ->.
  { unfold headerFields. rewrite <-Hm, <-Hv, <-Hc, <-Htok, <-Hst, copy_array_slice, !be_encode_slice
      by first [done|apply Hle; lia]. by rewrite Ht. }
  rewrite Hcrc, be_encode_slice, Ht by first [done|apply Hle; lia]. done.
Qed.
