(* ===== verification/CacheOps.v ===== *)
(** * What each operation does to the list the Cache holds

    Append extends it, Each folds over it, Truncate cuts it at a block, Close and
    Open carry it across runs; [scanFrom_spec] is Open on any bytes at all. *)
From S2P Require Import Prelude Sorts Bytes Text Merkle MerkleEncode Twab Chain Crc Cache CacheSpec.

Record holds (opts : Options) (l : list CacheRecord) (c : Cache) : Prop := Holds {
  h_bytes : k_file c ++ k_writer c = headerBytes opts ++ encodings l;
  h_count : k_count c = length l;
  h_last : k_last c = default zeroRecord (last l);
  h_start : k_start c = o_Start opts;
  h_ok : Forall record_ok l;
  h_runs : runs (o_Start opts) l;
}.

(** The same with nothing left in the write buffer. *)
Definition stored (opts : Options) (l : list CacheRecord) (c : Cache) : Prop :=
  holds opts l c ∧ k_writer c = [].

Section operations.
Context (opts : Options) (Hopts : opts_ok opts).
Implicit Types (l : list CacheRecord) (c : Cache).

Lemma flush_stored l c : holds opts l c → stored opts l (flush c).
Proof. intros [? ? ? ? ? ?]. split; [|done]. split; cbn; by rewrite ?app_nil_r. Qed.

Lemma stored_file l c : stored opts l c → k_file c = headerBytes opts ++ encodings l.
Proof. intros [[Hb _ _ _ _ _] Hw]. by rewrite Hw, app_nil_r in Hb. Qed.

Lemma checkpoint_stored l c : holds opts l c → stored opts l (checkpoint c).
Proof. intros [[? ? ? ? ? ?] ?]%flush_stored. split; [by split|done]. Qed.

Lemma holds_floor l c :
  holds opts l c →
  (if (0 <? k_count c)%nat then block (k_last c) else k_start c) = last_block (o_Start opts) l.
Proof.
  intros [_ -> -> -> _ _]. unfold last_block. destruct l as [|r l]; [done|].
  destruct (last (r :: l)) eqn:E; [done|]. by apply last_None in E.
Qed.

(** ** Reading *)

Lemma recordAt_stored l c i :
  stored opts l c → recordAt c i = or_err (l !! i) (errReading i).
Proof.
  intros Hs. unfold recordAt, offsetOf. rewrite (stored_file l c Hs).
  rewrite drop_app_add' by by rewrite length_headerBytes.
  destruct (l !! i) as [r|] eqn:Hr; cbn [or_err].
  - rewrite (encodings_lookup l i r Hr), length_encoding, Nat.eqb_refl, decode_encoding; [done|].
    destruct Hs as [[_ _ _ _ Hok _] _]. by eapply Forall_lookup_1.
  - apply lookup_ge_None in Hr.
    rewrite drop_ge; [by rewrite take_nil|]. rewrite length_encodings. by apply Nat.mul_le_mono_r.
Qed.

Lemma eachFrom_encodings {S} (fn : S → CacheRecord → Res cacheError S) l i s :
  Forall record_ok l → eachFrom fn (encodings l) i (length l) s = foldM fn l s.
Proof.
  intros Hl. revert i s. induction Hl as [|r l Hr Hl IH]; intros i s; [done|].
  cbn [eachFrom length foldM]. rewrite encodings_cons.
  rewrite take_app_length', drop_app_length' by by rewrite length_encoding.
  rewrite length_encoding, Nat.ltb_irrefl, decode_encoding by done. cbn [or_err mbind Res_bind].
  destruct (fn s r); [apply IH|done..].
Qed.

Lemma Each_holds {S} (fn : S → CacheRecord → Res cacheError S) l c s :
  holds opts l c →
  stored opts l (flush c) ∧ Each fn s c = (s' ← foldM fn l s; mret (s', flush c)).
Proof.
  intros Hc. pose proof (flush_stored l c Hc) as Hs. split; [done|]. unfold Each.
  rewrite (stored_file l _ Hs). destruct Hs as [[_ Hn _ _ Hok _] _].
  rewrite drop_app_length', Hn by by rewrite length_headerBytes.
  rewrite take_ge by by rewrite length_encodings. by rewrite eachFrom_encodings.
Qed.

Lemma firstAtOrAbove_stored l c b :
  stored opts l c → firstAtOrAbove b c = Ok (length (filter (λ r, block r < b) l)).
Proof.
  intros Hs. pose proof Hs as [[_ Hn _ _ _ Hruns] _]. unfold firstAtOrAbove, firstWhere. rewrite Hn.
  set (p := λ i, match l !! i with Some r => b <=? block r | None => false end).
  pose proof (runs_split _ l b Hruns) as Hl. set (lo := filter _ l) in *. set (hi := filter _ l) in Hl.
  assert (∀ i, (i < length lo)%nat → p i = false) as Hlo.
  { intros i [r Hr]%lookup_lt_is_Some_2. unfold p. rewrite Hl, lookup_app_l by by eapply lookup_lt_Some.
    rewrite Hr. apply Z.leb_gt. apply list_elem_of_lookup_2 in Hr. by apply list_elem_of_filter in Hr as [? _]. }
  assert (∀ i, (length lo ≤ i < length l)%nat → p i = true) as Hhi.
  { intros i [Hge Hi]. unfold p. rewrite Hl, lookup_app_r by done.
    destruct (lookup_lt_is_Some_2 hi (i - length lo)) as [r Hr].
    { rewrite Hl, length_app in Hi. lia. }
    rewrite Hr. apply Z.leb_le. apply list_elem_of_lookup_2 in Hr. by apply list_elem_of_filter in Hr as [? _]. }
  destruct (Search_first (λ i, r ← recordAt c i; mret (b <=? block r)) p (length l)) as (k & HS & Hk & Hklo & Hkhi).
  { intros i [r Hr]%lookup_lt_is_Some_2. rewrite (recordAt_stored l c i Hs). unfold p. by rewrite Hr. }
  { intros i j Hij Hp. destruct (decide (i < length lo)%nat); [rewrite Hlo in Hp by done; done|].
    apply Hhi. lia. }
  rewrite HS. f_equal. assert (length lo ≤ length l)%nat by (rewrite Hl, length_app; lia).
  destruct (Nat.lt_trichotomy k (length lo)) as [?|[->|?]]; [|done|].
  - specialize (Hlo k ltac:(lia)). specialize (Hkhi k ltac:(lia)). congruence.
  - specialize (Hhi (length lo) ltac:(lia)). specialize (Hklo (length lo) ltac:(lia)). congruence.
Qed.

(** ** Writing *)

Lemma bufWrite_bytes file buf p :
  let '(file', buf') := bufWrite file buf p in file' ++ buf' = file ++ buf ++ p.
Proof.
  unfold bufWrite. destruct (Z.leb_spec (Z.of_nat (length p)) (bufferSize - Z.of_nat (length buf))); [done|].
  destruct buf as [|b buf]; [by rewrite app_nil_r|].
  set (n := Z.to_nat _). destruct (Z.leb_spec (Z.of_nat (length (drop n p))) bufferSize);
    rewrite ?app_nil_r, <-!app_assoc, take_drop; done.
Qed.

Lemma encodeBatch_Ok i floor l e :
  Forall record_typed l →
  encodeBatch i floor l = Ok e ↔ Forall record_ok l ∧ runs floor l ∧ e = encodings l.
Proof.
  intros Ht. revert i floor e. induction Ht as [|r l Hr Ht IH]; intros i floor e; cbn [encodeBatch runs].
  { split; [intros He; by apply (inj Ok) in He as <-|by intros (_ & _ & ->)]. }
  destruct (Z.ltb_spec (block r) floor) as [|Hle].
  { split; [done|]. intros (_ & [? _] & _). lia. }
  rewrite bind_Ok. setoid_rewrite wrap_Ok. setoid_rewrite (encodeRecord_Ok r _ Hr).
  rewrite Forall_cons, encodings_cons. split.
  - intros (e1 & [Hr' ->] & (e2 & (? & ? & ->)%IH & He)%bind_Ok). apply (inj Ok) in He as <-. done.
  - intros ([Hr' Hl] & [_ Hrun] & ->). exists (encoding r). split; [done|].
    apply bind_Ok. exists (encodings l). by rewrite IH.
Qed.

Lemma encodeBatch_no_fault i floor l x : encodeBatch i floor l ≠ Fault x.
Proof.
  revert i floor. induction l as [|r l IH]; intros i floor; cbn [encodeBatch]; [done|].
  destruct (_ <? _); [done|].
  intros [Hf|(e & _ & [Hf|(? & _ & ?)]%bind_Fault)]%bind_Fault; [|by apply IH in Hf|done].
  apply wrap_Fault in Hf. unfold encodeRecord in Hf. destruct (rec_Value r); [|done].
  by repeat (destruct (_ <? _); [done|]).
Qed.

Lemma Append_holds l k c :
  holds opts l c → Forall record_ok k → runs (last_block (o_Start opts) l) k →
  ∃ c', Append k c = Ok c' ∧ holds opts (l ++ k) c' ∧ k_repaired c' = k_repaired c.
Proof.
  intros Hc Hk Hr. unfold Append. rewrite (holds_floor l c Hc).
  assert (encodeBatch 0 (last_block (o_Start opts) l) k = Ok (encodings k)) as ->.
  { apply encodeBatch_Ok; [|done]. eapply Forall_impl; [exact Hk|]. by intros ? [? _]. }
  cbn [mbind Res_bind]. destruct (last k) as [r|] eqn:Hlast.
  2:{ apply last_None in Hlast as ->. exists c. by rewrite app_nil_r. }
  pose proof (bufWrite_bytes (k_file c) (k_writer c) (encodings k)) as Hb.
  destruct (bufWrite _ _ _) as [file writer]. destruct Hc as [Hbytes Hn _ Hstart Hok Hruns].
  set (c' := mkCache _ _ _ _ _ _ _).
  assert (holds opts (l ++ k) c') as Hc'.
  { split; cbn.
    - by rewrite Hb, app_assoc, Hbytes, <-app_assoc, encodings_app.
    - by rewrite Hn, length_app.
    - by rewrite last_app, Hlast.
    - done.
    - by apply Forall_app.
    - by apply runs_app. }
  destruct (_ <=? _); eexists; (split; [done|]); (split; [|done]); [by apply checkpoint_stored|done].
Qed.

Lemma Append_Err l k c :
  holds opts l c → Forall record_typed k →
  ¬ (Forall record_ok k ∧ runs (last_block (o_Start opts) l) k) → ∃ e, Append k c = Err e.
Proof.
  intros Hc Hk Hbad. unfold Append. rewrite (holds_floor l c Hc).
  destruct (encodeBatch _ _ k) as [e|e|x] eqn:E; cbn [mbind Res_bind]; [|by exists e|by apply encodeBatch_no_fault in E].
  apply encodeBatch_Ok in E; [|done]. tauto.
Qed.

(** The file starts with the header and these records. *)
Definition begins (l : list CacheRecord) (c : Cache) : Prop :=
  headerBytes opts ++ encodings l `prefix_of` k_file c ∧ k_writer c = [] ∧
  k_start c = o_Start opts ∧ Forall record_ok l ∧ runs (o_Start opts) l.

Lemma stored_begins l c : stored opts l c → begins l c.
Proof. intros Hs. pose proof (stored_file l c Hs) as Hf. destruct Hs as [[] ?]. split; [by rewrite Hf|done]. Qed.

Lemma cut_stored l c n last' :
  begins l c → last' = default zeroRecord (last (take n l)) → (n ≤ length l)%nat →
  ∀ p rep, stored opts (take n l)
    (mkCache (take (offsetOf n) (k_file c)) (k_writer c) n last' (k_start c) p rep).
Proof.
  intros ([tail Hf] & Hw & Hst & Hok & Hr) -> Hn p rep.
  split; [|done]. split; cbn [k_file k_writer k_count k_last k_start];
    [|by rewrite length_take_le|done..|by apply Forall_take|].
  - rewrite Hf, Hw, app_nil_r, <-app_assoc. unfold offsetOf.
    rewrite take_app_add' by by rewrite length_headerBytes. rewrite take_app_le, encodings_take; [done|].
    rewrite length_encodings. by apply Nat.mul_le_mono_r.
  - rewrite <-(take_drop n l) in Hr. by apply runs_app in Hr as [? _].
Qed.

Lemma recordAt_cut l c n :
  begins l c → (0 < n ≤ length l)%nat →
  ∀ x p rep, recordAt (mkCache (take (offsetOf n) (k_file c)) (k_writer c) n x (k_start c) p rep) (n - 1) =
    Ok (default zeroRecord (last (take n l))).
Proof.
  intros Hs Hn x p rep.
  set (c' := mkCache (take (offsetOf n) (k_file c)) (k_writer c) n (default zeroRecord (last (take n l))) (k_start c) p rep).
  change (recordAt c' (n - 1) = Ok (default zeroRecord (last (take n l)))).
  rewrite (recordAt_stored (take n l) c'); [|apply cut_stored; [done|done|lia]].
  rewrite last_lookup, length_take_le by lia. replace (pred n) with (n - 1)%nat by lia.
  destruct (lookup_lt_is_Some_2 (take n l) (n - 1)) as [r ->]; [rewrite length_take_le; lia|done].
Qed.

Lemma Truncate_holds l c b :
  holds opts l c →
  ∃ c', Truncate b c = Ok (length (filter (λ r, b ≤ block r) l), c') ∧
        stored opts (filter (λ r, block r < b) l) c' ∧ k_repaired c' = k_repaired c.
Proof.
  intros Hc. pose proof (flush_stored l c Hc) as Hs. pose proof Hs as [[_ Hn _ _ _ Hr] Hw]. unfold Truncate.
  rewrite (firstAtOrAbove_stored l _ b Hs), Hn. cbn [mbind Res_bind].
  pose proof (runs_split _ l b Hr) as Hl. set (lo := filter (λ r, block r < b) l) in *. set (hi := filter (λ r, b ≤ block r) l) in *.
  assert (length l - length lo = length hi)%nat as -> by (rewrite Hl, length_app; lia).
  destruct (Nat.eqb_spec (length hi) 0) as [H0|H0].
  { exists (flush c). rewrite H0. apply nil_length_inv in H0. rewrite H0, app_nil_r in Hl. by rewrite <-Hl. }
  assert (length lo ≤ length l)%nat by (rewrite Hl, length_app; lia).
  assert (take (length lo) l = lo) as Htake by (rewrite Hl at 1; apply take_app_length).
  destruct (Nat.ltb_spec 0 (length lo)) as [Hpos|Hz].
  - rewrite (recordAt_cut l) by first [by apply stored_begins|done]. cbn [mbind Res_bind]. eexists. split; [done|]. split; [|done].
    rewrite <-Htake at 1. apply (cut_stored l (flush c)); [by apply stored_begins|done|done].
  - cbn [mbind Res_bind mret Res_ret]. eexists. split; [done|]. split; [|done].
    rewrite <-Htake at 1. apply (cut_stored l (flush c)); [by apply stored_begins| |done].
    rewrite Htake. assert (lo = []) as -> by (apply nil_length_inv; lia). done.
Qed.

(** ** Opening *)

(** The whole blocks of a run cut short: all but those of its last block. *)
Definition kept (l : list CacheRecord) : list CacheRecord :=
  filter (λ r, block r < last_block 0 l) l.

Lemma kept_snoc floor l r :
  runs floor (l ++ [r]) →
  kept (l ++ [r]) = if bool_decide (l = [] ∨ block r = last_block 0 l) then kept l else l.
Proof.
  intros (Hl & Hr & _)%runs_app. unfold kept. rewrite last_block_snoc, filter_app, filter_cons_False by lia.
  rewrite filter_nil, app_nil_r. destruct (bool_decide_reflect (l = [] ∨ block r = last_block 0 l)) as [[->| ->]|Hn]; [done..|].
  apply filter_all, Forall_forall. intros x Hx. pose proof (runs_top _ _ _ Hl Hx) as Hx'.
  assert (last_block floor l = last_block 0 l) as Heq.
  { unfold last_block. destruct (last l) eqn:E; [done|]. apply last_None in E. naive_solver. }
  rewrite Heq in *. assert (block r ≠ last_block 0 l) by naive_solver. lia.
Qed.

Lemma kept_take floor l : runs floor l → take (length (kept l)) l = kept l.
Proof.
  intros Hr. rewrite (runs_split _ l (last_block 0 l) Hr) at 2. apply take_app_length.
Qed.

Lemma repair_cut reason size l c :
  begins l c → k_count c = length l →
  ∃ c', repair reason size (length (kept l)) (last_block 0 (kept l)) c = Ok c' ∧
    stored opts (kept l) c' ∧
    k_repaired c' = Some (mkRepair reason (length l) (length (kept l)) (last_block 0 (kept l))
      ((size - headerSize) / stride - length (kept l))).
Proof.
  intros Hb Hn. pose proof Hb as (_ & _ & _ & _ & Hr). pose proof (kept_take _ l Hr) as Hk.
  assert (length (kept l) ≤ length l)%nat by apply length_filter. unfold repair. rewrite Hn. cbn zeta.
  cbn [k_file k_writer k_count k_last k_start k_pending k_repaired].
  destruct (Nat.eqb_spec (length (kept l)) 0) as [H0|H0].
  - cbn [mbind Res_bind mret Res_ret]. eexists. split; [done|]. split; [|done].
    rewrite <-Hk at 1. apply cut_stored; [done| |done]. rewrite Hk. by apply nil_length_inv in H0 as ->.
  - rewrite (recordAt_cut l) by first [done|lia]. cbn [mbind Res_bind mret Res_ret].
    eexists. split; [done|]. split; [|done]. rewrite <-Hk at 1. by apply cut_stored.
Qed.

(** What follows is not a whole record that could come next. *)
Definition stops (floor : Z) (tail : list byte) : Prop :=
  ∀ r k, record_ok r → tail = encoding r ++ k → block r < floor.

(** The records [scan] accepts from the bytes after a header, and the rest. *)
Definition scanned (floor : Z) (rest : list byte) (l : list CacheRecord) (tail : list byte) : Prop :=
  rest = encodings l ++ tail ∧ Forall record_ok l ∧ runs floor l ∧ stops (last_block floor l) tail.

Lemma scanned_exists floor rest : ∃ l tail, scanned floor rest l tail.
Proof.
  revert floor. remember (length rest) as n eqn:Hn. revert rest Hn.
  induction (Nat.lt_wf_0 n) as [n _ IH]. intros rest -> floor.
  assert (stops floor rest ∨ ∃ r k, record_ok r ∧ rest = encoding r ++ k ∧ floor ≤ block r)
    as [Hs|(r & k & Hr & -> & Hle)].
  { destruct (decide (length (take stride rest) = stride)) as [Hl|Hl].
    2:{ left. intros r k _ ->. destruct Hl. by rewrite take_app_length', length_encoding by by rewrite length_encoding. }
    destruct (decodeRecord (take stride rest)) as [r|] eqn:Hd.
    - apply decodeRecord_Some in Hd as [Hr He]; [|done]. destruct (decide (floor ≤ block r)) as [|Hlt].
      { right. exists r, (drop stride rest). by rewrite <-He, take_drop. }
      left. intros r' k Hr' ->. rewrite take_app_length' in He by by rewrite length_encoding.
      assert (Some r' = Some r) as [= <-] by by rewrite <-!decode_encoding, He. lia.
    - left. intros r k Hr ->. rewrite take_app_length' in Hd by by rewrite length_encoding.
      by rewrite decode_encoding in Hd. }
  { by exists [], rest. }
  destruct (IH (length k)) with (rest := k) (floor := block r) as (l & tail & -> & Hok & Hrun & Hstop); [|done|].
  { rewrite length_app, length_encoding. unfold stride. lia. }
  exists (r :: l), tail. split; [by rewrite encodings_cons, <-app_assoc|].
  split; [by constructor|]. split; [done|]. by rewrite last_block_cons.
Qed.

(** The turn of the loop that stops before the end of the file. *)
Lemma scanFrom_stop pre fuel size bs bb c tail :
  k_start c = o_Start opts → runs (o_Start opts) pre →
  k_count c = length pre → k_last c = default zeroRecord (last pre) →
  stops (last_block (o_Start opts) pre) tail → tail ≠ [] →
  ∃ reason, scanFrom (S fuel) size tail bs bb c = repair reason size bs bb c.
Proof.
  intros Hst Hr Hn Hl Hstop Hne. cbn [scanFrom]. destruct tail as [|b tail]; [done|].
  set (t := b :: tail) in *. destruct (Nat.ltb_spec (length (take stride t)) stride) as [|Hlen]; [by eexists|].
  assert (length (take stride t) = stride) as Hlen' by (rewrite length_take in *; lia).
  destruct (decodeRecord (take stride t)) as [r|] eqn:Hd; [|by eexists].
  apply decodeRecord_Some in Hd as [Hok He]; [|done].
  specialize (Hstop r (drop stride t) Hok). rewrite <-He, take_drop in Hstop. specialize (Hstop eq_refl).
  rewrite Hst, Hn, Hl. destruct (Z.ltb_spec (block r) (o_Start opts)) as [|Hge]; [by eexists|].
  unfold last_block in Hstop. destruct (last pre) as [x|] eqn:E; [|lia]. cbn [default from_option id].
  destruct pre as [|y pre]; [done|]. cbn [length Nat.ltb Nat.leb].
  destruct (Z.ltb_spec (block r) (block x)); [by eexists|lia].
Qed.

(** The turn that takes one more record. *)
Lemma scanFrom_step pre r fuel size c rest :
  k_start c = o_Start opts → runs (o_Start opts) (pre ++ [r]) → record_ok r →
  k_count c = length pre → k_last c = default zeroRecord (last pre) →
  scanFrom (S fuel) size (encoding r ++ rest) (length (kept pre)) (last_block 0 (kept pre)) c =
  scanFrom fuel size rest (length (kept (pre ++ [r]))) (last_block 0 (kept (pre ++ [r])))
    (mkCache (k_file c) (k_writer c) (length (pre ++ [r])) r (k_start c) (k_pending c) (k_repaired c)).
Proof.
  intros Hst Hr Hok Hn Hl. cbn [scanFrom]. rewrite (kept_snoc _ _ _ Hr).
  rewrite take_app_length', drop_app_length' by by rewrite length_encoding.
  rewrite length_encoding, Nat.ltb_irrefl, decode_encoding, Hst, Hn, Hl by done.
  destruct (encoding r ++ rest) as [|b t] eqn:Ht.
  { apply (f_equal length) in Ht. by rewrite length_app, length_encoding in Ht. }
  pose proof (runs_floor _ _ r Hr ltac:(set_solver)) as Hge.
  destruct (Z.ltb_spec (block r) (o_Start opts)); [lia|].
  apply runs_app in Hr as (Hpre & Hle & _). rewrite length_app, Nat.add_1_r.
  destruct pre as [|y pre]; [by rewrite bool_decide_eq_true_2 by by left|]. cbn [length Nat.ltb Nat.leb andb].
  unfold last_block in Hle |- *. destruct (last (y :: pre)) as [x|] eqn:E; [|by apply last_None in E].
  cbn [default from_option id]. destruct (Z.ltb_spec (block r) (block x)); [lia|].
  destruct (Z.eqb_spec (block r) (block x)) as [Heq|Hneq]; cbn [negb].
  - by rewrite bool_decide_eq_true_2 by by right.
  - rewrite bool_decide_eq_false_2 by naive_solver. by rewrite E.
Qed.

Lemma scanFrom_spec l : ∀ fuel pre size c tail,
  begins (pre ++ l) c → k_count c = length pre → k_last c = default zeroRecord (last pre) →
  stops (last_block (o_Start opts) (pre ++ l)) tail → (length l < fuel)%nat →
  ∃ c', scanFrom fuel size (encodings l ++ tail) (length (kept pre)) (last_block 0 (kept pre)) c = Ok c' ∧
    (tail = [] → c' = mkCache (k_file c) (k_writer c) (length (pre ++ l)) (default zeroRecord (last (pre ++ l)))
                        (k_start c) (k_pending c) (k_repaired c)) ∧
    (tail ≠ [] → stored opts (kept (pre ++ l)) c' ∧ ∃ reason,
       k_repaired c' = Some (mkRepair reason (length (pre ++ l)) (length (kept (pre ++ l)))
         (last_block 0 (kept (pre ++ l))) ((size - headerSize) / stride - length (kept (pre ++ l))))).
Proof.
  induction l as [|r l IH]; intros [|fuel] pre size c tail Hb Hn Hl Hstop Hf; cbn [length] in Hf; try lia.
  - rewrite app_nil_r in *. pose proof Hb as (_ & _ & Hst & _ & Hr). cbn [encodings mbind list_bind app].
    destruct tail as [|b tail].
    { eexists. split; [done|]. split; [|done]. intros _. rewrite <-Hn, <-Hl. by destruct c. }
    destruct (scanFrom_stop pre fuel size (length (kept pre)) (last_block 0 (kept pre)) c (b :: tail))
      as [reason ->]; try done.
    destruct (repair_cut reason size pre c Hb Hn) as (c' & ? & ? & ?). exists c'. naive_solver.
  - pose proof Hb as (_ & _ & Hst & Hok & Hr). rewrite (cons_middle r pre l), app_assoc in *.
    apply runs_app in Hr as [Hr _]. rewrite encodings_cons, <-app_assoc.
    rewrite scanFrom_step; try done.
    + set (c1 := mkCache _ _ _ _ _ _ _).
      refine (IH fuel (pre ++ [r]) size c1 tail Hb eq_refl _ Hstop _); [|lia]. cbn [k_last c1]. by rewrite last_snoc.
    + rewrite !Forall_app, Forall_singleton in Hok. tauto.
Qed.

(** Open of a file that starts with this run's header. *)
Lemma Open_scanned rest l tail :
  o_Fresh opts = false → scanned (o_Start opts) rest l tail →
  ∃ c, Open_ (headerBytes opts ++ rest) opts = Ok c ∧
    (tail = [] → stored opts l c ∧ k_repaired c = None) ∧
    (tail ≠ [] → stored opts (kept l) c ∧ ∃ reason,
       k_repaired c = Some (mkRepair reason (length l) (length (kept l)) (last_block 0 (kept l))
         (length rest / stride - length (kept l)))).
Proof using Hopts.
  intros Hfresh (-> & Hok & Hr & Hstop). unfold Open_, load. rewrite Hfresh. cbn [k_file].
  set (file := headerBytes opts ++ _). assert (length file = headerSize + length (encodings l ++ tail))%nat as Hlen.
  { unfold file. by rewrite length_app, length_headerBytes. }
  destruct (Nat.eqb_spec (length file) 0) as [H0|_]; [rewrite Hlen in H0; done|].
  destruct (Nat.ltb_spec (length file) headerSize) as [|_]; [lia|].
  set (c0 := mkCache file [] 0 zeroRecord (o_Start opts) 0 None).
  rewrite (checkHeader_own opts c0 (encodings l ++ tail)) by done. cbn [mbind Res_bind]. unfold scan. cbn [k_file c0].
  rewrite Hlen. unfold file at 1 2. rewrite !drop_app_length' by by rewrite length_headerBytes.
  destruct (scanFrom_spec l (S (length (encodings l ++ tail))) [] (headerSize + length (encodings l ++ tail)) c0 tail)
    as (c & Hc & Hnil & Hcons); [|done..| |].
  { split; [|done]. exists tail. unfold c0, file. cbn [k_file]. by rewrite app_assoc. }
  { rewrite length_app, length_encodings. unfold stride. lia. }
  exists c. split; [exact Hc|]. split.
  - intros Ht. rewrite (Hnil Ht). split; [|done]. split; [|done]. split; cbn; try done.
    unfold file. by rewrite Ht, !app_nil_r.
  - intros Ht. rewrite Nat.add_comm, Nat.add_sub in Hcons. by apply Hcons.
Qed.

End operations.
