(* ===== verification/CacheSync.v ===== *)
(** * Sync against a source that serves one chain

    [serves src hashAt hist tip]: up to the block [tip] the source answers from one
    history [hist] of transfers and one hash per block. *)
From S2P Require Import Prelude Sorts Bytes StateMonad Text Merkle MerkleEncode Twab Chain Crc Cache CacheSpec CacheOps.

Record serves {N} (src : Source N) (hashAt : Z → Hash) (hist : list CacheRecord) (tip : Z) : Prop := Serves {
  sv_transfers : ∀ from to, 0 ≤ from ≤ to → to ≤ tip → ∃ ts, always (src_Transfers src from to) (Ok ts) ∧
    FromTransfer <$> ts = filter (λ r, from ≤ block r ≤ to) hist;
  sv_block : ∀ n, 0 ≤ n ≤ tip → ∃ b, always (src_BlockByNumber src n) (Ok b) ∧ b_Hash b = hashAt n;
}.

(** A record of a block the chain has. *)
Definition on_chain (hashAt : Z → Hash) (r : CacheRecord) : Prop := hashAt (block r) = rec_BlockHash r.
#[global] Instance on_chain_dec hashAt r : Decision (on_chain hashAt r).
Proof. unfold on_chain. apply _. Defined.

(** ** Runs between two blocks *)

Lemma filter_iff' (P Q : CacheRecord → Prop) `{!∀ r, Decision (P r), !∀ r, Decision (Q r)}
    (l : list CacheRecord) :
  (∀ r, r ∈ l → P r ↔ Q r) → filter P l = filter Q l.
Proof.
  induction l as [|r l IH]; intros HPQ; [done|]. rewrite !filter_cons, IH by set_solver.
  specialize (HPQ r ltac:(set_solver)). destruct (decide (P r)), (decide (Q r)); tauto.
Qed.

Lemma filter_between floor l a b c :
  runs floor l → a ≤ b + 1 → b ≤ c →
  filter (λ r, a ≤ block r ≤ c) l =
  filter (λ r, a ≤ block r ≤ b) l ++ filter (λ r, b + 1 ≤ block r ≤ c) l.
Proof.
  intros Hr Hab Hbc. rewrite (runs_split floor (filter _ l) (b + 1)) at 1 by by apply runs_filter.
  rewrite !list_filter_filter. f_equal; apply list_filter_iff; lia.
Qed.

Lemma runs_raise floor l b : runs floor l → (∀ r, r ∈ l → b ≤ block r) → runs b l.
Proof. destruct l as [|r l]; [done|]. intros [_ ?] Hb. split; [apply Hb; set_solver|done]. Qed.

(** The block Sync resumes at. *)
Definition resume (start : Z) (l : list CacheRecord) : Z :=
  match last l with Some r => block r + 1 | None => start end.

(** Resuming after whole blocks leaves none out. *)
Lemma resume_complete start hist m tip l :
  runs start hist → m ≤ tip → l = filter (λ r, block r ≤ m) hist →
  l ++ filter (λ r, resume start l ≤ block r ≤ tip) hist = filter (λ r, block r ≤ tip) hist.
Proof.
  intros Hr Hm Hl. unfold resume. destruct (last l) as [r|] eqn:E.
  - assert (runs start l) as Hrl by (rewrite Hl; by apply runs_filter).
    rewrite (runs_split start (filter (λ r, block r ≤ tip) hist) (block r + 1)) by by apply runs_filter.
    rewrite !list_filter_filter. f_equal. rewrite Hl.
    apply filter_iff'. intros x Hx. pose proof (last_Some_elem_of _ _ E) as Hin.
    assert (block r ≤ m) by (rewrite Hl in Hin; by apply list_elem_of_filter in Hin as [? _]).
    split; [|lia]. intros Hxm. assert (x ∈ l) as Hxl by (rewrite Hl; by apply list_elem_of_filter).
    pose proof (runs_top _ _ _ Hrl Hxl) as Ht. unfold last_block in Ht. rewrite E in Ht. lia.
  - apply last_None in E as ->. cbn [app]. apply filter_iff'. intros x Hx.
    pose proof (runs_floor _ _ _ Hr Hx). lia.
Qed.

Section sync.
Context {N : Type} (opts : Options) (src : Source N) (hashAt : Z → Hash) (hist : list CacheRecord) (tip : Z).
Hypothesis Hserves : serves src hashAt hist tip.
Hypothesis Hok : Forall record_ok hist.
Hypothesis Hruns : runs (o_Start opts) hist.
Hypothesis Hopts : opts_ok opts.
Hypothesis Htip : 0 ≤ tip ∧ tip + 1 < 2 ^ 64.

Lemma syncFrom_spec chunk : 0 < chunk → ∀ fuel from l c s,
  0 ≤ from → last_block (o_Start opts) l ≤ from → holds opts l c → (Z.to_nat (tip - from + 1) ≤ fuel)%nat →
  ∃ c', (∀ w, ∃ w', syncFrom src fuel tip chunk from s c w =
      (mkSynced (sy_Reorg s) (sy_Appended s + Z.of_nat (length (filter (λ r, from ≤ block r ≤ tip) hist))), c', Ok (), w')) ∧
    holds opts (l ++ filter (λ r, from ≤ block r ≤ tip) hist) c'.
Proof using Hserves Hok Hruns Htip.
  intros Hchunk. induction fuel as [|fuel IH]; intros from l c s Hfrom Hl Hc Hf; cbn [syncFrom];
    (destruct (Z.ltb_spec tip from) as [Hlt|Hge];
     [ exists c; rewrite filter_none by (apply Forall_forall; lia); rewrite app_nil_r, Z.add_0_r;
       split; [intros w; exists w; by destruct s|done] |]); [lia|].
  set (end_ := if chunk <=? u64 (tip - from) then u64 (from + chunk - 1) else tip).
  assert (from ≤ end_ ≤ tip) as He.
  { unfold end_. rewrite (u64_id (tip - from)) by (unfold is_u64; lia).
    destruct (Z.leb_spec chunk (tip - from)); [|lia]. rewrite u64_id; unfold is_u64; lia. }
  destruct (sv_transfers _ _ _ _ Hserves from end_) as (ts & Hts & Hrec); [lia..|].
  set (new := filter (λ r, from ≤ block r ≤ end_) hist) in Hrec.
  destruct (Append_holds opts l new c Hc) as (c1 & Happ & Hc1 & _).
  { by apply Forall_filter_keep. }
  { apply (runs_raise (o_Start opts)); [by apply runs_filter|].
    intros r [? _]%list_elem_of_filter. lia. }
  assert (length ts = length new) as Hlen by by rewrite <-Hrec, length_fmap.
  destruct (Z.eqb_spec end_ tip) as [Heq|Hne].
  { exists c1. split; [|unfold new in *; by rewrite Heq in *]. intros w. destruct (always_run _ _ w Hts) as [w1 ->].
    cbn [wrap mbind Res_bind]. rewrite Hrec, Happ. cbn [mret Res_ret mbind Res_bind]. exists w1.
    rewrite Hlen. unfold new. by rewrite Heq. }
  rewrite (u64_id (end_ + 1)) by (unfold is_u64; lia).
  rewrite (filter_between (o_Start opts) hist from end_ tip) by first [done|lia]. fold new.
  destruct (IH (end_ + 1) (l ++ new) c1 (mkSynced (sy_Reorg s) (sy_Appended s + Z.of_nat (length new))))
    as (c' & Hs & Hc'); [lia| |done|lia|].
  { unfold last_block. rewrite last_app. destruct (last new) as [r|] eqn:E.
    - apply last_Some_elem_of in E. unfold new in E. apply list_elem_of_filter in E as [? _]. lia.
    - fold (last_block (o_Start opts) l). lia. }
  exists c'. rewrite length_app, Nat2Z.inj_add, Z.add_assoc, app_assoc. split; [|exact Hc'].
  intros w. destruct (always_run _ _ w Hts) as [w1 ->]. cbn [wrap mbind Res_bind]. rewrite Hrec, Happ.
  cbn [mret Res_ret mbind Res_bind]. rewrite Hlen. apply Hs.
Qed.

Lemma stillOnChain_spec l c i r :
  stored opts l c → l !! i = Some r → 0 ≤ block r ≤ tip →
  always (stillOnChain src c i) (Ok (bool_decide (on_chain hashAt r))).
Proof using Hserves.
  intros Hs Hr Hb. unfold stillOnChain. rewrite (recordAt_stored opts l c i Hs), Hr. cbn [or_err].
  destruct (sv_block _ _ _ _ Hserves (block r) Hb) as (b & Hblock & Hh).
  eapply answers_step; [apply answers_lift|]. eapply answers_step; [apply (answers_wrapS _ _ _ (Ok b)), Hblock|].
  eapply answers_eq; [apply answers_ret|]. f_equal. by rewrite Hh.
Qed.

(** The records at or below the tip, those of blocks the chain still has first. *)
Context (good stale : list CacheRecord).
Hypothesis Hgood : Forall (on_chain hashAt) good.
Hypothesis Hstale : Forall (λ r, ¬ on_chain hashAt r) stale.

Definition fork_block (stale : list CacheRecord) : option Z := block <$> head stale.

Lemma verify_spec l c :
  holds opts l c → filter (λ r, block r < tip + 1) l = good ++ stale →
  ∃ reorg c', always (verify src tip c) (Ok (reorg, c')) ∧ k_start c' = k_start c ∧
    match fork_block stale with
    | None => reorg = None ∧ holds opts l c'
    | Some b => reorg = Some (mkReorg b (length (filter (λ r, b ≤ block r) l))) ∧
                holds opts (filter (λ r, block r < b) l) c'
    end.
Proof using Hserves Hgood Hstale Htip Hopts.
  intros Hc Hlow. unfold verify. pose proof Hc as [_ Hn _ _ Hlok Hlr].
  destruct (Nat.eqb_spec (k_count c) 0) as [H0|H0].
  { rewrite Hn in H0. apply nil_length_inv in H0. subst l. rewrite filter_nil in Hlow.
    symmetry in Hlow. apply app_nil in Hlow as [-> ->]. exists None, c. split; [apply answers_ret|done]. }
  pose proof (flush_stored opts l c Hc) as Hs. pose proof Hs as [Hcf _].
  rewrite (u64_id (tip + 1)) by (unfold is_u64; lia).
  rewrite (firstAtOrAbove_stored opts l _ (tip + 1) Hs), Hlow.
  assert (∀ i r, (good ++ stale) !! i = Some r → l !! i = Some r ∧ 0 ≤ block r ≤ tip) as Hlk.
  { intros i r Hi. split.
    - rewrite (runs_split _ l (tip + 1) Hlr), Hlow. by apply lookup_app_l_Some.
    - apply list_elem_of_lookup_2 in Hi. rewrite <-Hlow in Hi. apply list_elem_of_filter in Hi as [? Hi].
      rewrite Forall_forall in Hlok. destruct (Hlok r Hi) as [[[? ?] _] _]. lia. }
  set (p := λ i, match (good ++ stale) !! i with Some r => bool_decide (on_chain hashAt r) | None => false end).
  assert (∀ i, (i < length (good ++ stale))%nat → always (stillOnChain src (flush c) i) (Ok (p i))) as Hstill.
  { intros i [r Hr]%lookup_lt_is_Some_2. destruct (Hlk i r Hr) as [Hl Hb].
    eapply answers_eq; [by apply (stillOnChain_spec l _ i r Hs)|]. unfold p. by rewrite Hr. }
  assert (∀ i, (i < length good)%nat → p i = true) as Hpg.
  { intros i [r Hr]%lookup_lt_is_Some_2. unfold p. rewrite lookup_app_l, Hr by by eapply lookup_lt_Some.
    apply bool_decide_eq_true. by eapply Forall_lookup_1 in Hgood. }
  assert (∀ i, (length good ≤ i < length (good ++ stale))%nat → p i = false) as Hps.
  { intros i [Hge Hlt]. unfold p. rewrite lookup_app_r by done. rewrite length_app in Hlt.
    destruct (lookup_lt_is_Some_2 stale (i - length good)) as [r Hr]; [lia|]. rewrite Hr.
    apply bool_decide_eq_false. by eapply Forall_lookup_1 in Hstale. }
  destruct stale as [|z zs] eqn:Ez; cbn [fork_block head fmap option_fmap option_map].
  { exists None, (flush c). split; [|done]. eapply answers_step; [apply answers_lift|].
    destruct (Nat.eqb_spec (length (good ++ [])) 0) as [|Hne]; [apply answers_ret|].
    eapply answers_step; [apply Hstill; lia|]. rewrite Hpg by (rewrite app_nil_r in *; lia). apply answers_ret. }
  rewrite <-Ez in *. assert (stale !! 0%nat = Some z) as Hz by by rewrite Ez.
  assert (length (good ++ stale) = S (length good + length zs)) as Hlen by (rewrite length_app, Ez; cbn; lia).
  destruct (Search_first (λ i, ok ← Ok (p i); mret (negb ok) : Res cacheError bool) (λ i, negb (p i))
    (S (length good + length zs))) as (k & HS & Hk & Hklo & Hkhi); [done|..].
  { intros i j Hij Hi. apply negb_true_iff in Hi. apply negb_true_iff, Hps.
    destruct (decide (i < length good)%nat) as [Hlt|]; [rewrite (Hpg i Hlt) in Hi; done|]. lia. }
  assert (k = length good) as ->.
  { destruct (Nat.lt_trichotomy k (length good)) as [?|[->|?]]; [|done|].
    - specialize (Hkhi k ltac:(lia)). rewrite Hpg in Hkhi by lia. done.
    - specialize (Hklo (length good) ltac:(lia)). rewrite Hps in Hklo by lia. done. }
  destruct (Hlk (length good) z) as [Hlz _]; [by rewrite lookup_app_r, Nat.sub_diag by lia|].
  destruct (Truncate_holds opts l (flush c) (block z) Hcf) as (c' & Ht & [Hc' _] & _).
  eexists _, c'. split; [|split; [by rewrite (h_start _ _ _ Hc'), (h_start _ _ _ Hc)|by split; [|exact Hc']]].
  eapply answers_step; [apply answers_lift|]. rewrite Hlen. cbn [Nat.eqb].
  eapply answers_step; [apply Hstill; lia|]. rewrite Hps by lia.
  eapply answers_step; [eapply answers_eq; [apply answers_SearchS|exact HS]|].
  { intros i Hi. apply answers_bind; [apply Hstill; lia|]. intros; apply answers_ret. }
  rewrite (recordAt_stored opts l _ _ Hs), Hlz. eapply answers_step; [apply answers_lift|].
  rewrite Ht. eapply answers_step; [apply answers_lift|apply answers_ret].
Qed.

(** What [verify] leaves of the held records. *)
Definition surviving (l : list CacheRecord) : list CacheRecord :=
  match fork_block stale with None => l | Some b => filter (λ r, block r < b) l end.
Definition reorged (l : list CacheRecord) : option Reorg :=
  (λ b, mkReorg b (length (filter (λ r, b ≤ block r) l))) <$> fork_block stale.
Definition fetched (l : list CacheRecord) : list CacheRecord :=
  filter (λ r, resume (o_Start opts) (surviving l) ≤ block r ≤ tip) hist.

Lemma Last_holds l c : holds opts l c → Last c = last l.
Proof using Type.
  intros [_ Hn Hlast _ _ _]. unfold Last. rewrite Hn, Hlast. destruct l as [|r l _] using rev_ind; [done|].
  rewrite last_snoc, length_app, Nat.add_comm. done.
Qed.

Lemma Sync_spec l c b chunk :
  b_Number b = tip → b_Hash b ≠ zeroHash → is_u64 chunk →
  holds opts l c → filter (λ r, block r < tip + 1) l = good ++ stale →
  ∃ c', (∀ w, ∃ w', Sync src b chunk c w = (mkSynced (reorged l) (Z.of_nat (length (fetched l))), c', Ok (), w')) ∧
        holds opts (surviving l ++ fetched l) c'.
Proof using All.
  intros Hb Hh Hch Hc Hlow. unfold Sync. rewrite bool_decide_eq_false_2 by done. rewrite Hb.
  set (chunk' := if chunk =? 0 then defaultChunk else chunk).
  assert (0 < chunk') as Hch'.
  { unfold chunk', defaultChunk, is_u64 in *. destruct (Z.eqb_spec chunk 0); lia. }
  destruct (verify_spec l c Hc Hlow) as (reorg & c1 & Hv & Hst & Hm).
  assert (reorg = reorged l ∧ holds opts (surviving l) c1) as [-> Hc1].
  { unfold reorged, surviving. by destruct (fork_block stale). }
  clear Hm. unfold fetched. set (l' := surviving l) in *.
  pose proof Hc1 as [_ _ _ Hs1 Hok1 _]. unfold resume.
  pose proof (Last_holds l' c1 Hc1) as HL. destruct (last l') as [r|] eqn:E.
  - assert (is_u64 (block r)) as Hu.
    { apply last_Some_elem_of in E. rewrite Forall_forall in Hok1. apply (Hok1 r E). }
    destruct (Z.leb_spec tip (block r)) as [Hge|Hlt].
    { exists c1. rewrite filter_none by (apply Forall_forall; lia). rewrite app_nil_r. split; [|done].
      intros w. destruct (always_run _ _ w Hv) as [w1 ->]. exists w1. by rewrite HL, (proj2 (Z.leb_le _ _) Hge). }
    destruct (syncFrom_spec chunk' Hch' (Z.to_nat (tip - (block r + 1) + 1)) (block r + 1) l' c1 (mkSynced (reorged l) 0))
      as (c' & Hs & Hc'); [unfold is_u64 in *; lia|unfold last_block; rewrite E; lia|done|done|].
    exists c'. split; [|done]. intros w. destruct (always_run _ _ w Hv) as [w1 ->].
    rewrite HL, (proj2 (Z.leb_gt _ _) Hlt), (u64_id (block r + 1)) by (unfold is_u64 in *; lia). apply Hs.
  - apply last_None in E. rewrite E in *.
    destruct (syncFrom_spec chunk' Hch' (Z.to_nat (tip - o_Start opts + 1)) (o_Start opts) [] c1 (mkSynced (reorged l) 0))
      as (c' & Hs & Hc'); [destruct Hopts as [_ [? _]]; lia|done..|].
    exists c'. split; [|done]. intros w. destruct (always_run _ _ w Hv) as [w1 ->]. rewrite HL, Hs1. apply Hs.
Qed.
End sync.

(** Sync from whole blocks and taken-back records ends with the chain's history. *)
Lemma Sync_whole {N} opts (src : Source N) hashAt hist m stale l c tip chunk :
  opts_ok opts → Forall record_ok hist → runs (o_Start opts) hist →
  Forall (on_chain hashAt) hist → serves src hashAt hist (b_Number tip) →
  0 ≤ b_Number tip < 2 ^ 64 - 1 → b_Hash tip ≠ zeroHash → is_u64 chunk →
  m ≤ b_Number tip → l = filter (λ r, block r ≤ m) hist ++ stale →
  Forall (λ r, block r ≤ b_Number tip ∧ ¬ on_chain hashAt r) stale → holds opts l c →
  ∃ n c', (∀ w, ∃ w', Sync src tip chunk c w = (mkSynced (reorged stale l) n, c', Ok (), w')) ∧
          holds opts (filter (λ r, block r ≤ b_Number tip) hist) c'.
Proof.
  intros Ho Hok Hr Hchain Hsv Htip Hh Hch Hm -> Hst Hc. set (l := filter (λ r, block r ≤ m) hist) in *.
  destruct (Sync_spec opts src hashAt hist (b_Number tip) Hsv Hok Hr Ho) with (good := l) (stale := stale)
    (l := l ++ stale) (c := c) (b := tip) (chunk := chunk) as (c' & HS & Hc'); try done.
  { lia. }
  { by apply Forall_filter_keep. }
  { eapply Forall_impl; [exact Hst|]. by intros ? [_ ?]. }
  { apply filter_all, Forall_app. split.
    - apply Forall_forall. intros r [? _]%list_elem_of_filter. lia.
    - eapply Forall_impl; [exact Hst|]. intros ? [? _]. cbn. lia. }
  eexists _, c'. split; [exact HS|].
  enough (surviving stale (l ++ stale) ++ fetched opts hist (b_Number tip) stale (l ++ stale) =
    filter (λ r, block r ≤ b_Number tip) hist) as <- by done. clear HS Hc'. unfold fetched.
  apply h_runs in Hc. apply runs_app in Hc as [_ Hrs].
  assert (∃ m', m' ≤ b_Number tip ∧ surviving stale (l ++ stale) = filter (λ r, block r ≤ m') hist) as (m' & ? & ->);
    [|by apply resume_complete with m'].
  unfold surviving, fork_block. destruct stale as [|z zs]; cbn [head fmap option_fmap option_map].
  { exists m. by rewrite app_nil_r. }
  exists (m `min` (block z - 1)). split; [lia|].
  rewrite filter_app, (filter_none _ (z :: zs)), app_nil_r.
  - unfold l. rewrite list_filter_filter. apply list_filter_iff. lia.
  - destruct Hrs as [_ Hrs]. constructor; [lia|]. apply Forall_forall. intros x Hx.
    pose proof (runs_floor _ _ _ Hrs Hx). lia.
Qed.
