(* ===== verification/CacheCase.v ===== *)
(** * A history, a source that serves it and a Cache of it

    Three transfers in two blocks, for the witnesses of the claims on the Cache. *)
From S2P Require Import Prelude Sorts Bytes StateMonad Text Merkle MerkleEncode Twab Chain Crc Cache CacheSpec CacheOps CacheSync.

(** The transfer a record is of. *)
Definition transfer_of (r : CacheRecord) : ChainTransfer :=
  mkChainTransfer (mkSite (rec_BlockNumber r) (rec_BlockHash r) 0 (rec_Timestamp r))
    (rec_From r) (rec_To r) (rec_Value r).

Lemma FromTransfer_of r : FromTransfer (transfer_of r) = r.
Proof. by destruct r. Qed.

(** A source that answers from a history, and counts what it is asked. *)
Definition source_of (hashAt : Z → Hash) (hist : list CacheRecord) : Source nat := mkSource
  (λ from to asked, (Ok (transfer_of <$> filter (λ r, from ≤ block r ≤ to) hist), S asked))
  (λ n asked, (Ok (mkBlock n (hashAt n) zeroHash 0), S asked)).

Lemma source_of_serves hashAt hist tip : serves (source_of hashAt hist) hashAt hist tip.
Proof.
  split.
  - intros from to _ _. eexists. split; [intros w _; by eexists|]. rewrite <-list_fmap_compose.
    rewrite (list_fmap_ext _ id); [by rewrite list_fmap_id|]. intros ? r _. apply FromTransfer_of.
  - intros n _. eexists. split; [intros w _; by eexists|done].
Qed.

Definition case_hash (n : Z) : Hash := copy_array 32 (be_encode 32 (n + 1)).
Definition case_record (n from to v : Z) : CacheRecord :=
  mkCacheRecord n (case_hash n) (1000 + n) (address_of from) (address_of to) (Some v).
Definition case_opts : Options := mkOptions 4663 (address_of 7) 5 false.
Definition case_hist : list CacheRecord :=
  [case_record 5 0 1 100; case_record 6 1 2 40; case_record 6 1 3 25].
(** A record of a block the chain has taken back. *)
Definition case_stale : CacheRecord :=
  mkCacheRecord 6 zeroHash 1006 (address_of 2) (address_of 3) (Some 1).
Definition case_source : Source nat := source_of case_hash case_hist.
Definition case_tip : Block := mkBlock 8 (case_hash 8) zeroHash 1008.

(** The Cache an empty directory opens as, with these records appended. *)
Definition case_cache (l : list CacheRecord) : Cache :=
  mkCache (headerBytes case_opts) (encodings l) (length l) (default zeroRecord (last l)) 5 (Z.of_nat (length l)) None.

Lemma case_opts_ok : opts_ok case_opts.
Proof. by split. Qed.

Lemma case_hist_ok : Forall record_ok case_hist.
Proof. repeat constructor; cbn; try done; eexists; done. Qed.

Lemma case_hist_runs : runs 5 case_hist.
Proof. repeat split; done. Qed.

Lemma case_hist_on_chain : Forall (on_chain case_hash) case_hist.
Proof. by repeat constructor. Qed.

Lemma case_cache_holds l : Forall record_ok l → runs 5 l → holds case_opts l (case_cache l).
Proof. by split. Qed.

Lemma case_hash_nonzero n : 0 ≤ n < 2 ^ 64 → case_hash n ≠ zeroHash.
Proof.
  intros Hn H. apply (f_equal (λ h, be_decode (vec_to_list h))) in H. unfold case_hash in H.
  rewrite copy_array_to_list, be_decode_encode_u256 in H by first [lia|apply length_be_encode].
  change (n + 1 = 0) in H. lia.
Qed.
