(* ===== verification/CacheTheorems.v ===== *)
(** * What the cache package promises

    The claims on the record codec, the operations on the list of records, Open on
    any bytes, and Sync, each with the case it is applied to. *)
From S2P Require Import Prelude Sorts Bytes StateMonad Text Merkle MerkleEncode Twab Chain Crc Cache CacheSpec CacheOps CacheSync CacheCase.

(** ** Facts the claims share *)

Lemma Close_bytes opts l c : holds opts l c → Close c = headerBytes opts ++ encodings l.
Proof. intros Hc. by apply (stored_file opts l), checkpoint_stored. Qed.

Lemma checkHeader_no_fault opts c x : checkHeader opts c ≠ Fault x.
Proof. unfold checkHeader. by repeat (case_match; [done|]). Qed.

Lemma Open_refused file opts :
  o_Fresh opts = false → (headerSize ≤ length file)%nat → take headerSize file ≠ headerBytes opts →
  ∃ e, Open_ file opts = Err e.
Proof.
  intros Hf Hl Hne. unfold Open_, load. rewrite Hf. cbn [k_file].
  destruct (Nat.eqb_spec (length file) 0) as [H0|_]; [rewrite H0 in Hl; by apply Nat.le_0_r in Hl|].
  destruct (Nat.ltb_spec (length file) headerSize) as [|_]; [lia|].
  set (c := mkCache _ _ _ _ _ _ _). destruct (checkHeader opts c) as [[]|e|x] eqn:E; cbn [mbind Res_bind].
  - destruct Hne. by apply (checkHeader_exact opts c).
  - by exists e.
  - by apply checkHeader_no_fault in E.
Qed.

Lemma fresh_stored opts rep : stored opts [] (mkCache (headerBytes opts) [] 0 zeroRecord (o_Start opts) 0 rep).
Proof. split; [|done]. by split; cbn; rewrite ?app_nil_r. Qed.

Lemma scanned_nil opts l : Forall record_ok l → runs (o_Start opts) l → scanned (o_Start opts) (encodings l) l [].
Proof.
  intros. split; [by rewrite app_nil_r|]. split; [done|]. split; [done|]. intros r k _ He.
  apply (f_equal length) in He. by rewrite length_app, length_encoding in He.
Qed.

Lemma take_middle {A} (p s : list A) b n :
  (length p < n)%nat → take n (p ++ b :: s) = p ++ b :: take (n - S (length p)) s.
Proof. intros H. rewrite take_app_ge by lia. f_equal. by replace (n - length p)%nat with (S (n - S (length p))) by lia. Qed.
Lemma drop_middle {A} (p s : list A) b n :
  (length p < n)%nat → drop n (p ++ b :: s) = drop (n - S (length p)) s.
Proof. intros H. rewrite drop_app_ge by lia. by replace (n - length p)%nat with (S (n - S (length p))) by lia. Qed.

(** A buffer that differs from an encoding in one byte does not decode. *)
Lemma decode_damaged r p b b' s :
  record_ok r → encoding r = p ++ b :: s → b ≠ b' → decodeRecord (p ++ b' :: s) = None.
Proof.
  intros Hr He Hb. assert (length (p ++ b' :: s) = stride) as Hl.
  { by rewrite <-(length_encoding r), He, !length_app. }
  destruct (decodeRecord (p ++ b' :: s)) as [r'|] eqn:Hd; [exfalso|done].
  apply decodeRecord_Some in Hd as [Hr' He']; [|done]. revert He He'. unfold encoding.
  set (q := payload r _). set (q' := payload r' _). intros He He'.
  assert (length q = length q') as Hq by (unfold q, q'; by rewrite !length_payload).
  assert (q = take (length q) (p ++ b :: s)) as Hq1 by by rewrite <-He, take_app_length.
  assert (q' = take (length q) (p ++ b' :: s)) as Hq2 by by rewrite He', Hq, take_app_length.
  destruct (decide (length p < length q)%nat) as [Hlt|Hge].
  - rewrite take_middle in Hq1, Hq2 by done.
    assert (drop (length q) (p ++ b :: s) = drop (length q) (p ++ b' :: s)) as Htail
      by by rewrite !drop_middle.
    rewrite <-He, He', Hq in Htail. rewrite <-Hq in Htail at 1. rewrite !drop_app_length in Htail.
    apply (f_equal be_decode) in Htail. rewrite !be_decode_encode_u32 in Htail by apply Checksum_u32.
    rewrite Hq1, Hq2 in Htail. by apply Checksum_one_byte in Htail.
  - assert (q = q') as Hqq by (rewrite Hq1, Hq2, !take_app_le by lia; done).
    rewrite <-Hqq, He in He'. apply app_inv_head in He'. by injection He'.
Qed.

Lemma kept_prefix floor l : runs floor l → kept l `prefix_of` l.
Proof. intros Hr. exists (filter (λ r, last_block 0 l ≤ block r) l). by apply (runs_split floor). Qed.

(** The piece of a concatenation that an index falls in. *)
Lemma split_piece {A} (a m z pre post : list A) b :
  a ++ m ++ z = pre ++ b :: post → (length a ≤ length pre < length a + length m)%nat →
  ∃ p s, pre = a ++ p ∧ m = p ++ b :: s ∧ post = s ++ z.
Proof.
  intros He Hl. apply app_eq_inv in He as [(k & -> & He)|(k & -> & He)].
  - rewrite length_app in Hl. assert (k = []) as -> by (apply nil_length_inv; lia).
    destruct m as [|x m]; [cbn in Hl; lia|]. injection He as -> ->.
    exists [], m. by rewrite !app_nil_r.
  - rewrite length_app in Hl. apply app_eq_inv in He as [(s & -> & He)|(s & -> & He)].
    + destruct s as [|x s]; [rewrite app_nil_r in Hl; lia|]. injection He as -> ->. by exists k, s.
    + rewrite !length_app in Hl. lia.
Qed.

Lemma stops_damaged floor r p b b' s z :
  record_ok r → encoding r = p ++ b :: s → b ≠ b' → stops floor ((p ++ b' :: s) ++ z).
Proof.
  intros Hr He Hb r' k Hr' Hk. pose proof (decode_damaged r p b b' s Hr He Hb) as Hd.
  assert (length (p ++ b' :: s) = length (encoding r')) as Hl.
  { by rewrite length_encoding, <-(length_encoding r), He, !length_app. }
  apply app_inj_1 in Hk as [Hk _]; [|done]. by rewrite Hk, decode_encoding in Hd.
Qed.

(** ** The claims *)

(** A record is written exactly when its value is a uint256, as 124 bytes that read
    back as that record, and the only bytes that read as a record are the ones it is
    written as. *)
Theorem Record_codec r e :
  record_typed r →
  (encodeRecord r = Ok e ↔ length e = stride ∧ decodeRecord e = Some r) ∧
  (is_Ok (encodeRecord r) ↔ ∃ v, rec_Value r = Some v ∧ 0 ≤ v < 2 ^ 256).
Proof.
  intros Ht. split.
  - rewrite encodeRecord_Ok by done. split.
    + intros [Hr ->]. by rewrite length_encoding, decode_encoding.
    + intros [Hl Hd]. by apply decodeRecord_Some.
  - split.
    + intros [x Hx]. by apply encodeRecord_Ok in Hx as [[_ ?] _].
    + intros Hv. exists (encoding r). by apply encodeRecord_Ok.
Qed.

(** C20: The Cache is the list of its records: Len and Last read it, Append extends it
    exactly when the batch is valid and runs forward, Each folds over it in order, and
    Truncate keeps the records below a block and counts the others. *)
Theorem Cache_refines_list opts l c :
  holds opts l c →
  CacheLen c = length l ∧ Last c = last l ∧
  (∀ k, Forall record_typed k →
     (Forall record_ok k ∧ runs (last_block (o_Start opts) l) k →
        ∃ c', Append k c = Ok c' ∧ holds opts (l ++ k) c') ∧
     (¬ (Forall record_ok k ∧ runs (last_block (o_Start opts) l) k) → ∃ e, Append k c = Err e)) ∧
  (∀ (S : Type) (fn : S → CacheRecord → Res cacheError S) s,
     ∃ c', holds opts l c' ∧ Each fn s c = (s' ← foldM fn l s; mret (s', c'))) ∧
  (∀ b, ∃ c', Truncate b c = Ok (length (filter (λ r, b ≤ block r) l), c') ∧
              holds opts (filter (λ r, block r < b) l) c').
Proof.
  intros Hc. split_and!.
  - apply (h_count _ _ _ Hc).
  - unfold Last. rewrite (h_count _ _ _ Hc), (h_last _ _ _ Hc). destruct l as [|r l]; [done|].
    cbn [length Nat.ltb Nat.leb]. destruct (last (r :: l)) eqn:E; [done|]. by apply last_None in E.
  - intros k Hk. split; [|by apply (Append_Err opts)].
    intros [? ?]. destruct (Append_holds opts l k c) as (c' & ? & ? & _); [done..|]. by exists c'.
  - intros S fn s. destruct (Each_holds opts fn l c s Hc) as [[? _] ?]. by exists (flush c).
  - intros b. destruct (Truncate_holds opts l c b Hc) as (c' & ? & [? _] & _). by exists c'.
Qed.

(** What is closed opens again with the same records and nothing to repair. *)
Theorem Close_reopens opts l c :
  opts_ok opts → o_Fresh opts = false → holds opts l c →
  ∃ c', Open_ (Close c) opts = Ok c' ∧ holds opts l c' ∧ k_repaired c' = None.
Proof.
  intros Ho Hf Hc. rewrite (Close_bytes opts l c Hc).
  destruct (Open_scanned opts Ho (encodings l) l [] Hf) as (c' & ? & Hnil & _).
  { by apply scanned_nil; [apply (h_ok _ _ _ Hc)|apply (h_runs _ _ _ Hc)]. }
  destruct (Hnil eq_refl) as [[? _] ?]. by exists c'.
Qed.

(** C19: Whatever bytes the file holds, Open refuses another history's header and
    otherwise opens on records that all verify: all of them if they reach the end of
    the file, and else the whole blocks before the first that does not, reported as a
    Repair. A file shorter than a header opens empty. *)
Theorem Open_recovers opts file :
  opts_ok opts → o_Fresh opts = false →
  ((length file < headerSize)%nat →
     ∃ c, Open_ file opts = Ok c ∧ holds opts [] c ∧ (k_repaired c = None ↔ file = [])) ∧
  ((headerSize ≤ length file)%nat → take headerSize file ≠ headerBytes opts → ∃ e, Open_ file opts = Err e) ∧
  (∀ rest, file = headerBytes opts ++ rest →
     ∃ l tail c, scanned (o_Start opts) rest l tail ∧ Open_ file opts = Ok c ∧
       (tail = [] → holds opts l c ∧ k_repaired c = None) ∧
       (tail ≠ [] → holds opts (kept l) c ∧ ∃ reason,
          k_repaired c = Some (mkRepair reason (length l) (length (kept l)) (last_block 0 (kept l))
            (length rest / stride - length (kept l))))).
Proof.
  intros Ho Hf. split_and!.
  - intros Hl. unfold Open_, load. rewrite Hf. cbn [k_file].
    destruct (Nat.eqb_spec (length file) 0) as [H0|H0].
    + apply nil_length_inv in H0 as ->. eexists. split; [done|]. split; [apply fresh_stored|done].
    + rewrite (proj2 (Nat.ltb_lt _ _) Hl). eexists. split; [done|]. split; [apply fresh_stored|].
      split; [done|]. by intros ->.
  - by apply Open_refused.
  - intros rest ->. destruct (scanned_exists (o_Start opts) rest) as (l & tail & Hs).
    destruct (Open_scanned opts Ho rest l tail Hf Hs) as (c & ? & Hnil & Hcons).
    exists l, tail, c. split; [done|]. split; [done|]. split.
    + intros Ht. by destruct (Hnil Ht) as [[? _] ?].
    + intros Ht. by destruct (Hcons Ht) as [[? _] ?].
Qed.

(** C26: Change any one byte of a closed Cache: in the header, and it does not open; in
    a record, and it opens repaired at that record, on whole blocks before it. *)
Theorem One_byte_damage opts l c pre b b' post :
  opts_ok opts → o_Fresh opts = false → holds opts l c → Close c = pre ++ b :: post → b ≠ b' →
  ((length pre < headerSize)%nat → ∃ e, Open_ (pre ++ b' :: post) opts = Err e) ∧
  (∀ l1 r l2, l = l1 ++ r :: l2 → (offsetOf (length l1) ≤ length pre < offsetOf (S (length l1)))%nat →
     ∃ c' rep, Open_ (pre ++ b' :: post) opts = Ok c' ∧ holds opts (kept l1) c' ∧
       k_repaired c' = Some rep ∧ rep_At rep = length l1).
Proof.
  intros Ho Hf Hc Hclose Hb. rewrite (Close_bytes opts l c Hc) in Hclose. split.
  - intros Hlt. apply (Open_refused _ _ Hf).
    + pose proof (f_equal length Hclose) as Hl. rewrite !length_app, length_headerBytes in *. cbn [length] in *. lia.
    + pose proof (f_equal (take headerSize) Hclose) as Hh. rewrite take_app_length' in Hh by by rewrite length_headerBytes.
      rewrite Hh, !take_middle by done. by intros [= ?%eq_sym]%app_inv_head.
  - intros l1 r l2 -> Hpos. rewrite encodings_app, encodings_cons, !app_assoc, <-(app_assoc (_ ++ _)) in Hclose.
    pose proof (h_ok _ _ _ Hc) as Hok. pose proof (h_runs _ _ _ Hc) as Hr.
    apply Forall_app in Hok as [Hok1 [Hokr _]%Forall_cons]. apply runs_app in Hr as [Hr1 _].
    apply split_piece in Hclose as (p & s & -> & He & ->).
    2:{ rewrite length_app, length_headerBytes, length_encodings, length_encoding.
        unfold offsetOf in Hpos. rewrite Nat.mul_succ_l in Hpos. lia. }
    replace (((headerBytes opts ++ encodings l1) ++ p) ++ b' :: s ++ encodings l2)
      with (headerBytes opts ++ encodings l1 ++ (p ++ b' :: s) ++ encodings l2) by by rewrite <-!app_assoc.
    destruct (Open_scanned opts Ho (encodings l1 ++ (p ++ b' :: s) ++ encodings l2) l1
      ((p ++ b' :: s) ++ encodings l2) Hf) as (c' & ? & _ & Hcons).
    { split; [done|]. split; [done|]. split; [done|]. by apply (stops_damaged _ r p b). }
    destruct Hcons as [[? _] [reason ?]]; [by destruct p|].
    exists c'. eexists. done.
Qed.

(** C18: A Cache that holds the chain's history through some block, and possibly records
    the chain has since taken back, holds after Sync the chain's whole history through
    the tip, in whatever chunks; the Reorg it reports is the first block taken back. *)
Theorem Sync_completes {N} opts (src : Source N) hashAt hist m stale l c tip chunk :
  opts_ok opts → Forall record_ok hist → runs (o_Start opts) hist →
  Forall (on_chain hashAt) hist → serves src hashAt hist (b_Number tip) →
  0 ≤ b_Number tip < 2 ^ 64 - 1 → b_Hash tip ≠ zeroHash → is_u64 chunk →
  m ≤ b_Number tip → l = filter (λ r, block r ≤ m) hist ++ stale →
  Forall (λ r, block r ≤ b_Number tip ∧ ¬ on_chain hashAt r) stale → holds opts l c →
  ∃ n c', (∀ w, ∃ w', Sync src tip chunk c w = (mkSynced (reorged stale l) n, c', Ok (), w')) ∧
          holds opts (filter (λ r, block r ≤ b_Number tip) hist) c'.
Proof. apply Sync_whole. Qed.

(** C30: a file cut between two records of one block opens with nothing to repair, and
    Sync then completes without the records of that block after the cut: the Cache ends
    with fewer records than the chain has, and no Reorg, Repair or error says so. *)
Theorem Torn_block_lost {N} opts (src : Source N) hashAt hist i x y tip chunk :
  opts_ok opts → o_Fresh opts = false → Forall record_ok hist → runs (o_Start opts) hist →
  Forall (on_chain hashAt) hist → serves src hashAt hist (b_Number tip) →
  0 ≤ b_Number tip < 2 ^ 64 - 1 → b_Hash tip ≠ zeroHash → is_u64 chunk →
  hist !! i = Some x → hist !! S i = Some y → block x = block y → block y ≤ b_Number tip →
  ∃ c n c' l', Open_ (take (offsetOf (S i)) (headerBytes opts ++ encodings hist)) opts = Ok c ∧
    k_repaired c = None ∧ (∀ w, ∃ w', Sync src tip chunk c w = (mkSynced None n, c', Ok (), w')) ∧ holds opts l' c' ∧
    let whole := filter (λ r, block r ≤ b_Number tip) hist in (length l' < length whole)%nat.
Proof.
  intros Ho Hf Hok Hr Hchain Hsv Htip Hh Hch Hx Hy Hxy Hyt. set (l := take (S i) hist).
  pose proof (take_drop (S i) hist) as Hsplit. fold l in Hsplit.
  assert (last l = Some x) as Hlast.
  { unfold l. rewrite last_lookup, length_take_le by (apply lookup_lt_Some in Hy; lia).
    by rewrite lookup_take_lt by lia. }
  assert (runs (o_Start opts) l ∧ Forall record_ok l ∧ Forall (on_chain hashAt) l) as (Hrl & Hokl & Hcl).
  { rewrite <-Hsplit in Hr, Hok, Hchain. apply runs_app in Hr as [? _].
    apply Forall_app in Hok as [? _]. by apply Forall_app in Hchain as [? _]. }
  assert (∀ r, r ∈ l → block r ≤ block y) as Htop.
  { intros r Hin. pose proof (runs_top _ _ _ Hrl Hin) as Ht. unfold last_block in Ht. rewrite Hlast in Ht. lia. }
  unfold offsetOf. rewrite take_app_add' by by rewrite length_headerBytes. rewrite encodings_take. fold l.
  destruct (Open_scanned opts Ho (encodings l) l [] Hf) as (c & Hopen & Hnil & _); [by apply scanned_nil|].
  destruct (Hnil eq_refl) as [[Hc _] Hrep].
  destruct (Sync_spec opts src hashAt hist (b_Number tip) Hsv Hok Hr Ho) with (good := l) (stale := @nil CacheRecord)
    (l := l) (c := c) (b := tip) (chunk := chunk) as (c' & HS & Hc'); try done; [lia| |].
  { rewrite app_nil_r. apply filter_all, Forall_forall. intros r Hin. specialize (Htop r Hin). lia. }
  exists c. eexists _, c', _. split; [done|]. split; [done|]. split; [exact HS|]. split; [exact Hc'|].
  cbn zeta. unfold fetched, resume, surviving, fork_block. cbn [head fmap option_fmap option_map]. rewrite Hlast.
  assert (drop (S i) hist = y :: drop (S (S i)) hist) as Hd by by apply drop_S.
  rewrite <-Hsplit, Hd, !filter_app, !filter_cons, (filter_none _ l) by (apply Forall_forall; intros r Hin; specialize (Htop r Hin); lia).
  rewrite (filter_all _ l) by (apply Forall_forall; intros r Hin; specialize (Htop r Hin); lia).
  destruct (decide (block x + 1 ≤ block y ≤ b_Number tip)), (decide (block y ≤ b_Number tip)); try lia.
  rewrite !length_app. cbn [app length]. rewrite <-list_filter_filter.
  pose proof (length_filter (λ r, block x + 1 ≤ block r) (filter (λ r, block r ≤ b_Number tip) (drop (S (S i)) hist))).
  lia.
Qed.

(** ** The claims on the case *)

Lemma Record_codec_witness :
  let r := case_record 5 0 1 100 in
  encodeRecord r = Ok (encoding r) ↔ length (encoding r) = stride ∧ decodeRecord (encoding r) = Some r.
Proof. apply Record_codec. by split. Defined.

Lemma Cache_refines_list_witness : Last (case_cache case_hist) = Some (case_record 6 1 3 25).
Proof.
  destruct (Cache_refines_list case_opts case_hist (case_cache case_hist)) as (_ & Hlast & _).
  - apply case_cache_holds; [apply case_hist_ok|apply case_hist_runs].
  - exact Hlast.
Defined.

Lemma Close_reopens_witness :
  ∃ c', Open_ (Close (case_cache case_hist)) case_opts = Ok c' ∧ holds case_opts case_hist c' ∧ k_repaired c' = None.
Proof.
  apply (Close_reopens case_opts case_hist); [apply case_opts_ok|done|].
  apply case_cache_holds; [apply case_hist_ok|apply case_hist_runs].
Defined.

Lemma Open_recovers_witness :
  ∃ c, Open_ [x00] case_opts = Ok c ∧ holds case_opts [] c ∧ (k_repaired c = None ↔ [x00] = []).
Proof. apply (Open_recovers case_opts [x00] case_opts_ok eq_refl). unfold headerSize. cbn. lia. Defined.

Lemma One_byte_damage_witness :
  ∃ pre b post, Close (case_cache case_hist) = pre ++ b :: post ∧
    ∃ c' rep, Open_ (pre ++ x01 :: post) case_opts = Ok c' ∧ holds case_opts (kept (take 1 case_hist)) c' ∧
       k_repaired c' = Some rep ∧ rep_At rep = 1%nat.
Proof.
  assert (holds case_opts case_hist (case_cache case_hist)) as Hc
    by (apply case_cache_holds; [apply case_hist_ok|apply case_hist_runs]).
  destruct (encoding (case_record 6 1 2 40)) as [|b s] eqn:Ep.
  { apply (f_equal length) in Ep. by rewrite length_encoding in Ep. }
  assert (b = x00) as -> by by apply (f_equal head) in Ep; injection Ep.
  exists (headerBytes case_opts ++ encoding (case_record 5 0 1 100)), x00, (s ++ encoding (case_record 6 1 3 25)).
  assert (Close (case_cache case_hist) = (headerBytes case_opts ++ encoding (case_record 5 0 1 100)) ++
    x00 :: s ++ encoding (case_record 6 1 3 25)) as Hclose.
  { rewrite (Close_bytes _ _ _ Hc). unfold case_hist. rewrite !encodings_cons. rewrite Ep.
    cbn [encodings mbind list_bind]. by rewrite app_nil_r, <-!app_assoc. }
  split; [exact Hclose|].
  apply (One_byte_damage case_opts case_hist (case_cache case_hist) _ x00 x01 _ case_opts_ok eq_refl Hc Hclose ltac:(done))
    with (l1 := take 1 case_hist) (r := case_record 6 1 2 40) (l2 := drop 2 case_hist); [done|].
  rewrite length_app, length_headerBytes, length_encoding. unfold offsetOf. cbn [length take case_hist]. unfold stride, payloadSize. lia.
Defined.

Lemma Sync_completes_witness :
  ∃ n c', (∀ w, ∃ w', Sync case_source case_tip 0 (case_cache (take 1 case_hist ++ [case_stale])) w =
      (mkSynced (Some (mkReorg 6 1)) n, c', Ok (), w')) ∧
    holds case_opts (filter (λ r, block r ≤ b_Number case_tip) case_hist) c'.
Proof.
  apply (Sync_completes case_opts case_source case_hash case_hist 5 [case_stale] (take 1 case_hist ++ [case_stale])).
  - apply case_opts_ok.
  - apply case_hist_ok.
  - apply case_hist_runs.
  - apply case_hist_on_chain.
  - apply source_of_serves.
  - done.
  - by apply case_hash_nonzero.
  - done.
  - done.
  - done.
  - apply Forall_singleton. split; [done|]. apply (case_hash_nonzero 6). done.
  - apply case_cache_holds; [|by repeat split].
    apply Forall_app; split; [apply Forall_take, case_hist_ok|]. apply Forall_singleton. split; [done|]. by eexists.
Defined.

Lemma Torn_block_lost_witness :
  ∃ c n c' l', Open_ (take (offsetOf 2) (headerBytes case_opts ++ encodings case_hist)) case_opts = Ok c ∧
    k_repaired c = None ∧ (∀ w, ∃ w', Sync case_source case_tip 0 c w = (mkSynced None n, c', Ok (), w')) ∧ holds case_opts l' c' ∧
    let whole := filter (λ r, block r ≤ b_Number case_tip) case_hist in (length l' < length whole)%nat.
Proof.
  apply (Torn_block_lost case_opts case_source case_hash case_hist 1 (case_record 6 1 2 40) (case_record 6 1 3 25)).
  - apply case_opts_ok.
  - done.
  - apply case_hist_ok.
  - apply case_hist_runs.
  - apply case_hist_on_chain.
  - apply source_of_serves.
  - done.
  - by apply case_hash_nonzero.
  - done.
  - done.
  - done.
  - done.
  - done.
Defined.
