(* ===== verification/Lock.v ===== *)
(** * cache: several runs at one file

    [lock_unix.go], [lock_other.go] and the order in which [Open] opens, locks and loads.
    Every opening of the file has a number of its own, as an open file description does:
    an exclusive advisory lock is held by one of them, refused to any other without
    waiting, and released when it is closed. A step is one of [Open]'s three parts or one
    operation of the open Cache; steps of different openings interleave in any order.
    A process may die while it holds the file: the lock goes, and of what it had written
    or held back any prefix may be on disk. Directories and failed system calls are not
    modelled. *)
From S2P Require Import Prelude Sorts Bytes Text Merkle Twab Chain Crc Cache.

Open Scope list_scope.
Open Scope Z_scope.

(** The file, and which opening holds its lock. *)
Record Disk := mkDisk { dk_file : list byte; dk_lock : option nat }.

(** Which of the two files of the package is built. *)
Inductive platform := Unix | NotUnix.

(** What an Open that is refused says. *)
Inductive openError := errInUse | errLoad (e : cacheError).

(** [lock]: [Flock] with [LOCK_EX|LOCK_NB], or nothing. *)
Definition lock (pf : platform) (p : nat) (d : Disk) : Res openError Disk :=
  match pf with
  | NotUnix => Ok d
  | Unix =>
      match dk_lock d with
      | Some _ => Err errInUse
      | None => Ok (mkDisk (dk_file d) (Some p))
      end
  end.

(** [os.OpenFile] with the flags of [Open]: [O_TRUNC] takes effect here. *)
Definition openFile (opts : Options) (d : Disk) : Disk :=
  mkDisk (if o_Fresh opts then [] else dk_file d) (dk_lock d).

(** [file.Close]. *)
Definition closeFile (p : nat) (d : Disk) : Disk :=
  mkDisk (dk_file d) (if decide (dk_lock d = Some p) then None else dk_lock d).

(** How far an opening has come. *)
Inductive opening :=
  | Opened (opts : Options)
  | Held (c : Cache)
  | Refused (e : openError)
  | Closed.

(** The rest of [Open]: lock, then load. *)
Definition openLocked (pf : platform) (p : nat) (opts : Options) (d : Disk) : Disk * opening :=
  match lock pf p d with
  | Ok d =>
      match load opts (mkCache (dk_file d) [] 0 zeroRecord (o_Start opts) 0 None) with
      | Ok c => (mkDisk (k_file c) (dk_lock d), Held c)
      | Err e => (closeFile p d, Refused (errLoad e))
      | Fault _ => (closeFile p d, Closed)
      end
  | Err e => (closeFile p d, Refused e)
  | Fault _ => (d, Closed)
  end.

(** An open Cache over the file as it is now. *)
Definition onFile (d : Disk) (c : Cache) : Cache :=
  mkCache (dk_file d) (k_writer c) (k_count c) (k_last c) (k_start c) (k_pending c) (k_repaired c).

(** Operations on an open Cache, one failed leaving it as it was. Reading the records
    flushes the writer first. *)
Inductive cacheOp :=
  | opAppend (records : list CacheRecord)
  | opTruncate (block : Z)
  | opEach.

Definition applyOp (op : cacheOp) (c : Cache) : Cache :=
  match op with
  | opAppend records => match Append records c with Ok c' => c' | _ => c end
  | opTruncate block => match Truncate block c with Ok (_, c') => c' | _ => c end
  | opEach => flush c
  end.

(** ** Interleaving *)

Inductive turn :=
  | toOpen (p : nat) (opts : Options)
  | toLock (p : nat)
  | toUse (p : nat) (op : cacheOp)
  | toClose (p : nat)
  | toDie (p n : nat).

Record openings := mkOpenings { os_disk : Disk; os_of : gmap nat opening }.

(** One step; a turn that is not [p]'s to take is no step. *)
Definition takeTurn (pf : platform) (s : openings) (t : turn) : option openings :=
  let d := os_disk s in
  match t with
  | toOpen p opts =>
      match os_of s !! p with
      | None => Some (mkOpenings (openFile opts d) (<[p := Opened opts]> (os_of s)))
      | Some _ => None
      end
  | toLock p =>
      match os_of s !! p with
      | Some (Opened opts) =>
          let '(d, o) := openLocked pf p opts d in Some (mkOpenings d (<[p := o]> (os_of s)))
      | _ => None
      end
  | toUse p op =>
      match os_of s !! p with
      | Some (Held c) =>
          let c := applyOp op (onFile d c) in
          Some (mkOpenings (mkDisk (k_file c) (dk_lock d)) (<[p := Held c]> (os_of s)))
      | _ => None
      end
  | toClose p =>
      match os_of s !! p with
      | Some (Held c) =>
          Some (mkOpenings (closeFile p (mkDisk (Close (onFile d c)) (dk_lock d))) (<[p := Closed]> (os_of s)))
      | _ => None
      end
  | toDie p n =>
      match os_of s !! p with
      | Some (Held c) =>
          Some (mkOpenings (closeFile p (mkDisk (take n (dk_file d ++ k_writer c)) (dk_lock d))) (<[p := Closed]> (os_of s)))
      | _ => None
      end
  end.

Fixpoint takeTurns (pf : platform) (s : openings) (ts : list turn) : option openings :=
  match ts with
  | [] => Some s
  | t :: ts => s ← takeTurn pf s t; takeTurns pf s ts
  end.

(** Nobody has opened the file yet. *)
Definition unopened (file : list byte) : openings := mkOpenings (mkDisk file None) ∅.
