(* ===== verification/LockTheorems.v ===== *)
(** * The lock makes the file a list with one holder

    What the openings of one file do to it, however their steps interleave: while none of
    them starts afresh it is a list with a holder. One that starts afresh is not stopped by
    the lock. *)
From S2P Require Import Prelude Sorts Bytes Text Merkle MerkleEncode Twab Chain Crc Cache CacheSpec CacheOps CacheSync StateMonad CacheCase CacheTheorems Lock.

Open Scope list_scope.
Open Scope Z_scope.

(** ** The specification *)

(** A list of records, and which opening holds it. *)
Record guarded := mkGuarded { gd_list : list CacheRecord; gd_holder : option nat }.

Section spec.
Context (opts : Options).

Inductive listOp : cacheOp → list CacheRecord → list CacheRecord → Prop :=
  | list_append k l : Forall record_ok k → runs (last_block (o_Start opts) l) k → listOp (opAppend k) l (l ++ k)
  | list_rejected k l : ¬ (Forall record_ok k ∧ runs (last_block (o_Start opts) l) k) → listOp (opAppend k) l l
  | list_truncate b l : listOp (opTruncate b) l (filter (λ r, block r < b) l)
  | list_each l : listOp opEach l l.

(** An Open takes the list as it was left, or is refused because another holds it. A run
    that dies leaves the records up to some point. *)
Inductive guardedTurn : turn → guarded → guarded → Prop :=
  | gt_open p g : guardedTurn (toOpen p opts) g g
  | gt_lock p l : guardedTurn (toLock p) (mkGuarded l None) (mkGuarded l (Some p))
  | gt_refused p q l : guardedTurn (toLock p) (mkGuarded l (Some q)) (mkGuarded l (Some q))
  | gt_use p op l l' : listOp op l l' → guardedTurn (toUse p op) (mkGuarded l (Some p)) (mkGuarded l' (Some p))
  | gt_close p l : guardedTurn (toClose p) (mkGuarded l (Some p)) (mkGuarded l None)
  | gt_die p n l l' : l' `prefix_of` l → guardedTurn (toDie p n) (mkGuarded l (Some p)) (mkGuarded l' None).

Inductive guardedTurns : list turn → guarded → guarded → Prop :=
  | gts_nil g : guardedTurns [] g g
  | gts_cons t ts g g' g'' : guardedTurn t g g' → guardedTurns ts g' g'' → guardedTurns (t :: ts) g g''.

(** The file opens on this list. *)
Definition left_by (l : list CacheRecord) (file : list byte) : Prop :=
  ∃ c, load opts (mkCache file [] 0 zeroRecord (o_Start opts) 0 None) = Ok c ∧ holds opts l c.

(** Turns of runs of one history, none afresh. *)
Definition turn_ok (t : turn) : Prop :=
  match t with
  | toOpen _ o => o = opts
  | toUse _ (opAppend k) => Forall record_typed k
  | _ => True
  end.

Record tracks (s : openings) (g : guarded) : Prop := Tracks {
  tk_held : ∀ p c, os_of s !! p = Some (Held c) →
    gd_holder g = Some p ∧ holds opts (gd_list g) c ∧ k_file c = dk_file (os_disk s);
  tk_holder : ∀ p, gd_holder g = Some p → ∃ c, os_of s !! p = Some (Held c);
  tk_lock : dk_lock (os_disk s) = gd_holder g;
  tk_free : gd_holder g = None → left_by (gd_list g) (dk_file (os_disk s));
  tk_opened : ∀ p o, os_of s !! p = Some (Opened o) → o = opts;
  tk_refused : ∀ p e, os_of s !! p = Some (Refused e) → e = errInUse;
}.

Context (Hopts : opts_ok opts) (Hfresh : o_Fresh opts = false).

Lemma onFile_same d c : k_file c = dk_file d → onFile d c = c.
Proof using Type. intros H. unfold onFile. rewrite <-H. by destruct c. Qed.

Lemma left_none : left_by [] [].
Proof using Type. eexists. split; [done|]. apply fresh_stored. Qed.

Lemma left_closed l c : holds opts l c → left_by l (Close c).
Proof using Hopts Hfresh.
  intros Hc. destruct (Close_reopens opts l c Hopts Hfresh Hc) as (c' & Ho & Hc' & _). exists c'. split; [|done].
  unfold Open_ in Ho. by rewrite Hfresh in Ho.
Qed.

(** The records whole in a prefix of a file, and a rest that is no record. *)
Lemma scanned_take l n : Forall record_ok l → runs (o_Start opts) l →
  ∃ tail, scanned (o_Start opts) (take n (encodings l)) (take (n / stride) l) tail.
Proof using Type.
  intros Hok Hr. set (k := (n / stride)%nat). exists (drop (k * stride) (take n (encodings l))).
  pose proof (Nat.div_mod n stride ltac:(done)) as Hn. pose proof (Nat.mod_upper_bound n stride ltac:(done)) as Hlt. fold k in Hn.
  split; [|split; [by apply Forall_take|split]].
  - rewrite <-encodings_take, <-(take_drop (k * stride) (take n (encodings l))) at 1. f_equal. rewrite take_take. f_equal. lia.
  - rewrite <-(take_drop k l) in Hr. by apply runs_app in Hr as [? _].
  - intros r rest _ He. apply (f_equal length) in He. rewrite length_app, length_encoding, length_drop, length_take in He. lia.
Qed.

Lemma kept_prefix_of l : runs (o_Start opts) l → kept l `prefix_of` l.
Proof using Type. apply kept_prefix. Qed.

(** What a run that dies leaves on disk opens on a prefix of what it held. *)
Lemma left_cut l c n : holds opts l c → ∃ l', l' `prefix_of` l ∧ left_by l' (take n (k_file c ++ k_writer c)).
Proof using Hopts Hfresh.
  intros [-> _ _ _ Hok Hr]. destruct (Open_recovers opts (take n (headerBytes opts ++ encodings l)) Hopts Hfresh) as (Hshort & _ & Hlong).
  assert (∀ file c', Open_ file opts = Ok c' → load opts (mkCache file [] 0 zeroRecord (o_Start opts) 0 None) = Ok c') as Hload.
  { intros file c'. unfold Open_. by rewrite Hfresh. }
  destruct (decide (n < headerSize)%nat) as [Hlt|Hge].
  - destruct Hshort as (c' & Ho & Hc' & _); [rewrite length_take; lia|]. exists []. split; [apply prefix_nil|].
    exists c'. split; [by apply Hload|done].
  - rewrite take_app_ge, length_headerBytes in * by (rewrite length_headerBytes; lia).
    destruct (scanned_take l (n - headerSize) Hok Hr) as (tail & Hs).
    destruct (Open_scanned opts Hopts _ _ tail Hfresh Hs) as (c' & Ho & Hnil & Hcons).
    set (l1 := take ((n - headerSize) / stride) l) in *.
    assert (l1 `prefix_of` l) as Hp by (exists (drop ((n - headerSize) / stride) l); symmetry; apply take_drop).
    assert (runs (o_Start opts) l1) as Hr1 by (unfold l1; rewrite <-(take_drop ((n - headerSize) / stride) l) in Hr; by apply runs_app in Hr as [? _]).
    destruct (decide (tail = [])) as [Ht|Ht].
    + destruct (Hnil Ht) as [[Hc' _] _]. exists l1. split; [done|]. exists c'. split; [by apply Hload|done].
    + destruct (Hcons Ht) as [[Hc' _] _]. exists (kept l1). split; [by etrans; [apply kept_prefix_of|]|].
      exists c'. split; [by apply Hload|done].
Qed.

Lemma applyOp_list op l c : turn_ok (toUse 0 op) → holds opts l c → ∃ l', listOp op l l' ∧ holds opts l' (applyOp op c).
Proof using Type.
  intros Hop Hc. destruct op as [k|b|]; cbn [applyOp turn_ok] in *.
  - destruct (Append k c) as [c'|e|x] eqn:E.
    + assert (Forall record_ok k ∧ runs (last_block (o_Start opts) l) k) as [Hk Hr].
      { destruct (encodeBatch 0 (last_block (o_Start opts) l) k) as [e|e|x] eqn:Ee; unfold Append in E; rewrite (holds_floor opts l c Hc), Ee in E;
          [apply encodeBatch_Ok in Ee; tauto|done..]. }
      exists (l ++ k). split; [by constructor|]. destruct (Append_holds opts l k c Hc Hk Hr) as (c2 & H2 & Hc2 & _).
      rewrite E in H2. by injection H2 as ->.
    + exists l. split; [|done]. apply list_rejected. intros [Hk Hr].
      destruct (Append_holds opts l k c Hc Hk Hr) as (c2 & H2 & _). by rewrite E in H2.
    + exists l. split; [|done]. apply list_rejected. intros [Hk Hr].
      destruct (Append_holds opts l k c Hc Hk Hr) as (c2 & H2 & _). by rewrite E in H2.
  - destruct (Truncate_holds opts l c b Hc) as (c' & -> & [Hc' _] & _). eexists. split; [constructor|exact Hc'].
  - exists l. split; [constructor|]. by apply flush_stored.
Qed.

(** Each kind of step. *)
Lemma track_open s g p : tracks s g → os_of s !! p = None →
  tracks (mkOpenings (openFile opts (os_disk s)) (<[p := Opened opts]> (os_of s))) g.
Proof using Hfresh.
  intros [Hh Hp Hl Hf Ho Hr] Hnone. unfold openFile. rewrite Hfresh. split; cbn [os_of os_disk dk_file dk_lock].
  - intros q c Hq. apply lookup_insert_Some in Hq as [[_ ?]|[_ Hq]]; [done|]. by apply Hh.
  - intros q Hq. destruct (Hp q Hq) as [c Hc]. exists c. by rewrite lookup_insert_ne by congruence.
  - done.
  - done.
  - intros q o Hq. apply lookup_insert_Some in Hq as [[_ [= <-]]|[_ Hq]]; [done|by apply Ho in Hq].
  - intros q e Hq. apply lookup_insert_Some in Hq as [[_ ?]|[_ Hq]]; [done|by apply Hr in Hq].
Qed.

Lemma track_refused s l h p : tracks s (mkGuarded l (Some h)) → os_of s !! p = Some (Opened opts) →
  tracks (mkOpenings (closeFile p (os_disk s)) (<[p := Refused errInUse]> (os_of s))) (mkGuarded l (Some h)).
Proof using Type.
  intros [Hh Hp Hl Hf Ho Hr] Hop. cbn [gd_holder gd_list] in *. destruct (Hp h eq_refl) as [c Hc].
  assert (p ≠ h) as Hne by congruence. unfold closeFile. rewrite decide_False by congruence. split; cbn [os_of os_disk dk_file dk_lock gd_holder gd_list].
  - intros q c' Hq. apply lookup_insert_Some in Hq as [[_ ?]|[_ Hq]]; [done|]. by apply Hh.
  - intros q [= <-]. exists c. by rewrite lookup_insert_ne.
  - done.
  - done.
  - intros q o Hq. apply lookup_insert_Some in Hq as [[_ ?]|[_ Hq]]; [done|by apply Ho in Hq].
  - intros q e Hq. apply lookup_insert_Some in Hq as [[_ [= <-]]|[_ Hq]]; [done|by apply Hr in Hq].
Qed.

Lemma track_held s l h p l' c' lk : tracks s (mkGuarded l h) → h = None ∨ h = Some p → holds opts l' c' → lk = Some p →
  tracks (mkOpenings (mkDisk (k_file c') lk) (<[p := Held c']> (os_of s))) (mkGuarded l' (Some p)).
Proof using Type.
  intros [Hh Hp Hl Hf Ho Hr] Hhp Hc ->. cbn [gd_holder gd_list] in *. split; cbn [os_of os_disk dk_file dk_lock gd_holder gd_list].
  - intros q c Hq. apply lookup_insert_Some in Hq as [[<- [= <-]]|[Hne Hq]]; [done|].
    apply Hh in Hq as [Hq _]. destruct Hhp; congruence.
  - intros q [= <-]. exists c'. by rewrite lookup_insert_eq.
  - done.
  - done.
  - intros q o Hq. apply lookup_insert_Some in Hq as [[_ ?]|[_ Hq]]; [done|by apply Ho in Hq].
  - intros q e Hq. apply lookup_insert_Some in Hq as [[_ ?]|[_ Hq]]; [done|by apply Hr in Hq].
Qed.

Lemma track_left s l p l' file : tracks s (mkGuarded l (Some p)) → left_by l' file →
  tracks (mkOpenings (mkDisk file None) (<[p := Closed]> (os_of s))) (mkGuarded l' None).
Proof using Type.
  intros [Hh Hp Hl Hf Ho Hr] Hc. cbn [gd_holder gd_list] in *. split; cbn [os_of os_disk dk_file dk_lock gd_holder gd_list].
  - intros q c' Hq. apply lookup_insert_Some in Hq as [[_ ?]|[Hne Hq]]; [done|]. apply Hh in Hq as [[= ?] _]. done.
  - done.
  - done.
  - done.
  - intros q o Hq. apply lookup_insert_Some in Hq as [[_ ?]|[_ Hq]]; [done|by apply Ho in Hq].
  - intros q e Hq. apply lookup_insert_Some in Hq as [[_ ?]|[_ Hq]]; [done|by apply Hr in Hq].
Qed.

Lemma takeTurn_tracks s g t s' : tracks s g → turn_ok t → takeTurn Unix s t = Some s' →
  ∃ g', guardedTurn t g g' ∧ tracks s' g'.
Proof using All.
  intros Ht Hok. destruct g as [l h]. destruct t as [p o|p|p op|p|p n]; cbn [takeTurn turn_ok] in *.
  - subst o. destruct (os_of s !! p) eqn:E; [done|]. intros [= <-]. eexists. split; [constructor|]. by apply track_open.
  - destruct (os_of s !! p) as [[o| | |]|] eqn:E; try done. pose proof (tk_opened _ _ Ht p o E) as ->.
    unfold openLocked, lock. rewrite (tk_lock _ _ Ht). cbn [gd_holder]. destruct h as [q|].
    + intros [= <-]. eexists. split; [constructor|]. by apply track_refused.
    + destruct (tk_free _ _ Ht eq_refl) as (c & Hc & Hl). cbn [dk_file dk_lock]. cbn [gd_list] in *.
      rewrite Hc. intros [= <-]. eexists. split; [constructor|]. by apply (track_held s l None); [|left|..].
  - destruct (os_of s !! p) as [[|c| |]|] eqn:E; try done. destruct (tk_held _ _ Ht p c E) as ([= ->] & Hc & Hf).
    rewrite (onFile_same _ _ Hf). intros [= <-]. cbn [gd_list] in Hc. destruct (applyOp_list op l c Hok Hc) as (l' & Hl & Hc').
    eexists. split; [by constructor|]. apply (track_held s l (Some p)); [done|by right|done|by rewrite (tk_lock _ _ Ht)].
  - destruct (os_of s !! p) as [[|c| |]|] eqn:E; try done. destruct (tk_held _ _ Ht p c E) as ([= ->] & Hc & Hf).
    rewrite (onFile_same _ _ Hf). intros [= <-]. cbn [gd_list] in Hc. eexists. split; [constructor|].
    unfold closeFile. cbn [dk_lock dk_file]. rewrite (tk_lock _ _ Ht). cbn [gd_holder]. rewrite decide_True by done. by apply (track_left s l); [|apply left_closed].
  - destruct (os_of s !! p) as [[|c| |]|] eqn:E; try done. destruct (tk_held _ _ Ht p c E) as ([= ->] & Hc & Hf).
    rewrite <-Hf. intros [= <-]. cbn [gd_list] in Hc. destruct (left_cut l c n Hc) as (l' & Hp & Hl). exists (mkGuarded l' None).
    split; [by constructor|]. unfold closeFile. cbn [dk_lock dk_file]. rewrite (tk_lock _ _ Ht). cbn [gd_holder].
    rewrite decide_True by done. by apply (track_left s l).
Qed.

Lemma takeTurns_tracks ts : ∀ s g s', tracks s g → Forall turn_ok ts → takeTurns Unix s ts = Some s' →
  ∃ g', guardedTurns ts g g' ∧ tracks s' g'.
Proof using All.
  induction ts as [|t ts IH]; intros s g s' Ht Hok; cbn [takeTurns]; [intros [= <-]; exists g; split; [constructor|done]|].
  apply Forall_cons in Hok as [Hk Hok]. intros (s1 & H1 & H2)%bind_Some.
  destruct (takeTurn_tracks s g t s1 Ht Hk H1) as (g1 & Hg1 & Ht1). destruct (IH s1 g1 s' Ht1 Hok H2) as (g' & Hg & Ht').
  exists g'. split; [by econstructor|done].
Qed.

Lemma unopened_tracks l file : left_by l file → tracks (unopened file) (mkGuarded l None).
Proof using Type. intros Hl. by split. Qed.
End spec.

(** ** The claims *)

(** C27: one writer at a time. However the steps of any number of runs on one history
    interleave, opening, locking, reading, writing and closing the file, if none of them
    starts afresh they do to it what they would do to a list with one holder: an Open is
    refused exactly while another run holds the file, and otherwise succeeds with the
    records its predecessors left, and what the holder's Cache says is in the file is
    there. A holder that dies, whatever part of its bytes is then on disk, leaves a prefix
    of its records and nobody refused. *)
Theorem Openings_take_turns opts l file ts s :
  opts_ok opts → o_Fresh opts = false → left_by opts l file → Forall (turn_ok opts) ts →
  takeTurns Unix (unopened file) ts = Some s →
  ∃ g, guardedTurns opts ts (mkGuarded l None) g ∧
    (∀ p c, os_of s !! p = Some (Held c) →
       gd_holder g = Some p ∧ holds opts (gd_list g) c ∧ k_file c = dk_file (os_disk s)) ∧
    (∀ p, gd_holder g = Some p → ∃ c, os_of s !! p = Some (Held c)) ∧
    (∀ p e, os_of s !! p = Some (Refused e) → e = errInUse) ∧
    (gd_holder g = None → left_by opts (gd_list g) (dk_file (os_disk s))).
Proof.
  intros Ho Hf Hl Hok Hs. destruct (takeTurns_tracks opts Ho Hf ts _ _ _ (unopened_tracks opts l file Hl) Hok Hs) as (g & Hg & []).
  by exists g.
Qed.

(** Runs at an empty cache: the second is refused while the first appends, the third reads
    what it left and dies within the second record, and the fourth opens it repaired. *)
Definition case_turns : list turn :=
  [toOpen 1 case_opts; toOpen 2 case_opts; toLock 1; toUse 1 (opAppend case_hist); toLock 2; toUse 1 opEach; toClose 1;
   toOpen 3 case_opts; toLock 3; toDie 3 200; toOpen 4 case_opts; toLock 4].

Definition held_by (s : openings) (p : nat) : bool := match os_of s !! p with Some (Held _) => true | _ => false end.
Definition is_some {A} (o : option A) : bool := match o with Some _ => true | None => false end.

Lemma held_by_Held s p : held_by s p = true → ∃ c, os_of s !! p = Some (Held c).
Proof. unfold held_by. destruct (os_of s !! p) as [[|c| |]|]; [done| |done..]. by exists c. Qed.
Lemma default_some {A} (a : A) o : is_some o = true → o = Some (default a o).
Proof. by destruct o. Qed.

Definition case_openings : openings := default (unopened []) (takeTurns Unix (unopened []) case_turns).

Lemma Openings_take_turns_witness :
  (os_of case_openings !! 2%nat = Some (Refused errInUse)) ∧
  ∃ g c, guardedTurns case_opts case_turns (mkGuarded [] None) g ∧ gd_holder g = Some 4%nat ∧
    os_of case_openings !! 4%nat = Some (Held c) ∧ holds case_opts (gd_list g) c.
Proof.
  split; [by vm_compute|].
  destruct (Openings_take_turns case_opts [] [] case_turns case_openings) as (g & Hg & Hheld & _).
  - exact case_opts_ok.
  - done.
  - apply left_none.
  - assert (Forall record_typed case_hist) as Hty by (eapply Forall_impl; [apply case_hist_ok|]; by intros ? [? _]).
    unfold case_turns. repeat (apply Forall_cons; split; [first [reflexivity | exact Hty | exact I]|]). by apply Forall_nil.
  - apply default_some. by vm_compute.
  - destruct (held_by_Held case_openings 4) as [c Hc]; [by vm_compute|].
    destruct (Hheld 4%nat c Hc) as (Hh & Hl & _).
    exists g, c. split; [exact Hg|]. split; [exact Hh|]. split; [exact Hc|exact Hl].
Defined.

(** Where there is no flock, both hold the file. *)
Example case_two_writers :
  (λ s, (held_by s 1, held_by s 2)) <$>
    takeTurns NotUnix (unopened []) [toOpen 1 case_opts; toOpen 2 case_opts; toLock 1; toLock 2] = Some (true, true).
Proof. by vm_compute. Qed.

(** ** Starting afresh *)

(** A record is no header: its block number would have to be the eight bytes of the
    magic. *)
Lemma encoding_no_header opts r : record_ok r → block r < 2 ^ 62 → take headerSize (encoding r) ≠ headerBytes opts.
Proof.
  intros [[Hb _] _] Hlt Heq. apply (f_equal (take 8)) in Heq. rewrite take_take in Heq.
  change (8 `min` headerSize)%nat with 8%nat in Heq. unfold encoding, payload, headerBytes, headerFields in Heq.
  rewrite <-!app_assoc in Heq. rewrite take_app_length' in Heq by by rewrite length_be_encode.
  rewrite take_app_length' in Heq by reflexivity. apply (f_equal be_decode) in Heq. rewrite be_decode_encode_u64 in Heq by done.
  assert (2 ^ 62 ≤ be_decode magic) by by vm_compute. lia.
Qed.

Definition fresh (opts : Options) : Options := mkOptions (o_ChainID opts) (o_Token opts) (o_Start opts) true.

(** C29: the lock does not stop a run that starts afresh. While one run holds the file, an
    Open with Fresh is refused as in use, but opening the file has already emptied it: when
    the holder appends a record and closes, the record is all the file has, and no run
    opens it again. *)
Theorem Fresh_ignores_lock opts s l c p q r :
  os_of s !! p = Some (Held c) → os_of s !! q = None → dk_lock (os_disk s) = Some p →
  stored opts l c → record_ok r → last_block (o_Start opts) l ≤ block r < 2 ^ 62 →
  ∃ s', takeTurns Unix s [toOpen q (fresh opts); toLock q; toUse p (opAppend [r]); toClose p] = Some s' ∧
    os_of s' !! q = Some (Refused errInUse) ∧ dk_file (os_disk s') = encoding r ∧
    ∀ opts', o_Fresh opts' = false → ∃ e, Open_ (dk_file (os_disk s')) opts' = Err e.
Proof.
  intros Hp Hq Hlock [Hc Hw] Hr Hblock. assert (p ≠ q) as Hne by congruence.
  assert (∃ c', Append [r] (onFile (mkDisk [] (Some p)) c) = Ok c' ∧ k_file c' ++ k_writer c' = encoding r) as (c' & Ha & Hbytes).
  { unfold Append, onFile. cbn [k_count k_last k_start k_file k_writer k_pending k_repaired dk_file]. rewrite (holds_floor opts l c Hc).
    assert (encodeBatch 0 (last_block (o_Start opts) l) [r] = Ok (encodings [r])) as ->.
    { apply encodeBatch_Ok; [constructor; [apply Hr|constructor]|]. split; [by constructor|]. split; [by split; [lia|]|done]. }
    cbn [mbind Res_bind last]. pose proof (bufWrite_bytes [] (k_writer c) (encodings [r])) as Hb. rewrite Hw in *.
    destruct (bufWrite [] [] (encodings [r])) as [file writer]. cbn [fst snd app] in Hb.
    assert (encodings [r] = encoding r) as Hone by (unfold encodings; cbn [mbind list_bind]; by rewrite app_nil_r). rewrite Hone in Hb.
    destruct (_ <=? _); eexists; (split; [done|]); cbn [checkpoint flush k_file k_writer]; by rewrite ?app_nil_r. }
  eexists. split.
  - cbn [takeTurns takeTurn os_of os_disk]. rewrite Hq. cbn [mbind option_bind os_of os_disk]. rewrite lookup_insert_eq.
    unfold openFile, openLocked, lock, closeFile. cbn [fresh o_Fresh dk_file dk_lock]. rewrite Hlock. rewrite decide_False by congruence.
    cbn [mbind option_bind os_of os_disk dk_file dk_lock]. rewrite !lookup_insert_ne, Hp by done. cbn [mbind option_bind os_of os_disk applyOp].
    rewrite Ha. cbn [dk_file dk_lock]. rewrite lookup_insert_eq. cbn [mbind option_bind]. reflexivity.
  - cbn [os_of os_disk closeFile dk_file dk_lock]. split.
    { rewrite !lookup_insert_ne, lookup_insert_eq by done. done. }
    assert (Close (onFile (mkDisk (k_file c') (Some p)) c') = encoding r) as -> by (by rewrite <-Hbytes).
    split; [done|]. intros opts' Hf. apply Open_refused; [done|rewrite length_encoding; unfold headerSize, stride, payloadSize; lia|].
    apply encoding_no_header; [done|lia].
Qed.

(** A run that holds three records, and one more transfer. *)
Definition case_held : Cache := checkpoint (case_cache case_hist).
Definition case_holding : openings := mkOpenings (mkDisk (k_file case_held) (Some 1%nat)) {[ 1%nat := Held case_held ]}.
Definition case_next : CacheRecord := case_record 7 1 2 5.

Lemma Fresh_ignores_lock_witness :
  ∃ s', takeTurns Unix case_holding
      [toOpen 2 (fresh case_opts); toLock 2; toUse 1 (opAppend [case_next]); toClose 1] = Some s' ∧
    os_of s' !! 2%nat = Some (Refused errInUse) ∧ ∃ e, Open_ (dk_file (os_disk s')) case_opts = Err e.
Proof.
  destruct (Fresh_ignores_lock case_opts case_holding case_hist case_held 1 2 case_next) as (s' & Hs & Hq & _ & Hno).
  - reflexivity.
  - reflexivity.
  - reflexivity.
  - apply checkpoint_stored, case_cache_holds; [apply case_hist_ok|apply case_hist_runs].
  - split; [by split|]. exists 5. by split.
  - by split.
  - exists s'. split; [exact Hs|]. split; [exact Hq|]. by apply Hno.
Defined.
