(* ===== verification/Wire.v ===== *)
(** * chain: one endpoint

    [rpc.go] and the per-endpoint reads of [reader.go]. JSON text is not modelled:
    a response body is given as what [json.Unmarshal] reads it into. A server is any
    function from an endpoint, the number of requests posted before and what is
    posted to a reply, so it may lie, change its mind or answer at random. Waiting
    decides when a reply comes and not which: it is in [Pacing]. *)
From S2P Require Import Prelude Sorts Bytes Text Merkle Twab Chain StateMonad.

(** ** Requests and replies *)

(** [wireBlock] and [wireLog]. *)
Record wireBlock := mkWireBlock {
  wb_Number : string;
  wb_Hash : string;
  wb_ParentHash : string;
  wb_Timestamp : string;
}.

Record wireLog := mkWireLog {
  wl_Address : string;
  wl_Topics : list string;
  wl_Data : string;
  wl_BlockNumber : string;
  wl_BlockHash : string;
  wl_LogIndex : string;
  wl_Removed : bool;
}.

(** [json.RawMessage], by what it can be unmarshalled into. *)
Inductive rawResult :=
  | rawNull
  | rawString (s : string)
  | rawBlock (w : wireBlock)
  | rawLogs (l : list wireLog)
  | rawOther.

(** A method with its parameters. *)
Inductive question :=
  | ethChainId
  | ethGetBlockByNumber (tag : string)
  | ethGetLogs (fromBlock toBlock address topic0 : string)
  | ethCall (to data at_ : string).

Record rpcRequest := mkRequest { rq_ID : Z; rq_Question : question }.

(** What is posted: one request, or a batch. *)
Inductive rpcPost :=
  | postOne (req : rpcRequest)
  | postBatch (reqs : list rpcRequest).

Record rpcResponse := mkResponse {
  rr_ID : Z;
  rr_Result : rawResult;
  rr_Error : option (Z * string);
}.

(** A response body: an object, an array of them, [null] or anything else. *)
Inductive rpcBody :=
  | bodySingle (r : rpcResponse)
  | bodyArray (rs : list rpcResponse)
  | bodyNull
  | bodyOther.

(** What a POST comes back with. *)
Inductive httpReply :=
  | httpResponse (status : Z) (body : rpcBody)
  | httpDown.

Definition unmarshalString (raw : rawResult) : Res chainError string :=
  match raw with rawString s => Ok s | _ => Err errJSON end.
Definition unmarshalBlock (raw : rawResult) : Res chainError wireBlock :=
  match raw with rawBlock w => Ok w | _ => Err errJSON end.
Definition unmarshalLogs (raw : rawResult) : Res chainError (list wireLog) :=
  match raw with rawLogs l => Ok l | _ => Err errJSON end.

Definition isNull (raw : rawResult) : bool := match raw with rawNull => true | _ => false end.

(** [rpcResponse.result]. *)
Definition responseResult (r : rpcResponse) : Res chainError rawResult :=
  match rr_Error r with
  | Some (code, message) => Err (errRPC code message)
  | None => if isNull (rr_Result r) then Err errNoAnswer else Ok (rr_Result r)
  end.

(** ** Wire shapes *)

(** [wireBlock.decode]. *)
Definition decodeBlock (w : wireBlock) : Res chainError Block :=
  number ← parseQuantity (wb_Number w);
  hash ← ParseHash (wb_Hash w);
  parentHash ← ParseHash (wb_ParentHash w);
  seconds ← parseQuantity (wb_Timestamp w);
  if MaxInt64 <? seconds then Err errNotUnixSecond
  else mret (mkBlock number hash parentHash seconds).

(** [wireLog.decode]. *)
Definition decodeLog (w : wireLog) : Res chainError eventLog :=
  if wl_Removed w then Err errRemoved
  else
    number ← parseQuantity (wl_BlockNumber w);
    index ← parseQuantity (wl_LogIndex w);
    hash ← ParseHash (wl_BlockHash w);
    address ← ParseAddress (wl_Address w);
    data ← parseHexBytes (wl_Data w);
    topics ← traverse ParseHash (wl_Topics w);
    mret (mkEventLog address topics data number hash index).

Definition appendUint64 (dst : list byte) (n : Z) : list byte := dst ++ be_encode 8 n.

(** [Block.canonical]. *)
Definition canonicalBlock (b : Block) : list byte :=
  appendUint64 (appendUint64 [] (b_Number b) ++ vec_to_list (b_Hash b) ++ vec_to_list (b_ParentHash b))
    (u64 (b_Timestamp b)).

Definition canonicalBlocks (blocks : list Block) : list byte := blocks ≫= canonicalBlock.

(** One turn of the loop of [canonicalLogs]. *)
Definition canonicalLog (out : list byte) (l : eventLog) : list byte :=
  let out := appendUint64 out (el_BlockNumber l) in
  let out := appendUint64 out (el_LogIndex l) in
  let out := out ++ vec_to_list (el_BlockHash l) ++ vec_to_list (el_Address l) in
  let out := appendUint64 out (Z.of_nat (length (el_Topics l))) in
  let out := out ++ (el_Topics l ≫= vec_to_list) in
  let out := appendUint64 out (Z.of_nat (length (el_Data l))) in
  out ++ el_Data l.

Definition canonicalLogs (logs : list eventLog) : list byte := foldl canonicalLog [] logs.

Definition compareLogs (a b : eventLog) : comparison :=
  if negb (el_BlockNumber a =? el_BlockNumber b) then (el_BlockNumber a ?= el_BlockNumber b)
  else (el_LogIndex a ?= el_LogIndex b).

(** [sortLogs]. *)
Definition sortLogs (logs : list eventLog) : list eventLog := sort_by compareLogs logs.

(** [isBlock]. *)
Definition isBlock (block : Block) (asked : Z) : Res chainError () :=
  if negb (b_Number block =? asked) then Err (errWrongBlock asked (b_Number block)) else Ok ().

(** ** Posting *)

Definition maxAttempts : nat := 5.

(** The endpoint's mutable fields, and how many requests all have posted. *)
Record endpointState := mkEndpointState { ep_nextID : Z; ep_noBatch : bool }.
Record wireState := mkWireState { nt_clock : nat; nt_endpoints : gmap nat endpointState }.

(** The endpoints before any request. *)
Definition newWire : wireState := mkWireState 0 ∅.

Definition endpointOf (i : nat) (s : wireState) : endpointState :=
  default (mkEndpointState 0 false) (nt_endpoints s !! i).
Definition setEndpoint (i : nat) (p : endpointState) (s : wireState) : wireState :=
  mkWireState (nt_clock s) (<[i := p]> (nt_endpoints s)).
Definition tick (s : wireState) : wireState := mkWireState (S (nt_clock s)) (nt_endpoints s).

Abbreviation Wire := (StM wireState chainError).

Section endpoint.
Context (server : nat → nat → rpcPost → httpReply) (i : nat).

(** [endpoint.attempt]. *)
Definition attempt (post : rpcPost) : Wire rpcBody := λ s,
  (match server i (nt_clock s) post with
   | httpDown => Err errTransport
   | httpResponse status body =>
       if negb (status =? 200) then
         if (status =? 429) || (500 <=? status) then Err (errRetryable status) else Err (errHTTP status)
       else Ok body
   end, tick s).

(** The loop of [endpoint.roundTrip], with the attempts left. *)
Fixpoint roundTripFrom (attempts : nat) (lastErr : chainError) (post : rpcPost) : Wire rpcBody :=
  match attempts with
  | O => throw (errGaveUp lastErr)
  | S attempts =>
      catch (attempt post) (λ err,
        match err with
        | errRetryable _ => roundTripFrom attempts err post
        | _ => throw err
        end)
  end.

Definition roundTrip (post : rpcPost) : Wire rpcBody := roundTripFrom maxAttempts errTransport post.

(** [endpoint.request]. *)
Definition newRequest (q : question) : Wire rpcRequest := λ s,
  let p := endpointOf i s in
  let id := u64 (ep_nextID p + 1) in
  (Ok (mkRequest id q), setEndpoint i (mkEndpointState id (ep_noBatch p)) s).

(** [endpoint.call]. *)
Definition callOne (q : question) : Wire rawResult :=
  req ← newRequest q;
  body ← roundTrip (postOne req);
  match body with
  | bodySingle r => lift (responseResult r)
  | bodyNull => throw errNoAnswer
  | _ => throw errJSON
  end.

(** The replies of a batch, by id. *)
Definition repliesByID (rs : list rpcResponse) : gmap Z rpcResponse :=
  foldl (λ byID r, <[rr_ID r := r]> byID) ∅ rs.

Definition batchResult (byID : gmap Z rpcResponse) (req : rpcRequest) : Res chainError rawResult :=
  match byID !! rq_ID req with
  | None => Err (errUnanswered (rq_ID req))
  | Some reply => responseResult reply
  end.

(** [endpoint.callBatch]. *)
Definition callBatch (qs : list question) : Wire (list rawResult) :=
  reqs ← mapS newRequest qs;
  body ← catch (roundTrip (postBatch reqs)) (λ err,
    match err with
    | errHTTP _ => throw (errBatchRefused err)
    | _ => throw err
    end);
  match body with
  | bodyArray rs => lift (traverse (batchResult (repliesByID rs)) reqs)
  | bodyNull => lift (traverse (batchResult ∅) reqs)
  | bodySingle r =>
      match rr_Error r with
      | Some (code, message) => throw (errBatchRefused (errRPC code message))
      | None => throw errJSON
      end
  | bodyOther => throw errJSON
  end.

(** ** Per-endpoint reads *)

Definition blockByTag (tag : string) : Wire Block :=
  raw ← callOne (ethGetBlockByNumber tag);
  wire ← lift (unmarshalBlock raw);
  lift (decodeBlock wire).

(** One reply of [batchBlocks]. *)
Definition batchedBlock (number : Z) (raw : rawResult) : Res chainError Block :=
  wire ← unmarshalBlock raw;
  block ← decodeBlock wire;
  _ ← isBlock block number;
  mret block.

Definition batchBlocks (numbers : list Z) : Wire (list Block) :=
  results ← callBatch ((λ n, ethGetBlockByNumber (quantity n)) <$> numbers);
  lift (traverse (λ '(n, raw), batchedBlock n raw) (zip numbers results)).

(** One header at a time. *)
Definition blockOf (n : Z) : Wire Block :=
  block ← blockByTag (quantity n);
  _ ← lift (isBlock block n);
  mret block.

Definition setNoBatch : Wire () := modify (λ s,
  setEndpoint i (mkEndpointState (ep_nextID (endpointOf i s)) true) s).

Definition blocksByNumber (numbers : list Z) : Wire (list Block) :=
  noBatch ← gets (λ s, ep_noBatch (endpointOf i s));
  if (noBatch : bool) then mapS blockOf numbers
  else catch (batchBlocks numbers) (λ err,
    match err with
    | errBatchRefused _ => _ ← setNoBatch; mapS blockOf numbers
    | _ => throw err
    end).

(** One log of [getLogs], decoded and held to the filter. *)
Definition filteredLog (address : Address) (topic0 : Hash) (from to : Z) (w : wireLog) : Res chainError eventLog :=
  l ← decodeLog w;
  if negb (bool_decide (el_Address l = address)) then Err (errLogAddress (el_Address l))
  else if negb (bool_decide (head (el_Topics l) = Some topic0)) then Err (errLogTopic (el_BlockNumber l) (el_LogIndex l))
  else if (el_BlockNumber l <? from) || (to <? el_BlockNumber l) then Err (errLogBlock (el_BlockNumber l))
  else mret l.

Definition getLogs (address : Address) (topic0 : Hash) (from to : Z) : Wire (list eventLog) :=
  raw ← callOne (ethGetLogs (quantity from) (quantity to) (AddressString address) (HashString topic0));
  wire ← lift (unmarshalLogs raw);
  out ← lift (traverse (filteredLog address topic0 from to) wire);
  mret (sortLogs out).

Definition ethCallAt (to : Address) (data : list byte) (at_ : Z) : Wire (list byte) :=
  raw ← callOne (ethCall (AddressString to) (hexBytes data) (quantity at_));
  encoded ← lift (unmarshalString raw);
  lift (parseHexBytes encoded).

Definition chainIdOf : Wire Z :=
  raw ← callOne ethChainId;
  encoded ← lift (unmarshalString raw);
  lift (parseQuantity encoded).
End endpoint.
