(* ===== verification/Reader.v ===== *)
(** * What the Engine reads the chain through

    [chain.Reader] as its clients see it: a record of its methods, each of which may
    move the wire on. [ReadsChain] is what a Reader promises of them about one chain, up
    to one tip and whatever the state of the wire; the epoch package's theorems are
    proved against it. *)
From S2P Require Import Prelude Sorts Bytes StateMonad Text Merkle Twab Chain Wire.

(** [Finality] is one of the block tags "latest", "safe" and "finalized". *)
Abbreviation Finality := string.

Record Tip := mkTip {
  tip_Block : Block;
  tip_Finality : Finality;
  tip_Lag : Z;
}.

Record Reader := mkReader {
  rd_Token : Address;
  rd_Distributor : Address;
  rd_PonsFactory : Address;
  rd_BlockByNumber : Z → Wire Block;
  rd_Transfers : Z → Z → Wire (list ChainTransfer);
  rd_Exclusions : Z → Z → Wire (list ChainExclusion);
  rd_Roots : Z → Z → Wire (list RootPosted);
  rd_Ledger : Kind → Z → Z → Wire LedgerBook;
  rd_LaunchCurve : Z → Wire Address;
  rd_EndBlock : Z → Tip → Wire Block;
}.

(** One chain: its headers, the events of the three streams in chain order, and
    what the contracts answer at the tip. *)
Record ChainView := mkChainView {
  cv_block : Z → Block;
  cv_transfers : list ChainTransfer;
  cv_exclusions : list ChainExclusion;
  cv_roots : list RootPosted;
  cv_ledger : Z → LedgerBook;
  cv_curve : Address;
}.

(** An event in the inclusive block range. *)
Definition in_blocks (from to : Z) (s : Site) : Prop := from ≤ site_BlockNumber s ≤ to.
#[global] Instance in_blocks_dec from to s : Decision (in_blocks from to s).
Proof. unfold in_blocks. apply _. Defined.

(** [b] is the last block before the instant [t]. *)
Definition last_before (cv : ChainView) (tip t : Z) (b : Block) : Prop :=
  ∃ n, 0 ≤ n < tip ∧ b = cv_block cv n ∧ b_Timestamp b < t ∧ t ≤ b_Timestamp (cv_block cv (n + 1)).

Class ReadsChain (rd : Reader) (cv : ChainView) (tip : Tip) : Prop := {
  rc_block : ∀ n, 0 ≤ n ≤ b_Number (tip_Block tip) → always (rd_BlockByNumber rd n) (Ok (cv_block cv n));
  rc_transfers : ∀ from to, 0 ≤ from ≤ to → to ≤ b_Number (tip_Block tip) →
    always (rd_Transfers rd from to) (Ok (filter (λ t, in_blocks from to (ct_Site t)) (cv_transfers cv)));
  rc_exclusions : ∀ from to, 0 ≤ from ≤ to → to ≤ b_Number (tip_Block tip) →
    always (rd_Exclusions rd from to) (Ok (filter (λ x, in_blocks from to (ce_Site x)) (cv_exclusions cv)));
  rc_roots : ∀ from to, 0 ≤ from ≤ to → to ≤ b_Number (tip_Block tip) →
    always (rd_Roots rd from to) (Ok (filter (λ r, in_blocks from to (rp_Site r)) (cv_roots cv)));
  rc_ledger : ∀ id, is_u64 id → always (rd_Ledger rd KindEpoch id (b_Number (tip_Block tip))) (Ok (cv_ledger cv id));
  rc_curve : always (rd_LaunchCurve rd (b_Number (tip_Block tip))) (Ok (cv_curve cv));
  rc_end : ∀ id, w_End (WindowOf id) ≤ b_Timestamp (tip_Block tip) →
    b_Timestamp (cv_block cv 0) < w_End (WindowOf id) →
    ∀ w, ∃ b w', rd_EndBlock rd id tip w = (Ok b, w') ∧ last_before cv (b_Number (tip_Block tip)) (w_End (WindowOf id)) b;
}.
