(* ===== verification/Epoch.v ===== *)
(** * epoch: the Engine

    [engine.go], [roots.go] and [deployment.go]. An [Engine] is what New binds and
    never changes; [EngineState] is what its methods remember: the Cache's file, the
    memoized ledger() reads, the loaded history and the forward-only Ledger, with the
    state of the wire its Reader reads from. The progress lines and contexts are not
    modelled. *)
From S2P Require Import Prelude Sorts Bytes StateMonad Text Merkle Twab Alloc Chain Crc Cache Wire Reader.

(** ** deployment.go *)

Record Deployment := mkDeployment {
  dp_ChainID : Z;
  dp_Token : Address;
  dp_Distributor : Address;
  dp_DevWallet : Address;
  dp_PonsFactory : Address;
  dp_TokenBlock : Z;
  dp_DistributorBlock : Z;
}.

Inductive epochError :=
  | ErrNotPinned
  | errNoReader
  | errReaderFor
  | errReaderFactory
  | errNoCacheDir
  | errChain (cause : chainError)
  | errCache (cause : cacheError)
  | errTwab (cause : twabError)
  | errAlloc (cause : allocError)
  | errRootPastTip (id : Z)
  | errRootDiffers (id : Z)
  | errRootNotLogged (id : Z)
  | errPredates (target first : Z)
  | errNoRootPosted.

Definition ponsFactory4663 : Address :=
  [# x7e; xd5; x98; xbc; xef; x8b; xd9; xed; xd8; xc9;
     x7a; x19; x5c; x6d; x13; xf4; x08; x01; xec; x7e].

(** [Pinned]: the fields not named are zero. *)
Definition Pinned : Deployment :=
  mkDeployment 4663 zeroAddress zeroAddress zeroAddress ponsFactory4663 0 0.

(** [Deployment.Check]. *)
Definition CheckDeployment (d : Deployment) : Res epochError () :=
  if (dp_ChainID d =? 0) || bool_decide (dp_Token d = zeroAddress) ||
     bool_decide (dp_Distributor d = zeroAddress) || bool_decide (dp_DevWallet d = zeroAddress) ||
     bool_decide (dp_PonsFactory d = zeroAddress)
  then Err ErrNotPinned else Ok ().

(** ** The Engine *)

Definition DefaultSyncChunk : Z := 2000.

Record EngineOptions := mkEngineOptions { eo_SyncChunk : Z; eo_Fresh : bool }.

Record Engine := mkEngine {
  e_reader : Reader;
  e_tip : Tip;
  e_cacheDir : string;
  e_dep : Deployment;
  e_opts : EngineOptions;
}.

Definition EngineNew (reader : option Reader) (tip : Tip) (cacheDir : string) (dep : Deployment)
    (opts : EngineOptions) : Res epochError Engine :=
  match reader with
  | None => Err errNoReader
  | Some reader =>
      _ ← CheckDeployment dep;
      if negb (bool_decide (rd_Token reader = dp_Token dep)) ||
         negb (bool_decide (rd_Distributor reader = dp_Distributor dep))
      then Err errReaderFor
      else if negb (bool_decide (rd_PonsFactory reader = dp_PonsFactory dep)) then Err errReaderFactory
      else if decide (cacheDir = EmptyString) then Err errNoCacheDir
      else
        let chunk := if eo_SyncChunk opts <=? 0 then DefaultSyncChunk else eo_SyncChunk opts in
        mret (mkEngine reader tip cacheDir dep (mkEngineOptions chunk (eo_Fresh opts)))
  end.

(** [epoch.Synced]. *)
Record EngineSynced := mkEngineSynced {
  es_Dir : string;
  es_Records : nat;
  es_Through : Z;
  es_Appended : Z;
  es_Reorg : option Reorg;
  es_Repaired : string;
}.

Record EngineState := mkEngineState {
  st_wire : wireState;         (* what the Reader's endpoints remember *)
  st_disk : list byte;
  st_ledgers : gmap Z LedgerBook;
  st_synced : option EngineSynced;
  st_loaded : bool;
  st_history : list Transfer;
  st_exclusions : list ChainExclusion;
  st_replayables : list Exclusion;
  st_ledger : option Ledger;
  st_floor : Z;
  st_first : option Z;
}.

(** A new Engine over a Cache file with these bytes. *)
Definition newEngineState (disk : list byte) (w : wireState) : EngineState :=
  mkEngineState w disk ∅ None false [] [] [] None 0 None.

(** The assignments to the Engine's fields. *)
Definition setWire (w : wireState) (s : EngineState) : EngineState :=
  mkEngineState w (st_disk s) (st_ledgers s) (st_synced s) (st_loaded s) (st_history s)
    (st_exclusions s) (st_replayables s) (st_ledger s) (st_floor s) (st_first s).
Definition setLedgers (ls : gmap Z LedgerBook) (s : EngineState) : EngineState :=
  mkEngineState (st_wire s) (st_disk s) ls (st_synced s) (st_loaded s) (st_history s)
    (st_exclusions s) (st_replayables s) (st_ledger s) (st_floor s) (st_first s).
Definition setSynced (disk : list byte) (synced : option EngineSynced) (history : list Transfer)
    (s : EngineState) : EngineState :=
  mkEngineState (st_wire s) disk (st_ledgers s) synced (st_loaded s) history (st_exclusions s)
    (st_replayables s) (st_ledger s) (st_floor s) (st_first s).
Definition setLoaded (xs : list ChainExclusion) (rs : list Exclusion) (s : EngineState) : EngineState :=
  mkEngineState (st_wire s) (st_disk s) (st_ledgers s) (st_synced s) true (st_history s) xs rs (st_ledger s)
    (st_floor s) (st_first s).
Definition setLedger (l : option Ledger) (floor : Z) (s : EngineState) : EngineState :=
  mkEngineState (st_wire s) (st_disk s) (st_ledgers s) (st_synced s) (st_loaded s) (st_history s)
    (st_exclusions s) (st_replayables s) l floor (st_first s).
Definition setFirst (first : Z) (s : EngineState) : EngineState :=
  mkEngineState (st_wire s) (st_disk s) (st_ledgers s) (st_synced s) (st_loaded s) (st_history s)
    (st_exclusions s) (st_replayables s) (st_ledger s) (st_floor s) (Some first).

Abbreviation Amounts5 := (vec (option Z) 5).
Definition zeroAmounts : Amounts5 := vreplicate 5 (Some 0).

(** [new(big.Int).Add(x, y)], which panics on a nil. *)
Definition bigAdd {E} (x y : option Z) : Res E (option Z) :=
  match x, y with Some x, Some y => Ok (Some (x + y)) | _, _ => Fault GoPanic end.

Record EngineAllocation := mkEngineAllocation {
  ea_Account : Address;
  ea_Amounts : vec Z 5;
  ea_TWAB : Z;
  ea_MultBps : Z;
  ea_Weight : Z;
  ea_LeafIndex : nat;
}.

(** [epoch.Result]. *)
Record EngineResult := mkEngineResult {
  er_EpochID : Z;
  er_Window : Window;
  er_Finality : Finality;
  er_EndBlock : option Block;
  er_Skipped : bool;
  er_Funded : Amounts5;
  er_CarryIn : Amounts5;
  er_ExpectedCarryIn : Amounts5;
  er_CarryFrom : string;
  er_Posted : option RootPosted;
  er_Totals : vec Z 5;
  er_CarryOut : vec Z 5;
  er_TotalWeight : Z;
  er_Excluded : list Address;
  er_HasRoot : bool;
  er_Root : Hash;
  er_Tree : option Tree;
  er_Allocations : list EngineAllocation;
}.

Definition setEndBlock (b : Block) (r : EngineResult) : EngineResult :=
  mkEngineResult (er_EpochID r) (er_Window r) (er_Finality r) (Some b) (er_Skipped r) (er_Funded r)
    (er_CarryIn r) (er_ExpectedCarryIn r) (er_CarryFrom r) (er_Posted r) (er_Totals r) (er_CarryOut r)
    (er_TotalWeight r) (er_Excluded r) (er_HasRoot r) (er_Root r) (er_Tree r) (er_Allocations r).

(** [Repair.String]. *)
Definition repairString (r : Repair) : string :=
  ("cache: " +:+ rep_Reason r +:+ " at record " +:+ decimal (Z.of_nat (rep_At r)) +:+ "; kept " +:+
   decimal (Z.of_nat (rep_Kept r)) +:+ " records through block " +:+ decimal (rep_LastGoodBlock r) +:+
   " and dropped " +:+ decimal (Z.of_nat (rep_Dropped r)) +:+ ", which the next sync refetches")%string.

(** [carrySource]. *)
Definition carrySource (base : string) (skipped : Z) : string :=
  if skipped =? 0 then base
  else if skipped =? 1 then (base +:+ " + the funding of 1 skipped Epoch")%string
  else (base +:+ " + the funding of " +:+ decimal skipped +:+ " skipped Epochs")%string.

Definition carryOutOf (id : Z) : string := ("carryOut of epoch " +:+ decimal id)%string.

(** A searched page, newest first, until [want] accepts a log. [want] may remember
    something from one log to the next. *)
Fixpoint firstWanted {B} (want : B → RootPosted → StM EngineState epochError (bool * B))
    (logs : list RootPosted) (b : B) : StM EngineState epochError (option RootPosted * B) :=
  match logs with
  | [] => mret (None, b)
  | r :: logs =>
      '(ok, b) ← want b r;
      if (ok : bool) then mret (Some r, b) else firstWanted want logs b
  end.

Definition searchSpan : Z := 40000.
Definition MaxUint64 : Z := 2 ^ 64 - 1.

(** The span doubles with every page, so 64 pages reach below any block number. *)
Definition searchFuel : nat := 64.

Definition sameRoot (a b : Hash) : bool := bool_decide (a = b).

Definition isEpochRoot (p : RootPosted) : bool :=
  match rp_Kind p with KindEpoch => true | KindDraw => false end.

Section engine.
Context (keccak256 : list byte → Hash) (e : Engine).

Abbreviation M := (StM EngineState epochError).

Definition tipNumber : Z := b_Number (tip_Block (e_tip e)).

(** A call of the Reader. *)
Definition read {A} (m : Wire A) : M A := λ s,
  let '(r, w) := m (st_wire s) in (wrap errChain r, setWire w s).

(** ** roots.go: the book *)

(** [book.ledger]. *)
Definition bookLedger (id : Z) : M LedgerBook :=
  known ← gets (λ s, st_ledgers s !! id);
  match known with
  | Some l => mret l
  | None =>
      l ← read (rd_Ledger (e_reader e) KindEpoch id tipNumber);
      _ ← modify (λ s, setLedgers (<[id := l]> (st_ledgers s)) s);
      mret l
  end.

(** [book.addFunding]. *)
Definition addFunding (carry : Amounts5) (id : Z) : M Amounts5 :=
  l ← bookLedger id;
  lift (vtraverseI (λ _ x, bigAdd x.1 x.2) 0 (vzip_with pair carry (lb_Funded l))).

(** [book.stands]. *)
Definition stands (posted : RootPosted) : M bool :=
  l ← bookLedger (rp_ID posted);
  mret (HasRoot l && sameRoot (lb_Root l) (rp_Root posted)).

(** ** roots.go: searching the stream *)

(** The loop of [standingRoot], over the logs newest first. *)
Fixpoint lastRootFor (id : Z) (l : LedgerBook) (logs : list RootPosted) : Res epochError (option RootPosted) :=
  match logs with
  | [] => Err (errRootNotLogged id)
  | r :: logs =>
      if isEpochRoot r && (rp_ID r =? id) then
        if sameRoot (rp_Root r) (lb_Root l) then Ok (Some r) else Err (errRootDiffers id)
      else lastRootFor id l logs
  end.

Definition standingRoot (id from to : Z) : M (option RootPosted) :=
  l ← bookLedger id;
  if negb (HasRoot l) then mret None
  else if to <? from then throw (errRootPastTip id)
  else
    roots ← read (rd_Roots (e_reader e) from to);
    lift (lastRootFor id l (reverse roots)).

(** The pages of [searchBack] from block [hi] down. *)
Fixpoint searchPages {B} (want : B → RootPosted → M (bool * B)) (fuel : nat) (floor hi span : Z) (b : B)
    : M (option RootPosted) :=
  if hi <? floor then mret None
  else
    match fuel with
    | O => lift (Fault OutOfFuel)
    | S fuel =>
        let lo := if span <? hi - floor then hi - span else floor in
        roots ← read (rd_Roots (e_reader e) lo hi);
        '(found, b) ← firstWanted want (reverse roots) b;
        match found with
        | Some r => mret (Some r)
        | None =>
            if lo =? floor then mret None
            else searchPages want fuel floor (lo - 1) (if span <=? MaxUint64 / 2 then span * 2 else span) b
        end
    end.

Definition searchBack {B} (want : B → RootPosted → M (bool * B)) (b : B) : M (option RootPosted) :=
  searchPages want searchFuel (dp_DistributorBlock (e_dep e)) tipNumber searchSpan b.

(** The closure of [previousRoot]: [bound] is lowered past a voided Root. *)
Definition wantPrevious (bound : Z) (posted : RootPosted) : M (bool * Z) :=
  if negb (isEpochRoot posted) || (bound <=? rp_ID posted) then mret (false, bound)
  else
    ok ← stands posted;
    mret (ok, if (ok : bool) then bound else rp_ID posted).

Definition previousRoot (target : Z) : M (option RootPosted) := searchBack wantPrevious target.

Definition wantLatest (b : ()) (posted : RootPosted) : M (bool * ()) :=
  if negb (isEpochRoot posted) then mret (false, b)
  else ok ← stands posted; mret (ok, b).

(** [Engine.Latest]. *)
Definition LatestRoot : M Z :=
  found ← searchBack wantLatest ();
  match found with
  | Some posted => mret (rp_ID posted)
  | None => throw errNoRootPosted
  end.

(** One turn of the loop of [standingRoots]. *)
Definition standingStep (first last : Z) (out : gmap Z RootPosted) (posted : RootPosted) : M (gmap Z RootPosted) :=
  if negb (isEpochRoot posted) || (rp_ID posted <? first) || (last <=? rp_ID posted) then mret out
  else
    ok ← stands posted;
    mret (if (ok : bool) then <[rp_ID posted := posted]> out else delete (rp_ID posted) out).

Definition standingRoots (first last : Z) : M (gmap Z RootPosted) :=
  roots ← read (rd_Roots (e_reader e) (dp_DistributorBlock (e_dep e)) tipNumber);
  foldS (standingStep first last) roots ∅.

(** [Engine.deployEpoch]. *)
Definition deployEpoch : M Z :=
  known ← gets st_first;
  match known with
  | Some first => mret first
  | None =>
      deployed ← read (rd_BlockByNumber (e_reader e) (dp_DistributorBlock (e_dep e)));
      let first := u64 (Z.quot (b_Timestamp deployed) EpochSeconds) in
      _ ← modify (setFirst first);
      mret first
  end.

(** ** engine.go: the Cache and the history *)

Definition cacheOptions (fresh : bool) : Options :=
  mkOptions (dp_ChainID (e_dep e)) (dp_Token (e_dep e)) (dp_TokenBlock (e_dep e)) fresh.

(** The Reader as the Cache's Source. *)
Definition readerSource : Source wireState := mkSource (rd_Transfers (e_reader e)) (rd_BlockByNumber (e_reader e)).

(** A record in the rules' type. *)
Definition toTransfer (r : CacheRecord) : Transfer :=
  mkTransfer (rec_Timestamp r) (rec_From r) (rec_To r) (rec_Value r).

(** The second half of [Engine.sync]: the records read back from the closed file. *)
Definition readBack (disk : list byte) : Res epochError (list Transfer) * list byte :=
  match Open_ disk (cacheOptions false) with
  | Ok c =>
      match Each (λ history r, Ok (history ++ [toTransfer r])) [] c with
      | Ok (history, c) => (Ok history, Close c)
      | Err x => (Err (errCache x), Close c)
      | Fault x => (Fault x, Close c)
      end
  | Err x => (Err (errCache x), disk)
  | Fault x => (Fault x, disk)
  end.

(** [Engine.sync]: the report, the history and the file it leaves, and the wire. *)
Definition syncCache (disk : list byte) (w : wireState)
    : EngineSynced * Res epochError (list Transfer) * list byte * wireState :=
  let status := mkEngineSynced (e_cacheDir e) 0 0 0 None "" in
  match Open_ disk (cacheOptions (eo_Fresh (e_opts e))) with
  | Err x => (status, Err (errCache x), disk, w)
  | Fault x => (status, Fault x, disk, w)
  | Ok c =>
      let repaired := match k_repaired c with Some r => repairString r | None => EmptyString end in
      let '(synced, c, r, w) := Sync readerSource (tip_Block (e_tip e)) (u64 (eo_SyncChunk (e_opts e))) c w in
      let status := mkEngineSynced (e_cacheDir e) 0 0 (sy_Appended synced) (sy_Reorg synced) repaired in
      let disk := Close c in
      match r with
      | Err x => (status, Err (errCache x), disk, w)
      | Fault x => (status, Fault x, disk, w)
      | Ok _ =>
          let through := match Last c with Some r => rec_BlockNumber r | None => 0 end in
          let status := mkEngineSynced (e_cacheDir e) (CacheLen c) through (sy_Appended synced)
                          (sy_Reorg synced) repaired in
          let '(history, disk) := readBack disk in
          (status, history, disk, w)
      end
  end.

(** [Engine.Sync]: the report comes back on an error too. *)
Definition EngineSync (s : EngineState) : EngineSynced * Res epochError () * EngineState :=
  match st_synced s with
  | Some status => (status, Ok (), s)
  | None =>
      let '(status, history, disk, w) := syncCache (st_disk s) (st_wire s) in
      let s := setWire w s in
      match history with
      | Ok history => (status, Ok (), setSynced disk (Some status) history s)
      | Err x => (status, Err x, setSynced disk None (st_history s) s)
      | Fault x => (status, Fault x, setSynced disk None (st_history s) s)
      end
  end.

(** [Engine.load]. *)
Definition loadHistory : M () :=
  loaded ← gets st_loaded;
  if (loaded : bool) then mret ()
  else
    _ ← (λ s, let '(_, r, s) := EngineSync s in (r, s)) : M ();
    stream ← read (rd_Exclusions (e_reader e) (dp_DistributorBlock (e_dep e)) tipNumber);
    curve ← read (rd_LaunchCurve (e_reader e) tipNumber);
    let stream := stream ++ [mkChainExclusion (mkSite (dp_TokenBlock (e_dep e)) zeroHash 0 0) curve] in
    let replayables := (λ x, mkExclusion (site_Timestamp (ce_Site x)) (ce_Account x)) <$> stream in
    modify (setLoaded stream replayables).

(** [Engine.holders]. *)
Definition engineHolders (id : Z) : M (list Holder) := λ s,
  let ledger :=
    match st_ledger s with
    | Some l => if id <? st_floor s then NewLedger (st_history s) (st_replayables s) else l
    | None => NewLedger (st_history s) (st_replayables s)
    end in
  let '(r, ledger) := Advance ledger id in
  match r with
  | Ok hs => (Ok hs, setLedger (Some ledger) (u64 (id + 1)) s)
  | Err x => (Err (errTwab x), setLedger (Some ledger) (st_floor s) s)
  | Fault x => (Fault x, setLedger (Some ledger) (st_floor s) s)
  end.

(** ** engine.go: one Epoch *)

(** One row of the Result: [TreeIndex] of the row's leaf when there is a tree. *)
Definition resultRow (tree : option Tree) (i : nat) (a : Allocation) : Res epochError EngineAllocation :=
  leaf ← match tree with
         | Some t => wrap (λ x, errAlloc (errEpoch 0 x)) (TreeIndex t i)
         | None => Ok 0%nat
         end;
  mret (mkEngineAllocation (a_Account a) (a_Amounts a) (a_TWAB a) (a_MultBps a) (a_Weight a) leaf).

(** [Engine.compute]. *)
Definition computeEpoch (id : Z) (posted : option RootPosted) (expected : Amounts5) (from : string)
    : M EngineResult :=
  ledger ← bookLedger id;
  let carryIn := match posted with Some p => rp_CarryIn p | None => expected end in
  holders ← engineHolders id;
  computed ← lift (wrap errAlloc (Allocate keccak256
    (mkParams id [] [] (dp_DevWallet (e_dep e)) (lb_Funded ledger) carryIn) holders));
  exclusions ← gets st_exclusions;
  rows ← lift (traverseI (resultRow (res_Tree computed)) 0 (res_Allocations computed));
  mret (mkEngineResult id (WindowOf id) (tip_Finality (e_tip e)) None (lb_Skipped ledger) (lb_Funded ledger)
    carryIn expected from posted (res_Totals computed) (res_CarryOut computed) (res_TotalWeight computed)
    (ChainExcludedAsOf id exclusions) (res_HasRoot computed) (res_Root computed) (res_Tree computed) rows).

(** [carryOver]: the funding of every Epoch in [from, to). *)
Definition carryOver (carry : Amounts5) (from to : Z) (source : string) : M (Amounts5 * string) :=
  '(carry, skipped) ← foldS (λ '(carry, skipped) id,
      carry ← addFunding carry id; mret (carry, skipped + 1)) (seqZ from (to - from)) (carry, 0);
  mret (carry, carrySource source skipped).

Definition expectedCarry (target : Z) : M (Amounts5 * string) :=
  previous ← previousRoot target;
  match previous with
  | None =>
      first ← deployEpoch;
      if target <? first then throw (errPredates target first)
      else carryOver zeroAmounts first target "nothing before deploy"
  | Some p =>
      result ← computeEpoch (rp_ID p) (Some p) (rp_CarryIn p) "its own posted carryIn";
      carryOver (vmap Some (er_CarryOut result)) (u64 (rp_ID p + 1)) target (carryOutOf (rp_ID p))
  end.

(** [Engine.Compute]. *)
Definition EngineCompute (id : Z) : M EngineResult :=
  endBlock ← read (rd_EndBlock (e_reader e) id (e_tip e));
  _ ← loadHistory;
  '(expected, from) ← expectedCarry id;
  posted ← standingRoot id (u64 (b_Number endBlock + 1)) tipNumber;
  result ← computeEpoch id posted expected from;
  mret (setEndBlock endBlock result).

(** What the loop of Walk carries from one Epoch to the next. *)
Record walkState := mkWalkState {
  ws_carry : Amounts5;
  ws_from : string;
  ws_skipped : Z;
  ws_out : list EngineResult;
}.

(** One turn of the loop of [Engine.Walk]. *)
Definition walkStep (standing : gmap Z RootPosted) (w : walkState) (id : Z) : M walkState :=
  match standing !! id with
  | None =>
      carry ← addFunding (ws_carry w) id;
      mret (mkWalkState carry (ws_from w) (ws_skipped w + 1) (ws_out w))
  | Some posted =>
      link ← computeEpoch id (Some posted) (ws_carry w) (carrySource (ws_from w) (ws_skipped w));
      mret (mkWalkState (vmap Some (er_CarryOut link)) (carryOutOf id) 0 (ws_out w ++ [link]))
  end.

(** [Engine.Walk]. *)
Definition Walk (target : Z) : M (list EngineResult) :=
  endBlock ← read (rd_EndBlock (e_reader e) target (e_tip e));
  _ ← loadHistory;
  first ← deployEpoch;
  if target <? first then throw (errPredates target first)
  else
    standing ← standingRoots first target;
    w ← foldS (walkStep standing) (seqZ first (target - first))
          (mkWalkState zeroAmounts "nothing before deploy" 0 []);
    posted ← standingRoot target (u64 (b_Number endBlock + 1)) tipNumber;
    last ← computeEpoch target posted (ws_carry w) (carrySource (ws_from w) (ws_skipped w));
    mret (ws_out w ++ [setEndBlock endBlock last]).
End engine.
