(* ===== verification/RootStream.v ===== *)
(** * The Distributor's Roots and the stream that logs them

    [posts] is the contract's rule as a step relation: an Epoch's Root is posted
    above the newest standing one, and only the newest can be voided. What a search
    of the stream finds is stated against the stack of standing Roots it leaves. *)
From S2P Require Import Prelude Sorts Bytes Text Merkle Twab Chain Cache Epoch.

(** The logs in chain order, and the standing Roots, newest first. *)
Inductive posts : list RootPosted → list RootPosted → Prop :=
  | posts_deploy : posts [] []
  | posts_post logs stack r :
      posts logs stack → Forall (λ x, rp_ID x < rp_ID r) stack → posts (logs ++ [r]) (r :: stack)
  | posts_void logs stack r : posts logs (r :: stack) → posts logs stack.

(** What ledger() says of every Epoch when these Roots stand. *)
Record agrees (ledger : Z → LedgerBook) (stack : list RootPosted) : Prop := Agrees {
  ag_has : ∀ id, is_u64 id → HasRoot (ledger id) = true ↔ ∃ r, r ∈ stack ∧ rp_ID r = id;
  ag_root : ∀ r, r ∈ stack → lb_Root (ledger (rp_ID r)) = rp_Root r;
}.

(** Whether a log is the standing Root of its Epoch. *)
Definition standing_log (ledger : Z → LedgerBook) (r : RootPosted) : bool :=
  HasRoot (ledger (rp_ID r)) && sameRoot (lb_Root (ledger (rp_ID r))) (rp_Root r).

Lemma posts_sorted logs stack : posts logs stack → StronglySorted (λ x y, rp_ID y < rp_ID x) stack.
Proof.
  induction 1 as [|logs stack r _ IH Hr|logs stack r _ IH]; [constructor|by constructor|].
  by inversion IH.
Qed.

Lemma posts_subseteq logs stack : posts logs stack → stack ⊆ logs.
Proof. induction 1; set_solver. Qed.

(** The last log either heads the stack or is gone from it with all above it. *)
Lemma posts_snoc logs r stack :
  posts (logs ++ [r]) stack →
  ∃ before, posts logs before ∧ Forall (λ x, rp_ID x < rp_ID r) before ∧ stack `suffix_of` r :: before.
Proof.
  remember (logs ++ [r]) as all eqn:Hall. intros H. revert logs r Hall.
  induction H as [|logs' stack r' H IH Hr'|logs' stack r' H IH]; intros logs r Hall.
  - by destruct logs.
  - apply app_inj_tail in Hall as [-> ->]. by exists stack.
  - destruct (IH logs r Hall) as (before & ? & ? & Hs). exists before. split; [done|]. split; [done|].
    etrans; [|exact Hs]. by exists [r'].
Qed.

Lemma suffix_cons_inv {A} (l k : list A) x : l `suffix_of` x :: k → l = x :: k ∨ l `suffix_of` k.
Proof.
  intros [p Hp]. destruct p as [|y p]; [by left|]. injection Hp as -> ->. right. by exists p.
Qed.

Lemma suffix_Forall {A} (P : A → Prop) (l k : list A) : l `suffix_of` k → Forall P k → Forall P l.
Proof. intros [p ->] H. by apply Forall_app in H as [_ ?]. Qed.

(** ** Searching newest first *)

(** The first log a remembering predicate accepts. *)
Fixpoint firstAccepted {B} (g : B → RootPosted → bool * B) (logs : list RootPosted) (b : B)
    : option RootPosted * B :=
  match logs with
  | [] => (None, b)
  | r :: logs => let '(ok, b) := g b r in if ok then (Some r, b) else firstAccepted g logs b
  end.

Lemma firstAccepted_app {B} (g : B → RootPosted → bool * B) l k b :
  firstAccepted g (l ++ k) b =
  match firstAccepted g l b with (Some r, b) => (Some r, b) | (None, b) => firstAccepted g k b end.
Proof. revert b. induction l as [|r l IH]; intros b; cbn; [done|]. destruct (g b r) as [[] b']; [done|apply IH]. Qed.

(** Logs a predicate passes over without remembering anything may be dropped. *)
Lemma firstAccepted_filter {B} (g : B → RootPosted → bool * B) (P : RootPosted → Prop) `{!∀ r, Decision (P r)} l b :
  (∀ b r, ¬ P r → g b r = (false, b)) → firstAccepted g (filter P l) b = firstAccepted g l b.
Proof.
  intros Hg. revert b. induction l as [|r l IH]; intros b; [done|]. rewrite filter_cons.
  destruct (decide (P r)) as [|Hr]; cbn [firstAccepted]; [by destruct (g b r) as [[] b']|].
  by rewrite Hg.
Qed.

Definition is_epoch (r : RootPosted) : Prop := rp_Kind r = KindEpoch.
#[global] Instance is_epoch_dec r : Decision (is_epoch r).
Proof. unfold is_epoch. apply _. Defined.

Lemma isEpochRoot_spec r : isEpochRoot r = true ↔ is_epoch r.
Proof. unfold isEpochRoot, is_epoch. by destruct (rp_Kind r). Qed.

(** An Epoch's Root as the Distributor logs it: its id is a uint64. *)
Definition epoch_log (r : RootPosted) : Prop := is_epoch r ∧ is_u64 (rp_ID r).

Section search.
Context (ledger : Z → LedgerBook).

(** The closures of [previousRoot] and [Latest] against this ledger. *)
Definition acceptPrevious (bound : Z) (r : RootPosted) : bool * Z :=
  if negb (isEpochRoot r) || (bound <=? rp_ID r) then (false, bound)
  else (standing_log ledger r, if standing_log ledger r then bound else rp_ID r).
Definition acceptLatest (b : ()) (r : RootPosted) : bool * () :=
  if negb (isEpochRoot r) then (false, b) else (standing_log ledger r, b).

Lemma standing_here stack r : is_u64 (rp_ID r) → agrees ledger stack → r ∈ stack → standing_log ledger r = true.
Proof.
  intros Hu [Hhas Hroot] Hr. unfold standing_log, sameRoot. rewrite (proj2 (Hhas (rp_ID r) Hu)) by by exists r.
  by rewrite Hroot, bool_decide_eq_true_2.
Qed.

Lemma standing_gone stack r : is_u64 (rp_ID r) → agrees ledger stack → (∀ x, x ∈ stack → rp_ID x ≠ rp_ID r) → standing_log ledger r = false.
Proof.
  intros Hu [Hhas _] Hr. unfold standing_log. destruct (HasRoot (ledger (rp_ID r))) eqn:E; [|done].
  apply (Hhas _ Hu) in E as (x & Hx & Hid). by destruct (Hr x Hx).
Qed.

(** Reading back the logs that left [stack], of which [below] survives to the end,
    finds the newest of [below] under the bound: the Roots posted later, [above],
    are at or over it. *)
Lemma acceptPrevious_spec logs : ∀ stack above below bound,
  posts logs stack → Forall epoch_log logs → agrees ledger (above ++ below) → below `suffix_of` stack →
  Forall (λ x, bound ≤ rp_ID x) above →
  (firstAccepted acceptPrevious (reverse logs) bound).1 = head (filter (λ r, rp_ID r < bound) below).
Proof.
  induction logs as [|r logs IH] using rev_ind; intros stack above below bound Hp He Hag Hsuf Hab.
  { apply posts_subseteq in Hp. assert (stack = []) as -> by (destruct stack; [done|set_solver]).
    destruct Hsuf as [p Hnil]. symmetry in Hnil. by apply app_nil in Hnil as [_ ->]. }
  apply posts_snoc in Hp as (before & Hp & Hlt & Hs). apply Forall_app in He as [He [[Hr Hu] _]%Forall_cons].
  rewrite reverse_snoc. cbn [firstAccepted]. unfold acceptPrevious at 1.
  apply isEpochRoot_spec in Hr. rewrite Hr. cbn [negb orb].
  assert (below = r :: before ∨ below `suffix_of` before) as [->|Hsuf'].
  { apply suffix_cons_inv. by etrans. }
  - assert (r ∈ above ++ r :: before) as Hin by set_solver. destruct (Z.leb_spec bound (rp_ID r)) as [Hge|Hlt'].
    + rewrite filter_cons_False by lia. apply (IH before (above ++ [r]) before); try done.
      * by rewrite <-app_assoc.
      * apply Forall_app. by repeat constructor.
    + rewrite (standing_here _ r Hu Hag Hin). by rewrite filter_cons_True.
  - pose proof (suffix_Forall _ _ _ Hsuf' Hlt) as Hbelow. rewrite Forall_forall in Hbelow, Hab.
    destruct (Z.leb_spec bound (rp_ID r)) as [Hge|Hlt'].
    + apply (IH before above below); try done. by apply Forall_forall.
    + rewrite (standing_gone _ r Hu Hag).
      2:{ intros x [Hx|Hx]%elem_of_app; [specialize (Hab x Hx)|specialize (Hbelow x Hx)]; lia. }
      rewrite (IH before above below (rp_ID r)); try done.
      * f_equal. rewrite !filter_all; [done|..]; apply Forall_forall; intros x Hx; specialize (Hbelow x Hx); lia.
      * apply Forall_forall. intros x Hx. specialize (Hab x Hx). lia.
Qed.

Lemma acceptLatest_spec logs : ∀ stack below,
  posts logs stack → Forall epoch_log logs → agrees ledger below → below `suffix_of` stack →
  (firstAccepted acceptLatest (reverse logs) ()).1 = head below.
Proof.
  induction logs as [|r logs IH] using rev_ind; intros stack below Hp He Hag Hsuf.
  { apply posts_subseteq in Hp. assert (stack = []) as -> by (destruct stack; [done|set_solver]).
    destruct Hsuf as [p Hnil]. symmetry in Hnil. by apply app_nil in Hnil as [_ ->]. }
  apply posts_snoc in Hp as (before & Hp & Hlt & Hs). apply Forall_app in He as [He [[Hr Hu] _]%Forall_cons].
  rewrite reverse_snoc. cbn [firstAccepted]. unfold acceptLatest at 1.
  apply isEpochRoot_spec in Hr. rewrite Hr. cbn [negb].
  assert (below = r :: before ∨ below `suffix_of` before) as [->|Hsuf'].
  { apply suffix_cons_inv. by etrans. }
  - by rewrite (standing_here _ r Hu Hag) by set_solver.
  - pose proof (suffix_Forall _ _ _ Hsuf' Hlt) as Hbelow. rewrite Forall_forall in Hbelow.
    rewrite (standing_gone _ r Hu Hag) by (intros x Hx; specialize (Hbelow x Hx); lia). by apply (IH before).
Qed.

(** ** Reading the whole stream forward *)

Definition acceptStanding (first last : Z) (out : gmap Z RootPosted) (r : RootPosted) : gmap Z RootPosted :=
  if negb (isEpochRoot r) || (rp_ID r <? first) || (last <=? rp_ID r) then out
  else if standing_log ledger r then <[rp_ID r := r]> out else delete (rp_ID r) out.

(** The standing Roots of a range, by Epoch. *)
Definition is_standing_map (first last : Z) (stack : list RootPosted) (out : gmap Z RootPosted) (id : Z) : Prop :=
  ∀ r, out !! id = Some r ↔ r ∈ stack ∧ rp_ID r = id ∧ first ≤ id < last.

Lemma acceptStanding_lookup first last out r id :
  is_epoch r → acceptStanding first last out r !! id =
  if decide (rp_ID r = id ∧ first ≤ id < last)
  then (if standing_log ledger r then Some r else None) else out !! id.
Proof.
  intros Hr%isEpochRoot_spec. unfold acceptStanding. rewrite Hr. cbn [negb orb].
  destruct (Z.ltb_spec (rp_ID r) first), (Z.leb_spec last (rp_ID r)); cbn [orb];
    destruct (decide (rp_ID r = id ∧ first ≤ id < last)) as [[<- ?]|Hn]; try lia; try done.
  - destruct (standing_log ledger r); [apply lookup_insert_eq|apply lookup_delete_eq].
  - assert (rp_ID r ≠ id) by lia.
    destruct (standing_log ledger r); [by apply lookup_insert_ne|by apply lookup_delete_ne].
Qed.

Lemma acceptStanding_spec first last logs : ∀ stack above below,
  posts logs stack → Forall epoch_log logs → agrees ledger (above ++ below) → below `suffix_of` stack →
  ∀ id, (∀ x, x ∈ above → rp_ID x ≠ id) →
  is_standing_map first last below (foldl (acceptStanding first last) ∅ logs) id.
Proof.
  induction logs as [|r logs IH] using rev_ind; intros stack above below Hp He Hag Hsuf id Hid.
  { apply posts_subseteq in Hp. assert (stack = []) as -> by (destruct stack; [done|set_solver]).
    destruct Hsuf as [p Hnil]. symmetry in Hnil. apply app_nil in Hnil as [_ ->].
    intros r. cbn. rewrite lookup_empty. set_solver. }
  apply posts_snoc in Hp as (before & Hp & Hlt & Hs). apply Forall_app in He as [He [[Hr Hu] _]%Forall_cons].
  intros x. rewrite foldl_app. cbn [foldl]. rewrite acceptStanding_lookup by done.
  assert (below = r :: before ∨ below `suffix_of` before) as [->|Hsuf'].
  { apply suffix_cons_inv. by etrans. }
  - rewrite Forall_forall in Hlt. destruct (decide (rp_ID r = id ∧ first ≤ id < last)) as [[Heq Hrange]|Hn].
    + rewrite (standing_here _ r Hu Hag) by set_solver. split; [intros [= ->]; split; [set_solver|done]|].
      intros ([->|Hx]%elem_of_cons & Hxid & _); [done|]. specialize (Hlt x Hx). lia.
    + destruct (decide (rp_ID r = id)) as [Heq|Hne].
      * assert (¬ first ≤ id < last) as Hout by tauto.
        split; [|tauto]. intros Hx. exfalso.
        assert (∀ l m, Forall epoch_log l → m !! id = None → foldl (acceptStanding first last) m l !! id = None) as Hnone.
        { clear -Hout. induction l as [|y l IHl]; intros m Hl Hm; [done|]. apply Forall_cons in Hl as [[Hy _] Hl]. cbn [foldl].
          apply IHl; [done|]. rewrite acceptStanding_lookup by done. by rewrite decide_False by tauto. }
        by rewrite Hnone in Hx.
      * assert (is_standing_map first last before (foldl (acceptStanding first last) ∅ logs) id) as Hm.
        { apply (IH before (above ++ [r]) before Hp He); [by rewrite <-app_assoc|done|].
          intros y [Hy| ->%list_elem_of_singleton]%elem_of_app; [by apply Hid|done]. }
        rewrite (Hm x). split; [set_solver|]. intros ([->|?]%elem_of_cons & ? & ?); [done|by auto].
  - pose proof (suffix_Forall _ _ _ Hsuf' Hlt) as Hbelow. rewrite Forall_forall in Hbelow.
    destruct (decide (rp_ID r = id ∧ first ≤ id < last)) as [[Heq Hrange]|Hn].
    + rewrite (standing_gone _ r Hu Hag).
      2:{ intros y [Hy|Hy]%elem_of_app; [rewrite Heq; by apply Hid|specialize (Hbelow y Hy); lia]. }
      split; [done|]. intros (Hx & Hxid & _). specialize (Hbelow x Hx). lia.
    + by apply (IH before above below).
Qed.

(** ** The log of a standing Root *)

(** Nothing is posted below a standing Root after it. *)
Lemma posts_last logs stack r :
  posts logs stack → r ∈ stack → ∃ l1 l2, logs = l1 ++ r :: l2 ∧ Forall (λ x, rp_ID r < rp_ID x) l2.
Proof.
  intros Hp. revert r. induction Hp as [|logs stack r' Hp IH Hlt|logs stack r' Hp IH]; intros r Hr.
  - set_solver.
  - apply elem_of_cons in Hr as [->|Hr].
    + exists logs, []. done.
    + destruct (IH r Hr) as (l1 & l2 & -> & Hl2). exists l1, (l2 ++ [r']). split; [by rewrite <-app_assoc|].
      apply Forall_app. split; [done|]. rewrite Forall_forall in Hlt. repeat constructor. by apply Hlt.
  - apply IH. set_solver.
Qed.

Lemma lastRootFor_spec logs stack r (P : RootPosted → Prop) `{!∀ r, Decision (P r)} :
  posts (filter is_epoch logs) stack → r ∈ stack → P r → agrees ledger stack →
  lastRootFor (rp_ID r) (ledger (rp_ID r)) (reverse (filter P logs)) = Ok (Some r).
Proof.
  intros Hp Hr HP Hag. destruct (posts_last _ _ _ Hp Hr) as (l1 & l2 & Hl & Hl2).
  assert (is_epoch r) as He.
  { assert (r ∈ filter is_epoch logs) as Hin by (rewrite Hl; set_solver).
    by apply list_elem_of_filter in Hin as [? _]. }
  assert (∀ l, lastRootFor (rp_ID r) (ledger (rp_ID r)) l =
    lastRootFor (rp_ID r) (ledger (rp_ID r)) (filter is_epoch l)) as Hskip.
  { induction l as [|x l IH]; [done|]. rewrite filter_cons. destruct (decide (is_epoch x)) as [Hx|Hx]; cbn [lastRootFor].
    - by rewrite IH.
    - destruct (isEpochRoot x) eqn:E; [by apply isEpochRoot_spec in E|done]. }
  rewrite Hskip, filter_reverse, list_filter_filter.
  rewrite (list_filter_iff _ (λ x, P x ∧ is_epoch x)), <-list_filter_filter, Hl by tauto.
  rewrite filter_app, filter_cons_True, reverse_app, reverse_cons, <-app_assoc by done. cbn [app].
  assert (∀ l k, Forall (λ x, rp_ID r < rp_ID x) l →
    lastRootFor (rp_ID r) (ledger (rp_ID r)) (l ++ r :: k) = Ok (Some r)) as Hpast.
  { intros l k. induction 1 as [|x l Hx _ IH]; cbn [app lastRootFor].
    - apply isEpochRoot_spec in He. rewrite He, Z.eqb_refl. cbn [andb].
      unfold sameRoot. by rewrite (ag_root _ _ Hag) , bool_decide_eq_true_2.
    - rewrite (proj2 (Z.eqb_neq (rp_ID x) (rp_ID r))) by lia. by rewrite andb_false_r. }
  apply Hpast. apply Forall_reverse. rewrite Forall_forall in *. intros x [_ Hx]%list_elem_of_filter. by apply Hl2.
Qed.
End search.
