(* ===== verification/EpochSpec.v ===== *)
(** * One chain, and what the Engine should make of it

    [chain_ok] is what the token and the Distributor guarantee of the chain a Reader
    reads; the rest states, with no memory, what each Engine call answers there. *)
From S2P Require Import Prelude Sorts Bytes Text Merkle Twab TwabSpec TwabLedger Alloc Chain Crc Cache CacheSpec CacheOps CacheSync StateMonad Wire Reader Epoch RootStream.

Definition all_set (v : Amounts5) : Prop := ∀ t, is_Some (v !!! t).

(** The history of a chain as Cache records. *)
Definition chain_records (cv : ChainView) : list CacheRecord := FromTransfer <$> cv_transfers cv.
Definition chain_hash (cv : ChainView) (n : Z) : Hash := b_Hash (cv_block cv n).

(** The Epoch the Distributor was deployed in. *)
Definition deploy_epoch (dep : Deployment) (cv : ChainView) : Z :=
  u64 (Z.quot (b_Timestamp (cv_block cv (dp_DistributorBlock dep))) EpochSeconds).

(** [stack] holds the standing Roots, newest first. *)
Record chain_ok (e : Engine) (cv : ChainView) (stack : list RootPosted) : Prop := ChainOk {
  co_tip : 0 ≤ tipNumber e < 2 ^ 64 - 1 ∧ b_Hash (tip_Block (e_tip e)) ≠ zeroHash;
  co_ids : opts_ok (cacheOptions e false);
  co_deploy : 0 ≤ dp_DistributorBlock (e_dep e) ≤ tipNumber e;
  co_records : Forall record_ok (chain_records cv);
  co_runs : runs (dp_TokenBlock (e_dep e)) (chain_records cv);
  co_hashes : Forall (on_chain (chain_hash cv)) (chain_records cv);
  co_numbers : ∀ n, 0 ≤ n ≤ tipNumber e → b_Number (cv_block cv n) = n;
  co_clock : ∀ n, 0 ≤ n ≤ tipNumber e → 0 ≤ b_Timestamp (cv_block cv n) < 2 ^ 63;
  co_times : ∀ m n, 0 ≤ m ≤ n → b_Timestamp (cv_block cv m) ≤ b_Timestamp (cv_block cv n);
  co_root_order : StronglySorted (λ x y, site_BlockNumber (rp_Site x) ≤ site_BlockNumber (rp_Site y)) (cv_roots cv);
  co_root_range : ∀ r, r ∈ cv_roots cv → in_blocks (dp_DistributorBlock (e_dep e)) (tipNumber e) (rp_Site r);
  co_root_ids : ∀ r, r ∈ cv_roots cv → is_u64 (rp_ID r);
  co_posts : posts (filter is_epoch (cv_roots cv)) stack;
  co_agrees : agrees (cv_ledger cv) stack;
  co_closed : ∀ r, r ∈ stack →
    w_End (WindowOf (rp_ID r)) ≤ b_Timestamp (cv_block cv (site_BlockNumber (rp_Site r)));
  co_first : ∀ r, r ∈ stack → deploy_epoch (e_dep e) cv ≤ rp_ID r;
  co_funded : ∀ id, is_u64 id → all_set (lb_Funded (cv_ledger cv id));
}.

(** The Cache's file opens on the chain's history through some block, followed at
    most by records the chain has taken back. *)
Definition disk_ok (e : Engine) (cv : ChainView) (disk : list byte) : Prop :=
  ∃ c m stale, Open_ disk (cacheOptions e (eo_Fresh (e_opts e))) = Ok c ∧ m ≤ tipNumber e ∧
    Forall (λ r, block r ≤ tipNumber e ∧ ¬ on_chain (chain_hash cv) r) stale ∧
    holds (cacheOptions e false) (filter (λ r, block r ≤ m) (chain_records cv) ++ stale) c.

Section spec.
Context (keccak256 : list byte → Hash) (e : Engine) (cv : ChainView) (stack : list RootPosted).

(** The transfers and exclusions every Epoch is rebuilt from. *)
Definition chain_history : list Transfer :=
  toTransfer <$> filter (λ r, block r ≤ tipNumber e) (chain_records cv).
Definition chain_exclusions : list ChainExclusion :=
  filter (λ x, in_blocks (dp_DistributorBlock (e_dep e)) (tipNumber e) (ce_Site x)) (cv_exclusions cv) ++
  [mkChainExclusion (mkSite (dp_TokenBlock (e_dep e)) zeroHash 0 0) (cv_curve cv)].
Definition chain_replayables : list Exclusion :=
  (λ x, mkExclusion (site_Timestamp (ce_Site x)) (ce_Account x)) <$> chain_exclusions.

(** The rules over one Epoch. *)
Definition rules_params (id : Z) (carryIn : Amounts5) : Params :=
  mkParams id chain_history chain_replayables (dp_DevWallet (e_dep e)) (lb_Funded (cv_ledger cv id)) carryIn.

Definition rebuilt (id : Z) (posted : option RootPosted) (expected : Amounts5) (from : string)
    : Res epochError EngineResult :=
  let ledger := cv_ledger cv id in
  let carryIn := match posted with Some p => rp_CarryIn p | None => expected end in
  hs ← wrap errTwab (Replay id chain_history chain_replayables);
  a ← wrap errAlloc (Allocate keccak256 (rules_params id carryIn) hs);
  rows ← traverseI (resultRow (res_Tree a)) 0 (res_Allocations a);
  mret (mkEngineResult id (WindowOf id) (tip_Finality (e_tip e)) None (lb_Skipped ledger) (lb_Funded ledger)
    carryIn expected from posted (res_Totals a) (res_CarryOut a) (res_TotalWeight a)
    (ChainExcludedAsOf id chain_exclusions) (res_HasRoot a) (res_Root a) (res_Tree a) rows).

(** Carry with the funding of some Epochs added. *)
Definition add_funding (carry : Amounts5) (id : Z) : Amounts5 :=
  vzip_with (λ c f, Some (default 0 c + default 0 f)) carry (lb_Funded (cv_ledger cv id)).
Definition fund_range (carry : Amounts5) (from to : Z) : Amounts5 :=
  foldl add_funding carry (seqZ from (to - from)).

(** The standing Root of an Epoch, and the newest one before it. *)
Definition standing_for (id : Z) : option RootPosted := head (filter (λ r, rp_ID r = id) stack).
Definition previous_of (target : Z) : option RootPosted := head (filter (λ r, rp_ID r < target) stack).

(** What an Epoch's Carry starts from: the amounts, the first Epoch whose funding
    is still to be added, and where they come from. *)
Definition carry_base (target : Z) : Res epochError (Amounts5 * Z * string) :=
  match previous_of target with
  | None =>
      let first := deploy_epoch (e_dep e) cv in
      if target <? first then Err (errPredates target first)
      else Ok (zeroAmounts, first, "nothing before deploy")
  | Some p =>
      r ← rebuilt (rp_ID p) (Some p) (rp_CarryIn p) "its own posted carryIn";
      mret (vmap Some (er_CarryOut r), rp_ID p + 1, carryOutOf (rp_ID p))
  end.

(** The Carry an Epoch should be posted with, and where it comes from. *)
Definition expected_carry (target : Z) : Res epochError (Amounts5 * string) :=
  '(carry, next, source) ← carry_base target;
  mret (fund_range carry next target, carrySource source (target - next)).

(** One Epoch rebuilt, with everything it is compared to. *)
Definition epoch_result (id : Z) : Res epochError EngineResult :=
  '(expected, from) ← expected_carry id;
  rebuilt id (standing_for id) expected from.

(** The Epochs before [target] whose Root stands, oldest first. *)
Definition rooted_before (target : Z) : list Z :=
  filter (λ id, is_Some (standing_for id)) (seqZ (deploy_epoch (e_dep e) cv) (target - deploy_epoch (e_dep e) cv)).

(** The state of an Engine that has only ever read this chain. *)
Record engine_ok (s : EngineState) : Prop := EngineOk {
  eok_ledgers : ∀ id l, st_ledgers s !! id = Some l → l = cv_ledger cv id;
  eok_first : ∀ first, st_first s = Some first → first = deploy_epoch (e_dep e) cv;
  eok_disk : st_synced s = None → disk_ok e cv (st_disk s);
  eok_history : is_Some (st_synced s) → st_history s = chain_history;
  eok_loaded : st_loaded s = true →
    is_Some (st_synced s) ∧ st_exclusions s = chain_exclusions ∧ st_replayables s = chain_replayables;
  eok_ledger : ∀ l, st_ledger s = Some l → st_loaded s = true ∧
    ∃ now pre rest, LInv chain_history chain_replayables (st_floor s) now l pre rest;
}.

(** Such an Engine, before or after its history is loaded. *)
Definition ready (loaded : bool) (s : EngineState) : Prop :=
  engine_ok s ∧ (loaded = true → st_loaded s = true).
End spec.
