(* ===== verification/EpochRefine.v ===== *)
(** * The Engine's calls answer what the chain says

    Over an Engine that has only read one chain, each call answers its memoryless
    specification and leaves such an Engine: the memoized ledgers, the retained
    history and the forward-only Ledger cannot be told from reading afresh. *)
From S2P Require Import Prelude Sorts Bytes Text Merkle Twab TwabSpec TwabLedger Alloc Chain Crc Cache CacheSpec CacheOps CacheSync StateMonad Wire Reader Epoch RootStream EpochSpec.

Lemma vtraverseI_total {E A B n} (f : nat → A → Res E B) (g : A → B) i (v : vec A n) :
  (∀ j, f (i + fin_to_nat j)%nat (v !!! j) = Ok (g (v !!! j))) → vtraverseI f i v = Ok (vmap g v).
Proof. intros Hf. apply vtraverseI_Ok. intros j. by rewrite Hf, vlookup_map. Qed.

Section refine.
Context (keccak256 : list byte → Hash) (e : Engine) (cv : ChainView) (stack : list RootPosted).
Context `{Hreads : !ReadsChain (e_reader e) cv (e_tip e)} (Hchain : chain_ok e cv stack).
Context (loaded : bool).

Abbreviation ok := (ready e cv loaded).
Abbreviation tipN := (tipNumber e).
Abbreviation ledger := (cv_ledger cv).

(** ** The book *)

Lemma engine_ok_ledgers s id :
  ok s → ok (setLedgers (<[id := ledger id]> (st_ledgers s)) s).
Proof.
  intros [[Hl Hf Hd Hh Hx Hg] Hload]. split; [|done]. split; cbn; try done.
  intros id' l [[<- <-]|[_ ?]]%lookup_insert_Some; [done|by apply Hl].
Qed.

Lemma engine_ok_wire w s : ok s → ok (setWire w s).
Proof. intros [[? ? ? ? ? ?] ?]. by split; [split|]. Qed.

Lemma answers_read {A} (m : Wire A) a : always m (Ok a) → answers ok (read m) (Ok a).
Proof.
  intros Hm s Hs. unfold read. destruct (always_run _ _ (st_wire s) Hm) as [w ->].
  eexists. split; [done|]. by apply engine_ok_wire.
Qed.

Lemma answers_bookLedger id : is_u64 id → answers ok (bookLedger e id) (Ok (ledger id)).
Proof using Hreads.
  intros Hid s Hs. unfold bookLedger, tipNumber, gets, mbind, StM_bind. destruct (st_ledgers s !! id) as [l|] eqn:E.
  - exists s. by rewrite (eok_ledgers _ _ _ (proj1 Hs) id l E).
  - destruct (answers_read _ _ (rc_ledger (rd:=e_reader e) (cv:=cv) (tip:=e_tip e) id Hid) s Hs) as (s1 & -> & Hs1).
    eexists. split; [done|]. by apply engine_ok_ledgers.
Qed.

Lemma add_funding_set carry id : all_set (add_funding cv carry id).
Proof. intros t. unfold add_funding. rewrite vlookup_zip_with. by eexists. Qed.

Lemma zeroAmounts_set : all_set zeroAmounts.
Proof. intros t. unfold zeroAmounts. rewrite vlookup_replicate. by eexists. Qed.

Lemma answers_addFunding carry id :
  is_u64 id → all_set carry → answers ok (addFunding e carry id) (Ok (add_funding cv carry id)).
Proof using Hreads Hchain.
  intros Hid Hc. unfold addFunding.
  eapply answers_step; [by apply answers_bookLedger|]. eapply answers_eq; [apply answers_lift|].
  apply vtraverseI_Ok. intros j. unfold add_funding. rewrite !vlookup_zip_with.
  destruct (Hc j) as [c Hcj]. destruct (co_funded _ _ _ Hchain id Hid j) as [f Hf]. cbn [fst snd]. by rewrite Hcj, Hf.
Qed.

Lemma answers_stands r :
  is_u64 (rp_ID r) → answers ok (stands e r) (Ok (standing_log ledger r)).
Proof using Hreads.
  intros Hid. unfold stands. eapply answers_step; [by apply answers_bookLedger|apply answers_ret].
Qed.

(** ** Searching back *)

Lemma answers_firstWanted {B} (want : B → RootPosted → StM EngineState epochError (bool * B))
    (g : B → RootPosted → bool * B) logs b :
  (∀ b r, r ∈ logs → answers ok (want b r) (Ok (g b r))) →
  answers ok (firstWanted want logs b) (Ok (firstAccepted g logs b)).
Proof.
  revert b. induction logs as [|r logs IH]; intros b Hw; cbn [firstWanted firstAccepted]; [apply answers_ret|].
  eapply answers_step; [apply Hw; set_solver|]. destruct (g b r) as [[] b']; [apply answers_ret|].
  apply IH. intros b2 r2 Hr2. apply Hw. set_solver.
Qed.

Definition roots_between (lo hi : Z) : list RootPosted :=
  filter (λ r, in_blocks lo hi (rp_Site r)) (cv_roots cv).

(** A page and the pages below it are one range. *)
Lemma roots_between_split lo mid hi :
  lo ≤ mid + 1 → mid ≤ hi → roots_between lo hi = roots_between lo mid ++ roots_between (mid + 1) hi.
Proof using Hchain.
  intros Hlo Hhi. apply (filter_ranges (λ r, site_BlockNumber (rp_Site r)) _ _ _ lo mid hi); try done. apply (co_root_order _ _ _ Hchain).
Qed.

Lemma answers_searchPages {B} (want : B → RootPosted → StM EngineState epochError (bool * B))
    (g : B → RootPosted → bool * B) fuel : ∀ floor hi span b,
  (∀ b r, r ∈ cv_roots cv → answers ok (want b r) (Ok (g b r))) →
  0 ≤ floor ≤ hi → hi ≤ tipN → 0 < span → hi - floor + 1 ≤ span * (2 ^ Z.of_nat fuel - 1) →
  answers ok (searchPages e want fuel floor hi span b)
    (Ok (firstAccepted g (reverse (roots_between floor hi)) b).1).
Proof using Hreads Hchain.
  induction fuel as [|fuel IH]; intros floor hi span b Hw Hfl Hhi Hspan Hfuel; cbn [searchPages].
  { cbn in Hfuel. lia. }
  rewrite (proj2 (Z.ltb_ge hi floor)) by lia.
  set (lo := if span <? hi - floor then hi - span else floor).
  assert (floor ≤ lo ≤ hi ∧ (lo = floor ∨ lo = hi - span ∧ span < hi - floor)) as [Hlo Hcase].
  { unfold lo. destruct (Z.ltb_spec span (hi - floor)); lia. }
  eapply answers_step; [apply answers_read, rc_roots; unfold tipNumber in *; lia|].
  fold (roots_between lo hi).
  eapply answers_step; [apply (answers_firstWanted want g); intros b' r Hr; apply Hw|].
  { rewrite elem_of_reverse in Hr. by apply list_elem_of_filter in Hr as [_ ?]. }
  destruct (firstAccepted g (reverse (roots_between lo hi)) b) as [found b'] eqn:Hf. destruct (Z.eqb_spec lo floor) as [Hlf|Hne].
  { rewrite Hlf in Hf. rewrite Hf. destruct found; apply answers_ret. }
  destruct Hcase as [?|[Hlo' Hmore]]; [done|].
  rewrite (roots_between_split floor (lo - 1) hi), Z.sub_add, reverse_app, firstAccepted_app, Hf by lia.
  destruct found as [r|]; [apply answers_ret|].
  apply IH; [done|lia|lia|destruct (_ <=? _); lia|].
  rewrite Nat2Z.inj_succ, Z.pow_succ_r in Hfuel by lia.
  pose proof (co_tip _ _ _ Hchain) as [Htip _]. unfold MaxUint64.
  assert (1 ≤ 2 ^ Z.of_nat fuel) as Hpow by (apply (Z.pow_le_mono_r 2 0); lia).
  destruct (Z.leb_spec span ((2 ^ 64 - 1) / 2)) as [_|Hbig]; [nia|].
  change ((2 ^ 64 - 1) / 2) with (2 ^ 63 - 1) in Hbig.
  assert (2 ≤ 2 ^ Z.of_nat fuel) by (destruct fuel; [cbn in Hfuel; lia|rewrite Nat2Z.inj_succ, Z.pow_succ_r by lia; lia]).
  nia.
Qed.

(** The whole stream is searched, in at most 64 pages. *)
Lemma answers_searchBack {B} (want : B → RootPosted → StM EngineState epochError (bool * B))
    (g : B → RootPosted → bool * B) b :
  (∀ b r, r ∈ cv_roots cv → answers ok (want b r) (Ok (g b r))) →
  answers ok (searchBack e want b) (Ok (firstAccepted g (reverse (cv_roots cv)) b).1).
Proof using Hreads Hchain.
  intros Hw. pose proof (co_deploy _ _ _ Hchain). pose proof (co_tip _ _ _ Hchain) as [Htip _].
  assert (roots_between (dp_DistributorBlock (e_dep e)) tipN = cv_roots cv) as <-.
  { apply filter_all, Forall_forall. apply (co_root_range _ _ _ Hchain). }
  apply answers_searchPages; [done|lia|lia|done|].
  change (searchSpan * (2 ^ Z.of_nat searchFuel - 1)) with (40000 * (2 ^ 64 - 1)). lia.
Qed.

Lemma root_id r : r ∈ cv_roots cv → is_u64 (rp_ID r).
Proof using Hchain. apply (co_root_ids _ _ _ Hchain). Qed.

Lemma epoch_logs : Forall epoch_log (filter is_epoch (cv_roots cv)).
Proof using Hchain.
  apply Forall_forall. intros r [He Hr]%list_elem_of_filter. split; [done|by apply (co_root_ids _ _ _ Hchain)].
Qed.

Lemma answers_previousRoot target :
  answers ok (previousRoot e target) (Ok (previous_of stack target)).
Proof using Hreads Hchain.
  eapply answers_eq; [apply (answers_searchBack _ (acceptPrevious ledger))|f_equal].
  - intros b r Hr. unfold wantPrevious, acceptPrevious. destruct (_ || _); [apply answers_ret|].
    eapply answers_step; [apply answers_stands; by apply root_id|apply answers_ret].
  - rewrite <-(firstAccepted_filter _ is_epoch), filter_reverse.
    2:{ intros b r Hr. unfold acceptPrevious. destruct (isEpochRoot r) eqn:E; [by apply isEpochRoot_spec in E|done]. }
    apply (acceptPrevious_spec ledger _ stack [] stack); [apply (co_posts _ _ _ Hchain)| |apply (co_agrees _ _ _ Hchain)|done|constructor].
    apply epoch_logs.
Qed.

Lemma answers_LatestRoot :
  answers ok (LatestRoot e) (match head stack with Some r => Ok (rp_ID r) | None => Err errNoRootPosted end).
Proof using Hreads Hchain.
  unfold LatestRoot. eapply (answers_step _ _ _ (head stack)).
  - eapply answers_eq; [apply (answers_searchBack _ (acceptLatest ledger))|f_equal].
    + intros [] r Hr. unfold wantLatest, acceptLatest. destruct (negb _); [apply answers_ret|].
      eapply answers_step; [apply answers_stands; by apply root_id|apply answers_ret].
    + rewrite <-(firstAccepted_filter _ is_epoch), filter_reverse.
      2:{ intros b r Hr. unfold acceptLatest. destruct (isEpochRoot r) eqn:E; [by apply isEpochRoot_spec in E|done]. }
      apply (acceptLatest_spec ledger _ stack stack); [apply (co_posts _ _ _ Hchain)| |apply (co_agrees _ _ _ Hchain)|done].
      apply epoch_logs.
  - destruct (head stack); [apply answers_ret|apply answers_throw].
Qed.
(** ** The deploy Epoch and the Roots standing from it *)

Lemma answers_deployEpoch : answers ok (deployEpoch e) (Ok (deploy_epoch (e_dep e) cv)).
Proof using Hreads Hchain.
  intros s Hs. unfold deployEpoch, gets, mbind, StM_bind. destruct (st_first s) as [first|] eqn:E.
  - exists s. by rewrite (eok_first _ _ _ (proj1 Hs) first E).
  - pose proof (co_deploy _ _ _ Hchain).
    destruct (answers_read _ _ (rc_block (rd:=e_reader e) (cv:=cv) (tip:=e_tip e) (dp_DistributorBlock (e_dep e))
      ltac:(unfold tipNumber in *; lia)) s Hs) as (s1 & -> & Hs1).
    eexists. split; [done|]. destruct Hs1 as [[Hl Hf Hd Hh Hx Hg] Hload]. split; [|done].
    split; cbn; try done. by intros first [= <-].
Qed.

(** The standing Roots of the Epochs in a range. *)
Lemma answers_standingRoots first last :
  ∃ m, answers ok (standingRoots e first last) (Ok m) ∧
       ∀ id, is_standing_map first last stack m id.
Proof using Hreads Hchain.
  exists (foldl (acceptStanding ledger first last) ∅ (filter is_epoch (cv_roots cv))). split.
  - eapply answers_step.
    { apply (answers_read _ (cv_roots cv)). pose proof (co_deploy _ _ _ Hchain).
      eapply answers_eq; [apply rc_roots; unfold tipNumber in *; lia|]. f_equal.
      apply filter_all, Forall_forall. apply (co_root_range _ _ _ Hchain). }
    eapply answers_eq; [apply (answers_foldS _ _ (λ out r, Ok (acceptStanding ledger first last out r)))|].
    + intros out r Hr. unfold standingStep, acceptStanding. destruct (_ || _); [apply answers_ret|].
      eapply answers_step; [apply answers_stands; by apply root_id|apply answers_ret].
    + generalize (∅ : gmap Z RootPosted). induction (cv_roots cv) as [|r l IH]; intros m; [done|].
      cbn [foldM]. rewrite filter_cons. destruct (decide (is_epoch r)) as [Hr|Hr]; cbn [foldl mbind Res_bind]; [by rewrite IH|].
      rewrite IH. unfold acceptStanding at 2. destruct (isEpochRoot r) eqn:E; [by apply isEpochRoot_spec in E|done].
  - intros id. apply (acceptStanding_spec ledger first last _ stack [] stack);
      [apply (co_posts _ _ _ Hchain)| |apply (co_agrees _ _ _ Hchain)|done|set_solver].
    apply epoch_logs.
Qed.

Lemma standing_for_Some id r : standing_for stack id = Some r → r ∈ stack ∧ rp_ID r = id.
Proof.
  unfold standing_for. intros H%head_Some_elem_of. by apply list_elem_of_filter in H as [? ?].
Qed.

Lemma stack_root r : r ∈ stack → r ∈ cv_roots cv ∧ is_epoch r.
Proof using Hchain.
  intros Hr. pose proof (posts_subseteq _ _ (co_posts _ _ _ Hchain) r Hr) as Hin.
  by apply list_elem_of_filter in Hin as [? ?].
Qed.

(** A Root is posted after its Epoch's last block. *)
Lemma posted_after id r b :
  r ∈ stack → rp_ID r = id → last_before cv tipN (w_End (WindowOf id)) b →
  in_blocks (u64 (b_Number b + 1)) tipN (rp_Site r) ∧ 0 ≤ u64 (b_Number b + 1) ≤ tipN.
Proof using Hchain.
  intros Hr <- (n & Hn & -> & Hlt & _). pose proof (co_tip _ _ _ Hchain) as [Htip _].
  rewrite (co_numbers _ _ _ Hchain), u64_id by (unfold is_u64; lia).
  pose proof (co_root_range _ _ _ Hchain r (proj1 (stack_root r Hr))) as Hrange.
  pose proof (co_closed _ _ _ Hchain r Hr) as Hclosed. unfold in_blocks in *. split; [|lia]. split; [|lia].
  destruct (decide (n + 1 ≤ site_BlockNumber (rp_Site r))); [done|].
  pose proof (co_deploy _ _ _ Hchain).
  pose proof (co_times _ _ _ Hchain (site_BlockNumber (rp_Site r)) n ltac:(lia)). lia.
Qed.

Lemma answers_standingRoot id b :
  is_u64 id → last_before cv tipN (w_End (WindowOf id)) b →
  answers ok (standingRoot e id (u64 (b_Number b + 1)) tipN) (Ok (standing_for stack id)).
Proof using Hreads Hchain.
  intros Hid Hb. unfold standingRoot. pose proof (co_agrees _ _ _ Hchain) as Hag.
  eapply answers_step; [by apply answers_bookLedger|]. destruct (HasRoot (ledger id)) eqn:E; cbn [negb].
  2:{ destruct (standing_for stack id) as [r|] eqn:Es; [|apply answers_ret].
      apply standing_for_Some in Es as [Hr Hrid]. rewrite (proj2 (ag_has _ _ Hag id Hid)) in E by by exists r. done. }
  apply (ag_has _ _ Hag _ Hid) in E as (r0 & Hr0 & Hid0).
  destruct (standing_for stack id) as [r|] eqn:Es.
  2:{ unfold standing_for in Es. apply head_None in Es. assert (r0 ∈ filter (λ r, rp_ID r = id) stack) as Hin
        by by apply list_elem_of_filter. rewrite Es in Hin. by apply elem_of_nil in Hin. }
  apply standing_for_Some in Es as [Hr Hrid]. destruct (posted_after id r b Hr Hrid Hb) as [Hin Hrange].
  rewrite (proj2 (Z.ltb_ge _ _)) by lia.
  eapply answers_step; [apply answers_read, rc_roots; unfold tipNumber in *; lia|].
  clear r0 Hr0 Hid0. subst id.
  pose proof (lastRootFor_spec ledger (cv_roots cv) stack r
      (λ x, in_blocks (u64 (b_Number b + 1)) tipN (rp_Site x)) (co_posts _ _ _ Hchain) Hr Hin Hag) as Hl.
  rewrite Hl. apply answers_lift.
Qed.
End refine.
