(* ===== verification/EpochHistory.v ===== *)
(** * Loading the history and rebuilding an Epoch from it

    The Cache is synced and read back, the exclusions and the curve are read, and
    the forward-only Ledger closes Epochs in whatever order they are asked for. *)
From S2P Require Import Prelude Sorts Bytes Text Merkle Twab TwabSpec TwabLedger Alloc Chain Crc Cache CacheSpec CacheOps CacheSync StateMonad Wire Reader Epoch RootStream EpochSpec EpochRefine.

Lemma foldM_snoc {E A B} (f : A → B) (l : list A) (acc : list B) :
  foldM (E:=E) (λ acc r, Ok (acc ++ [f r])) l acc = Ok (acc ++ (f <$> l)).
Proof.
  revert acc. induction l as [|r l IH]; intros acc; cbn [foldM fmap list_fmap mbind Res_bind].
  - by rewrite app_nil_r.
  - by rewrite IH, <-app_assoc.
Qed.

Lemma filter_through {A B} (f : A → B) (P : B → Prop) `{!∀ y, Decision (P y)} (l : list A) :
  filter P (f <$> l) = f <$> filter (λ x, P (f x)) l.
Proof.
  induction l as [|x l IH]; [done|]. rewrite fmap_cons, !filter_cons.
  destruct (decide (P (f x))); by rewrite IH.
Qed.

Section history.
Context (keccak256 : list byte → Hash) (e : Engine) (cv : ChainView) (stack : list RootPosted).
Context `{Hreads : !ReadsChain (e_reader e) cv (e_tip e)} (Hchain : chain_ok e cv stack).

Abbreviation tipN := (tipNumber e).
Abbreviation opts := (cacheOptions e false).

(** ** The Cache *)

Lemma reader_serves : serves (readerSource e) (chain_hash cv) (chain_records cv) (b_Number (tip_Block (e_tip e))).
Proof using Hreads.
  split.
  - intros from to Hfrom Hto. eexists. split; [by apply rc_transfers|].
    unfold chain_records. by rewrite filter_through.
  - intros n Hn. eexists. split; [by apply rc_block|done].
Qed.

Lemma holds_fresh l c fresh : holds (cacheOptions e fresh) l c → holds opts l c.
Proof. intros [? ? ? ? ? ?]. by split. Qed.

Lemma readBack_spec l c :
  holds opts l c → ∃ disk, readBack e (Close c) = (Ok (toTransfer <$> l), disk).
Proof using Hchain.
  intros Hc. unfold readBack. assert (Close c = headerBytes opts ++ encodings l) as ->.
  { by apply (stored_file opts l), checkpoint_stored. }
  destruct (Open_scanned opts (co_ids _ _ _ Hchain) (encodings l) l [] eq_refl) as (c' & -> & Hnil & _).
  { split; [by rewrite app_nil_r|]. split; [apply (h_ok _ _ _ Hc)|]. split; [apply (h_runs _ _ _ Hc)|].
    intros r k _ He. apply (f_equal length) in He. by rewrite length_app, length_encoding in He. }
  destruct (Hnil eq_refl) as [[Hc' _] _].
  destruct (Each_holds opts (λ history r, Ok (history ++ [toTransfer r])) l c' [] Hc') as [_ ->].
  rewrite foldM_snoc. cbn [mbind Res_bind mret Res_ret app]. by eexists.
Qed.

Lemma syncCache_spec disk :
  disk_ok e cv disk → ∀ w, ∃ status disk' w', syncCache e disk w = (status, Ok (chain_history e cv), disk', w').
Proof using Hreads Hchain.
  intros (c & m & stale & Hopen & Hm & Hstale & Hc) w. unfold syncCache. rewrite Hopen.
  destruct (Sync_whole opts (readerSource e) (chain_hash cv) (chain_records cv) m stale
    (filter (λ r, block r ≤ m) (chain_records cv) ++ stale) c (tip_Block (e_tip e)) (u64 (eo_SyncChunk (e_opts e))))
    as (n & c' & HS & Hc').
  - apply (co_ids _ _ _ Hchain).
  - apply (co_records _ _ _ Hchain).
  - apply (co_runs _ _ _ Hchain).
  - apply (co_hashes _ _ _ Hchain).
  - apply reader_serves.
  - apply (co_tip _ _ _ Hchain).
  - apply (co_tip _ _ _ Hchain).
  - apply u64_range.
  - done.
  - done.
  - done.
  - done.
  - destruct (HS w) as [w' ->], (readBack_spec _ _ Hc') as [disk' ->]. by eexists _, _, _.
Qed.

(** A closed Cache is a file the next Engine can start from. *)
Lemma EngineSync_spec s :
  engine_ok e cv s → ∃ status s', EngineSync e s = (status, Ok (), s') ∧ engine_ok e cv s' ∧
    is_Some (st_synced s') ∧ st_loaded s' = st_loaded s.
Proof using Hreads Hchain.
  intros Hs. unfold EngineSync. destruct (st_synced s) as [status|] eqn:E.
  { exists status, s. by rewrite E. }
  destruct (syncCache_spec (st_disk s) (eok_disk _ _ _ Hs E) (st_wire s)) as (status & disk & w & ->).
  eexists _, _. split; [done|]. split; [|done]. destruct Hs as [Hl Hf Hd Hh Hx Hg].
  assert (st_loaded s = false) as Hnot.
  { destruct (st_loaded s); [|done]. destruct (Hx eq_refl) as [[? ?] _]. congruence. }
  split; cbn; try done. congruence.
Qed.

(** [load] leaves a loaded Engine. *)
Lemma loadHistory_spec s b :
  ready e cv b s → ∃ s', loadHistory e s = (Ok (), s') ∧ ready e cv true s'.
Proof using Hreads Hchain.
  intros [Hs _]. unfold loadHistory, gets, mbind, StM_bind. destruct (st_loaded s) eqn:E.
  { exists s. by split. }
  destruct (EngineSync_spec s Hs) as (status & s1 & -> & Hs1 & Hsync & Hl1).
  pose proof (co_deploy _ _ _ Hchain). unfold read.
  destruct (always_run _ _ (st_wire s1) (rc_exclusions (rd:=e_reader e) (cv:=cv) (tip:=e_tip e)
    (dp_DistributorBlock (e_dep e)) (tipNumber e) ltac:(unfold tipNumber in *; lia) ltac:(done))) as [w1 ->].
  destruct (always_run _ _ w1 (rc_curve (rd:=e_reader e) (cv:=cv) (tip:=e_tip e))) as [w2 Hcurve].
  cbn [wrap st_wire setWire]. unfold tipNumber. rewrite Hcurve. cbn [wrap].
  eexists. split; [done|]. split; [|done]. destruct Hs1 as [Hl Hf Hd Hh Hx Hg].
  split; cbn; try done. intros l Hlg. destruct (Hg l Hlg) as [Hload _]. congruence.
Qed.

(** ** Holders *)

Abbreviation history := (chain_history e cv).
Abbreviation replayables := (chain_replayables e cv).

Lemma answers_engineHolders id hs :
  epoch_ok id → Replay id history replayables = Ok hs →
  answers (ready e cv true) (engineHolders id) (Ok hs).
Proof.
  intros Hid HR s [Hs Hload]. specialize (Hload eq_refl). unfold engineHolders.
  destruct (eok_loaded _ _ _ Hs Hload) as (Hsync & _ & Hrep). rewrite (eok_history _ _ _ Hs Hsync), Hrep.
  set (l := match st_ledger s with Some l => if id <? st_floor s then NewLedger history replayables else l
            | None => NewLedger history replayables end).
  assert (∃ floor now pre rest, LInv history replayables floor now l pre rest ∧ floor ≤ id)
    as (floor & now & pre & rest & HI & Hfl).
  { destruct (NewLedger_LInv history replayables) as [now0 HI0]. destruct Hid as [Hid0 _].
    unfold l. destruct (st_ledger s) as [l0|] eqn:E; [|by eexists 0, _, _, _].
    destruct (Z.ltb_spec id (st_floor s)); [by eexists 0, _, _, _|].
    destruct (eok_ledger _ _ _ Hs l0 E) as [_ (now & pre & rest & HI)]. by exists (st_floor s), now, pre, rest. }
  pose proof (Advance_spec _ _ _ _ _ _ _ id HI Hid Hfl) as HA. rewrite HR in HA.
  destruct HA as (l' & now' & pre' & rest' & -> & HI'). eexists. split; [done|]. split; [|done].
  destruct Hs as [Hl Hf Hd Hh Hx Hg]. split; cbn; try done.
  intros l1 [= <-]. split; [done|]. exists now', pre', rest'.
  rewrite u64_id; [done|]. unfold is_u64, epoch_ok, EpochSeconds in *. lia.
Qed.

(** An Epoch up to [lim], through which the history is complete. *)
Context (lim : Z) (Hlim : epoch_ok lim) (Hcomplete : history_ok (w_End (WindowOf lim)) history).

Lemma epoch_ok_le id : 0 ≤ id ≤ lim → epoch_ok id ∧ is_u64 id.
Proof using Hlim. unfold epoch_ok, EpochSeconds, is_u64 in *. lia. Qed.

Lemma Replay_complete_to id : 0 ≤ id ≤ lim → ∃ hs, Replay id history replayables = Ok hs.
Proof using Hlim Hcomplete.
  intros Hid. destruct (epoch_ok_le id Hid) as [He _].
  destruct (Replay_total id history replayables He) as [(_ & hs & ? & _)|[Hbad _]]; [by exists hs|].
  destruct Hbad. destruct Hcomplete as [Hv Hse].
  assert (w_End (WindowOf id) ≤ w_End (WindowOf lim)) as Hle.
  { rewrite !WindowOf_ok by done. unfold EpochSeconds. cbn. lia. }
  split; intros tr Htr Hlt; [apply Hv|apply Hse]; try done; lia.
Qed.

Lemma answers_computeEpoch id posted expected from :
  0 ≤ id ≤ lim →
  answers (ready e cv true) (computeEpoch keccak256 e id posted expected from)
    (rebuilt keccak256 e cv id posted expected from).
Proof using All.
  intros Hid. destruct (epoch_ok_le id Hid) as [He Hu]. destruct (Replay_complete_to id Hid) as [hs HR].
  unfold computeEpoch, rebuilt. rewrite HR. cbn [wrap].
  eapply answers_step; [by apply answers_bookLedger|]. cbn zeta.
  eapply answers_step; [by apply answers_engineHolders|]. cbn [mbind Res_bind].
  apply answers_bind; [apply answers_lift|]. intros a _.
  eapply answers_step; [|apply answers_bind; [apply answers_lift|intros rows _; apply answers_ret]].
  intros s [Hs Hload]. exists s. split; [|done]. unfold gets.
  by destruct (eok_loaded _ _ _ Hs (Hload eq_refl)) as (_ & -> & _).
Qed.
End history.
