(* ===== verification/EpochWalk.v ===== *)
(** * Carry, Compute and Walk

    What the Engine's two ways of rebuilding Epochs answer: one Epoch from the
    newest Root before it, and the whole chain of Roots from deploy. *)
From S2P Require Import Prelude Sorts Bytes Text Merkle Twab TwabSpec TwabLedger Alloc Chain Crc Cache CacheSpec CacheOps CacheSync StateMonad Wire Reader Epoch RootStream EpochSpec EpochRefine EpochHistory.

Lemma seqZ_succ k n : seqZ k (Z.of_nat (S n)) = k :: seqZ (k + 1) (Z.of_nat n).
Proof. rewrite seqZ_cons by lia. f_equal. f_equal; lia. Qed.

Lemma seqZ_last k n : 0 ≤ n → seqZ k (n + 1) = seqZ k n ++ [k + n].
Proof. intros Hn. rewrite seqZ_app by lia. by rewrite (seqZ_cons (k + n)) by lia. Qed.

(** ** The newest standing Root before an Epoch *)

Section previous.
Context (stack : list RootPosted) (Hsorted : StronglySorted (λ x y, rp_ID y < rp_ID x) stack).

Lemma previous_of_succ id :
  previous_of stack (id + 1) =
  match standing_for stack id with Some r => Some r | None => previous_of stack id end.
Proof using Hsorted.
  unfold previous_of, standing_for. induction Hsorted as [|r l Hl IH Hr]; [done|]. rewrite !filter_cons.
  destruct (decide (rp_ID r < id + 1)) as [Hlt|Hge], (decide (rp_ID r = id)) as [Heq|Hne],
    (decide (rp_ID r < id)) as [Hlt'|Hge']; try lia; try done; [|by apply IH].
  cbn [head]. rewrite filter_none; [done|].
  apply Forall_forall. intros x Hx. rewrite Forall_forall in Hr. specialize (Hr x Hx). cbn in *. lia.
Qed.
End previous.

Lemma previous_of_Some stack target r : previous_of stack target = Some r → r ∈ stack ∧ rp_ID r < target.
Proof. unfold previous_of. intros H%head_Some_elem_of. by apply list_elem_of_filter in H as [? ?]. Qed.

Section walk.
Context (keccak256 : list byte → Hash) (e : Engine) (cv : ChainView) (stack : list RootPosted).
Context `{Hreads : !ReadsChain (e_reader e) cv (e_tip e)} (Hchain : chain_ok e cv stack).
Context (lim : Z) (Hlim : epoch_ok lim) (Hcomplete : history_ok (w_End (WindowOf lim)) (chain_history e cv)).

Abbreviation ok := (ready e cv true).
Abbreviation rebuild := (rebuilt keccak256 e cv).
Abbreviation base := (carry_base keccak256 e cv stack).
Abbreviation expected := (expected_carry keccak256 e cv stack).
Abbreviation result := (epoch_result keccak256 e cv stack).
Abbreviation first := (deploy_epoch (e_dep e) cv).

(** ** Carry *)

Lemma fund_range_set carry from to : all_set carry → all_set (fund_range cv carry from to).
Proof.
  unfold fund_range. generalize (seqZ from (to - from)). intros l. revert carry.
  induction l as [|x l IH]; intros carry Hc; [done|]. apply IH, add_funding_set.
Qed.

Lemma fund_range_succ carry from to :
  from ≤ to → fund_range cv carry from (to + 1) = add_funding cv (fund_range cv carry from to) to.
Proof.
  intros Hle. unfold fund_range. replace (to + 1 - from) with (to - from + 1) by lia.
  rewrite seqZ_last, foldl_app by lia. cbn [foldl]. by replace (from + (to - from)) with to by lia.
Qed.

Lemma vmap_Some_each {n} (v : vec Z n) (t : fin n) : is_Some (vmap Some v !!! t).
Proof. rewrite vlookup_map. by eexists. Qed.

Lemma answers_carryOver carry from to source :
  0 ≤ from ≤ to → to ≤ lim + 1 → all_set carry →
  answers ok (carryOver e carry from to source) (Ok (fund_range cv carry from to, carrySource source (to - from))).
Proof using Hreads Hchain Hlim.
  intros Hfrom Hto Hc. unfold carryOver, fund_range.
  assert (∀ n k carry skipped, 0 ≤ k → k + Z.of_nat n ≤ lim + 1 → all_set carry →
    answers ok (foldS (λ '(carry, skipped) id, carry ← addFunding e carry id; mret (carry, skipped + 1))
        (seqZ k (Z.of_nat n)) (carry, skipped))
      (Ok (foldl (add_funding cv) carry (seqZ k (Z.of_nat n)), skipped + Z.of_nat n))) as Hloop.
  { induction n as [|n IH]; intros k carry' skipped Hk Hn Hc'.
    { rewrite Z.add_0_r. apply answers_ret. }
    rewrite seqZ_succ. cbn [foldS foldl]. eapply answers_step.
    { eapply answers_step; [apply (answers_addFunding _ _ stack); try done|apply answers_ret].
      apply (epoch_ok_le lim Hlim). lia. }
    eapply answers_eq; [apply IH; try lia; apply add_funding_set|]. f_equal. f_equal. lia. }
  eapply answers_step.
  - specialize (Hloop (Z.to_nat (to - from)) from carry 0). rewrite Z2Nat.id in Hloop by lia.
    apply Hloop; [lia|lia|done].
  - apply answers_ret.
Qed.

(** The Carry of an Epoch starts no later than that Epoch. *)
Lemma carry_base_Ok target c j src :
  target ≤ lim → base target = Ok (c, j, src) → 0 ≤ j ≤ target ∧ all_set c.
Proof using Hchain.
  intros Ht. unfold carry_base. destruct (previous_of stack target) as [p|] eqn:Ep.
  - intros (r & _ & [= <- <- <-])%bind_Ok.
    apply previous_of_Some in Ep as [Hp ?]. apply (stack_root _ _ _ Hchain) in Hp as [Hp _].
    apply (co_root_ids _ _ _ Hchain) in Hp. unfold is_u64 in Hp.
    split; [lia|]. intros t. apply vmap_Some_each.
  - destruct (Z.ltb_spec target first); [done|]. intros [= <- <- <-].
    split; [|apply zeroAmounts_set]. unfold deploy_epoch in *. split; [apply u64_range|done].
Qed.

Lemma answers_expectedCarry target :
  target ≤ lim → answers ok (expectedCarry keccak256 e target) (expected target).
Proof using All.
  intros Ht. unfold expectedCarry, expected_carry.
  eapply answers_step; [by apply (answers_previousRoot _ _ stack)|].
  unfold carry_base at 1. pose proof (carry_base_Ok target) as Hb. unfold carry_base in Hb.
  destruct (previous_of stack target) as [p|] eqn:Ep.
  - apply previous_of_Some in Ep as [Hp ?]. apply (stack_root _ _ _ Hchain) in Hp as [Hp _].
    apply (co_root_ids _ _ _ Hchain) in Hp. unfold is_u64 in Hp.
    rewrite Res_assoc. apply answers_bind; [by apply (answers_computeEpoch _ _ _ stack Hchain lim); [..|lia]|].
    intros r _. cbn [mbind Res_bind mret Res_ret].
    rewrite u64_id by (destruct (epoch_ok_le lim Hlim lim); unfold epoch_ok, is_u64 in *; lia).
    apply answers_carryOver; [lia..|]. intros t. apply vmap_Some_each.
  - eapply answers_step; [by apply (answers_deployEpoch _ _ stack)|].
    destruct (target <? first) eqn:E; [apply answers_throw|].
    destruct (Hb _ _ _ Ht eq_refl) as [? ?]. cbn [mbind Res_bind mret Res_ret].
    apply answers_carryOver; [lia..|done].
Qed.

(** ** Compute *)

(** The Epoch has closed under the tip, and the chain starts before it does. *)
Definition closed_by (id : Z) : Prop :=
  w_End (WindowOf id) ≤ b_Timestamp (tip_Block (e_tip e)) ∧ b_Timestamp (cv_block cv 0) < w_End (WindowOf id).

Lemma answers_load loaded : answers_to (ready e cv loaded) ok (loadHistory e) (Ok ()).
Proof using Hreads Hchain. intros s Hs. by apply (loadHistory_spec _ _ stack Hchain s loaded). Qed.

(** So have all those before it from deploy. *)
Lemma closed_le target id :
  epoch_ok target → first ≤ id ≤ target → closed_by target → closed_by id.
Proof using Hchain.
  intros Ht Hid [Hend Hgen]. assert (0 ≤ first) by apply u64_range.
  destruct (epoch_ok_le target Ht id ltac:(lia)) as [Hok _].
  pose proof (co_deploy _ _ _ Hchain) as Hdep.
  pose proof (co_clock _ _ _ Hchain (dp_DistributorBlock (e_dep e)) Hdep) as Hclock.
  pose proof (co_times _ _ _ Hchain 0 (dp_DistributorBlock (e_dep e)) ltac:(lia)) as Htime.
  unfold closed_by. rewrite (WindowOf_ok target Ht) in Hend. rewrite (WindowOf_ok id Hok). cbn [w_End] in *.
  assert (first = b_Timestamp (cv_block cv (dp_DistributorBlock (e_dep e))) / EpochSeconds) as Hf.
  { unfold deploy_epoch. rewrite Z.quot_div_nonneg by (unfold EpochSeconds; lia). apply u64_id. unfold is_u64, EpochSeconds.
    split; [apply Z.div_pos; lia|]. apply Z.div_lt_upper_bound; lia. }
  pose proof (Z.mod_pos_bound (b_Timestamp (cv_block cv (dp_DistributorBlock (e_dep e)))) EpochSeconds ltac:(unfold EpochSeconds; lia)).
  pose proof (Z.div_mod (b_Timestamp (cv_block cv (dp_DistributorBlock (e_dep e)))) EpochSeconds ltac:(unfold EpochSeconds; lia)).
  unfold EpochSeconds in *. lia.
Qed.

(** The Epoch's last block, as EndBlock found it. *)
Definition ends_at (id : Z) (b : Block) : Prop :=
  always (rd_EndBlock (e_reader e) id (e_tip e)) (Ok b) ∧ last_before cv (tipNumber e) (w_End (WindowOf id)) b.

(** There is only one. *)
Lemma last_before_unique t b b' :
  last_before cv (tipNumber e) t b → last_before cv (tipNumber e) t b' → b = b'.
Proof using Hchain.
  intros (m & Hm & -> & Hm1 & Hm2) (n & Hn & -> & Hn1 & Hn2). pose proof (co_times _ _ _ Hchain) as Htimes.
  destruct (Z.lt_trichotomy m n) as [Hlt|[->|Hlt]]; [|done|].
  - pose proof (Htimes (m + 1) n ltac:(lia)). lia.
  - pose proof (Htimes (n + 1) m ltac:(lia)). lia.
Qed.

Lemma closed_ends id : closed_by id → ∃ b, ends_at id b.
Proof using Hreads Hchain.
  intros [Hend Hgen]. pose proof (rc_end (rd:=e_reader e) id Hend Hgen) as Hw.
  destruct (Hw newWire) as (b & _ & _ & Hb). exists b. split; [|exact Hb].
  intros w _. destruct (Hw w) as (b' & w' & -> & Hb'). rewrite (last_before_unique _ _ _ Hb' Hb). by exists w'.
Qed.

(** The posted Root of an Epoch, and the Epoch rebuilt against it. *)
Lemma answers_posted {B} (g : EngineResult → B) id b expected from :
  0 ≤ id ≤ lim → ends_at id b →
  answers ok (posted ← standingRoot e id (u64 (b_Number b + 1)) (tipNumber e);
              computed ← computeEpoch keccak256 e id posted expected from; mret (g computed))
    (g <$> rebuild id (standing_for stack id) expected from).
Proof using All.
  intros Hid [_ Hb]. eapply answers_step; [apply (answers_standingRoot _ _ stack Hchain)|].
  - by apply (epoch_ok_le lim Hlim).
  - exact Hb.
  - eapply answers_eq; [apply (answers_bind _ _ _ (rebuild id (standing_for stack id) expected from) (λ r, Ok (g r)));
      [by apply (answers_computeEpoch _ _ _ stack Hchain lim)|intros r _; apply answers_ret]|].
    by destruct (rebuild _ _ _ _).
Qed.

(** Compute answers the rules over the chain, whatever was computed before it. *)
Lemma answers_Compute loaded id b :
  0 ≤ id ≤ lim → ends_at id b →
  answers_to (ready e cv loaded) ok (EngineCompute keccak256 e id) (setEndBlock b <$> result id).
Proof using All.
  intros Hid Hb. unfold EngineCompute, epoch_result.
  eapply answers_to_step; [apply (answers_read _ _ _ _ _ (proj1 Hb))|].
  eapply answers_to_step; [apply answers_load|]. apply answers_to_answers.
  eapply answers_eq; [apply (answers_bind _ _ _ (expected id) (λ p, setEndBlock b <$> rebuild id (standing_for stack id) p.1 p.2));
    [apply answers_expectedCarry; lia|]|].
  - intros [c from] _. by apply (answers_posted (setEndBlock b)).
  - destruct (expected id) as [[c from]| |]; done.
Qed.

(** ** Walk *)

(** What the loop of Walk carries into an Epoch. *)
Definition walk_at (k : Z) (w : walkState) : Prop :=
  ∃ c j, base k = Ok (c, j, ws_from w) ∧ ws_skipped w = k - j ∧ ws_carry w = fund_range cv c j k.

Lemma walk_expected k w :
  walk_at k w → expected k = Ok (ws_carry w, carrySource (ws_from w) (ws_skipped w)).
Proof. intros (c & j & Hb & -> & ->). unfold expected_carry. by rewrite Hb. Qed.

Lemma walk_result k w :
  walk_at k w → result k = rebuild k (standing_for stack k) (ws_carry w) (carrySource (ws_from w) (ws_skipped w)).
Proof. intros Hw. unfold epoch_result. by rewrite (walk_expected k w Hw). Qed.

Lemma walk_carry_set k w : k ≤ lim → walk_at k w → all_set (ws_carry w).
Proof using Hchain.
  intros Hk (c & j & Hb & _ & ->). apply fund_range_set. by eapply carry_base_Ok.
Qed.

Lemma walk_start : walk_at first (mkWalkState zeroAmounts "nothing before deploy" 0 []).
Proof using Hchain.
  exists zeroAmounts, first. unfold carry_base.
  destruct (previous_of stack first) as [p|] eqn:Ep.
  { apply previous_of_Some in Ep as [Hp ?]. apply (co_first _ _ _ Hchain) in Hp. lia. }
  rewrite Z.ltb_irrefl. unfold fund_range. rewrite Z.sub_diag. by cbn.
Qed.

(** What is expected of a posted Root changes nothing it pays. *)
Lemma rebuilt_carry id p x from x' from' r :
  rebuild id (Some p) x from = Ok r →
  ∃ r', rebuild id (Some p) x' from' = Ok r' ∧ er_CarryOut r' = er_CarryOut r.
Proof.
  unfold rebuilt. cbn zeta. intros (hs & -> & (a & Ha & (rows & Hrows & [= <-])%bind_Ok)%bind_Ok)%bind_Ok.
  cbn [mbind Res_bind]. rewrite Ha. cbn [mbind Res_bind]. rewrite Hrows. by eexists.
Qed.

(** An Epoch whose Root stands is a link, and its Carry starts afresh. *)
Lemma walk_rooted k w p r :
  standing_for stack k = Some p → rebuild k (Some p) (ws_carry w) (carrySource (ws_from w) (ws_skipped w)) = Ok r →
  walk_at (k + 1) (mkWalkState (vmap Some (er_CarryOut r)) (carryOutOf k) 0 (ws_out w ++ [r])).
Proof using Hchain.
  intros Hp Hr. exists (vmap Some (er_CarryOut r)), (k + 1). unfold carry_base.
  rewrite previous_of_succ by apply (posts_sorted _ _ (co_posts _ _ _ Hchain)).
  rewrite Hp. apply standing_for_Some in Hp as [_ <-]. cbn [ws_from ws_skipped ws_carry]. split.
  - destruct (rebuilt_carry _ p _ _ (rp_CarryIn p) "its own posted carryIn" r Hr) as (r' & -> & <-). done.
  - split; [lia|]. unfold fund_range. by rewrite Z.sub_diag.
Qed.

(** An Epoch without one only adds its funding. *)
Lemma walk_unrooted k w :
  first ≤ k ≤ lim → standing_for stack k = None → walk_at k w →
  walk_at (k + 1) (mkWalkState (add_funding cv (ws_carry w) k) (ws_from w) (ws_skipped w + 1) (ws_out w)).
Proof using Hchain.
  intros Hk Hnone (c & j & Hb & Hs & Hc). exists c, j. cbn [ws_from ws_skipped ws_carry].
  destruct (carry_base_Ok k c j (ws_from w) ltac:(lia) Hb) as [Hj _].
  split_and!; [|lia|by rewrite fund_range_succ, Hc by lia].
  revert Hb. unfold carry_base. rewrite previous_of_succ, Hnone by apply (posts_sorted _ _ (co_posts _ _ _ Hchain)).
  destruct (previous_of stack k); [done|]. by rewrite !(proj2 (Z.ltb_ge _ _)) by lia.
Qed.

Lemma standing_lookup standing last k :
  (∀ id, is_standing_map first last stack standing id) → first ≤ k < last → standing !! k = standing_for stack k.
Proof.
  intros Hst Hk. destruct (standing_for stack k) as [p|] eqn:Ep.
  - apply standing_for_Some in Ep as [? ?]. by apply (Hst k).
  - destruct (standing !! k) as [p|] eqn:El; [|done]. apply (Hst k) in El as (? & ? & _).
    unfold standing_for in Ep. apply head_None in Ep.
    assert (p ∈ filter (λ r, rp_ID r = k) stack) as Hin by by apply list_elem_of_filter.
    rewrite Ep in Hin. by apply elem_of_nil in Hin.
Qed.

(** The loop's links are each Epoch's own result. *)
Lemma answers_walk standing last n : ∀ k w,
  (∀ id, is_standing_map first last stack standing id) → first ≤ k → k + Z.of_nat n ≤ last ≤ lim → walk_at k w →
  ∃ r, answers ok (foldS (walkStep keccak256 e standing) (seqZ k (Z.of_nat n)) w) r ∧
    match traverse result (filter (λ id, is_Some (standing_for stack id)) (seqZ k (Z.of_nat n))) with
    | Ok links => ∃ w', r = Ok w' ∧ ws_out w' = ws_out w ++ links ∧ walk_at (k + Z.of_nat n) w'
    | Err x => r = Err x
    | Fault x => r = Fault x
    end.
Proof using All.
  induction n as [|n IH]; intros k w Hst Hfirst Hk Hw.
  { exists (Ok w). split; [apply answers_ret|]. cbn. exists w. rewrite app_nil_r, Z.add_0_r. done. }
  rewrite seqZ_succ. cbn [foldS]. rewrite filter_cons.
  assert (0 ≤ first) by apply u64_range.
  unfold walkStep at 2. rewrite (standing_lookup standing last k Hst ltac:(lia)).
  destruct (standing_for stack k) as [p|] eqn:Ep; destruct (decide _) as [Hd|Hd]; try (by destruct Hd); try by case Hd.
  - rewrite traverse_cons, (walk_result k w Hw), Ep.
    assert (answers ok (computeEpoch keccak256 e k (Some p) (ws_carry w) (carrySource (ws_from w) (ws_skipped w)))
      (rebuild k (Some p) (ws_carry w) (carrySource (ws_from w) (ws_skipped w)))) as HC.
    { apply (answers_computeEpoch _ _ _ stack Hchain lim); [done|done|lia]. }
    destruct (rebuild k _ _ _) as [r|x|x] eqn:Er.
    + pose proof (walk_rooted k w p r Ep Er) as Hw'.
      destruct (IH (k + 1) _ Hst ltac:(lia) ltac:(lia) Hw') as (r' & Hr' & Hm). exists r'. split.
      { eapply answers_step; [|exact Hr']. eapply answers_step; [exact HC|apply answers_ret]. }
      cbn [mbind Res_bind]. destruct (traverse _ _) as [links| |]; cbn [mbind Res_bind mret Res_ret]; try done.
      destruct Hm as (w' & -> & Hout & Hat). exists w'. split; [done|]. split.
      * rewrite Hout. cbn [ws_out]. by rewrite <-app_assoc.
      * by replace (k + Z.of_nat (S n)) with (k + 1 + Z.of_nat n) by lia.
    + exists (Err x). split; [|done]. by apply (answers_stop _ _ _ (Err x)), (answers_stop _ _ _ (Err x)).
    + exists (Fault x). split; [|done]. by apply (answers_stop _ _ _ (Fault x)), (answers_stop _ _ _ (Fault x)).
  - pose proof (walk_unrooted k w ltac:(lia) Ep Hw) as Hw'.
    destruct (IH (k + 1) _ Hst ltac:(lia) ltac:(lia) Hw') as (r' & Hr' & Hm). exists r'. split.
    { eapply answers_step; [|exact Hr']. eapply answers_step; [|apply answers_ret].
      apply (answers_addFunding _ _ stack); [done|apply (epoch_ok_le lim Hlim); lia|].
      apply (walk_carry_set k); [lia|done]. }
    by replace (k + Z.of_nat (S n)) with (k + 1 + Z.of_nat n) by lia.
Qed.

(** Walk answers each rooted Epoch's own result, then the target's. *)
Lemma answers_Walk loaded target b :
  0 ≤ target ≤ lim → first ≤ target → ends_at target b →
  answers_to (ready e cv loaded) ok (Walk keccak256 e target)
    (links ← traverse result (rooted_before e cv stack target);
     last ← setEndBlock b <$> result target; mret (links ++ [last])).
Proof using All.
  intros Hid Hfirst Hb. unfold Walk.
  eapply answers_to_step; [apply (answers_read _ _ _ _ _ (proj1 Hb))|].
  eapply answers_to_step; [apply answers_load|].
  apply answers_to_answers. eapply answers_step; [by apply (answers_deployEpoch _ _ stack)|].
  rewrite (proj2 (Z.ltb_ge _ _)) by lia.
  destruct (answers_standingRoots e cv stack Hchain true first target) as (m & Hm & Hst).
  eapply answers_step; [exact Hm|].
  destruct (answers_walk m target (Z.to_nat (target - first)) first (mkWalkState zeroAmounts "nothing before deploy" 0 []))
    as (r & Hr & Hlinks); [exact Hst|lia|lia|apply walk_start|].
  rewrite Z2Nat.id in Hr, Hlinks by lia. unfold rooted_before.
  destruct (traverse _ _) as [links|x|x]; [|subst r; by apply (answers_stop _ _ _ (Err x))|
    subst r; by apply (answers_stop _ _ _ (Fault x))].
  destruct Hlinks as (w & -> & Hout & Hat). cbn [mbind Res_bind].
  replace (first + (target - first)) with target in Hat by lia. cbn [ws_out app] in Hout.
  rewrite (walk_result _ w Hat). eapply answers_step; [exact Hr|].
  eapply answers_eq; [apply (answers_posted (λ x, ws_out w ++ [setEndBlock b x])); [exact Hid|exact Hb]|].
  rewrite Hout. by destruct (rebuild _ _ _ _).
Qed.
End walk.
