(* ===== verification/EpochCase.v ===== *)
(** * A chain, a Reader of it and an Engine over both

    Two blocks an Epoch: the Distributor is deployed in Epoch 0, whose Root is posted,
    voided and posted again; Epoch 1 has no Root, and Epoch 2 has just closed. *)
From S2P Require Import Prelude Sorts Bytes Text Merkle MerkleEncode Twab TwabSpec TwabLedger Alloc Cases Chain Crc Cache CacheSpec CacheOps CacheSync CacheCase StateMonad Wire Reader Epoch RootStream EpochSpec EpochRefine EpochHistory EpochWalk.

Definition hour_hash (n : Z) : Hash := copy_array 32 (be_encode 2 (n + 1)).
Definition hour_block (n : Z) : Block := mkBlock n (hour_hash n) (hour_hash (n - 1)) (1800 * n).
Definition hour_site (n i : Z) : Site := mkSite n (hour_hash n) i (1800 * n).
Definition hour_tip : Tip := mkTip (hour_block 6) "finalized" 0.

Definition hour_transfers : list ChainTransfer :=
  [ mkChainTransfer (hour_site 1 0) zeroAddress (address_of 1) (Some 100);
    mkChainTransfer (hour_site 1 1) (address_of 1) (address_of 2) (Some 40);
    mkChainTransfer (hour_site 1 2) (address_of 1) (address_of 3) (Some 40);
    mkChainTransfer (hour_site 3 0) (address_of 2) (address_of 3) (Some 15) ].

Definition hour_posted (n i root : Z) : RootPosted :=
  mkRootPosted (hour_site n i) KindEpoch 0 (hour_hash root) (vreplicate 5 (Some 90)) (vreplicate 5 (Some 0)).
(** Epoch 0's Root, posted, voided and posted again: the second time it is the one
    the rules give. *)
Definition hour_root : RootPosted := hour_posted 4 0 30817.
Definition hour_roots : list RootPosted := [hour_posted 3 1 76; hour_root].

Definition hour_ledger (id : Z) : LedgerBook :=
  if id =? 0
  then mkLedgerBook (hour_hash 30817) 7200 false (vreplicate 5 (Some 91)) (vreplicate 5 (Some 90)) (vreplicate 5 (Some 0))
  else mkLedgerBook zeroHash 0 true (vreplicate 5 (Some 30)) (vreplicate 5 (Some 0)) (vreplicate 5 (Some 0)).

Definition hour_chain : ChainView :=
  mkChainView hour_block hour_transfers [mkChainExclusion (hour_site 2 0) (address_of 9)] hour_roots hour_ledger (address_of 1).

(** Each read of it is a tick of the wire's clock. *)
Definition hour_reader : Reader := mkReader (address_of 20) (address_of 21) (address_of 22)
  (λ n w, (Ok (hour_block n), tick w))
  (λ from to w, (Ok (filter (λ t, in_blocks from to (ct_Site t)) (cv_transfers hour_chain)), tick w))
  (λ from to w, (Ok (filter (λ x, in_blocks from to (ce_Site x)) (cv_exclusions hour_chain)), tick w))
  (λ from to w, (Ok (filter (λ r, in_blocks from to (rp_Site r)) (cv_roots hour_chain)), tick w))
  (λ _ id _ w, (Ok (hour_ledger id), tick w))
  (λ _ w, (Ok (cv_curve hour_chain), tick w))
  (λ id _ w, (Ok (hour_block ((w_End (WindowOf id) - 1) / 1800)), tick w)).

Definition hour_engine : Engine := mkEngine hour_reader hour_tip "cache"
  (mkDeployment 4663 (address_of 20) (address_of 21) (address_of 23) (address_of 22) 1 1) (mkEngineOptions 2000 false).

#[export] Instance hour_reads : ReadsChain hour_reader hour_chain hour_tip.
Proof.
  split; try (intros; intros w _; by eexists). intros id Hend Hgen w. cbn [tip_Block hour_tip hour_chain cv_block b_Timestamp b_Number hour_block] in *.
  eexists _, _. split; [done|]. set (E := w_End (WindowOf id)) in *. exists ((E - 1) / 1800).
  pose proof (Z.div_mod (E - 1) 1800 ltac:(lia)). pose proof (Z.mod_pos_bound (E - 1) 1800 ltac:(lia)).
  change (1800 * 6) with 10800 in *. change (1800 * 0) with 0 in *.
  split_and!; [|lia|done|cbn [hour_chain cv_block hour_block b_Timestamp]; lia..]. apply Z.div_pos; lia.
Qed.

Lemma hour_posts : posts hour_roots [hour_root].
Proof.
  apply (posts_post [hour_posted 3 1 76] []); [|done].
  apply (posts_void _ _ (hour_posted 3 1 76)). by apply (posts_post [] []); [constructor|].
Qed.

Lemma hour_agrees : agrees hour_ledger [hour_root].
Proof.
  split.
  - intros id _. unfold hour_ledger. destruct (Z.eqb_spec id 0) as [->|Hid]; cbn.
    + split; [|done]. intros _. exists hour_root. by split; [apply list_elem_of_singleton|].
    + split; [done|]. intros (r & ->%list_elem_of_singleton & Hr). cbn in Hr. lia.
  - by intros r ->%list_elem_of_singleton.
Qed.

Lemma hour_chain_ok : chain_ok hour_engine hour_chain [hour_root].
Proof.
  split; try done.
  - repeat constructor; try done; cbn; by eexists.
  - by repeat constructor.
  - intros n Hn. change (tipNumber hour_engine) with 6 in Hn. cbn [hour_chain cv_block hour_block b_Timestamp]. lia.
  - intros m n Hmn. cbn [hour_chain cv_block hour_block b_Timestamp]. lia.
  - by repeat constructor.
  - intros r Hr. each_in Hr; done.
  - intros r Hr. each_in Hr; done.
  - exact hour_posts.
  - exact hour_agrees.
  - intros r Hr. each_in Hr; done.
  - by intros r ->%list_elem_of_singleton.
  - intros id _ t. unfold hour_chain, cv_ledger, hour_ledger. destruct (id =? 0); cbn [lb_Funded]; rewrite vlookup_replicate; by eexists.
Qed.

Lemma hour_history_ok : history_ok (w_End (WindowOf 2)) (chain_history hour_engine hour_chain).
Proof. split; intros tr Htr; each_in Htr; vm_compute; intros; first [by eexists | done]. Qed.

Lemma hour_closed id : 0 ≤ id ≤ 2 → closed_by hour_engine hour_chain id.
Proof.
  intros Hid. assert (id = 0 ∨ id = 1 ∨ id = 2) as [-> | [-> | ->]] by lia; by split.
Qed.

(** The Engine of a new Cache directory. *)
Lemma hour_new_ok : engine_ok hour_engine hour_chain (newEngineState [] newWire).
Proof.
  split; try done; [|by intros [? ?]].
  intros _. eexists _, 0, []. split; [reflexivity|]. split; [done|]. split; [constructor|]. by split.
Qed.

(** What the rules make of Epoch 2: the Carry of Epoch 0 and 1 skipped funding. *)
Example hour_carry : (λ p, (vec_to_list p.1, p.2)) <$> expected_carry sum_hash hour_engine hour_chain [hour_root] 2 =
  Ok (replicate 5 (Some 31), "carryOut of epoch 0 + the funding of 1 skipped Epoch")%string.
Proof. by vm_compute. Qed.
