(* ===== verification/EpochTheorems.v ===== *)
(** * What the epoch package promises

    The claims on Compute, Walk and the searches for the Distributor's Roots, over
    any Reader that keeps its promise and any chain the contracts guarantee. *)
From S2P Require Import Prelude Sorts Bytes Text Merkle Twab TwabSpec Alloc Cases Chain Crc Cache CacheSpec CacheOps CacheSync StateMonad Wire Reader Epoch RootStream EpochSpec EpochRefine EpochHistory EpochWalk EpochCase.

(** A Result as Walk gives its links, with no EndBlock. *)
Definition withoutEndBlock (r : EngineResult) : EngineResult :=
  mkEngineResult (er_EpochID r) (er_Window r) (er_Finality r) None (er_Skipped r) (er_Funded r)
    (er_CarryIn r) (er_ExpectedCarryIn r) (er_CarryFrom r) (er_Posted r) (er_Totals r) (er_CarryOut r)
    (er_TotalWeight r) (er_Excluded r) (er_HasRoot r) (er_Root r) (er_Tree r) (er_Allocations r).

Lemma rebuilt_open keccak256 e cv id posted expected from r :
  rebuilt keccak256 e cv id posted expected from = Ok r → er_EndBlock r = None.
Proof. unfold rebuilt. cbn zeta. by intros (hs & _ & (a & _ & (rows & _ & [= <-])%bind_Ok)%bind_Ok)%bind_Ok. Qed.

Lemma withoutEndBlock_set b r : er_EndBlock r = None → withoutEndBlock (setEndBlock b r) = r.
Proof. destruct r; cbn. by intros ->. Qed.

Lemma epoch_result_open keccak256 e cv stack b id :
  withoutEndBlock <$> (setEndBlock b <$> epoch_result keccak256 e cv stack id) =
  epoch_result keccak256 e cv stack id.
Proof.
  destruct (epoch_result _ _ _ _ id) as [r| |] eqn:E; try done. cbn. f_equal. apply withoutEndBlock_set.
  unfold epoch_result in E. apply bind_Ok in E as ([c from] & _ & E). by eapply rebuilt_open.
Qed.

Section theorems.
Context (keccak256 : list byte → Hash) (e : Engine) (cv : ChainView) (stack : list RootPosted).

(** C6: over a complete history, Compute of any closed Epoch answers exactly the
    rules applied to the chain: the Epoch's last block, the Allocation of the
    Holders the chain's transfers and exclusions give, under the Carry its standing
    Root was posted with, against the Carry the newest earlier Root leaves plus the
    funding since. It does so whatever the Engine synced, memoized or computed
    before, an Epoch already passed by its Ledger included, and leaves such an
    Engine. *)
Theorem EngineCompute_correct `{!ReadsChain (e_reader e) cv (e_tip e)} loaded id s :
  chain_ok e cv stack → epoch_ok id → history_ok (w_End (WindowOf id)) (chain_history e cv) →
  closed_by e cv id → ready e cv loaded s →
  ∃ b s', last_before cv (tipNumber e) (w_End (WindowOf id)) b ∧
    EngineCompute keccak256 e id s = (setEndBlock b <$> epoch_result keccak256 e cv stack id, s') ∧
    ready e cv true s'.
Proof.
  intros Hchain Hid Hcomplete Hcl Hs. destruct (closed_ends e cv stack Hchain id Hcl) as [b Hb].
  destruct (answers_Compute keccak256 e cv stack Hchain id Hid Hcomplete loaded id b) with s as (s' & HC & Hs');
    [destruct Hid; lia|exact Hb|exact Hs|]. exists b, s'. by destruct Hb.
Qed.

(** C7: Walk is Compute over every Epoch from deploy whose Root stands, in order,
    and then over the target, stopping at the first error: though Walk threads one
    Carry from link to link and Compute searches back for it, each link is the
    Result Compute gives for that Epoch on its own, from any state. *)
Theorem Walk_is_Computes `{!ReadsChain (e_reader e) cv (e_tip e)} loaded loaded' target s t :
  chain_ok e cv stack → epoch_ok target → history_ok (w_End (WindowOf target)) (chain_history e cv) →
  deploy_epoch (e_dep e) cv ≤ target → closed_by e cv target →
  ready e cv loaded s → ready e cv loaded' t →
  (Walk keccak256 e target s).1 =
    (links ← traverse (λ id, withoutEndBlock <$> (EngineCompute keccak256 e id t).1) (rooted_before e cv stack target);
     last ← (EngineCompute keccak256 e target t).1;
     mret (links ++ [last])).
Proof.
  intros Hchain Hid Hcomplete Hfirst Hcl Hs Ht. destruct (closed_ends e cv stack Hchain target Hcl) as [b Hb].
  destruct (answers_Walk keccak256 e cv stack Hchain target Hid Hcomplete loaded target b) with s as (s' & -> & _);
    [destruct Hid; lia|done|exact Hb|exact Hs|].
  destruct (answers_Compute keccak256 e cv stack Hchain target Hid Hcomplete loaded' target b) with t as (t' & -> & _);
    [destruct Hid; lia|exact Hb|exact Ht|].
  cbn [fst]. f_equal. apply traverse_ext. intros id [_ Hin%elem_of_seqZ]%list_elem_of_filter.
  assert (0 ≤ deploy_epoch (e_dep e) cv) by apply u64_range.
  destruct (closed_ends e cv stack Hchain id) as [b' Hb']; [by apply (closed_le _ _ _ Hchain target); try done; lia|].
  destruct (answers_Compute keccak256 e cv stack Hchain target Hid Hcomplete loaded' id b') with t as (t'' & -> & _);
    [lia|exact Hb'|exact Ht|]. cbn [fst]. symmetry. apply epoch_result_open.
Qed.

(** C22: the searches of the Root stream always end, within their 64 doubling
    pages, and find what stands on the contract: LatestRoot the newest standing
    Epoch, previousRoot the newest one before the target, standingRoots exactly the
    standing Roots of its range, voided and reposted Epochs and draw Roots
    notwithstanding. *)
Theorem Searches_find_standing `{!ReadsChain (e_reader e) cv (e_tip e)} loaded target first s :
  chain_ok e cv stack → ready e cv loaded s →
  (LatestRoot e s).1 = match head stack with Some r => Ok (rp_ID r) | None => Err errNoRootPosted end ∧
  (previousRoot e target s).1 = Ok (previous_of stack target) ∧
  ∃ m, (standingRoots e first target s).1 = Ok m ∧
    ∀ id r, m !! id = Some r ↔ r ∈ stack ∧ rp_ID r = id ∧ first ≤ id < target.
Proof.
  intros Hchain Hs.
  destruct (answers_LatestRoot e cv stack Hchain loaded s Hs) as (s1 & -> & _).
  destruct (answers_previousRoot e cv stack Hchain loaded target s Hs) as (s2 & -> & _).
  destruct (answers_standingRoots e cv stack Hchain loaded first target) as (m & Hm & Hst).
  destruct (Hm s Hs) as (s3 & -> & _). split_and!; [done|done|]. exists m. split; [done|]. intros id r. apply Hst.
Qed.
End theorems.

(** ** The claims applied to the hourly chain *)

Lemma hour_epoch_2 : epoch_ok 2.
Proof. by unfold epoch_ok, EpochSeconds. Qed.

Lemma hour_ready : ready hour_engine hour_chain false (newEngineState [] newWire).
Proof. split; [exact hour_new_ok|done]. Qed.

(** Epoch 2 has a Result there: the two Holders, and a Root. *)
Example hour_result :
  (λ r, (er_CarryFrom r, (λ a, (ea_Account a, ea_MultBps a)) <$> er_Allocations r, er_HasRoot r)) <$>
    epoch_result sum_hash hour_engine hour_chain [hour_root] 2 =
  Ok ("carryOut of epoch 0 + the funding of 1 skipped Epoch", [(address_of 2, 10000); (address_of 3, 10000)], true)%string.
Proof. by vm_compute. Qed.

Lemma EngineCompute_correct_witness :
  ∃ b s', last_before hour_chain (tipNumber hour_engine) (w_End (WindowOf 2)) b ∧
    EngineCompute sum_hash hour_engine 2 (newEngineState [] newWire) =
      (setEndBlock b <$> epoch_result sum_hash hour_engine hour_chain [hour_root] 2, s') ∧
    ready hour_engine hour_chain true s'.
Proof.
  apply (EngineCompute_correct sum_hash hour_engine hour_chain [hour_root] false 2 (newEngineState [] newWire)).
  - exact hour_chain_ok.
  - exact hour_epoch_2.
  - exact hour_history_ok.
  - by apply hour_closed.
  - exact hour_ready.
Defined.

Lemma Walk_is_Computes_witness :
  (Walk sum_hash hour_engine 2 (newEngineState [] newWire)).1 =
    (links ← traverse (λ id, withoutEndBlock <$> (EngineCompute sum_hash hour_engine id (newEngineState [] newWire)).1)
       (rooted_before hour_engine hour_chain [hour_root] 2);
     last ← (EngineCompute sum_hash hour_engine 2 (newEngineState [] newWire)).1;
     mret (links ++ [last])).
Proof.
  apply (Walk_is_Computes sum_hash hour_engine hour_chain [hour_root] false false 2).
  - exact hour_chain_ok.
  - exact hour_epoch_2.
  - exact hour_history_ok.
  - by vm_compute.
  - by apply hour_closed.
  - exact hour_ready.
  - exact hour_ready.
Defined.

Lemma Searches_find_standing_witness :
  (LatestRoot hour_engine (newEngineState [] newWire)).1 = Ok 0 ∧
  (previousRoot hour_engine 2 (newEngineState [] newWire)).1 = Ok (Some hour_root) ∧
  ∃ m, (standingRoots hour_engine 0 2 (newEngineState [] newWire)).1 = Ok m ∧
    ∀ id r, m !! id = Some r ↔ r ∈ [hour_root] ∧ rp_ID r = id ∧ 0 ≤ id < 2.
Proof.
  apply (Searches_find_standing hour_engine hour_chain [hour_root] false 2 0 (newEngineState [] newWire)).
  - exact hour_chain_ok.
  - exact hour_ready.
Defined.
