(* ===== verification/ChainReader.v ===== *)
(** * chain: the Reader

    [reader.go]: every read is put to all endpoints and answered only when they
    agree. Goroutines are run one after the other in an order that [schedule] picks
    afresh each time, so the first failure is any of them; a failed fan-out runs no
    further job, as its cancellation stops them. [FanOut] interleaves their steps. *)
From S2P Require Import Prelude Sorts Bytes Text Merkle Twab Chain StateMonad Wire Reader.
From Stdlib Require Import QArith.

Open Scope Z_scope.

Definition MaxLogRange : Z := 2000.
Definition SparseLogRange : Z := 1000000.
Definition HeaderBatch : nat := 20.
Definition DefaultCallsPerSecond : float64 := Float 15.
Definition defaultConcurrency : Z := 2.

Definition Latest : Finality := "latest".
Definition Safe : Finality := "safe".
Definition Finalized : Finality := "finalized".

Definition ParseFinality (s : string) : Res chainError Finality :=
  if decide (s = Latest) then Ok s
  else if decide (s = Safe) then Ok s
  else if decide (s = Finalized) then Ok s
  else Err (errFinality s).

Record Config := mkConfig {
  cfg_Endpoints : list string;
  cfg_Token : Address;
  cfg_Distributor : Address;
  cfg_PonsFactory : Address;
  cfg_CallsPerSecond : float64;
  cfg_Concurrency : Z;
}.

(** [chain.Reader], with [endpoint.label] and the pace of each endpoint. *)
Record chainReader := mkChainReader {
  cr_endpoints : list (string * float64);
  cr_token : Address;
  cr_distributor : Address;
  cr_factory : Address;
  cr_concurrency : Z;
}.

Section config.
(** [url.Parse], to the scheme and the host. *)
Context (urlParse : string → option (string * string)).

(** [newEndpoint], at a position from 1. *)
Definition newEndpoint (raw : string) (position : nat) (rate : float64) : Res chainError (string * float64) :=
  match urlParse raw with
  | None => Err (errEndpointURL position)
  | Some (scheme, host) =>
      if negb (bool_decide (scheme = "http")) && negb (bool_decide (scheme = "https"))
      then Err (errEndpointURL position)
      else if decide (host = EmptyString) then Err (errEndpointURL position)
      else Ok (("endpoint " +:+ FormatUint 10 (Z.of_nat position) +:+ " (" +:+ host +:+ ")")%string, rate)
  end.

(** [chain.New]. *)
Definition ChainNew (cfg : Config) : Res chainError chainReader :=
  if (length (cfg_Endpoints cfg) =? 0)%nat then Err errNoEndpoint
  else
    let concurrency := if cfg_Concurrency cfg <=? 0 then defaultConcurrency else cfg_Concurrency cfg in
    let rate := if float_eq (cfg_CallsPerSecond cfg) (Float 0) then DefaultCallsPerSecond else cfg_CallsPerSecond cfg in
    if float_lt rate (Float 0) then Err errRate
    else
      endpoints ← traverseI (λ i raw, newEndpoint raw (i + 1) rate) 0 (cfg_Endpoints cfg);
      if decide (cfg_Token cfg = zeroAddress) then Err errNoToken
      else if decide (cfg_Distributor cfg = zeroAddress) then Err errNoDistributor
      else mret (mkChainReader endpoints (cfg_Token cfg) (cfg_Distributor cfg) (cfg_PonsFactory cfg) concurrency).
End config.

(** [Reader.Endpoints]. *)
Definition endpointLabels (r : chainReader) : list string := fst <$> cr_endpoints r.

(** ** tooBig *)

(** [strings.ToLower], which only matters where it yields ASCII: of the letters
    outside it, U+0130 and U+212A alone do. *)
Fixpoint ToLower (s : string) : string :=
  match s with
  | EmptyString => EmptyString
  | String "196" (String "176" s) => String "i" (ToLower s)
  | String "226" (String "132" (String "170" s)) => String "k" (ToLower s)
  | String c s =>
      let k := ascii_code c in
      String (if (65 <=? k) && (k <=? 90) then ascii_at (k + 32) else c) (ToLower s)
  end.

Fixpoint HasPrefix (s prefix : string) : bool :=
  match prefix, s with
  | EmptyString, _ => true
  | String a prefix, String b s => bool_decide (a = b) && HasPrefix s prefix
  | String _ _, EmptyString => false
  end.

(** [strings.Contains]. *)
Fixpoint Contains (s substr : string) : bool :=
  HasPrefix s substr || match s with EmptyString => false | String _ s => Contains s substr end.

Definition tooBigPhrases : list string :=
  [ "exceeds limit"; "limit exceeded"; "more than"; "too many"; "size exceeded"; "timeout exceeded";
    "too wide"; "too large"; "range is too" ]%string.

(** [errors.As(err, &rpcErr)]. *)
Fixpoint asRPCError (err : chainError) : option (Z * string) :=
  match err with
  | errRPC code message => Some (code, message)
  | errField _ cause | errEntry _ cause | errEndpoint _ cause | errBatchRefused cause | errGaveUp cause => asRPCError cause
  | _ => None
  end.

Definition tooBig (err : chainError) : bool :=
  match asRPCError err with
  | None => false
  | Some (_, message) => existsb (Contains (ToLower message)) tooBigPhrases
  end.

(** ** Lists *)

(** [slices.Compact]. *)
Fixpoint Compact (l : list Z) : list Z :=
  match l with
  | [] => []
  | x :: l => match l with
              | [] => [x]
              | y :: _ => if x =? y then Compact l else x :: Compact l
              end
  end.

(** Batches of [n]; a list has no more of them than elements. *)
Fixpoint batchesOf {A} (fuel n : nat) (l : list A) : list (list A) :=
  match fuel, l with
  | O, _ | _, [] => []
  | S fuel, _ => take n l :: batchesOf fuel n (drop n l)
  end.

Section reader.
Context (keccak256 : list byte → Hash).
Context (server : nat → nat → rpcPost → httpReply) (schedule : nat → nat → list nat) (r : chainReader).

Definition endpoints : nat := length (cr_endpoints r).

(** The order in which [n] concurrent jobs finish. *)
Definition finishing (n : nat) : Wire (list nat) := gets (λ s, schedule (nt_clock s) n).

(** One job of [eachEndpoint], writing its answer at its own index. *)
Definition answerAt {A} (fn : nat → Wire A) (answers : gmap nat A) (i : nat) : Wire (gmap nat A) :=
  a ← catch (fn i) (λ err, throw (errEndpoint i err));
  mret (<[i := a]> answers).

(** [Reader.eachEndpoint]. *)
Definition eachEndpoint {A} (fn : nat → Wire A) : Wire (list A) :=
  order ← finishing endpoints;
  answers ← foldS (answerAt fn) order ∅;
  lift (traverse (λ i, match answers !! i with Some a => Ok a | None => Fault GoPanic end) (seq 0 endpoints)).

(** [Reader.inParallel]: jobs that write a shared variable. *)
Definition inParallel {B} (n : nat) (fn : B → nat → Wire B) (b : B) : Wire B :=
  if (n =? 0)%nat then mret b
  else order ← finishing n; foldS fn order b.

(** The comparison of [crossCheck], from answer [i] on. *)
Fixpoint agreeFrom {A} (canonical : A → list byte) (first : list byte) (i : nat) (answers : list A)
    : Res chainError () :=
  match answers with
  | [] => Ok ()
  | a :: answers =>
      if decide (first = canonical a) then agreeFrom canonical first (S i) answers
      else Err (errDisagreement i)
  end.

Definition crossCheck {A} (read : nat → Wire A) (canonical : A → list byte) : Wire A :=
  if (endpoints =? 1)%nat then catch (read 0%nat) (λ err, throw (errEndpoint 0 err))
  else
    answers ← eachEndpoint read;
    match answers with
    | [] => lift (Fault GoPanic)
    | first :: rest =>
        _ ← lift (agreeFrom canonical (canonical first) 1 rest);
        mret first
    end.

(** ** Reads *)

Definition ChainID : Wire Z := crossCheck (chainIdOf server) (appendUint64 []).

Definition BlockByNumber (number : Z) : Wire Block :=
  crossCheck (λ i, blockByTag server i (quantity number)) canonicalBlock.

(** [slices.MinFunc] and [slices.MaxFunc] by number: the first of the extremes. *)
Definition lowestBlock (b : Block) (l : list Block) : Block :=
  foldl (λ m b, if b_Number b <? b_Number m then b else m) b l.
Definition highestBlock (b : Block) (l : list Block) : Block :=
  foldl (λ m b, if b_Number m <? b_Number b then b else m) b l.

Definition Head (level : Finality) : Wire Tip :=
  tips ← eachEndpoint (λ i, blockByTag server i level);
  match tips with
  | [] => lift (Fault GoPanic)
  | b :: tips =>
      let lowest := lowestBlock b tips in
      if (endpoints =? 1)%nat then mret (mkTip lowest level 0)
      else
        agreed ← BlockByNumber (b_Number lowest);
        mret (mkTip agreed level (u64 (b_Number (highestBlock b tips) - b_Number lowest)))
  end.

(** One batch of [Timestamps]. *)
Definition stampBatch (batches : list (list Z)) (out : gmap Z Z) (i : nat) : Wire (gmap Z Z) :=
  numbers ← lift (index batches i);
  headers ← crossCheck (λ i, blocksByNumber server i numbers) canonicalBlocks;
  mret (foldl (λ out h, <[b_Number h := b_Timestamp h]> out) out headers).

Definition Timestamps (blocks : list Z) : Wire (gmap Z Z) :=
  let wanted := Compact (sort_by Z.compare blocks) in
  let batches := batchesOf (length wanted) HeaderBatch wanted in
  inParallel (length batches) (stampBatch batches) ∅.

(** [stamp]: an event with its Site's timestamp set. *)
Definition stampSite (stamps : gmap Z Z) (s : Site) : Site :=
  mkSite (site_BlockNumber s) (site_BlockHash s) (site_LogIndex s) (default 0 (stamps !! site_BlockNumber s)).
Definition stampTransfer (stamps : gmap Z Z) (t : ChainTransfer) : ChainTransfer :=
  mkChainTransfer (stampSite stamps (ct_Site t)) (ct_From t) (ct_To t) (ct_Value t).
Definition stampExclusion (stamps : gmap Z Z) (x : ChainExclusion) : ChainExclusion :=
  mkChainExclusion (stampSite stamps (ce_Site x)) (ce_Account x).
Definition stampRoot (stamps : gmap Z Z) (p : RootPosted) : RootPosted :=
  mkRootPosted (stampSite stamps (rp_Site p)) (rp_Kind p) (rp_ID p) (rp_Root p) (rp_Totals p) (rp_CarryIn p).

Definition stampAll {A} (siteOf : A → Site) (put : gmap Z Z → A → A) (events : list A) : Wire (list A) :=
  stamps ← Timestamps ((λ x, site_BlockNumber (siteOf x)) <$> events);
  mret (put stamps <$> events).

(** The loop of [Reader.logs]. A turn reads a page of at least one block or halves
    the span, which is below 2^64. *)
Fixpoint logsFrom (fuel : nat) (address : Address) (topic0 : Hash) (start to span : Z) (out : list eventLog)
    : Wire (list eventLog) :=
  match fuel with
  | O => lift (Fault OutOfFuel)
  | S fuel => λ s,
      let end_ := if span <=? to - start then start + span - 1 else to in
      match crossCheck (λ i, getLogs server i address topic0 start end_) canonicalLogs s with
      | (Ok page, s) =>
          let out := out ++ page in
          if end_ =? to then (Ok out, s) else logsFrom fuel address topic0 (end_ + 1) to span out s
      | (Err err, s) =>
          if (1 <? span) && tooBig err then logsFrom fuel address topic0 start to (span / 2) out s
          else (Err err, s)
      | (Fault x, s) => (Fault x, s)
      end
  end.

Definition logs (address : Address) (topic0 : Hash) (from to span : Z) : Wire (list eventLog) :=
  if to <? from then throw (errBackwards from to)
  else logsFrom (Z.to_nat (to - from + 1) + 64) address topic0 from to span [].

Definition Transfers (from to : Z) : Wire (list ChainTransfer) :=
  ls ← logs (cr_token r) (topicTransfer keccak256) from to MaxLogRange;
  out ← lift (traverse (decodeTransfer keccak256) ls);
  stampAll ct_Site stampTransfer out.

Definition Exclusions (from to : Z) : Wire (list ChainExclusion) :=
  ls ← logs (cr_distributor r) (topicExcludedAppended keccak256) from to SparseLogRange;
  out ← lift (traverse (decodeExcludedAppended keccak256) ls);
  stampAll ce_Site stampExclusion out.

Definition Roots (from to : Z) : Wire (list RootPosted) :=
  ls ← logs (cr_distributor r) (topicRootPosted keccak256) from to SparseLogRange;
  out ← lift (traverse (decodeRootPosted keccak256) ls);
  stampAll rp_Site stampRoot out.

Definition callAt (to : Address) (data : list byte) (at_ : Z) : Wire (list byte) :=
  crossCheck (λ i, ethCallAt server i to data at_) (λ b, b).

Definition ReadLedger (kind : Kind) (id at_ : Z) : Wire LedgerBook :=
  data ← callAt (cr_distributor r) (encodeLedgerCall keccak256 kind id) at_;
  lift (decodeLedger data).

Definition Excluded (at_ : Z) : Wire (list Address) :=
  data ← callAt (cr_distributor r) (selectorExcluded keccak256) at_;
  lift (decodeAddressArray data).

Definition LaunchCurve (at_ : Z) : Wire Address :=
  if decide (cr_factory r = zeroAddress) then throw errNoFactory
  else
    data ← callAt (cr_factory r) (encodeGetLaunchedToken keccak256 (cr_token r)) at_;
    lift (decodeLaunchedToken data).

(** The binary search of [EndBlock], keeping the headers it probed. The interval of
    block numbers halves, so 64 turns are enough. *)
Fixpoint endSearch (fuel : nat) (end_ lo hi : Z) (probed : gmap Z Block) : Wire Block :=
  if 1 <? hi - lo then
    match fuel with
    | O => lift (Fault OutOfFuel)
    | S fuel =>
        let mid := lo + (hi - lo) / 2 in
        block ← BlockByNumber mid;
        let probed := <[mid := block]> probed in
        if b_Timestamp block <? end_ then endSearch fuel end_ mid hi probed
        else endSearch fuel end_ lo mid probed
    end
  else mret (default (mkBlock 0 zeroHash zeroHash 0) (probed !! lo)).

Definition EndBlock (epochID : Z) (tip : Tip) : Wire Block :=
  let end_ := w_End (WindowOf epochID) in
  let head := tip_Block tip in
  if b_Timestamp head <? end_ then throw (errEpochNotClosed epochID (b_Number head) (b_Timestamp head))
  else
    genesis ← BlockByNumber 0;
    if end_ <=? b_Timestamp genesis then throw (errPredatesChain epochID)
    else endSearch 64 end_ 0 (b_Number head) {[ 0 := genesis ]}.

(** The Reader as its clients are given it: its methods, over the wire. *)
Definition readerOf : Reader := mkReader (cr_token r) (cr_distributor r) (cr_factory r)
  BlockByNumber Transfers Exclusions Roots ReadLedger LaunchCurve EndBlock.

End reader.
