(* ===== verification/Pacing.v ===== *)
(** * chain: how fast an endpoint is asked

    The time of [rpc.go], which [Wire] leaves out: the token bucket every request is
    charged to, and the waits between the attempts of one round trip. Times and
    durations are nanoseconds in an int64. The bucket's float64s are rationals, the
    infinities and NaN; rounding is not modelled. What a float64 out of an int64's range
    is converted to is the machine's choice, and a parameter. *)
From S2P Require Import Prelude Sorts Bytes Text Json Paths Merkle Twab Chain StateMonad Wire Reader ChainReader.
From Stdlib Require Import QArith Qminmax Lqa Qround.

Open Scope Z_scope.

Definition Second : Z := 1000000000.
Definition Millisecond : Z := 1000000.

(** ** float64 *)

Definition float_of (z : Z) : float64 := Float (inject_Z z).

Definition float_neg (x : float64) : float64 :=
  match x with Float q => Float (- q) | Infinite negative => Infinite (negb negative) | NaN => NaN end.

Definition float_add (x y : float64) : float64 :=
  match x, y with
  | Float p, Float q => Float (p + q)
  | NaN, _ | _, NaN => NaN
  | Infinite a, Infinite b => if bool_decide (a = b) then Infinite a else NaN
  | Infinite a, _ | _, Infinite a => Infinite a
  end.
Definition float_sub (x y : float64) : float64 := float_add x (float_neg y).

Definition negative (q : Q) : bool := negb (Qle_bool 0 q).

Definition float_mul (x y : float64) : float64 :=
  match x, y with
  | Float p, Float q => Float (p * q)
  | NaN, _ | _, NaN => NaN
  | Infinite a, Infinite b => Infinite (xorb a b)
  | Infinite a, Float q | Float q, Infinite a => if Qeq_bool q 0 then NaN else Infinite (xorb a (negative q))
  end.

Definition float_div (x y : float64) : float64 :=
  match x, y with
  | Float p, Float q =>
      if Qeq_bool q 0 then (if Qeq_bool p 0 then NaN else Infinite (negative p)) else Float (p / q)
  | NaN, _ | _, NaN => NaN
  | Infinite _, Infinite _ => NaN
  | Infinite a, Float q => Infinite (xorb a (negative q))
  | Float _, Infinite _ => Float 0
  end.

(** The built-in [min]. *)
Definition float_min (x y : float64) : float64 :=
  match x, y with NaN, _ | _, NaN => NaN | _, _ => if float_le x y then x else y end.

(** [time.Time.Sub], which saturates, and [Duration.Seconds]. *)
Definition Sub (t u : Z) : Z := Z.max (- 2 ^ 63) (Z.min (2 ^ 63 - 1) (t - u)).
Definition Seconds (d : Z) : Q := (inject_Z d / inject_Z Second)%Q.

(** ** The pacer *)

Record pacer := mkPacer {
  pc_rate : float64;         (* tokens per second *)
  pc_capacity : float64;
  pc_tokens : float64;
  pc_last : Z;
}.

Definition newPacer (rate capacity : float64) (now : Z) : pacer := mkPacer rate capacity capacity now.

(** The pacer of an endpoint, which holds two batches of headers. *)
Definition endpointPacer (callsPerSecond : float64) (now : Z) : pacer :=
  newPacer callsPerSecond (float_of (2 * Z.of_nat HeaderBatch)) now.

Section pacer.
(** A conversion to an int64 that does not fit one. *)
Context (outside : float64 → Z).

(** [time.Duration] of a float64, which truncates. *)
Definition toDuration (x : float64) : Z :=
  match x with
  | Float q =>
      let d := Z.quot (Qnum q) (Zpos (Qden q)) in
      if (- 2 ^ 63 <=? d) && (d <? 2 ^ 63) then d else outside x
  | _ => outside x
  end.

(** [pacer.wait], called at [now]: what [waitFor] is given, if it is called. *)
Definition wait (now n : Z) (p : pacer) : option Z * pacer :=
  let tokens := float_min (pc_capacity p) (float_add (pc_tokens p) (float_mul (Float (Seconds (Sub now (pc_last p)))) (pc_rate p))) in
  let tokens := float_sub tokens (float_of n) in
  let p := mkPacer (pc_rate p) (pc_capacity p) tokens now in
  let debt := float_neg tokens in
  if float_le debt (Float 0) then (None, p)
  else (Some (toDuration (float_mul (float_div debt (pc_rate p)) (float_of Second))), p).

(** [waitFor]: a timer of no time or less fires at once. *)
Definition waitFor (d : option Z) : Z := match d with Some d => Z.max 0 d | None => 0 end.

(** Callers in the order they take the lock, each with how many calls it makes; each is
    let go when its wait is over. *)
Fixpoint grants (p : pacer) (callers : list (Z * Z)) : list (Z * Z) :=
  match callers with
  | [] => []
  | (now, n) :: callers =>
      let '(d, p) := wait now n p in
      (now + waitFor d, n) :: grants p callers
  end.
End pacer.

(** ** Waiting between attempts *)

Definition retryBase : Z := 250 * Millisecond.
Definition retryCap : Z := 8 * Second.

(** [strconv.Atoi]. *)
Definition Atoi (s : string) : option Z :=
  let '(negative, digits) :=
    match s with
    | String "-" digits => (true, digits)
    | String "+" digits => (false, digits)
    | digits => (false, digits)
    end in
  match ParseDigits 10 digits with
  | Some n => let n := if (negative : bool) then - n else n in if (- 2 ^ 63 <=? n) && (n <? 2 ^ 63) then Some n else None
  | None => None
  end.

(** [retryAfter], of the header's text: [time.Duration(seconds) * time.Second] wraps
    around before it is compared with the cap. *)
Definition retryAfter (header : string) : Z :=
  match Atoi (TrimSpace header) with
  | Some seconds => if seconds <? 0 then 0 else Z.min (i64 (seconds * Second)) retryCap
  | None => 0
  end.

(** [backoff] before attempt [attempt], after an error that carried [after]; [Int64N]
    draws below its argument. *)
Definition backoff (Int64N : Z → Z) (attempt after : Z) : Z :=
  if 0 <? after then after
  else
    let window := Z.min (i64 (Z.shiftl retryBase (attempt - 1))) retryCap in
    Int64N window + retryBase.

(** The waits of one [roundTrip], in its loop over the attempts. An attempt is refused
    with some Retry-After and tried again, or it ends the loop, with an answer or for
    good; [last] is what the error before it carried. *)
Section roundTrip.
Context (draws : nat → Z → Z) (refusal : nat → option string).

Fixpoint retryWaits (more attempt : nat) (last : Z) : list Z :=
  match more with
  | O => []
  | S more =>
      (if (0 <? attempt)%nat then [backoff (draws attempt) (Z.of_nat attempt) last] else []) ++
      match refusal attempt with
      | Some header => retryWaits more (S attempt) (retryAfter header)
      | None => []
      end
  end.

Definition roundTripWaits : list Z := retryWaits maxAttempts 0 0.
End roundTrip.

(** ** The tokens a time earns *)

Lemma Second_pos : (0 < inject_Z Second)%Q.
Proof. reflexivity. Qed.
Lemma Second_nonzero : ¬ (inject_Z Second == 0)%Q.
Proof. discriminate. Qed.
#[local] Hint Resolve Second_pos Second_nonzero : core.

Section pace.
Context (outside : float64 → Z) (rate capacity : Q) (Hrate : (0 < rate)%Q) (Hcapacity : (0 <= capacity)%Q).

Definition earned (d : Z) : Q := (Seconds d * rate)%Q.

Lemma earned_add a b : (earned (a + b) == earned a + earned b)%Q.
Proof using Type. unfold earned, Seconds, Qdiv. rewrite inject_Z_plus. ring. Qed.

Lemma earned_nonneg d : 0 ≤ d → (0 <= earned d)%Q.
Proof using Hrate.
  intros Hd. unfold earned, Seconds. apply Qmult_le_0_compat; [|lra]. apply Qle_shift_div_l; [auto|].
  rewrite Qmult_0_l. change 0%Q with (inject_Z 0). by rewrite <-Zle_Qle.
Qed.

Lemma earned_split a b c : (earned (c - a) == earned (b - a) + earned (c - b))%Q.
Proof using Type. rewrite <-earned_add. by replace (b - a + (c - b)) with (c - a) by lia. Qed.

Lemma earned_mono a b : a ≤ b → (earned a <= earned b)%Q.
Proof using Hrate.
  intros Hab. pose proof (earned_nonneg (b - a) ltac:(lia)). pose proof (earned_add a (b - a)) as H1.
  replace (a + (b - a)) with b in H1 by lia. lra.
Qed.

(** A debt an int64 of nanoseconds can hold the wait for. *)
Definition affordable (debt : Q) : Prop := (debt * inject_Z Second < inject_Z (2 ^ 63) * rate)%Q.

(** The wait a debt costs, to the nanosecond below. *)
Lemma truncated_debt debt : (0 < debt)%Q → affordable debt →
  let d := toDuration outside (float_mul (float_div (Float debt) (Float rate)) (float_of Second)) in
  0 ≤ d ∧ (earned d <= debt)%Q ∧ (debt < earned (d + 1))%Q.
Proof using Hrate.
  intros Hdebt Hfits. cbn [float_div]. assert (Qeq_bool rate 0 = false) as ->.
  { apply not_true_iff_false. rewrite Qeq_bool_iff. intros H. rewrite H in Hrate. by apply Qlt_irrefl in Hrate. }
  cbn [float_mul float_of toDuration]. set (x := (debt / rate * inject_Z Second)%Q). set (d := Z.quot _ _).
  assert (0 <= x)%Q as Hx.
  { unfold x. apply Qmult_le_0_compat; [|by apply Qlt_le_weak]. apply Qle_shift_div_l; [done|]. lra. }
  assert (d = Qfloor x) as Hd.
  { unfold d, Qfloor. destruct x as [num den]. cbn in *. apply Z.quot_div_nonneg; [|done]. unfold Qle in Hx. cbn in Hx. lia. }
  assert (0 ≤ d) by (rewrite Hd; rewrite <-(Qfloor_Z 0); by apply Qfloor_resp_le).
  pose proof (Qfloor_le x) as Hlo. pose proof (Qlt_floor x) as Hhi. rewrite <-Hd in Hlo, Hhi.
  assert (d < 2 ^ 63) as Hmax.
  { rewrite Zlt_Qlt. eapply Qle_lt_trans; [exact Hlo|]. unfold x. apply (Qmult_lt_r _ _ rate Hrate).
    eapply Qle_lt_trans; [|exact Hfits]. apply Qle_lteq. right. field. intros Hz. rewrite Hz in Hrate. by apply Qlt_irrefl in Hrate. }
  rewrite (proj2 (Z.leb_le (- 2 ^ 63) d)), (proj2 (Z.ltb_lt d (2 ^ 63))) by lia. cbn [andb].
  assert (debt == Seconds 1 * rate * x)%Q as Hdx.
  { unfold x, Seconds. field. split; first [done | by auto | intros ?; lra]. }
  assert (∀ z, earned z == Seconds 1 * rate * inject_Z z)%Q as Hc.
  { intros z. unfold earned, Seconds. field. auto. }
  assert (0 < Seconds 1 * rate)%Q as Hpos by (apply (Qmult_lt_0_compat (Seconds 1)); [done|lra]).
  split; [done|]. split; rewrite Hc, Hdx; [by apply Qmult_le_l|by apply Qmult_lt_l].
Qed.

(** A pacer of this rate and capacity. *)
Definition paced (tokens : Q) (last : Z) : pacer := mkPacer (Float rate) (Float capacity) (Float tokens) last.

Lemma float_min_Q p q : ∃ m, float_min (Float p) (Float q) = Float m ∧ (m <= p)%Q ∧ (m <= q)%Q ∧ (m = p ∨ m = q).
Proof using Type.
  cbn. destruct (Qle_bool p q) eqn:E.
  - apply Qle_bool_iff in E. exists p. split_and!; [done|lra|done|by left].
  - assert (¬ (p <= q)%Q) as Hn by (intros H; apply Qle_bool_iff in H; congruence). apply Qnot_le_lt in Hn.
    exists q. split_and!; [done|lra|lra|by right].
Qed.

(** One call of [wait]: what it charges and how long it holds the caller. *)
Lemma wait_spec now n tokens last debt d p' :
  last ≤ now → (inject_Z n <= capacity)%Q → 0 ≤ n → (0 <= debt)%Q → (- debt <= tokens)%Q → affordable (debt + inject_Z n) →
  wait outside now n (paced tokens last) = (d, p') →
  ∃ tokens', p' = paced tokens' now ∧ 0 ≤ waitFor d ∧ (- (debt + inject_Z n) <= tokens')%Q ∧
    (tokens' + inject_Z n <= capacity)%Q ∧ (tokens' + inject_Z n <= tokens + earned (now - last))%Q ∧
    ((0 <= tokens')%Q ∧ waitFor d = 0 ∨ (earned (waitFor d) <= - tokens')%Q ∧ (- tokens' < earned (waitFor d + 1))%Q).
Proof using Hrate Hcapacity.
  intros Hnow Hn Hn0 Hdebt Htok Hfits. unfold wait, paced. cbn [pc_rate pc_capacity pc_tokens pc_last float_mul float_add].
  fold (earned (Sub now last)). pose proof (earned_mono (Sub now last) (now - last) ltac:(unfold Sub; lia)) as Hsub.
  pose proof (earned_nonneg (Sub now last) ltac:(unfold Sub; lia)) as Hsub0.
  destruct (float_min_Q capacity (tokens + earned (Sub now last))) as (m & -> & Hmc & Hmt & Hm). unfold float_sub.
  cbn [float_of float_neg float_add float_le]. set (tokens' := (m + - inject_Z n)%Q).
  assert (- (debt + inject_Z n) <= tokens')%Q as Hlow by (unfold tokens'; destruct Hm as [-> | ->]; lra).
  destruct (Qle_bool _ _) eqn:E; intros [= <- <-]; exists tokens'; cbn [waitFor].
  - apply Qle_bool_iff in E. split_and!; try done; [unfold tokens'; lra..|]. left. split; [lra|done].
  - assert (0 < - tokens')%Q as Hpos.
    { apply Qnot_le_lt. intros H1. apply Qle_bool_iff in H1. congruence. }
    destruct (truncated_debt (- tokens') Hpos) as (Hd & Hlo & Hhi).
    { unfold affordable in *. eapply Qle_lt_trans; [|exact Hfits]. apply Qmult_le_compat_r; [lra|by apply Qlt_le_weak]. }
    rewrite Z.max_r by exact Hd. split_and!; try done; [unfold tokens'; lra..|]. right. by split.
Qed.

(** ** No window is overspent *)

(** Callers one after the other from [now], none asking for more than the bucket holds. *)
Fixpoint queue (now : Z) (callers : list (Z * Z)) : Prop :=
  match callers with
  | [] => True
  | (t, n) :: callers => now ≤ t ∧ 0 ≤ n ∧ (inject_Z n <= capacity)%Q ∧ queue t callers
  end.

(** How many calls are asked for, and how many are let go in a window, both ends
    included. *)
Definition asked (callers : list (Z * Z)) : Z := sum_of snd callers.
Definition released (a b : Z) (grants : list (Z * Z)) : Z :=
  sum_of snd (filter (λ g : Z * Z, a ≤ g.1 ≤ b) grants).

Lemma released_cons a b g gs :
  released a b (g :: gs) = (if decide (a ≤ g.1 ≤ b) then snd g else 0) + released a b gs.
Proof using Type. unfold released. rewrite filter_cons. by destruct (decide _). Qed.

(** A bucket in debt by no more than [debt], and callers an int64 can hold the waits of. *)
Definition payable (tokens debt : Q) (callers : list (Z * Z)) : Prop :=
  (0 <= debt)%Q ∧ (- debt <= tokens)%Q ∧ affordable (debt + inject_Z (asked callers)).

Lemma asked_nonneg now callers : queue now callers → 0 ≤ asked callers.
Proof using Type.
  revert now. induction callers as [|[t n] callers IH]; intros now; [done|]. intros (_ & Hn & _ & Hq%IH).
  unfold asked. rewrite sum_of_cons. cbn. fold (asked callers). lia.
Qed.

(** [wait_spec] for the next of a queue of callers, and what is left for the others. *)
Lemma queue_step now tokens debt t n callers d p' :
  queue now ((t, n) :: callers) → payable tokens debt ((t, n) :: callers) → wait outside t n (paced tokens now) = (d, p') →
  ∃ tokens', p' = paced tokens' t ∧ queue t callers ∧ payable tokens' (debt + inject_Z n) callers ∧ 0 ≤ waitFor d ∧
    (tokens' + inject_Z n <= capacity)%Q ∧ (tokens' + inject_Z n <= tokens + earned (t - now))%Q ∧
    ((0 <= tokens')%Q ∧ waitFor d = 0 ∨ (earned (waitFor d) <= - tokens')%Q ∧ (- tokens' < earned (waitFor d + 1))%Q).
Proof using Hrate Hcapacity.
  intros (Ht & Hn & Hnc & Hq) (Hdebt & Htok & Hfits) Hwait. pose proof (asked_nonneg _ _ Hq) as Hmore.
  unfold asked in Hfits. rewrite sum_of_cons in Hfits. cbn [snd] in Hfits. fold (asked callers) in Hfits.
  rewrite inject_Z_plus in Hfits. rewrite Zle_Qle in Hn, Hmore. change (inject_Z 0) with 0%Q in Hn, Hmore.
  destruct (wait_spec t n tokens now debt d p') as (tokens' & -> & Hd & Hlow & Hcap & Hfill & Hends); try done.
  { by rewrite Zle_Qle. }
  { unfold affordable in *. eapply Qle_lt_trans; [|exact Hfits]. apply Qmult_le_compat_r; [lra|by apply Qlt_le_weak]. }
  exists tokens'. split_and!; try done. split; [lra|]. split; [exact Hlow|].
  unfold affordable in *. eapply Qle_lt_trans; [|exact Hfits]. apply Qmult_le_compat_r; [lra|by apply Qlt_le_weak].
Qed.

(** Nobody is let go before coming. *)
Lemma released_late a b callers : ∀ now tokens debt, queue now callers → payable tokens debt callers → b < now →
  released a b (grants outside (paced tokens now) callers) = 0.
Proof using Hrate Hcapacity.
  induction callers as [|[t n] callers IH]; intros now tokens debt Hq Hpay Hb; [done|]. cbn [grants].
  destruct (wait outside t n (paced tokens now)) as [d p'] eqn:E.
  destruct (queue_step _ _ _ _ _ _ _ _ Hq Hpay E) as (tokens' & -> & Hq' & Hpay' & Hd & _). destruct Hq as (Ht & _).
  rewrite released_cons. cbn [fst snd]. rewrite decide_False by lia. rewrite Z.add_0_l. eapply IH; [exact Hq'|exact Hpay'|lia].
Qed.

(** By [b], no more than the tokens there are and what is earned until then. *)
Lemma released_by b callers : ∀ now tokens debt, queue now callers → payable tokens debt callers → now ≤ b →
  (∀ a, inject_Z (released a b (grants outside (paced tokens now) callers)) <= Qmax 0 (tokens + earned (b + 1 - now)))%Q.
Proof using Hrate Hcapacity.
  induction callers as [|[t n] callers IH]; intros now tokens debt Hq Hpay Hb a; [apply Q.le_max_l|].
  cbn [grants]. destruct (wait outside t n (paced tokens now)) as [d p'] eqn:E.
  destruct (queue_step _ _ _ _ _ _ _ _ Hq Hpay E) as (tokens' & -> & Hq' & Hpay' & Hd & _ & Hfill & Hends).
  destruct Hq as (Ht & Hn & _). rewrite released_cons. cbn [fst snd].
  pose proof (Q.le_max_r 0 (tokens + earned (b + 1 - now))) as Hmax.
  pose proof (Q.le_max_l 0 (tokens + earned (b + 1 - now))) as Hmax0.
  pose proof (earned_split now t (b + 1)) as Hsplit.
  assert (0 <= inject_Z n)%Q as Hn' by (change 0%Q with (inject_Z 0); by rewrite <-Zle_Qle).
  destruct (Z.le_gt_cases t b) as [Htb|Htb].
  - specialize (IH t tokens' _ Hq' Hpay' Htb a). rewrite inject_Z_plus.
    destruct (Q.max_spec 0 (tokens' + earned (b + 1 - t))) as [[_ Hm]|[_ Hm]]; rewrite Hm in IH.
    + destruct (decide (a ≤ t + waitFor d ≤ b)); [|change (inject_Z 0) with 0%Q]; lra.
    + destruct (decide (a ≤ t + waitFor d ≤ b)) as [Hin|]; [|change (inject_Z 0) with 0%Q; lra].
      destruct Hends as [[Htok _]|[_ Hdebt]].
      * pose proof (earned_nonneg (b + 1 - t) ltac:(lia)). lra.
      * pose proof (earned_split t (t + (waitFor d + 1)) (b + 1)) as Hs2.
        replace (t + (waitFor d + 1) - t) with (waitFor d + 1) in Hs2 by lia.
        pose proof (earned_nonneg (b + 1 - (t + (waitFor d + 1))) ltac:(lia)). lra.
  - rewrite decide_False, Z.add_0_l by lia. rewrite (released_late a b callers t tokens' _ Hq' Hpay') by lia. exact Hmax0.
Qed.

Lemma released_window a b callers : a ≤ b → ∀ now tokens debt, queue now callers → payable tokens debt callers →
  (inject_Z (released a b (grants outside (paced tokens now) callers)) <= capacity + earned (b + 1 - a))%Q.
Proof using Hrate Hcapacity.
  intros Hab. induction callers as [|[t n] callers IH]; intros now tokens debt Hq Hpay; cbn [grants].
  { pose proof (earned_nonneg (b + 1 - a) ltac:(lia)). change (inject_Z (released a b [])) with 0%Q. lra. }
  destruct (wait outside t n (paced tokens now)) as [d p'] eqn:E.
  destruct (queue_step _ _ _ _ _ _ _ _ Hq Hpay E) as (tokens' & -> & Hq' & Hpay' & Hd & Hfill & _ & Hends).
  rewrite released_cons. cbn [fst snd]. destruct (decide (a ≤ t + waitFor d ≤ b)) as [Hin|]; [|rewrite Z.add_0_l; by eapply IH].
  destruct Hq as (_ & _ & Hnc & _).
  rewrite inject_Z_plus. pose proof (released_by b callers t tokens' _ Hq' Hpay' ltac:(lia) a) as Hrest.
  pose proof (earned_nonneg (b + 1 - a) ltac:(lia)).
  destruct (Q.max_spec 0 (tokens' + earned (b + 1 - t))) as [[_ Hm]|[_ Hm]]; rewrite Hm in Hrest; [|lra].
  destruct Hends as [[_ Hnow]|[Hdebt _]].
  - pose proof (earned_split a t (b + 1)). pose proof (earned_nonneg (t - a) ltac:(lia)). lra.
  - pose proof (earned_split t (t + waitFor d) (b + 1)) as Hs1. replace (t + waitFor d - t) with (waitFor d) in Hs1 by lia.
    pose proof (earned_split a (t + waitFor d) (b + 1)). pose proof (earned_nonneg (t + waitFor d - a) ltac:(lia)). lra.
Qed.
End pace.

(** C32: an endpoint is never asked faster than its rate. At a rate that is a positive
    number, however many callers queue at an endpoint, whenever they come, each for up to
    two batches of headers: in any window of time, of whatever length, the calls let go
    are at most two batches and what the rate earns in that window, to a nanosecond. The
    bound on the rate is that of an int64 of nanoseconds: all the calls asked for must
    take less than 2^63 of them. Past it the conversion of the wait is whatever the
    machine makes of it. *)
Theorem Pacer_holds_rate outside rate start callers a b :
  (0 < rate)%Q → queue (inject_Z (2 * Z.of_nat HeaderBatch)) start callers → affordable rate (inject_Z (asked callers)) → a ≤ b →
  (inject_Z (released a b (grants outside (endpointPacer (Float rate) start) callers)) <=
     inject_Z (2 * Z.of_nat HeaderBatch) + Seconds (b + 1 - a) * rate)%Q.
Proof.
  intros Hrate Hq Hfits Hab.
  assert (0 <= inject_Z (2 * Z.of_nat HeaderBatch))%Q as Hcap by (apply (Qle_bool_imp_le 0); reflexivity).
  apply (released_window outside rate _ Hrate Hcap a b callers Hab start _ 0); [exact Hq|].
  split; [lra|]. split; [lra|]. unfold affordable in *. by rewrite Qplus_0_l.
Qed.

(** What amd64 makes of a float64 that fits no int64. *)
Definition amd64 : float64 → Z := λ _, - 2 ^ 63.

(** Three batches at once, and a fourth two seconds later: at 10 calls a second the third
    waits two seconds, and so, behind it, does the fourth. *)
Definition four_batches : list (Z * Z) := [(0, 20); (0, 20); (0, 20); (2 * Second, 20)].

Example four_batches_grants :
  grants amd64 (endpointPacer (Float 10) 0) four_batches = [(0, 20); (0, 20); (2 * Second, 20); (4 * Second, 20)].
Proof. reflexivity. Qed.

Lemma Pacer_holds_rate_witness :
  released 0 (2 * Second) (grants amd64 (endpointPacer (Float 10) 0) four_batches) = 60 ∧
  (inject_Z (released 0 (2 * Second) (grants amd64 (endpointPacer (Float 10) 0) four_batches)) <=
     inject_Z 40 + Seconds (2 * Second + 1) * 10)%Q.
Proof.
  split; [by vm_compute|]. apply (Pacer_holds_rate amd64 10 0 four_batches 0 (2 * Second)).
  - reflexivity.
  - unfold four_batches, queue, Second. repeat split; try done; cbn; lia.
  - reflexivity.
  - done.
Defined.

(** ** Rates that pace nothing *)

Lemma nan_wait now n p : pc_rate p = NaN → ∃ p', wait amd64 now n p = (Some (- 2 ^ 63), p') ∧ pc_rate p' = NaN.
Proof.
  intros Hp. unfold wait. rewrite Hp.
  assert (float_min (pc_capacity p) (float_add (pc_tokens p) (float_mul (Float (Seconds (Sub now (pc_last p)))) NaN)) = NaN) as ->
    by (by destruct (pc_tokens p), (pc_capacity p)).
  by eexists.
Qed.

(** Between two calls at once there is nothing to refill. *)
Lemma wait_now outside now n rate capacity tokens d p :
  wait outside 0 n (mkPacer rate capacity tokens 0) = (d, p) →
  wait outside now n (mkPacer rate capacity tokens now) = (d, mkPacer rate capacity (pc_tokens p) now).
Proof.
  unfold wait. cbn [pc_rate pc_capacity pc_tokens pc_last]. assert (Sub now now = Sub 0 0) as -> by (unfold Sub; by rewrite Z.sub_diag).
  by destruct (float_le _ _); intros [= <- <-].
Qed.

(** C33: a rate that is not a number paces nothing, nor does one near zero. On amd64, with
    the rate NaN that the command line lets through, every caller is let go when it
    comes, whatever it asks for; and at a call in ten thousand million seconds, whose
    debts no int64 of nanoseconds holds the wait for, the third batch of headers, which
    should wait for thousands of years, goes with the first two. *)
Theorem Rates_unpaced start callers :
  grants amd64 (endpointPacer NaN start) callers = callers ∧
  let three_batches := [(start, 20); (start, 20); (start, 20)] in
  grants amd64 (endpointPacer (Float (1 # 10000000000)) start) three_batches = three_batches.
Proof.
  split.
  - assert (∀ p, pc_rate p = NaN → grants amd64 p callers = callers) as H; [|by apply H].
    induction callers as [|[now n] callers IH]; intros p Hp; [done|]. cbn [grants].
    destruct (nan_wait now n p Hp) as (p' & -> & Hp'). rewrite IH by done. do 2 f_equal. cbn. lia.
  - unfold endpointPacer, newPacer. cbn [grants].
    do 3 (erewrite wait_now by (vm_compute; reflexivity); cbn [pc_tokens waitFor]). by destruct start.
Qed.

(** ** Retrying *)

Definition draws_below (Int64N : Z → Z) : Prop := ∀ n, 0 < n → 0 ≤ Int64N n < n.

Lemma retryAfter_range header : retryAfter header ≤ retryCap.
Proof. unfold retryAfter. destruct (Atoi _) as [s|]; [|done]. destruct (s <? 0); [done|]. apply Z.le_min_r. Qed.

(** The jitter's window doubles from the base: no attempt reaches the cap. *)
Lemma backoff_window k : 1 ≤ k ≤ 4 → Z.min (i64 (Z.shiftl retryBase (k - 1))) retryCap = retryBase * 2 ^ (k - 1).
Proof. intros Hk. assert (k = 1 ∨ k = 2 ∨ k = 3 ∨ k = 4) as [-> | [-> | [-> | ->]]] by lia; by vm_compute. Qed.

Lemma backoff_drawn Int64N k after : draws_below Int64N → 1 ≤ k ≤ 4 → after ≤ 0 →
  retryBase ≤ backoff Int64N k after < retryBase * (1 + 2 ^ (k - 1)).
Proof.
  intros Hdraw Hk Ha. unfold backoff. rewrite (proj2 (Z.ltb_ge 0 after)), backoff_window by lia.
  pose proof (Z.pow_pos_nonneg 2 (k - 1) ltac:(lia) ltac:(lia)).
  destruct (Hdraw (retryBase * 2 ^ (k - 1))); unfold retryBase, Millisecond in *; lia.
Qed.

Lemma backoff_range Int64N k after : draws_below Int64N → 1 ≤ k ≤ 4 → after ≤ retryCap →
  0 < backoff Int64N k after ≤ retryCap.
Proof.
  intros Hdraw Hk Ha. destruct (Z.le_gt_cases after 0) as [Hle|Hgt].
  - pose proof (backoff_drawn Int64N k after Hdraw Hk Hle) as Hb.
    assert (2 ^ (k - 1) ≤ 2 ^ 3) by (apply Z.pow_le_mono_r; lia). unfold retryBase, retryCap, Millisecond, Second in *. lia.
  - unfold backoff. rewrite (proj2 (Z.ltb_lt 0 after)) by lia. lia.
Qed.

Section roundTrip.
Context (draws : nat → Z → Z) (refusal : nat → option string) (Hdraws : ∀ k, draws_below (draws k)).

Lemma retryWaits_range more : ∀ k last, last ≤ retryCap → (k + more ≤ 5)%nat →
  Forall (λ d, 0 < d ≤ retryCap) (retryWaits draws refusal more k last) ∧
  (length (retryWaits draws refusal more k last) ≤ if (0 <? k)%nat then more else more - 1)%nat.
Proof using Hdraws.
  induction more as [|more IH]; intros k last Hlast Hk; cbn [retryWaits]; [split; [done|by destruct k]|].
  assert (∀ header, Forall (λ d, 0 < d ≤ retryCap) (retryWaits draws refusal more (S k) (retryAfter header)) ∧
    (length (retryWaits draws refusal more (S k) (retryAfter header)) ≤ more)%nat) as Hnext.
  { intros header. apply (IH (S k)); [apply retryAfter_range|lia]. }
  assert (Forall (λ d, 0 < d ≤ retryCap) match refusal k with
      Some header => retryWaits draws refusal more (S k) (retryAfter header) | None => [] end ∧
    (length match refusal k with
      Some header => retryWaits draws refusal more (S k) (retryAfter header) | None => [] end ≤ more)%nat) as [H1 H2]
    by (destruct (refusal k); [apply Hnext|split; [done|cbn; lia]]).
  destruct k as [|k]; cbn [Nat.ltb Nat.leb app]; [split; [exact H1|lia]|]. split; [|cbn; lia].
  constructor; [|exact H1]. apply backoff_range; [apply Hdraws|lia|done].
Qed.
End roundTrip.

Lemma sum_of_bounded c l : Forall (λ d, 0 < d ≤ c) l → sum_of id l ≤ Z.of_nat (length l) * c.
Proof.
  induction 1 as [|d l Hd _ IH]; [done|]. rewrite sum_of_cons. change (length (d :: l)) with (S (length l)).
  rewrite Nat2Z.inj_succ, Z.mul_succ_l. unfold id at 1. lia.
Qed.

(** C34: retrying stays bounded whatever the endpoint says. A round trip is tried at most
    five times, so it waits at most four times, each time for longer than nothing and for
    no more than eight seconds: whatever the attempts bring, the headers and the draws, it
    waits at most 32 seconds. Refused to the end and told nothing, it waits four times,
    between one second and 4.75 in all. Told a number of seconds an int64 of nanoseconds
    can hold, it waits as long, up to the cap; past that the product wraps around, and the
    endpoint that asks for 585 years is asked again within a third of a second. *)
Theorem Retry_waits_bounded draws refusal :
  (∀ k, draws_below (draws k)) →
  let waits := roundTripWaits draws refusal in
  (length waits < maxAttempts)%nat ∧ Forall (λ d, 0 < d ≤ retryCap) waits ∧ sum_of id waits ≤ 32 * Second ∧
  ((∀ k, refusal k = Some EmptyString) → length waits = 4%nat ∧ Second ≤ sum_of id waits < 4750 * Millisecond) ∧
  (∀ Int64N k header seconds, Atoi (TrimSpace header) = Some seconds → 0 < seconds → seconds * Second < 2 ^ 63 →
     backoff Int64N k (retryAfter header) = Z.min (seconds * Second) retryCap) ∧
  retryAfter "18446744074" = 290448384.
Proof.
  intros Hdraws waits.
  destruct (retryWaits_range draws refusal Hdraws maxAttempts 0 0) as [Hrange Hlen];
    [done|unfold maxAttempts; lia|]. fold (roundTripWaits draws refusal) in Hrange, Hlen. fold waits in Hrange, Hlen.
  change (length waits ≤ 4)%nat in Hlen. split_and!; [change (length waits < 5)%nat; lia|exact Hrange| | | |reflexivity].
  - pose proof (sum_of_bounded retryCap _ Hrange) as Hs. unfold retryCap, Second in *. lia.
  - intros Hall. assert (waits = (λ k, backoff (draws k) (Z.of_nat k) 0) <$> [1%nat; 2%nat; 3%nat; 4%nat]) as ->.
    { unfold waits, roundTripWaits, maxAttempts. cbn [retryWaits Nat.ltb Nat.leb app].
      rewrite !Hall. by cbn [retryWaits app fmap list_fmap]. }
    split; [done|]. cbn [fmap list_fmap]. rewrite !sum_of_cons. change (sum_of _ []) with 0. unfold id.
    pose proof (backoff_drawn (draws 1%nat) 1 0 (Hdraws _) ltac:(lia) ltac:(lia)).
    pose proof (backoff_drawn (draws 2%nat) 2 0 (Hdraws _) ltac:(lia) ltac:(lia)).
    pose proof (backoff_drawn (draws 3%nat) 3 0 (Hdraws _) ltac:(lia) ltac:(lia)).
    pose proof (backoff_drawn (draws 4%nat) 4 0 (Hdraws _) ltac:(lia) ltac:(lia)).
    change (Z.of_nat 1) with 1. change (Z.of_nat 2) with 2. change (Z.of_nat 3) with 3. change (Z.of_nat 4) with 4.
    unfold Second. change (1 - 1) with 0 in *. change (2 - 1) with 1 in *. change (3 - 1) with 2 in *. change (4 - 1) with 3 in *.
    unfold retryBase, Millisecond in *. lia.
  - intros Int64N k header seconds Hread Hpos Hfits. unfold retryAfter. rewrite Hread.
    rewrite (proj2 (Z.ltb_ge _ _)), i64_id by (unfold is_i64, Second in *; lia). unfold backoff.
    by rewrite (proj2 (Z.ltb_lt _ _)) by (unfold retryCap, Second in *; lia).
Qed.

(** An endpoint that refuses every attempt, each with another header. *)
Definition refusals (k : nat) : option string := ["3"; " 600 "; "-1"; "soon"; "1"]%string !! k.

Lemma Retry_waits_bounded_witness :
  (∀ k : nat, draws_below (λ n, n - 1)) ∧
  roundTripWaits (λ _ n, n - 1) refusals = [3 * Second; 8 * Second; 1250 * Millisecond - 1; 2250 * Millisecond - 1] ∧
  sum_of id (roundTripWaits (λ _ n, n - 1) refusals) ≤ 32 * Second.
Proof.
  assert (∀ k : nat, draws_below (λ n, n - 1)) as Hd by (intros _ n Hn; lia).
  split; [exact Hd|]. split; [by vm_compute|]. exact (proj1 (proj2 (proj2 (Retry_waits_bounded (λ _ n, n - 1) refusals Hd)))).
Defined.
