(* ===== verification/FakeNode.v ===== *)
(** * internal/fakenode: the test suite's endpoint

    [fakenode.go]: a JSON-RPC server with a chain of blocks, the token's and the
    Distributor's logs and a ledger book. It is what the Engine and the whole binary run
    against in the repository's tests, and it is written without the chain package's
    encoders. A request and a reply are [Wire]'s, JSON being read; [keccak256] and the
    text of its errors are parameters. A handler that panics drops the connection. *)
From S2P Require Import Prelude Sorts Bytes Text Json Paths Merkle Twab Chain StateMonad Wire Reader ChainReader.

Open Scope list_scope.
Open Scope Z_scope.

(** ** State *)

(** [Ledger]: what [ledger(kind, id)] answers for one Epoch. *)
Record fakeLedger := mkFakeLedger {
  fl_Root : Hash;
  fl_RootPostedAt : Z;
  fl_Skipped : bool;
  fl_Funded : vec (option Z) 5;
  fl_Totals : vec (option Z) 5;
}.

(** An Epoch the map has no entry for. *)
Definition noLedger : fakeLedger := mkFakeLedger zeroHash 0 false (vreplicate 5 None) (vreplicate 5 None).

Record nodeLog := mkNodeLog {
  nl_Address : string;
  nl_Topics : list string;
  nl_Data : string;
  nl_BlockNumber : string;
  nl_BlockHash : string;
  nl_LogIndex : string;
  nl_TxHash : string;
  nl_TxIndex : string;
  nl_Removed : bool;
}.

(** [Node]. A nil map is an empty one: only [Launch] writes to a map, and makes it first. *)
Record fakeNode := mkFakeNode {
  fn_ChainID : Z;
  fn_Timestamps : list Z;
  fn_Tips : gmap string Z;
  fn_HashSalt : byte;
  fn_logs : list nodeLog;
  fn_Ledgers : gmap Z fakeLedger;
  fn_Factory : Address;
  fn_Curves : gmap Address Address;
  fn_HTTPStatus : Z;
  fn_requests : Z;
}.

Definition setLogs (logs : list nodeLog) (n : fakeNode) : fakeNode :=
  mkFakeNode (fn_ChainID n) (fn_Timestamps n) (fn_Tips n) (fn_HashSalt n) logs (fn_Ledgers n) (fn_Factory n) (fn_Curves n)
    (fn_HTTPStatus n) (fn_requests n).
Definition setLaunched (factory : Address) (curves : gmap Address Address) (n : fakeNode) : fakeNode :=
  mkFakeNode (fn_ChainID n) (fn_Timestamps n) (fn_Tips n) (fn_HashSalt n) (fn_logs n) (fn_Ledgers n) factory curves
    (fn_HTTPStatus n) (fn_requests n).
Definition countRequest (n : fakeNode) : fakeNode :=
  mkFakeNode (fn_ChainID n) (fn_Timestamps n) (fn_Tips n) (fn_HashSalt n) (fn_logs n) (fn_Ledgers n) (fn_Factory n) (fn_Curves n)
    (fn_HTTPStatus n) (i64 (fn_requests n + 1)).

(** [New]. *)
Definition fakeNew (timestamps : list Z) : fakeNode :=
  let last := u64 (Z.of_nat (length timestamps) - 1) in
  mkFakeNode 4663 timestamps (<["latest" := last]> (<["safe" := last]> {[ "finalized" := last ]}))%string
    x00 [] ∅ zeroAddress ∅ 0 0.

(** [Requests]. *)
Definition Requests (n : fakeNode) : Z := fn_requests n.

(** ** Encoding *)

(** What goes wrong in a request, with the text it went wrong in. *)
Inductive fakeError := errScan (s : string) | errHexData (s : string).

(** [quantity]: [fmt.Sprintf("0x%x", n)]. *)
Definition sprintQuantity (n : Z) : string := String "0" (String "x" (FormatUint 16 n)).

(** The longest run of hex digits [s] starts with. *)
Fixpoint hexPrefix (s : string) : string :=
  match s with
  | String c s' => if hex_value c is Some _ then String c (hexPrefix s') else EmptyString
  | EmptyString => EmptyString
  end.

(** [fmt]'s [SkipSpace]: a line may not end. *)
Definition skipSpace (s : string) : option string :=
  let rest := trimLeft s in
  if Contains (String.substring 0 (String.length s - String.length rest) s) (String newline EmptyString) then None else Some rest.

(** [parseQuantity]: [fmt.Sscanf(s, "0x%x", &n)] into a uint64, which stops at the first
    character that is no digit. *)
Definition scanQuantity (s : string) : Res fakeError Z :=
  match s with
  | String "0" (String "x" rest) =>
      match skipSpace rest with
      | Some rest => or_err (ParseUint 16 (hexPrefix rest)) (errScan s)
      | None => Err (errScan s)
      end
  | _ => Err (errScan s)
  end.

(** [big.Int.Bytes]: the absolute value, without leading zeros. *)
Definition bigBytes (z : Z) : list byte :=
  be_encode (Z.to_nat (if z =? 0 then 0 else Z.log2 (Z.abs z) / 8 + 1)) (Z.abs z).

(** [word]: [FillBytes] takes the absolute value, and panics when it does not fit. *)
Definition word {E} (x : option Z) : Res E (list byte) :=
  match x with
  | Some x => or_panic (Z.abs x <? 2 ^ 256) (be_encode 32 (Z.abs x))
  | None => Fault GoPanic
  end.

Definition wordsOf {E} (xs : list (option Z)) : Res E (list byte) :=
  ws ← traverse (word (E:=E)) xs;
  Ok (mbind (M:=list) id ws).

Definition addressTopic (a : Address) : string :=
  String "0" (String "x" (EncodeToString (splice (replicate 32 x00) 12 (vec_to_list a)))).

(** [strings.EqualFold] with an address's text on one side, whose letters fold to ASCII
    alone. *)
Definition EqualFold (s t : string) : bool := bool_decide (ToLower s = ToLower t).

(** [Amounts]: more than five values are out of the array's range. *)
Definition fakeAmounts {E} (vs : list Z) : Res E (vec (option Z) 5) :=
  or_panic (length vs <=? 5)%nat (fun_to_vec (λ i : fin 5, Some (default 0 (vs !! fin_to_nat i)))).

Section hashed.
Context (keccak256 : list byte → Hash) (errorText : fakeError → string).

Definition topic (signature : string) : string := HashString (keccak256 (stringBytes signature)).
Definition fakeSelector (signature : string) : list byte := take 4 (vec_to_list (keccak256 (stringBytes signature))).

(** ** Answering *)

(** [HashOf]: [big.NewInt(int64(block))]. *)
Definition HashOf (n : fakeNode) (block : Z) : Hash := keccak256 (bigBytes (i64 block) ++ [fn_HashSalt n]).

(** The number a tag stands for: a tip, or a block the node has. *)
Definition tagNumber (n : fakeNode) (tag : string) : option Z :=
  match fn_Tips n !! tag with
  | Some number => Some number
  | None =>
      match scanQuantity tag with
      | Ok parsed => if Z.of_nat (length (fn_Timestamps n)) <=? parsed then None else Some parsed
      | _ => None
      end
  end.

Definition parentHash (n : fakeNode) (number : Z) : Hash := if 0 <? number then HashOf n (number - 1) else zeroHash.

(** [Node.block]. A tip past the last timestamp is out of range. *)
Definition nodeBlock (n : fakeNode) (tag : string) : Res fakeError rawResult :=
  match tagNumber n tag with
  | None => Ok rawNull
  | Some number =>
      timestamp ← index (fn_Timestamps n) (Z.to_nat number);
      Ok (rawBlock (mkWireBlock (sprintQuantity number) (HashString (HashOf n number))
            (HashString (parentHash n number)) (sprintQuantity (u64 timestamp))))
  end.

(** A log as the client unmarshals it, which has no use for the transaction. *)
Definition served (n : fakeNode) (block : Z) (l : nodeLog) : wireLog :=
  mkWireLog (nl_Address l) (nl_Topics l) (nl_Data l) (nl_BlockNumber l) (HashString (HashOf n block)) (nl_LogIndex l) (nl_Removed l).

Section filter.
Context (n : fakeNode) (from to : Z) (address topic0 : string).

(** The loop of [Node.getLogs]. *)
Fixpoint filterLogs (logs : list nodeLog) : Res fakeError (list wireLog) :=
  match logs with
  | [] => Ok []
  | l :: logs =>
      block ← scanQuantity (nl_BlockNumber l);
      skip ← (if (block <? from) || (to <? block) || negb (EqualFold (nl_Address l) address) then Ok true
              else t ← index (nl_Topics l) 0; Ok (negb (bool_decide (t = topic0))));
      out ← filterLogs logs;
      Ok (if (skip : bool) then out else served n block l :: out)
  end.
End filter.

Definition nodeGetLogs (n : fakeNode) (fromHex toHex address topic0 : string) : Res fakeError (list wireLog) :=
  from ← scanQuantity fromHex;
  to ← scanQuantity toHex;
  filterLogs n from to address topic0 (fn_logs n).

(** Fifteen words: the token, its curve, and whether it was launched. *)
Definition launchedWords (n : fakeNode) (token : Address) : list Z :=
  match fn_Curves n !! token with
  | Some curve => <[14%nat := 1]> (<[1%nat := be_decode (vec_to_list curve)]> (<[0%nat := be_decode (vec_to_list token)]> (replicate 15 0)))
  | None => replicate 15 0
  end.

(** [Node.factoryCall]. *)
Definition factoryCall (n : fakeNode) (raw : list byte) : Res fakeError string :=
  if negb (length raw =? 4 + 32)%nat || negb (bool_decide (take 4 raw = fakeSelector "getLaunchedToken(address)")) then Ok "0x"%string
  else
    let token := copy_array 20 (drop (4 + 12) raw) in
    out ← wordsOf (Some <$> launchedWords n token);
    Ok (String "0" (String "x" (EncodeToString out))).

(** The three groups of amounts: what the book never touched is nil, and nothing is
    claimed. *)
Definition ledgerAmounts (l : fakeLedger) : list (option Z) :=
  (λ a, Some (default 0 a)) <$> vec_to_list (fl_Funded l) ++ vec_to_list (fl_Totals l) ++ replicate 5 None.

(** The eighteen words of [ledger(kind, id)]. *)
Definition ledgerReply (l : fakeLedger) : Res fakeError (list byte) :=
  postedAt ← word (Some (fl_RootPostedAt l));
  skipped ← word (Some (if fl_Skipped l then 1 else 0));
  amounts ← wordsOf (ledgerAmounts l);
  Ok (vec_to_list (fl_Root l) ++ postedAt ++ skipped ++ amounts).

(** [Node.call]. [Uint64] takes the low 64 bits; the block asked for is not looked at. *)
Definition nodeCall (n : fakeNode) (to data : string) : Res fakeError string :=
  raw ← or_err (DecodeString (TrimHexPrefix data)) (errHexData data);
  if negb (bool_decide (fn_Factory n = zeroAddress)) && EqualFold to (AddressString (fn_Factory n)) then factoryCall n raw
  else if negb (length raw =? 4 + 64)%nat || negb (bool_decide (take 4 raw = fakeSelector "ledger(uint8,uint256)")) ||
          negb (bool_decide (raw !! (4 + 31)%nat = Some x00)) then Ok "0x"%string
  else
    let id := u64 (be_decode (drop (4 + 32) raw)) in
    out ← ledgerReply (default noLedger (fn_Ledgers n !! id));
    Ok (String "0" (String "x" (EncodeToString out))).

(** [Node.dispatch]. *)
Definition dispatch (n : fakeNode) (q : question) : Res fakeError rawResult :=
  match q with
  | ethChainId => Ok (rawString (sprintQuantity (fn_ChainID n)))
  | ethGetBlockByNumber tag => nodeBlock n tag
  | ethGetLogs fromBlock toBlock address topic0 => rawLogs <$> nodeGetLogs n fromBlock toBlock address topic0
  | ethCall to data _ => rawString <$> nodeCall n to data
  end.

(** [Node.answer]. *)
Definition nodeAnswer (n : fakeNode) (req : rpcRequest) : Res fakeError rpcResponse :=
  match dispatch n (rq_Question req) with
  | Ok result => Ok (mkResponse (rq_ID req) result None)
  | Err e => Ok (mkResponse (rq_ID req) rawNull (Some (-32000, errorText e)))
  | Fault x => Fault x
  end.

(** [http.Error] with a configured status: an informational one is followed by a 200, and
    one out of range panics. *)
Definition statusReply (status : Z) : httpReply :=
  if (status <? 100) || (999 <? status) then httpDown
  else if (status <? 200) && negb (status =? 101) then httpResponse 200 bodyOther
  else httpResponse status bodyOther.

(** The reply of [Node.handle], by a node whose request count no longer matters. *)
Definition nodeReply (n : fakeNode) (post : rpcPost) : httpReply :=
  if negb (fn_HTTPStatus n =? 0) then statusReply (fn_HTTPStatus n)
  else
    match post with
    | postOne req => match nodeAnswer n req with Ok r => httpResponse 200 (bodySingle r) | _ => httpDown end
    | postBatch reqs => match traverse (nodeAnswer n) reqs with Ok rs => httpResponse 200 (bodyArray rs) | _ => httpDown end
    end.

(** [Node.handle]. *)
Definition handle (post : rpcPost) (n : fakeNode) : httpReply * fakeNode :=
  let n := countRequest n in (nodeReply n post, n).

(** ** Building a chain *)

Definition appendLog (address : Address) (topics : list string) (data : list byte) (block : Z) (n : fakeNode) : fakeNode :=
  setLogs (fn_logs n ++ [mkNodeLog (AddressString address) topics (String "0" (String "x" (EncodeToString data))) (sprintQuantity block)
    EmptyString (sprintQuantity (u64 (Z.of_nat (length (fn_logs n))))) EmptyString EmptyString false]) n.

(** [Node.Transfer], of an int64 value. *)
Definition nodeTransfer {E} (block : Z) (token from to : Address) (value : Z) (n : fakeNode) : Res E fakeNode :=
  data ← word (Some value);
  Ok (appendLog token [topic "Transfer(address,address,uint256)"; addressTopic from; addressTopic to] data block n).

(** [Node.Exclusion]. *)
Definition nodeExclusion (block : Z) (distributor account : Address) (n : fakeNode) : fakeNode :=
  appendLog distributor [topic "ExcludedAppended(address)"; addressTopic account] [] block n.

(** [Node.RootPosted]. *)
Definition nodeRootPosted {E} (block : Z) (distributor : Address) (id : Z) (root : Hash) (totals carryIn : vec (option Z) 5)
    (n : fakeNode) : Res E fakeNode :=
  amounts ← wordsOf (vec_to_list totals ++ vec_to_list carryIn);
  kindWord ← word (Some 0);
  idWord ← word (Some id);
  Ok (appendLog distributor
        [topic "RootPosted(uint8,uint256,bytes32,uint256[5],uint256[5])";
         String "0" (String "x" (EncodeToString kindWord)); String "0" (String "x" (EncodeToString idWord))]
        (vec_to_list root ++ amounts) block n).

(** [Node.Launch]. *)
Definition Launch (factory token curve : Address) (n : fakeNode) : fakeNode :=
  setLaunched factory (<[token := curve]> (fn_Curves n)) n.

(** [Node.DropLastLog]: an empty slice has no last element to drop. *)
Definition DropLastLog {E} (n : fakeNode) : Res E fakeNode :=
  or_panic (0 <? length (fn_logs n))%nat (setLogs (take (length (fn_logs n) - 1) (fn_logs n)) n).
End hashed.
