(* ===== verification/WireSpec.v ===== *)
(** * Wire values: types, canonical bytes and order

    What the decoders of [rpc.go] can produce, that two answers with the same
    canonical bytes are the same answer, and the order of a page. *)
From S2P Require Import Prelude Sorts Bytes Text Merkle Twab Chain StateMonad Wire.

Lemma app_inj_length {A} (l1 l2 k1 k2 : list A) :
  length l1 = length k1 → l1 ++ l2 = k1 ++ k2 → l1 = k1 ∧ l2 = k2.
Proof. intros. by apply app_inj_1. Qed.

(** ** What decodes *)

Definition block_typed (b : Block) : Prop := is_u64 (b_Number b) ∧ 0 ≤ b_Timestamp b < 2 ^ 63.
Definition log_typed (l : eventLog) : Prop := is_u64 (el_BlockNumber l) ∧ is_u64 (el_LogIndex l).

Lemma parse_digits_nonneg base acc s n :
  0 ≤ base → 0 ≤ acc → parse_digits base acc s = Some n → 0 ≤ n.
Proof.
  intros Hb. revert acc. induction s as [|c s IH]; intros acc Hacc; cbn [parse_digits]; [by intros [= <-]|].
  destruct (digit_value c) as [d|] eqn:E; [|done]. destruct (d <? base); [|done]. apply IH.
  assert (0 ≤ d); [|nia]. unfold digit_value in E.
  repeat (case_match; simplify_eq; [lia|]). case_match; simplify_eq. lia.
Qed.

Lemma ParseUint_u64 base s n : 0 ≤ base → ParseUint base s = Some n → is_u64 n.
Proof.
  intros Hbase. unfold ParseUint, ParseDigits. destruct s as [|c s]; [done|].
  destruct (parse_digits base 0 (String c s)) as [m|] eqn:E; [|done].
  destruct (Z.ltb_spec m (2 ^ 64)) as [Hlt|]; [|done]. intros [= <-].
  apply parse_digits_nonneg in E; [|lia..]. by split.
Qed.

Lemma parseQuantity_u64 s n : parseQuantity s = Ok n → is_u64 n.
Proof.
  unfold parseQuantity. intros (digits & _ & H)%bind_Ok. destruct (decide _); [done|].
  destruct (ParseUint 16 digits) as [m|] eqn:E; [|done]. injection H as <-. by eapply ParseUint_u64; [|exact E].
Qed.

Lemma decodeBlock_typed w b : decodeBlock w = Ok b → block_typed b.
Proof.
  unfold decodeBlock. intros (n & Hn%parseQuantity_u64 & H)%bind_Ok.
  apply bind_Ok in H as (h & _ & H). apply bind_Ok in H as (p & _ & H).
  apply bind_Ok in H as (t & [Ht _]%parseQuantity_u64 & H).
  destruct (Z.ltb_spec MaxInt64 t) as [|Hle]; [done|]. injection H as <-. split; [done|].
  cbn. unfold MaxInt64 in Hle. lia.
Qed.

Lemma decodeLog_typed w l : decodeLog w = Ok l → log_typed l.
Proof.
  unfold decodeLog. destruct (wl_Removed w); [done|]. intros (n & Hn%parseQuantity_u64 & H)%bind_Ok.
  apply bind_Ok in H as (i & Hi%parseQuantity_u64 & H).
  apply bind_Ok in H as (h & _ & H). apply bind_Ok in H as (a & _ & H). apply bind_Ok in H as (d & _ & H).
  apply bind_Ok in H as (t & _ & H). injection H as <-. by split.
Qed.

(** ** Canonical bytes *)

Lemma be8_inj m n : is_u64 m → is_u64 n → be_encode 8 m = be_encode 8 n → m = n.
Proof. intros Hm Hn. apply be_encode_inj; exact Hm || exact Hn. Qed.

Lemma length_canonicalBlock b : length (canonicalBlock b) = 80%nat.
Proof.
  unfold canonicalBlock, appendUint64. by rewrite !length_app, !length_be_encode, !length_vec_to_list.
Qed.

Lemma canonicalBlock_inj a b : block_typed a → block_typed b → canonicalBlock a = canonicalBlock b → a = b.
Proof.
  intros [Ha Hat] [Hb Hbt]. unfold canonicalBlock, appendUint64. cbn [app]. rewrite <-!app_assoc.
  intros [Hn H]%app_inj_length; [|by rewrite !length_be_encode].
  apply app_inj_length in H as [Hh H]; [|by rewrite !length_vec_to_list].
  apply app_inj_length in H as [Hp Ht]; [|by rewrite !length_vec_to_list].
  apply be8_inj in Hn; [|done..]. apply vec_to_list_inj2 in Hh. apply vec_to_list_inj2 in Hp.
  apply be8_inj in Ht; [|apply u64_range..]. rewrite !u64_id in Ht by (unfold is_u64; lia).
  destruct a, b; cbn in *. by subst.
Qed.

Lemma canonicalBlocks_inj a b :
  Forall block_typed a → Forall block_typed b → canonicalBlocks a = canonicalBlocks b → a = b.
Proof.
  unfold canonicalBlocks. intros Ha. revert b. induction Ha as [|x a Hx Ha IH]; intros b Hb;
    destruct Hb as [|y b Hy Hb]; rewrite ?bind_cons; intros H.
  - done.
  - apply (f_equal length) in H. by rewrite length_app, length_canonicalBlock in H.
  - apply (f_equal length) in H. by rewrite length_app, length_canonicalBlock in H.
  - apply app_inj_length in H as [Hxy H]; [|by rewrite !length_canonicalBlock].
    f_equal; [by apply canonicalBlock_inj|by apply IH].
Qed.

(** The bytes of one log. *)
Definition logBytes (l : eventLog) : list byte :=
  be_encode 8 (el_BlockNumber l) ++ be_encode 8 (el_LogIndex l) ++ vec_to_list (el_BlockHash l) ++
  vec_to_list (el_Address l) ++ be_encode 8 (Z.of_nat (length (el_Topics l))) ++
  (el_Topics l ≫= vec_to_list) ++ be_encode 8 (Z.of_nat (length (el_Data l))) ++ el_Data l.

Lemma canonicalLogs_bind ls : canonicalLogs ls = ls ≫= logBytes.
Proof.
  unfold canonicalLogs. change (ls ≫= logBytes) with ([] ++ (ls ≫= logBytes)).
  generalize (@nil byte). induction ls as [|l ls IH]; intros out; [by rewrite app_nil_r|].
  rewrite bind_cons. cbn [foldl]. rewrite IH. unfold canonicalLog, appendUint64, logBytes. by rewrite <-!app_assoc.
Qed.

Lemma length_canonicalLogs_filter (P : eventLog → Prop) `{!∀ l, Decision (P l)} ls :
  (length (canonicalLogs (filter P ls)) ≤ length (canonicalLogs ls))%nat.
Proof.
  rewrite !canonicalLogs_bind. induction ls as [|l ls IH]; [done|]. rewrite filter_cons, bind_cons, length_app.
  destruct (decide (P l)); [rewrite bind_cons, length_app|]; lia.
Qed.

Lemma length_topics (ts : list Hash) : length (ts ≫= vec_to_list) = (32 * length ts)%nat.
Proof.
  induction ts as [|t ts IH]; [done|]. rewrite bind_cons, length_app, length_vec_to_list, IH. cbn [length]. lia.
Qed.

Lemma topics_inj (a b : list Hash) : a ≫= vec_to_list = b ≫= vec_to_list → a = b.
Proof.
  revert b. induction a as [|x a IH]; intros [|y b] H; [done|..].
  - apply (f_equal length) in H. rewrite !length_topics in H. cbn in H. lia.
  - apply (f_equal length) in H. rewrite !length_topics in H. cbn in H. lia.
  - rewrite !bind_cons in H. apply app_inj_length in H as [Hx H]; [|by rewrite !length_vec_to_list].
    apply vec_to_list_inj2 in Hx as ->. f_equal. by apply IH.
Qed.

(** A log short enough for its lengths to be written out. *)
Definition log_small (l : eventLog) : Prop :=
  Z.of_nat (length (el_Topics l)) < 2 ^ 64 ∧ Z.of_nat (length (el_Data l)) < 2 ^ 64.

Lemma logBytes_inj a b l k :
  log_typed a → log_typed b → log_small a → log_small b →
  logBytes a ++ l = logBytes b ++ k → a = b ∧ l = k.
Proof.
  intros [Ha Hai] [Hb Hbi] [Hat Had] [Hbt Hbd]. unfold logBytes. rewrite <-!app_assoc.
  intros [Hn H]%app_inj_length; [|by rewrite !length_be_encode].
  apply app_inj_length in H as [Hi H]; [|by rewrite !length_be_encode].
  apply app_inj_length in H as [Hh H]; [|by rewrite !length_vec_to_list].
  apply app_inj_length in H as [Had' H]; [|by rewrite !length_vec_to_list].
  apply app_inj_length in H as [Ht H]; [|by rewrite !length_be_encode].
  apply be8_inj in Ht; [|unfold is_u64; lia..]. apply Nat2Z.inj in Ht.
  apply app_inj_length in H as [Hts H]; [|by rewrite !length_topics, Ht].
  apply app_inj_length in H as [Hd H]; [|by rewrite !length_be_encode].
  apply be8_inj in Hd; [|unfold is_u64; lia..]. apply Nat2Z.inj in Hd.
  apply app_inj_length in H as [Hdd H]; [|done].
  apply be8_inj in Hn; [|done..]. apply be8_inj in Hi; [|done..].
  apply vec_to_list_inj2 in Hh. apply vec_to_list_inj2 in Had'. apply topics_inj in Hts.
  split; [|done]. destruct a, b; cbn in *. by subst.
Qed.

(** Pages with the same canonical bytes are the same page, when one of them is
    known to fit. *)
Lemma log_small_total l ls :
  l ∈ ls → Z.of_nat (length (canonicalLogs ls)) < 2 ^ 64 → log_small l.
Proof.
  rewrite canonicalLogs_bind. intros [a [b ->]]%list_elem_of_split Hlen.
  rewrite bind_app, bind_cons in Hlen. unfold logBytes in Hlen at 2.
  rewrite !length_app, length_topics in Hlen. unfold log_small. lia.
Qed.

Lemma canonicalLogs_inj a b :
  Forall log_typed a → Forall log_typed b → Z.of_nat (length (canonicalLogs b)) < 2 ^ 64 →
  canonicalLogs a = canonicalLogs b → a = b.
Proof.
  intros Ha Hb Hlen Heq.
  assert (Forall log_small a) as Hsa by (apply Forall_forall; intros x Hx; apply (log_small_total x a); [done|by rewrite Heq]).
  assert (Forall log_small b) as Hsb by (apply Forall_forall; intros x Hx; by apply (log_small_total x b)).
  clear Hlen. rewrite !canonicalLogs_bind in Heq.
  assert (∀ l, length (logBytes l) ≠ 0%nat) as Hne.
  { intros l. unfold logBytes. rewrite !length_app, !length_be_encode. lia. }
  revert b Hb Hsb Heq. induction Ha as [|x a Hx Ha IH]; intros b Hb Hsb Heq; destruct Hb as [|y b Hy Hb]; [done|..];
    rewrite ?bind_cons in Heq.
  - apply (f_equal length) in Heq. rewrite length_app in Heq. pose proof (Hne y). cbn in Heq. lia.
  - apply (f_equal length) in Heq. rewrite length_app in Heq. pose proof (Hne x). cbn in Heq. lia.
  - inversion Hsa; inversion Hsb; subst. apply logBytes_inj in Heq as [-> Heq]; [|done..]. f_equal. by apply IH.
Qed.

(** ** The order of a page *)

Definition log_key (l : eventLog) : Z * Z := (el_BlockNumber l, el_LogIndex l).
Definition log_before (a b : eventLog) : Prop :=
  el_BlockNumber a < el_BlockNumber b ∨ el_BlockNumber a = el_BlockNumber b ∧ el_LogIndex a < el_LogIndex b.

Lemma compareLogs_spec a b :
  match compareLogs a b with
  | Lt => log_before a b
  | Eq => log_key a = log_key b
  | Gt => log_before b a
  end.
Proof.
  unfold compareLogs, log_before, log_key. destruct (Z.eqb_spec (el_BlockNumber a) (el_BlockNumber b)) as [E|E]; cbn [negb].
  - destruct (Z.compare_spec (el_LogIndex a) (el_LogIndex b)); [by f_equal|by right..].
  - destruct (Z.compare_spec (el_BlockNumber a) (el_BlockNumber b)); [done|by left..].
Qed.

#[global] Instance compareLogs_laws : CompareLaws compareLogs.
Proof.
  split.
  - intros x y. pose proof (compareLogs_spec x y) as H1. pose proof (compareLogs_spec y x) as H2.
    unfold log_before, log_key in *. destruct (compareLogs x y), (compareLogs y x); cbn; simplify_eq; try done; lia.
  - intros x y z H1 H2 H3. pose proof (compareLogs_spec x y) as S1. pose proof (compareLogs_spec y z) as S2.
    pose proof (compareLogs_spec x z) as S3. unfold log_before, log_key in *.
    destruct (compareLogs x y), (compareLogs y z), (compareLogs x z); try done; simplify_eq; lia.
Qed.

(** A page already in strict order is the only order of itself. *)
Lemma sortLogs_unique l k : StronglySorted log_before k → l ≡ₚ k → sortLogs l = k.
Proof.
  intros Hs Hp. symmetry. apply sort_by_unique; [apply _| | |by symmetry].
  - intros x y Hx Hy He. pose proof (compareLogs_spec x y) as Hxy. rewrite He in Hxy.
    assert (x ∈ k) as Hxk by by rewrite <-Hp. assert (y ∈ k) as Hyk by by rewrite <-Hp.
    clear Hp Hx Hy. induction Hs as [|z k Hk IH Hz]; [by apply elem_of_nil in Hxk|].
    rewrite Forall_forall in Hz. unfold log_key in Hxy. injection Hxy as Hn Hi.
    apply elem_of_cons in Hxk as [->|Hxk], Hyk as [->|Hyk]; [done|..|by apply IH].
    + specialize (Hz y Hyk). unfold log_before in Hz. lia.
    + specialize (Hz x Hxk). unfold log_before in Hz. lia.
  - eapply StronglySorted_weaken; [|exact Hs]. intros x y Hxy. unfold cmp_le. pose proof (compareLogs_spec x y) as H.
    intros HG. rewrite HG in H. unfold log_before in *. lia.
Qed.
