(* ===== verification/Honest.v ===== *)
(** * One endpoint that tells the truth

    [World] is the chain as a node serves it, and [truthful] a server whose every
    successful reply is of that chain; it may still refuse, fail or fall silent. What
    its reads return when they succeed, and what any endpoint's must look like. *)
From S2P Require Import Prelude Sorts Bytes Text Merkle Twab Chain StateMonad Wire WireSpec.

Record World := mkWorld {
  wo_chainID : Z;
  wo_block : Z → Block;
  wo_head : Z;
  wo_logs : list eventLog;
  wo_call : Address → list byte → Z → list byte;
}.

(** What a filter matches. *)
Definition matches (address : Address) (topic0 : Hash) (from to : Z) (l : eventLog) : Prop :=
  el_Address l = address ∧ head (el_Topics l) = Some topic0 ∧ from ≤ el_BlockNumber l ≤ to.
#[global] Instance matches_dec address topic0 from to l : Decision (matches address topic0 from to l).
Proof. unfold matches. apply _. Defined.

Definition logs_of (W : World) (address : Address) (topic0 : Hash) (from to : Z) : list eventLog :=
  filter (matches address topic0 from to) (wo_logs W).

(** The chain's own data: headers are numbered, logs are in chain order, and all of
    it fits the machine. *)
Record world_ok (W : World) : Prop := WorldOk {
  wk_head : is_u64 (wo_head W);
  wk_chainID : is_u64 (wo_chainID W);
  wk_blocks : ∀ n, 0 ≤ n ≤ wo_head W → block_typed (wo_block W n) ∧ b_Number (wo_block W n) = n;
  wk_logs : StronglySorted log_before (wo_logs W);
  wk_typed : Forall log_typed (wo_logs W);
  wk_small : ∀ address topic0 from to,
    Z.of_nat (length (canonicalLogs (logs_of W address topic0 from to))) < 2 ^ 64;
}.

(** A result that is the chain's answer, if it can be read at all. *)
Record raw_true (W : World) (q : question) (raw : rawResult) : Prop := RawTrue {
  rt_id : ∀ s n, q = ethChainId → raw = rawString s → parseQuantity s = Ok n → n = wo_chainID W;
  rt_block : ∀ n w b, 0 ≤ n ≤ wo_head W → q = ethGetBlockByNumber (quantity n) → raw = rawBlock w →
    decodeBlock w = Ok b → b = wo_block W n;
  rt_held : ∀ tag w b, q = ethGetBlockByNumber tag → raw = rawBlock w → decodeBlock w = Ok b →
    ∃ n, 0 ≤ n ≤ wo_head W ∧ b = wo_block W n;
  rt_logs : ∀ from to address topic0 ws ls, 0 ≤ from ≤ to → to ≤ wo_head W →
    q = ethGetLogs (quantity from) (quantity to) (AddressString address) (HashString topic0) →
    raw = rawLogs ws → traverse decodeLog ws = Ok ls → ls ≡ₚ logs_of W address topic0 from to;
  rt_call : ∀ to data at_ s out, 0 ≤ at_ ≤ wo_head W →
    q = ethCall (AddressString to) (hexBytes data) (quantity at_) →
    raw = rawString s → parseHexBytes s = Ok out → out = wo_call W to data at_;
}.

(** A reply that, unless it is an error, is true. *)
Definition reply_true (W : World) (q : question) (r : rpcResponse) : Prop :=
  rr_Error r = None → raw_true W q (rr_Result r).

(** Replies to a batch of distinct ids are true of the requests whose id they carry. *)
Definition body_true (W : World) (post : rpcPost) (body : rpcBody) : Prop :=
  match post, body with
  | postOne req, bodySingle r => reply_true W (rq_Question req) r
  | postBatch reqs, bodyArray rs => NoDup (rq_ID <$> reqs) →
      ∀ req r, req ∈ reqs → r ∈ rs → rr_ID r = rq_ID req → reply_true W (rq_Question req) r
  | _, _ => True
  end.

Definition truthful (W : World) (server : nat → nat → rpcPost → httpReply) (i : nat) : Prop :=
  ∀ clock post body, server i clock post = httpResponse 200 body → body_true W post body.

Lemma responseResult_Ok r raw : responseResult r = Ok raw → rr_Error r = None ∧ raw = rr_Result r.
Proof.
  unfold responseResult. destruct (rr_Error r) as [[code message]|]; [done|]. destruct (isNull _); [done|].
  by intros [= <-].
Qed.

Lemma repliesByID_in rs id r : repliesByID rs !! id = Some r → r ∈ rs ∧ rr_ID r = id.
Proof.
  unfold repliesByID.
  assert (∀ (m : gmap Z rpcResponse), (∀ id r, m !! id = Some r → rr_ID r = id) →
    foldl (λ byID r, <[rr_ID r:=r]> byID) m rs !! id = Some r → (r ∈ rs ∨ m !! id = Some r) ∧ rr_ID r = id) as Hgen.
  { induction rs as [|x rs IH]; intros m Hm H; cbn [foldl] in H; [split; [by right|by apply Hm]|].
    apply IH in H as [[Hin|Hl] Hid].
    - split; [left; by constructor|done].
    - apply lookup_insert_Some in Hl as [[<- <-]|[? ?]]; [split; [left; by constructor|done]|split; [by right|done]].
    - intros id' r'. rewrite lookup_insert_Some. intros [[<- <-]|[? ?]]; [done|by apply Hm]. }
  intros H. apply Hgen in H as [[?|Hl] ?]; [done|by rewrite lookup_empty in Hl|]. intros ? ?. by rewrite lookup_empty.
Qed.

(** The results of a batch whose replies are true. *)
Lemma batchResults_true W qs reqs rs raws :
  Forall2 (λ q req, rq_Question req = q) qs reqs → NoDup (rq_ID <$> reqs) → body_true W (postBatch reqs) (bodyArray rs) →
  traverse (batchResult (repliesByID rs)) reqs = Ok raws → Forall2 (raw_true W) qs raws.
Proof.
  intros Hreqs Hnodup Hb Hraws%traverse_Ok. specialize (Hb Hnodup). clear Hnodup.
  revert qs Hreqs. induction Hraws as [|req raw reqs raws Hr _ IH]; intros qs Hq; inversion Hq; subst; [done|].
  constructor; [|apply IH; [intros req' r Hreq'; apply Hb; by constructor|done]].
  unfold batchResult in Hr. destruct (repliesByID rs !! rq_ID req) as [r|] eqn:E; [|done].
  apply repliesByID_in in E as [Hin Hid]. apply responseResult_Ok in Hr as [Hn ->].
  apply (Hb req r); [by constructor|done..].
Qed.

Lemma batchResults_null (P : question → rawResult → Prop) qs reqs raws :
  Forall2 (λ q req, rq_Question req = q) qs reqs → traverse (batchResult ∅) reqs = Ok raws → Forall2 P qs raws.
Proof.
  intros Hreqs Hraws%traverse_Ok. destruct Hreqs as [|q req qs reqs _ _]; [by inversion Hraws|].
  inversion Hraws; subst. done.
Qed.

(** ** What any reply decodes to *)

Lemma isBlock_Ok b n u : isBlock b n = Ok u → b_Number b = n.
Proof. unfold isBlock. by destruct (Z.eqb_spec (b_Number b) n). Qed.

(** The block that was asked for. *)
Definition numbered (n : Z) (b : Block) : Prop := block_typed b ∧ b_Number b = n.

(** The headers of a batch, whatever the results. *)
Lemma batchedBlocks_numbered ns raws bs :
  length raws = length ns → traverse (λ '(n, raw), batchedBlock n raw) (zip ns raws) = Ok bs → Forall2 numbered ns bs.
Proof.
  intros Hlen Hbs%traverse_Ok.
  revert raws Hlen bs Hbs. induction ns as [|n ns IH]; intros raws Hlen bs Hbs; destruct raws as [|raw raws]; try done; cbn [zip_with] in Hbs.
  - by inversion Hbs.
  - inversion Hbs as [|? b ? bs' Hb Hbs']; subst. constructor; [|apply (IH raws); [by injection Hlen|done]].
    unfold batchedBlock in Hb. apply bind_Ok in Hb as (w & _ & Hb). apply bind_Ok in Hb as (b' & Hw & Hb).
    apply bind_Ok in Hb as (u & Hn%isBlock_Ok & Hb). injection Hb as <-.
    split; [by eapply decodeBlock_typed|done].
Qed.

Lemma filteredLog_Ok address topic0 from to w l :
  filteredLog address topic0 from to w = Ok l →
  decodeLog w = Ok l ∧ log_typed l ∧ matches address topic0 from to l.
Proof.
  unfold filteredLog. intros (l' & Hd & H)%bind_Ok.
  destruct (bool_decide_reflect (el_Address l' = address)) as [Ha|]; cbn [negb] in H; [|done].
  destruct (bool_decide_reflect (head (el_Topics l') = Some topic0)) as [Ht|]; cbn [negb] in H; [|done].
  destruct (Z.ltb_spec (el_BlockNumber l') from), (Z.ltb_spec to (el_BlockNumber l')); cbn [orb] in H; try done.
  injection H as <-. split; [done|]. split; [by eapply decodeLog_typed|]. by split.
Qed.

(** A page is typed, matches its filter and is in order. *)
Definition page_ok (address : Address) (topic0 : Hash) (from to : Z) (ls : list eventLog) : Prop :=
  Forall (λ l, log_typed l ∧ matches address topic0 from to l) ls ∧ StronglySorted (cmp_le compareLogs) ls.

Lemma sorted_page address topic0 from to ws ls :
  traverse (filteredLog address topic0 from to) ws = Ok ls → page_ok address topic0 from to (sortLogs ls).
Proof.
  intros Hls%traverse_Ok. split; [|apply sort_by_sorted; apply _].
  apply Forall_forall. intros l Hl%elem_of_sort_by. apply list_elem_of_lookup in Hl as [k Hk].
  destruct (Forall2_lookup_r _ _ _ _ _ Hls Hk) as (w & _ & Hw). by apply filteredLog_Ok in Hw as (_ & ? & ?).
Qed.

Section posts.
Context (server : nat → nat → rpcPost → httpReply) (i : nat).

(** A body is one the server sent, with status 200, to what was posted. *)
Lemma roundTrip_sent post : ensures (roundTrip server i post) (λ body, ∃ clock, server i clock post = httpResponse 200 body).
Proof.
  unfold roundTrip. generalize errTransport as last, maxAttempts as n. intros last n. revert last.
  induction n as [|n IH]; intros last; cbn [roundTripFrom]; [apply ensures_throw|].
  apply ensures_catch.
  - intros s body s'. unfold attempt. destruct (server i (nt_clock s) post) as [status b|] eqn:E; [|done].
    destruct (Z.eqb_spec status 200) as [->|]; cbn [negb]; [intros [= <- <-]; by exists (nt_clock s)|].
    by destruct (_ || _).
  - intros err. destruct err; first [apply IH | apply ensures_throw].
Qed.

Lemma newRequest_of q : ensures (newRequest i q) (λ req, rq_Question req = q).
Proof. by intros s req s' [= <- _]. Qed.

Lemma callOne_true W q : truthful W server i → ensures (callOne server i q) (raw_true W q).
Proof.
  intros Ht. unfold callOne. eapply ensures_bind; [apply newRequest_of|]. intros req <-.
  eapply ensures_bind; [apply roundTrip_sent|]. intros body [clock Hb].
  destruct body; try apply ensures_throw. apply ensures_lift. intros raw [Hn ->]%responseResult_Ok.
  by apply (Ht _ _ _ Hb).
Qed.

(** The ids of a batch, from the endpoint's counter on. *)
Lemma newRequests_ids qs s reqs s' : mapS (newRequest i) qs s = (Ok reqs, s') →
  rq_ID <$> reqs = (λ k, u64 (ep_nextID (endpointOf i s) + 1 + k)) <$> seqZ 0 (Z.of_nat (length qs)).
Proof.
  revert s reqs s'. induction qs as [|q qs IH]; intros s reqs s' H; cbn [mapS] in H; [by injection H as <- <-|].
  unfold mbind, StM_bind in H. cbn [newRequest] in H. set (p := endpointOf i s) in *.
  set (s1 := setEndpoint i _ s) in *. destruct (mapS (newRequest i) qs s1) as [[rest| |] s2] eqn:E; [|done..].
  injection H as <- <-. apply IH in E. rewrite fmap_cons, E. cbn [length rq_ID].
  rewrite (seqZ_cons 0 (Z.of_nat (S (length qs)))) by lia. rewrite fmap_cons. f_equal; [by rewrite Z.add_0_r|].
  replace (Z.pred (Z.of_nat (S (length qs)))) with (Z.of_nat (length qs)) by lia.
  change (Z.succ 0) with (0 + 1). rewrite <-(fmap_add_seqZ 1 0), <-list_fmap_compose. apply list_fmap_ext.
  intros _ k _. cbn. unfold s1, endpointOf, setEndpoint. cbn. rewrite lookup_insert_eq. cbn.
  unfold u64. rewrite <-Z.add_assoc, Z.add_mod_idemp_l by lia. f_equal.
Qed.

Lemma newRequests_nodup qs : Z.of_nat (length qs) ≤ 2 ^ 64 →
  ensures (mapS (newRequest i) qs) (λ reqs, NoDup (rq_ID <$> reqs)).
Proof.
  intros Hlen s reqs s' H. rewrite (newRequests_ids _ _ _ _ H). generalize (ep_nextID (endpointOf i s) + 1). intros a.
  apply NoDup_fmap_2_strong; [|apply NoDup_seqZ]. intros x y Hx%elem_of_seqZ Hy%elem_of_seqZ He. unfold u64 in He.
  assert ((x - y) mod 2 ^ 64 = 0) as Hm.
  { replace (x - y) with ((a + x) - (a + y)) by lia. rewrite Zminus_mod, He, Z.sub_diag. done. }
  apply Z.mod_divide in Hm as [k Hk]; [|lia]. nia.
Qed.

Lemma callBatch_true W qs : truthful W server i → Z.of_nat (length qs) ≤ 2 ^ 64 →
  ensures (callBatch server i qs) (Forall2 (raw_true W) qs).
Proof.
  intros Ht Hlen. unfold callBatch. eapply ensures_bind.
  { apply ensures_and; [apply (ensures_mapS _ (λ q req, rq_Question req = q)); intros q _; apply newRequest_of|].
    by apply newRequests_nodup. }
  intros reqs [Hreqs Hnodup]. eapply ensures_bind.
  { apply ensures_catch; [apply roundTrip_sent|]. intros err. destruct err; apply ensures_throw. }
  intros body [clock Hb]. destruct body as [r|rs| |]; try apply ensures_throw.
  - destruct (rr_Error r) as [[code message]|]; apply ensures_throw.
  - apply ensures_lift. intros raws. apply batchResults_true; [done..|]. by apply (Ht _ _ _ Hb).
  - apply ensures_lift. intros raws. by apply batchResults_null.
Qed.

(** Whatever is at the other end, a batch has a result per request. *)
Lemma callBatch_length qs : ensures (callBatch server i qs) (λ raws, length raws = length qs).
Proof.
  unfold callBatch. eapply ensures_bind.
  { apply (ensures_mapS _ (λ q req, True)). intros q _. apply ensures_any. }
  intros reqs Hreqs%Forall2_length. eapply ensures_bind; [apply ensures_any|].
  intros body _. destruct body as [r|rs| |]; try apply ensures_throw.
  - destruct (rr_Error r) as [[code message]|]; apply ensures_throw.
  - apply ensures_lift. intros raws Hraws%traverse_Ok%Forall2_length. by rewrite <-Hraws.
  - apply ensures_lift. intros raws Hraws%traverse_Ok%Forall2_length. by rewrite <-Hraws.
Qed.

(** ** Reads of any endpoint *)

Lemma blockByTag_typed tag : ensures (blockByTag server i tag) block_typed.
Proof.
  unfold blockByTag. eapply ensures_bind; [apply ensures_any|]. intros raw _.
  eapply ensures_bind; [apply ensures_any|]. intros w _. apply ensures_lift. intros b. apply decodeBlock_typed.
Qed.

Lemma blockOf_numbered n : ensures (blockOf server i n) (numbered n).
Proof.
  unfold blockOf. eapply ensures_bind; [apply blockByTag_typed|]. intros b Hb.
  eapply ensures_bind; [apply (ensures_lift _ (λ _, b_Number b = n)); intros u; apply isBlock_Ok|].
  intros u Hn. by apply ensures_ret.
Qed.

Lemma batchBlocks_numbered ns : ensures (batchBlocks server i ns) (Forall2 numbered ns).
Proof.
  unfold batchBlocks. eapply ensures_bind; [apply callBatch_length|]. intros raws Hlen.
  rewrite length_fmap in Hlen. apply ensures_lift. intros bs. by apply batchedBlocks_numbered.
Qed.

Lemma blocksByNumber_numbered ns : ensures (blocksByNumber server i ns) (Forall2 numbered ns).
Proof.
  assert (ensures (mapS (blockOf server i) ns) (Forall2 numbered ns)) as Hone.
  { apply ensures_mapS. intros n _. apply blockOf_numbered. }
  unfold blocksByNumber. eapply ensures_bind; [apply ensures_any|]. intros [] _; [exact Hone|].
  apply ensures_catch; [apply batchBlocks_numbered|]. intros err. destruct err; try apply ensures_throw.
  eapply ensures_bind; [apply ensures_any|]. intros _ _. exact Hone.
Qed.

Lemma getLogs_page address topic0 from to :
  ensures (getLogs server i address topic0 from to) (page_ok address topic0 from to).
Proof.
  unfold getLogs. eapply ensures_bind; [apply ensures_any|]. intros raw _.
  eapply ensures_bind; [apply ensures_any|]. intros ws _.
  eapply ensures_bind; [by apply (ensures_lift _ (λ ls, traverse (filteredLog address topic0 from to) ws = Ok ls))|].
  intros ls Hls. apply ensures_ret. eapply sorted_page. exact Hls.
Qed.
End posts.

(** ** Reads of the one that tells the truth *)

Lemma unmarshalBlock_Ok raw w : unmarshalBlock raw = Ok w → raw = rawBlock w.
Proof. by destruct raw; intros [= <-]. Qed.
Lemma unmarshalString_Ok raw s : unmarshalString raw = Ok s → raw = rawString s.
Proof. by destruct raw; intros [= <-]. Qed.
Lemma unmarshalLogs_Ok raw ws : unmarshalLogs raw = Ok ws → raw = rawLogs ws.
Proof. by destruct raw; intros [= <-]. Qed.

(** Headers read one by one. *)
Lemma headers_eq W ns bs : Forall2 (λ n b, b = wo_block W n) ns bs → bs = wo_block W <$> ns.
Proof. induction 1 as [|n b ns bs -> _ IH]; [done|]. cbn. by f_equal. Qed.

(** The headers of a batch whose results are true. *)
Lemma batchedBlocks_true W ns raws bs :
  Forall (λ n, 0 ≤ n ≤ wo_head W) ns → Forall2 (raw_true W) ((λ n, ethGetBlockByNumber (quantity n)) <$> ns) raws →
  traverse (λ '(n, raw), batchedBlock n raw) (zip ns raws) = Ok bs → bs = wo_block W <$> ns.
Proof.
  intros Hns Hraws Hbs%traverse_Ok. apply headers_eq. rewrite Forall2_fmap_l in Hraws.
  revert bs Hbs Hns. induction Hraws as [|n raw ns raws Hraw _ IH]; intros bs Hbs Hns; cbn [zip_with] in Hbs;
    inversion Hbs as [|? b ? bs' Hb Hbs']; subst; [constructor|].
  apply Forall_cons in Hns as [Hn Hns]. constructor; [|by apply IH].
  unfold batchedBlock in Hb. apply bind_Ok in Hb as (w & Hw%unmarshalBlock_Ok & Hb).
  apply bind_Ok in Hb as (b' & Hdec & Hb). apply bind_Ok in Hb as (u & _ & Hb). injection Hb as <-.
  by eapply (rt_block _ _ _ Hraw).
Qed.

Lemma logs_of_sorted W address topic0 from to : world_ok W → StronglySorted log_before (logs_of W address topic0 from to).
Proof. intros HW. apply StronglySorted_filter, (wk_logs _ HW). Qed.

(** A page read from a true result. *)
Lemma page_true W address topic0 from to ws ls :
  world_ok W → 0 ≤ from ≤ to → to ≤ wo_head W →
  raw_true W (ethGetLogs (quantity from) (quantity to) (AddressString address) (HashString topic0)) (rawLogs ws) →
  traverse (filteredLog address topic0 from to) ws = Ok ls → sortLogs ls = logs_of W address topic0 from to.
Proof.
  intros HW Hfrom Hto Hraw Hls. apply sortLogs_unique; [by apply logs_of_sorted|].
  eapply (rt_logs _ _ _ Hraw); [done..|]. apply traverse_Ok. apply traverse_Ok in Hls.
  eapply Forall2_impl; [exact Hls|]. intros w l Hw. by apply filteredLog_Ok in Hw as (? & _).
Qed.

Section truth.
Context (W : World) (HW : world_ok W) (server : nat → nat → rpcPost → httpReply) (i : nat).
Hypothesis Htrue : truthful W server i.

Lemma chainIdOf_true : ensures (chainIdOf server i) (λ n, n = wo_chainID W).
Proof using Htrue.
  unfold chainIdOf. eapply ensures_bind; [by apply callOne_true|]. intros raw Hraw.
  eapply ensures_bind; [apply ensures_lift, unmarshalString_Ok|].
  intros s ->. apply ensures_lift. intros n Hn. by eapply (rt_id _ _ _ Hraw).
Qed.

Lemma blockByTag_true n :
  0 ≤ n ≤ wo_head W → ensures (blockByTag server i (quantity n)) (λ b, b = wo_block W n).
Proof using Htrue.
  intros Hn. unfold blockByTag. eapply ensures_bind; [by apply callOne_true|]. intros raw Hraw.
  eapply ensures_bind; [apply ensures_lift, unmarshalBlock_Ok|]. intros w ->.
  apply ensures_lift. intros b Hb. by eapply (rt_block _ _ _ Hraw).
Qed.

Lemma blocksByNumber_true ns :
  Forall (λ n, 0 ≤ n ≤ wo_head W) ns → Z.of_nat (length ns) ≤ 2 ^ 64 →
  ensures (blocksByNumber server i ns) (λ bs, bs = wo_block W <$> ns).
Proof using All.
  intros Hns Hlen. assert (ensures (mapS (blockOf server i) ns) (λ bs, bs = wo_block W <$> ns)) as Hone.
  { eapply ensures_mono; [apply (ensures_mapS _ (λ n b, b = wo_block W n))|apply headers_eq].
    intros n Hin. rewrite Forall_forall in Hns. unfold blockOf.
    eapply ensures_bind; [by apply blockByTag_true, Hns|]. intros b Hb.
    eapply ensures_bind; [apply ensures_any|]. intros _ _. by apply ensures_ret. }
  unfold blocksByNumber. eapply ensures_bind; [apply ensures_any|]. intros [] _; [exact Hone|].
  apply ensures_catch.
  - unfold batchBlocks. eapply ensures_bind; [apply callBatch_true; [done|by rewrite length_fmap]|]. intros raws Hraws.
    apply ensures_lift. intros bs. by apply batchedBlocks_true.
  - intros err. destruct err; try apply ensures_throw.
    eapply ensures_bind; [apply ensures_any|]. intros _ _. exact Hone.
Qed.

Lemma getLogs_true address topic0 from to :
  0 ≤ from ≤ to → to ≤ wo_head W →
  ensures (getLogs server i address topic0 from to) (λ ls, ls = logs_of W address topic0 from to).
Proof using HW Htrue.
  intros Hfrom Hto. unfold getLogs. eapply ensures_bind; [by apply callOne_true|]. intros raw Hraw.
  eapply ensures_bind; [apply ensures_lift, unmarshalLogs_Ok|].
  intros ws ->. eapply ensures_bind; [by apply (ensures_lift _ (λ ls, traverse (filteredLog address topic0 from to) ws = Ok ls))|].
  intros ls Hls. apply ensures_ret. eapply page_true; [done..|exact Hls].
Qed.

Lemma ethCallAt_true to data at_ :
  0 ≤ at_ ≤ wo_head W → ensures (ethCallAt server i to data at_) (λ out, out = wo_call W to data at_).
Proof using Htrue.
  intros Hat. unfold ethCallAt. eapply ensures_bind; [by apply callOne_true|]. intros raw Hraw.
  eapply ensures_bind; [apply ensures_lift, unmarshalString_Ok|].
  intros s ->. apply ensures_lift. intros out Hout. by eapply (rt_call _ _ _ Hraw).
Qed.
End truth.
