(* ===== verification/ReaderSpec.v ===== *)
(** * What the Reader's reads return

    The headers behind [stamp], the events of a range and the end block, first with
    any endpoints at all, then with one that tells the truth. *)
From S2P Require Import Prelude Sorts Bytes Text Merkle Twab Chain StateMonad Wire Reader ChainReader WireSpec Honest.

(** ** Cross-checked reads

    A read of several endpoints succeeds only with an answer all of them gave, so one
    that tells the truth is enough to make it true. *)


Section cross.
Context (server : nat → nat → rpcPost → httpReply) (schedule : nat → nat → list nat) (r : chainReader).

Abbreviation crossCheck := (crossCheck schedule r).
Abbreviation endpoints := (endpoints r).

Lemma eachEndpoint_ensures {A} (fn : nat → Wire A) (P : nat → A → Prop) :
  (∀ i, ensures (fn i) (P i)) →
  ensures (eachEndpoint schedule r fn) (λ l, length l = endpoints ∧ ∀ i a, l !! i = Some a → P i a).
Proof.
  intros Hfn. unfold eachEndpoint. eapply ensures_bind; [apply ensures_any|]. intros order _.
  eapply ensures_bind.
  { apply (ensures_foldS _ (λ m : gmap nat A, ∀ i a, m !! i = Some a → P i a)); [by intros i a; rewrite lookup_empty|].
    intros m i _ Hm. unfold answerAt. eapply ensures_bind; [apply ensures_catch; [apply Hfn|intros; apply ensures_throw]|].
    intros a Ha. apply ensures_ret. intros j b. rewrite lookup_insert_Some. intros [[<- <-]|[_ ?]]; [done|by apply Hm]. }
  intros m Hm. apply ensures_lift. intros l Hl%traverse_Ok. split.
  - apply Forall2_length in Hl. by rewrite length_seq in Hl.
  - intros i a Hi. destruct (Forall2_lookup_r _ _ _ _ _ Hl Hi) as (j & Hj & Hja).
    apply lookup_seq in Hj as [-> _]. cbn in Hja. destruct (m !! i) as [b|] eqn:E; [|done]. injection Hja as <-. by apply Hm.
Qed.

Lemma agreeFrom_Ok {A} (canonical : A → list byte) first i answers u :
  agreeFrom canonical first i answers = Ok u → ∀ a, a ∈ answers → canonical a = first.
Proof.
  revert i. induction answers as [|b answers IH]; intros i H a Ha; [by apply elem_of_nil in Ha|].
  cbn [agreeFrom] in H. destruct (decide (first = canonical b)) as [->|]; [|done].
  apply elem_of_cons in Ha as [->|Ha]; [done|by eapply IH].
Qed.

(** What every endpoint's answer has, the cross-checked one has. *)
Lemma crossCheck_typed {A} (read : nat → Wire A) canonical (T : A → Prop) :
  (∀ i, ensures (read i) T) → ensures (crossCheck read canonical) T.
Proof.
  intros HT. unfold ChainReader.crossCheck. destruct (endpoints =? 1)%nat.
  { apply ensures_catch; [apply HT|intros; apply ensures_throw]. }
  eapply ensures_bind; [apply (eachEndpoint_ensures read (λ _, T)), HT|]. intros [|a rest] [_ Hl].
  - by apply ensures_lift.
  - eapply ensures_bind; [apply ensures_any|]. intros _ _. by apply ensures_ret, (Hl 0%nat).
Qed.

(** One endpoint's own answer is the only one there can be. *)
Lemma crossCheck_true {A} (read : nat → Wire A) canonical (T : A → Prop) i v :
  (i < endpoints)%nat → (∀ j, ensures (read j) T) → ensures (read i) (λ a, a = v) →
  (∀ a, T a → canonical a = canonical v → a = v) →
  ensures (crossCheck read canonical) (λ a, a = v).
Proof.
  intros Hi HT Hv Hinj. unfold ChainReader.crossCheck. destruct (Nat.eqb_spec endpoints 1) as [H1|H1].
  { assert (i = 0%nat) as -> by lia. apply ensures_catch; [exact Hv|intros; apply ensures_throw]. }
  eapply ensures_bind; [apply (eachEndpoint_ensures read (λ j a, T a ∧ (j = i → a = v)))|].
  { intros j. apply ensures_and; [apply HT|]. intros s a s' H ->. by eapply Hv. }
  intros [|a rest] [Hlen Hl]; [by apply ensures_lift|].
  eapply ensures_bind.
  { apply (ensures_lift _ (λ _, ∀ b, b ∈ rest → canonical b = canonical a)). intros u. apply agreeFrom_Ok. }
  intros u Hagree. apply ensures_ret.
  destruct (Hl 0%nat a eq_refl) as [HTa Ha]. destruct i as [|i]; [by apply Ha|].
  destruct (lookup_lt_is_Some_2 rest i) as [b Hb]; [cbn in Hlen; lia|].
  destruct (Hl (S i) b Hb) as [_ Hbv]. specialize (Hbv eq_refl). subst b.
  apply Hinj; [done|]. symmetry. apply Hagree. by eapply list_elem_of_lookup_2.
Qed.

(** ** Pages of logs *)

Section pages.
(** A property of the logs of a range, true of every page and of adjoining ranges. *)
Context (address : Address) (topic0 : Hash) (from to : Z) (P : Z → Z → list eventLog → Prop).
Hypothesis Hpage : ∀ lo hi, from ≤ lo ≤ hi → hi ≤ to →
  ensures (crossCheck (λ i, getLogs server i address topic0 lo hi) canonicalLogs) (P lo hi).
Hypothesis Hjoin : ∀ mid hi l k, from ≤ mid < hi → hi ≤ to → P from mid l → P (mid + 1) hi k → P from hi (l ++ k).

Lemma logsFrom_ensures fuel : ∀ start span out, from ≤ start ≤ to → 1 ≤ span →
  (start = from ∧ out = [] ∨ from < start ∧ P from (start - 1) out) →
  ensures (logsFrom server schedule r fuel address topic0 start to span out) (P from to).
Proof using Hpage Hjoin.
  induction fuel as [|fuel IH]; intros start span out Hstart Hspan Hout; cbn [logsFrom];
    [by apply ensures_lift|]. intros s a s'. cbn zeta.
  set (end_ := if span <=? to - start then start + span - 1 else to).
  assert (start ≤ end_ ≤ to) as Hend by (unfold end_; destruct (Z.leb_spec span (to - start)); lia).
  destruct (ChainReader.crossCheck _ _ _ _ s) as [[page|err|x] s1] eqn:E; [| |done].
  - apply Hpage in E; [|lia..]. assert (P from end_ (out ++ page)) as Hnext.
    { destruct Hout as [[-> ->]|[Hlt Hout]]; [done|]. apply (Hjoin (start - 1)); [lia..|done|].
      by replace (start - 1 + 1) with start by lia. }
    destruct (Z.eqb_spec end_ to) as [Heq|Hne].
    + intros [= <- <-]. by rewrite Heq in Hnext.
    + apply IH; [lia|done|]. right. split; [lia|]. by replace (end_ + 1 - 1) with end_ by lia.
  - destruct (Z.ltb_spec 1 span) as [Hlt|]; cbn [andb]; [|done]. destruct (tooBig err); [|done].
    apply IH; [done| |done]. apply Z.div_le_lower_bound; lia.
Qed.

Lemma logs_ensures span :
  1 ≤ span → ensures (logs server schedule r address topic0 from to span) (λ ls, from ≤ to ∧ P from to ls).
Proof using Hpage Hjoin.
  intros Hspan. unfold logs. destruct (Z.ltb_spec to from) as [|Hle]; [apply ensures_throw|].
  eapply ensures_mono; [apply logsFrom_ensures; [lia|done|by left]|]. done.
Qed.
End pages.
End cross.


(** ** Compacting and batching *)

Lemma Compact_elem x l : x ∈ Compact l ↔ x ∈ l.
Proof.
  induction l as [|y l IH]; [done|]. cbn [Compact]. destruct l as [|z l]; [done|].
  destruct (Z.eqb_spec y z) as [->|]; rewrite ?elem_of_cons, IH, !elem_of_cons; tauto.
Qed.

Lemma batchesOf_concat {A} fuel n (l : list A) :
  (0 < n)%nat → (length l ≤ fuel)%nat → concat (batchesOf fuel n l) = l.
Proof.
  intros Hn. revert l. induction fuel as [|fuel IH]; intros l Hl.
  - destruct l; [done|cbn in Hl; lia].
  - destruct l as [|x l]; [done|]. cbn [batchesOf concat]. rewrite IH.
    + apply take_drop.
    + rewrite length_drop. cbn [length] in *. lia.
Qed.

Lemma batchesOf_small {A} fuel n (l k : list A) : k ∈ batchesOf fuel n l → (length k ≤ n)%nat.
Proof.
  revert l. induction fuel as [|fuel IH]; intros l Hk; [by apply elem_of_nil in Hk|].
  destruct l as [|x l]; [by apply elem_of_nil in Hk|]. cbn [batchesOf] in Hk.
  apply elem_of_cons in Hk as [->|Hk]; [rewrite length_take; lia|by eapply IH].
Qed.

(** A loop's invariant over what it has gone through. *)
Lemma ensures_foldS_done {S E A B} (f : B → A → StM S E B) (I : list A → B → Prop) l b :
  I [] b → (∀ done b x, I done b → ensures (f b x) (I (done ++ [x]))) → ensures (foldS f l b) (I l).
Proof.
  intros Hb Hf. change l with ([] ++ l) at 2. revert Hb. generalize (@nil A). revert b.
  induction l as [|x l IH]; intros b past Hb; cbn [foldS].
  - rewrite app_nil_r. by apply ensures_ret.
  - eapply ensures_bind; [by apply Hf|]. intros b' Hb'.
    replace (past ++ x :: l) with ((past ++ [x]) ++ l) by by rewrite <-app_assoc. by apply IH.
Qed.

Section reads.
Context (keccak256 : list byte → Hash).
Context (server : nat → nat → rpcPost → httpReply) (schedule : nat → nat → list nat) (r : chainReader).
Hypothesis Hschedule : ∀ clock n, schedule clock n ≡ₚ seq 0 n.

(** ** Timestamps *)

Section stamps.
(** What a block's timestamp is known to be. *)
Context (G : Z → Z → Prop).

Definition header_ok (n : Z) (b : Block) : Prop := b_Number b = n ∧ G n (b_Timestamp b).
Definition stamps_ok (m : gmap Z Z) : Prop := ∀ n t, m !! n = Some t → G n t.

Lemma stamp_headers ns hs m :
  Forall2 header_ok ns hs → stamps_ok m →
  let m' := foldl (λ out h, <[b_Number h := b_Timestamp h]> out) m hs in
  stamps_ok m' ∧ ∀ n, n ∈ ns ∨ is_Some (m !! n) → is_Some (m' !! n).
Proof.
  intros Hns. cbn zeta. revert m. induction Hns as [|n b ns hs [<- Hb] _ IH]; intros m Hm; cbn [foldl].
  - split; [done|]. intros n [Hn|?]; [by apply elem_of_nil in Hn|done].
  - destruct (IH (<[b_Number b := b_Timestamp b]> m)) as [H1 H2].
    { intros n t. rewrite lookup_insert_Some. intros [[<- <-]|[_ ?]]; [done|by apply Hm]. }
    split; [done|]. intros n Hn. apply H2. destruct (decide (b_Number b = n)) as [->|Hne].
    { right. rewrite lookup_insert_eq. by eexists. }
    rewrite lookup_insert_ne by done. destruct Hn as [Hn|?]; [|by right].
    apply elem_of_cons in Hn as [->|?]; [done|by left].
Qed.

Lemma Timestamps_ensures blocks :
  (∀ ns, Forall (λ n, n ∈ blocks) ns → (length ns ≤ HeaderBatch)%nat →
    ensures (crossCheck schedule r (λ i, blocksByNumber server i ns) canonicalBlocks) (Forall2 header_ok ns)) →
  ensures (Timestamps server schedule r blocks) (λ m, ∀ n, n ∈ blocks → ∃ t, m !! n = Some t ∧ G n t).
Proof using Hschedule.
  intros Hread. unfold Timestamps. set (wanted := Compact _). set (batches := batchesOf _ _ _).
  assert (concat batches = wanted) as Hcat by (apply batchesOf_concat; [unfold HeaderBatch; lia|done]).
  assert (∀ n, n ∈ wanted ↔ n ∈ blocks) as Hwant.
  { intros n. unfold wanted. by rewrite Compact_elem, elem_of_sort_by. }
  assert (∀ order, order ≡ₚ seq 0 (length batches) → ensures (foldS (stampBatch server schedule r batches) order ∅)
    (λ m, stamps_ok m ∧ ∀ n, n ∈ blocks → is_Some (m !! n))) as Hfold.
  { intros order Horder. eapply ensures_mono.
    - apply (ensures_foldS_done _ (λ past m, stamps_ok m ∧
        ∀ i ns n, i ∈ past → batches !! i = Some ns → n ∈ ns → is_Some (m !! n))).
      + split; [intros n t; by rewrite lookup_empty|]. intros i ns n Hi. by apply elem_of_nil in Hi.
      + intros past m i [Hm Hpast]. unfold stampBatch.
        eapply ensures_bind; [apply (ensures_lift _ (λ ns, batches !! i = Some ns)); intros ns; apply index_Ok|].
        intros ns Hns. eapply ensures_bind; [apply Hread|].
        { apply Forall_forall. intros n Hn. apply Hwant. rewrite <-Hcat. apply list_elem_of_In, in_concat.
          exists ns. split; apply list_elem_of_In; [exact (list_elem_of_lookup_2 _ _ _ Hns)|exact Hn]. }
        { eapply batchesOf_small. exact (list_elem_of_lookup_2 _ _ _ Hns). }
        intros hs Hhs. apply ensures_ret. destruct (stamp_headers ns hs m Hhs Hm) as [H1 H2]. split; [done|].
        intros j ns' n [Hj|Hj]%elem_of_app Hns' Hn; apply H2; [right; by eapply Hpast|left].
        apply list_elem_of_singleton in Hj as ->. rewrite Hns in Hns'. by injection Hns' as <-.
    - intros m [Hm Hall]. split; [done|]. intros n Hn%Hwant. rewrite <-Hcat in Hn.
      apply list_elem_of_In, in_concat in Hn as (ns & Hns & Hn). apply list_elem_of_In in Hns, Hn.
      apply list_elem_of_lookup in Hns as [i Hi]. apply (Hall i ns n); [|done|done].
      rewrite Horder. apply elem_of_seq. apply lookup_lt_Some in Hi. lia. }
  eapply (ensures_mono _ (λ m, stamps_ok m ∧ ∀ n, n ∈ blocks → is_Some (m !! n))).
  - unfold inParallel. destruct (Nat.eqb_spec (length batches) 0) as [H0|_].
    + apply ensures_ret. split; [intros n t; by rewrite lookup_empty|]. intros n Hn%Hwant.
      apply nil_length_inv in H0. rewrite <-Hcat, H0 in Hn. by apply elem_of_nil in Hn.
    + eapply ensures_bind; [|intros order Horder; exact (Hfold order Horder)].
      intros s order s' [= <- _]. apply Hschedule.
  - intros m [Hm Hall] n Hn. destruct (Hall n Hn) as [t Ht]. exists t. split; [done|by apply Hm].
Qed.
End stamps.

Lemma stampAll_ensures {A} (siteOf : A → Site) (put : gmap Z Z → A → A) (G : Z → Z → Prop) events :
  (∀ ns, Forall (λ n, n ∈ (λ x, site_BlockNumber (siteOf x)) <$> events) ns → (length ns ≤ HeaderBatch)%nat →
    ensures (crossCheck schedule r (λ i, blocksByNumber server i ns) canonicalBlocks) (Forall2 (header_ok G) ns)) →
  ensures (stampAll server schedule r siteOf put events) (λ out, ∃ m, out = put m <$> events ∧
    ∀ x, x ∈ events → ∃ t, m !! site_BlockNumber (siteOf x) = Some t ∧ G (site_BlockNumber (siteOf x)) t).
Proof using Hschedule.
  intros Hread. unfold stampAll. eapply ensures_bind; [by apply Timestamps_ensures|].
  intros m Hm. apply ensures_ret. exists m. split; [done|]. intros x Hx. apply Hm. apply list_elem_of_fmap. by exists x.
Qed.

(** ** Any endpoints *)

Definition site_ok (from to : Z) (s : Site) : Prop :=
  in_blocks from to s ∧ is_u64 (site_BlockNumber s) ∧ is_u64 (site_LogIndex s) ∧ 0 ≤ site_Timestamp s < 2 ^ 63.
Definition amount_ok (x : option Z) : Prop := ∃ v, x = Some v ∧ 0 ≤ v < 2 ^ 256.
Definition amounts_ok (v : vec (option Z) 5) : Prop := ∀ t, amount_ok (v !!! t).

(** In block order, and in log order within a block. *)
Definition site_le (s u : Site) : Prop :=
  site_BlockNumber s < site_BlockNumber u ∨
  site_BlockNumber s = site_BlockNumber u ∧ site_LogIndex s ≤ site_LogIndex u.

Lemma headers_typed ns :
  ensures (crossCheck schedule r (λ i, blocksByNumber server i ns) canonicalBlocks)
    (Forall2 (header_ok (λ _ t, 0 ≤ t < 2 ^ 63)) ns).
Proof using Type.
  apply crossCheck_typed. intros i. eapply ensures_mono; [apply blocksByNumber_numbered|].
  intros hs H. eapply Forall2_impl; [exact H|]. intros n b [[_ ?] ?]. by split.
Qed.

Lemma logs_page address topic0 from to span :
  1 ≤ span → ensures (logs server schedule r address topic0 from to span) (page_ok address topic0 from to).
Proof using Type.
  intros Hspan. eapply ensures_mono; [apply (logs_ensures _ _ _ _ _ _ _ (page_ok address topic0))|by intros ls [_ ?]].
  - intros lo hi _ _. apply crossCheck_typed. intros i. apply getLogs_page.
  - intros mid hi l k Hmid Hhi [Hl Hls] [Hk Hks].
    assert (∀ x, x ∈ l → log_typed x ∧ matches address topic0 from mid x) as Hl' by by apply Forall_forall.
    assert (∀ x, x ∈ k → log_typed x ∧ matches address topic0 (mid + 1) hi x) as Hk' by by apply Forall_forall.
    unfold matches in *. split.
    + apply Forall_app; split; apply Forall_forall; intros x Hx;
        [destruct (Hl' x Hx) as (? & ? & ? & ?)|destruct (Hk' x Hx) as (? & ? & ? & ?)]; (split; [done|split_and!; [done|done|lia|lia]]).
    + apply StronglySorted_app. split_and!; [|done|done]. intros x y Hx Hy.
      destruct (Hl' x Hx) as (_ & _ & _ & ?), (Hk' y Hy) as (_ & _ & _ & ?).
      unfold cmp_le. pose proof (compareLogs_spec x y) as Hc. intros HG. rewrite HG in Hc. unfold log_before in Hc. lia.
  - done.
Qed.

(** Logs decoded and stamped, as [Transfers], [Exclusions] and [Roots] are. *)
Definition readEvents {A} (decode : eventLog → Res chainError A) (siteOf : A → Site) (put : gmap Z Z → A → A)
    (address : Address) (topic0 : Hash) (from to span : Z) : Wire (list A) :=
  ls ← logs server schedule r address topic0 from to span;
  out ← lift (traverse decode ls);
  stampAll server schedule r siteOf put out.

(** An event, its log and the timestamps it is stamped from. *)
Record event_laws {A} (decode : eventLog → Res chainError A) (siteOf : A → Site) (put : gmap Z Z → A → A) : Prop := {
  ev_site : ∀ l x, decode l = Ok x → siteOf x = site l;
  ev_put : ∀ m x, siteOf (put m x) = stampSite m (siteOf x);
}.

Lemma readEvents_typed {A} (decode : eventLog → Res chainError A) siteOf put (T : A → Prop) address topic0 from to span :
  event_laws decode siteOf put → (∀ l x m, decode l = Ok x → T (put m x)) → 1 ≤ span →
  ensures (readEvents decode siteOf put address topic0 from to span)
    (λ xs, Forall (λ x, site_ok from to (siteOf x) ∧ T x) xs ∧ StronglySorted site_le (siteOf <$> xs)).
Proof using Hschedule.
  intros [Hsite Hput] HT Hspan. unfold readEvents. eapply ensures_bind; [by apply logs_page|]. intros ls [Hls Hsorted].
  eapply ensures_bind; [apply (ensures_lift _ (Forall2 (λ l x, decode l = Ok x) ls)); intros xs; apply traverse_Ok|].
  intros xs Hxs. eapply ensures_mono; [apply (stampAll_ensures _ _ (λ _ t, 0 ≤ t < 2 ^ 63)); intros ns _ _; apply headers_typed|].
  intros out (m & -> & Hm). split.
  - apply Forall_fmap, Forall_forall. intros x Hx. cbn. destruct (Hm x Hx) as (t & Ht & Htr).
    apply list_elem_of_lookup in Hx as [i Hi]. destruct (Forall2_lookup_r _ _ _ _ _ Hxs Hi) as (l & Hl & Hd).
    rewrite Forall_forall in Hls. destruct (Hls l) as [[Hn Hidx] (_ & _ & Hrange)]; [by eapply list_elem_of_lookup_2|].
    rewrite Hput. split; [|by eapply HT]. unfold site_ok, in_blocks, stampSite. cbn.
    rewrite Ht. cbn. by rewrite (Hsite l x Hd).
  - clear Hm. rewrite <-list_fmap_compose. induction Hxs as [|l x ls xs Hd Hxs IH]; [constructor|].
    inversion Hsorted as [|? ? Hs Hl]; inversion Hls; subst. rewrite fmap_cons. constructor; [by apply IH|].
    apply Forall_fmap, Forall_forall. intros y Hy. apply list_elem_of_lookup in Hy as [i Hi].
    destruct (Forall2_lookup_r _ _ _ _ _ Hxs Hi) as (k & Hk & Hkd). rewrite Forall_forall in Hl.
    specialize (Hl k (list_elem_of_lookup_2 _ _ _ Hk)). cbn. rewrite !Hput, (Hsite _ _ Hd), (Hsite _ _ Hkd).
    unfold site_le, stampSite. cbn. pose proof (compareLogs_spec l k) as H. unfold cmp_le, log_before, log_key in *.
    destruct (compareLogs l k); [simplify_eq|..|done]; lia.
Qed.
End reads.
