(* ===== verification/ReaderTruth.v ===== *)
(** * Reads that are true, and reads that are typed

    What Transfers, Exclusions, Roots, BlockByNumber, Ledger, LaunchCurve and
    EndBlock return whenever they return. *)
From S2P Require Import Prelude Sorts Bytes Text Merkle Twab Chain ChainTheorems StateMonad Wire Reader ChainReader WireSpec Honest ReaderSpec.

(** ** The three events *)

Lemma ensures_decoded {S E A} (r : Res E A) : ensures (lift r : StM S E A) (λ a, r = Ok a).
Proof. by apply ensures_lift. Qed.

Section decoders.
Context (keccak256 : list byte → Hash).

Lemma transfer_laws : event_laws (decodeTransfer keccak256) ct_Site stampTransfer.
Proof.
  split; [|done]. unfold decodeTransfer. intros l x H. inv_ok H. by subst.
Qed.

Lemma exclusion_laws : event_laws (decodeExcludedAppended keccak256) ce_Site stampExclusion.
Proof.
  split; [|done]. unfold decodeExcludedAppended. intros l x H. inv_ok H. by subst.
Qed.

Lemma root_laws : event_laws (decodeRootPosted keccak256) rp_Site stampRoot.
Proof.
  split; [|done]. unfold decodeRootPosted. intros l x H. inv_ok H. by subst.
Qed.

(** ** Types *)

Definition transfer_typed (t : ChainTransfer) : Prop := amount_ok (ct_Value t).
Definition root_typed (p : RootPosted) : Prop :=
  is_u64 (rp_ID p) ∧ amounts_ok (rp_Totals p) ∧ amounts_ok (rp_CarryIn p).
Definition ledger_typed (l : LedgerBook) : Prop :=
  0 ≤ lb_RootPostedAt l < 2 ^ 63 ∧ amounts_ok (lb_Funded l) ∧ amounts_ok (lb_Totals l) ∧ amounts_ok (lb_Claimed l).

Lemma word_range w : (length w ≤ 32)%nat → 0 ≤ wordUint256 w < 2 ^ 256.
Proof.
  intros Hw. unfold wordUint256. pose proof (be_decode_range w) as [? ?]. split; [done|].
  eapply Z.lt_le_trans; [done|]. change (2 ^ 256) with (256 ^ 32). apply Z.pow_le_mono_r; lia.
Qed.

Lemma dataAmounts_ok data i : amounts_ok (dataAmounts data i).
Proof.
  intros t. unfold dataAmounts. assert (∀ j, 0 ≤ wordUint256 (dataWord data j) < 2 ^ 256) as Hw.
  { intros j. apply word_range. unfold dataWord, slice, wordSize. rewrite length_take. lia. }
  inv_fin t; [by eexists|intros t]. inv_fin t; [by eexists|intros t]. inv_fin t; [by eexists|intros t].
  inv_fin t; [by eexists|intros t]. inv_fin t; [by eexists|intros t]. inv_fin t.
Qed.

Lemma decodeTransfer_typed l t m : decodeTransfer keccak256 l = Ok t → transfer_typed (stampTransfer m t).
Proof.
  unfold decodeTransfer, transfer_typed. intros (u & Hc & H)%bind_Ok. inv_ok H. subst. cbn. eexists. split; [done|].
  apply word_range. unfold check in Hc. repeat case_match; try done. rewrite Nat.eqb_eq in *. unfold wordSize in *. lia.
Qed.

Lemma decodeRootPosted_typed l p m : decodeRootPosted keccak256 l = Ok p → root_typed (stampRoot m p).
Proof.
  unfold decodeRootPosted, root_typed. intros H. inv_ok H. subst. cbn.
  split_and!; [|apply dataAmounts_ok..]. match goal with Hw : wordUint64 _ = Ok _, Ht : topicWord _ 2 = Ok _ |- _ =>
    apply wordUint64_Ok in Hw as [? _]; [done|]; unfold topicWord in Ht; inv_ok Ht; subst end.
  apply length_vec_to_list.
Qed.

Lemma decodeLedger_typed data l : decodeLedger data = Ok l → ledger_typed l.
Proof.
  unfold decodeLedger. destruct (Nat.eqb_spec (length data) (ledgerWords * wordSize)) as [Hlen|]; cbn [negb]; [|done].
  intros H. inv_ok H. subst. unfold ledger_typed. cbn. split_and!; try apply dataAmounts_ok.
  all: match goal with Hp : match wordUint64 ?w with _ => _ end = Ok _ |- _ =>
    destruct (wordUint64 w) as [n| |] eqn:Hw; [|done..]; destruct (Z.ltb_spec MaxInt64 n) as [|Hn]; [done|];
    injection Hp as <- end.
  all: apply wordUint64_Ok in Hw as [[? ?] _];
    [unfold MaxInt64 in *; lia|unfold dataWord, slice; rewrite length_take, length_drop, Hlen; done].
Qed.
End decoders.

(** ** The chain as the contracts' clients see it *)

Section view.
Context (keccak256 : list byte → Hash) (W : World) (r : chainReader) (tip : Z).

Definition timed (s : Site) : Site :=
  mkSite (site_BlockNumber s) (site_BlockHash s) (site_LogIndex s) (b_Timestamp (wo_block W (site_BlockNumber s))).
Definition timed_transfer (t : ChainTransfer) : ChainTransfer :=
  mkChainTransfer (timed (ct_Site t)) (ct_From t) (ct_To t) (ct_Value t).
Definition timed_exclusion (x : ChainExclusion) : ChainExclusion := mkChainExclusion (timed (ce_Site x)) (ce_Account x).
Definition timed_root (p : RootPosted) : RootPosted :=
  mkRootPosted (timed (rp_Site p)) (rp_Kind p) (rp_ID p) (rp_Root p) (rp_Totals p) (rp_CarryIn p).

(** The logs of a stream, over the whole chain. *)
Definition stream (address : Address) (topic0 : Hash) : list eventLog :=
  filter (λ l, el_Address l = address ∧ head (el_Topics l) = Some topic0) (wo_logs W).

Definition events {A} (decode : eventLog → Res chainError A) (time : A → A) (ls : list eventLog) : list A :=
  omap (λ l, time <$> ok_of (decode l)) ls.

Definition view : ChainView := mkChainView (wo_block W)
  (events (decodeTransfer keccak256) timed_transfer (stream (cr_token r) (topicTransfer keccak256)))
  (events (decodeExcludedAppended keccak256) timed_exclusion (stream (cr_distributor r) (topicExcludedAppended keccak256)))
  (events (decodeRootPosted keccak256) timed_root (stream (cr_distributor r) (topicRootPosted keccak256)))
  (λ id, default (mkLedgerBook zeroHash 0 false (vreplicate 5 None) (vreplicate 5 None) (vreplicate 5 None))
     (ok_of (decodeLedger (wo_call W (cr_distributor r) (encodeLedgerCall keccak256 KindEpoch id) tip))))
  (default zeroAddress (ok_of (decodeLaunchedToken
     (wo_call W (cr_factory r) (encodeGetLaunchedToken keccak256 (cr_token r)) tip)))).

(** The events of a block range are those of its logs. *)
Lemma events_between {A} (decode : eventLog → Res chainError A) time (siteOf : A → Site) address topic0 from to :
  (∀ l x, decode l = Ok x → site_BlockNumber (siteOf (time x)) = el_BlockNumber l) →
  filter (λ x, in_blocks from to (siteOf x)) (events decode time (stream address topic0)) =
  events decode time (logs_of W address topic0 from to).
Proof.
  intros Hsite. unfold events, stream, logs_of. induction (wo_logs W) as [|l ls IH]; [done|].
  rewrite !filter_cons. destruct (decide (matches address topic0 from to l)) as [Hm|Hm],
    (decide (el_Address l = address ∧ head (el_Topics l) = Some topic0)) as [Hs|Hs].
  - cbn [omap list_omap]. destruct (decode l) as [x| |] eqn:E; cbn [ok_of fmap option_fmap option_map]; [|exact IH..].
    rewrite filter_cons_True, IH; [done|]. unfold in_blocks. rewrite (Hsite _ _ E). apply Hm.
  - destruct Hs. by destruct Hm as (? & ? & ?).
  - cbn [omap list_omap]. destruct (decode l) as [x| |] eqn:E; cbn [ok_of fmap option_fmap option_map]; [|exact IH..].
    rewrite filter_cons_False, IH; [done|]. unfold in_blocks. rewrite (Hsite _ _ E). intros ?. apply Hm. unfold matches. naive_solver.
  - exact IH.
Qed.
End view.

(** ** One endpoint that tells the truth *)

Section truth.
Context (keccak256 : list byte → Hash) (W : World) (HW : world_ok W).
Context (server : nat → nat → rpcPost → httpReply) (schedule : nat → nat → list nat) (r : chainReader).
Context (Hschedule : ∀ clock n, schedule clock n ≡ₚ seq 0 n).
Context (i : nat) (Hi : (i < endpoints r)%nat) (Htrue : truthful W server i).

Lemma BlockByNumber_true n : 0 ≤ n ≤ wo_head W →
  ensures (BlockByNumber server schedule r n) (λ b, b = wo_block W n).
Proof using HW Hi Htrue.
  intros Hn. apply (crossCheck_true _ _ _ _ block_typed i); [done|..].
  - intros j. apply blockByTag_typed.
  - by apply blockByTag_true.
  - intros b Hb. apply canonicalBlock_inj; [done|]. apply (wk_blocks _ HW n Hn).
Qed.

Lemma headers_true ns : Forall (λ n, 0 ≤ n ≤ wo_head W) ns → (length ns ≤ HeaderBatch)%nat →
  ensures (crossCheck schedule r (λ i, blocksByNumber server i ns) canonicalBlocks)
    (Forall2 (header_ok (λ n t, t = b_Timestamp (wo_block W n))) ns).
Proof using HW Hi Htrue.
  intros Hns Hlen. unfold HeaderBatch in Hlen. eapply ensures_mono.
  - apply (crossCheck_true _ _ _ _ (Forall block_typed) i (wo_block W <$> ns)); [done|..].
    + intros j. eapply ensures_mono; [apply blocksByNumber_numbered|]. intros bs Hbs. apply Forall_forall.
      intros b Hb. apply list_elem_of_lookup in Hb as [k Hk]. by destruct (Forall2_lookup_r _ _ _ _ _ Hbs Hk) as (? & _ & ? & _).
    + apply blocksByNumber_true; [done|done|done|lia].
    + intros bs Hbs. apply canonicalBlocks_inj; [done|]. apply Forall_fmap. eapply Forall_impl; [exact Hns|].
      intros n Hn. apply (wk_blocks _ HW n Hn).
  - intros bs ->. apply Forall2_fmap_r, Forall_Forall2_diag. eapply Forall_impl; [exact Hns|]. intros n Hn.
    split; [|done]. apply (wk_blocks _ HW n Hn).
Qed.

Lemma logs_true address topic0 from to span : 0 ≤ from → to ≤ wo_head W → 1 ≤ span →
  ensures (logs server schedule r address topic0 from to span) (λ ls, from ≤ to ∧ ls = logs_of W address topic0 from to).
Proof using HW Hi Htrue.
  intros Hfrom Hto Hspan. apply (logs_ensures _ _ _ _ _ _ _ (λ lo hi ls, ls = logs_of W address topic0 lo hi)); [..|done].
  - intros lo hi Hlo Hhi. apply (crossCheck_true _ _ _ _ (page_ok address topic0 lo hi) i); [done|..].
    + intros j. apply getLogs_page.
    + by apply getLogs_true; [..|lia|lia].
    + intros ls [Hls _]. apply canonicalLogs_inj; [|by apply Forall_filter_keep, (wk_typed _ HW)|apply (wk_small _ HW)].
      eapply Forall_impl; [exact Hls|]. by intros l [? _].
  - intros mid hi l k Hmid Hhi -> ->. unfold logs_of.
    assert (∀ lo hi, filter (matches address topic0 lo hi) (wo_logs W) =
      filter (λ l, lo ≤ el_BlockNumber l ≤ hi) (stream W address topic0)) as Hsplit.
    { intros lo' hi'. unfold stream. rewrite list_filter_filter. apply list_filter_iff. intros x. unfold matches. tauto. }
    rewrite !Hsplit. symmetry. apply (filter_ranges el_BlockNumber _ _ _ from mid hi); try done; try lia.
    apply StronglySorted_filter. eapply StronglySorted_weaken; [|apply (wk_logs _ HW)].
    intros x y. unfold log_before. lia.
Qed.

(** The events of a range are the view's. *)
Lemma readEvents_true {A} (decode : eventLog → Res chainError A) siteOf put time address topic0 from to span :
  event_laws decode siteOf put →
  (∀ m x t, m !! site_BlockNumber (siteOf x) = Some t → t = b_Timestamp (wo_block W (site_BlockNumber (siteOf x))) →
     put m x = time x) →
  (∀ l x, decode l = Ok x → site_BlockNumber (siteOf (time x)) = el_BlockNumber l) →
  0 ≤ from → to ≤ wo_head W → 1 ≤ span →
  ensures (readEvents server schedule r decode siteOf put address topic0 from to span)
    (λ xs, from ≤ to ∧ xs = filter (λ x, in_blocks from to (siteOf x)) (events decode time (stream W address topic0))).
Proof using HW Hschedule Hi Htrue.
  intros [Hsite _] Hput Htime Hfrom Hto Hspan. unfold readEvents.
  eapply ensures_bind; [by apply logs_true|]. intros ls [Hle ->].
  eapply ensures_bind; [apply (ensures_lift _ (Forall2 (λ l x, decode l = Ok x) (logs_of W address topic0 from to))); intros xs; apply traverse_Ok|].
  intros xs Hxs. assert (∀ x, x ∈ xs → from ≤ site_BlockNumber (siteOf x) ≤ to) as Hrange.
  { intros x Hx. apply list_elem_of_lookup in Hx as [k Hk]. destruct (Forall2_lookup_r _ _ _ _ _ Hxs Hk) as (l & Hl & Hd).
    rewrite (Hsite l x Hd). apply list_elem_of_lookup_2, list_elem_of_filter in Hl as [Hm _]. apply Hm. }
  eapply ensures_mono; [apply (stampAll_ensures _ _ _ Hschedule _ _ (λ n t, t = b_Timestamp (wo_block W n)))|].
  - intros ns Hns Hlen. apply headers_true; [|done]. eapply Forall_impl; [exact Hns|]. intros n (x & -> & Hx)%list_elem_of_fmap.
    specialize (Hrange x Hx). lia.
  - intros out (m & -> & Hm). split; [done|]. rewrite events_between by done. unfold events. clear Hrange.
    induction Hxs as [|l x ls xs Hd _ IH]; [done|]. cbn [omap list_omap]. rewrite Hd. cbn [ok_of fmap option_fmap option_map].
    destruct (Hm x) as (t & Hmt & Ht); [by constructor|]. rewrite fmap_cons, (Hput m x t Hmt Ht). f_equal.
    apply IH. intros y Hy. apply Hm. by constructor.
Qed.

Lemma callAt_true to data at_ : 0 ≤ at_ ≤ wo_head W →
  ensures (callAt server schedule r to data at_) (λ out, out = wo_call W to data at_).
Proof using Hi Htrue.
  intros Hat. apply (crossCheck_true _ _ _ _ (λ _, True) i); [done|..].
  - intros j. apply ensures_any.
  - by apply ethCallAt_true.
  - by intros a _ ->.
Qed.

(** ** The end block *)

Lemma endSearch_true tip t fuel : tip ≤ wo_head W → ∀ lo hi probed,
  0 ≤ lo ≤ hi → hi ≤ tip → probed !! lo = Some (wo_block W lo) →
  b_Timestamp (wo_block W lo) < t → t ≤ b_Timestamp (wo_block W hi) →
  ensures (endSearch server schedule r fuel t lo hi probed)
    (λ b, ∃ n, 0 ≤ n < tip ∧ b = wo_block W n ∧ b_Timestamp b < t ∧ t ≤ b_Timestamp (wo_block W (n + 1))).
Proof using HW Hi Htrue.
  intros Htip. induction fuel as [|fuel IH]; intros lo hi probed Hlo Hhi Hp Hlt Hge; cbn [endSearch];
    destruct (Z.ltb_spec 1 (hi - lo)) as [Hgap|Hgap]; try by apply ensures_lift.
  1,3: assert (lo ≠ hi) by (intros ->; lia); apply ensures_ret; exists lo; rewrite Hp; cbn [default from_option id];
    assert (hi = lo + 1) as -> by lia; split_and!; (done || lia).
  set (mid := lo + (hi - lo) / 2). assert (lo < mid < hi) as Hmid.
  { unfold mid. pose proof (Z.div_lt (hi - lo) 2 ltac:(lia) ltac:(lia)).
    pose proof (Z.div_le_lower_bound (hi - lo) 2 1 ltac:(lia) ltac:(lia)). lia. }
  eapply ensures_bind; [apply BlockByNumber_true; lia|]. intros b ->. cbn zeta.
  destruct (Z.ltb_spec (b_Timestamp (wo_block W mid)) t).
  - apply IH; [lia|lia|by rewrite lookup_insert_eq|done|done].
  - apply IH; [lia|lia|by rewrite lookup_insert_ne by lia|done|done].
Qed.

Lemma EndBlock_true id tip :
  0 ≤ b_Number (tip_Block tip) ≤ wo_head W → tip_Block tip = wo_block W (b_Number (tip_Block tip)) →
  ensures (EndBlock server schedule r id tip)
    (last_before (view keccak256 W r (b_Number (tip_Block tip))) (b_Number (tip_Block tip)) (w_End (WindowOf id))).
Proof using HW Hi Htrue.
  intros Hn Htip. unfold EndBlock. cbn zeta. destruct (Z.ltb_spec (b_Timestamp (tip_Block tip)) (w_End (WindowOf id))) as [|Hclosed];
    [apply ensures_throw|].
  eapply ensures_bind; [apply BlockByNumber_true; lia|]. intros g ->.
  destruct (Z.leb_spec (w_End (WindowOf id)) (b_Timestamp (wo_block W 0))); [apply ensures_throw|].
  eapply endSearch_true; [apply Hn|lia|done|by rewrite lookup_singleton_eq|done|]. by rewrite <-Htip.
Qed.
End truth.
