(* ===== verification/ReaderLive.v ===== *)
(** * Endpoints that answer

    [helpful] is an endpoint that serves its chain: it may rate-limit, refuse to
    batch and call a page of several blocks too big, but what it settles on can be
    read. When every endpoint is helpful and truthful, every read succeeds. *)
From S2P Require Import Prelude Sorts Bytes Text Merkle Twab Chain ChainTheorems StateMonad Wire Reader ChainReader WireSpec Honest ReaderSpec ReaderTruth.

(** ** Calls that always succeed *)

Definition defined {S E A} (m : StM S E A) : Prop := ∀ s, ∃ a s', m s = (Ok a, s').

Section defined.
Context {S E : Type}.

Lemma defined_ret {A} (a : A) : defined (mret a : StM S E A).
Proof. intros s. by exists a, s. Qed.

Lemma defined_lift {A} (a : A) : defined (lift (Ok a) : StM S E A).
Proof. intros s. by exists a, s. Qed.

Lemma defined_gets {A} (f : S → A) : defined (gets f : StM S E A).
Proof. intros s. by eexists _, s. Qed.

Lemma defined_bind {A B} (m : StM S E A) (f : A → StM S E B) (P : A → Prop) :
  defined m → ensures m P → (∀ a, P a → defined (f a)) → defined (m ≫= f).
Proof.
  intros Hm HP Hf s. destruct (Hm s) as (a & s1 & H1). unfold mbind, StM_bind. rewrite H1.
  apply Hf. by eapply HP.
Qed.

Lemma defined_foldS {A B} (f : B → A → StM S E B) l b : (∀ b x, x ∈ l → defined (f b x)) → defined (foldS f l b).
Proof.
  revert b. induction l as [|x l IH]; intros b Hf; cbn [foldS]; [apply defined_ret|].
  eapply defined_bind; [apply Hf; by constructor|apply ensures_any|]. intros b' _. apply IH.
  intros b2 y Hy. apply Hf. by constructor.
Qed.

Lemma defined_mapS {A B} (f : A → StM S E B) l : (∀ x, x ∈ l → defined (f x)) → defined (mapS f l).
Proof.
  induction l as [|x l IH]; intros Hf; cbn [mapS]; [apply defined_ret|].
  eapply defined_bind; [apply Hf; by constructor|apply ensures_any|]. intros y _.
  eapply defined_bind; [apply IH; intros; apply Hf; by constructor|apply ensures_any|]. intros; apply defined_ret.
Qed.

Lemma defined_catch {A} (m : StM S E A) handle : defined m → defined (catch m handle).
Proof. intros Hm s. unfold catch. destruct (Hm s) as (a & s' & ->). by eexists _, _. Qed.

(** A call that succeeds, with the value it must then have. *)
Lemma defined_value {A} (m : StM S E A) v s : defined m → ensures m (λ a, a = v) → (m s).1 = Ok v.
Proof. intros Hm Hv. destruct (Hm s) as (a & s' & H). rewrite H. cbn. f_equal. by eapply Hv. Qed.

Lemma defined_always {A} (m : StM S E A) v : defined m → ensures m (λ a, a = v) → always m (Ok v).
Proof. intros Hm Hv s _. destruct (Hm s) as (a & s' & H). exists s'. by rewrite H, (Hv _ _ _ H). Qed.
End defined.

(** ** Endpoints *)

(** A result that can be read as an answer to its question. *)
Record raw_answers (W : World) (q : question) (raw : rawResult) : Prop := RawAnswers {
  ra_id : q = ethChainId → ∃ s n, raw = rawString s ∧ parseQuantity s = Ok n;
  ra_tag : ∀ level, level ∈ [Latest; Safe; Finalized] → q = ethGetBlockByNumber level →
    ∃ w b, raw = rawBlock w ∧ decodeBlock w = Ok b;
  ra_block : ∀ n, 0 ≤ n ≤ wo_head W → q = ethGetBlockByNumber (quantity n) →
    ∃ w b, raw = rawBlock w ∧ decodeBlock w = Ok b;
  ra_logs : ∀ from to address topic0, 0 ≤ from ≤ to → to ≤ wo_head W →
    q = ethGetLogs (quantity from) (quantity to) (AddressString address) (HashString topic0) →
    ∃ ws ls, raw = rawLogs ws ∧ traverse decodeLog ws = Ok ls;
  ra_call : ∀ to data at_, 0 ≤ at_ ≤ wo_head W →
    q = ethCall (AddressString to) (hexBytes data) (quantity at_) →
    ∃ s out, raw = rawString s ∧ parseHexBytes s = Ok out;
}.

Definition reply_answers (W : World) (q : question) (r : rpcResponse) : Prop :=
  rr_Error r = None ∧ raw_answers W q (rr_Result r).

(** What the Reader asks about a chain: nothing past its head. *)
Inductive asked (W : World) : question → Prop :=
  | asked_id : asked W ethChainId
  | asked_tag level : level ∈ [Latest; Safe; Finalized] → asked W (ethGetBlockByNumber level)
  | asked_block n : 0 ≤ n ≤ wo_head W → asked W (ethGetBlockByNumber (quantity n))
  | asked_logs address topic0 from to : 0 ≤ from ≤ to → to ≤ wo_head W →
      asked W (ethGetLogs (quantity from) (quantity to) (AddressString address) (HashString topic0))
  | asked_call to data at_ : 0 ≤ at_ ≤ wo_head W → asked W (ethCall (AddressString to) (hexBytes data) (quantity at_)).

Definition asked_header (W : World) (q : question) : Prop := ∃ n, 0 ≤ n ≤ wo_head W ∧ q = ethGetBlockByNumber (quantity n).

(** A refusal of a page of several blocks, in words [tooBig] knows. *)
Definition reply_refuses (q : question) (r : rpcResponse) : Prop :=
  ∃ code message fromBlock toBlock from to address topic0, rr_Error r = Some (code, message) ∧
    tooBig (errRPC code message) = true ∧ parseQuantity fromBlock = Ok from ∧ parseQuantity toBlock = Ok to ∧
    from < to ∧ q = ethGetLogs fromBlock toBlock address topic0.

(** Within the attempts of one [roundTrip] the endpoint stops asking to wait. *)
Definition settles (server : nat → nat → rpcPost → httpReply) (i : nat) (post : rpcPost) (P : httpReply → Prop) : Prop :=
  ∀ clock, ∃ k, (k < maxAttempts)%nat ∧ P (server i (clock + k)%nat post) ∧
    ∀ j, (j < k)%nat → ∃ status body, server i (clock + j)%nat post = httpResponse status body ∧
      (status = 429 ∨ 500 ≤ status).

Record helpful (W : World) (server : nat → nat → rpcPost → httpReply) (i : nat) : Prop := Helpful {
  hp_one : ∀ req, asked W (rq_Question req) → settles server i (postOne req) (λ reply, ∃ r, reply = httpResponse 200 (bodySingle r) ∧
    (reply_answers W (rq_Question req) r ∨ reply_refuses (rq_Question req) r));
  hp_batch : ∀ reqs, Forall (λ req, asked_header W (rq_Question req)) reqs → settles server i (postBatch reqs) (λ reply,
    (∃ rs, reply = httpResponse 200 (bodyArray rs) ∧ (NoDup (rq_ID <$> reqs) → ∀ req, req ∈ reqs →
       (∃ r, r ∈ rs ∧ rr_ID r = rq_ID req) ∧
       ∀ r, r ∈ rs → rr_ID r = rq_ID req → reply_answers W (rq_Question req) r)) ∨
    (∃ status body, reply = httpResponse status body ∧ 400 ≤ status < 500 ∧ status ≠ 429) ∨
    (∃ r e, reply = httpResponse 200 (bodySingle r) ∧ rr_Error r = Some e));
}.

Section endpoint.
Context (W : World) (HW : world_ok W) (server : nat → nat → rpcPost → httpReply) (i : nat).

(** What [roundTrip] makes of the reply the endpoint settles on. *)
Definition settled (reply : httpReply) : Res chainError rpcBody :=
  match reply with
  | httpDown => Err errTransport
  | httpResponse status body => if status =? 200 then Ok body else Err (errHTTP status)
  end.

Lemma attempt_settled post s :
  (∀ status body, server i (nt_clock s) post = httpResponse status body → status ≠ 200 → status ≠ 429 ∧ status < 500) →
  attempt server i post s = (settled (server i (nt_clock s) post), tick s).
Proof.
  intros Hs. unfold attempt, settled. destruct (server i (nt_clock s) post) as [status body|]; [|done].
  specialize (Hs _ _ eq_refl). destruct (Z.eqb_spec status 200) as [|Hne]; cbn [negb]; [done|].
  destruct (Hs Hne) as [? ?]. by rewrite (proj2 (Z.eqb_neq status 429)), (proj2 (Z.leb_gt 500 status)) by lia.
Qed.

Lemma roundTrip_settles post (P : httpReply → Prop) s :
  settles server i post P →
  (∀ status body, P (httpResponse status body) → status ≠ 200 → status ≠ 429 ∧ status < 500) →
  ∃ reply s', roundTrip server i post s = (settled reply, s') ∧ P reply.
Proof.
  intros Hset HP. destruct (Hset (nt_clock s)) as (k & Hk & Hreply & Hbefore). clear Hset.
  unfold roundTrip. revert Hk Hreply Hbefore. generalize errTransport, maxAttempts. intros err n. revert err n s.
  induction k as [|k IH]; intros err n s Hk Hreply Hbefore; (destruct n as [|n]; [lia|]); cbn [roundTripFrom];
    unfold catch.
  - rewrite Nat.add_0_r in Hreply. rewrite attempt_settled.
    + destruct (settled (server i (nt_clock s) post)) as [body|e|x] eqn:E.
      * eexists _, _. split; [|exact Hreply]. by rewrite E.
      * exists (server i (nt_clock s) post), (tick s). split; [|done]. rewrite E. unfold settled in E.
        destruct (server i (nt_clock s) post) as [status body|]; [|by injection E as <-].
        destruct (status =? 200); [done|]. by injection E as <-.
      * unfold settled in E. destruct (server i (nt_clock s) post) as [status body|]; [|done]. by destruct (status =? 200).
    + intros status body E. rewrite E in Hreply. by eapply HP.
  - destruct (Hbefore 0%nat ltac:(lia)) as (status & body & Hs & Hst). rewrite Nat.add_0_r in Hs.
    unfold attempt. rewrite Hs. rewrite (proj2 (Z.eqb_neq status 200)) by lia. cbn [negb].
    assert ((status =? 429) || (500 <=? status) = true) as -> by (destruct Hst; lia).
    apply IH; [lia|..]; cbn [tick nt_clock].
    + by replace (S (nt_clock s) + k)%nat with (nt_clock s + S k)%nat by lia.
    + intros j Hj. destruct (Hbefore (S j)) as (st & b & H1 & H2); [lia|]. exists st, b.
      by replace (S (nt_clock s) + j)%nat with (nt_clock s + S j)%nat by lia.
Qed.

Context (Hhelp : helpful W server i) (Htrue : truthful W server i).

Lemma callOne_helpful q s : asked W q → ∃ r s', callOne server i q s = (responseResult r, s') ∧
  (reply_answers W q r ∨ reply_refuses q r).
Proof using Hhelp.
  intros Hask. unfold callOne, newRequest, mbind, StM_bind. cbn zeta. set (req := mkRequest _ q). set (s1 := setEndpoint _ _ s).
  destruct (roundTrip_settles (postOne req) _ s1 (hp_one _ _ _ Hhelp req Hask))
    as (reply & s2 & -> & r & -> & Hr).
  - intros status body (r & [= -> ->] & _). done.
  - by exists r, s2.
Qed.

Lemma parseQuantity_quantity n : is_u64 n → parseQuantity (quantity n) = Ok n.
Proof.
  intros Hn. pose proof (ParseUint_FormatUint 16 ltac:(lia) n Hn) as Hp. unfold parseQuantity, quantity. cbn [digitsOf mbind Res_bind].
  destruct (decide (FormatUint 16 n = "")) as [E|_]; [by rewrite E in Hp|]. by rewrite Hp.
Qed.

(** A question no refusal is for gets an answer. *)
Lemma callOne_defined q (P : rawResult → Prop) :
  asked W q →
  (∀ from to address topic0, q ≠ ethGetLogs from to address topic0) →
  (∀ raw, raw_answers W q raw → isNull raw = false ∧ P raw) →
  defined (callOne server i q) ∧ ensures (callOne server i q) P.
Proof using Hhelp.
  intros Hask Hq HP.
  assert (∀ s, ∃ raw s', callOne server i q s = (Ok raw, s') ∧ P raw) as Hall.
  { intros s. destruct (callOne_helpful q s Hask) as (r & s' & -> & [[Hn Hr]|Hr]).
    - destruct (HP _ Hr) as [Hnull Hraw]. unfold responseResult. rewrite Hn, Hnull. by eexists _, _.
    - destruct Hr as (? & ? & from & to & ? & ? & address & topic0 & _ & _ & _ & _ & _ & ->).
      by destruct (Hq from to address topic0). }
  split; intros s; destruct (Hall s) as (raw & s' & H1 & H2).
  - by eexists _, _.
  - intros raw' s'' H3. rewrite H1 in H3. by injection H3 as <- _.
Qed.

Lemma headerAt_defined tag : asked W (ethGetBlockByNumber tag) → (∀ raw, raw_answers W (ethGetBlockByNumber tag) raw → ∃ w b, raw = rawBlock w ∧ decodeBlock w = Ok b) →
  defined (blockByTag server i tag).
Proof using Hhelp.
  intros Hask Htag. destruct (callOne_defined (ethGetBlockByNumber tag) (λ raw, ∃ w b, raw = rawBlock w ∧ decodeBlock w = Ok b))
    as [Hd He]; [done|done|..].
  { intros raw Hraw. destruct (Htag raw Hraw) as (w & b & -> & Hb). split; [done|by eexists _, _]. }
  unfold blockByTag. eapply defined_bind; [exact Hd|exact He|]. intros raw (w & b & -> & Hb).
  eapply (defined_bind _ _ (λ x, x = w)); [apply defined_lift|by apply ensures_lift; intros ? [= <-]|]. intros ? ->.
  rewrite Hb. apply defined_lift.
Qed.

Lemma blockByTag_defined n : 0 ≤ n ≤ wo_head W → defined (blockByTag server i (quantity n)).
Proof using Hhelp. intros Hn. apply headerAt_defined; [by constructor|]. intros raw Hraw. by apply (ra_block _ _ _ Hraw n). Qed.

Lemma tip_defined level : level ∈ [Latest; Safe; Finalized] → defined (blockByTag server i level).
Proof using Hhelp. intros Hl. apply headerAt_defined; [by constructor|]. intros raw Hraw. by apply (ra_tag _ _ _ Hraw level). Qed.

Lemma chainIdOf_defined : defined (chainIdOf server i).
Proof using Hhelp.
  destruct (callOne_defined ethChainId (λ raw, ∃ s n, raw = rawString s ∧ parseQuantity s = Ok n)) as [Hd He]; [constructor|done|..].
  { intros raw Hraw. destruct (ra_id _ _ _ Hraw eq_refl) as (s & n & -> & Hn). split; [done|by eexists _, _]. }
  unfold chainIdOf. eapply defined_bind; [exact Hd|exact He|]. intros raw (s & n & -> & Hn).
  eapply (defined_bind _ _ (λ x, x = s)); [apply defined_lift|by apply ensures_lift; intros ? [= <-]|]. intros ? ->.
  rewrite Hn. apply defined_lift.
Qed.

Lemma ethCallAt_defined to data at_ : 0 ≤ at_ ≤ wo_head W → defined (ethCallAt server i to data at_).
Proof using Hhelp.
  intros Hat. destruct (callOne_defined (ethCall (AddressString to) (hexBytes data) (quantity at_))
    (λ raw, ∃ s out, raw = rawString s ∧ parseHexBytes s = Ok out)) as [Hd He]; [by constructor|done|..].
  { intros raw Hraw. destruct (ra_call _ _ _ Hraw to data at_ Hat eq_refl) as (s & out & -> & Ho). split; [done|by eexists _, _]. }
  unfold ethCallAt. eapply defined_bind; [exact Hd|exact He|]. intros raw (s & out & -> & Ho).
  eapply (defined_bind _ _ (λ x, x = s)); [apply defined_lift|by apply ensures_lift; intros ? [= <-]|]. intros ? ->.
  rewrite Ho. apply defined_lift.
Qed.

Lemma blockOf_defined n : 0 ≤ n ≤ wo_head W → defined (blockOf server i n).
Proof using HW Hhelp Htrue.
  intros Hn. unfold blockOf. eapply defined_bind; [by apply blockByTag_defined|by apply blockByTag_true|].
  intros b ->. unfold isBlock. rewrite (proj2 (wk_blocks _ HW n Hn)), Z.eqb_refl. cbn [negb].
  eapply defined_bind; [apply defined_lift|apply ensures_any|]. intros; apply defined_ret.
Qed.

(** ** Batches *)

Lemma newRequest_defined q : defined (newRequest i q).
Proof. intros s. by eexists _, _. Qed.

Lemma repliesByID_some rs r : r ∈ rs → is_Some (repliesByID rs !! rr_ID r).
Proof.
  unfold repliesByID. assert (∀ (m : gmap Z rpcResponse) id, (∃ r, r ∈ rs ∧ rr_ID r = id) ∨ is_Some (m !! id) →
    is_Some (foldl (λ byID r, <[rr_ID r:=r]> byID) m rs !! id)) as Hgen; [|intros Hr; apply Hgen; left; by exists r].
  clear r. induction rs as [|x rs IH]; intros m id H; cbn [foldl].
  - destruct H as [(r & Hr & _)|?]; [by apply elem_of_nil in Hr|done].
  - apply IH. destruct (decide (rr_ID x = id)) as [<-|Hne]; [right; rewrite lookup_insert_eq; by eexists|].
    rewrite lookup_insert_ne by done. destruct H as [(r & Hr & Hid)|?]; [|by right].
    apply elem_of_cons in Hr as [->|Hr]; [done|left; by exists r].
Qed.

(** The results of a batch whose every request is answered. *)
Lemma batchResults_answered ns reqs rs :
  Forall (λ n, 0 ≤ n ≤ wo_head W) ns → Forall2 (λ q req, rq_Question req = q) ((λ n, ethGetBlockByNumber (quantity n)) <$> ns) reqs →
  (∀ req, req ∈ reqs → (∃ r, r ∈ rs ∧ rr_ID r = rq_ID req) ∧
     ∀ r, r ∈ rs → rr_ID r = rq_ID req → reply_answers W (rq_Question req) r) →
  ∃ raws, traverse (batchResult (repliesByID rs)) reqs = Ok raws ∧
    Forall2 (λ n raw, raw_answers W (ethGetBlockByNumber (quantity n)) raw) ns raws.
Proof using Type.
  intros Hns Hreqs%Forall2_fmap_l Hrs. induction Hreqs as [|n req ns reqs Hq _ IH]; [by exists []|].
  apply Forall_cons in Hns as [Hn Hns]. destruct IH as (raws & Hraws & Hall); [done|intros q Hq'; apply Hrs; by constructor|].
  destruct (Hrs req) as [(r & Hr & Hid) Hgood]; [by constructor|].
  destruct (repliesByID_some rs r Hr) as [r' Hr']. rewrite Hid in Hr'.
  destruct (repliesByID_in _ _ _ Hr') as [Hin Hid']. destruct (Hgood r' Hin Hid') as [Hnone Hans].
  rewrite Hq in Hans. destruct (ra_block _ _ _ Hans n Hn eq_refl) as (w & b & Hraw & _).
  exists (rr_Result r' :: raws). split; [|by constructor].
  assert (batchResult (repliesByID rs) req = Ok (rr_Result r')) as Hres.
  { unfold batchResult. rewrite Hr'. unfold responseResult. by rewrite Hnone, Hraw. }
  rewrite traverse_cons, Hres, Hraws. done.
Qed.

(** The headers of a batch whose results are answers, and true. *)
Lemma batchedBlocks_answered ns raws :
  Forall (λ n, 0 ≤ n ≤ wo_head W) ns → Forall2 (λ n raw, raw_answers W (ethGetBlockByNumber (quantity n)) raw) ns raws →
  Forall2 (raw_true W) ((λ n, ethGetBlockByNumber (quantity n)) <$> ns) raws →
  ∃ bs, traverse (λ '(n, raw), batchedBlock n raw) (zip ns raws) = Ok bs.
Proof using HW.
  intros Hns Hraws Htr%Forall2_fmap_l. induction Hraws as [|n raw ns raws Hans _ IH]; [by eexists|].
  inversion Htr; inversion Hns; subst. destruct IH as (bs & Hbs); [done..|]. cbn [zip_with]. rewrite traverse_cons.
  destruct (ra_block _ _ _ Hans n ltac:(done) eq_refl) as (w & b & -> & Hb).
  assert (b = wo_block W n) as -> by (by eapply rt_block).
  assert (batchedBlock n (rawBlock w) = Ok (wo_block W n)) as Hres.
  { unfold batchedBlock. cbn [unmarshalBlock mbind Res_bind]. rewrite Hb. cbn [mbind Res_bind]. unfold isBlock.
    by rewrite (proj2 (wk_blocks _ HW n ltac:(done))), Z.eqb_refl. }
  rewrite Hres, Hbs. by eexists.
Qed.

(** A batch of headers is answered in full or refused. *)
Lemma callBatch_outcome ns s : Forall (λ n, 0 ≤ n ≤ wo_head W) ns → Z.of_nat (length ns) ≤ 2 ^ 64 →
  ∃ res s', callBatch server i ((λ n, ethGetBlockByNumber (quantity n)) <$> ns) s = (res, s') ∧
    ((∃ raws, res = Ok raws ∧ Forall2 (λ n raw, raw_answers W (ethGetBlockByNumber (quantity n)) raw) ns raws) ∨
     ∃ cause, res = Err (errBatchRefused cause)).
Proof using Hhelp.
  intros Hns Hlen. unfold callBatch.
  destruct (defined_mapS (newRequest i) ((λ n, ethGetBlockByNumber (quantity n)) <$> ns)
    (λ q _, newRequest_defined q) s) as (reqs & s1 & H1).
  pose proof (ensures_mapS (newRequest i) (λ q req, rq_Question req = q) _ (λ q _, newRequest_of i q) _ _ _ H1) as Hreqs.
  pose proof (newRequests_nodup i ((λ n, ethGetBlockByNumber (quantity n)) <$> ns) ltac:(by rewrite length_fmap) _ _ _ H1) as Hnodup.
  unfold mbind at 1, StM_bind at 1. rewrite H1. clear H1. unfold mbind, StM_bind, catch.
  assert (Forall (λ req, asked_header W (rq_Question req)) reqs) as Htags.
  { apply Forall_forall. intros req [k Hk]%list_elem_of_lookup. destruct (Forall2_lookup_r _ _ _ _ _ Hreqs Hk) as (q & Hq & ->).
    apply list_elem_of_lookup_2, list_elem_of_fmap in Hq as (n & -> & Hn). exists n. split; [|done].
    rewrite Forall_forall in Hns. by apply Hns. }
  destruct (roundTrip_settles (postBatch reqs) _ s1 (hp_batch _ _ _ Hhelp reqs Htags))
    as (reply & s2 & -> & [(rs & -> & Hrs)|[(status & body & -> & Hst & Hne)|(r & e & -> & He)]]).
  - intros status body [(rs & [= -> ->] & _)|[(st & b & [= -> ->] & ? & ?)|(r & e & [= -> ->] & _)]]; [done|lia|done].
  - cbn [settled]. rewrite Z.eqb_refl. eexists _, s2. split; [done|]. left.
    destruct (batchResults_answered ns reqs rs Hns Hreqs (Hrs Hnodup)) as (raws & -> & Hall). by exists raws.
  - cbn [settled]. rewrite (proj2 (Z.eqb_neq status 200)) by lia. eexists _, s2. split; [done|]. right. by eexists.
  - cbn [settled]. rewrite Z.eqb_refl, He. destruct e as [code message]. eexists _, s2. split; [done|]. right. by eexists.
Qed.

Lemma blocksByNumber_defined ns : Forall (λ n, 0 ≤ n ≤ wo_head W) ns → Z.of_nat (length ns) ≤ 2 ^ 64 → defined (blocksByNumber server i ns).
Proof using All.
  intros Hns Hlen. assert (defined (mapS (blockOf server i) ns)) as Hone.
  { apply defined_mapS. intros n Hn. rewrite Forall_forall in Hns. by apply blockOf_defined, Hns. }
  unfold blocksByNumber. eapply defined_bind; [apply defined_gets|apply ensures_any|]. intros [] _; [exact Hone|].
  intros s. unfold catch, batchBlocks. unfold mbind at 1, StM_bind at 1.
  destruct (callBatch_outcome ns s Hns Hlen) as (res & s1 & H1 & Hres). rewrite H1.
  destruct Hres as [(raws & -> & Hraws)|(cause & ->)].
  - pose proof (callBatch_true server i W ((λ n, ethGetBlockByNumber (quantity n)) <$> ns) Htrue ltac:(by rewrite length_fmap) _ _ _ H1) as Htr.
    unfold lift. destruct (batchedBlocks_answered ns raws Hns Hraws Htr) as (bs & ->). by eexists _, s1.
  - unfold setNoBatch, modify. cbn beta. apply Hone.
Qed.

(** ** Pages *)

Definition or_big {A} (P : Prop) (r : Res chainError A) : Prop :=
  (∃ a, r = Ok a) ∨ P ∧ ∃ e, r = Err e ∧ tooBig e = true.

Lemma filteredLogs_Ok address topic0 from to ws ls :
  traverse decodeLog ws = Ok ls → Forall (matches address topic0 from to) ls →
  traverse (filteredLog address topic0 from to) ws = Ok ls.
Proof.
  rewrite !traverse_Ok. intros Hls Hm. induction Hls as [|w l ws ls Hw _ IH]; [constructor|].
  apply Forall_cons in Hm as [(Ha & Ht & Hrg) Hm]. constructor; [|by apply IH].
  unfold filteredLog. rewrite Hw. cbn [mbind Res_bind].
  rewrite (bool_decide_eq_true_2 _ Ha), (bool_decide_eq_true_2 _ Ht). cbn [negb].
  by rewrite (proj2 (Z.ltb_ge _ _)), (proj2 (Z.ltb_ge _ _)) by lia.
Qed.

Lemma getLogs_outcome address topic0 from to s : 0 ≤ from ≤ to → to ≤ wo_head W →
  ∃ res s', getLogs server i address topic0 from to s = (res, s') ∧ or_big (from < to) res.
Proof using All.
  intros Hfrom Hto. unfold getLogs. unfold mbind at 1, StM_bind at 1.
  set (q := ethGetLogs (quantity from) (quantity to) (AddressString address) (HashString topic0)).
  destruct (callOne_helpful q s) as (r & s1 & H1 & Hr); [by constructor|].
  pose proof (callOne_true server i W q Htrue s) as Htr. rewrite H1 in Htr |- *. destruct Hr as [[Hn Hr]|Hr].
  - destruct (ra_logs _ _ _ Hr from to address topic0 Hfrom Hto eq_refl) as (ws & ls & Hraw & Hls).
    unfold responseResult in *. rewrite Hn, Hraw in *. cbn [isNull] in *. specialize (Htr _ _ eq_refl).
    pose proof (rt_logs _ _ _ Htr from to address topic0 ws ls Hfrom Hto eq_refl eq_refl Hls) as Hp.
    unfold lift, mbind, StM_bind. cbn [unmarshalLogs].
    rewrite (filteredLogs_Ok address topic0 from to ws ls Hls).
    2:{ apply Forall_forall. intros l Hl. rewrite Hp in Hl. by apply list_elem_of_filter in Hl as [? _]. }
    eexists _, s1. split; [done|]. left. by eexists.
  - destruct Hr as (code & message & fromBlock & toBlock & from' & to' & a & t & He & Hbig & Hf & Ht & Hlt & Hq).
    unfold responseResult. rewrite He. eexists _, s1. split; [done|]. right.
    assert (fromBlock = quantity from ∧ toBlock = quantity to) as [-> ->] by by inversion Hq.
    pose proof (wk_head _ HW). unfold is_u64 in *.
    rewrite parseQuantity_quantity in Hf by (unfold is_u64; lia). rewrite parseQuantity_quantity in Ht by (unfold is_u64; lia).
    injection Hf as <-. injection Ht as <-.
    split; [lia|]. by eexists.
Qed.
End endpoint.
