(* ===== verification/ReaderServes.v ===== *)
(** * A Reader over helpful endpoints keeps its promise

    Every read of it succeeds with the chain's answer, so it is a [ReadsChain]: what
    the epoch package is proved against. *)
From S2P Require Import Prelude Sorts Bytes Text Merkle Twab Chain StateMonad Wire Reader ChainReader WireSpec Honest ReaderSpec ReaderTruth ReaderLive.

(** A call that succeeds, or fails in words [tooBig] knows when [P] allows it. *)
Definition outcome {A} (P : Prop) (m : Wire A) : Prop := ∀ s, ∃ res s', m s = (res, s') ∧ or_big P res.

Lemma outcome_defined {A} (m : Wire A) : outcome False m ↔ defined m.
Proof.
  split.
  - intros Hm s. destruct (Hm s) as (res & s' & -> & [(a & ->)|[[] _]]). by eexists _, _.
  - intros Hm s. destruct (Hm s) as (a & s' & ->). eexists _, _. split; [done|]. left. by eexists.
Qed.

Section cross.
Context (schedule : nat → nat → list nat) (r : chainReader).
Context (Hschedule : ∀ clock n, schedule clock n ≡ₚ seq 0 n) (Hsome : (0 < endpoints r)%nat).

Section one_read.
Context {A : Type} (P : Prop) (read : nat → Wire A) (v : A).
Hypothesis Hout : ∀ i, (i < endpoints r)%nat → outcome P (read i).
Hypothesis Hval : ∀ i, (i < endpoints r)%nat → ensures (read i) (λ a, a = v).

Lemma endpoint_outcome i s : (i < endpoints r)%nat →
  ∃ res s', catch (read i) (λ err, throw (errEndpoint i err)) s = (res, s') ∧
    (res = Ok v ∨ P ∧ ∃ e, res = Err e ∧ tooBig e = true).
Proof using Hout Hval.
  intros Hi. destruct (Hout i Hi s) as (res & s' & Hs & [(a & ->)|[HP (e & -> & He)]]); unfold catch; rewrite Hs.
  - exists (Ok a), s'. split; [done|]. left. f_equal. by eapply (Hval i Hi).
  - eexists _, s'. split; [done|]. right. split; [done|]. by eexists.
Qed.

Lemma answerAt_outcome m i s : (i < endpoints r)%nat →
  ∃ res s', answerAt read m i s = (res, s') ∧ (res = Ok (<[i := v]> m) ∨ P ∧ ∃ e, res = Err e ∧ tooBig e = true).
Proof using Hout Hval.
  intros Hi. unfold answerAt, mbind, StM_bind. destruct (endpoint_outcome i s Hi) as (res & s1 & -> & [->|[HP (e & -> & He)]]).
  - eexists _, s1. split; [done|]. by left.
  - eexists _, s1. split; [done|]. right. split; [done|]. by eexists.
Qed.

Lemma endpoints_outcome order : ∀ m s, (∀ i, i ∈ order → (i < endpoints r)%nat) →
  ∃ res s', foldS (answerAt read) order m s = (res, s') ∧
    ((∃ m', res = Ok m' ∧ (∀ i, i ∈ order ∨ m !! i = Some v → m' !! i = Some v)) ∨
     P ∧ ∃ e, res = Err e ∧ tooBig e = true).
Proof using Hout Hval.
  induction order as [|i order IH]; intros m s Horder; cbn [foldS].
  - eexists _, s. split; [done|]. left. exists m. split; [done|]. intros i [Hi|?]; [by apply elem_of_nil in Hi|done].
  - destruct (answerAt_outcome m i s) as (res & s1 & Hs & Hres); [apply Horder; by constructor|].
    unfold mbind, StM_bind. rewrite Hs. destruct Hres as [->|[HP (e & -> & He)]].
    + destruct (IH (<[i:=v]> m) s1) as (res & s2 & Hs2 & Hres); [intros j Hj; apply Horder; by constructor|].
      exists res, s2. split; [exact Hs2|]. destruct Hres as [(m' & -> & Hm')|?]; [left|by right].
      exists m'. split; [done|]. intros j Hj. apply Hm'. destruct (decide (i = j)) as [->|Hne]; [right; apply lookup_insert_eq|].
      destruct Hj as [Hj|Hj]; [apply elem_of_cons in Hj as [->|?]; [done|by left]|right; by rewrite lookup_insert_ne].
    + eexists _, s1. split; [done|]. right. split; [done|]. by eexists.
Qed.

Lemma agreeFrom_same (canonical : A → list byte) i n : agreeFrom canonical (canonical v) i (replicate n v) = Ok ().
Proof. revert i. induction n as [|n IH]; intros i; cbn [replicate agreeFrom]; [done|]. by rewrite decide_True by done. Qed.

Lemma crossCheck_outcome canonical : outcome P (crossCheck schedule r read canonical).
Proof using Hout Hval Hschedule Hsome.
  intros s. unfold crossCheck. destruct (Nat.eqb_spec (endpoints r) 1) as [H1|_].
  { destruct (endpoint_outcome 0 s) as (res & s' & -> & Hres); [lia|]. exists res, s'. split; [done|].
    destruct Hres as [->|?]; [left; by eexists|by right]. }
  unfold eachEndpoint, finishing, gets, mbind, StM_bind.
  destruct (endpoints_outcome (schedule (nt_clock s) (endpoints r)) ∅ s) as (res & s' & Hs & Hres).
  { intros i Hi. rewrite Hschedule in Hi. apply elem_of_seq in Hi. lia. }
  rewrite Hs. destruct Hres as [(m & -> & Hm)|[HP (e & -> & He)]].
  - unfold lift. assert (traverse (λ i, match m !! i with Some a => Ok a | None => Fault GoPanic end) (seq 0 (endpoints r)) =
      Ok (E:=chainError) (replicate (endpoints r) v)) as ->.
    { apply traverse_Ok. apply Forall2_same_length_lookup_2; [by rewrite length_seq, length_replicate|].
      intros k i a Hk Ha. apply lookup_replicate in Ha as [-> _]. apply list_elem_of_lookup_2 in Hk.
      rewrite (Hm i); [done|]. left. by rewrite Hschedule. }
    destruct (endpoints r) as [|n]; [lia|]. cbn [replicate]. rewrite agreeFrom_same.
    eexists _, s'. split; [done|]. left. by eexists.
  - eexists _, s'. split; [done|]. right. split; [done|]. by eexists.
Qed.
End one_read.

Lemma crossCheck_defined {A} (read : nat → Wire A) v canonical :
  (∀ i, (i < endpoints r)%nat → defined (read i) ∧ ensures (read i) (λ a, a = v)) →
  defined (crossCheck schedule r read canonical).
Proof using Hschedule Hsome.
  intros H. apply outcome_defined, (crossCheck_outcome False read v).
  - intros i Hi. by apply outcome_defined, H.
  - intros i Hi. by apply H.
Qed.

(** Endpoints that all answer, each with its own. *)
Lemma answers_defined {A} (fn : nat → Wire A) order : ∀ m s, (∀ i, i ∈ order → defined (fn i)) →
  ∃ m' s', foldS (answerAt fn) order m s = (Ok m', s') ∧ ∀ i, i ∈ order ∨ is_Some (m !! i) → is_Some (m' !! i).
Proof using Type.
  induction order as [|i order IH]; intros m s Hfn; cbn [foldS].
  - exists m, s. split; [done|]. intros i [Hi|?]; [by apply elem_of_nil in Hi|done].
  - destruct (Hfn i ltac:(by constructor) s) as (a & s1 & Hs). destruct (IH (<[i:=a]> m) s1) as (m' & s2 & Hs2 & Hm').
    { intros j Hj. apply Hfn. by constructor. }
    exists m', s2. split.
    { unfold mbind, StM_bind, answerAt at 1, catch. unfold mbind, StM_bind. rewrite Hs. exact Hs2. }
    intros j Hj. apply Hm'. destruct (decide (i = j)) as [->|Hne]; [right; rewrite lookup_insert_eq; by eexists|].
    destruct Hj as [Hj|Hj]; [apply elem_of_cons in Hj as [->|?]; [done|by left]|right; by rewrite lookup_insert_ne].
Qed.

Lemma eachEndpoint_defined {A} (fn : nat → Wire A) :
  (∀ i, (i < endpoints r)%nat → defined (fn i)) → defined (eachEndpoint schedule r fn).
Proof using Hschedule.
  intros Hfn s. unfold eachEndpoint, finishing, gets. unfold mbind, StM_bind.
  destruct (answers_defined fn (schedule (nt_clock s) (endpoints r)) ∅ s) as (m & s' & -> & Hm).
  { intros i Hi. apply Hfn. rewrite Hschedule in Hi. apply elem_of_seq in Hi. by destruct Hi. }
  unfold lift. assert (∀ l, (∀ i, i ∈ l → is_Some (m !! i)) → ∃ k,
    traverse (λ i, match m !! i with Some a => Ok a | None => Fault GoPanic end) l = Ok (E:=chainError) k) as Hall.
  { intros l Hl. exists (omap (λ i, m !! i) l). apply traverse_Ok. induction l as [|i l IH]; [constructor|].
    destruct (Hl i ltac:(by constructor)) as [a Ha]. cbn [omap list_omap]. rewrite Ha. constructor; [by rewrite Ha|].
    apply IH. intros j Hj. apply Hl. by constructor. }
  destruct (Hall (seq 0 (endpoints r))) as [k ->]; [|by eexists _, _].
  intros i Hi. apply Hm. left. by rewrite Hschedule.
Qed.
End cross.

(** ** A Reader whose endpoints all serve one chain *)

Section serves.
Context (W : World) (HW : world_ok W).
Context (server : nat → nat → rpcPost → httpReply) (schedule : nat → nat → list nat) (r : chainReader).
Context (Hschedule : ∀ clock n, schedule clock n ≡ₚ seq 0 n) (Hsome : (0 < endpoints r)%nat).
Context (Hall : ∀ i, (i < endpoints r)%nat → truthful W server i ∧ helpful W server i).

Lemma BlockByNumber_defined n : 0 ≤ n ≤ wo_head W → defined (BlockByNumber server schedule r n).
Proof using All.
  intros Hn. apply (crossCheck_defined _ _ Hschedule Hsome _ (wo_block W n)). intros i Hi. destruct (Hall i Hi) as [Ht Hh].
  split; [by apply (blockByTag_defined W server i Hh)|by apply (blockByTag_true W server i Ht)].
Qed.

Lemma ChainID_defined : defined (ChainID server schedule r).
Proof using All.
  apply (crossCheck_defined _ _ Hschedule Hsome _ (wo_chainID W)). intros i Hi. destruct (Hall i Hi) as [Ht Hh].
  split; [by apply (chainIdOf_defined W server i)|by apply (chainIdOf_true W server i)].
Qed.

Lemma headers_defined ns : Forall (λ n, 0 ≤ n ≤ wo_head W) ns → (length ns ≤ HeaderBatch)%nat →
  defined (crossCheck schedule r (λ i, blocksByNumber server i ns) canonicalBlocks).
Proof using All.
  intros Hns Hlen. unfold HeaderBatch in Hlen. apply (crossCheck_defined _ _ Hschedule Hsome _ (wo_block W <$> ns)).
  intros i Hi. destruct (Hall i Hi) as [Ht Hh].
  split; [apply (blocksByNumber_defined W HW server i Hh Ht); [done|lia]|apply (blocksByNumber_true W HW server i Ht); [done|lia]].
Qed.

Lemma callAt_defined to data at_ : 0 ≤ at_ ≤ wo_head W → defined (callAt server schedule r to data at_).
Proof using All.
  intros Hat. apply (crossCheck_defined _ _ Hschedule Hsome _ (wo_call W to data at_)). intros i Hi. destruct (Hall i Hi) as [Ht Hh].
  split; [by apply (ethCallAt_defined W server i Hh)|by apply (ethCallAt_true W server i Ht)].
Qed.

(** A page of one block is never refused, so halving ends: the fuel covers the
    blocks left and the halvings left. *)
Lemma logsFrom_defined address topic0 to fuel : to ≤ wo_head W → ∀ start span out,
  0 ≤ start ≤ to → 1 ≤ span → to - start + Z.log2 span < Z.of_nat fuel →
  defined (logsFrom server schedule r fuel address topic0 start to span out).
Proof using All.
  intros Hto. induction fuel as [|fuel IH]; intros start span out Hstart Hspan Hfuel.
  { pose proof (Z.log2_nonneg span). lia. }
  cbn [logsFrom]. intros s. cbn zeta. set (end_ := if span <=? to - start then start + span - 1 else to).
  assert (start ≤ end_ ≤ to ∧ (start < end_ → 1 < span)) as [Hend Hwide].
  { unfold end_. destruct (Z.leb_spec span (to - start)); lia. }
  destruct (crossCheck_outcome _ _ Hschedule Hsome (start < end_) (λ i, getLogs server i address topic0 start end_)
    (logs_of W address topic0 start end_)) with (canonical := canonicalLogs) (s := s) as (res & s1 & -> & Hres).
  - intros i Hi s0. destruct (Hall i Hi) as [Ht Hh]. apply (getLogs_outcome W HW server i Hh Ht); lia.
  - intros i Hi. destruct (Hall i Hi) as [Ht Hh]. apply (getLogs_true W HW server i Ht); lia.
  - destruct Hres as [(page & ->)|[Hlt (e & -> & He)]].
    + destruct (Z.eqb_spec end_ to); [by eexists _, s1|]. apply IH; lia.
    + rewrite (proj2 (Z.ltb_lt 1 span)), He by (apply Hwide, Hlt). cbn [andb]. apply IH; [done|..].
      * apply Z.div_le_lower_bound; [lia|]. specialize (Hwide Hlt). lia.
      * specialize (Hwide Hlt). pose proof (Z.log2_shiftr span 1 ltac:(lia)) as Hl.
        rewrite Z.shiftr_div_pow2 in Hl by lia. change (2 ^ 1) with 2 in Hl.
        pose proof (Z.log2_pos span Hwide). lia.
Qed.

Lemma logs_defined address topic0 from to span :
  0 ≤ from ≤ to → to ≤ wo_head W → 1 ≤ span < 2 ^ 64 → defined (logs server schedule r address topic0 from to span).
Proof using All.
  intros Hfrom Hto Hspan. unfold logs. rewrite (proj2 (Z.ltb_ge _ _)) by lia. apply logsFrom_defined; [done|lia|lia|].
  assert (Z.log2 span < 64) by (apply Z.log2_lt_pow2; lia). lia.
Qed.

Lemma Timestamps_defined blocks : Forall (λ n, 0 ≤ n ≤ wo_head W) blocks → defined (Timestamps server schedule r blocks).
Proof using All.
  intros Hblocks. unfold Timestamps. set (wanted := Compact _). set (batches := batchesOf _ _ _).
  assert (Forall (λ ns, Forall (λ n, 0 ≤ n ≤ wo_head W) ns) batches) as Hbatches.
  { apply Forall_forall. intros ns Hns. apply Forall_forall. intros n Hn. rewrite Forall_forall in Hblocks. apply Hblocks.
    apply elem_of_sort_by with Z.compare, Compact_elem. fold wanted.
    rewrite <-(batchesOf_concat (length wanted) HeaderBatch wanted) by (unfold HeaderBatch; lia). fold batches.
    apply list_elem_of_In, in_concat. exists ns. by split; apply list_elem_of_In. }
  unfold inParallel. destruct (length batches =? 0)%nat; [apply defined_ret|].
  eapply (defined_bind _ _ (λ order, order ≡ₚ seq 0 (length batches)));
    [apply defined_gets|intros s order s' [= <- _]; apply Hschedule|].
  intros order Horder. apply defined_foldS. intros m i Hi. rewrite Horder in Hi. apply elem_of_seq in Hi.
  destruct (lookup_lt_is_Some_2 batches i) as [ns Hns]; [lia|].
  unfold stampBatch. assert (index batches i = Ok (E:=chainError) ns) as -> by by apply index_Ok.
  eapply (defined_bind _ _ (λ x, x = ns)); [apply defined_lift|by apply ensures_lift; intros ? [= <-]|]. intros ? ->.
  eapply defined_bind; [apply headers_defined|apply ensures_any|intros; apply defined_ret].
  - by eapply (Forall_lookup_1 _ batches).
  - eapply batchesOf_small. exact (list_elem_of_lookup_2 _ _ _ Hns).
Qed.

(** A stream whose logs all decode is read. *)
Lemma readEvents_defined {A} (decode : eventLog → Res chainError A) siteOf put address topic0 from to span :
  event_laws decode siteOf put → Forall (λ l, ∃ x, decode l = Ok x) (stream W address topic0) →
  0 ≤ from ≤ to → to ≤ wo_head W → 1 ≤ span < 2 ^ 64 →
  defined (readEvents server schedule r decode siteOf put address topic0 from to span).
Proof using All.
  intros [Hsite _] Hdec Hfrom Hto Hspan. unfold readEvents. destruct (Hall 0%nat Hsome) as [Ht0 _].
  eapply defined_bind; [by apply logs_defined|apply (logs_true W HW server schedule r 0 Hsome Ht0); [lia|done|lia]|].
  intros ls [_ ->]. assert (∃ xs, traverse decode (logs_of W address topic0 from to) = Ok xs) as [xs Hxs].
  { assert (Forall (λ l, ∃ x, decode l = Ok x) (logs_of W address topic0 from to)) as Hd.
    { rewrite Forall_forall in Hdec |- *. intros l [(Ha & Ht & _) Hl]%list_elem_of_filter. apply Hdec. by apply list_elem_of_filter. }
    induction Hd as [|l ls [x Hx] _ [xs IH]]; [by eexists|]. rewrite traverse_cons, Hx, IH. by eexists. }
  rewrite Hxs. eapply (defined_bind _ _ (λ x, x = xs)); [apply defined_lift|by apply ensures_lift; intros ? [= <-]|]. intros ? ->.
  unfold stampAll. eapply defined_bind; [apply Timestamps_defined|apply ensures_any|intros; apply defined_ret].
  apply Forall_fmap, Forall_forall. intros x Hx. apply traverse_Ok in Hxs. apply list_elem_of_lookup in Hx as [k Hk].
  destruct (Forall2_lookup_r _ _ _ _ _ Hxs Hk) as (l & Hl & Hd). cbn. rewrite (Hsite l x Hd).
  apply list_elem_of_lookup_2, list_elem_of_filter in Hl as [(_ & _ & ?) _]. unfold site. cbn. lia.
Qed.

Lemma endSearch_defined tip t fuel : tip ≤ wo_head W → ∀ lo hi probed,
  0 ≤ lo ≤ hi → hi ≤ tip → hi - lo ≤ 2 ^ Z.of_nat fuel →
  defined (endSearch server schedule r fuel t lo hi probed).
Proof using All.
  intros Htip. induction fuel as [|fuel IH]; intros lo hi probed Hlo Hhi Hgap; cbn [endSearch];
    destruct (Z.ltb_spec 1 (hi - lo)) as [Hgt|]; try apply defined_ret; [cbn in Hgap; lia|].
  set (mid := lo + (hi - lo) / 2). rewrite Nat2Z.inj_succ, Z.pow_succ_r in Hgap by lia.
  pose proof (Z.div_mod (hi - lo) 2 ltac:(lia)). pose proof (Z.mod_pos_bound (hi - lo) 2 ltac:(lia)).
  assert (1 ≤ (hi - lo) / 2) by (apply Z.div_le_lower_bound; lia).
  eapply defined_bind; [apply BlockByNumber_defined; unfold mid; lia|apply ensures_any|].
  intros b _. cbn zeta. destruct (b_Timestamp b <? t); apply IH; unfold mid; lia.
Qed.
End serves.

(** ** The Reader as the epoch package is given it

    [readerOf] over endpoints that are helpful and truthful answers what the chain says,
    whatever was asked of it before. *)


Section promise.
Context (keccak256 : list byte → Hash) (W : World) (HW : world_ok W).
Context (server : nat → nat → rpcPost → httpReply) (schedule : nat → nat → list nat) (r : chainReader).

(** What the contracts emit and return, the Verifier's decoders read. *)
Record contracts_ok (tip : Z) : Prop := ContractsOk {
  ct_transfers : Forall (λ l, ∃ x, decodeTransfer keccak256 l = Ok x) (stream W (cr_token r) (topicTransfer keccak256));
  ct_exclusions : Forall (λ l, ∃ x, decodeExcludedAppended keccak256 l = Ok x)
    (stream W (cr_distributor r) (topicExcludedAppended keccak256));
  ct_roots : Forall (λ l, ∃ x, decodeRootPosted keccak256 l = Ok x) (stream W (cr_distributor r) (topicRootPosted keccak256));
  ct_ledger : ∀ id, is_u64 id → ∃ l,
    decodeLedger (wo_call W (cr_distributor r) (encodeLedgerCall keccak256 KindEpoch id) tip) = Ok l;
  ct_launched : ∃ curve,
    decodeLaunchedToken (wo_call W (cr_factory r) (encodeGetLaunchedToken keccak256 (cr_token r)) tip) = Ok curve;
  ct_factory : cr_factory r ≠ zeroAddress;
}.

Context (Hschedule : ∀ clock n, schedule clock n ≡ₚ seq 0 n).

(** ** Whatever answers is true *)

Section one.
Context (i : nat) (Hi : (i < endpoints r)%nat) (Htrue : truthful W server i).

Lemma stamped_site m s t : m !! site_BlockNumber s = Some t → t = b_Timestamp (wo_block W (site_BlockNumber s)) →
  stampSite m s = timed W s.
Proof. intros Hm ->. unfold stampSite, timed. by rewrite Hm. Qed.

Lemma Transfers_true from to tip : 0 ≤ from → to ≤ wo_head W →
  ensures (Transfers keccak256 server schedule r from to)
    (λ xs, xs = filter (λ t, in_blocks from to (ct_Site t)) (cv_transfers (view keccak256 W r tip))).
Proof using All.
  intros Hfrom Hto. eapply ensures_mono; [eapply (readEvents_true W HW server schedule r Hschedule i Hi Htrue _ ct_Site
    stampTransfer (timed_transfer W)); try done|by intros xs [_ ->]].
  - apply transfer_laws.
  - intros m x t Hm Ht. unfold stampTransfer, timed_transfer. by rewrite (stamped_site _ _ t).
  - intros l x Hx. cbn. by rewrite (ev_site _ _ _ (transfer_laws keccak256) l x Hx).
Qed.

Lemma Exclusions_true from to tip : 0 ≤ from → to ≤ wo_head W →
  ensures (Exclusions keccak256 server schedule r from to)
    (λ xs, xs = filter (λ x, in_blocks from to (ce_Site x)) (cv_exclusions (view keccak256 W r tip))).
Proof using All.
  intros Hfrom Hto. eapply ensures_mono; [eapply (readEvents_true W HW server schedule r Hschedule i Hi Htrue _ ce_Site
    stampExclusion (timed_exclusion W)); try done|by intros xs [_ ->]].
  - apply exclusion_laws.
  - intros m x t Hm Ht. unfold stampExclusion, timed_exclusion. by rewrite (stamped_site _ _ t).
  - intros l x Hx. cbn. by rewrite (ev_site _ _ _ (exclusion_laws keccak256) l x Hx).
Qed.

Lemma Roots_true from to tip : 0 ≤ from → to ≤ wo_head W →
  ensures (Roots keccak256 server schedule r from to)
    (λ xs, xs = filter (λ p, in_blocks from to (rp_Site p)) (cv_roots (view keccak256 W r tip))).
Proof using All.
  intros Hfrom Hto. eapply ensures_mono; [eapply (readEvents_true W HW server schedule r Hschedule i Hi Htrue _ rp_Site
    stampRoot (timed_root W)); try done|by intros xs [_ ->]].
  - apply root_laws.
  - intros m x t Hm Ht. unfold stampRoot, timed_root. by rewrite (stamped_site _ _ t).
  - intros l x Hx. cbn. by rewrite (ev_site _ _ _ (root_laws keccak256) l x Hx).
Qed.

Lemma ReadLedger_true kind id at_ : 0 ≤ at_ ≤ wo_head W →
  ensures (ReadLedger keccak256 server schedule r kind id at_)
    (λ l, decodeLedger (wo_call W (cr_distributor r) (encodeLedgerCall keccak256 kind id) at_) = Ok l).
Proof using Hi Htrue.
  intros Hat. unfold ReadLedger. eapply ensures_bind; [by apply (callAt_true W server schedule r i Hi Htrue)|].
  intros data ->. by apply ensures_lift.
Qed.

Lemma LaunchCurve_true at_ : 0 ≤ at_ ≤ wo_head W →
  ensures (LaunchCurve keccak256 server schedule r at_)
    (λ curve, decodeLaunchedToken (wo_call W (cr_factory r) (encodeGetLaunchedToken keccak256 (cr_token r)) at_) = Ok curve).
Proof using Hi Htrue.
  intros Hat. unfold LaunchCurve. destruct (decide _); [apply ensures_throw|].
  eapply ensures_bind; [by apply (callAt_true W server schedule r i Hi Htrue)|]. intros data ->. by apply ensures_lift.
Qed.
End one.

(** ** Helpful endpoints *)

Section all.
Context (Hsome : (0 < endpoints r)%nat).
Context (Hall : ∀ i, (i < endpoints r)%nat → truthful W server i ∧ helpful W server i).
Context (tip : Tip) (Htip : 0 ≤ b_Number (tip_Block tip) ≤ wo_head W)
  (Hblock : tip_Block tip = wo_block W (b_Number (tip_Block tip))).
Context (Hcontracts : contracts_ok (b_Number (tip_Block tip))).

Lemma EndBlock_defined id : w_End (WindowOf id) ≤ b_Timestamp (tip_Block tip) →
  b_Timestamp (wo_block W 0) < w_End (WindowOf id) → defined (EndBlock server schedule r id tip).
Proof using All.
  intros Hend Hgen. destruct (Hall 0%nat Hsome) as [Ht _].
  unfold EndBlock. cbn zeta. rewrite (proj2 (Z.ltb_ge _ _)) by lia.
  eapply defined_bind; [apply (BlockByNumber_defined W HW server schedule r); try done; lia|
    apply (BlockByNumber_true W HW server schedule r 0 Hsome Ht); lia|].
  intros g ->. rewrite (proj2 (Z.leb_gt _ _)) by lia.
  apply (endSearch_defined W HW server schedule r Hschedule Hsome Hall (b_Number (tip_Block tip))); [lia..|].
  pose proof (wk_head _ HW). unfold is_u64 in *. change (2 ^ Z.of_nat 64) with (2 ^ 64). lia.
Qed.

Lemma readerOf_reads : ReadsChain (readerOf keccak256 server schedule r) (view keccak256 W r (b_Number (tip_Block tip))) tip.
Proof using All.
  destruct (Hall 0%nat Hsome) as [Ht _]. pose proof Hcontracts as [Hct Hce Hcr Hcl Hcc Hcf].
  split; intros; cbn [readerOf rd_BlockByNumber rd_Transfers rd_Exclusions rd_Roots rd_Ledger rd_LaunchCurve rd_EndBlock].
  - apply defined_always; [apply (BlockByNumber_defined W HW server schedule r); try done; lia|
      apply (BlockByNumber_true W HW server schedule r 0 Hsome Ht); lia].
  - apply defined_always; [|apply (Transfers_true 0 Hsome Ht); lia].
    apply (readEvents_defined W HW server schedule r Hschedule Hsome Hall); try done; [apply transfer_laws|lia].
  - apply defined_always; [|apply (Exclusions_true 0 Hsome Ht); lia].
    apply (readEvents_defined W HW server schedule r Hschedule Hsome Hall); try done; [apply exclusion_laws|lia].
  - apply defined_always; [|apply (Roots_true 0 Hsome Ht); lia].
    apply (readEvents_defined W HW server schedule r Hschedule Hsome Hall); try done; [apply root_laws|lia].
  - destruct (Hcl id H) as [l Hl]. apply defined_always.
    + unfold ReadLedger. eapply defined_bind; [by apply (callAt_defined W HW server schedule r)|
        by apply (callAt_true W server schedule r 0 Hsome Ht)|]. intros data ->. rewrite Hl. apply defined_lift.
    + eapply ensures_mono; [by apply (ReadLedger_true 0 Hsome Ht)|]. intros a Ha. cbn [view cv_ledger]. by rewrite Ha.
  - destruct Hcc as [curve Hcurve]. apply defined_always.
    + unfold LaunchCurve. rewrite decide_False by done. eapply defined_bind; [by apply (callAt_defined W HW server schedule r)|
        by apply (callAt_true W server schedule r 0 Hsome Ht)|]. intros data ->. rewrite Hcurve. apply defined_lift.
    + eapply ensures_mono; [by apply (LaunchCurve_true 0 Hsome Ht)|]. intros a Ha. cbn [view cv_curve]. by rewrite Ha.
  - destruct (EndBlock_defined id H H0 w) as (b & w' & Hb). exists b, w'. split; [done|].
    by eapply (EndBlock_true keccak256 W HW server schedule r 0 Hsome Ht).
Qed.
End all.
End promise.
