(* ===== verification/Node.v ===== *)
(** * A node that serves a chain

    A concrete server over any [World], with the wire encoders that are the
    decoders' inverses: it tells the truth, and with limits it is still helpful. *)
From S2P Require Import Prelude Sorts Bytes Text Merkle Twab Chain ChainTheorems StateMonad Wire Reader ChainReader WireSpec Honest ReaderSpec ReaderTruth ReaderLive.

(** ** Encoders *)

Lemma parseHexBytes_hexBytes b : parseHexBytes (hexBytes b) = Ok b.
Proof.
  unfold parseHexBytes, hexBytes. cbn [digitsOf mbind Res_bind]. pose proof (DecodeString_EncodeToString b) as Hd.
  pose proof (DecodeString_length _ _ Hd) as Hlen. rewrite Hlen, Nat.mul_comm, Nat.Div0.mod_mul. cbn [Nat.eqb].
  by rewrite Hd.
Qed.

Lemma ParseHash_HashString h : ParseHash (HashString h) = Ok h.
Proof.
  unfold ParseHash, HashString. rewrite parseHexBytes_hexBytes. cbn [mbind Res_bind].
  rewrite length_vec_to_list. cbn. by rewrite copy_array_of_list.
Qed.

Lemma ParseAddress_AddressString a : ParseAddress (AddressString a) = Ok a.
Proof.
  unfold ParseAddress, AddressString. rewrite parseHexBytes_hexBytes. cbn [mbind Res_bind].
  rewrite length_vec_to_list. cbn. by rewrite copy_array_of_list.
Qed.

Definition encodeBlock (b : Block) : wireBlock :=
  mkWireBlock (quantity (b_Number b)) (HashString (b_Hash b)) (HashString (b_ParentHash b)) (quantity (b_Timestamp b)).

Definition encodeLog (l : eventLog) : wireLog :=
  mkWireLog (AddressString (el_Address l)) (HashString <$> el_Topics l) (hexBytes (el_Data l))
    (quantity (el_BlockNumber l)) (HashString (el_BlockHash l)) (quantity (el_LogIndex l)) false.

Lemma decodeBlock_encode b : block_typed b → decodeBlock (encodeBlock b) = Ok b.
Proof.
  intros [Hn Ht]. unfold decodeBlock, encodeBlock. cbn [wb_Number wb_Hash wb_ParentHash wb_Timestamp].
  rewrite (parseQuantity_quantity _ Hn). cbn [mbind Res_bind]. rewrite !ParseHash_HashString. cbn [mbind Res_bind].
  rewrite parseQuantity_quantity by (unfold is_u64; lia). cbn [mbind Res_bind].
  rewrite (proj2 (Z.ltb_ge MaxInt64 _)) by (unfold MaxInt64; lia). by destruct b.
Qed.

Lemma decodeLog_encode l : log_typed l → decodeLog (encodeLog l) = Ok l.
Proof.
  intros [Hn Hi]. unfold decodeLog, encodeLog. cbn [wl_Removed wl_BlockNumber wl_LogIndex wl_BlockHash wl_Address wl_Data wl_Topics].
  rewrite !parseQuantity_quantity by done. cbn [mbind Res_bind]. rewrite ParseHash_HashString. cbn [mbind Res_bind].
  rewrite ParseAddress_AddressString. cbn [mbind Res_bind]. rewrite parseHexBytes_hexBytes. cbn [mbind Res_bind].
  assert (traverse ParseHash (HashString <$> el_Topics l) = Ok (el_Topics l)) as ->.
  { apply traverse_Ok. induction (el_Topics l); constructor; [apply ParseHash_HashString|done]. }
  by destruct l.
Qed.

Lemma decodeLogs_encode ls : Forall log_typed ls → traverse decodeLog (encodeLog <$> ls) = Ok ls.
Proof. intros Hls. apply traverse_Ok. induction Hls; constructor; [by apply decodeLog_encode|done]. Qed.

(** ** The node *)

Section node.
Context (W : World) (HW : world_ok W).

Definition node_result (q : question) : option rawResult :=
  match q with
  | ethChainId => Some (rawString (quantity (wo_chainID W)))
  | ethGetBlockByNumber tag =>
      match parseQuantity tag with
      | Ok n => Some (if n <=? wo_head W then rawBlock (encodeBlock (wo_block W n)) else rawNull)
      | _ => Some (rawBlock (encodeBlock (wo_block W (wo_head W))))
      end
  | ethGetLogs from to address topic0 =>
      match parseQuantity from, parseQuantity to, ParseAddress address, ParseHash topic0 with
      | Ok from, Ok to, Ok address, Ok topic0 => Some (rawLogs (encodeLog <$> logs_of W address topic0 from to))
      | _, _, _, _ => None
      end
  | ethCall to data at_ =>
      match ParseAddress to, parseHexBytes data, parseQuantity at_ with
      | Ok to, Ok data, Ok at_ => Some (rawString (hexBytes (wo_call W to data at_)))
      | _, _, _ => None
      end
  end.

(** With a limit, a page of more blocks is refused. *)
Definition node_refuses (limit : Z) (q : question) : bool :=
  match q with
  | ethGetLogs from to _ _ =>
      match parseQuantity from, parseQuantity to with
      | Ok from, Ok to => (from <? to) && (limit <? to - from + 1)
      | _, _ => false
      end
  | _ => false
  end.

Definition node_reply (limit : Z) (req : rpcRequest) : rpcResponse :=
  if node_refuses limit (rq_Question req)
  then mkResponse (rq_ID req) rawNull (Some (-32602, "Query returned more than 10000 results"%string))
  else
    match node_result (rq_Question req) with
    | Some raw => mkResponse (rq_ID req) raw None
    | None => mkResponse (rq_ID req) rawOther None
    end.

(** A node that batches or not, and rate-limits one post in three or none. *)
Definition node (limit : Z) (batches limits : bool) (clock : nat) (post : rpcPost) : httpReply :=
  if limits && (clock mod 3 =? 0)%nat then httpResponse 429 bodyOther
  else
    match post with
    | postOne req => httpResponse 200 (bodySingle (node_reply limit req))
    | postBatch reqs =>
        if batches then httpResponse 200 (bodyArray (node_reply limit <$> reqs)) else httpResponse 400 bodyOther
    end.

Lemma head_u64 n : 0 ≤ n ≤ wo_head W → is_u64 n.
Proof using HW. pose proof (wk_head _ HW). unfold is_u64 in *. lia. Qed.

Lemma node_block n : 0 ≤ n ≤ wo_head W →
  node_result (ethGetBlockByNumber (quantity n)) = Some (rawBlock (encodeBlock (wo_block W n))).
Proof using HW.
  intros Hn. unfold node_result. rewrite parseQuantity_quantity by by apply head_u64.
  by rewrite (proj2 (Z.leb_le _ _)) by lia.
Qed.

(** Whatever tag it is asked for, the header is of the chain. *)
Lemma node_held tag w b : node_result (ethGetBlockByNumber tag) = Some (rawBlock w) → decodeBlock w = Ok b →
  ∃ n, 0 ≤ n ≤ wo_head W ∧ b = wo_block W n.
Proof using HW.
  pose proof (wk_head _ HW) as Hhead. assert (∀ n, 0 ≤ n ≤ wo_head W → w = encodeBlock (wo_block W n) → decodeBlock w = Ok b →
    ∃ n, 0 ≤ n ≤ wo_head W ∧ b = wo_block W n) as Hb.
  { intros n Hn -> Hd. rewrite decodeBlock_encode in Hd by apply (wk_blocks _ HW n Hn). injection Hd as <-. eauto. }
  cbn [node_result]. unfold is_u64 in Hhead. destruct (parseQuantity tag) as [n| |] eqn:Hq.
  - destruct (Z.leb_spec n (wo_head W)) as [Hle|]; [|done]. intros [= <-]. apply (Hb n); [|done].
    apply parseQuantity_u64 in Hq. unfold is_u64 in Hq. lia.
  - intros [= <-]. apply (Hb (wo_head W)); [lia|done].
  - intros [= <-]. apply (Hb (wo_head W)); [lia|done].
Qed.

Lemma node_logs from to address topic0 : 0 ≤ from ≤ to → to ≤ wo_head W →
  node_result (ethGetLogs (quantity from) (quantity to) (AddressString address) (HashString topic0)) =
  Some (rawLogs (encodeLog <$> logs_of W address topic0 from to)).
Proof using HW.
  intros Hfrom Hto. unfold node_result. rewrite !parseQuantity_quantity by (apply head_u64; lia).
  by rewrite ParseAddress_AddressString, ParseHash_HashString.
Qed.

Lemma node_call to data at_ : 0 ≤ at_ ≤ wo_head W →
  node_result (ethCall (AddressString to) (hexBytes data) (quantity at_)) = Some (rawString (hexBytes (wo_call W to data at_))).
Proof using HW.
  intros Hat. unfold node_result. rewrite parseQuantity_quantity by by apply head_u64.
  by rewrite ParseAddress_AddressString, parseHexBytes_hexBytes.
Qed.

Lemma logs_typed address topic0 from to : Forall log_typed (logs_of W address topic0 from to).
Proof using HW. apply Forall_filter_keep, (wk_typed _ HW). Qed.

Lemma node_result_true q raw : node_result q = Some raw → raw_true W q raw.
Proof using HW.
  intros Hq. split.
  - intros s n -> ->. injection Hq as <-. rewrite parseQuantity_quantity by apply (wk_chainID _ HW). by intros [= <-].
  - intros n w b Hn -> ->. rewrite node_block in Hq by done. injection Hq as <-.
    rewrite decodeBlock_encode by apply (wk_blocks _ HW n Hn). by intros [= <-].
  - intros tag w b -> ->. by apply (node_held tag w).
  - intros from to address topic0 ws ls Hf Ht -> ->. rewrite node_logs in Hq by done. injection Hq as <-.
    rewrite decodeLogs_encode by apply logs_typed. by intros [= <-].
  - intros to data at_ s out Hat -> ->. rewrite node_call in Hq by done. injection Hq as <-.
    rewrite parseHexBytes_hexBytes. by intros [= <-].
Qed.

Lemma node_reply_true limit req : reply_true W (rq_Question req) (node_reply limit req).
Proof using HW.
  unfold reply_true, node_reply. destruct (node_refuses _ _); [done|].
  destruct (node_result (rq_Question req)) as [raw|] eqn:E; intros _; [by apply node_result_true|by split].
Qed.

Lemma node_reply_id limit req : rr_ID (node_reply limit req) = rq_ID req.
Proof. unfold node_reply. destruct (node_refuses _ _); [done|]. by destruct (node_result _). Qed.

Lemma NoDup_fmap_same {A B} (f : A → B) l x y : NoDup (f <$> l) → x ∈ l → y ∈ l → f x = f y → x = y.
Proof.
  intros Hnd [i Hi]%list_elem_of_lookup [j Hj]%list_elem_of_lookup Hf.
  assert (i = j) as <-; [|by rewrite Hi in Hj; injection Hj].
  apply (NoDup_lookup (f <$> l) _ _ (f x)); [done|by rewrite list_lookup_fmap, Hi|by rewrite list_lookup_fmap, Hj, Hf].
Qed.

(** The reply that carries a request's id is the reply to it. *)
Lemma node_replies limit reqs req r : NoDup (rq_ID <$> reqs) → req ∈ reqs → r ∈ node_reply limit <$> reqs →
  rr_ID r = rq_ID req → r = node_reply limit req.
Proof.
  intros Hnd Hreq (req' & -> & Hreq')%list_elem_of_fmap Hid. rewrite node_reply_id in Hid.
  by rewrite (NoDup_fmap_same rq_ID reqs req' req).
Qed.

Lemma node_truthful server i limit batches limits :
  server i = node limit batches limits → truthful W server i.
Proof using HW.
  intros Hs clock post body. rewrite Hs. unfold node. destruct (limits && _); [done|]. destruct post as [req|reqs].
  - intros [= <-]. apply node_reply_true.
  - destruct batches; [|done]. intros [= <-] Hnd req r Hreq Hr Hid.
    rewrite (node_replies limit reqs req r) by done. apply node_reply_true.
Qed.

(** The Finality levels are no quantities. *)
Lemma level_tag level : level ∈ [Latest; Safe; Finalized] →
  node_result (ethGetBlockByNumber level) = Some (rawBlock (encodeBlock (wo_block W (wo_head W)))).
Proof using Type.
  intros Hl. rewrite !elem_of_cons, elem_of_nil in Hl. destruct Hl as [->|[->|[->|[]]]]; done.
Qed.

(** What the node does not refuse it answers. *)
Lemma node_answers q raw : node_result q = Some raw → raw_answers W q raw.
Proof using HW.
  pose proof (wk_head _ HW) as Hhead. unfold is_u64 in Hhead. intros Hq. split.
  - intros ->. injection Hq as <-. eexists _, _. split; [done|]. apply parseQuantity_quantity, (wk_chainID _ HW).
  - intros level Hl ->. rewrite (level_tag level Hl) in Hq. injection Hq as <-. eexists _, _. split; [done|].
    apply decodeBlock_encode, (wk_blocks _ HW). lia.
  - intros n Hn ->. rewrite node_block in Hq by done. injection Hq as <-. eexists _, _. split; [done|].
    apply decodeBlock_encode. apply (wk_blocks _ HW n Hn).
  - intros from to address topic0 Hf Ht ->. rewrite node_logs in Hq by done. injection Hq as <-. eexists _, _. split; [done|].
    apply decodeLogs_encode, logs_typed.
  - intros to data at_ Hat ->. rewrite node_call in Hq by done. injection Hq as <-. eexists _, _. split; [done|].
    apply parseHexBytes_hexBytes.
Qed.

(** No question within the chain is invalid. *)
Lemma node_invalid q : node_result q = None → ∀ raw, raw_answers W q raw.
Proof using HW.
  intros Hq raw. split.
  - by intros ->.
  - intros level Hl ->. by rewrite (level_tag level Hl) in Hq.
  - intros n Hn ->. by rewrite node_block in Hq.
  - intros from to address topic0 Hf Ht ->. by rewrite node_logs in Hq.
  - intros to data at_ Hat ->. by rewrite node_call in Hq.
Qed.

Lemma node_reply_cases limit req :
  reply_answers W (rq_Question req) (node_reply limit req) ∨
  node_refuses limit (rq_Question req) = true ∧ reply_refuses (rq_Question req) (node_reply limit req).
Proof using HW.
  unfold node_reply. destruct (node_refuses limit (rq_Question req)) eqn:Er.
  - right. split; [done|]. unfold node_refuses in Er. destruct (rq_Question req) as [| |from to address topic0|]; try done.
    destruct (parseQuantity from) as [f| |] eqn:Ef; try done. destruct (parseQuantity to) as [t| |] eqn:Et; try done.
    apply andb_true_iff in Er as [Hlt _]. eexists _, _, from, to, f, t, address, topic0.
    split_and!; [reflexivity|by vm_compute|done|done|lia|done].
  - left. destruct (node_result (rq_Question req)) as [raw|] eqn:E; (split; [done|]); [by apply node_answers|by apply node_invalid].
Qed.

Lemma node_helpful server i limit batches limits :
  server i = node limit batches limits → helpful W server i.
Proof using HW.
  intros Hs. assert (∀ post (P : httpReply → Prop), (∀ clock, (limits && (clock mod 3 =? 0)%nat) = false →
    P (node limit batches limits clock post)) → settles server i post P) as Hsettle.
  { intros post P HP clock. rewrite Hs. destruct (limits && (clock mod 3 =? 0)%nat) eqn:E.
    - exists 1%nat. split; [unfold maxAttempts; lia|]. apply andb_true_iff in E as [El Ec%Nat.eqb_eq]. split.
      + apply HP. rewrite El. cbn [andb]. apply Nat.eqb_neq. rewrite Nat.Div0.add_mod, Ec. done.
      + intros j Hj. assert (j = 0%nat) as -> by lia. rewrite Nat.add_0_r. unfold node.
        rewrite El, Ec. eexists _, _. split; [done|]. by left.
    - exists 0%nat. split; [unfold maxAttempts; lia|]. split; [|intros j Hj; lia]. apply HP. by rewrite Nat.add_0_r. }
  split.
  - intros req _. apply Hsettle. intros clock Hc. unfold node. rewrite Hc. eexists. split; [done|].
    destruct (node_reply_cases limit req) as [?|[_ ?]]; auto.
  - intros reqs Hblocks. apply Hsettle. intros clock Hc. unfold node. rewrite Hc. destruct batches; [left|right; left].
    + eexists. split; [done|]. intros Hnd req Hreq. split.
      * exists (node_reply limit req). split; [by apply list_elem_of_fmap_2|apply node_reply_id].
      * intros r Hr Hid. rewrite (node_replies limit reqs req r) by done.
        destruct (node_reply_cases limit req) as [?|[Href _]]; [done|]. rewrite Forall_forall in Hblocks.
        destruct (Hblocks req Hreq) as (k & _ & Htag). by rewrite Htag in Href.
    + by eexists _, _.
Qed.
End node.
