(* ===== verification/ReaderCase.v ===== *)
(** * The hourly chain behind two nodes

    The chain of [EpochCase] as the raw logs and return data a node serves: one node
    rate-limits, does not batch and refuses pages of more than two blocks. *)
From S2P Require Import Prelude Sorts Bytes Text Merkle Twab Alloc Cases Chain StateMonad Reader Cache CacheSpec CacheSync CacheCase Epoch RootStream EpochSpec EpochCase Wire ChainReader WireSpec Honest ReaderSpec ReaderTruth ReaderLive ReaderServes Node.
From Stdlib Require Import QArith.

Open Scope Z_scope.

Definition hour_token : Address := address_of 20.
Definition hour_distributor : Address := address_of 21.
Definition hour_factory : Address := address_of 22.

Definition topic_of (z : Z) : Hash := copy_array 32 (be_encode 32 z).
Definition hour_log (address : Address) (n i : Z) (topics : list Hash) (data : list byte) : eventLog :=
  mkEventLog address topics data n (hour_hash n) i.
Definition hour_transfer (n i from to v : Z) : eventLog :=
  hour_log hour_token n i [topicTransfer sum_hash; topic_of from; topic_of to] (be_encode 32 v).
Definition words (l : list Z) : list byte := l ≫= be_encode 32.
Definition hour_post (n i root : Z) : eventLog :=
  hour_log hour_distributor n i [topicRootPosted sum_hash; topic_of 0; topic_of 0]
    (vec_to_list (hour_hash root) ++ words (replicate 5 90 ++ replicate 5 0)).

Definition hour_logs : list eventLog :=
  [ hour_transfer 1 0 0 1 100; hour_transfer 1 1 1 2 40; hour_transfer 1 2 1 3 40;
    hour_log hour_distributor 2 0 [topicExcludedAppended sum_hash; topic_of 9] [];
    hour_transfer 3 0 2 3 15; hour_post 3 1 76; hour_post 4 0 30817 ].

Definition hour_ledger_data (first : bool) : list byte :=
  if first then vec_to_list (hour_hash 30817) ++ words ([7200; 0] ++ replicate 5 91 ++ replicate 5 90 ++ replicate 5 0)
  else words ([0; 0; 1] ++ replicate 5 30 ++ replicate 10 0).
Definition hour_launch_data : list byte := words ([0; 1] ++ replicate 12 0 ++ [1]).

Definition hour_call (to : Address) (data : list byte) (at_ : Z) : list byte :=
  if decide (to = hour_factory) then hour_launch_data
  else hour_ledger_data (be_decode (drop 36 data) =? 0).

Definition hour_world : World := mkWorld 4663 hour_block 6 hour_logs hour_call.

(** The first node is slow to answer and small, the second is neither. *)
Definition hour_server (i clock : nat) (post : rpcPost) : httpReply :=
  match i with
  | O => node hour_world 2 false true clock post
  | _ => node hour_world 1000000 true false clock post
  end.
Definition hour_schedule (clock n : nat) : list nat :=
  if Nat.even clock then seq 0 n else reverse (seq 0 n).
Definition hour_config : chainReader :=
  mkChainReader [("endpoint 1 (small)", Float 15); ("endpoint 2 (large)", Float 15)]%string hour_token hour_distributor hour_factory 2.
Definition hour_wire : wireState := newWire.

Example hour_reads_transfers :
  (Transfers sum_hash hour_server hour_schedule hour_config 0 6 hour_wire).1 = Ok (cv_transfers hour_chain).
Proof. by vm_compute. Qed.

Example hour_reads_roots :
  (Roots sum_hash hour_server hour_schedule hour_config 1 6 hour_wire).1 = Ok (cv_roots hour_chain).
Proof. by vm_compute. Qed.

Definition hour_keys : list (Z * Z) := [(1, 0); (1, 1); (1, 2); (2, 0); (3, 0); (3, 1); (4, 0)].

Lemma hour_log_keys : log_key <$> hour_logs = hour_keys.
Proof. reflexivity. Qed.

Lemma sorted_by_key ls ks : log_key <$> ls = ks →
  StronglySorted (λ k j : Z * Z, k.1 < j.1 ∨ k.1 = j.1 ∧ k.2 < j.2) ks → StronglySorted log_before ls.
Proof.
  intros <-. induction ls as [|l ls IH]; intros H; [constructor|]. rewrite fmap_cons in H. inversion H as [|? ? Hs Hl]; subst.
  constructor; [by apply IH|]. by apply Forall_fmap in Hl.
Qed.

Lemma typed_by_key ls ks : log_key <$> ls = ks → Forall (λ k : Z * Z, is_u64 k.1 ∧ is_u64 k.2) ks → Forall log_typed ls.
Proof. intros <-. by rewrite Forall_fmap. Qed.

Lemma hour_world_ok : world_ok hour_world.
Proof.
  split.
  - done.
  - done.
  - intros n Hn. change (wo_head hour_world) with 6 in Hn. split; [|done]. split; [unfold is_u64; cbn; lia|].
    cbn [hour_world wo_block hour_block b_Timestamp]. lia.
  - apply (sorted_by_key hour_logs hour_keys hour_log_keys). unfold hour_keys.
    repeat (apply SSorted_cons; [|repeat (apply Forall_cons; split; [cbn [fst snd]; lia|]); by apply Forall_nil]). apply SSorted_nil.
  - apply (typed_by_key hour_logs hour_keys hour_log_keys). by repeat constructor.
  - intros address topic0 from to. eapply Z.le_lt_trans; [apply inj_le, length_canonicalLogs_filter|]. by vm_compute.
Qed.

Lemma hour_schedule_ok clock n : hour_schedule clock n ≡ₚ seq 0 n.
Proof. unfold hour_schedule. destruct (Nat.even clock); [done|apply reverse_Permutation]. Qed.

Lemma hour_endpoints i : (i < endpoints hour_config)%nat → truthful hour_world hour_server i ∧ helpful hour_world hour_server i.
Proof.
  intros Hi. destruct i as [|[|i]]; [..|cbn in Hi; lia].
  - split; [by eapply node_truthful; [apply hour_world_ok|]|by eapply node_helpful; [apply hour_world_ok|]].
  - split; [by eapply node_truthful; [apply hour_world_ok|]|by eapply node_helpful; [apply hour_world_ok|]].
Qed.

Lemma decodes_all {A} (decode : eventLog → Res chainError A) ls :
  forallb (λ l, match decode l with Ok _ => true | _ => false end) ls = true → Forall (λ l, ∃ x, decode l = Ok x) ls.
Proof.
  intros H. apply Forall_forall. intros l Hl. rewrite forallb_forall in H. specialize (H l (proj1 (list_elem_of_In _ _) Hl)).
  destruct (decode l); by eauto.
Qed.

Lemma hour_contracts : contracts_ok sum_hash hour_world hour_config 6.
Proof.
  split.
  - apply decodes_all. by vm_compute.
  - apply decodes_all. by vm_compute.
  - apply decodes_all. by vm_compute.
  - intros id _. cbn [hour_world wo_call hour_config cr_distributor]. unfold hour_call.
    rewrite decide_False by (intros H; apply (f_equal vec_to_list) in H; by vm_compute in H).
    destruct (be_decode _ =? 0); eexists; vm_compute; reflexivity.
  - eexists. vm_compute. reflexivity.
  - intros H. apply (f_equal vec_to_list) in H. by vm_compute in H.
Qed.
