(* ===== verification/ReaderTheorems.v ===== *)
(** * What the chain Reader promises

    The claims on the cross-checked reads: what any answer is once one endpoint is
    honest, what it looks like when none is, and that honest endpoints are enough for
    everything the epoch package relies on. *)
From S2P Require Import Prelude Sorts Bytes Text Merkle Twab Alloc Cases Chain StateMonad Reader CacheCase Epoch EpochSpec EpochCase Wire ChainReader WireSpec Honest ReaderSpec ReaderTruth ReaderLive ReaderServes Node ReaderCase.

Section theorems.
Context (keccak256 : list byte → Hash) (server : nat → nat → rpcPost → httpReply).
Context (schedule : nat → nat → list nat) (r : chainReader).

(** C5: one endpoint that tells the truth is enough. Whatever the other endpoints
    reply, whenever it is, in whatever order they finish and however often pages are
    halved or batches refused, a read that returns at all returns the chain's own
    answer: the header asked for, exactly the Transfers, Exclusions and Roots of the
    block range in chain order with their blocks' timestamps, the Ledger and the curve
    the contracts hold at that block, and for an Epoch the last block before its
    close. *)
Theorem One_truthful_endpoint W i tip s :
  world_ok W → (∀ clock n, schedule clock n ≡ₚ seq 0 n) → (i < endpoints r)%nat → truthful W server i →
  0 ≤ b_Number (tip_Block tip) ≤ wo_head W → tip_Block tip = wo_block W (b_Number (tip_Block tip)) →
  let chain := view keccak256 W r (b_Number (tip_Block tip)) in
  (∀ n b s', 0 ≤ n ≤ wo_head W → BlockByNumber server schedule r n s = (Ok b, s') → b = cv_block chain n) ∧
  (∀ from to l s', 0 ≤ from → to ≤ wo_head W → Transfers keccak256 server schedule r from to s = (Ok l, s') →
     l = filter (λ t, in_blocks from to (ct_Site t)) (cv_transfers chain)) ∧
  (∀ from to l s', 0 ≤ from → to ≤ wo_head W → Exclusions keccak256 server schedule r from to s = (Ok l, s') →
     l = filter (λ x, in_blocks from to (ce_Site x)) (cv_exclusions chain)) ∧
  (∀ from to l s', 0 ≤ from → to ≤ wo_head W → Roots keccak256 server schedule r from to s = (Ok l, s') →
     l = filter (λ p, in_blocks from to (rp_Site p)) (cv_roots chain)) ∧
  (∀ kind id l s', ReadLedger keccak256 server schedule r kind id (b_Number (tip_Block tip)) s = (Ok l, s') →
     decodeLedger (wo_call W (cr_distributor r) (encodeLedgerCall keccak256 kind id) (b_Number (tip_Block tip))) = Ok l) ∧
  (∀ curve s', LaunchCurve keccak256 server schedule r (b_Number (tip_Block tip)) s = (Ok curve, s') → curve = cv_curve chain) ∧
  (∀ id b s', EndBlock server schedule r id tip s = (Ok b, s') →
     last_before chain (b_Number (tip_Block tip)) (w_End (WindowOf id)) b).
Proof.
  intros HW Hsch Hi Ht Htip Hb. cbn zeta. split_and!; intros.
  - by eapply (BlockByNumber_true W HW server schedule r i Hi Ht).
  - by eapply (Transfers_true keccak256 W HW server schedule r Hsch i Hi Ht).
  - by eapply (Exclusions_true keccak256 W HW server schedule r Hsch i Hi Ht).
  - by eapply (Roots_true keccak256 W HW server schedule r Hsch i Hi Ht).
  - by eapply (ReadLedger_true keccak256 W server schedule r i Hi Ht).
  - cbn [view cv_curve]. by erewrite (LaunchCurve_true keccak256 W server schedule r i Hi Ht).
  - by eapply (EndBlock_true keccak256 W HW server schedule r i Hi Ht).
Qed.

(** C9: endpoints that serve one chain make the Reader the one the epoch package is
    proved against. Each may rate-limit up to four posts in a row, refuse batches and
    call any page of more than one block too big, and they may finish in any order:
    every read still ends, succeeds and is the chain's answer, so the Reader keeps
    the promise [ReadsChain]. *)
Theorem Reader_keeps_promise W tip :
  world_ok W → (∀ clock n, schedule clock n ≡ₚ seq 0 n) → (0 < endpoints r)%nat →
  (∀ i, (i < endpoints r)%nat → truthful W server i ∧ helpful W server i) →
  0 ≤ b_Number (tip_Block tip) ≤ wo_head W → tip_Block tip = wo_block W (b_Number (tip_Block tip)) →
  contracts_ok keccak256 W r (b_Number (tip_Block tip)) →
  ReadsChain (readerOf keccak256 server schedule r) (view keccak256 W r (b_Number (tip_Block tip))) tip.
Proof. intros HW Hsch Hsome Hall Htip Hb Hc. by apply readerOf_reads. Qed.

(** C23: whatever the endpoints are, what the Reader returns is well typed: every
    event lies in the range asked for with its block number, index and timestamp in
    their machine widths, the events are in (block, index) order, every amount is
    there and a uint256, every id a uint64, and a header's number is a uint64 and its
    time fits an int64. *)
Theorem Reads_typed from to n kind id at_ s :
  (∀ clock n, schedule clock n ≡ₚ seq 0 n) →
  (∀ l s', Transfers keccak256 server schedule r from to s = (Ok l, s') →
     Forall (λ t, site_ok from to (ct_Site t) ∧ transfer_typed t) l ∧ StronglySorted site_le (ct_Site <$> l)) ∧
  (∀ l s', Exclusions keccak256 server schedule r from to s = (Ok l, s') →
     Forall (λ x, site_ok from to (ce_Site x)) l ∧ StronglySorted site_le (ce_Site <$> l)) ∧
  (∀ l s', Roots keccak256 server schedule r from to s = (Ok l, s') →
     Forall (λ p, site_ok from to (rp_Site p) ∧ root_typed p) l ∧ StronglySorted site_le (rp_Site <$> l)) ∧
  (∀ l s', ReadLedger keccak256 server schedule r kind id at_ s = (Ok l, s') → ledger_typed l) ∧
  (∀ b s', BlockByNumber server schedule r n s = (Ok b, s') → block_typed b).
Proof.
  intros Hsch. split_and!.
  - intros l s' H. refine (readEvents_typed server schedule r Hsch _ ct_Site stampTransfer transfer_typed _ _ from to
      MaxLogRange (transfer_laws keccak256) _ _ s l s' H); [apply decodeTransfer_typed|done].
  - intros l s' H. destruct (readEvents_typed server schedule r Hsch _ ce_Site stampExclusion (λ _, True) _ _ from to
      SparseLogRange (exclusion_laws keccak256) ltac:(done) ltac:(done) s l s' H) as [Hl Hs].
    split; [|done]. eapply Forall_impl; [exact Hl|]. by intros x [? _].
  - intros l s' H. refine (readEvents_typed server schedule r Hsch _ rp_Site stampRoot root_typed _ _ from to
      SparseLogRange (root_laws keccak256) _ _ s l s' H); [apply decodeRootPosted_typed|done].
  - intros l s' H. eapply (ensures_bind _ _ (λ _, True)); [apply ensures_any| |exact H]. intros data _.
    apply ensures_lift. intros. by eapply decodeLedger_typed.
  - intros b s' H. by eapply (crossCheck_typed schedule r); [intros i; apply blockByTag_typed|exact H].
Qed.
End theorems.

(** ** The claims applied to the hourly chain *)

(** The first endpoint lies about what the contracts hold. *)
Definition lying_world : World := mkWorld 4663 hour_block 6 hour_logs (λ _ _ _, []).
Definition lying_server (i clock : nat) (post : rpcPost) : httpReply :=
  match i with
  | O => node lying_world 2 false true clock post
  | _ => node hour_world 1000000 true false clock post
  end.

Lemma second_truthful : truthful hour_world lying_server 1.
Proof. by eapply node_truthful; [apply hour_world_ok|]. Qed.

Example lie_caught :
  (ReadLedger sum_hash lying_server hour_schedule hour_config KindEpoch 0 6 hour_wire).1 = Err (errDisagreement 1).
Proof. by vm_compute. Qed.

Lemma One_truthful_endpoint_witness :
  cv_transfers hour_chain =
    filter (λ t, in_blocks 0 6 (ct_Site t)) (cv_transfers (view sum_hash hour_world hour_config 6)).
Proof.
  refine (proj1 (proj2 (One_truthful_endpoint sum_hash lying_server hour_schedule hour_config hour_world 1 hour_tip hour_wire
    hour_world_ok hour_schedule_ok _ second_truthful _ _)) 0 6 (cv_transfers hour_chain) _ _ _ _).
  - cbn. lia.
  - done.
  - done.
  - done.
  - done.
  - vm_compute. reflexivity.
Defined.

Lemma Reader_keeps_promise_witness :
  ReadsChain (readerOf sum_hash hour_server hour_schedule hour_config) (view sum_hash hour_world hour_config 6) hour_tip.
Proof.
  apply (Reader_keeps_promise sum_hash hour_server hour_schedule hour_config hour_world hour_tip).
  - exact hour_world_ok.
  - exact hour_schedule_ok.
  - cbn. lia.
  - exact hour_endpoints.
  - done.
  - done.
  - exact hour_contracts.
Defined.

Lemma Reads_typed_witness :
  Forall (λ t, site_ok 0 6 (ct_Site t) ∧ transfer_typed t) (cv_transfers hour_chain) ∧
  StronglySorted site_le (ct_Site <$> cv_transfers hour_chain).
Proof.
  refine (proj1 (Reads_typed sum_hash lying_server hour_schedule hour_config 0 6 0 KindEpoch 0 0 hour_wire
    hour_schedule_ok) (cv_transfers hour_chain) _ _).
  vm_compute. reflexivity.
Defined.
