(* ===== verification/Threads.v ===== *)
(** * chain: reads as threads

    A read of one endpoint as the goroutine that makes it: a tree of the steps it takes
    on what it shares with other goroutines, the endpoint's [nextID], its [noBatch] and
    the wire. [runThread] takes a thread's steps one after the other and is the read of [Wire];
    [may_end] lets others take steps of their own in between. *)
From S2P Require Import Prelude Sorts Bytes Text Merkle Twab Chain StateMonad Wire.

(** A goroutine, by the next step it takes: [nextID.Add], one exchange,
    [noBatch.Load], [noBatch.Store], or to return. *)
Inductive thread (A : Type) : Type :=
  | Done (r : Res chainError A)
  | Request (q : question) (k : rpcRequest → thread A)
  | Post (post : rpcPost) (k : Res chainError rpcBody → thread A)
  | NoBatch (k : bool → thread A)
  | SetNoBatch (k : thread A).
Arguments Done {A} r.
Arguments Request {A} q k.
Arguments Post {A} post k.
Arguments NoBatch {A} k.
Arguments SetNoBatch {A} k.

#[global] Instance thread_ret : MRet thread := λ A a, Done (Ok a).
#[global] Instance thread_bind : MBind thread := λ A B f,
  fix bind (t : thread A) : thread B :=
    match t with
    | Done (Ok a) => f a
    | Done (Err e) => Done (Err e)
    | Done (Fault x) => Done (Fault x)
    | Request q k => Request q (λ req, bind (k req))
    | Post post k => Post post (λ body, bind (k body))
    | NoBatch k => NoBatch (λ b, bind (k b))
    | SetNoBatch k => SetNoBatch (bind k)
    end.

Definition throwT {A} (e : chainError) : thread A := Done (Err e).

(** What is made of a thread's error. *)
Fixpoint catchT {A} (t : thread A) (handle : chainError → thread A) : thread A :=
  match t with
  | Done (Err e) => handle e
  | Done r => Done r
  | Request q k => Request q (λ req, catchT (k req) handle)
  | Post post k => Post post (λ body, catchT (k body) handle)
  | NoBatch k => NoBatch (λ b, catchT (k b) handle)
  | SetNoBatch k => SetNoBatch (catchT k handle)
  end.

Fixpoint mapT {A B} (f : A → thread B) (l : list A) : thread (list B) :=
  match l with
  | [] => mret []
  | x :: l => y ← f x; ys ← mapT f l; mret (y :: ys)
  end.

(** ** The reads of [Wire], step by step *)

Definition newRequestT (q : question) : thread rpcRequest := Request q mret.

Fixpoint roundTripFromT (attempts : nat) (lastErr : chainError) (post : rpcPost) : thread rpcBody :=
  match attempts with
  | O => throwT (errGaveUp lastErr)
  | S attempts =>
      catchT (Post post Done) (λ err,
        match err with
        | errRetryable _ => roundTripFromT attempts err post
        | _ => throwT err
        end)
  end.

Definition roundTripT (post : rpcPost) : thread rpcBody := roundTripFromT maxAttempts errTransport post.

Definition callOneT (q : question) : thread rawResult :=
  req ← newRequestT q;
  body ← roundTripT (postOne req);
  match body with
  | bodySingle r => Done (responseResult r)
  | bodyNull => throwT errNoAnswer
  | _ => throwT errJSON
  end.

Definition callBatchT (qs : list question) : thread (list rawResult) :=
  reqs ← mapT newRequestT qs;
  body ← catchT (roundTripT (postBatch reqs)) (λ err,
    match err with
    | errHTTP _ => throwT (errBatchRefused err)
    | _ => throwT err
    end);
  match body with
  | bodyArray rs => Done (traverse (batchResult (repliesByID rs)) reqs)
  | bodyNull => Done (traverse (batchResult ∅) reqs)
  | bodySingle r =>
      match rr_Error r with
      | Some (code, message) => throwT (errBatchRefused (errRPC code message))
      | None => throwT errJSON
      end
  | bodyOther => throwT errJSON
  end.

Definition blockByTagT (tag : string) : thread Block :=
  raw ← callOneT (ethGetBlockByNumber tag);
  wire ← Done (unmarshalBlock raw);
  Done (decodeBlock wire).

Definition batchBlocksT (numbers : list Z) : thread (list Block) :=
  results ← callBatchT ((λ n, ethGetBlockByNumber (quantity n)) <$> numbers);
  Done (traverse (λ '(n, raw), batchedBlock n raw) (zip numbers results)).

Definition blockOfT (n : Z) : thread Block :=
  block ← blockByTagT (quantity n);
  _ ← Done (isBlock block n);
  mret block.

Definition blocksByNumberT (numbers : list Z) : thread (list Block) :=
  NoBatch (λ noBatch,
    if (noBatch : bool) then mapT blockOfT numbers
    else catchT (batchBlocksT numbers) (λ err,
      match err with
      | errBatchRefused _ => SetNoBatch (mapT blockOfT numbers)
      | _ => throwT err
      end)).

Definition getLogsT (address : Address) (topic0 : Hash) (from to : Z) : thread (list eventLog) :=
  raw ← callOneT (ethGetLogs (quantity from) (quantity to) (AddressString address) (HashString topic0));
  wire ← Done (unmarshalLogs raw);
  out ← Done (traverse (filteredLog address topic0 from to) wire);
  mret (sortLogs out).

Definition ethCallAtT (to : Address) (data : list byte) (at_ : Z) : thread (list byte) :=
  raw ← callOneT (ethCall (AddressString to) (hexBytes data) (quantity at_));
  encoded ← Done (unmarshalString raw);
  Done (parseHexBytes encoded).

Definition chainIdOfT : thread Z :=
  raw ← callOneT ethChainId;
  encoded ← Done (unmarshalString raw);
  Done (parseQuantity encoded).

(** ** Steps *)

Section steps.
Context (server : nat → nat → rpcPost → httpReply) (i : nat).

(** The next step of a goroutine, if it has not come to its result. *)
Definition advance {A} (t : thread A) (w : wireState) : option (thread A * wireState) :=
  match t with
  | Done _ => None
  | Request q k =>
      match newRequest i q w with
      | (Ok req, w) => Some (k req, w)
      | _ => None
      end
  | Post post k => let '(body, w) := attempt server i post w in Some (k body, w)
  | NoBatch k => Some (k (ep_noBatch (endpointOf i w)), w)
  | SetNoBatch k => Some (k, setEndpoint i (mkEndpointState (ep_nextID (endpointOf i w)) true) w)
  end.

(** An exchange given up because the context is done; the request may have reached
    the endpoint. *)
Definition interrupt {A} (reached : bool) (t : thread A) (w : wireState) : option (thread A * wireState) :=
  match t with
  | Post _ k => Some (k (Err errCancelled), if reached then tick w else w)
  | _ => None
  end.

(** A thread that nobody interferes with. *)
Fixpoint runThread {A} (t : thread A) : StM wireState chainError A :=
  match t with
  | Done r => lift r
  | Request q k => req ← newRequest i q; runThread (k req)
  | Post post k => λ w, let '(body, w) := attempt server i post w in runThread (k body) w
  | NoBatch k => noBatch ← gets (λ w, ep_noBatch (endpointOf i w)); runThread (k noBatch)
  | SetNoBatch k => _ ← setNoBatch i; runThread k
  end.

(** What the exchange of one post comes to. *)
Definition exchanged (reply : httpReply) : Res chainError rpcBody :=
  match reply with
  | httpDown => Err errTransport
  | httpResponse status body =>
      if negb (status =? 200) then
        if (status =? 429) || (500 <=? status) then Err (errRetryable status) else Err (errHTTP status)
      else Ok body
  end.

Lemma attempt_exchanged post w : attempt server i post w = (exchanged (server i (nt_clock w) post), tick w).
Proof. done. Qed.

(** How a thread may end when others move the endpoint's counter, set its [noBatch] and
    post to it between any two of its steps: with the counter at [m], it may end as [r]
    with the counter at [m']. No exchange of its own is given up. *)
Inductive may_end {A} (hi : Z) : Z → thread A → Res chainError A → Z → Prop :=
  | may_done m m' r : m ≤ m' → may_end hi m (Done r) r m'
  | may_request m m1 m' q k r :
      m ≤ m1 → m1 < hi → may_end hi (m1 + 1) (k (mkRequest (u64 (m1 + 1)) q)) r m' → may_end hi m (Request q k) r m'
  | may_post m m' clock post k r : may_end hi m (k (exchanged (server i clock post))) r m' → may_end hi m (Post post k) r m'
  | may_read m m' b k r : may_end hi m (k b) r m' → may_end hi m (NoBatch k) r m'
  | may_set m m' k r : may_end hi m k r m' → may_end hi m (SetNoBatch k) r m'.
End steps.
