(* ===== verification/ThreadSpec.v ===== *)
(** * What a thread can come to

    Alone, a thread is the read of [Wire]. Among others, its answer is still the chain's
    when its endpoint tells the truth, and there is one when the endpoint answers. *)
From S2P Require Import Prelude Sorts Bytes Text Merkle Twab Chain StateMonad Wire Reader ChainReader WireSpec Honest ReaderSpec ReaderTruth ReaderLive Threads.

(** ** Alone *)

Section alone.
Context (server : nat → nat → rpcPost → httpReply) (i : nat).
Abbreviation runThread := (runThread server i).

Lemma runT_bind {A B} (t : thread A) (f : A → thread B) w : runThread (t ≫= f) w = (runThread t ≫= λ a, runThread (f a)) w.
Proof.
  revert w. induction t as [r|q k IH|post k IH|k IH|k IH]; intros w.
  - by destruct r.
  - change (Request q k ≫= f) with (Request q (λ req, k req ≫= f)). apply IH.
  - change (Post post k ≫= f) with (Post post (λ body, k body ≫= f)). apply IH.
  - change (NoBatch k ≫= f) with (NoBatch (λ b, k b ≫= f)). apply IH.
  - change (SetNoBatch k ≫= f) with (SetNoBatch (k ≫= f)). apply IH.
Qed.

Lemma runT_catch {A} (t : thread A) (h : chainError → thread A) w : runThread (catchT t h) w = catch (runThread t) (λ e, runThread (h e)) w.
Proof.
  revert w. induction t as [r|q k IH|post k IH|k IH|k IH]; intros w; [by destruct r|apply IH..].
Qed.

(** Calls that agree in every state, composed. *)
Lemma bind_ext {A B} (m m' : Wire A) (f f' : A → Wire B) :
  (∀ w, m w = m' w) → (∀ a w, f a w = f' a w) → ∀ w, (m ≫= f) w = (m' ≫= f') w.
Proof. intros Hm Hf w. unfold mbind, StM_bind. rewrite Hm. by destruct (m' w) as [[a|e|x] w']. Qed.

Lemma catch_ext {A} (m m' : Wire A) (h h' : chainError → Wire A) :
  (∀ w, m w = m' w) → (∀ e w, h e w = h' e w) → ∀ w, catch m h w = catch m' h' w.
Proof. intros Hm Hf w. unfold catch. rewrite Hm. by destruct (m' w) as [[a|e|x] w']. Qed.

Lemma runT_bind_ext {A B} (t : thread A) (f : A → thread B) (m : Wire A) (g : A → Wire B) :
  (∀ w, runThread t w = m w) → (∀ a w, runThread (f a) w = g a w) → ∀ w, runThread (t ≫= f) w = (m ≫= g) w.
Proof. intros Ht Hf w. rewrite runT_bind. by apply bind_ext. Qed.

Lemma runT_catch_ext {A} (t : thread A) h (m : Wire A) g :
  (∀ w, runThread t w = m w) → (∀ e w, runThread (h e) w = g e w) → ∀ w, runThread (catchT t h) w = catch m g w.
Proof. intros Ht Hf w. rewrite runT_catch. by apply catch_ext. Qed.

Lemma runT_map {A B} (f : A → thread B) (g : A → Wire B) l :
  (∀ x w, runThread (f x) w = g x w) → ∀ w, runThread (mapT f l) w = mapS g l w.
Proof.
  intros Hf. induction l as [|x l IH]; [done|]. apply runT_bind_ext; [apply Hf|]. intros y.
  by apply runT_bind_ext; [apply IH|].
Qed.

Lemma runT_roundTrip post w : runThread (roundTripT post) w = roundTrip server i post w.
Proof.
  unfold roundTripT, roundTrip. generalize errTransport as last. generalize maxAttempts as n. intros n.
  revert w. induction n as [|n IH]; intros w last; [done|]. cbn [roundTripFromT roundTripFrom].
  apply runT_catch_ext; [done|]. intros e w'. destruct e; first [apply IH | done].
Qed.

Lemma runT_callOne q w : runThread (callOneT q) w = callOne server i q w.
Proof.
  apply runT_bind_ext; [done|]. intros req. apply runT_bind_ext; [apply runT_roundTrip|]. by intros [].
Qed.

Lemma runT_callBatch qs w : runThread (callBatchT qs) w = callBatch server i qs w.
Proof.
  apply runT_bind_ext; [by apply runT_map|]. intros reqs. apply runT_bind_ext.
  - apply runT_catch_ext; [apply runT_roundTrip|]. by intros [].
  - intros [r|rs| |]; [|done..]. by destruct (rr_Error r) as [[code message]|].
Qed.

Lemma runT_blockByTag tag w : runThread (blockByTagT tag) w = blockByTag server i tag w.
Proof. apply runT_bind_ext; [apply runT_callOne|]. intros raw. by apply runT_bind_ext. Qed.

Lemma runT_blockOf n w : runThread (blockOfT n) w = blockOf server i n w.
Proof. apply runT_bind_ext; [apply runT_blockByTag|]. intros b. by apply runT_bind_ext. Qed.

Lemma runT_blocksByNumber ns w : runThread (blocksByNumberT ns) w = blocksByNumber server i ns w.
Proof.
  revert w. unfold blocksByNumber. apply (bind_ext _ _ (λ b : bool, runThread _)); [done|]. intros [] w; [apply runT_map, runT_blockOf|].
  apply runT_catch_ext.
  - apply runT_bind_ext; [apply runT_callBatch|done].
  - intros e w'. destruct e; try done. cbn. apply bind_ext; [done|]. intros _. apply runT_map, runT_blockOf.
Qed.

Lemma runT_getLogs address topic0 from to w : runThread (getLogsT address topic0 from to) w = getLogs server i address topic0 from to w.
Proof.
  apply runT_bind_ext; [apply runT_callOne|]. intros raw. apply runT_bind_ext; [done|]. intros ws. by apply runT_bind_ext.
Qed.

Lemma runT_ethCallAt to data at_ w : runThread (ethCallAtT to data at_) w = ethCallAt server i to data at_ w.
Proof. apply runT_bind_ext; [apply runT_callOne|]. intros raw. by apply runT_bind_ext. Qed.

Lemma runT_chainIdOf w : runThread chainIdOfT w = chainIdOf server i w.
Proof. apply runT_bind_ext; [apply runT_callOne|]. intros raw. by apply runT_bind_ext. Qed.
End alone.

(** ** Among others *)

(** An endpoint that never asks to wait. *)
Definition prompt (server : nat → nat → rpcPost → httpReply) (i : nat) : Prop :=
  ∀ clock post status body, server i clock post = httpResponse status body → status ≠ 429 ∧ status < 500.

Section among.
Context (server : nat → nat → rpcPost → httpReply) (i : nat) (hi : Z).
Abbreviation may_end := (may_end server i hi).

Lemma may_end_inv {A} m (t : thread A) r m' :
  may_end m t r m' →
  match t with
  | Done r0 => r = r0 ∧ m ≤ m'
  | Request q k => ∃ m1, m ≤ m1 < hi ∧ may_end (m1 + 1) (k (mkRequest (u64 (m1 + 1)) q)) r m'
  | Post post k => ∃ clock, may_end m (k (exchanged (server i clock post))) r m'
  | NoBatch k => ∃ b, may_end m (k b) r m'
  | SetNoBatch k => may_end m k r m'
  end.
Proof. intros H. inversion H; subst; eauto 10. Qed.

Lemma may_end_le {A} m (t : thread A) r m' : may_end m t r m' → m ≤ m'.
Proof. induction 1; lia. Qed.

(** The others may have moved the counter first. *)
Lemma may_end_later {A} m m1 (t : thread A) r m' : m ≤ m1 → may_end m1 t r m' → may_end m t r m'.
Proof.
  intros Hm H. revert m Hm. induction H as [| |? ? clock ? ? ? ? IH|? ? b ? ? ? IH|? ? ? ? ? IH]; intros m0 Hm0.
  - constructor. lia.
  - econstructor; [|eassumption..]. lia.
  - apply (may_post _ _ _ _ _ clock). by apply IH.
  - apply (may_read _ _ _ _ _ b). by apply IH.
  - constructor. by apply IH.
Qed.

(** However a thread ends, it ends like this. *)
Definition only {A} (m : Z) (t : thread A) (Φ : Res chainError A → Z → Prop) : Prop :=
  ∀ r m', may_end m t r m' → Φ r m'.

Lemma only_mono {A} m (t : thread A) (Φ Ψ : Res chainError A → Z → Prop) :
  only m t Φ → (∀ r m', m ≤ m' → Φ r m' → Ψ r m') → only m t Ψ.
Proof. intros Ht HΦ r m' H. apply HΦ; [by eapply may_end_le|by apply Ht]. Qed.

Lemma only_done {A} m (r : Res chainError A) (Φ : Res chainError A → Z → Prop) :
  (∀ m', m ≤ m' → Φ r m') → only m (Done r) Φ.
Proof. intros HΦ r' m' [-> Hm]%may_end_inv. by apply HΦ. Qed.

Lemma only_bind {A B} m (t : thread A) (f : A → thread B) Ψ Φ :
  only m t Ψ →
  (∀ a m1, m ≤ m1 → Ψ (Ok a) m1 → only m1 (f a) Φ) →
  (∀ e m1, Ψ (Err e) m1 → Φ (Err e) m1) → (∀ x m1, Ψ (Fault x) m1 → Φ (Fault x) m1) →
  only m (t ≫= f) Φ.
Proof.
  intros Ht Hf He Hx. revert m Ht Hf. induction t as [r|q k IH|post k IH|k IH|k IH]; intros m Ht Hf r' m' H.
  - destruct r as [a|e|x].
    + apply (Hf a m); [done|apply Ht; by constructor|exact H].
    + apply may_end_inv in H as [-> Hm]. apply He, Ht. by constructor.
    + apply may_end_inv in H as [-> Hm]. apply Hx, Ht. by constructor.
  - apply may_end_inv in H as (m1 & Hm1 & H). eapply IH; [| |exact H].
    + intros r m2 Hr. apply Ht. econstructor; [exact (proj1 Hm1)|exact (proj2 Hm1)|done].
    + intros a m2 Hm2. apply Hf. lia.
  - apply may_end_inv in H as (clock & H). eapply IH; [|exact Hf|exact H]. intros r m2 Hr. apply Ht. by econstructor.
  - apply may_end_inv in H as (b & H). eapply IH; [|exact Hf|exact H]. intros r m2 Hr. apply Ht. by econstructor.
  - apply may_end_inv in H. eapply IH; [|exact Hf|exact H]. intros r m2 Hr. apply Ht. by econstructor.
Qed.

Lemma only_catch {A} m (t : thread A) (h : chainError → thread A) Ψ Φ :
  only m t Ψ →
  (∀ e m1, m ≤ m1 → Ψ (Err e) m1 → only m1 (h e) Φ) →
  (∀ a m1, Ψ (Ok a) m1 → Φ (Ok a) m1) → (∀ x m1, Ψ (Fault x) m1 → Φ (Fault x) m1) →
  only m (catchT t h) Φ.
Proof.
  intros Ht Hf Ha Hx. revert m Ht Hf. induction t as [r|q k IH|post k IH|k IH|k IH]; intros m Ht Hf r' m' H.
  - destruct r as [a|e|x].
    + apply may_end_inv in H as [-> Hm]. apply Ha, Ht. by constructor.
    + apply (Hf e m); [done|apply Ht; by constructor|exact H].
    + apply may_end_inv in H as [-> Hm]. apply Hx, Ht. by constructor.
  - apply may_end_inv in H as (m1 & Hm1 & H). eapply IH; [| |exact H].
    + intros r m2 Hr. apply Ht. econstructor; [exact (proj1 Hm1)|exact (proj2 Hm1)|done].
    + intros a m2 Hm2. apply Hf. lia.
  - apply may_end_inv in H as (clock & H). eapply IH; [|exact Hf|exact H]. intros r m2 Hr. apply Ht. by econstructor.
  - apply may_end_inv in H as (b & H). eapply IH; [|exact Hf|exact H]. intros r m2 Hr. apply Ht. by econstructor.
  - apply may_end_inv in H. eapply IH; [|exact Hf|exact H]. intros r m2 Hr. apply Ht. by econstructor.
Qed.

(** What a thread's answer is, when it has one. *)
Definition finds {A} (m : Z) (t : thread A) (P : A → Prop) : Prop :=
  only m t (λ r _, ∀ a, r = Ok a → P a).

Lemma finds_done {A} m (r : Res chainError A) (P : A → Prop) : (∀ a, r = Ok a → P a) → finds m (Done r) P.
Proof. intros HP. by apply only_done. Qed.

Lemma finds_throw {A} m e (P : A → Prop) : finds m (throwT e) P.
Proof. by apply finds_done. Qed.

Lemma finds_any {A} m (t : thread A) : finds m t (λ _, True).
Proof. by intros r m' _ a _. Qed.

Lemma finds_mono {A} m (t : thread A) (P Q : A → Prop) : finds m t P → (∀ a, P a → Q a) → finds m t Q.
Proof. intros Ht HPQ r m' H a Ha. by eapply HPQ, Ht. Qed.

Lemma finds_bind {A B} m (t : thread A) (f : A → thread B) (P : A → Prop) (Q : B → Prop) :
  finds m t P → (∀ a m1, m ≤ m1 → P a → finds m1 (f a) Q) → finds m (t ≫= f) Q.
Proof.
  intros Ht Hf. eapply only_bind; [exact Ht| |done..]. intros a m1 Hm HP. apply Hf; [done|by apply HP].
Qed.

Lemma finds_catch {A} m (t : thread A) (h : chainError → thread A) (P : A → Prop) :
  finds m t P → (∀ e m1, m ≤ m1 → finds m1 (h e) P) → finds m (catchT t h) P.
Proof. intros Ht Hh. eapply only_catch; [exact Ht|intros e m1 Hm _; by apply Hh|done..]. Qed.

Lemma finds_map {A B} m (f : A → thread B) (R : A → B → Prop) l :
  (∀ x m1, x ∈ l → m ≤ m1 → finds m1 (f x) (R x)) → finds m (mapT f l) (Forall2 R l).
Proof.
  revert m. induction l as [|x l IH]; intros m Hf; cbn [mapT]; [apply finds_done; by intros ? [= <-]|].
  eapply finds_bind; [by apply Hf; [constructor|]|]. intros y m1 Hm1 Hy.
  eapply finds_bind; [apply IH; intros z m2 Hz Hm2; apply Hf; [by constructor|lia]|].
  intros ys m2 _ Hys. apply finds_done. intros ? [= <-]. by constructor.
Qed.

(** ** Posts *)

Lemma newRequestT_of m q : finds m (newRequestT q) (λ req, rq_Question req = q).
Proof. intros r m' (m1 & _ & [-> _]%may_end_inv)%may_end_inv req [= <-]. done. Qed.

Lemma exchanged_Ok reply body : exchanged reply = Ok body → reply = httpResponse 200 body.
Proof.
  unfold exchanged. destruct reply as [status b|]; [|done]. destruct (Z.eqb_spec status 200) as [->|]; cbn [negb].
  - by intros [= <-].
  - by destruct (_ || _).
Qed.

Lemma roundTripT_sent m post : finds m (roundTripT post) (λ body, ∃ clock, server i clock post = httpResponse 200 body).
Proof.
  unfold roundTripT. generalize errTransport as last, maxAttempts as n. intros last n. revert m last.
  induction n as [|n IH]; intros m last; cbn [roundTripFromT]; [apply finds_throw|]. apply finds_catch.
  - intros r m' (clock & [-> _]%may_end_inv)%may_end_inv body Hb%exchanged_Ok. by exists clock.
  - intros e m1 _. destruct e; first [apply IH | apply finds_throw].
Qed.

(** The ids of a batch are those the counter went through, others' left out. *)
Lemma newRequestsT_ids m qs :
  finds m (mapT newRequestT qs) (λ reqs, ∃ cs, rq_ID <$> reqs = u64 <$> cs ∧ NoDup cs ∧ Forall (λ c, m < c ≤ hi) cs).
Proof.
  revert m. induction qs as [|q qs IH]; intros m; cbn [mapT].
  { apply finds_done. intros reqs [= <-]. by exists []; repeat constructor. }
  intros r m' (m1 & Hm1 & H)%may_end_inv. revert H. apply (finds_bind _ _ _ _ _ (IH (m1 + 1))).
  intros reqs m2 _ (cs & Hids & Hnd & Hcs). apply finds_done. intros ? [= <-].
  exists (m1 + 1 :: cs). rewrite Forall_forall in Hcs. split_and!.
  - by rewrite !fmap_cons, Hids.
  - constructor; [|done]. intros Hin%Hcs. lia.
  - constructor; [lia|]. apply Forall_forall. intros c Hc%Hcs. lia.
Qed.

Lemma newRequestsT_nodup m qs : hi - m ≤ 2 ^ 64 → finds m (mapT newRequestT qs) (λ reqs, NoDup (rq_ID <$> reqs)).
Proof.
  intros Hm. eapply finds_mono; [apply newRequestsT_ids|]. intros reqs (cs & -> & Hnd & Hcs).
  rewrite Forall_forall in Hcs. apply NoDup_fmap_2_strong; [|done]. intros x y Hx%Hcs Hy%Hcs He.
  unfold u64 in He. assert ((x - y) mod 2 ^ 64 = 0) as Hd by by rewrite Zminus_mod, He, Z.sub_diag.
  apply Z.mod_divide in Hd as [k Hk]; [|lia]. nia.
Qed.

Lemma callBatchT_length m qs : finds m (callBatchT qs) (λ raws, length raws = length qs).
Proof.
  unfold callBatchT. eapply finds_bind; [apply (finds_map _ _ (λ _ _, True)); intros; apply finds_any|].
  intros reqs m1 _ Hreqs%Forall2_length. eapply finds_bind; [apply finds_any|].
  intros body m2 _ _. destruct body as [r|rs| |]; try apply finds_throw.
  - destruct (rr_Error r) as [[code message]|]; apply finds_throw.
  - apply finds_done. intros raws Hraws%traverse_Ok%Forall2_length. by rewrite <-Hraws.
  - apply finds_done. intros raws Hraws%traverse_Ok%Forall2_length. by rewrite <-Hraws.
Qed.

(** ** Any endpoint *)

Lemma blockByTagT_typed m tag : finds m (blockByTagT tag) block_typed.
Proof.
  unfold blockByTagT. eapply finds_bind; [apply finds_any|]. intros raw m1 _ _.
  eapply finds_bind; [apply finds_any|]. intros w m2 _ _. apply finds_done. intros b. apply decodeBlock_typed.
Qed.

Lemma blockOfT_numbered m n : finds m (blockOfT n) (numbered n).
Proof.
  unfold blockOfT. eapply finds_bind; [apply blockByTagT_typed|]. intros b m1 _ Hb.
  eapply finds_bind; [apply (finds_done _ _ (λ _, b_Number b = n)); intros u; apply isBlock_Ok|].
  intros u m2 _ Hn. apply finds_done. by intros ? [= <-].
Qed.

Lemma blocksByNumberT_numbered m ns : finds m (blocksByNumberT ns) (Forall2 numbered ns).
Proof.
  assert (∀ m1, finds m1 (mapT blockOfT ns) (Forall2 numbered ns)) as Hone.
  { intros m1. apply finds_map. intros n m2 _ _. apply blockOfT_numbered. }
  intros r m' ([] & H)%may_end_inv; revert r m' H; [exact (Hone m)|]. apply (finds_catch _ _ _ (Forall2 numbered ns)).
  - unfold batchBlocksT. eapply finds_bind; [apply callBatchT_length|]. intros raws m1 _ Hlen.
    rewrite length_fmap in Hlen. apply finds_done. intros bs. by apply batchedBlocks_numbered.
  - intros e m1 _. destruct e; try apply finds_throw. intros r m' H%may_end_inv. exact (Hone m1 r m' H).
Qed.

Lemma getLogsT_page m address topic0 from to :
  finds m (getLogsT address topic0 from to) (page_ok address topic0 from to).
Proof.
  unfold getLogsT. eapply finds_bind; [apply finds_any|]. intros raw m1 _ _.
  eapply finds_bind; [apply finds_any|]. intros ws m2 _ _.
  eapply finds_bind; [by apply (finds_done _ _ (λ ls, traverse (filteredLog address topic0 from to) ws = Ok ls))|].
  intros ls m3 _ Hls. apply finds_done. intros ? [= <-]. eapply sorted_page. exact Hls.
Qed.

(** ** One that tells the truth *)

Section truth.
Context (W : World) (HW : world_ok W).
Hypothesis Htrue : truthful W server i.

Lemma callOneT_true m q : finds m (callOneT q) (raw_true W q).
Proof using Htrue.
  unfold callOneT. eapply finds_bind; [apply newRequestT_of|]. intros req m1 _ <-.
  eapply finds_bind; [apply roundTripT_sent|]. intros body m2 _ [clock Hb].
  destruct body; try apply finds_throw. apply finds_done. intros raw [Hn ->]%responseResult_Ok. by apply (Htrue _ _ _ Hb).
Qed.

Lemma callBatchT_true m qs : hi - m ≤ 2 ^ 64 → finds m (callBatchT qs) (Forall2 (raw_true W) qs).
Proof using Htrue.
  intros Hm. unfold callBatchT. eapply finds_bind.
  { intros r m' H a Ha. apply (conj (finds_map m newRequestT (λ q req, rq_Question req = q) qs (λ q m1 _ _, newRequestT_of m1 q) r m' H a Ha)
      (newRequestsT_nodup m qs Hm r m' H a Ha)). }
  intros reqs m1 _ [Hreqs Hnodup]. eapply finds_bind.
  { apply finds_catch; [apply roundTripT_sent|]. intros e m2 _. destruct e; apply finds_throw. }
  intros body m2 _ [clock Hb]. destruct body as [r|rs| |]; try apply finds_throw.
  - destruct (rr_Error r) as [[code message]|]; apply finds_throw.
  - apply finds_done. intros raws. apply batchResults_true; [done..|]. by apply (Htrue _ _ _ Hb).
  - apply finds_done. intros raws. by apply batchResults_null.
Qed.

Lemma chainIdOfT_true m : finds m chainIdOfT (λ n, n = wo_chainID W).
Proof using Htrue.
  unfold chainIdOfT. eapply finds_bind; [apply callOneT_true|]. intros raw m1 _ Hraw.
  eapply finds_bind; [apply finds_done, unmarshalString_Ok|]. intros s m2 _ ->.
  apply finds_done. intros n Hn. by eapply (rt_id _ _ _ Hraw).
Qed.

Lemma blockByTagT_true m n : 0 ≤ n ≤ wo_head W → finds m (blockByTagT (quantity n)) (λ b, b = wo_block W n).
Proof using Htrue.
  intros Hn. unfold blockByTagT. eapply finds_bind; [apply callOneT_true|]. intros raw m1 _ Hraw.
  eapply finds_bind; [apply finds_done, unmarshalBlock_Ok|]. intros w m2 _ ->.
  apply finds_done. intros b Hb. by eapply (rt_block _ _ _ Hraw).
Qed.

Lemma blockOfT_true m n : 0 ≤ n ≤ wo_head W → finds m (blockOfT n) (λ b, b = wo_block W n).
Proof using Htrue.
  intros Hn. unfold blockOfT. eapply finds_bind; [by apply blockByTagT_true|]. intros b m1 _ Hb.
  eapply finds_bind; [apply finds_any|]. intros _ m2 _ _. apply finds_done. by intros ? [= <-].
Qed.

Lemma blocksByNumberT_true m ns :
  Forall (λ n, 0 ≤ n ≤ wo_head W) ns → hi - m ≤ 2 ^ 64 →
  finds m (blocksByNumberT ns) (λ bs, bs = wo_block W <$> ns).
Proof using Htrue.
  intros Hns Hm. assert (∀ m1, finds m1 (mapT blockOfT ns) (λ bs, bs = wo_block W <$> ns)) as Hone.
  { intros m1. eapply finds_mono; [apply (finds_map _ _ (λ n b, b = wo_block W n))|apply headers_eq].
    intros n m2 Hn _. rewrite Forall_forall in Hns. by apply blockOfT_true, Hns. }
  intros r m' ([] & H)%may_end_inv; revert r m' H; [exact (Hone m)|]. apply (finds_catch _ _ _ (λ bs, bs = wo_block W <$> ns)).
  - unfold batchBlocksT. eapply finds_bind; [by apply callBatchT_true|]. intros raws m1 _ Hraws.
    apply finds_done. intros bs. by apply batchedBlocks_true.
  - intros e m1 _. destruct e; try apply finds_throw. intros r m' H%may_end_inv. exact (Hone m1 r m' H).
Qed.

Lemma getLogsT_true m address topic0 from to :
  0 ≤ from ≤ to → to ≤ wo_head W →
  finds m (getLogsT address topic0 from to) (λ ls, ls = logs_of W address topic0 from to).
Proof using HW Htrue.
  intros Hfrom Hto. unfold getLogsT. eapply finds_bind; [apply callOneT_true|]. intros raw m1 _ Hraw.
  eapply finds_bind; [apply finds_done, unmarshalLogs_Ok|]. intros ws m2 _ ->.
  eapply finds_bind; [by apply (finds_done _ _ (λ ls, traverse (filteredLog address topic0 from to) ws = Ok ls))|].
  intros ls m3 _ Hls. apply finds_done. intros ? [= <-]. eapply page_true; [..|exact Hls]; done.
Qed.

Lemma ethCallAtT_true m to data at_ :
  0 ≤ at_ ≤ wo_head W → finds m (ethCallAtT to data at_) (λ out, out = wo_call W to data at_).
Proof using Htrue.
  intros Hat. unfold ethCallAtT. eapply finds_bind; [apply callOneT_true|]. intros raw m1 _ Hraw.
  eapply finds_bind; [apply finds_done, unmarshalString_Ok|]. intros s m2 _ ->.
  apply finds_done. intros out Hout. by eapply (rt_call _ _ _ Hraw).
Qed.

(** *** And answers *)

Context (Hhelp : helpful W server i) (Hprompt : prompt server i).

Lemma settles_at_once post (P : httpReply → Prop) clock : settles server i post P → P (server i clock post).
Proof using Hprompt.
  intros Hs. destruct (Hs clock) as ([|k] & _ & HP & Hbefore); [by rewrite Nat.add_0_r in HP|].
  destruct (Hbefore 0%nat ltac:(lia)) as (status & body & Hr & Hst). apply Hprompt in Hr. lia.
Qed.

Lemma roundTripT_settles m post (P : httpReply → Prop) :
  settles server i post P → only m (roundTripT post) (λ r _, ∃ reply, r = settled reply ∧ P reply).
Proof using Hprompt.
  intros Hs. apply (only_catch _ _ _ (λ r _, (∃ reply, r = settled reply ∧ P reply) ∧ ∀ status, r ≠ Err (errRetryable status))).
  - intros r m' (clock & [-> _]%may_end_inv)%may_end_inv.
    pose proof (settles_at_once post P clock Hs) as HP. pose proof (Hprompt clock post) as Hp.
    assert (exchanged (server i clock post) = settled (server i clock post)) as ->.
    { unfold exchanged, settled. destruct (server i clock post) as [status body|]; [|done]. specialize (Hp _ _ eq_refl).
      destruct (status =? 200); [done|]. cbn [negb]. by rewrite (proj2 (Z.eqb_neq status 429)), (proj2 (Z.leb_gt 500 status)) by lia. }
    split; [by eexists|]. intros status. unfold settled. destruct (server i clock post) as [st b|]; [|done]. by destruct (st =? 200).
  - intros e m1 _ [He Hne]. destruct e; try by apply only_done. by edestruct Hne.
  - by intros a m1 [? _].
  - by intros x m1 [? _].
Qed.

Lemma callOneT_helpful m q : asked W q →
  only m (callOneT q) (λ r _, ∃ resp, r = responseResult resp ∧ (reply_answers W q resp ∨ reply_refuses q resp)).
Proof using Hhelp Hprompt.
  intros Hask. intros r m' (m1 & Hm1 & H)%may_end_inv. revert r m' H.
  eapply (only_bind _ _ _ (λ r _, ∃ resp, r = Ok (bodySingle resp) ∧ (reply_answers W q resp ∨ reply_refuses q resp))).
  - eapply only_mono; [apply roundTripT_settles, (hp_one _ _ _ Hhelp (mkRequest (u64 (m1 + 1)) q)), Hask|].
    intros r m' _ (reply & -> & resp & -> & Hr). by exists resp.
  - intros body m2 _ (resp & [= ->] & Hr). apply only_done. intros m3 _. by exists resp.
  - by intros e m2 (resp & ? & _).
  - by intros x m2 (resp & ? & _).
Qed.

(** A thread that succeeds, however it is interfered with. *)
Definition succeeds {A} (m : Z) (t : thread A) (P : A → Prop) : Prop := only m t (λ r _, ∃ a, r = Ok a ∧ P a).

Lemma succeeds_bind {A B} m (t : thread A) (f : A → thread B) (P : A → Prop) (Q : B → Prop) :
  succeeds m t P → (∀ a m1, m ≤ m1 → P a → succeeds m1 (f a) Q) → succeeds m (t ≫= f) Q.
Proof using Type.
  intros Ht Hf. eapply only_bind; [exact Ht|..].
  - intros a m1 Hm (a' & [= <-] & HP). by apply Hf.
  - by intros e m1 (a & ? & _).
  - by intros x m1 (a & ? & _).
Qed.

Lemma succeeds_done {A} m (a : A) (P : A → Prop) : P a → succeeds m (Done (Ok a)) P.
Proof using Type. intros HP. apply only_done. intros m' _. by exists a. Qed.

Lemma succeeds_map {A B} m (f : A → thread B) l :
  (∀ x m1, x ∈ l → succeeds m1 (f x) (λ _, True)) → succeeds m (mapT f l) (λ _, True).
Proof using Type.
  revert m. induction l as [|x l IH]; intros m Hf; cbn [mapT]; [by apply succeeds_done|].
  eapply succeeds_bind; [apply Hf; by constructor|]. intros y m1 _ _.
  eapply succeeds_bind; [apply IH; intros; apply Hf; by constructor|]. intros ys m2 _ _. by apply succeeds_done.
Qed.

Lemma blockByTagT_succeeds m n : 0 ≤ n ≤ wo_head W → succeeds m (blockByTagT (quantity n)) (λ b, b = wo_block W n).
Proof using Htrue Hhelp Hprompt.
  intros Hn. assert (succeeds m (blockByTagT (quantity n)) (λ _, True)) as Hs.
  - eapply (succeeds_bind _ _ _ (λ raw, ∃ w b, raw = rawBlock w ∧ decodeBlock w = Ok b)).
    + eapply only_mono; [apply callOneT_helpful; by constructor|].
      intros r m' _ (resp & -> & [[Hnone Hr]|Hr]).
      * destruct (ra_block _ _ _ Hr n Hn eq_refl) as (w & b & Hraw & Hb). exists (rr_Result resp).
        split; [unfold responseResult; by rewrite Hnone, Hraw|by exists w, b].
      * by destruct Hr as (? & ? & ? & ? & ? & ? & ? & ? & _ & _ & _ & _ & _ & ?).
    + intros raw m1 _ (w & b & -> & Hb). eapply (succeeds_bind _ _ _ (λ x, x = w)); [by apply succeeds_done|].
      intros ? m2 _ ->. rewrite Hb. by apply succeeds_done.
  - intros r m' H. destruct (Hs r m' H) as (b & -> & _). exists b. split; [done|]. by eapply blockByTagT_true.
Qed.

Lemma blockOfT_succeeds m n : 0 ≤ n ≤ wo_head W → succeeds m (blockOfT n) (λ _, True).
Proof using HW Htrue Hhelp Hprompt.
  intros Hn. unfold blockOfT. eapply succeeds_bind; [by apply blockByTagT_succeeds|]. intros b m1 _ ->.
  unfold isBlock. rewrite (proj2 (wk_blocks _ HW n Hn)), Z.eqb_refl. cbn [negb].
  eapply (succeeds_bind _ _ _ (λ _, True)); [by apply succeeds_done|]. intros; by apply succeeds_done.
Qed.

(** A batch of headers is answered in full or refused. *)
Lemma callBatchT_outcome m ns : Forall (λ n, 0 ≤ n ≤ wo_head W) ns → hi - m ≤ 2 ^ 64 →
  only m (callBatchT ((λ n, ethGetBlockByNumber (quantity n)) <$> ns)) (λ r _,
    (∃ raws, r = Ok raws ∧ Forall2 (λ n raw, raw_answers W (ethGetBlockByNumber (quantity n)) raw) ns raws) ∨
    ∃ cause, r = Err (errBatchRefused cause)).
Proof using Hhelp Hprompt.
  intros Hns Hm. set (qs := (λ n, ethGetBlockByNumber (quantity n)) <$> ns).
  eapply (only_bind _ _ _ (λ r _, ∃ reqs, r = Ok reqs ∧ Forall2 (λ q req, rq_Question req = q) qs reqs ∧ NoDup (rq_ID <$> reqs))).
  { assert (succeeds m (mapT newRequestT qs) (λ _, True)) as Hs.
    { apply succeeds_map. intros q m1 _ r m' (m2 & _ & [-> _]%may_end_inv)%may_end_inv. by eexists. }
    intros r m' H. destruct (Hs r m' H) as (reqs & -> & _). exists reqs. split; [done|]. split.
    - by apply (finds_map m newRequestT (λ q req, rq_Question req = q) qs (λ q m1 _ _, newRequestT_of m1 q) _ _ H).
    - by apply (newRequestsT_nodup m qs Hm _ _ H). }
  2-3: by intros ? ? (? & ? & _).
  intros reqs m1 Hm1 (reqs' & [= <-] & Hreqs & Hnodup).
  assert (Forall (λ req, asked_header W (rq_Question req)) reqs) as Htags.
  { apply Forall_forall. intros req [k Hk]%list_elem_of_lookup. destruct (Forall2_lookup_r _ _ _ _ _ Hreqs Hk) as (q & Hq & ->).
    apply list_elem_of_lookup_2, list_elem_of_fmap in Hq as (n & -> & Hn). exists n. split; [|done].
    rewrite Forall_forall in Hns. by apply Hns. }
  eapply (only_bind _ _ _ (λ r _, (∃ rs, r = Ok (bodyArray rs) ∧ ∀ req, req ∈ reqs → (∃ r, r ∈ rs ∧ rr_ID r = rq_ID req) ∧
       ∀ r, r ∈ rs → rr_ID r = rq_ID req → reply_answers W (rq_Question req) r) ∨
    (∃ cause, r = Err (errBatchRefused cause)) ∨ ∃ resp e, r = Ok (bodySingle resp) ∧ rr_Error resp = Some e)).
  - eapply only_catch; [apply roundTripT_settles, (hp_batch _ _ _ Hhelp reqs Htags)|..].
    + intros e m2 _ (reply & He & [(rs & -> & _)|[(status & body & -> & Hst & _)|(resp & e' & -> & _)]]); [done| |done].
      cbn [settled] in He. rewrite (proj2 (Z.eqb_neq status 200)) in He by lia. injection He as ->.
      apply only_done. intros m3 _. right. left. by eexists.
    + intros body m2 (reply & He & [(rs & -> & Hrs)|[(status & b & -> & Hst & _)|(resp & e' & -> & He')]]).
      * injection He as ->. left. exists rs. split; [done|by apply Hrs].
      * cbn [settled] in He. by rewrite (proj2 (Z.eqb_neq status 200)) in He by lia.
      * injection He as ->. right. right. by exists resp, e'.
    + intros x m2 (reply & He & _). unfold settled in He. destruct reply as [st b|]; [|done]. by destruct (st =? 200).
  - intros body m2 _ [(rs & [= ->] & Hrs)|[(cause & [=])|(resp & [code message] & [= ->] & He)]].
    + destruct (batchResults_answered W ns reqs rs Hns Hreqs Hrs) as (raws & -> & Hall). apply only_done. intros m3 _.
      left. by exists raws.
    + rewrite He. apply only_done. intros m3 _. right. by eexists.
  - intros e m2 [(rs & [=] & _)|[(cause & [= ->])|(resp & e' & [=] & _)]]. right. by eexists.
  - by intros x m2 [(rs & [=] & _)|[(cause & [=])|(resp & e' & [=] & _)]].
Qed.

Lemma blocksByNumberT_succeeds m ns : Forall (λ n, 0 ≤ n ≤ wo_head W) ns → hi - m ≤ 2 ^ 64 →
  succeeds m (blocksByNumberT ns) (λ bs, bs = wo_block W <$> ns).
Proof using All.
  intros Hns Hm. assert (∀ m1, succeeds m1 (mapT blockOfT ns) (λ _, True)) as Hone.
  { intros m1. apply succeeds_map. intros n m2 Hn. rewrite Forall_forall in Hns. by apply blockOfT_succeeds, Hns. }
  assert (succeeds m (blocksByNumberT ns) (λ _, True)) as Hs.
  - intros r m' ([] & H)%may_end_inv; revert r m' H; [exact (Hone m)|]. eapply only_catch.
    + eapply (only_bind _ _ _ (λ r _, (∃ raws, r = Ok raws ∧ Forall2 (λ n raw, raw_answers W (ethGetBlockByNumber (quantity n)) raw) ns raws ∧
          Forall2 (raw_true W) ((λ n, ethGetBlockByNumber (quantity n)) <$> ns) raws) ∨ ∃ cause, r = Err (errBatchRefused cause))
        (λ r _, (∃ bs, r = Ok bs) ∨ ∃ cause, r = Err (errBatchRefused cause))).
      * intros r m' H. destruct (callBatchT_outcome m ns Hns Hm r m' H) as [(raws & -> & Hraws)|?]; [|by right].
        left. exists raws. split_and!; [done..|]. by apply (callBatchT_true m _ Hm _ _ H).
      * intros raws m1 _ [(raws' & [= <-] & Hans & Htr)|(cause & [=])].
        destruct (batchedBlocks_answered W HW ns raws Hns Hans Htr) as (bs & ->). apply only_done. intros m2 _. left. by exists bs.
      * intros e m1 [(raws & [=] & _)|(cause & [= ->])]. right. by eexists.
      * intros x m1 [(raws & [=] & _)|(cause & [=])].
    + intros e m1 _ [(bs & [=])|(cause & [= ->])]. intros r m' H%may_end_inv. exact (Hone m1 r m' H).
    + intros bs m1 _. by exists bs.
    + intros x m1 [(bs & [=])|(cause & [=])].
  - intros r m' H. destruct (Hs r m' H) as (bs & -> & _). exists bs. split; [done|]. by apply (blocksByNumberT_true m ns Hns Hm _ _ H).
Qed.
End truth.
End among.
