(* ===== verification/FanOut.v ===== *)
(** * chain: goroutines at once

    [firstFailure], [crossCheck], [eachEndpoint], [inParallel] and [Timestamps] of
    [reader.go] with the goroutines of a fan-out interleaved step by step. A fan-out is one goroutine per
    endpoint; the first error it records cancels the others, whose exchanges may from then
    on be given up. A pool is a fixed number of workers that are handed jobs, each a
    fan-out, over a channel; the first job to fail cancels all of it. Which goroutine moves
    next, which ready case a [select] takes and whether a cancelled exchange still
    completes are the turns' to say. *)
From S2P Require Import Prelude Sorts Bytes Text Merkle Twab Chain StateMonad Wire Reader ChainReader Threads.

Open Scope Z_scope.

(** ** firstFailure *)

(** What stops a fan-out: an error returned, or a panic, which ends the process. *)
Inductive failure := failedWith (e : chainError) | panicked (x : fault).

Definition failureResult {A} (f : failure) : Res chainError A :=
  match f with failedWith e => Err e | panicked x => Fault x end.

(** [firstFailure.record]: the first is kept, and the context cancelled with it. *)
Definition recordFailure (f : option failure) (x : failure) : option failure :=
  match f with None => Some x | Some _ => f end.

Definition hasFailed (f : option failure) : bool := match f with None => false | Some _ => true end.

(** ** eachEndpoint *)

(** A goroutine still reading, one whose answer is written at its index, and one that
    recorded an error and returned. *)
Inductive goroutine (A : Type) := Running (t : thread A) | Answered (a : A) | Quit.
Arguments Running {A} t.
Arguments Answered {A} a.
Arguments Quit {A}.

Record fan (A : Type) := mkFan { fa_goroutines : list (goroutine A); fa_failed : option failure }.
Arguments mkFan {A} _ _.
Arguments fa_goroutines {A} _.
Arguments fa_failed {A} _.

(** What a goroutine does next: a step of its read, an exchange given up because the
    context is done, or its return. *)
Inductive move := Advance | Interrupt (reached : bool) | Return.
#[global] Instance move_eq_dec : EqDecision move.
Proof. solve_decision. Defined.

Definition isRunning {A} (g : goroutine A) : bool := match g with Running _ => true | _ => false end.

Section fan.
Context {A : Type} (server : nat → nat → rpcPost → httpReply).

(** [go func() ...] for each of [n] endpoints. *)
Definition startFan (n : nat) (read : nat → thread A) : fan A := mkFan ((λ i, Running (read i)) <$> seq 0 n) None.

Definition setGoroutine (i : nat) (g : goroutine A) (f : fan A) : fan A := mkFan (<[i := g]> (fa_goroutines f)) (fa_failed f).

(** A goroutine's return: its answer kept, or its error recorded. *)
Definition returned (i : nat) (r : Res chainError A) (f : fan A) : fan A :=
  match r with
  | Ok a => setGoroutine i (Answered a) f
  | Err e => mkFan (<[i := Quit]> (fa_goroutines f)) (recordFailure (fa_failed f) (failedWith (errEndpoint i e)))
  | Fault x => mkFan (<[i := Quit]> (fa_goroutines f)) (recordFailure (fa_failed f) (panicked x))
  end.

(** One move of goroutine [i]; [cancelled] says that the caller's context is done. *)
Definition fanMove (cancelled : bool) (i : nat) (mv : move) (f : fan A) (w : wireState) : option (fan A * wireState) :=
  match fa_goroutines f !! i with
  | Some (Running t) =>
      match mv with
      | Advance => '(t, w) ← advance server i t w; Some (setGoroutine i (Running t) f, w)
      | Interrupt reached =>
          if cancelled || hasFailed (fa_failed f)
          then '(t, w) ← interrupt reached t w; Some (setGoroutine i (Running t) f, w)
          else None
      | Return => match t with Done r => Some (returned i r f, w) | _ => None end
      end
  | _ => None
  end.

Fixpoint fanMoves (mvs : list (nat * move)) (f : fan A) (w : wireState) : option (fan A * wireState) :=
  match mvs with
  | [] => Some (f, w)
  | (i, mv) :: mvs => '(f, w) ← fanMove false i mv f w; fanMoves mvs f w
  end.

(** [wg.Wait] returns. *)
Definition fanDone (f : fan A) : bool := forallb (λ g, negb (isRunning g)) (fa_goroutines f).

(** [failed.result], or the answers. *)
Definition fanResult (f : fan A) : Res chainError (list A) :=
  match fa_failed f with
  | Some x => failureResult x
  | None => traverse (λ g, match g with Answered a => Ok a | _ => Fault GoPanic end) (fa_goroutines f)
  end.

(** What [crossCheck] makes of the answers. *)
Definition agreement (canonical : A → list byte) (answers : list A) : Res chainError A :=
  match answers with
  | [] => Fault GoPanic
  | first :: rest => _ ← agreeFrom canonical (canonical first) 1 rest; mret first
  end.
End fan.

(** ** inParallel *)

(** A worker at the channel, at a job, or gone. *)
Inductive worker (A : Type) := Waiting | Working (job : nat) (f : fan A) | Gone.
Arguments Waiting {A}.
Arguments Working {A} job f.
Arguments Gone {A}.

Record pool (A B : Type) := mkPool {
  po_wire : wireState;
  po_sent : nat;
  po_workers : list (worker A);
  po_out : B;
  po_failed : option failure;
}.
Arguments mkPool {A B} _ _ _ _ _.
Arguments po_wire {A B} _.
Arguments po_sent {A B} _.
Arguments po_workers {A B} _.
Arguments po_out {A B} _.
Arguments po_failed {A B} _.

(** The sender hands its next index to worker [k]; it passes the index over, the context
    being done; goroutine [i] of the job of worker [k] moves; the job of worker [k] ends;
    worker [k] finds the channel closed. *)
Inductive poolTurn := takeJob (k : nat) | skipJob | moveJob (k i : nat) (mv : move) | endJob (k : nat) | leavePool (k : nat).
#[global] Instance poolTurn_eq_dec : EqDecision poolTurn.
Proof. solve_decision. Defined.

Definition isGone {A} (k : worker A) : bool := match k with Gone => true | _ => false end.

Section pool.
Context {A B : Type} (server : nat → nat → rpcPost → httpReply) (endpoints n : nat).
(** What goroutine [i] of job [j] reads, and what the job does with the answers: the
    comparison, and the write to the shared variable under its mutex. *)
Context (read : nat → nat → thread A) (finish : B → nat → list A → Res chainError B).

Definition newPool (concurrency : nat) (b : B) (w : wireState) : pool A B :=
  mkPool w 0 (replicate (Nat.min n concurrency) Waiting) b None.

(** The end of job [j]: the worker comes back for another, or records and returns. *)
Definition jobEnd (k j : nat) (f : fan A) (p : pool A B) : pool A B :=
  let gone x := mkPool (po_wire p) (po_sent p) (<[k := Gone]> (po_workers p)) (po_out p) (recordFailure (po_failed p) x) in
  match fanResult f ≫= finish (po_out p) j with
  | Ok out => mkPool (po_wire p) (po_sent p) (<[k := Waiting]> (po_workers p)) out (po_failed p)
  | Err e => gone (failedWith e)
  | Fault x => gone (panicked x)
  end.

Definition takePoolTurn (t : poolTurn) (p : pool A B) : option (pool A B) :=
  match t with
  | takeJob k =>
      match po_workers p !! k with
      | Some Waiting =>
          if (po_sent p <? n)%nat then
            Some (mkPool (po_wire p) (S (po_sent p)) (<[k := Working (po_sent p) (startFan endpoints (read (po_sent p)))]> (po_workers p))
              (po_out p) (po_failed p))
          else None
      | _ => None
      end
  | skipJob =>
      if ((po_sent p <? n)%nat && hasFailed (po_failed p)) then
        Some (mkPool (po_wire p) (S (po_sent p)) (po_workers p) (po_out p) (po_failed p))
      else None
  | moveJob k i mv =>
      match po_workers p !! k with
      | Some (Working j f) =>
          '(f, w) ← fanMove server (hasFailed (po_failed p)) i mv f (po_wire p);
          Some (mkPool w (po_sent p) (<[k := Working j f]> (po_workers p)) (po_out p) (po_failed p))
      | _ => None
      end
  | endJob k =>
      match po_workers p !! k with
      | Some (Working j f) => if fanDone f then Some (jobEnd k j f p) else None
      | _ => None
      end
  | leavePool k =>
      match po_workers p !! k with
      | Some Waiting =>
          if (po_sent p =? n)%nat then
            Some (mkPool (po_wire p) (po_sent p) (<[k := Gone]> (po_workers p)) (po_out p) (po_failed p))
          else None
      | _ => None
      end
  end.

Fixpoint takePoolTurns (ts : list poolTurn) (p : pool A B) : option (pool A B) :=
  match ts with
  | [] => Some p
  | t :: ts => p ← takePoolTurn t p; takePoolTurns ts p
  end.

(** The loop is over, and [wg.Wait] returns. *)
Definition poolEnded (p : pool A B) : bool := (po_sent p =? n)%nat && forallb isGone (po_workers p).

Definition poolResult (p : pool A B) : Res chainError B :=
  match po_failed p with
  | Some x => failureResult x
  | None => Ok (po_out p)
  end.
End pool.

(** ** Timestamps *)

Section stamps.
Context (server : nat → nat → rpcPost → httpReply) (r : chainReader) (blocks : list Z).

Definition stampBatches : list (list Z) :=
  let wanted := Compact (sort_by Z.compare blocks) in
  batchesOf (length wanted) HeaderBatch wanted.

(** What an endpoint is asked for batch [j]. *)
Definition stampRead (j i : nat) : thread (list Block) :=
  match index stampBatches j with
  | Ok numbers => blocksByNumberT numbers
  | Err e => Done (Err e)
  | Fault x => Done (Fault x)
  end.

Definition stampFinish (out : gmap Z Z) (j : nat) (answers : list (list Block)) : Res chainError (gmap Z Z) :=
  headers ← agreement canonicalBlocks answers;
  mret (foldl (λ out h, <[b_Number h := b_Timestamp h]> out) out headers).

(** [Reader.Timestamps], as it starts and as it goes on. *)
Definition stampPool (w : wireState) : pool (list Block) (gmap Z Z) :=
  newPool (length stampBatches) (Z.to_nat (cr_concurrency r)) ∅ w.

Definition stampTurns : list poolTurn → pool (list Block) (gmap Z Z) → option (pool (list Block) (gmap Z Z)) :=
  takePoolTurns server (endpoints r) (length stampBatches) stampRead stampFinish.
End stamps.
