(* ===== verification/FanOutSpec.v ===== *)
(** * What a fan-out can come to

    The invariant of interleaved goroutines: until the first failure every goroutine is
    where its read can be with none of its exchanges given up, so the answers of a fan-out
    that succeeds, and the failure of one that does not, are the endpoints' own. *)
From S2P Require Import Prelude Sorts Bytes Text Merkle Twab Chain StateMonad Wire Reader ChainReader WireSpec Honest ReaderSpec ReaderTruth ReaderLive Threads ThreadSpec FanOut.

Open Scope Z_scope.

(** ** The endpoints' counters *)

(** What every endpoint's [nextID] has come to. *)
Definition counted (c : nat → Z) (w : wireState) : Prop := ∀ i, u64 (ep_nextID (endpointOf i w)) = u64 (c i).

(** One step on, at most. *)
Definition next (c c' : nat → Z) : Prop := ∀ i, c i ≤ c' i ≤ c i + 1.

Lemma next_refl c : next c c.
Proof. intros i. lia. Qed.

Lemma endpointOf_setEndpoint i j p w : endpointOf j (setEndpoint i p w) = if decide (i = j) then p else endpointOf j w.
Proof.
  unfold endpointOf, setEndpoint. cbn. case_decide as H; [subst; by rewrite lookup_insert_eq|by rewrite lookup_insert_ne].
Qed.

Lemma u64_u64_add x y k : u64 x = u64 y → u64 (u64 (x + k)) = u64 (y + k).
Proof.
  unfold u64. intros H. rewrite Z.mod_mod by lia. by rewrite <-Z.add_mod_idemp_l, H, Z.add_mod_idemp_l by lia.
Qed.

Section steps.
Context (server : nat → nat → rpcPost → httpReply) (hi : nat → Z).

(** Where a thread can be, as far as how it may end tells. *)
Definition leads {A} (c : nat → Z) (i : nat) (m : Z) (t0 t : thread A) : Prop :=
  ∀ r m', may_end server i (hi i) (c i) t r m' → may_end server i (hi i) m t0 r m'.

Lemma leads_later {A} c c' i m (t0 t : thread A) : c i ≤ c' i → leads c i m t0 t → leads c' i m t0 t.
Proof. intros Hc Ht r m' H. apply Ht. by eapply may_end_later. Qed.

Lemma advance_leads {A} c i (t t' : thread A) w w' :
  counted c w → c i < hi i → advance server i t w = Some (t', w') →
  ∃ c', next c c' ∧ counted c' w' ∧ ∀ m t0, leads c i m t0 t → leads c' i m t0 t'.
Proof.
  intros Hc Hi. destruct t as [r|q k|post k|k|k]; cbn [advance newRequest]; [done|..].
  - cbn zeta. intros [= <- <-]. exists (λ j, if decide (i = j) then c i + 1 else c j). split_and!.
    + intros j. case_decide; subst; lia.
    + intros j. rewrite endpointOf_setEndpoint. case_decide; [|apply Hc]. cbn [ep_nextID].
      apply u64_u64_add, Hc.
    + intros m t0 Hk r m' H. apply Hk. rewrite decide_True in H by done. apply (may_request _ _ _ _ (c i)); [done..|].
      assert (u64 (ep_nextID (endpointOf i w) + 1) = u64 (c i + 1)) as <-; [|done].
      specialize (Hc i). unfold u64 in *. by rewrite <-Z.add_mod_idemp_l, Hc, Z.add_mod_idemp_l by lia.
  - rewrite attempt_exchanged. intros [= <- <-]. exists c. split; [apply next_refl|]. split; [exact Hc|].
    intros m t0 Hk r m' H. apply Hk. by eapply may_post.
  - intros [= <- <-]. exists c. split; [apply next_refl|]. split; [exact Hc|].
    intros m t0 Hk r m' H. apply Hk. by eapply may_read.
  - intros [= <- <-]. exists c. split; [apply next_refl|]. split.
    + intros j. rewrite endpointOf_setEndpoint. case_decide; [subst|]; apply Hc.
    + intros m t0 Hk r m' H. apply Hk. by eapply may_set.
Qed.

Lemma interrupt_counted {A} c reached (t t' : thread A) w w' :
  counted c w → interrupt reached t w = Some (t', w') → counted c w'.
Proof. intros Hc. destruct t; cbn [interrupt]; try done. intros [= _ <-]. by destruct reached. Qed.
End steps.

(** ** One fan-out *)

Section fan.
Context {A : Type} (server : nat → nat → rpcPost → httpReply) (hi c0 : nat → Z) (n : nat) (read : nat → thread A).

(** What an endpoint's read may come to. *)
Definition ends (i : nat) (r : Res chainError A) : Prop := (i < n)%nat ∧ ∃ m', may_end server i (hi i) (c0 i) (read i) r m'.

(** The endpoint that is named did fail, by itself. *)
Inductive blamed : failure → Prop :=
  | blamed_error i e : ends i (Err e) → blamed (failedWith (errEndpoint i e))
  | blamed_panic i x : ends i (Fault x) → blamed (panicked x).

Definition goroutine_ok (c : nat → Z) (i : nat) (g : goroutine A) : Prop :=
  match g with
  | Running t => leads server hi c i (c0 i) (read i) t
  | Answered a => ends i (Ok a)
  | Quit => False
  end.

Record fan_ok (c : nat → Z) (f : fan A) : Prop := FanOk {
  fo_length : length (fa_goroutines f) = n;
  fo_going : fa_failed f = None → ∀ i g, fa_goroutines f !! i = Some g → goroutine_ok c i g;
  fo_failed : ∀ x, fa_failed f = Some x → blamed x;
}.

Lemma startFan_ok c : (∀ i, c0 i ≤ c i) → fan_ok c (startFan n read).
Proof.
  intros Hc. split; cbn.
  - by rewrite length_fmap, length_seq.
  - intros _ i g Hg. apply list_lookup_fmap_Some in Hg as (j & -> & Hj). apply lookup_seq in Hj as [-> _].
    intros r m'. by apply may_end_later.
  - done.
Qed.

Lemma fan_later c c' f : next c c' → fan_ok c f → fan_ok c' f.
Proof.
  intros Hn [Hl Hg Hf]. split; [done| |done]. intros Hnone i g Hi. specialize (Hg Hnone i g Hi).
  destruct g; [|done..]. eapply leads_later; [|exact Hg]. apply Hn.
Qed.

Lemma fan_set c i g f :
  fan_ok c f → (fa_failed f = None → (i < n)%nat → goroutine_ok c i g) → fan_ok c (setGoroutine i g f).
Proof.
  intros [Hl Hg Hf] Hi. split; cbn; [by rewrite length_insert|..]; [|done]. intros Hnone j g' Hj.
  apply list_lookup_insert_Some in Hj as [(-> & -> & Hlt)|[Hne Hj]]; [by apply Hi; [|lia]|by apply Hg].
Qed.

(** A goroutine's error is the first, or not recorded. *)
Lemma fan_quit c i x f :
  fan_ok c f → (fa_failed f = None → blamed x) → fan_ok c (mkFan (<[i := Quit]> (fa_goroutines f)) (recordFailure (fa_failed f) x)).
Proof.
  intros [Hl Hg Hf] Hx. split; cbn; [by rewrite length_insert|..].
  - by destruct (fa_failed f).
  - intros y Hy. destruct (fa_failed f) as [z|]; cbn in Hy; [by apply Hf|]. injection Hy as <-. by apply Hx.
Qed.

Lemma fanMove_ok c cancelled i mv f w f' w' :
  counted c w → (∀ i, c i < hi i) → fanMove server cancelled i mv f w = Some (f', w') →
  ∃ c', next c c' ∧ counted c' w' ∧ (cancelled = false → fan_ok c f → fan_ok c' f').
Proof.
  intros Hc Hhi. unfold fanMove. destruct (fa_goroutines f !! i) as [[t|a|]|] eqn:Hi; [|done..].
  destruct mv as [|reached|].
  - destruct (advance server i t w) as [[t' w1]|] eqn:E; [|done]. intros [= <- <-].
    destruct (advance_leads server hi c i t t' w w1 Hc (Hhi i) E) as (c' & Hn & Hc' & Ht). exists c'. split; [done|]. split; [done|].
    intros _ Hf. apply fan_set; [by eapply fan_later|]. intros Hnone _. apply Ht. by apply (fo_going _ _ Hf Hnone _ _ Hi).
  - destruct (cancelled || hasFailed (fa_failed f)) eqn:Ec; [|done].
    destruct (interrupt reached t w) as [[t' w1]|] eqn:E; [|done]. intros [= <- <-].
    exists c. split; [apply next_refl|]. split; [by eapply interrupt_counted|].
    intros -> Hf. apply fan_set; [done|]. intros Hnone. by rewrite Hnone in Ec.
  - destruct t as [r| | | |]; [|done..]. intros [= <- <-]. exists c. split; [apply next_refl|]. split; [done|].
    intros _ Hf. assert (fa_failed f = None → ends i r) as Hr.
    { intros Hnone. pose proof (fo_going _ _ Hf Hnone _ _ Hi) as Hg. cbn in Hg. split.
      - apply lookup_lt_Some in Hi. by rewrite (fo_length _ _ Hf) in Hi.
      - exists (c i). apply Hg. by constructor. }
    destruct r as [a|e|x]; cbn [returned].
    + by apply fan_set; [|intros Hnone _; apply Hr].
    + apply fan_quit; [done|]. intros Hnone. by constructor; apply Hr.
    + apply fan_quit; [done|]. intros Hnone. by econstructor; apply Hr.
Qed.

(** The answers of a fan-out, every one an endpoint's own. *)
Definition own (answers : list A) : Prop := length answers = n ∧ ∀ i a, answers !! i = Some a → ends i (Ok a).

Lemma fanResult_Ok c f answers : fan_ok c f → fanResult f = Ok answers → own answers.
Proof.
  intros [Hl Hg _]. unfold fanResult. destruct (fa_failed f) as [[e|x]|]; [done..|]. intros H%traverse_Ok.
  specialize (Hg eq_refl). split; [by rewrite <-(Forall2_length _ _ _ H)|].
  intros i a Hi. destruct (Forall2_lookup_r _ _ _ _ _ H Hi) as (g & Hgi & E). destruct g as [|b|]; [done| |done].
  injection E as ->. exact (Hg i (Answered a) Hgi).
Qed.

(** A goroutine that ended with no answer has recorded why. *)
Lemma fanResult_failed c f :
  fan_ok c f → fanDone f = true → (∃ answers, fanResult f = Ok answers) ∨
  ∃ x, fa_failed f = Some x ∧ fanResult f = failureResult x ∧ blamed x.
Proof.
  intros [Hl Hg Hf] Hd. unfold fanResult. destruct (fa_failed f) as [x|] eqn:E; [right; exists x; by split_and!; [| |apply Hf]|].
  left. specialize (Hg eq_refl). unfold fanDone in Hd. rewrite forallb_forall in Hd.
  assert (∀ g, g ∈ fa_goroutines f → ∃ a, g = Answered a) as Hall.
  { intros g Hin. pose proof (Hd g (proj1 (list_elem_of_In _ _) Hin)) as Hr. apply list_elem_of_lookup in Hin as [i Hi].
    specialize (Hg i g Hi). destruct g; [done|by eexists|done]. }
  clear -Hall. induction (fa_goroutines f) as [|g gs IH]; [by exists []|].
  destruct (Hall g) as [a ->]; [by constructor|]. destruct IH as [answers Ha]; [intros; apply Hall; by constructor|].
  exists (a :: answers). by rewrite traverse_cons, Ha.
Qed.

Lemma fanMoves_ok mvs c f w f' w' :
  fan_ok c f → counted c w → (∀ i, c i + Z.of_nat (length mvs) ≤ hi i) → fanMoves server mvs f w = Some (f', w') →
  ∃ c', counted c' w' ∧ fan_ok c' f'.
Proof.
  revert c f w. induction mvs as [|[i mv] mvs IH]; intros c f w Hf Hc Hhi; cbn [fanMoves].
  { intros [= <- <-]. by exists c. }
  destruct (fanMove server false i mv f w) as [[f1 w1]|] eqn:E; [|done]. cbn [mbind option_bind].
  destruct (fanMove_ok c false i mv f w f1 w1 Hc) as (c1 & Hn & Hc1 & Hf1); [|exact E|].
  { intros j. specialize (Hhi j). cbn [length] in Hhi. lia. }
  apply (IH c1); [by apply Hf1|done|]. intros j. specialize (Hhi j). specialize (Hn j). cbn [length] in Hhi. lia.
Qed.
End fan.

(** ** The pool *)

(** What a partial map keeps of a list when one element is replaced. *)
Lemma omap_insert_perm {A B} (f : A → option B) l k x :
  l !! k = Some x → ∃ rest, omap f l ≡ₚ option_list (f x) ++ rest ∧ ∀ y, omap f (<[k := y]> l) ≡ₚ option_list (f y) ++ rest.
Proof.
  revert k. induction l as [|z l IH]; intros [|k] Hk; [done|done|..].
  - injection Hk as ->. exists (omap f l). split; [|intros y]; cbn; [by destruct (f x)|by destruct (f y)].
  - destruct (IH k Hk) as (rest & H1 & H2). exists (option_list (f z) ++ rest).
    split; [|intros y]; cbn; destruct (f z) as [b|]; cbn; rewrite ?H1, ?H2; [apply Permutation_middle|done|apply Permutation_middle|done].
Qed.

Section pool.
Context {A B : Type} (server : nat → nat → rpcPost → httpReply) (hi c0 : nat → Z) (endpoints n : nat).
Context (read : nat → nat → thread A) (finish : B → nat → list A → Res chainError B) (b0 : B).
Abbreviation own := (λ j, own server hi c0 endpoints (read j)).
Abbreviation fan_ok := (λ c j, fan_ok server hi c0 endpoints (read j) c).

(** The jobs [js] ended in this order, each with answers its endpoints gave. *)
Inductive finished : list nat → B → Prop :=
  | finished_nil : finished [] b0
  | finished_snoc js j b answers b' :
      finished js b → own j answers → finish b j answers = Ok b' → finished (js ++ [j]) b'.

(** Why a pool failed: an endpoint did, or the answers to a job would not do. *)
Inductive pool_blamed : failure → Prop :=
  | pool_endpoint j x : (j < n)%nat → blamed server hi c0 endpoints (read j) x → pool_blamed x
  | pool_answers js b j answers e : (j < n)%nat → finished js b → own j answers → finish b j answers = Err e → pool_blamed (failedWith e)
  | pool_panic js b j answers x : (j < n)%nat → finished js b → own j answers → finish b j answers = Fault x → pool_blamed (panicked x).

Definition atJob (k : worker A) : option nat := match k with Working j _ => Some j | _ => None end.

Record pool_ok (c : nat → Z) (p : pool A B) : Prop := PoolOk {
  pk_counted : counted c (po_wire p);
  pk_sent : (po_sent p ≤ n)%nat;
  pk_failed : ∀ x, po_failed p = Some x → pool_blamed x;
  pk_jobs : po_failed p = None → ∀ k j f, po_workers p !! k = Some (Working j f) → (j < n)%nat ∧ fan_ok c j f;
  pk_out : po_failed p = None → ∃ js, finished js (po_out p) ∧ js ++ omap atJob (po_workers p) ≡ₚ seq 0 (po_sent p);
  pk_gone : po_failed p = None → ∀ k, po_workers p !! k = Some Gone → po_sent p = n;
}.

Lemma omap_waiting m : omap atJob (replicate m (@Waiting A)) = [].
Proof. by induction m. Qed.

Lemma newPool_ok concurrency w c : (∀ i, c0 i ≤ c i) → counted c w → pool_ok c (newPool n concurrency b0 w).
Proof.
  intros Hc Hw. split; cbn; [done|lia|done|..].
  - by intros _ k j f [? _]%lookup_replicate.
  - intros _. exists []. split; [constructor|]. by rewrite omap_waiting.
  - by intros _ k [? _]%lookup_replicate.
Qed.

Lemma recordFailure_some f x y : recordFailure f x = Some y → f = Some y ∨ f = None ∧ y = x.
Proof. destruct f; cbn; [by left|]. intros [= <-]. by right. Qed.

(** The three ways a job ends. *)
Lemma jobEnd_ok c k j f p :
  po_workers p !! k = Some (Working j f) → fanDone f = true → pool_ok c p → pool_ok c (jobEnd finish k j f p).
Proof.
  intros Hk Hd Hp. pose proof Hp as [Hw Hs Hf Hj Ho Hg]. unfold jobEnd.
  assert (∀ x, (po_failed p = None → pool_blamed x) →
    pool_ok c (mkPool (po_wire p) (po_sent p) (<[k:=Gone]> (po_workers p)) (po_out p) (recordFailure (po_failed p) x))) as Hgone.
  { intros x Hx. split; cbn; [done|done|..]; [|by destruct (po_failed p)..].
    intros y [Hy|[Hn ->]]%recordFailure_some; [by apply Hf|by apply Hx]. }
  destruct (po_failed p) as [z|] eqn:E.
  { destruct (fanResult f ≫= finish (po_out p) j) as [out|e|x]; [|by apply Hgone..].
    split; cbn; [done|done|..]; by rewrite ?E. }
  destruct (Hj eq_refl k j f Hk) as [Hlt Hfan]. destruct (Ho eq_refl) as (js & Hfin & Hperm).
  destruct (fanResult_failed _ _ _ _ _ _ _ Hfan Hd) as [[answers Ha]|(x & _ & Hx & Hbl)].
  - pose proof (fanResult_Ok _ _ _ _ _ _ _ _ Hfan Ha) as Hown. rewrite Ha. cbn [mbind Res_bind].
    destruct (finish (po_out p) j answers) as [out|e|x] eqn:Ef; [|apply Hgone; intros _; by econstructor..].
    destruct (omap_insert_perm atJob _ _ _ Hk) as (rest & H1 & H2). split; cbn; [done|done|done|..].
    + intros _ k' j' f' [(_ & Heq & _)|[_ Hk']]%list_lookup_insert_Some; [done|].
      by eapply (pk_jobs c p Hp E).
    + intros _. exists (js ++ [j]). split; [by econstructor|]. rewrite H2, <-Hperm, H1. cbn. by rewrite <-app_assoc.
    + intros _ k' [(_ & Heq & _)|[_ Hk']]%list_lookup_insert_Some; [done|]. by eapply Hg.
  - assert (pool_blamed x) as Hb by by econstructor. rewrite Hx. destruct x as [e|x]; by apply Hgone.
Qed.

Lemma takePoolTurn_ok c t p p' :
  (∀ i, c0 i ≤ c i) → (∀ i, c i < hi i) → pool_ok c p → takePoolTurn server endpoints n read finish t p = Some p' →
  ∃ c', next c c' ∧ pool_ok c' p'.
Proof.
  intros Hc Hhi Hp. pose proof Hp as [Hw Hs Hf Hj Ho Hg]. destruct t as [k| |k i mv|k|k]; cbn [takePoolTurn].
  - destruct (po_workers p !! k) as [[|j f|]|] eqn:Hk; [|done..].
    destruct (Nat.ltb_spec (po_sent p) n) as [Hlt|]; [|done]. intros [= <-]. exists c. split; [apply next_refl|].
    destruct (omap_insert_perm atJob _ _ _ Hk) as (rest & H1 & H2). split; cbn; [done|lia|done|..].
    + intros Hn k' j' f' [(_ & Heq & _)|[_ Hk']]%list_lookup_insert_Some; [|by eapply Hj].
      injection Heq as <- <-. split; [done|by apply startFan_ok].
    + intros Hn. destruct (Ho Hn) as (js & Hfin & Hperm). exists js. split; [done|].
      change (0%nat :: seq 1 (po_sent p)) with (seq 0 (S (po_sent p))). rewrite H2, seq_S, <-Hperm, H1. cbn.
      by rewrite <-Permutation_middle, <-Permutation_cons_append.
    + intros Hn k' [(_ & Heq & _)|[_ Hk']]%list_lookup_insert_Some; [done|]. apply Hg in Hk'; [lia|done].
  - destruct ((po_sent p <? n)%nat && hasFailed (po_failed p)) eqn:E; [|done]. intros [= <-].
    apply andb_true_iff in E as [Hlt%Nat.ltb_lt Hx]. exists c. split; [apply next_refl|].
    split; cbn; [done|lia|done|..]; intros Hn; by rewrite Hn in Hx.
  - destruct (po_workers p !! k) as [[|j f|]|] eqn:Hk; [done| |done..].
    destruct (fanMove server (hasFailed (po_failed p)) i mv f (po_wire p)) as [[f' w']|] eqn:E; [|done]. intros [= <-].
    destruct (fanMove_ok server hi c0 endpoints (read j) c _ _ _ _ _ _ _ Hw Hhi E) as (c' & Hn & Hc' & Hok).
    exists c'. split; [done|]. destruct (omap_insert_perm atJob _ _ _ Hk) as (rest & H1 & H2). split; cbn; [done|done|done|..].
    + intros Hnone k' j' f2 [(_ & Heq & _)|[_ Hk']]%list_lookup_insert_Some.
      * injection Heq as <- <-. destruct (Hj Hnone k j f Hk) as [? Hfan]. split; [done|]. by apply Hok; [rewrite Hnone|].
      * destruct (Hj Hnone k' j' f2 Hk') as [? Hfan]. split; [done|]. by eapply fan_later.
    + intros Hnone. destruct (Ho Hnone) as (js & Hfin & Hperm). exists js. split; [done|]. by rewrite H2, <-Hperm, H1.
    + intros Hnone k' [(_ & Heq & _)|[_ Hk']]%list_lookup_insert_Some; [done|by eapply Hg].
  - destruct (po_workers p !! k) as [[|j f|]|] eqn:Hk; [done| |done..].
    destruct (fanDone f) eqn:Hd; [|done]. intros [= <-]. exists c. split; [apply next_refl|]. by apply jobEnd_ok.
  - destruct (po_workers p !! k) as [[|j f|]|] eqn:Hk; [|done..].
    destruct (Nat.eqb_spec (po_sent p) n) as [Hlt|]; [|done]. intros [= <-]. exists c. split; [apply next_refl|].
    destruct (omap_insert_perm atJob _ _ _ Hk) as (rest & H1 & H2). split; cbn; [done|done|done|..].
    + intros Hn k' j' f' [(_ & Heq & _)|[_ Hk']]%list_lookup_insert_Some; [done|by eapply Hj].
    + intros Hn. destruct (Ho Hn) as (js & Hfin & Hperm). exists js. split; [done|]. by rewrite H2, <-Hperm, H1.
    + done.
Qed.

Lemma takePoolTurns_ok ts c p p' :
  (∀ i, c0 i ≤ c i) → (∀ i, c i + Z.of_nat (length ts) ≤ hi i) → pool_ok c p →
  takePoolTurns server endpoints n read finish ts p = Some p' → ∃ c', (∀ i, c0 i ≤ c' i) ∧ pool_ok c' p'.
Proof.
  revert c p. induction ts as [|t ts IH]; intros c p Hc Hhi Hp; cbn [takePoolTurns].
  { intros [= <-]. by exists c. }
  destruct (takePoolTurn server endpoints n read finish t p) as [p1|] eqn:E; [|done]. cbn [mbind option_bind].
  destruct (takePoolTurn_ok c t p p1 Hc) as (c1 & Hn & Hp1); [|done|exact E|].
  { intros i. specialize (Hhi i). cbn [length] in Hhi. lia. }
  apply (IH c1); [|..|done]; intros i; specialize (Hc i); specialize (Hhi i); specialize (Hn i); cbn [length] in Hhi; lia.
Qed.

(** A pool that ends went through every job, or says rightly why not. *)
Lemma poolEnded_ok c p :
  pool_ok c p → poolEnded n p = true →
  (∃ js, js ≡ₚ seq 0 n ∧ finished js (po_out p) ∧ po_failed p = None ∧ poolResult p = Ok (po_out p)) ∨
  ∃ x, po_failed p = Some x ∧ poolResult p = failureResult x ∧ pool_blamed x.
Proof.
  intros [Hw Hs Hf Hj Ho Hg] [Hn%Nat.eqb_eq Hall]%andb_true_iff. unfold poolResult.
  destruct (po_failed p) as [x|] eqn:E; [right; exists x; by split_and!; [..|apply Hf]|]. left.
  destruct (Ho eq_refl) as (js & Hfin & Hperm). exists js. split_and!; [|done..].
  assert (omap atJob (po_workers p) = []) as Hnil.
  { clear -Hall. induction (po_workers p) as [|k l IH]; [done|]. cbn in Hall. apply andb_true_iff in Hall as [Hk Hl].
    destruct k; [done..|]. by apply IH. }
  by rewrite Hnil, app_nil_r, Hn in Hperm.
Qed.
End pool.
