(* ===== verification/FanOutLive.v ===== *)
(** * Fan-outs end

    Every thread takes a bounded number of steps, so goroutines come to an end however
    they are interleaved, and none waits for what will not come. A fan-out whose
    goroutines run one after the other is [ChainReader]'s. *)
From S2P Require Import Prelude Sorts Bytes Text Merkle Twab Chain StateMonad Wire Reader ChainReader WireSpec Honest ReaderSpec ReaderTruth ReaderLive Threads ThreadSpec FanOut FanOutSpec.

Open Scope nat_scope.

(** ** How long a thread is *)

(** A thread that takes at most [d] steps. *)
Inductive within {A} : nat → thread A → Prop :=
  | within_done d r : within d (Done r)
  | within_request d q k : (∀ req, within d (k req)) → within (S d) (Request q k)
  | within_post d post k : (∀ body, within d (k body)) → within (S d) (Post post k)
  | within_read d k : (∀ b, within d (k b)) → within (S d) (NoBatch k)
  | within_set d k : within d k → within (S d) (SetNoBatch k).

Lemma within_mono {A} d d' (t : thread A) : d ≤ d' → within d t → within d' t.
Proof.
  intros Hd Ht. revert d' Hd. induction Ht; intros d' Hd; [constructor|..]; (destruct d'; [lia|]); constructor; auto with lia.
Qed.

Lemma within_bind {A B} d e (t : thread A) (f : A → thread B) :
  within d t → (∀ a, within e (f a)) → within (d + e) (t ≫= f).
Proof.
  intros Ht Hf. induction Ht as [d [a|err|x]|d q k _ IH|d post k _ IH|d k _ IH|d k _ IH]; [|by constructor..].
  eapply within_mono; [|apply Hf]. lia.
Qed.

Lemma within_catch {A} d e (t : thread A) h : within d t → (∀ err, within e (h err)) → within (d + e) (catchT t h).
Proof.
  intros Ht Hf. induction Ht as [d [a|err|x]|d q k _ IH|d post k _ IH|d k _ IH|d k _ IH]; try by constructor.
  eapply within_mono; [|apply Hf]. lia.
Qed.

Lemma within_map {A B} d (f : A → thread B) l : (∀ x, within d (f x)) → within (length l * d) (mapT f l).
Proof.
  intros Hf. induction l as [|x l IH]; [constructor|]. cbn [mapT]. change (length (x :: l) * d) with (d + length l * d).
  apply within_bind; [done|]. intros y.
  eapply within_mono; [|apply (within_bind (length l * d) 0); [exact IH|constructor]]. lia.
Qed.

Lemma roundTripT_within post : within maxAttempts (roundTripT post).
Proof.
  unfold roundTripT. generalize errTransport as last, maxAttempts as n. intros last n. revert last.
  induction n as [|n IH]; intros last; cbn [roundTripFromT]; [constructor|].
  apply (within_catch 1); [by repeat constructor|]. intros err. destruct err; first [apply IH | constructor].
Qed.

Lemma callOneT_within q : within 6 (callOneT q).
Proof.
  apply (within_bind 1 5); [by repeat constructor|]. intros req. apply (within_bind 5 0); [apply roundTripT_within|].
  intros []; constructor.
Qed.

Lemma callBatchT_within qs : within (length qs + 5) (callBatchT qs).
Proof.
  apply within_bind.
  { eapply within_mono; [|apply (within_map 1); by repeat constructor]. lia. }
  intros reqs. apply (within_bind 5 0).
  - apply (within_catch 5 0); [apply roundTripT_within|]. intros []; constructor.
  - intros [r|rs| |]; try constructor. destruct (rr_Error r) as [[]|]; constructor.
Qed.

Lemma blockByTagT_within tag : within 6 (blockByTagT tag).
Proof.
  apply (within_bind 6 0); [apply callOneT_within|]. intros raw. apply (within_bind 0 0); constructor.
Qed.

Lemma blockOfT_within n : within 6 (blockOfT n).
Proof.
  apply (within_bind 6 0); [apply blockByTagT_within|]. intros b. apply (within_bind 0 0); constructor.
Qed.

Lemma blocksByNumberT_within ns : within (7 * length ns + 7) (blocksByNumberT ns).
Proof.
  assert (within (6 * length ns) (mapT blockOfT ns)) as Hone.
  { eapply within_mono; [|apply (within_map 6), blockOfT_within]. lia. }
  eapply (within_mono (S (length ns + 5 + S (6 * length ns)))); [lia|]. constructor. intros [].
  - eapply within_mono; [|exact Hone]. lia.
  - apply within_catch.
    + eapply within_mono; [|apply (within_bind (length ns + 5) 0); [|intros; constructor]]; [lia|].
      eapply within_mono; [|apply callBatchT_within]. rewrite length_fmap. lia.
    + intros err. destruct err; try constructor. exact Hone.
Qed.

(** ** What is left of a fan-out *)

(** A list of elements whose weights come to [N]. *)
Definition weighs {X} (R : nat → X → Prop) (l : list X) (N : nat) : Prop := ∃ ds, Forall2 R ds l ∧ sum_list ds = N.

Lemma weighs_insert {X} (R : nat → X → Prop) l N k x :
  weighs R l N → l !! k = Some x → ∃ d, R d x ∧ d ≤ N ∧ ∀ y d', R d' y → weighs R (<[k := y]> l) (N - d + d').
Proof.
  intros (ds & Hds & <-). revert k. induction Hds as [|d z ds l Hz Hds IH]; intros k Hk; [done|]. destruct k as [|k].
  - injection Hk as ->. exists d. split; [done|]. change (sum_list (d :: ds)) with (d + sum_list ds). split; [lia|]. intros y d' Hy.
    exists (d' :: ds). split; [by constructor|]. change (sum_list (d' :: ds)) with (d' + sum_list ds). lia.
  - destruct (IH k Hk) as (e & He & Hle & Hins). exists e. split; [done|]. change (sum_list (d :: ds)) with (d + sum_list ds).
    split; [lia|]. intros y d' Hy. destruct (Hins y d' Hy) as (ds' & Hds' & Hsum). exists (d :: ds').
    split; [by constructor|]. change (sum_list (d :: ds')) with (d + sum_list ds'). lia.
Qed.

Lemma weighs_all {X} (R : nat → X → Prop) l d : (∀ x, x ∈ l → R d x) → weighs R l (length l * d).
Proof.
  intros HR. exists (replicate (length l) d). split.
  - induction l as [|x l IH]; [constructor|]. constructor; [apply HR; by constructor|]. apply IH. intros y Hy. apply HR. by constructor.
  - clear HR. induction l as [|x l IH]; [done|]. cbn. lia.
Qed.

(** The moves a goroutine has left, its return among them. *)
Definition goroutine_within {A} (d : nat) (g : goroutine A) : Prop :=
  match g with Running t => ∃ d', d = S d' ∧ within d' t | _ => d = 0 end.
Definition fan_within {A} (N : nat) (f : fan A) : Prop := weighs goroutine_within (fa_goroutines f) N.

Lemma advance_within {A} server i d (t t' : thread A) w w' :
  within d t → advance server i t w = Some (t', w') → ∃ d', d = S d' ∧ within d' t'.
Proof.
  destruct 1 as [d r|d q k Hk|d post k Hk|d k Hk|d k Hk]; cbn [advance newRequest]; [done|..].
  - intros [= <- _]. eauto.
  - rewrite attempt_exchanged. intros [= <- _]. eauto.
  - intros [= <- _]. eauto.
  - intros [= <- _]. eauto.
Qed.

Lemma interrupt_within {A} d reached (t t' : thread A) w w' :
  within d t → interrupt reached t w = Some (t', w') → ∃ d', d = S d' ∧ within d' t'.
Proof. destruct 1; cbn [interrupt]; try done. intros [= <- _]. eauto. Qed.

Lemma fanMove_within {A} server cancelled i mv (f f' : fan A) w w' N :
  fan_within N f → fanMove server cancelled i mv f w = Some (f', w') → ∃ N', N' < N ∧ fan_within N' f'.
Proof.
  unfold fanMove. intros Hf. destruct (fa_goroutines f !! i) as [[t|a|]|] eqn:Hi; [|done..].
  destruct (weighs_insert _ _ _ _ _ Hf Hi) as (d & (d1 & -> & Ht) & Hle & Hins).
  assert (∀ g d', goroutine_within d' g → d' ≤ d1 → ∃ N', N' < N ∧ weighs goroutine_within (<[i:=g]> (fa_goroutines f)) N') as Hless.
  { intros g d' Hg Hd'. exists (N - S d1 + d'). split; [lia|by apply Hins]. }
  destruct mv as [|reached|].
  - destruct (advance server i t w) as [[t' w1]|] eqn:E; [|done]. intros [= <- <-].
    destruct (advance_within _ _ _ _ _ _ _ Ht E) as (d2 & -> & Ht'). apply (Hless _ (S d2)); [by exists d2|done].
  - destruct (cancelled || hasFailed (fa_failed f)); [|done].
    destruct (interrupt reached t w) as [[t' w1]|] eqn:E; [|done]. intros [= <- <-].
    destruct (interrupt_within _ _ _ _ _ _ Ht E) as (d2 & -> & Ht'). apply (Hless _ (S d2)); [by exists d2|done].
  - destruct t as [r| | | |]; [|done..]. intros [= <- <-]. destruct r; (apply (Hless _ 0); [done|lia]).
Qed.

Lemma startFan_within {A} n (read : nat → thread A) d : (∀ i, within d (read i)) → fan_within (n * S d) (startFan n read).
Proof.
  intros Hd. replace n with (length (fa_goroutines (startFan n read))) at 1 by (cbn; by rewrite length_fmap, length_seq).
  apply weighs_all. intros g (i & -> & _)%list_elem_of_fmap. by exists d.
Qed.

(** A goroutine that is still running can move. *)
Lemma fan_moves {A} server cancelled (f : fan A) w :
  fanDone f = false → ∃ i mv f' w', fanMove server cancelled i mv f w = Some (f', w').
Proof.
  unfold fanDone. intros Hd. destruct (existsb isRunning (fa_goroutines f)) eqn:E.
  - apply existsb_exists in E as (g & Hg & Hr). apply list_elem_of_In, list_elem_of_lookup in Hg as [i Hi].
    destruct g as [t|a|]; [|done..]. unfold fanMove. exists i.
    destruct t as [r|q k|post k|k|k]; [exists Return|exists Advance..]; rewrite Hi; by eexists _, _.
  - exfalso. clear -Hd E. induction (fa_goroutines f) as [|g gs IH]; [done|]. cbn in *. by destruct g; [|apply IH..].
Qed.

(** ** What is left of a pool *)

Section pool.
Context {A B : Type} (server : nat → nat → rpcPost → httpReply) (endpoints n D : nat).
Context (read : nat → nat → thread A) (finish : B → nat → list A → Res chainError B) (b0 : B).
Context (HD : ∀ j i, within D (read j i)).

(** The turns of one job: its goroutines', its taking and its end. *)
Definition jobTurns : nat := endpoints * S D + 2.

Definition worker_within (N : nat) (k : worker A) : Prop :=
  match k with Waiting => N = 1 | Working _ f => ∃ m, fan_within m f ∧ N = m + 2 | Gone => N = 0 end.

Record pool_going (concurrency N : nat) (p : pool A B) : Prop := PoolGoing {
  pg_sent : po_sent p ≤ n;
  pg_workers : length (po_workers p) = Nat.min n concurrency;
  pg_gone : ∀ k, po_workers p !! k = Some Gone → po_sent p = n ∨ po_failed p ≠ None;
  pg_left : ∃ m, weighs worker_within (po_workers p) m ∧ N = m + (n - po_sent p) * jobTurns;
}.

Lemma newPool_going concurrency w : pool_going concurrency (Nat.min n concurrency + n * jobTurns) (newPool n concurrency b0 w).
Proof using Type.
  split; cbn.
  - lia.
  - apply length_replicate.
  - by intros k [? _]%lookup_replicate.
  - exists (Nat.min n concurrency * 1). split; [|lia]. rewrite <-(length_replicate (Nat.min n concurrency) (@Waiting A)) at 2.
    apply weighs_all. by intros k [-> _]%elem_of_replicate.
Qed.

(** A pool one of whose workers has moved. *)
Lemma pool_moved concurrency N p k x y w out failed' :
  pool_going concurrency N p → po_workers p !! k = Some x →
  (∀ e, worker_within e x → ∃ e', worker_within e' y ∧ e' < e) → (y = Gone → po_sent p = n ∨ failed' ≠ None) →
  (po_failed p ≠ None → failed' ≠ None) →
  ∃ N', N' < N ∧ pool_going concurrency N' (mkPool w (po_sent p) (<[k:=y]> (po_workers p)) out failed').
Proof using Type.
  intros [Hs Hl Hg (m & Hm & ->)] Hk Hd Hy Hf. destruct (weighs_insert _ _ _ _ _ Hm Hk) as (e & He & Hle & Hins).
  destruct (Hd e He) as (e' & Hy' & Hlt). exists (m - e + e' + (n - po_sent p) * jobTurns). split; [lia|]. split; cbn.
  - done.
  - by rewrite length_insert.
  - intros k' [(_ & Heq & _)|[_ Hk']]%list_lookup_insert_Some; [by apply Hy|]. destruct (Hg k' Hk') as [?|?]; [by left|right; by apply Hf].
  - exists (m - e + e'). split; [by apply Hins|done].
Qed.

Lemma takePoolTurn_going concurrency N t p p' :
  pool_going concurrency N p → takePoolTurn server endpoints n read finish t p = Some p' →
  ∃ N', N' < N ∧ pool_going concurrency N' p'.
Proof using HD.
  intros Hp. pose proof Hp as [Hs Hl Hg (m & Hm & ->)]. destruct t as [k| |k i mv|k|k]; cbn [takePoolTurn].
  - destruct (po_workers p !! k) as [[|j f|]|] eqn:Hk; [|done..].
    destruct (Nat.ltb_spec (po_sent p) n) as [Hlt|]; [|done]. intros [= <-].
    destruct (weighs_insert _ _ _ _ _ Hm Hk) as (e & He & Hle & Hins). cbn in He. subst e.
    exists (m - 1 + jobTurns + (n - S (po_sent p)) * jobTurns). split; [|split; cbn].
    + replace (n - po_sent p) with (S (n - S (po_sent p))) by lia. cbn. lia.
    + lia.
    + by rewrite length_insert.
    + intros k' [(_ & Heq & _)|[_ Hk']]%list_lookup_insert_Some; [done|]. destruct (Hg k' Hk') as [?|?]; [lia|by right].
    + eexists. split; [|done]. apply Hins. exists (endpoints * S D). split; [by apply startFan_within|done].
  - destruct ((po_sent p <? n)%nat && hasFailed (po_failed p)) eqn:E; [|done]. intros [= <-].
    apply andb_true_iff in E as [Hlt%Nat.ltb_lt Hx]. exists (m + (n - S (po_sent p)) * jobTurns). split; [|split; cbn].
    + replace (n - po_sent p) with (S (n - S (po_sent p))) by lia. unfold jobTurns. cbn. lia.
    + lia.
    + done.
    + intros _ _. right. by destruct (po_failed p).
    + by exists m.
  - destruct (po_workers p !! k) as [[|j f|]|] eqn:Hk; [done| |done..].
    destruct (fanMove server (hasFailed (po_failed p)) i mv f (po_wire p)) as [[f' w']|] eqn:E; [|done]. intros [= <-].
    eapply pool_moved; [exact Hp|exact Hk| |done|done]. intros e (l & Hf & ->).
    destruct (fanMove_within _ _ _ _ _ _ _ _ _ Hf E) as (l' & Hlt & Hf'). exists (l' + 2). split; [by exists l'|lia].
  - destruct (po_workers p !! k) as [[|j f|]|] eqn:Hk; [done| |done..].
    destruct (fanDone f) eqn:Hd; [|done]. intros [= <-]. unfold jobEnd.
    assert (∀ x, recordFailure (po_failed p) x ≠ None) as Hrec by (intros x; by destruct (po_failed p)).
    destruct (fanResult f ≫= finish (po_out p) j) as [out|e|x]; (eapply pool_moved; [exact Hp|exact Hk| | |done]);
      try (by right); try done; intros e' (l & _ & ->); [exists 1|exists 0..]; (split; [done|lia]).
  - destruct (po_workers p !! k) as [[|j f|]|] eqn:Hk; [|done..].
    destruct (Nat.eqb_spec (po_sent p) n) as [Hn|]; [|done]. intros [= <-].
    eapply pool_moved; [exact Hp|exact Hk| |by left|done]. intros e He. cbn in He. exists 0. split; [done|lia].
Qed.

(** No run takes more turns than are left. *)
Lemma takePoolTurns_going concurrency ts N p p' :
  pool_going concurrency N p → takePoolTurns server endpoints n read finish ts p = Some p' →
  ∃ N', length ts + N' ≤ N ∧ pool_going concurrency N' p'.
Proof using HD.
  revert N p. induction ts as [|t ts IH]; intros N p Hp; cbn [takePoolTurns length].
  { intros [= <-]. exists N. split; [lia|done]. }
  destruct (takePoolTurn server endpoints n read finish t p) as [p1|] eqn:E; [|done]. cbn [mbind option_bind]. intros H.
  destruct (takePoolTurn_going _ _ _ _ _ Hp E) as (N1 & Hlt & Hp1). destruct (IH N1 p1 Hp1 H) as (N' & Hle & Hp').
  exists N'. split; [lia|done].
Qed.

(** A pool that has not ended has a turn to take. *)
Lemma pool_progress concurrency N p :
  0 < concurrency → pool_going concurrency N p → poolEnded n p = false →
  ∃ t p', takePoolTurn server endpoints n read finish t p = Some p'.
Proof using Type.
  intros Hc [Hs Hl Hg _] He. destruct (existsb (λ k, negb (isGone k)) (po_workers p)) eqn:E.
  - apply existsb_exists in E as (x & Hx & Hng). apply list_elem_of_In, list_elem_of_lookup in Hx as [k Hk].
    destruct x as [|j f|]; [| |done].
    + destruct (Nat.ltb_spec (po_sent p) n) as [Hlt|Hge].
      * exists (takeJob k). cbn [takePoolTurn]. rewrite Hk, (proj2 (Nat.ltb_lt _ _) Hlt). by eexists.
      * exists (leavePool k). cbn [takePoolTurn]. rewrite Hk, (proj2 (Nat.eqb_eq (po_sent p) n)) by lia. by eexists.
    + destruct (fanDone f) eqn:Hd.
      * exists (endJob k). cbn [takePoolTurn]. rewrite Hk, Hd. by eexists.
      * destruct (fan_moves server (hasFailed (po_failed p)) f (po_wire p) Hd) as (i & mv & f' & w' & Hm).
        exists (moveJob k i mv). cbn [takePoolTurn]. rewrite Hk, Hm. by eexists.
  - assert (forallb isGone (po_workers p) = true) as Hall.
    { clear -E. induction (po_workers p) as [|x l IH]; [done|]. cbn in *. by destruct x; [..|apply IH]. }
    unfold poolEnded in He. rewrite Hall, andb_true_r in He. apply Nat.eqb_neq in He.
    assert (po_workers p !! 0 = Some Gone) as H0.
    { destruct (po_workers p) as [|x l]; cbn in Hl; [lia|]. cbn in Hall. by destruct x. }
    destruct (Hg 0 H0) as [|Hf]; [done|]. exists skipJob. cbn [takePoolTurn].
    rewrite (proj2 (Nat.ltb_lt (po_sent p) n)) by lia. destruct (po_failed p); [|done]. by eexists.
Qed.

(** So any run of a pool goes on to an end. *)
Lemma pool_ends concurrency N p :
  0 < concurrency → pool_going concurrency N p →
  ∃ ts p', takePoolTurns server endpoints n read finish ts p = Some p' ∧ poolEnded n p' = true.
Proof using HD.
  intros Hc. revert p. induction (lt_wf N) as [N _ IH]. intros p Hp. destruct (poolEnded n p) eqn:E; [by exists [], p|].
  destruct (pool_progress _ _ _ Hc Hp E) as (t & p1 & Ht). destruct (takePoolTurn_going _ _ _ _ _ Hp Ht) as (N1 & Hlt & Hp1).
  destruct (IH N1 Hlt p1 Hp1) as (ts & p' & Hts & He). exists (t :: ts), p'. split; [|done]. cbn [takePoolTurns]. by rewrite Ht.
Qed.
End pool.

(** ** One goroutine after the other *)

Section sequential.
Context {A : Type} (server : nat → nat → rpcPost → httpReply).

Lemma fanMoves_app mvs1 mvs2 (f : fan A) w :
  fanMoves server (mvs1 ++ mvs2) f w = ('(f, w) ← fanMoves server mvs1 f w; fanMoves server mvs2 f w).
Proof.
  revert f w. induction mvs1 as [|[i mv] mvs1 IH]; intros f w; [done|]. cbn [app fanMoves].
  destruct (fanMove server false i mv f w) as [[f1 w1]|]; [|done]. apply IH.
Qed.

Lemma setGoroutine_twice i g g' (f : fan A) : setGoroutine i g (setGoroutine i g' f) = setGoroutine i g f.
Proof. unfold setGoroutine. cbn. by rewrite list_insert_insert_eq. Qed.

Lemma set_lookup i g g' (f : fan A) : fa_goroutines f !! i = Some g → fa_goroutines (setGoroutine i g' f) !! i = Some g'.
Proof. intros Hi%lookup_lt_Some. by apply list_lookup_insert_eq. Qed.

Lemma advance_moves i (t t1 : thread A) f w w1 mvs g w' :
  fa_goroutines f !! i = Some (Running t) → advance server i t w = Some (t1, w1) →
  fanMoves server mvs (setGoroutine i (Running t1) f) w1 = Some (setGoroutine i g (setGoroutine i (Running t1) f), w') →
  fanMoves server ((i, Advance) :: mvs) f w = Some (setGoroutine i g f, w').
Proof.
  intros Hi Ha Hm. cbn [fanMoves]. unfold fanMove. rewrite Hi, Ha. cbn [mbind option_bind]. by rewrite Hm, setGoroutine_twice.
Qed.

(** A goroutine whose steps are not interleaved runs its thread. *)
Lemma run_moves i (t : thread A) f w r w' :
  fa_goroutines f !! i = Some (Running t) → runThread server i t w = (r, w') →
  ∃ mvs, fanMoves server mvs f w = Some (setGoroutine i (Running (Done r)) f, w').
Proof.
  revert f w. induction t as [r0|q k IH|post k IH|k IH|k IH]; intros f w Hi Hr.
  { cbn in Hr. injection Hr as -> ->. exists []. cbn [fanMoves]. do 2 f_equal. unfold setGoroutine.
    rewrite list_insert_id by done. by destruct f. }
  all: cbn in Hr; edestruct IH as [mvs Hm]; [eapply (set_lookup i _ _ f), Hi|exact Hr|].
  all: exists ((i, Advance) :: mvs); eapply advance_moves; [exact Hi| |exact Hm]; reflexivity.
Qed.

Lemma goroutine_ends i (t : thread A) f w r w' :
  fa_goroutines f !! i = Some (Running t) → runThread server i t w = (r, w') →
  ∃ mvs, fanMoves server mvs f w = Some (returned i r f, w').
Proof.
  intros Hi Hr. destruct (run_moves i t f w r w' Hi Hr) as [mvs Hm]. exists (mvs ++ [(i, Return)]).
  rewrite fanMoves_app, Hm. cbn [mbind option_bind fanMoves]. unfold fanMove.
  rewrite (set_lookup i (Running t)) by done. do 2 f_equal. cbn [mbind option_bind]. unfold returned.
  destruct r as [a|e|x]; [by rewrite setGoroutine_twice|..]; cbn; by rewrite list_insert_insert_eq.
Qed.

(** A goroutine that has returned, and the others as they were. *)
Lemma returned_set i r (f : fan A) :
  ∃ g, fa_goroutines (returned i r f) = <[i := g]> (fa_goroutines f) ∧ isRunning g = false.
Proof. destruct r; cbn; by eexists. Qed.

Lemma returned_failed i r (f : fan A) x : fa_failed f = Some x → fa_failed (returned i r f) = Some x.
Proof. intros Hx. destruct r; cbn; by rewrite Hx. Qed.

(** Goroutines left to themselves end, and the first failure stays. *)
Lemma fan_drains (f : fan A) w :
  ∃ mvs f' w', fanMoves server mvs f w = Some (f', w') ∧ fanDone f' = true ∧ ∀ x, fa_failed f = Some x → fa_failed f' = Some x.
Proof.
  assert (∀ m, ∃ mvs f' w', fanMoves server mvs f w = Some (f', w') ∧ length (fa_goroutines f') = length (fa_goroutines f) ∧
    (∀ j g, j < m → fa_goroutines f' !! j = Some g → isRunning g = false) ∧
    ∀ x, fa_failed f = Some x → fa_failed f' = Some x) as Hall.
  { induction m as [|m (mvs & f1 & w1 & Hm & Hl & Hq & Hx)]; [exists [], f, w; split_and!; [done|done|lia|done]|].
    assert (∀ j, j < S m → j = m ∨ j < m) as Hj by lia.
    destruct (fa_goroutines f1 !! m) as [[t|a|]|] eqn:E.
    2-4: exists mvs, f1, w1; split_and!; [done..| |done]; intros j g [->|?]%Hj Hg; [by rewrite E in Hg; simplify_eq|by eapply Hq].
    destruct (runThread server m t w1) as [r w2] eqn:Er. destruct (goroutine_ends _ _ _ _ _ _ E Er) as [mvs2 H2].
    destruct (returned_set m r f1) as (g & Hset & Hg).
    exists (mvs ++ mvs2), (returned m r f1), w2. split_and!; [by rewrite fanMoves_app, Hm|by rewrite Hset, length_insert| |].
    - intros j g' Hlt. rewrite Hset, list_lookup_insert_Some. intros [(-> & <- & _)|[Hne Hg']]; [done|].
      apply (Hq j); [|done]. destruct (Hj j Hlt); [by subst|done].
    - intros x Hf. by apply returned_failed, Hx. }
  destruct (Hall (length (fa_goroutines f))) as (mvs & f' & w' & Hm & Hl & Hq & Hx). exists mvs, f', w'. split; [done|]. split; [|done].
  unfold fanDone. apply forallb_forall. intros g Hg%list_elem_of_In%list_elem_of_lookup. destruct Hg as [j Hj].
  rewrite (Hq j g); [done| |done]. apply lookup_lt_Some in Hj. lia.
Qed.

(** ** crossCheck *)

Context (n : nat) (read : nat → thread A) (fn : nat → Wire A) (Hfn : ∀ i w, runThread server i (read i) w = fn i w).

(** The goroutines that have written [m]. *)
Definition written (m : gmap nat A) : fan A :=
  mkFan ((λ i, match m !! i with Some a => Answered a | None => Running (read i) end) <$> seq 0 n) None.

Lemma written_lookup m i : i < n → fa_goroutines (written m) !! i = Some (match m !! i with Some a => Answered a | None => Running (read i) end).
Proof using Type. intros Hi. cbn. rewrite list_lookup_fmap, lookup_seq_lt by done. done. Qed.

Lemma written_insert m i a : i < n → setGoroutine i (Answered a) (written m) = written (<[i := a]> m).
Proof using Type.
  intros Hi. unfold setGoroutine, written. cbn. f_equal. apply list_eq. intros j. destruct (decide (i = j)) as [<-|Hne].
  - rewrite list_lookup_insert_eq by by rewrite length_fmap, length_seq. rewrite list_lookup_fmap, lookup_seq_lt by done. cbn.
    by rewrite lookup_insert_eq.
  - rewrite list_lookup_insert_ne by done. rewrite !list_lookup_fmap. destruct (seq 0 n !! j) as [k|] eqn:E; [|done].
    apply lookup_seq in E as [-> _]. cbn. by rewrite lookup_insert_ne.
Qed.

Lemma foldS_answerAt i order m w :
  foldS (answerAt fn) (i :: order) m w =
  match fn i w with
  | (Ok a, w) => foldS (answerAt fn) order (<[i := a]> m) w
  | (Err e, w) => (Err (errEndpoint i e), w)
  | (Fault x, w) => (Fault x, w)
  end.
Proof using Type.
  assert (answerAt fn m i w = match fn i w with
    | (Ok a, w) => (Ok (<[i := a]> m), w) | (Err e, w) => (Err (errEndpoint i e), w) | (Fault x, w) => (Fault x, w) end) as Ha.
  { unfold answerAt, mbind, StM_bind, catch. by destruct (fn i w) as [[a|e|x] w1]. }
  cbn [foldS]. unfold mbind, StM_bind. rewrite Ha. by destruct (fn i w) as [[a|e|x] w1].
Qed.

(** The loop over the goroutines, in the order in which they finish. *)
Lemma foldS_moves order m w res w' :
  Forall (λ i, i < n) order → NoDup order → (∀ i, i ∈ order → m !! i = None) → foldS (answerAt fn) order m w = (res, w') →
  ∃ mvs f w2, fanMoves server mvs (written m) w = Some (f, w2) ∧
    match res with
    | Ok m' => f = written m' ∧ w2 = w' ∧ ∀ i, i ∈ order ∨ is_Some (m !! i) → is_Some (m' !! i)
    | Err e => fa_failed f = Some (failedWith e)
    | Fault x => fa_failed f = Some (panicked x)
    end.
Proof using Hfn.
  revert m w. induction order as [|i order IH]; intros m w Hlt Hnd Hm.
  { intros [= <- <-]. exists [], (written m), w. split; [done|]. split_and!; [done..|]. intros i [Hi|?]; [by apply elem_of_nil in Hi|done]. }
  apply Forall_cons in Hlt as [Hi Hlt]. apply NoDup_cons in Hnd as [Hni Hnd].
  rewrite foldS_answerAt. destruct (fn i w) as [r w1] eqn:E.
  assert (fa_goroutines (written m) !! i = Some (Running (read i))) as Hg by (rewrite written_lookup, Hm; [done|by constructor|done]).
  destruct (goroutine_ends i (read i) (written m) w r w1 Hg) as [mvs1 H1]; [by rewrite Hfn|].
  destruct r as [a|e|x].
  - intros H. destruct (IH (<[i:=a]> m) w1) as (mvs & f & w2 & Hf & Hres); [done|done| |exact H|].
    { intros j Hj. rewrite lookup_insert_ne by (intros ->; done). apply Hm. by constructor. }
    exists (mvs1 ++ mvs), f, w2. split; [rewrite fanMoves_app, H1; cbn [mbind option_bind returned]; by rewrite written_insert|].
    destruct res as [m'|e|x]; [|done..]. destruct Hres as (-> & -> & Hd). split_and!; [done..|]. intros j Hj. apply Hd.
    destruct (decide (i = j)) as [<-|Hne]; [right; rewrite lookup_insert_eq; by eexists|]. rewrite lookup_insert_ne by done.
    destruct Hj as [Hj|?]; [|by right]. apply elem_of_cons in Hj as [->|?]; [done|by left].
  - intros [= <- <-]. exists mvs1, (returned i (Err e) (written m)), w1. done.
  - intros [= <- <-]. exists mvs1, (returned i (Fault x) (written m)), w1. done.
Qed.

Lemma traverse_fmap {X Y Z E} (f : Y → Res E Z) (g : X → Y) l : traverse f (g <$> l) = traverse (λ x, f (g x)) l.
Proof using Type. induction l as [|x l IH]; [done|]. rewrite fmap_cons, !traverse_cons, IH. done. Qed.

Lemma written_result m : fanResult (written m) = traverse (λ i, match m !! i with Some a => Ok a | None => Fault GoPanic end) (seq 0 n).
Proof using Type.
  unfold fanResult. cbn [fa_failed fa_goroutines written]. rewrite traverse_fmap. apply traverse_ext. intros i _. by destruct (m !! i).
Qed.

(** What [crossCheck] does with its goroutines one after the other, the fan-out can do. *)
Lemma crossCheck_moves schedule r canonical w res w' :
  endpoints r = n → schedule (nt_clock w) n ≡ₚ seq 0 n → crossCheck schedule r fn canonical w = (res, w') →
  ∃ mvs f w2, fanMoves server mvs (startFan n read) w = Some (f, w2) ∧ fanDone f = true ∧
    fanResult f ≫= agreement canonical = res ∧ ∀ a, res = Ok a → w2 = w'.
Proof using Hfn.
  intros Hn Hperm Hres.
  assert (startFan n read = written ∅) as Hstart.
  { unfold startFan, written. f_equal. }
  assert (∃ order, NoDup order ∧ Forall (λ i, i < n) order ∧ (∀ i, i < n → i ∈ order) ∧
    ∃ r1 w1, foldS (answerAt fn) order ∅ w = (r1, w1) ∧ w' = w1 ∧
      res = (r1 ≫= λ m, traverse (λ i, match m !! i with Some a => Ok a | None => Fault GoPanic end) (seq 0 n)) ≫= agreement canonical)
    as (order & Hnd & Hlt & Hin & r1 & w1 & Hfold & -> & ->).
  { unfold crossCheck in Hres. rewrite Hn in Hres. destruct (Nat.eqb_spec n 1) as [->|_].
    - exists [0]. split_and!; [apply NoDup_singleton|by repeat constructor|intros i Hi; apply list_elem_of_singleton; lia|].
      rewrite foldS_answerAt. unfold catch in Hres. destruct (fn 0 w) as [[a|err|x] w1]; cbn in Hres.
      + injection Hres as <- <-. eexists _, _. split; [reflexivity|]. split; [done|]. done.
      + injection Hres as <- <-. eexists _, _. split; [reflexivity|]. done.
      + injection Hres as <- <-. eexists _, _. split; [reflexivity|]. done.
    - exists (schedule (nt_clock w) n). rewrite Hperm. split_and!; [apply NoDup_seq|apply Forall_seq; lia|intros i Hi; rewrite Hperm; apply elem_of_seq; lia|].
      destruct (foldS (answerAt fn) (schedule (nt_clock w) n) ∅ w) as [r1 w1] eqn:E. exists r1, w1. split; [done|].
      revert Hres. unfold eachEndpoint, finishing, gets, mbind, StM_bind. rewrite Hn, E.
      destruct r1 as [m|e|x]; [|by intros [= <- <-]..]. unfold lift. cbn [Res_bind].
      destruct (traverse _ (seq 0 n)) as [[|a rest]|e|x]; cbn; [by intros [= <- <-]| |by intros [= <- <-]..].
      destruct (agreeFrom canonical (canonical a) 1 rest) as [u|e|x]; by intros [= <- <-]. }
  rewrite Hstart. destruct (foldS_moves order ∅ w r1 w1 Hlt Hnd) as (mvs & f & w2 & Hm & Hcase); [by intros; apply lookup_empty|done|].
  destruct r1 as [m|e|x].
  - destruct Hcase as (-> & -> & Hd). exists mvs, (written m), w1. split; [done|]. split_and!; [|by rewrite written_result|done].
    unfold fanDone. apply forallb_forall. intros g Hg%list_elem_of_In%list_elem_of_fmap. destruct Hg as (i & -> & Hi%elem_of_seq).
    destruct (Hd i) as [a Ha]; [left; apply Hin; lia|]. by rewrite Ha.
  - destruct (fan_drains f w2) as (mvs2 & f2 & w3 & H2 & Hdone & Hkeep). exists (mvs ++ mvs2), f2, w3.
    split; [by rewrite fanMoves_app, Hm|]. split; [done|]. split; [|done]. unfold fanResult. by rewrite (Hkeep _ Hcase).
  - destruct (fan_drains f w2) as (mvs2 & f2 & w3 & H2 & Hdone & Hkeep). exists (mvs ++ mvs2), f2, w3.
    split; [by rewrite fanMoves_app, Hm|]. split; [done|]. split; [|done]. unfold fanResult. by rewrite (Hkeep _ Hcase).
Qed.
End sequential.
