(* ===== verification/FanOutTheorems.v ===== *)
(** * What concurrent reads promise

    The claims on the goroutines of the Reader, taken one step at a time in any order:
    what they answer, whom they blame, that they end, and that running them one after the
    other is one of the ways they can go. *)
From S2P Require Import Prelude Sorts Bytes Text Merkle Twab Chain StateMonad Reader Wire ChainReader WireSpec Honest ReaderSpec ReaderTruth ReaderLive ReaderServes Threads ThreadSpec FanOut FanOutSpec FanOutLive EpochCase Node ReaderCase.

Open Scope Z_scope.

(** ** Answers that agree *)

Lemma agreeFrom_Err {A} (canonical : A → list byte) first i answers e :
  agreeFrom canonical first i answers = Err e → ∃ k a, e = errDisagreement (i + k) ∧ answers !! k = Some a ∧ first ≠ canonical a.
Proof.
  revert i. induction answers as [|a answers IH]; intros i; cbn [agreeFrom]; [done|]. case_decide as Hc; [|intros [= <-]].
  - intros (k & b & -> & Hk & Hb)%IH. exists (S k), b. split; [by rewrite Nat.add_succ_r|done].
  - exists 0%nat, a. by rewrite Nat.add_0_r.
Qed.

Lemma agreeFrom_fault {A} (canonical : A → list byte) first i answers x : agreeFrom canonical first i answers ≠ Fault x.
Proof. revert i. induction answers as [|a answers IH]; intros i; cbn [agreeFrom]; [done|]. case_decide; [apply IH|done]. Qed.

Section agreement.
Context {A : Type} (server : nat → nat → rpcPost → httpReply) (hi c0 : nat → Z) (n : nat) (read : nat → thread A).
Context (canonical : A → list byte).

(** One endpoint's own answer is the only one there can be. *)
Lemma agreement_true (T : A → Prop) i v answers a :
  (i < n)%nat → (∀ j, finds server j (hi j) (c0 j) (read j) T) → finds server i (hi i) (c0 i) (read i) (λ a, a = v) →
  (∀ a, T a → canonical a = canonical v → a = v) →
  own server hi c0 n read answers → agreement canonical answers = Ok a → a = v.
Proof.
  intros Hi HT Hv Hinj [Hlen Hown] Ha.
  assert (∀ j b, answers !! j = Some b → T b ∧ (j = i → b = v)) as Hall.
  { intros j b Hj. destruct (Hown j b Hj) as (_ & m' & Hm). split; [by eapply HT|]. intros ->. by eapply Hv. }
  unfold agreement in Ha. destruct answers as [|first rest]; [done|]. apply bind_Ok in Ha as (u & Hagree & [= <-]).
  destruct (Hall 0%nat first eq_refl) as [HT0 H0]. destruct i as [|i]; [by apply H0|].
  destruct (lookup_lt_is_Some_2 rest i) as [b Hb]; [cbn in Hlen; lia|].
  destruct (Hall (S i) b Hb) as [_ Hbv]. specialize (Hbv eq_refl). subst b.
  apply Hinj; [done|]. symmetry. eapply agreeFrom_Ok; [exact Hagree|]. by eapply list_elem_of_lookup_2.
Qed.

(** Answers that are all the same are agreed on. *)
Lemma agreement_same v answers :
  (0 < n)%nat → (∀ j, (j < n)%nat → finds server j (hi j) (c0 j) (read j) (λ a, a = v)) →
  own server hi c0 n read answers → agreement canonical answers = Ok v.
Proof.
  intros Hn Hv [Hlen Hown].
  assert (∀ b, b ∈ answers → b = v) as Hall.
  { intros b [j Hj]%list_elem_of_lookup. destruct (Hown j b Hj) as (Hjn & m' & Hm). by eapply (Hv j Hjn). }
  destruct answers as [|first rest]; [cbn in Hlen; lia|]. unfold agreement.
  rewrite (Hall first) by by constructor. assert (replicate (length rest) v = rest) as <-.
  { apply replicate_as_elem_of. split; [done|]. intros b Hb. apply Hall. by constructor. }
  by rewrite agreeFrom_same.
Qed.

(** Two endpoints whose answers differ, when they do not. *)
Lemma agreement_Err answers e :
  own server hi c0 n read answers → agreement canonical answers = Err e →
  ∃ k a b, e = errDisagreement k ∧ ends server hi c0 n read 0 (Ok a) ∧ ends server hi c0 n read k (Ok b) ∧ canonical a ≠ canonical b.
Proof.
  intros [Hlen Hown] He. unfold agreement in He. destruct answers as [|first rest]; [done|].
  destruct (agreeFrom canonical (canonical first) 1 rest) as [u|e'|x] eqn:E; [done| |done]. injection He as <-.
  apply agreeFrom_Err in E as (k & b & -> & Hk & Hb). exists (1 + k)%nat, first, b. split; [done|].
  split; [by apply (Hown 0%nat)|]. split; [by apply (Hown (S k))|done].
Qed.
End agreement.

(** ** Timestamps *)

Section stamps.
Context (server : nat → nat → rpcPost → httpReply) (r : chainReader) (blocks : list Z) (w : wireState).

(** The counters as the read finds them, and where its ids would begin to repeat. *)
Definition counters (i : nat) : Z := ep_nextID (endpointOf i w).
Definition window (i : nat) : Z := counters i + 2 ^ 64.

Abbreviation jobs := (length (stampBatches blocks)).

Lemma stampBatches_elem n : (∃ j ns, (j < jobs)%nat ∧ stampBatches blocks !! j = Some ns ∧ n ∈ ns) ↔ n ∈ blocks.
Proof using Type.
  assert (concat (stampBatches blocks) = Compact (sort_by Z.compare blocks)) as Hcat.
  { apply batchesOf_concat; [unfold HeaderBatch; lia|done]. }
  assert (n ∈ concat (stampBatches blocks) ↔ n ∈ blocks) as <-.
  { by rewrite Hcat, Compact_elem, elem_of_sort_by. }
  rewrite list_elem_of_In, in_concat. split.
  - intros (j & ns & _ & Hj & Hn). exists ns. split; [by eapply list_elem_of_In, list_elem_of_lookup_2|by apply list_elem_of_In].
  - intros (ns & Hns%list_elem_of_In & Hn%list_elem_of_In). apply list_elem_of_lookup in Hns as [j Hj].
    exists j, ns. split; [by eapply lookup_lt_Some|done].
Qed.

Lemma stampRead_job j ns i : stampBatches blocks !! j = Some ns → stampRead blocks j i = blocksByNumberT ns.
Proof using Type. intros Hj. unfold stampRead, index. by rewrite Hj. Qed.

Lemma stampBatch_range W j ns :
  Forall (λ n, 0 ≤ n ≤ wo_head W) blocks → stampBatches blocks !! j = Some ns → Forall (λ n, 0 ≤ n ≤ wo_head W) ns.
Proof using Type.
  intros Hb Hj. rewrite Forall_forall in Hb |- *. intros n Hn. apply Hb, stampBatches_elem. exists j, ns.
  split; [by eapply lookup_lt_Some|done].
Qed.

Lemma stampRead_within j i : within 147 (stampRead blocks j i).
Proof using Type.
  unfold stampRead, index. destruct (stampBatches blocks !! j) as [ns|] eqn:E; [|constructor].
  eapply within_mono; [|apply blocksByNumberT_within].
  assert (length ns ≤ HeaderBatch)%nat as Hle by by eapply batchesOf_small, list_elem_of_lookup_2. unfold HeaderBatch in Hle. lia.
Qed.

Lemma stampPool_ok : pool_ok server window counters (endpoints r) jobs (stampRead blocks) stampFinish ∅ counters (stampPool r blocks w).
Proof using Type. apply newPool_ok; [done|]. by intros i. Qed.

Lemma stampTurns_ok ts p :
  Z.of_nat (length ts) ≤ 2 ^ 64 → stampTurns server r blocks ts (stampPool r blocks w) = Some p →
  ∃ c, (∀ i, counters i ≤ c i) ∧ pool_ok server window counters (endpoints r) jobs (stampRead blocks) stampFinish ∅ c p.
Proof using Type.
  intros Hts. eapply takePoolTurns_ok; [by intros i| |apply stampPool_ok]. intros i. unfold window. lia.
Qed.

Abbreviation own_stamps := (λ j, own server window counters (endpoints r) (stampRead blocks j)).

(** Jobs that ended with the chain's headers have stamped their blocks and no other. *)
Lemma finished_stamps W js out :
  (∀ n, 0 ≤ n ≤ wo_head W → b_Number (wo_block W n) = n) → Forall (λ n, 0 ≤ n ≤ wo_head W) blocks →
  (∀ j ns answers headers, stampBatches blocks !! j = Some ns → own_stamps j answers →
    agreement canonicalBlocks answers = Ok headers → headers = wo_block W <$> ns) →
  Forall (λ j, (j < jobs)%nat) js → finished server window counters (endpoints r) (stampRead blocks) stampFinish ∅ js out →
  stamps_ok (λ n t, n ∈ blocks ∧ t = b_Timestamp (wo_block W n)) out ∧
  ∀ j ns n, j ∈ js → stampBatches blocks !! j = Some ns → n ∈ ns → is_Some (out !! n).
Proof using Type.
  intros Hnum Hblocks Hheaders Hjs Hfin. induction Hfin as [|js j b answers b' _ IH Hown Hb'].
  { split; [by intros n t; rewrite lookup_empty|]. intros j ns n Hj. by apply elem_of_nil in Hj. }
  apply Forall_app in Hjs as [Hjs Hj]. apply Forall_inv in Hj. destruct (IH Hjs) as [Hok Hall].
  apply bind_Ok in Hb' as (headers & Ha & [= <-]). destruct (lookup_lt_is_Some_2 (stampBatches blocks) j Hj) as [ns Hns].
  rewrite (Hheaders j ns answers headers Hns Hown Ha).
  destruct (stamp_headers (λ n t, n ∈ blocks ∧ t = b_Timestamp (wo_block W n)) ns (wo_block W <$> ns) b) as [H1 H2]; [|done|].
  { apply Forall2_fmap_r, Forall_Forall2_diag, Forall_forall. intros n Hn.
    assert (n ∈ blocks) as Hin by (apply stampBatches_elem; by exists j, ns). rewrite Forall_forall in Hblocks.
    split; [by apply Hnum, Hblocks|done]. }
  split; [done|]. intros j' ns' n Hj' Hns' Hn. apply H2. apply elem_of_app in Hj' as [Hj'|Hj']; [right; by eapply Hall|left].
  apply list_elem_of_singleton in Hj' as ->. rewrite Hns in Hns'. by injection Hns' as <-.
Qed.

(** What a pool that ended well holds. *)
Lemma stamped W js out :
  js ≡ₚ seq 0 jobs → stamps_ok (λ n t, n ∈ blocks ∧ t = b_Timestamp (wo_block W n)) out →
  (∀ j ns n, j ∈ js → stampBatches blocks !! j = Some ns → n ∈ ns → is_Some (out !! n)) →
  ∀ n, out !! n = if decide (n ∈ blocks) then Some (b_Timestamp (wo_block W n)) else None.
Proof using Type.
  intros Hjs Hok Hall n. case_decide as Hn.
  - pose proof Hn as (j & ns & Hj & Hns & Hin)%stampBatches_elem.
    destruct (Hall j ns n) as [t Ht]; [rewrite Hjs; apply elem_of_seq; lia|done..|]. by destruct (Hok n t Ht) as [_ ->].
  - destruct (out !! n) as [t|] eqn:E; [|done]. by destruct (Hok n t E).
Qed.

(** What the answers to a batch come to once one endpoint tells the truth. *)
Lemma stamp_headers_true W i j ns answers headers :
  world_ok W → (i < endpoints r)%nat → truthful W server i → Forall (λ n, 0 ≤ n ≤ wo_head W) blocks →
  stampBatches blocks !! j = Some ns → own_stamps j answers →
  agreement canonicalBlocks answers = Ok headers → headers = wo_block W <$> ns.
Proof using Type.
  intros HW Hi Htrue Hblocks Hns Hown. pose proof (stampBatch_range W j ns Hblocks Hns) as Hr.
  apply (agreement_true server window counters (endpoints r) (stampRead blocks j) canonicalBlocks (Forall block_typed) i); [done|..|done].
  - intros k. rewrite (stampRead_job j ns k Hns). eapply finds_mono; [apply blocksByNumberT_numbered|].
    intros bs Hbs. apply Forall_forall. intros b [m Hm]%list_elem_of_lookup.
    by destruct (Forall2_lookup_r _ _ _ _ _ Hbs Hm) as (n & _ & Ht & _).
  - rewrite (stampRead_job j ns i Hns). apply (blocksByNumberT_true _ _ _ W Htrue); [done|]. unfold window. lia.
  - intros bs Hbs Hc. apply canonicalBlocks_inj; [done| |done]. apply Forall_fmap, Forall_forall. intros n Hn.
    rewrite Forall_forall in Hr. by apply (wk_blocks _ HW n), Hr.
Qed.
End stamps.

(** ** One read at once on every endpoint *)

(** The cross-checked reads: what one endpoint is asked, as a thread and as [Wire] has it. *)
Inductive reads_as (server : nat → nat → rpcPost → httpReply) : ∀ {A}, thread A → (nat → Wire A) → Prop :=
  | reads_chain : reads_as server chainIdOfT (chainIdOf server)
  | reads_block tag : reads_as server (blockByTagT tag) (λ i, blockByTag server i tag)
  | reads_blocks ns : reads_as server (blocksByNumberT ns) (λ i, blocksByNumber server i ns)
  | reads_logs address topic0 from to :
      reads_as server (getLogsT address topic0 from to) (λ i, getLogs server i address topic0 from to)
  | reads_call to data at_ : reads_as server (ethCallAtT to data at_) (λ i, ethCallAt server i to data at_).

Lemma reads_as_run server {A} (t : thread A) fn : reads_as server t fn → ∀ i w, runThread server i t w = fn i w.
Proof.
  destruct 1; intros i w; [apply runT_chainIdOf|apply runT_blockByTag|apply runT_blocksByNumber|apply runT_getLogs|apply runT_ethCallAt].
Qed.

Section reading.
Context (server : nat → nat → rpcPost → httpReply) (n : nat) (w w' : wireState).

Lemma fan_counted {A} (read : nat → thread A) mvs f :
  Z.of_nat (length mvs) ≤ 2 ^ 64 → fanMoves server mvs (startFan n read) w = Some (f, w') →
  ∃ c, fan_ok server (window w) (counters w) n read c f.
Proof.
  intros Hlen Hm. destruct (fanMoves_ok server (window w) (counters w) n read mvs (counters w) (startFan n read) w f w')
    as (c & _ & Hf); [by apply startFan_ok|by intros i|intros i; unfold window; lia|done|by exists c].
Qed.

(** What the goroutines agree on is what one of them could only find. *)
Lemma fan_true {A} (read : thread A) canonical (T : A → Prop) i v mvs f a :
  (i < n)%nat → Z.of_nat (length mvs) ≤ 2 ^ 64 → fanMoves server mvs (startFan n (λ _, read)) w = Some (f, w') →
  (∀ j m, finds server j (window w j) m read T) →
  finds server i (window w i) (counters w i) read (λ a, a = v) →
  (∀ a, T a → canonical a = canonical v → a = v) →
  fanResult f ≫= agreement canonical = Ok a → a = v.
Proof.
  intros Hi Hlen Hm HT Hv Hinj (answers & Ha & Hagree)%bind_Ok.
  destruct (fan_counted (λ _, read) mvs f Hlen Hm) as [c Hf].
  pose proof (fanResult_Ok _ _ _ _ _ _ _ _ Hf Ha) as Hown.
  by apply (agreement_true server (window w) (counters w) n (λ _, read) canonical T i v answers).
Qed.
End reading.

Section claims.
Context (server : nat → nat → rpcPost → httpReply) (r : chainReader) (blocks : list Z) (w : wireState).
Abbreviation jobs := (length (stampBatches blocks)).
Abbreviation pool0 := (stampPool r blocks w).

(** C10: one endpoint that tells the truth is enough when goroutines run at once. However
    the goroutines of a fan-out and the workers of a pool are interleaved, request by
    request, with the endpoints' counters and [noBatch] shared between them, whichever
    exchanges are given up, and whatever the other endpoints reply: [Timestamps] that
    returns no error has stamped exactly the blocks asked for, each with the chain's
    timestamp, and a cross-checked header, page of logs, contract call or chain id that
    comes back is the chain's. *)
Theorem Interleaved_reads_true W i :
  world_ok W → (i < endpoints r)%nat → truthful W server i →
  (∀ ts p out, Forall (λ n, 0 ≤ n ≤ wo_head W) blocks → Z.of_nat (length ts) ≤ 2 ^ 64 →
     stampTurns server r blocks ts pool0 = Some p → poolEnded jobs p = true → poolResult p = Ok out →
     ∀ n, out !! n = if decide (n ∈ blocks) then Some (b_Timestamp (wo_block W n)) else None) ∧
  (∀ n mvs f w' b, 0 ≤ n ≤ wo_head W → Z.of_nat (length mvs) ≤ 2 ^ 64 →
     fanMoves server mvs (startFan (endpoints r) (λ _, blockByTagT (quantity n))) w = Some (f, w') →
     fanResult f ≫= agreement canonicalBlock = Ok b → b = wo_block W n) ∧
  (∀ address topic0 from to mvs f w' ls, 0 ≤ from ≤ to → to ≤ wo_head W → Z.of_nat (length mvs) ≤ 2 ^ 64 →
     fanMoves server mvs (startFan (endpoints r) (λ _, getLogsT address topic0 from to)) w = Some (f, w') →
     fanResult f ≫= agreement canonicalLogs = Ok ls → ls = logs_of W address topic0 from to) ∧
  (∀ to data at_ mvs f w' out, 0 ≤ at_ ≤ wo_head W → Z.of_nat (length mvs) ≤ 2 ^ 64 →
     fanMoves server mvs (startFan (endpoints r) (λ _, ethCallAtT to data at_)) w = Some (f, w') →
     fanResult f ≫= agreement (λ b, b) = Ok out → out = wo_call W to data at_) ∧
  (∀ mvs f w' id, Z.of_nat (length mvs) ≤ 2 ^ 64 →
     fanMoves server mvs (startFan (endpoints r) (λ _, chainIdOfT)) w = Some (f, w') →
     fanResult f ≫= agreement (appendUint64 []) = Ok id → id = wo_chainID W).
Proof.
  intros HW Hi Htrue. split_and!.
  - intros ts p out Hblocks Hlen Hts Hend Hres. destruct (stampTurns_ok server r blocks w ts p Hlen Hts) as (c & _ & Hok).
    destruct (poolEnded_ok _ _ _ _ _ _ _ _ _ _ Hok Hend) as [(js & Hjs & Hfin & _ & Ho)|(x & _ & Hx & _)];
      [|rewrite Hx in Hres; by destruct x].
    rewrite Ho in Hres. injection Hres as <-.
    destruct (finished_stamps server r blocks w W js (po_out p)) as [H1 H2]; [| |..|done|].
    + intros n Hn. apply (wk_blocks _ HW n Hn).
    + done.
    + intros j ns answers headers. by apply (stamp_headers_true server r blocks w W i j ns).
    + rewrite Hjs. by apply Forall_seq; lia.
    + by apply (stamped blocks W js).
  - intros n mvs f w' b Hn Hlen Hm. eapply (fan_true server (endpoints r) w w' _ _ block_typed i _ mvs); [done|done|exact Hm| | |].
    + intros j m. apply blockByTagT_typed.
    + by apply (blockByTagT_true _ _ _ W Htrue).
    + intros a Ha Hc. apply canonicalBlock_inj; [done|apply (wk_blocks _ HW n Hn)|done].
  - intros address topic0 from to mvs f w' ls Hfrom Hto Hlen Hm.
    eapply (fan_true server (endpoints r) w w' _ _ (Forall log_typed) i _ mvs); [done|done|exact Hm| | |].
    + intros j m. eapply finds_mono; [apply getLogsT_page|]. intros l [Hl _]. eapply Forall_impl; [exact Hl|]. by intros x [? _].
    + by apply (getLogsT_true _ _ _ W HW Htrue).
    + intros a Ha Hc. apply canonicalLogs_inj; [done| |apply (wk_small _ HW)|done].
      apply Forall_forall. intros l [_ Hl]%list_elem_of_filter. pose proof (wk_typed _ HW) as Ht. rewrite Forall_forall in Ht. by apply Ht.
  - intros to data at_ mvs f w' out Hat Hlen Hm.
    eapply (fan_true server (endpoints r) w w' _ _ (λ _, True) i _ mvs); [done|done|exact Hm| | |done].
    + intros j m. apply finds_any.
    + by apply (ethCallAtT_true _ _ _ W Htrue).
  - intros mvs f w' id Hlen Hm. eapply (fan_true server (endpoints r) w w' _ _ is_u64 i _ mvs); [done|done|exact Hm| | |].
    + intros j m. eapply finds_bind; [apply finds_any|]. intros raw m1 _ _. eapply finds_bind; [apply finds_any|]. intros s m2 _ _.
      apply finds_done. intros a. apply parseQuantity_u64.
    + by apply (chainIdOfT_true _ _ _ W Htrue).
    + intros a Ha Hc. apply be8_inj in Hc; [done|done|apply (wk_chainID _ HW)].
Qed.

(** C24: the failure a fan-out reports is the one to act on. When interleaved [Timestamps]
    return an error, it names an endpoint that fails its own read of a batch with none of
    its exchanges given up, or two endpoints whose own answers differ: never one that was
    only cancelled for its neighbour. So an endpoint that serves the chain is not blamed. *)
Theorem First_failure_is_its_own ts p err :
  Z.of_nat (length ts) ≤ 2 ^ 64 → stampTurns server r blocks ts pool0 = Some p → poolEnded jobs p = true →
  poolResult p = Err err →
  ((∃ j ns i e m, stampBatches blocks !! j = Some ns ∧ (i < endpoints r)%nat ∧ err = errEndpoint i e ∧
      may_end server i (window w i) (counters w i) (blocksByNumberT ns) (Err e) m) ∨
   (∃ j ns k a b m m', stampBatches blocks !! j = Some ns ∧ (k < endpoints r)%nat ∧ err = errDisagreement k ∧
      may_end server 0 (window w 0) (counters w 0%nat) (blocksByNumberT ns) (Ok a) m ∧
      may_end server k (window w k) (counters w k) (blocksByNumberT ns) (Ok b) m' ∧ canonicalBlocks a ≠ canonicalBlocks b)) ∧
  ∀ W i e, world_ok W → Forall (λ n, 0 ≤ n ≤ wo_head W) blocks →
    truthful W server i → helpful W server i → prompt server i → err ≠ errEndpoint i e.
Proof.
  intros Hlen Hts Hend Hres. destruct (stampTurns_ok server r blocks w ts p Hlen Hts) as (c & _ & Hok).
  destruct (poolEnded_ok _ _ _ _ _ _ _ _ _ _ Hok Hend) as [(js & _ & _ & _ & Ho)|(x & _ & Hx & Hbl)]; [by rewrite Ho in Hres|].
  rewrite Hx in Hres. assert (x = failedWith err) as -> by (destruct x; [by injection Hres as ->|done]). clear Hx Hres.
  assert (∀ j, (j < jobs)%nat → ∃ ns, stampBatches blocks !! j = Some ns ∧ ∀ i, stampRead blocks j i = blocksByNumberT ns) as Hjob.
  { intros j [ns Hns]%lookup_lt_is_Some_2. exists ns. split; [done|]. intros i. by apply stampRead_job. }
  inversion Hbl as [j x' Hj Hb|js b j answers e Hj _ Hown Hfin|]; subst.
  - destruct (Hjob j Hj) as (ns & Hns & Hread). inversion Hb as [i e [Hi [m Hm]]|]; subst. rewrite Hread in Hm. split.
    + left. by exists j, ns, i, e, m.
    + intros W i' e' HW Hblocks Htrue Hhelp Hprompt [= -> ->].
      destruct (blocksByNumberT_succeeds server i' (window w i') W HW Htrue Hhelp Hprompt (counters w i') ns) with (r := Err (A:=list Block) e') (m' := m)
        as (bs & [=] & _); [by eapply stampBatch_range|unfold window; lia|done].
  - destruct (Hjob j Hj) as (ns & Hns & Hread). unfold stampFinish in Hfin.
    destruct (agreement canonicalBlocks answers) as [hs|e'|x] eqn:Ha; [done| |done]. injection Hfin as ->.
    apply (agreement_Err server (window w) (counters w) (endpoints r) (stampRead blocks j)) in Ha as (k & a & b' & -> & [_ [m Ha]] & [Hk [m' Hb']] & Hne); [|done].
    rewrite Hread in Ha, Hb'. split; [|by intros]. right. by exists j, ns, k, a, b', m, m'.
Qed.

(** C25: concurrent [Timestamps] end. Whatever order the workers, the goroutines, the
    sender and the cancellation take their turns in, no run takes more than a fixed
    number of them, and any run that is not over can go on to one that is: no worker waits
    for a job that will not come, and no sender for a worker that is gone. *)
Theorem Interleaved_stamps_end ts p :
  0 < cr_concurrency r → stampTurns server r blocks ts pool0 = Some p →
  (length ts ≤ Nat.min jobs (Z.to_nat (cr_concurrency r)) + jobs * (endpoints r * 148 + 2))%nat ∧
  ∃ ts' p', stampTurns server r blocks ts' p = Some p' ∧ poolEnded jobs p' = true.
Proof.
  intros Hc Hts.
  pose proof (newPool_going (A:=list Block) (endpoints r) jobs 147 (∅ : gmap Z Z) (Z.to_nat (cr_concurrency r)) w) as Hgo.
  destruct (takePoolTurns_going server (endpoints r) jobs 147 (stampRead blocks) stampFinish (stampRead_within blocks) _ ts _ _ p Hgo Hts)
    as (N & Hle & Hp). split; [unfold jobTurns in Hle; lia|].
  eapply (pool_ends server (endpoints r) jobs 147); [apply stampRead_within| |exact Hp]. lia.
Qed.

(** C28: endpoints that serve the chain and never ask to wait are enough. They may refuse
    batches; however the workers and goroutines are interleaved, [Timestamps] that have
    ended have succeeded, with the chain's timestamp for every block asked for. *)
Theorem Interleaved_stamps_served W ts p :
  world_ok W → (0 < endpoints r)%nat →
  (∀ i, (i < endpoints r)%nat → truthful W server i ∧ helpful W server i ∧ prompt server i) →
  Forall (λ n, 0 ≤ n ≤ wo_head W) blocks → Z.of_nat (length ts) ≤ 2 ^ 64 →
  stampTurns server r blocks ts pool0 = Some p → poolEnded jobs p = true →
  ∃ out, poolResult p = Ok out ∧
    ∀ n, out !! n = if decide (n ∈ blocks) then Some (b_Timestamp (wo_block W n)) else None.
Proof.
  intros HW Hsome Hall Hblocks Hlen Hts Hend. destruct (stampTurns_ok server r blocks w ts p Hlen Hts) as (c & _ & Hok).
  assert (∀ j, (j < jobs)%nat → ∃ ns, stampBatches blocks !! j = Some ns ∧ ∀ i, (i < endpoints r)%nat →
    succeeds server i (window w i) (counters w i) (stampRead blocks j i) (λ bs, bs = wo_block W <$> ns)) as Hserved.
  { intros j [ns Hns]%lookup_lt_is_Some_2. exists ns. split; [done|]. intros i Hi. rewrite (stampRead_job blocks j ns i Hns).
    destruct (Hall i Hi) as (Ht & Hh & Hp). apply (blocksByNumberT_succeeds server i (window w i) W HW Ht Hh Hp);
      [by eapply stampBatch_range|unfold window; lia]. }
  assert (∀ j answers b, (j < jobs)%nat → own server (window w) (counters w) (endpoints r) (stampRead blocks j) answers →
    ∃ b', stampFinish b j answers = Ok b') as Hfinish.
  { intros j answers b Hj Hown. destruct (Hserved j Hj) as (ns & _ & Hs). unfold stampFinish.
    rewrite (agreement_same server (window w) (counters w) (endpoints r) (stampRead blocks j) canonicalBlocks (wo_block W <$> ns) answers Hsome);
      [by eexists| |done]. intros i Hi r' m' H a Ha. destruct (Hs i Hi r' m' H) as (a' & -> & ->). by injection Ha as <-. }
  destruct (poolEnded_ok _ _ _ _ _ _ _ _ _ _ Hok Hend) as [(js & Hjs & Hfin & _ & Ho)|(x & _ & _ & Hbl)].
  - exists (po_out p). split; [done|].
    destruct (finished_stamps server r blocks w W js (po_out p)) as [H1 H2]; [| |..|done|].
    + intros n Hn. apply (wk_blocks _ HW n Hn).
    + done.
    + intros j ns answers headers. destruct (Hall 0%nat Hsome) as (Ht & _). by apply (stamp_headers_true server r blocks w W 0 j ns).
    + rewrite Hjs. by apply Forall_seq; lia.
    + by apply (stamped blocks W js).
  - exfalso. inversion Hbl as [j x' Hj Hb|js b j answers e Hj _ Hown Hfin|js b j answers x' Hj _ Hown Hfin]; subst.
    + destruct (Hserved j Hj) as (ns & _ & Hs).
      inversion Hb as [i e [Hi [m Hm]]|i x' [Hi [m Hm]]]; subst; by destruct (Hs i Hi _ _ Hm) as (bs & [=] & _).
    + destruct (Hfinish j answers b Hj Hown) as (b' & Hb'). by rewrite Hb' in Hfin.
    + destruct (Hfinish j answers b Hj Hown) as (b' & Hb'). by rewrite Hb' in Hfin.
Qed.

(** Running the goroutines one after the other is one of the ways they can go. For
    every cross-checked read, what [crossCheck] comes to when its endpoints finish in the
    order a schedule picks, a fan-out of their threads comes to as well: the same answer
    on the same wire, or the same error or panic. *)
Theorem Sequential_is_interleaved schedule {A} (read : thread A) fn canonical res w' :
  reads_as server read fn → schedule (nt_clock w) (endpoints r) ≡ₚ seq 0 (endpoints r) →
  crossCheck schedule r fn canonical w = (res, w') →
  ∃ mvs f w2, fanMoves server mvs (startFan (endpoints r) (λ _, read)) w = Some (f, w2) ∧ fanDone f = true ∧
    fanResult f ≫= agreement canonical = res ∧ ∀ a, res = Ok a → w2 = w'.
Proof.
  intros Hread Hperm Hres.
  by apply (crossCheck_moves server (endpoints r) (λ _, read) fn (λ i, reads_as_run server read fn Hread i) schedule r canonical w res w').
Qed.
End claims.

(** ** The claims applied to two nodes *)

(** The hours of a longer chain, behind a node that does not batch and one that does. *)
Definition long_world : World := mkWorld 4663 hour_block 40 [] (λ _ _ _, []).
Definition two_server (i clock : nat) (post : rpcPost) : httpReply :=
  match i with
  | O => node long_world 2 false false clock post
  | _ => node long_world 1000000 true false clock post
  end.
(** The second node is down. *)
Definition half_server (i clock : nat) (post : rpcPost) : httpReply :=
  match i with O => node long_world 2 false false clock post | _ => httpDown end.

Definition two_blocks : list Z := seqZ 3 25.

Lemma long_world_ok : world_ok long_world.
Proof.
  split.
  - done.
  - done.
  - intros n Hn. change (wo_head long_world) with 40 in Hn. split; [|done]. split; [unfold is_u64; cbn; lia|].
    cbn [long_world wo_block hour_block b_Timestamp]. lia.
  - constructor.
  - constructor.
  - intros address topic0 from to. by vm_compute.
Qed.

Lemma two_endpoints i : (i < endpoints hour_config)%nat →
  truthful long_world two_server i ∧ helpful long_world two_server i ∧ prompt two_server i.
Proof.
  intros Hi. destruct i as [|[|i]]; [..|cbn in Hi; lia].
  - split_and!; [by eapply node_truthful; [apply long_world_ok|]|by eapply node_helpful; [apply long_world_ok|]|].
    intros clock post status body. cbn [two_server node andb]. destruct post; by intros [= <- _].
  - split_and!; [by eapply node_truthful; [apply long_world_ok|]|by eapply node_helpful; [apply long_world_ok|]|].
    intros clock post status body. cbn [two_server node andb]. destruct post; by intros [= <- _].
Qed.

(** The turns of two workers over two endpoints, goroutines of different jobs taking turns. *)
Definition all_turns : list poolTurn :=
  [takeJob 0; takeJob 1] ++
  (mv ← [Interrupt true; Advance; Return]; [moveJob 0 1 mv; moveJob 1 0 mv; moveJob 0 0 mv; moveJob 1 1 mv]) ++
  [endJob 1; endJob 0; skipJob; leavePool 0; leavePool 1].

(** The first of the turns that can be taken, and the others in their order after it. *)
Fixpoint first_turn (server : nat → nat → rpcPost → httpReply) (past ts : list poolTurn) (p : pool (list Block) (gmap Z Z))
    : option (poolTurn * list poolTurn * pool (list Block) (gmap Z Z)) :=
  match ts with
  | [] => None
  | t :: ts =>
      match stampTurns server hour_config two_blocks [t] p with
      | Some p => Some (t, ts ++ past ++ [t], p)
      | None => first_turn server (past ++ [t]) ts p
      end
  end.

Fixpoint play (fuel : nat) (server : nat → nat → rpcPost → httpReply) (ts : list poolTurn) (p : pool (list Block) (gmap Z Z))
    : list poolTurn :=
  match fuel with
  | O => []
  | S fuel =>
      match first_turn server [] ts p with
      | Some (t, ts, p) => t :: play fuel server ts p
      | None => []
      end
  end.

Definition two_start : pool (list Block) (gmap Z Z) := stampPool hour_config two_blocks newWire.
Definition two_turns : list poolTurn := Eval vm_compute in play 1000 two_server all_turns two_start.
Definition half_turns : list poolTurn := Eval vm_compute in play 1000 half_server all_turns two_start.

(** Where turns lead from the start. *)
Definition led (server : nat → nat → rpcPost → httpReply) (ts : list poolTurn) : pool (list Block) (gmap Z Z) :=
  default two_start (stampTurns server hour_config two_blocks ts two_start).

Lemma led_there server ts :
  bool_decide (is_Some (stampTurns server hour_config two_blocks ts two_start)) = true →
  stampTurns server hour_config two_blocks ts (stampPool hour_config two_blocks newWire) = Some (led server ts).
Proof. intros [p Hp]%bool_decide_eq_true_1. unfold led. by rewrite Hp. Qed.

Lemma two_led : stampTurns two_server hour_config two_blocks two_turns (stampPool hour_config two_blocks newWire) = Some (led two_server two_turns).
Proof. apply led_there. by vm_compute. Qed.
Lemma half_led : stampTurns half_server hour_config two_blocks half_turns (stampPool hour_config two_blocks newWire) = Some (led half_server half_turns).
Proof. apply led_there. by vm_compute. Qed.

Lemma two_range : Forall (λ n, 0 ≤ n ≤ wo_head long_world) two_blocks.
Proof. apply Forall_forall. intros n Hn%elem_of_seqZ. cbn. lia. Qed.

(** Cancelled exchanges, and a reply that may or may not come. *)
Example half_interrupted : moveJob 0 0 (Interrupt true) ∈ half_turns.
Proof. apply (bool_decide_eq_true_1 (moveJob 0 0 (Interrupt true) ∈ half_turns)). by vm_compute. Qed.

Lemma poolResult_Ok {A B} (p : pool A B) : hasFailed (po_failed p) = false → poolResult p = Ok (po_out p).
Proof. unfold poolResult. by destruct (po_failed p). Qed.

Lemma two_not_failed : hasFailed (po_failed (led two_server two_turns)) = false.
Proof. by vm_compute. Qed.

Definition two_stamps : gmap Z Z := po_out (led two_server two_turns).

Lemma Interleaved_reads_true_witness :
  two_stamps !! 7 = Some (b_Timestamp (wo_block long_world 7)) ∧ two_stamps !! 40 = None.
Proof.
  assert (∀ n, two_stamps !! n = if decide (n ∈ two_blocks) then Some (b_Timestamp (wo_block long_world n)) else None) as H.
  - refine (proj1 (Interleaved_reads_true two_server hour_config two_blocks newWire long_world 1 long_world_ok _ _)
      two_turns (led two_server two_turns) two_stamps two_range _ two_led _ _).
    + cbn. lia.
    + apply two_endpoints. cbn. lia.
    + by vm_compute.
    + by vm_compute.
    + exact (poolResult_Ok (led two_server two_turns) two_not_failed).
  - rewrite (H 7), (H 40). split; vm_compute; reflexivity.
Defined.

(** The second node is blamed, by a failure of its own. *)
Lemma First_failure_is_its_own_witness :
  (∃ j ns i e m, stampBatches two_blocks !! j = Some ns ∧ (i < endpoints hour_config)%nat ∧
     errEndpoint 1 errTransport = errEndpoint i e ∧
     may_end half_server i (window newWire i) (counters newWire i) (blocksByNumberT ns) (Err e) m) ∨
  (∃ j ns k a b m m', stampBatches two_blocks !! j = Some ns ∧ (k < endpoints hour_config)%nat ∧
     errEndpoint 1 errTransport = errDisagreement k ∧
     may_end half_server 0 (window newWire 0) (counters newWire 0%nat) (blocksByNumberT ns) (Ok a) m ∧
     may_end half_server k (window newWire k) (counters newWire k) (blocksByNumberT ns) (Ok b) m' ∧ canonicalBlocks a ≠ canonicalBlocks b).
Proof.
  refine (proj1 (First_failure_is_its_own half_server hour_config two_blocks newWire half_turns (led half_server half_turns)
    (errEndpoint 1 errTransport) _ half_led _ _)).
  - by vm_compute.
  - by vm_compute.
  - by vm_compute.
Defined.

Lemma Interleaved_stamps_end_witness :
  ∃ ts' p', stampTurns half_server hour_config two_blocks ts' (led half_server (take 40 half_turns)) = Some p' ∧
    poolEnded (length (stampBatches two_blocks)) p' = true.
Proof.
  apply (proj2 (Interleaved_stamps_end half_server hour_config two_blocks newWire (take 40 half_turns) (led half_server (take 40 half_turns))
    ltac:(done) (led_there half_server (take 40 half_turns) ltac:(by vm_compute)))).
Defined.

Lemma Interleaved_stamps_served_witness :
  ∃ out, poolResult (led two_server two_turns) = Ok out ∧
    ∀ n, out !! n = if decide (n ∈ two_blocks) then Some (b_Timestamp (wo_block long_world n)) else None.
Proof.
  apply (Interleaved_stamps_served two_server hour_config two_blocks newWire long_world two_turns).
  - exact long_world_ok.
  - cbn. lia.
  - exact two_endpoints.
  - exact two_range.
  - by vm_compute.
  - exact two_led.
  - by vm_compute.
Defined.

Definition two_checked : Res chainError (list Block) * wireState :=
  crossCheck hour_schedule hour_config (λ i, blocksByNumber two_server i two_blocks) canonicalBlocks newWire.

Lemma Sequential_is_interleaved_witness :
  ∃ mvs f w2, fanMoves two_server mvs (startFan (endpoints hour_config) (λ _, blocksByNumberT two_blocks)) newWire = Some (f, w2) ∧
    fanDone f = true ∧ fanResult f ≫= agreement canonicalBlocks = two_checked.1 ∧ ∀ a, two_checked.1 = Ok a → w2 = two_checked.2.
Proof.
  apply (Sequential_is_interleaved two_server hour_config newWire hour_schedule (blocksByNumberT two_blocks)
    (λ i, blocksByNumber two_server i two_blocks) canonicalBlocks two_checked.1 two_checked.2).
  - constructor.
  - apply hour_schedule_ok.
  - apply surjective_pairing.
Defined.
