(* ===== verification/FakeNodeSpec.v ===== *)
(** * The chain a fake node serves

    What the builders write is what the chain package's decoders read, and the [World]
    the node is a node of. *)
From S2P Require Import Prelude Sorts Bytes Text Json Paths Merkle MerkleEncode Twab Chain ChainTheorems StateMonad Wire Reader ChainReader FakeNode WireSpec Honest ReaderSpec ReaderTruth ReaderLive Node.

Open Scope list_scope.
Open Scope Z_scope.

(** ** Hex text *)

(** The digits the node and the decoders write: no upper case. *)
Definition lowerHex (c : ascii) : bool := let k := ascii_code c in ((48 <=? k) && (k <=? 57)) || ((97 <=? k) && (k <=? 102)).

Fixpoint lowerHexText (s : string) : bool :=
  match s with EmptyString => true | String c s => lowerHex c && lowerHexText s end.

Lemma lowerHex_digit d : 0 ≤ d < 16 → lowerHex (digit d) = true.
Proof.
  intros Hd. assert (∃ n : nat, (n < 16)%nat ∧ d = Z.of_nat n) as (n & Hn & ->) by (exists (Z.to_nat d); lia).
  clear Hd. do 16 (destruct n as [|n]; [reflexivity|]). lia.
Qed.

Lemma lowerHex_format fuel n acc : lowerHexText acc = true → lowerHexText (format_loop fuel 16 n acc) = true.
Proof.
  revert n acc. induction fuel as [|fuel IH]; intros n acc Hacc; cbn [format_loop]; [done|].
  destruct (n =? 0); [done|]. apply IH. cbn [lowerHexText]. rewrite Hacc, lowerHex_digit; [done|].
  apply Z.mod_pos_bound. lia.
Qed.

Lemma lowerHex_FormatUint n : lowerHexText (FormatUint 16 n) = true.
Proof. unfold FormatUint. destruct (n =? 0); [done|]. by apply lowerHex_format. Qed.

Lemma lowerHex_EncodeToString l : lowerHexText (EncodeToString l) = true.
Proof.
  induction l as [|b l IH]; [done|]. cbn [EncodeToString foldr hex_byte lowerHexText]. fold (EncodeToString l).
  pose proof (byte_to_Z_range b). rewrite IH, !lowerHex_digit; [done|apply Z.mod_pos_bound; lia|].
  split; [apply Z.div_pos; lia|apply Z.div_lt_upper_bound; lia].
Qed.

(** A lower-case hex digit is a digit, no space and its own lower case. *)
Lemma lowerHex_char c s : lowerHex c = true →
  is_Some (hex_value c) ∧ trimLeft (String c s) = String c s ∧ ToLower (String c s) = String c (ToLower s).
Proof.
  destruct c as [[] [] [] [] [] [] [] []]; intros H; try discriminate H; (split; [by eexists|by split]).
Qed.

Lemma hexPrefix_lower s : lowerHexText s = true → hexPrefix s = s.
Proof.
  induction s as [|c s IH]; [done|]. cbn [lowerHexText hexPrefix]. intros [Hc Hs]%andb_true_iff.
  destruct (lowerHex_char c s Hc) as [[v ->] _]. by rewrite IH.
Qed.

Lemma ToLower_lower s : lowerHexText s = true → ToLower s = s.
Proof.
  induction s as [|c s IH]; [done|]. cbn [lowerHexText]. intros [Hc Hs]%andb_true_iff.
  destruct (lowerHex_char c s Hc) as (_ & _ & ->). by rewrite IH.
Qed.

Lemma skipSpace_lower s : lowerHexText s = true → skipSpace s = Some s.
Proof.
  intros Hs. unfold skipSpace. assert (trimLeft s = s) as ->.
  { destruct s as [|c s]; [done|]. apply andb_true_iff in Hs as [Hc _]. apply (lowerHex_char c s Hc). }
  rewrite Nat.sub_diag. assert (String.substring 0 0 s = EmptyString) as -> by (by destruct s). done.
Qed.

Lemma scanQuantity_quantity n : is_u64 n → scanQuantity (quantity n) = Ok n.
Proof.
  intros Hn. unfold scanQuantity, quantity. pose proof (lowerHex_FormatUint n) as Hl.
  rewrite (skipSpace_lower _ Hl), (hexPrefix_lower _ Hl). by rewrite ParseUint_FormatUint by (lia || done).
Qed.

Lemma scanQuantity_u64 s n : scanQuantity s = Ok n → is_u64 n.
Proof.
  unfold scanQuantity. repeat (case_match; try done; []). intros Hn%or_err_Ok. by eapply ParseUint_u64; [|exact Hn].
Qed.

Lemma EqualFold_address a b : EqualFold (AddressString a) (AddressString b) = bool_decide (a = b).
Proof.
  unfold EqualFold. apply bool_decide_ext. unfold AddressString, hexBytes.
  assert (∀ l, ToLower (String "0" (String "x" (EncodeToString l))) = String "0" (String "x" (EncodeToString l))) as Hl.
  { intros l. cbn [ToLower]. by rewrite ToLower_lower by apply lowerHex_EncodeToString. }
  rewrite !Hl. split; [|by intros ->]. intros [= H]. apply (inj EncodeToString) in H. by apply vec_to_list_inj2.
Qed.

Lemma HashString_inj a b : HashString a = HashString b → a = b.
Proof. intros H. apply (f_equal ParseHash) in H. rewrite !ParseHash_HashString in H. by injection H. Qed.

Lemma TrimHexPrefix_hexBytes b : TrimHexPrefix (hexBytes b) = EncodeToString b.
Proof. done. Qed.

(** ** Calls *)

(** What a word holds of an amount. *)
Definition magnitude (a : option Z) : Z := Z.abs (default 0 a).
Definition abi_of (vs : list (option Z)) : list byte := vs ≫= λ a, abi_uint (magnitude a).

Lemma word_abi {E} z : Z.abs z < 2 ^ 256 → word (E:=E) (Some z) = Ok (abi_uint (Z.abs z)).
Proof. intros Hz. unfold word. by rewrite (proj2 (Z.ltb_lt _ _)) by done. Qed.

Lemma wordsOf_abi {E} vs : Forall (λ a, magnitude a < 2 ^ 256) vs →
  wordsOf (E:=E) ((λ a, Some (default 0 a)) <$> vs) = Ok (abi_of vs).
Proof.
  intros Hvs. unfold wordsOf.
  rewrite (proj2 (traverse_Ok _ _ ((λ a, abi_uint (magnitude a)) <$> vs))).
  - cbn [mbind Res_bind]. f_equal. apply bind_fmap_id.
  - induction Hvs; rewrite ?fmap_cons; constructor; [by apply word_abi|done].
Qed.

Definition bookAmounts (v : vec (option Z) 5) : vec Z 5 := vmap magnitude v.

Lemma abi_bookAmounts v : abi_amounts (bookAmounts v) = abi_of (vec_to_list v).
Proof.
  unfold abi_amounts, bookAmounts, abi_of. rewrite vec_to_list_map. induction (vec_to_list v) as [|a l IH]; [done|].
  by rewrite fmap_cons, !bind_cons, IH.
Qed.

Lemma bookAmounts_ok v : Forall (λ a, magnitude a < 2 ^ 256) (vec_to_list v) → vec_ok (bookAmounts v).
Proof.
  unfold vec_ok, bookAmounts. rewrite vec_to_list_map, Forall_fmap. intros Hv. eapply Forall_impl; [exact Hv|]. intros a Ha.
  unfold is_uint256, compose, magnitude in *. lia.
Qed.

(** The book as a client reads it: absolute values, and nothing claimed. *)
Definition noneClaimed : vec Z 5 := vreplicate 5 0.
Lemma noneClaimed_ok : vec_ok noneClaimed.
Proof. unfold vec_ok. by repeat constructor. Qed.
Definition bookOf (l : fakeLedger) : LedgerBook :=
  mkLedgerBook (fl_Root l) (Z.abs (fl_RootPostedAt l)) (fl_Skipped l) (some_vec (bookAmounts (fl_Funded l)))
    (some_vec (bookAmounts (fl_Totals l))) (some_vec noneClaimed).

(** Every amount fits its word, and the time is an int64. *)
Definition ledger_ok (l : fakeLedger) : Prop := -2 ^ 63 ≤ fl_RootPostedAt l < 2 ^ 63 ∧
  Forall (λ a, magnitude a < 2 ^ 256) (vec_to_list (fl_Funded l)) ∧ Forall (λ a, magnitude a < 2 ^ 256) (vec_to_list (fl_Totals l)).

Lemma noLedger_ok : ledger_ok noLedger.
Proof. by split_and!; [..|repeat constructor|repeat constructor]. Qed.

Lemma ledgerReply_abi l : ledger_ok l →
  ledgerReply l = Ok (abi_ledger (fl_Root l) (Z.abs (fl_RootPostedAt l)) (fl_Skipped l) (bookAmounts (fl_Funded l))
    (bookAmounts (fl_Totals l)) noneClaimed).
Proof.
  intros (Hp & Hf & Ht). unfold ledgerReply, ledgerAmounts. rewrite (word_abi (fl_RootPostedAt l)) by lia.
  rewrite word_abi by (destruct (fl_Skipped l); lia). rewrite wordsOf_abi.
  - cbn [mbind Res_bind]. unfold abi_ledger. rewrite !abi_bookAmounts. unfold abi_of at 1. rewrite !bind_app.
    unfold abi_bool. by destruct (fl_Skipped l).
  - apply Forall_app. split; [done|]. apply Forall_app. split; [done|]. by apply Forall_replicate.
Qed.

Section calls.
Context (keccak256 : list byte → Hash).

Lemma encodeLedgerCall_abi id :
  encodeLedgerCall keccak256 KindEpoch id = fakeSelector keccak256 "ledger(uint8,uint256)" ++ replicate 32 x00 ++ abi_uint id.
Proof.
  unfold encodeLedgerCall, selectorLedger, selectorOf, fakeSelector, abi_uint. change selectorSize with 4%nat. change wordSize with 32%nat.
  assert (length (take 4 (vec_to_list (keccak256 (stringBytes "ledger(uint8,uint256)")))) = 4%nat) as Hs by by rewrite length_take, length_vec_to_list.
  pose proof (length_be_encode 32 id) as Hw. revert Hs Hw. generalize (take 4 (vec_to_list (keccak256 (stringBytes "ledger(uint8,uint256)")))) as sel, (be_encode 32 id) as w.
  intros sel w Hs Hw. do 4 (destruct sel as [|? sel]; [done|]). destruct sel; [|done].
  unfold splice. rewrite Hw. cbn [length replicate Nat.mul Nat.add Nat.sub take drop app]. by rewrite app_nil_r.
Qed.

Lemma encodeGetLaunchedToken_abi token :
  encodeGetLaunchedToken keccak256 token = fakeSelector keccak256 "getLaunchedToken(address)" ++ abi_address token.
Proof.
  unfold encodeGetLaunchedToken, selectorGetLaunchedToken, selectorOf, fakeSelector, abi_address. change selectorSize with 4%nat. change wordSize with 32%nat.
  assert (length (take 4 (vec_to_list (keccak256 (stringBytes "getLaunchedToken(address)")))) = 4%nat) as Hs by by rewrite length_take, length_vec_to_list.
  pose proof (length_vec_to_list token) as Hw. revert Hs Hw. generalize (take 4 (vec_to_list (keccak256 (stringBytes "getLaunchedToken(address)")))) as sel, (vec_to_list token) as w.
  intros sel w Hs Hw. do 4 (destruct sel as [|? sel]; [done|]). destruct sel; [|done].
  unfold splice. rewrite Hw. cbn [length replicate Nat.mul Nat.add Nat.sub take drop app addressSize]. by rewrite app_nil_r.
Qed.
End calls.

(** ** Built nodes *)

(** A log of the node, as an event. *)
Definition encodeNodeLog (e : eventLog) : nodeLog :=
  mkNodeLog (AddressString (el_Address e)) (HashString <$> el_Topics e) (hexBytes (el_Data e)) (quantity (el_BlockNumber e))
    EmptyString (quantity (el_LogIndex e)) EmptyString EmptyString false.

(** What a builder appends as the log of position [i]: a posted Root is the longest. *)
Record appended (i : nat) (e : eventLog) : Prop := Appended {
  ap_block : is_u64 (el_BlockNumber e);
  ap_index : el_LogIndex e = u64 (Z.of_nat i);
  ap_hash : el_BlockHash e = zeroHash;
  ap_topics : (1 ≤ length (el_Topics e) ≤ 3)%nat;
  ap_data : (length (el_Data e) ≤ 352)%nat;
}.

Definition logs_built (logs : list nodeLog) : Prop :=
  ∃ es, logs = encodeNodeLog <$> es ∧ ∀ i e, es !! i = Some e → appended i e.

Section hashed.
Context (keccak256 : list byte → Hash).

(** Nodes as the tests make them: the builders append, [DropLastLog] takes back, and the
    exported fields are set at will. *)
Inductive built : fakeNode → Prop :=
  | built_new timestamps : built (fakeNew timestamps)
  | built_transfer n block token from to value n' : built n → is_u64 block →
      nodeTransfer (E:=fakeError) keccak256 block token from to value n = Ok n' → built n'
  | built_exclusion n block distributor account : built n → is_u64 block →
      built (nodeExclusion keccak256 block distributor account n)
  | built_root n block distributor id root totals carryIn n' : built n → is_u64 block →
      nodeRootPosted (E:=fakeError) keccak256 block distributor id root totals carryIn n = Ok n' → built n'
  | built_launch n factory token curve : built n → built (Launch factory token curve n)
  | built_drop n n' : built n → DropLastLog (E:=fakeError) n = Ok n' → built n'
  | built_served n post text : built n → built (handle keccak256 text post n).2
  | built_fields n n' : built n → fn_logs n' = fn_logs n → built n'.

Lemma length_wordsOf xs ws : wordsOf (E:=fakeError) xs = Ok ws → length ws = (32 * length xs)%nat.
Proof.
  unfold wordsOf. intros (l & Hl%traverse_Ok & [= <-])%bind_Ok. induction Hl as [|x w xs l Hw _ IH]; [done|].
  rewrite bind_cons, length_app, IH. cbn [length]. assert (length w = 32%nat); [|unfold id; lia].
  unfold word in Hw. destruct x as [x|]; [|done]. apply or_panic_Ok in Hw as [_ <-]. apply length_be_encode.
Qed.

(** A topic is 32 bytes, whoever encodes it. *)
Lemma addressTopic_hash a : addressTopic a = HashString (copy_array 32 (abi_address a)).
Proof.
  unfold addressTopic, HashString, hexBytes. rewrite copy_array_to_list by apply length_abi_address. do 3 f_equal.
  unfold splice, abi_address. rewrite length_vec_to_list. change (drop (12 + 20) (replicate 32 x00)) with (@nil byte).
  by rewrite app_nil_r.
Qed.

Lemma wordTopic_hash z : String "0" (String "x" (EncodeToString (abi_uint z))) = HashString (copy_array 32 (abi_uint z)).
Proof. unfold HashString, hexBytes. by rewrite copy_array_to_list by apply length_abi_uint. Qed.

Lemma appendLog_built address topics ts data block n : logs_built (fn_logs n) → is_u64 block →
  topics = HashString <$> ts → (1 ≤ length ts ≤ 3)%nat → (length data ≤ 352)%nat →
  logs_built (fn_logs (appendLog address topics data block n)).
Proof using Type.
  intros (es & Hes & Happ) Hblock -> Hts Hdata. cbn [appendLog setLogs fn_logs].
  exists (es ++ [mkEventLog address ts data block zeroHash (u64 (Z.of_nat (length (fn_logs n))))]). split.
  - by rewrite fmap_app, <-Hes.
  - intros i e [Hi|[Hge Hi]]%lookup_app_Some; [by apply Happ|]. apply list_lookup_singleton_Some in Hi as [Hi <-].
    assert (i = length (fn_logs n)) as -> by (rewrite Hes, length_fmap; lia). by split.
Qed.

Lemma built_logs n : built n → logs_built (fn_logs n).
Proof using Type.
  induction 1 as [ts|n block token from to value n' _ IH Hblock Hn|n block d a _ IH Hblock
    |n block d id root totals carryIn n' _ IH Hblock Hn|n f t c _ IH|n n' _ IH Hn|n post text _ IH|n n' _ IH Hn]; try done.
  - exists []. split; [done|]. intros i e. by rewrite lookup_nil.
  - unfold nodeTransfer in Hn. inv_ok Hn. subst. rewrite !addressTopic_hash.
    eapply appendLog_built with (ts := [_; _; _]); [done|done|reflexivity|cbn; lia|].
    match goal with H : word _ = Ok _ |- _ => unfold word in H; apply or_panic_Ok in H as [_ <-] end.
    rewrite length_be_encode. lia.
  - unfold nodeExclusion. rewrite addressTopic_hash. eapply appendLog_built with (ts := [_; _]); [done|done|reflexivity|cbn; lia|cbn; lia].
  - unfold nodeRootPosted in Hn. inv_ok Hn. subst.
    repeat match goal with H : word _ = Ok _ |- _ => unfold word in H; apply or_panic_Ok in H as [_ <-] end.
    rewrite !wordTopic_hash. eapply appendLog_built with (ts := [_; _; _]); [done|done|reflexivity|cbn; lia|].
    match goal with H : wordsOf _ = Ok _ |- _ => apply length_wordsOf in H end.
    rewrite !length_app, !length_vec_to_list in *. lia.
  - unfold DropLastLog in Hn. apply or_panic_Ok in Hn as [Hlen%Nat.ltb_lt <-]. cbn [setLogs fn_logs].
    destruct IH as (es & Hes & Happ). exists (take (length (fn_logs n) - 1) es). split.
    + by rewrite fmap_take, <-Hes.
    + intros i e [Hi _]%lookup_take_Some. by apply Happ.
  - by rewrite Hn.
Qed.

(** ** The chain *)

Definition withHash (n : fakeNode) (e : eventLog) : eventLog :=
  mkEventLog (el_Address e) (el_Topics e) (el_Data e) (el_BlockNumber e) (HashOf keccak256 n (el_BlockNumber e)) (el_LogIndex e).

Definition readLog (n : fakeNode) (l : nodeLog) : option eventLog :=
  match scanQuantity (nl_BlockNumber l) with
  | Ok block => ok_of (decodeLog (served keccak256 n block l))
  | _ => None
  end.

Definition nodeHeader (n : fakeNode) (k : Z) : Block :=
  mkBlock k (HashOf keccak256 n k) (parentHash keccak256 n k) (fn_Timestamps n !!! Z.to_nat k).

(** The return data of a call. *)
Definition callAnswer (n : fakeNode) (to : Address) (data : list byte) : Res chainError (list byte) :=
  match nodeCall keccak256 n (AddressString to) (hexBytes data) with
  | Ok s => parseHexBytes s
  | _ => Err errTransport
  end.

Definition nodeWorld (n : fakeNode) : World :=
  mkWorld (fn_ChainID n) (nodeHeader n) (Z.of_nat (length (fn_Timestamps n)) - 1) (sortLogs (omap (readLog n) (fn_logs n)))
    (λ to data _, default [] (ok_of (callAnswer n to data))).

(** A node set up as the tests set theirs up: blocks at times that are not negative, every
    tip a block it has, and amounts that fit their words. *)
Record node_ok (n : fakeNode) : Prop := NodeOk {
  no_blocks : 0 < Z.of_nat (length (fn_Timestamps n)) < 2 ^ 64;
  no_times : Forall (λ t, 0 ≤ t < 2 ^ 63) (fn_Timestamps n);
  no_tips : ∀ tag number, fn_Tips n !! tag = Some number →
    tag ∈ [Latest; Safe; Finalized] ∧ 0 ≤ number < Z.of_nat (length (fn_Timestamps n));
  no_levels : ∀ level, level ∈ [Latest; Safe; Finalized] → is_Some (fn_Tips n !! level);
  no_chainID : is_u64 (fn_ChainID n);
  no_logs : Z.of_nat (length (fn_logs n)) < 2 ^ 50;
  no_ledgers : ∀ id l, fn_Ledgers n !! id = Some l → ledger_ok l;
  no_status : fn_HTTPStatus n = 0;
}.

Lemma served_encode n e : served keccak256 n (el_BlockNumber e) (encodeNodeLog e) = encodeLog (withHash n e).
Proof. done. Qed.

Lemma readLog_encode n i e : appended i e → readLog n (encodeNodeLog e) = Some (withHash n e).
Proof using Type.
  intros [Hb Hi _ _ _]. unfold readLog. cbn [encodeNodeLog nl_BlockNumber]. rewrite scanQuantity_quantity by done.
  rewrite served_encode, decodeLog_encode; [done|]. split; [done|]. cbn. rewrite Hi. apply u64_range.
Qed.

Section node.
Context (n : fakeNode) (es : list eventLog) (Hes : fn_logs n = encodeNodeLog <$> es)
  (Happ : ∀ i e, es !! i = Some e → appended i e) (Hok : node_ok n).

Lemma appended_in e : e ∈ es → ∃ i, (i < length es)%nat ∧ appended i e.
Proof using Happ. intros [i Hi]%list_elem_of_lookup. exists i. split; [by eapply lookup_lt_Some|by apply Happ]. Qed.

Lemma node_events : omap (readLog n) (fn_logs n) = withHash n <$> es.
Proof using Hes Happ.
  rewrite Hes. clear Hes. assert (∀ e, e ∈ es → readLog n (encodeNodeLog e) = Some (withHash n e)) as Hr.
  { intros e (i & _ & Hi)%appended_in. by eapply readLog_encode. }
  clear Happ. induction es as [|e l IH]; [done|]. rewrite fmap_cons. cbn [omap list_omap fmap list_fmap]. rewrite Hr by constructor.
  f_equal. apply IH. intros e' He'. apply Hr. by constructor.
Qed.

Lemma filterLogs_matches from to a t0 :
  filterLogs keccak256 n from to (AddressString a) (HashString t0) (fn_logs n) =
  Ok (encodeLog <$> filter (matches a t0 from to) (withHash n <$> es)).
Proof using Hes Happ.
  rewrite Hes. clear Hes. assert (∀ e, e ∈ es → is_u64 (el_BlockNumber e) ∧ ∃ t ts, el_Topics e = t :: ts) as Hr.
  { intros e (i & _ & [Hb _ _ Ht _])%appended_in. split; [done|]. destruct (el_Topics e); [cbn in Ht; lia|eauto]. }
  clear Happ. induction es as [|e l IH]; [done|].
  destruct (Hr e ltac:(constructor)) as (Hb & t & ts & Ht). specialize (IH (λ e' He', Hr e' ltac:(by constructor))).
  rewrite !fmap_cons, filter_cons. cbn [filterLogs]. change (nl_BlockNumber (encodeNodeLog e)) with (quantity (el_BlockNumber e)).
  change (nl_Address (encodeNodeLog e)) with (AddressString (el_Address e)).
  change (nl_Topics (encodeNodeLog e)) with (HashString <$> el_Topics e).
  assert (matches a t0 from to (withHash n e) ↔ el_Address e = a ∧ t = t0 ∧ from ≤ el_BlockNumber e ≤ to) as Hm.
  { unfold matches. change (el_Topics (withHash n e)) with (el_Topics e). rewrite Ht. cbn [head].
    split; intros (? & H & ?); (split; [done|split; [|done]]); [by injection H|by rewrite H]. }
  rewrite scanQuantity_quantity, EqualFold_address, Ht, IH by done. clear IH Hr Ht Hb. cbn [mbind Res_bind].
  destruct (Z.ltb_spec (el_BlockNumber e) from); cbn [orb]; [rewrite decide_False by (rewrite Hm; lia); done|].
  destruct (Z.ltb_spec to (el_BlockNumber e)); cbn [orb]; [rewrite decide_False by (rewrite Hm; lia); done|].
  destruct (decide (el_Address e = a)) as [He|Hne].
  - rewrite bool_decide_true by done. cbn [negb fmap list_fmap].
    change (index (E:=fakeError) (HashString t :: (HashString <$> ts)) 0) with (Ok (E:=fakeError) (HashString t)). cbn [mbind Res_bind].
    destruct (decide (t = t0)) as [Heq|Hne].
    + rewrite decide_True by (rewrite Hm; split; [done|split; [done|lia]]). by rewrite Heq, bool_decide_true.
    + rewrite decide_False by (rewrite Hm; tauto).
      by rewrite bool_decide_false by (intros Hh; by apply HashString_inj in Hh).
  - rewrite bool_decide_false by done. rewrite decide_False by (rewrite Hm; tauto). done.
Qed.

(** ** Its facts *)

Lemma length_es : length es = length (fn_logs n).
Proof using Hes. by rewrite Hes, length_fmap. Qed.

Lemma es_index i e : es !! i = Some e → el_LogIndex e = Z.of_nat i.
Proof using Hes Happ Hok.
  intros Hi. pose proof (no_logs _ Hok) as Hlen. rewrite <-length_es in Hlen. pose proof (lookup_lt_Some _ _ _ Hi).
  rewrite (ap_index _ _ (Happ i e Hi)). apply u64_id. unfold is_u64. lia.
Qed.

Lemma node_logs_perm : wo_logs (nodeWorld n) ≡ₚ withHash n <$> es.
Proof using Hes Happ. cbn [nodeWorld wo_logs]. rewrite node_events. apply sort_by_perm. Qed.

Lemma node_logs_sorted : StronglySorted log_before (wo_logs (nodeWorld n)).
Proof using Hes Happ Hok.
  cbn [nodeWorld wo_logs]. rewrite node_events. eapply (StronglySorted_weaken (cmp_lt compareLogs)).
  - intros a b Hab. pose proof (compareLogs_spec a b) as Hs. unfold cmp_lt in Hab. by rewrite Hab in Hs.
  - assert (∀ i j e e', es !! i = Some e → es !! j = Some e' → el_LogIndex e = el_LogIndex e' → i = j) as Hinj.
    { intros i j e e' Hi Hj. rewrite (es_index i e Hi), (es_index j e' Hj). lia. }
    apply sort_by_strict; [apply _| |].
    + apply NoDup_alt. intros i j x. rewrite !list_lookup_fmap. intros (e & Hi & ->)%fmap_Some (e' & Hj & He)%fmap_Some.
      apply (Hinj i j e e' Hi Hj). by apply (f_equal el_LogIndex) in He.
    + intros x y (e & -> & Hx)%list_elem_of_fmap (e' & -> & Hy)%list_elem_of_fmap Heq.
      apply list_elem_of_lookup in Hx as [i Hi]. apply list_elem_of_lookup in Hy as [j Hj].
      pose proof (compareLogs_spec (withHash n e) (withHash n e')) as Hs. rewrite Heq in Hs. injection Hs as _ Hidx.
      assert (i = j) as -> by by apply (Hinj i j e e'). by rewrite Hi in Hj; injection Hj as ->.
Qed.

Lemma node_small : Z.of_nat (length (canonicalLogs (wo_logs (nodeWorld n)))) < 2 ^ 64.
Proof using Hes Happ Hok.
  rewrite canonicalLogs_bind.
  assert (length (wo_logs (nodeWorld n) ≫= logBytes) = length ((withHash n <$> es) ≫= logBytes)) as ->.
  { apply Permutation_length. by rewrite node_logs_perm. }
  pose proof (no_logs _ Hok) as Hlen. rewrite <-length_es in Hlen.
  assert (length ((withHash n <$> es) ≫= logBytes) ≤ 600 * length es)%nat; [|lia].
  assert (∀ e, e ∈ es → length (logBytes (withHash n e)) ≤ 600)%nat as Hb.
  { intros e (i & _ & [_ _ _ Ht Hd])%appended_in. unfold logBytes. rewrite !length_app, !length_be_encode, !length_vec_to_list, length_topics.
    cbn. lia. }
  clear Hlen Hes Happ. induction es as [|e l IH]; [cbn; lia|]. rewrite fmap_cons, bind_cons, length_app.
  specialize (IH (λ e' He', Hb e' ltac:(by constructor))). specialize (Hb e ltac:(constructor)). cbn [length]. lia.
Qed.

Lemma node_time k : 0 ≤ k < Z.of_nat (length (fn_Timestamps n)) →
  fn_Timestamps n !! Z.to_nat k = Some (b_Timestamp (nodeHeader n k)) ∧ 0 ≤ b_Timestamp (nodeHeader n k) < 2 ^ 63.
Proof using Hok.
  intros Hk. destruct (lookup_lt_is_Some_2 (fn_Timestamps n) (Z.to_nat k)) as [t Ht]; [lia|].
  cbn [nodeHeader b_Timestamp]. rewrite (list_lookup_total_correct _ _ _ Ht). split; [done|].
  pose proof (no_times _ Hok) as Hall. rewrite Forall_lookup in Hall. by eapply Hall.
Qed.

Lemma node_world_ok : world_ok (nodeWorld n).
Proof using Hes Happ Hok.
  pose proof (no_blocks _ Hok) as Hlen. split.
  - cbn. unfold is_u64. lia.
  - apply (no_chainID _ Hok).
  - intros k Hk. cbn in Hk |- *. split; [|done]. split; [cbn; unfold is_u64; lia|]. apply node_time. lia.
  - apply node_logs_sorted.
  - rewrite node_logs_perm, Forall_fmap, Forall_forall. intros e (i & _ & [Hb Hi _ _ _])%appended_in.
    split; [done|]. cbn. rewrite Hi. apply u64_range.
  - intros address topic0 from to. eapply Z.le_lt_trans; [|apply node_small].
    apply inj_le, length_canonicalLogs_filter.
Qed.

(** ** What it answers *)

Lemma quantity_no_level k : quantity k ∉ [Latest; Safe; Finalized].
Proof using Type. rewrite !elem_of_cons, elem_of_nil. by intros [?|[?|[?|?]]]. Qed.

Lemma tagNumber_quantity k : is_u64 k →
  tagNumber n (quantity k) = if Z.of_nat (length (fn_Timestamps n)) <=? k then None else Some k.
Proof using Hok.
  intros Hk. unfold tagNumber. destruct (fn_Tips n !! quantity k) as [number|] eqn:E.
  - by apply (no_tips _ Hok) in E as [?%quantity_no_level _].
  - by rewrite scanQuantity_quantity.
Qed.

Lemma tagNumber_range tag k : tagNumber n tag = Some k → 0 ≤ k < Z.of_nat (length (fn_Timestamps n)).
Proof using Hok.
  unfold tagNumber. destruct (fn_Tips n !! tag) as [number|] eqn:E; [intros [= <-]; by apply (no_tips _ Hok) in E as [_ ?]|].
  destruct (scanQuantity tag) as [z| |] eqn:Ep; [|done..]. apply scanQuantity_u64 in Ep as [? _].
  destruct (Z.leb_spec (Z.of_nat (length (fn_Timestamps n))) z); [done|]. intros [= <-]. lia.
Qed.

Lemma nodeBlock_header tag k : tagNumber n tag = Some k → nodeBlock keccak256 n tag = Ok (rawBlock (encodeBlock (nodeHeader n k))).
Proof using Hok.
  intros Hk. pose proof (tagNumber_range _ _ Hk) as Hr. destruct (node_time k Hr) as [Ht Hb].
  unfold nodeBlock. rewrite Hk. unfold index. rewrite Ht. cbn [mbind Res_bind].
  rewrite u64_id by (unfold is_u64; lia). done.
Qed.

Lemma nodeBlock_cases tag :
  nodeBlock keccak256 n tag = Ok rawNull ∧ tagNumber n tag = None ∨
  ∃ k, tagNumber n tag = Some k ∧ 0 ≤ k ≤ wo_head (nodeWorld n) ∧
    nodeBlock keccak256 n tag = Ok (rawBlock (encodeBlock (wo_block (nodeWorld n) k))).
Proof using Hok.
  destruct (tagNumber n tag) as [k|] eqn:E.
  - right. exists k. split; [done|]. pose proof (tagNumber_range _ _ E). cbn [nodeWorld wo_head wo_block]. split; [lia|].
    by apply nodeBlock_header.
  - left. split; [|done]. unfold nodeBlock. by rewrite E.
Qed.

Lemma nodeGetLogs_page from to a t0 : is_u64 from → is_u64 to → ∃ ls,
  nodeGetLogs keccak256 n (quantity from) (quantity to) (AddressString a) (HashString t0) = Ok (encodeLog <$> ls) ∧
  ls ≡ₚ logs_of (nodeWorld n) a t0 from to.
Proof using Hes Happ.
  intros Hf Ht. eexists. unfold nodeGetLogs. rewrite !scanQuantity_quantity by done. cbn [mbind Res_bind].
  rewrite filterLogs_matches. split; [done|]. unfold logs_of. by rewrite node_logs_perm.
Qed.

Lemma nodeWorld_block k : 0 ≤ k ≤ wo_head (nodeWorld n) →
  decodeBlock (encodeBlock (wo_block (nodeWorld n) k)) = Ok (wo_block (nodeWorld n) k).
Proof using Hes Happ Hok. intros Hk. apply decodeBlock_encode, (wk_blocks _ node_world_ok k Hk). Qed.

(** A result of the node is true of its chain. *)
Lemma dispatch_true q raw : dispatch keccak256 n q = Ok raw → raw_true (nodeWorld n) q raw.
Proof using Hes Happ Hok.
  pose proof (no_blocks _ Hok) as Hlen. intros Hd. split.
  - intros s k -> ->. injection Hd as <-. change (sprintQuantity (fn_ChainID n)) with (quantity (fn_ChainID n)).
    rewrite parseQuantity_quantity by apply (no_chainID _ Hok). by intros [= <-].
  - intros k w b Hk -> ->. cbn [dispatch] in Hd. destruct (nodeBlock_cases (quantity k)) as [[He _]|(j & Hj & Hjr & He)];
      rewrite He in Hd; [done|].
    assert (w = encodeBlock (wo_block (nodeWorld n) j)) as -> by congruence. rewrite nodeWorld_block by done. intros [= <-].
    cbn in Hk. rewrite tagNumber_quantity in Hj by (unfold is_u64; lia). case_match; [done|]. by injection Hj as ->.
  - intros tag w b -> ->. cbn [dispatch] in Hd. destruct (nodeBlock_cases tag) as [[He _]|(j & Hj & Hjr & He)];
      rewrite He in Hd; [done|].
    assert (w = encodeBlock (wo_block (nodeWorld n) j)) as -> by congruence. rewrite nodeWorld_block by done. intros [= <-]. by exists j.
  - intros from to a t0 ws ls Hf Ht -> ->. cbn in Ht. cbn [dispatch] in Hd. unfold is_u64 in *.
    destruct (nodeGetLogs_page from to a t0) as (k & Hk & Hp); [unfold is_u64; lia..|]. rewrite Hk in Hd. injection Hd as <-.
    rewrite decodeLogs_encode; [by intros [= <-]|]. rewrite Hp. apply Forall_filter_keep, (wk_typed _ node_world_ok).
  - intros to data at_ s out Hat -> ->. cbn [dispatch] in Hd. cbn [nodeWorld wo_call]. unfold callAnswer.
    destruct (nodeCall keccak256 n (AddressString to) (hexBytes data)) as [s'| |]; [|done..]. injection Hd as ->.
    by intros ->.
Qed.

Lemma book_ok id : ledger_ok (default noLedger (fn_Ledgers n !! id)).
Proof using Hok. destruct (fn_Ledgers n !! id) as [l|] eqn:E; [by apply (no_ledgers _ Hok id)|apply noLedger_ok]. Qed.

Lemma launchedWords_ok token : Forall (λ z, 0 ≤ z < 2 ^ 256) (launchedWords n token) ∧ length (launchedWords n token) = 15%nat.
Proof using Type.
  unfold launchedWords. destruct (fn_Curves n !! token) as [curve|]; [|split; [by apply Forall_replicate|done]].
  assert (∀ a : Address, 0 ≤ be_decode (vec_to_list a) < 2 ^ 256) as Ha.
  { intros a. pose proof (be_decode_range (vec_to_list a)) as Hr. rewrite length_vec_to_list in Hr.
    change (256 ^ Z.of_nat 20) with (2 ^ 160) in Hr. lia. }
  split; [|done]. repeat apply Forall_insert; [by apply Forall_replicate|apply Ha|apply Ha|done].
Qed.

Lemma launched_wordsOf token :
  wordsOf (E:=fakeError) (Some <$> launchedWords n token) = Ok ((abi_uint <$> launchedWords n token) ≫= id).
Proof using Type.
  destruct (launchedWords_ok token) as [Hw _]. revert Hw. generalize (launchedWords n token) as zs. intros zs Hzs.
  assert ((Some <$> zs) = (λ a, Some (default 0 a)) <$> (Some <$> zs)) as -> by by rewrite <-list_fmap_compose.
  rewrite wordsOf_abi.
  - f_equal. unfold abi_of. rewrite <-bind_fmap_id, <-list_fmap_compose. f_equal. induction Hzs as [|z zs Hz _ IH]; [done|].
    rewrite !fmap_cons, IH. f_equal. unfold compose, magnitude. cbn [default from_option id]. by rewrite Z.abs_eq by lia.
  - rewrite Forall_fmap. eapply Forall_impl; [exact Hzs|]. intros z [Hz ?]. unfold compose, magnitude. cbn [default from_option id].
    by rewrite Z.abs_eq.
Qed.

Lemma factoryCall_answers raw : ∃ out, factoryCall keccak256 n raw = Ok (hexBytes out).
Proof using Type.
  unfold factoryCall. case_match; [by exists []|]. set (token := copy_array 20 _).
  rewrite launched_wordsOf. by eexists.
Qed.

(** Every call gets an answer. *)
Lemma nodeCall_answers to data : ∃ out, nodeCall keccak256 n (AddressString to) (hexBytes data) = Ok (hexBytes out).
Proof using Hok.
  unfold nodeCall. rewrite TrimHexPrefix_hexBytes, DecodeString_EncodeToString. cbn [or_err mbind Res_bind].
  case_match; [apply factoryCall_answers|]. case_match; [by exists []|].
  rewrite ledgerReply_abi by apply book_ok. by eexists.
Qed.

(** Called as the Reader calls the Distributor, it gives the book's entry. *)
Lemma ledger_call distributor id : is_u64 id → (fn_Factory n = zeroAddress ∨ fn_Factory n ≠ distributor) →
  callAnswer n distributor (encodeLedgerCall keccak256 KindEpoch id) =
  let l := default noLedger (fn_Ledgers n !! id) in
  Ok (abi_ledger (fl_Root l) (Z.abs (fl_RootPostedAt l)) (fl_Skipped l) (bookAmounts (fl_Funded l)) (bookAmounts (fl_Totals l)) noneClaimed).
Proof using Hok.
  intros Hid Hf. unfold callAnswer, nodeCall. rewrite TrimHexPrefix_hexBytes, DecodeString_EncodeToString. cbn [or_err mbind Res_bind].
  rewrite EqualFold_address.
  assert (negb (bool_decide (fn_Factory n = zeroAddress)) && bool_decide (distributor = fn_Factory n) = false) as ->.
  { destruct Hf as [Hf|Hf]; [by rewrite bool_decide_true|]. rewrite (bool_decide_false (distributor = _)) by done. apply andb_false_r. }
  rewrite encodeLedgerCall_abi. set (sel := fakeSelector keccak256 _).
  assert (length sel = 4%nat) as Hs by (unfold sel, fakeSelector; by rewrite length_take, length_vec_to_list).
  rewrite !length_app, length_replicate, length_abi_uint, Hs. cbn [Nat.add wordSize Nat.eqb negb orb].
  rewrite take_app_length' by done. rewrite bool_decide_true by done. cbn [negb orb].
  rewrite lookup_app_r, Hs by lia. rewrite lookup_app_l by (rewrite length_replicate; lia).
  rewrite lookup_replicate_2 by lia. rewrite bool_decide_true by done. cbn [negb].
  change (4 + 32)%nat with 36%nat. rewrite app_assoc, drop_app_length' by by rewrite length_app, length_replicate, Hs.
  rewrite (be_decode_encode 32) by (unfold is_u64 in Hid; change (256 ^ Z.of_nat 32) with (2 ^ 256); lia).
  rewrite u64_id by done. rewrite ledgerReply_abi by apply book_ok. cbn [mbind Res_bind].
  apply parseHexBytes_hexBytes.
Qed.

(** Called as the Reader calls the factory, it gives the token's curve. *)
Lemma launch_call token curve : fn_Factory n ≠ zeroAddress → fn_Curves n !! token = Some curve →
  callAnswer n (fn_Factory n) (encodeGetLaunchedToken keccak256 token) =
  Ok ((abi_uint <$> launchedWords n token) ≫= id).
Proof using Type.
  intros Hf Hc. unfold callAnswer, nodeCall. rewrite TrimHexPrefix_hexBytes, DecodeString_EncodeToString. cbn [or_err mbind Res_bind].
  rewrite EqualFold_address, bool_decide_false, bool_decide_true by done. cbn [negb andb]. unfold factoryCall.
  rewrite encodeGetLaunchedToken_abi. set (sel := fakeSelector keccak256 _).
  assert (length sel = 4%nat) as Hs by (unfold sel, fakeSelector; by rewrite length_take, length_vec_to_list).
  rewrite length_app, length_abi_address, Hs. cbn [Nat.add wordSize Nat.eqb negb orb].
  rewrite take_app_length' by done. rewrite bool_decide_true by done. cbn [negb orb].
  unfold abi_address at 1. rewrite app_assoc, drop_app_length' by by rewrite length_app, length_replicate, Hs.
  rewrite copy_array_of_list, launched_wordsOf. cbn [mbind Res_bind]. apply parseHexBytes_hexBytes.
Qed.
End node.
End hashed.
