(* ===== verification/FakeNodeTheorems.v ===== *)
(** * The tests' endpoint serves a chain

    That a fake node is a truthful and helpful endpoint in the sense the Reader's theorems
    ask for, and that what its builders write is what the chain package reads back, though
    the two share no encoder. *)
From S2P Require Import Prelude Sorts Bytes Text Json Paths Merkle MerkleEncode Twab Alloc Cases Chain ChainTheorems StateMonad Wire Reader EpochCase ChainReader FakeNode WireSpec Honest ReaderSpec ReaderTruth ReaderLive Node ReaderCase FakeNodeSpec.

Open Scope list_scope.
Open Scope Z_scope.

Section server.
Context (keccak256 : list byte → Hash) (errorText : fakeError → string).

(** The node after some requests. *)
Definition afterPosts (posts : list rpcPost) (n : fakeNode) : fakeNode :=
  foldl (λ n post, (handle keccak256 errorText post n).2) n posts.

(** A server whose endpoint [i] is the node, whatever it has been asked before. *)
Definition serves (n : fakeNode) (server : nat → nat → rpcPost → httpReply) (i : nat) : Prop :=
  ∀ clock post, ∃ posts, server i clock post = (handle keccak256 errorText post (afterPosts posts n)).1.

Lemma reply_count n post : nodeReply keccak256 errorText (countRequest n) post = nodeReply keccak256 errorText n post.
Proof. reflexivity. Qed.

Lemma afterPosts_reply posts n post :
  (handle keccak256 errorText post (afterPosts posts n)).1 = nodeReply keccak256 errorText n post.
Proof.
  unfold handle. cbn [fst]. rewrite reply_count. unfold afterPosts. revert n. induction posts as [|p posts IH]; intros n; [done|].
  cbn [foldl]. rewrite IH. apply reply_count.
Qed.

Lemma afterPosts_requests posts n : 0 ≤ Requests n → Requests n + Z.of_nat (length posts) < 2 ^ 63 →
  Requests (afterPosts posts n) = Requests n + Z.of_nat (length posts).
Proof.
  unfold afterPosts. revert n. induction posts as [|p posts IH]; intros n Hn Hlen; [cbn; lia|].
  cbn [length] in Hlen. rewrite Nat2Z.inj_succ in Hlen. cbn [foldl length]. rewrite Nat2Z.inj_succ.
  assert (Requests (handle keccak256 errorText p n).2 = Requests n + 1) as Hone.
  { unfold Requests, handle. cbn [snd countRequest fn_requests]. unfold Requests in *. apply i64_id. unfold is_i64. lia. }
  rewrite IH, Hone by (rewrite Hone; lia). lia.
Qed.

Section node.
Context (n : fakeNode) (Hbuilt : built keccak256 n) (Hok : node_ok n).

Lemma built_events : ∃ es, fn_logs n = encodeNodeLog <$> es ∧ ∀ i e, es !! i = Some e → appended i e.
Proof using Hbuilt. apply (built_logs keccak256 n Hbuilt). Qed.

Lemma node_chain_ok : world_ok (nodeWorld keccak256 n).
Proof using Hbuilt Hok. destruct built_events as (es & He & Ha). by eapply node_world_ok. Qed.

Lemma answer_true req r : nodeAnswer keccak256 errorText n req = Ok r →
  rr_ID r = rq_ID req ∧ reply_true (nodeWorld keccak256 n) (rq_Question req) r.
Proof using Hbuilt Hok.
  destruct built_events as (es & He & Ha). unfold nodeAnswer, reply_true.
  destruct (dispatch keccak256 n (rq_Question req)) as [raw|e|] eqn:E; [|intros [= <-]; by split|done].
  intros [= <-]. split; [done|]. intros _. by eapply dispatch_true.
Qed.

Lemma answers_true reqs rs req r : traverse (nodeAnswer keccak256 errorText n) reqs = Ok rs → NoDup (rq_ID <$> reqs) →
  req ∈ reqs → r ∈ rs → rr_ID r = rq_ID req → nodeAnswer keccak256 errorText n req = Ok r.
Proof using Hbuilt Hok.
  intros Hrs%traverse_Ok Hnd Hreq [k Hk]%list_elem_of_lookup Hid.
  destruct (Forall2_lookup_r _ _ _ _ _ Hrs Hk) as (req' & Hreq' & Ha).
  rewrite (NoDup_fmap_same rq_ID reqs req req'); [done|done|done|by eapply list_elem_of_lookup_2|].
  apply answer_true in Ha as [Hid' _]. congruence.
Qed.

Lemma node_status post : nodeReply keccak256 errorText n post =
  match post with
  | postOne req => match nodeAnswer keccak256 errorText n req with Ok r => httpResponse 200 (bodySingle r) | _ => httpDown end
  | postBatch reqs => match traverse (nodeAnswer keccak256 errorText n) reqs with Ok rs => httpResponse 200 (bodyArray rs) | _ => httpDown end
  end.
Proof using Hok. unfold nodeReply. by rewrite (no_status _ Hok). Qed.

Lemma fake_truthful server i : serves n server i → truthful (nodeWorld keccak256 n) server i.
Proof using Hbuilt Hok.
  intros Hs clock post body. destruct (Hs clock post) as [posts ->]. rewrite afterPosts_reply, node_status.
  destruct post as [req|reqs].
  - destruct (nodeAnswer _ _ n req) as [r| |] eqn:E; [|done..]. intros [= <-]. by apply answer_true in E as [_ ?].
  - destruct (traverse _ reqs) as [rs| |] eqn:E; [|done..]. intros [= <-]. intros Hnd req r Hreq Hr Hid.
    apply (answers_true reqs rs req r E Hnd Hreq Hr) in Hid. by apply answer_true in Hid as [_ ?].
Qed.

(** What the Reader asks has an answer. *)
Lemma dispatch_asked q : asked (nodeWorld keccak256 n) q →
  ∃ raw, dispatch keccak256 n q = Ok raw ∧ raw_answers (nodeWorld keccak256 n) q raw.
Proof using Hbuilt Hok.
  destruct built_events as (es & He & Ha). pose proof (no_blocks _ Hok) as Hlen.
  assert (∀ tag k, tagNumber n tag = Some k → ∃ raw, dispatch keccak256 n (ethGetBlockByNumber tag) = Ok raw ∧
    raw_answers (nodeWorld keccak256 n) (ethGetBlockByNumber tag) raw) as Hheader.
  { intros tag k Hk. eexists. split; [cbn [dispatch]; by apply nodeBlock_header|].
    pose proof (tagNumber_range n Hok tag k Hk) as Hr.
    assert (decodeBlock (encodeBlock (nodeHeader keccak256 n k)) = Ok (nodeHeader keccak256 n k)) as Hd.
    { apply (nodeWorld_block keccak256 n es He Ha Hok k). cbn. lia. }
    split; try done; [intros level _ _|intros j _ _]; by eexists _, _. }
  intros [|level Hl|k Hk|a t from to Hf Ht|to data at_ Hat].
  - eexists. split; [done|]. split; try done. intros _. eexists _, _. split; [done|].
    apply (parseQuantity_quantity (fn_ChainID n)), (no_chainID _ Hok).
  - destruct (no_levels _ Hok level Hl) as [k Hk]. apply (Hheader level k). unfold tagNumber. by rewrite Hk.
  - apply (Hheader (quantity k) k). cbn in Hk. rewrite tagNumber_quantity by (done || unfold is_u64; lia).
    by rewrite (proj2 (Z.leb_gt _ _)) by lia.
  - cbn in Ht. destruct (nodeGetLogs_page keccak256 n es He Ha from to a t) as (ls & Hls & Hp); [unfold is_u64; lia..|].
    eexists. split; [cbn [dispatch]; by rewrite Hls|]. split; try done. intros from' to' a' t' _ _ _. eexists _, ls. split; [done|].
    apply decodeLogs_encode. rewrite Hp. apply Forall_filter_keep, (wk_typed _ node_chain_ok).
  - destruct (nodeCall_answers keccak256 n Hok to data) as [out Hout]. eexists.
    split; [cbn [dispatch]; by rewrite Hout|]. split; try done. intros to' data' at' _ _. eexists _, _. split; [done|].
    apply parseHexBytes_hexBytes.
Qed.

Lemma answer_asked req : asked (nodeWorld keccak256 n) (rq_Question req) → ∃ r, nodeAnswer keccak256 errorText n req = Ok r ∧
  reply_answers (nodeWorld keccak256 n) (rq_Question req) r.
Proof using Hbuilt Hok.
  intros (raw & Hd & Hr)%dispatch_asked. unfold nodeAnswer. rewrite Hd. eexists. split; [done|]. by split.
Qed.

Lemma fake_helpful server i : serves n server i → helpful (nodeWorld keccak256 n) server i.
Proof using Hbuilt Hok.
  intros Hs. assert (∀ post (P : httpReply → Prop), P (nodeReply keccak256 errorText n post) → settles server i post P) as Hsettle.
  { intros post P HP clock. exists 0%nat. split; [unfold maxAttempts; lia|]. split; [|intros j Hj; lia].
    destruct (Hs (clock + 0)%nat post) as [posts ->]. by rewrite afterPosts_reply. }
  split.
  - intros req Hask. apply Hsettle. rewrite node_status. destruct (answer_asked req Hask) as (r & -> & Hr).
    exists r. split; [done|by left].
  - intros reqs Hask. apply Hsettle. rewrite node_status. left.
    assert (∀ req, req ∈ reqs → ∃ r, nodeAnswer keccak256 errorText n req = Ok r ∧ reply_answers (nodeWorld keccak256 n) (rq_Question req) r) as Hans.
    { intros req Hreq. rewrite Forall_forall in Hask. destruct (Hask req Hreq) as (k & Hk & Hq). apply answer_asked. rewrite Hq. by constructor. }
    assert (∃ rs, traverse (nodeAnswer keccak256 errorText n) reqs = Ok rs) as [rs Hrs].
    { clear Hask. induction reqs as [|req reqs IH]; [by exists []|].
      destruct (Hans req ltac:(constructor)) as (r & Hr & _). destruct IH as [rs Hrs]; [intros q Hq; apply Hans; by constructor|].
      rewrite traverse_cons, Hr, Hrs. by eexists. }
    rewrite Hrs. exists rs. split; [done|]. intros Hnd req Hreq. destruct (Hans req Hreq) as (r & Hr & Hra). split.
    + pose proof Hrs as Hall%traverse_Ok. apply list_elem_of_lookup in Hreq as [k Hk].
      destruct (Forall2_lookup_l _ _ _ _ _ Hall Hk) as (r' & Hr' & Ha). exists r'. split; [by eapply list_elem_of_lookup_2|].
      by apply answer_true in Ha as [? _].
    + intros r' Hr' Hid. apply (answers_true reqs rs req r' Hrs Hnd Hreq Hr') in Hid. rewrite Hr in Hid. by injection Hid as <-.
Qed.
End node.
End server.

(** ** What the builders write *)

Lemma wordsOf_inv {E} vs out : wordsOf (E:=E) vs = Ok out → Forall (λ a, magnitude a < 2 ^ 256) vs ∧ out = abi_of vs.
Proof.
  unfold wordsOf. intros (ws & Hws%traverse_Ok & [= <-])%bind_Ok. unfold abi_of.
  induction Hws as [|a w vs ws Hw _ [IH1 IH2]]; [done|]. unfold word in Hw. destruct a as [z|]; [|done].
  apply or_panic_Ok in Hw as [Hz%Z.ltb_lt <-]. rewrite !bind_cons, IH2. split; [by constructor|done].
Qed.

Lemma topicWord_hash e i w (ts : list Hash) : el_Topics e = ts → length w = 32%nat → ts !! i = Some (copy_array 32 w) →
  topicWord e i = Ok w.
Proof. intros <- Hw Hi. unfold topicWord, index. rewrite Hi. cbn. by rewrite copy_array_to_list. Qed.

Lemma check_Ok e t0 ts topics words : el_Topics e = t0 :: ts → length ts = topics →
  length (el_Data e) = (words * wordSize)%nat → check e t0 topics words = Ok ().
Proof.
  intros Ht <- Hd. unfold check. rewrite Ht, decide_True by done. cbn [length]. rewrite Nat.add_1_r, Nat.eqb_refl.
  by rewrite Hd, Nat.eqb_refl.
Qed.

Section builders.
Context (keccak256 : list byte → Hash).

Definition transferEvent (site_hash : Hash) (block i : Z) (token from to : Address) (value : Z) : eventLog :=
  mkEventLog token [topicTransfer keccak256; copy_array 32 (abi_address from); copy_array 32 (abi_address to)]
    (abi_uint (Z.abs value)) block site_hash i.

Lemma decode_transferEvent h block i token from to value : Z.abs value < 2 ^ 256 →
  let e := transferEvent h block i token from to value in
  decodeTransfer keccak256 e = Ok (mkChainTransfer (site e) from to (Some (Z.abs value))).
Proof.
  intros Hv e. unfold decodeTransfer. erewrite check_Ok; [|reflexivity|reflexivity|apply length_abi_uint]. cbn [mbind Res_bind].
  rewrite (topicWord_hash e 1 (abi_address from) _ eq_refl) by (apply length_abi_address || reflexivity). cbn [mbind Res_bind].
  rewrite (proj2 (wordAddress_Ok _ from (length_abi_address from)) eq_refl). cbn [wrap mbind Res_bind].
  rewrite (topicWord_hash e 2 (abi_address to) _ eq_refl) by (apply length_abi_address || reflexivity). cbn [mbind Res_bind].
  rewrite (proj2 (wordAddress_Ok _ to (length_abi_address to)) eq_refl). cbn [wrap mbind Res_bind].
  cbn [e transferEvent el_Data]. by rewrite wordUint256_abi by (unfold is_uint256; lia).
Qed.

Definition exclusionEvent (site_hash : Hash) (block i : Z) (distributor account : Address) : eventLog :=
  mkEventLog distributor [topicExcludedAppended keccak256; copy_array 32 (abi_address account)] [] block site_hash i.

Lemma decode_exclusionEvent h block i distributor account :
  let e := exclusionEvent h block i distributor account in
  decodeExcludedAppended keccak256 e = Ok (mkChainExclusion (site e) account).
Proof.
  intros e. unfold decodeExcludedAppended. erewrite check_Ok; [|reflexivity|reflexivity|done]. cbn [mbind Res_bind].
  rewrite (topicWord_hash e 1 (abi_address account) _ eq_refl) by (apply length_abi_address || reflexivity). cbn [mbind Res_bind].
  by rewrite (proj2 (wordAddress_Ok _ account (length_abi_address account)) eq_refl).
Qed.

Definition rootEvent (site_hash : Hash) (block i : Z) (distributor : Address) (key : Z) (root : Hash)
    (totals carryIn : vec (option Z) 5) : eventLog :=
  mkEventLog distributor [topicRootPosted keccak256; copy_array 32 (abi_uint 0); copy_array 32 (abi_uint key)]
    (vec_to_list root ++ abi_of (vec_to_list totals ++ vec_to_list carryIn)) block site_hash i.

Definition root_words (root : Hash) (totals carryIn : vec Z 5) : list (list byte) :=
  [vec_to_list root] ++ (abi_uint <$> vec_to_list totals) ++ (abi_uint <$> vec_to_list carryIn).

Lemma root_words_ok root t c : words_ok (root_words root t c) ∧ length (root_words root t c) = rootPostedWords.
Proof.
  unfold root_words, words_ok. split; [|by rewrite !length_app, !length_fmap, !length_vec_to_list].
  apply Forall_app. split; [constructor; [apply length_vec_to_list|constructor]|].
  apply Forall_app. split; apply Forall_fmap, Forall_forall; intros ? _; apply length_abi_uint.
Qed.

Lemma rootEvent_data root totals carryIn :
  vec_to_list root ++ abi_of (vec_to_list totals ++ vec_to_list carryIn) =
  root_words root (bookAmounts totals) (bookAmounts carryIn) ≫= id.
Proof.
  unfold root_words. rewrite !bind_app, !bind_fmap_id, bind_cons. cbn [mbind list_bind]. unfold id. rewrite app_nil_r.
  unfold abi_of. rewrite bind_app. fold (abi_of (vec_to_list totals)) (abi_of (vec_to_list carryIn)). by rewrite <-!abi_bookAmounts.
Qed.

Lemma decode_rootEvent h block i distributor key root totals carryIn : is_u64 key →
  Forall (λ a, magnitude a < 2 ^ 256) (vec_to_list totals) → Forall (λ a, magnitude a < 2 ^ 256) (vec_to_list carryIn) →
  let e := rootEvent h block i distributor key root totals carryIn in
  decodeRootPosted keccak256 e =
    Ok (mkRootPosted (site e) KindEpoch key root (some_vec (bookAmounts totals)) (some_vec (bookAmounts carryIn))).
Proof.
  intros Hid Ht Hc e. destruct (root_words_ok root (bookAmounts totals) (bookAmounts carryIn)) as [Hok Hlen].
  assert (el_Data e = root_words root (bookAmounts totals) (bookAmounts carryIn) ≫= id) as Hd by apply rootEvent_data.
  unfold decodeRootPosted. erewrite check_Ok; [|reflexivity|reflexivity|by rewrite Hd, length_words, Hlen by done]. cbn [mbind Res_bind].
  rewrite (topicWord_hash e 1 (abi_uint 0) _ eq_refl) by (apply length_abi_uint || reflexivity). cbn [mbind Res_bind].
  rewrite (proj2 (wordUint64_Ok _ 0 (length_abi_uint 0))) by (split; [unfold is_u64; lia|done]).
  rewrite Z.eqb_refl. cbn [mbind Res_bind].
  rewrite (topicWord_hash e 2 (abi_uint key) _ eq_refl) by (apply length_abi_uint || reflexivity). cbn [mbind Res_bind].
  rewrite (proj2 (wordUint64_Ok _ key (length_abi_uint key))) by done. cbn [wrap mbind Res_bind].
  assert (take wordSize (el_Data e) = vec_to_list root) as ->.
  { cbn [e rootEvent el_Data]. by rewrite take_app_length' by by rewrite length_vec_to_list. }
  rewrite copy_array_of_list, Hd. change (1 + TokenCount)%nat with 6%nat.
  rewrite (dataAmounts_at _ 1 (bookAmounts totals)), (dataAmounts_at _ 6 (bookAmounts carryIn)); try done;
    try (by apply bookAmounts_ok); try (rewrite Hlen; cbn; lia);
    unfold root_words; generalize (bookAmounts totals) as vt, (bookAmounts carryIn) as vc; clear; intros vt vc; inv_vec vt; inv_vec vc; done.
Qed.

(** The factory's fifteen words. *)
Lemma decode_launched n token curve : fn_Curves n !! token = Some curve → curve ≠ zeroAddress →
  decodeLaunchedToken ((abi_uint <$> launchedWords n token) ≫= id) = Ok curve.
Proof.
  intros Hc Hne. destruct (launchedWords_ok n token) as [_ Hlen].
  assert (words_ok (abi_uint <$> launchedWords n token)) as Hok.
  { apply Forall_fmap, Forall_forall. intros ? _. apply length_abi_uint. }
  unfold decodeLaunchedToken. rewrite (length_words _ Hok), length_fmap, Hlen, Nat.eqb_refl. cbn [negb]. unfold launchedWords in *. rewrite Hc in *.
  rewrite (dataWord_words _ (launchedTokenWords - 1) (abi_uint 1)) by (exact Hok || reflexivity).
  rewrite (proj2 (wordBool_Ok (abi_uint 1) true (length_abi_uint 1)) eq_refl). cbn [wrap mbind Res_bind].
  rewrite (dataWord_words _ 1 (abi_uint (be_decode (vec_to_list curve)))) by (exact Hok || reflexivity).
  rewrite (proj2 (wordAddress_Ok _ curve (length_abi_uint _))).
  - cbn [wrap mbind Res_bind]. by rewrite decide_False.
  - apply be_decode_inj; [by rewrite length_abi_uint, length_abi_address|]. unfold abi_address, abi_uint. rewrite be_decode_zeros.
    pose proof (be_decode_range (vec_to_list curve)) as Hr. rewrite length_vec_to_list in Hr. apply be_decode_encode.
    change (256 ^ Z.of_nat 20) with (2 ^ 160) in Hr. change (256 ^ Z.of_nat wordSize) with (2 ^ 256). lia.
Qed.

(** A log appended is one more log of the chain. *)
Lemma appendLog_world n address ts data block : built keccak256 n → is_u64 block → (1 ≤ length ts ≤ 3)%nat → (length data ≤ 352)%nat →
  wo_logs (nodeWorld keccak256 (appendLog address (HashString <$> ts) data block n)) ≡ₚ
  mkEventLog address ts data block (HashOf keccak256 n block) (u64 (Z.of_nat (length (fn_logs n)))) :: wo_logs (nodeWorld keccak256 n).
Proof.
  intros Hb Hblock Hts Hdata. destruct (built_logs keccak256 n Hb) as (es & Hes & Happ).
  set (e := mkEventLog address ts data block zeroHash (u64 (Z.of_nat (length (fn_logs n))))).
  set (n' := appendLog _ _ _ _ _).
  assert (∀ i x, (es ++ [e]) !! i = Some x → appended i x) as Happ'.
  { intros i x [Hi|[Hge Hi]]%lookup_app_Some; [by apply Happ|]. apply list_lookup_singleton_Some in Hi as [Hi <-].
    assert (i = length (fn_logs n)) as -> by (rewrite Hes, length_fmap; lia). by split. }
  assert (fn_logs n' = encodeNodeLog <$> es ++ [e]) as Hes' by by rewrite fmap_app, <-Hes.
  rewrite (node_logs_perm keccak256 n' (es ++ [e]) Hes' Happ'), (node_logs_perm keccak256 n es Hes Happ), fmap_app.
  rewrite Permutation_app_comm. done.
Qed.
End builders.

(** C31: a fake node is an endpoint the Reader's guarantees are for. Made by [New] and the
    builders, and set up with tips it has and amounts that fit, it serves one well-formed
    chain: every reply it gives is true of that chain, everything the Reader asks about it
    is answered, whatever it has been asked before, and the Distributor's book and the
    factory's curves are read back by the chain package's decoders. *)
Theorem Fake_node_serves keccak256 errorText n server i :
  built keccak256 n → node_ok n → serves keccak256 errorText n server i →
  let W := nodeWorld keccak256 n in
  world_ok W ∧ truthful W server i ∧ helpful W server i ∧
  (∀ distributor key at_, is_u64 key → (fn_Factory n = zeroAddress ∨ fn_Factory n ≠ distributor) →
     let book := default noLedger (fn_Ledgers n !! key) in 0 ≤ fl_RootPostedAt book →
     decodeLedger (wo_call W distributor (encodeLedgerCall keccak256 KindEpoch key) at_) = Ok (bookOf book)) ∧
  (∀ token curve at_, fn_Factory n ≠ zeroAddress → fn_Curves n !! token = Some curve → curve ≠ zeroAddress →
     decodeLaunchedToken (wo_call W (fn_Factory n) (encodeGetLaunchedToken keccak256 token) at_) = Ok curve).
Proof.
  intros Hb Hok Hs W. split_and!; [by apply node_chain_ok|by eapply fake_truthful|by eapply fake_helpful|..].
  - intros distributor key at_ Hkey Hf book Hp. cbn [W nodeWorld wo_call]. rewrite ledger_call by done. cbn zeta. fold book.
    destruct (book_ok n Hok key) as (Hr & Hfd & Ht). fold book in Hr, Hfd, Ht. apply decodeLedger_exact.
    exists (fl_Root book), (Z.abs (fl_RootPostedAt book)), (fl_Skipped book), (bookAmounts (fl_Funded book)),
      (bookAmounts (fl_Totals book)), noneClaimed.
    split_and!; [lia|unfold MaxInt64; lia|by apply bookAmounts_ok|by apply bookAmounts_ok|apply noneClaimed_ok|reflexivity|reflexivity].
  - intros token curve at_ Hf Hc Hne. cbn [W nodeWorld wo_call]. rewrite (launch_call keccak256 n token curve) by done.
    cbn [ok_of default from_option id]. by apply decode_launched.
Qed.

Lemma DropLastLog_append {E} address topics data block n :
  DropLastLog (E:=E) (appendLog address topics data block n) = Ok n.
Proof.
  unfold DropLastLog, appendLog. cbn [setLogs fn_logs]. rewrite length_app. cbn [length].
  rewrite Nat.add_sub, take_app_length. rewrite (proj2 (Nat.ltb_lt _ _)) by lia. by destruct n.
Qed.

(** What the builders write is what the chain package reads. A transfer, an exclusion
    or a posted Root appended at a block is one more log of the chain, at that block and
    under that block's hash, which the package's decoder gives back field by field: values
    by their magnitude, since a word holds no sign. Dropping the last log undoes it. *)
Theorem Builders_read_back keccak256 n block :
  built keccak256 n → is_u64 block →
  let adds n' (e : eventLog) (address : Address) :=
    wo_logs (nodeWorld keccak256 n') ≡ₚ e :: wo_logs (nodeWorld keccak256 n) ∧ DropLastLog (E:=fakeError) n' = Ok n ∧
    el_Address e = address ∧ el_BlockNumber e = block ∧ el_BlockHash e = HashOf keccak256 n block in
  (∀ token from to value n', nodeTransfer (E:=fakeError) keccak256 block token from to value n = Ok n' → ∃ e,
     adds n' e token ∧ decodeTransfer keccak256 e = Ok (mkChainTransfer (site e) from to (Some (Z.abs value)))) ∧
  (∀ distributor account, ∃ e, adds (nodeExclusion keccak256 block distributor account n) e distributor ∧
     decodeExcludedAppended keccak256 e = Ok (mkChainExclusion (site e) account)) ∧
  (∀ distributor key root totals carryIn n', is_u64 key →
     nodeRootPosted (E:=fakeError) keccak256 block distributor key root totals carryIn n = Ok n' → ∃ e,
     adds n' e distributor ∧ decodeRootPosted keccak256 e =
       Ok (mkRootPosted (site e) KindEpoch key root (some_vec (bookAmounts totals)) (some_vec (bookAmounts carryIn)))).
Proof.
  intros Hb Hblock adds. set (h := HashOf keccak256 n block). set (i := u64 (Z.of_nat (length (fn_logs n)))).
  assert (∀ address topics ts data, topics = HashString <$> ts → (1 ≤ length ts ≤ 3)%nat → (length data ≤ 352)%nat →
    adds (appendLog address topics data block n) (mkEventLog address ts data block h i) address) as Hadds.
  { intros address topics ts data -> Hts Hd. split; [by apply appendLog_world|]. split; [apply DropLastLog_append|done]. }
  split_and!.
  - intros token from to value n' Hn. unfold nodeTransfer, word in Hn. apply bind_Ok in Hn as (w & [Hv%Z.ltb_lt <-]%or_panic_Ok & [= <-]).
    exists (transferEvent keccak256 h block i token from to value). split; [|by apply decode_transferEvent].
    apply Hadds; [by rewrite !addressTopic_hash|cbn; lia|rewrite length_abi_uint; unfold wordSize; lia].
  - intros distributor account. exists (exclusionEvent keccak256 h block i distributor account). split; [|apply decode_exclusionEvent].
    apply Hadds; [by rewrite addressTopic_hash|cbn; lia..].
  - intros distributor key root totals carryIn n' Hkey Hn. unfold nodeRootPosted in Hn.
    apply bind_Ok in Hn as (amounts & Hw & Hn). apply wordsOf_inv in Hw as [Hfit ->]. unfold is_u64 in Hkey.
    rewrite !word_abi, !Z.abs_eq in Hn by lia. cbn [mbind Res_bind] in Hn. apply (inj Ok) in Hn as <-.
    apply Forall_app in Hfit as [Ht Hc].
    exists (rootEvent keccak256 h block i distributor key root totals carryIn). split; [|by apply decode_rootEvent].
    apply Hadds; [by rewrite !wordTopic_hash|cbn; lia|].
    rewrite rootEvent_data. destruct (root_words_ok root (bookAmounts totals) (bookAmounts carryIn)) as [Hok Hlen].
    rewrite length_words, Hlen by done. unfold rootPostedWords, wordSize, TokenCount. lia.
Qed.

(** ** A node like the tests' *)

Definition demo_amounts (v : Z) : vec (option Z) 5 := vreplicate 5 (Some v).
Definition demo_ledger : fakeLedger := mkFakeLedger (hour_hash 30817) 7200 false (demo_amounts 91) (demo_amounts 90).

Definition demo_logs : Res fakeError fakeNode :=
  n ← nodeTransfer sum_hash 1 hour_token zeroAddress (address_of 1) 100
        (Launch hour_factory hour_token (address_of 1) (fakeNew ((λ k, 1800 * k) <$> seqZ 0 7)));
  n ← nodeTransfer sum_hash 2 hour_token (address_of 1) (address_of 2) 40 (nodeExclusion sum_hash 2 hour_distributor (address_of 9) n);
  nodeRootPosted sum_hash 4 hour_distributor 0 (hour_hash 30817) (demo_amounts 90) (demo_amounts 0) n.

Definition demo_built : fakeNode := default (fakeNew []) (ok_of demo_logs).
Definition demo_node : fakeNode :=
  mkFakeNode (fn_ChainID demo_built) (fn_Timestamps demo_built) (fn_Tips demo_built) (fn_HashSalt demo_built) (fn_logs demo_built)
    {[ 0 := demo_ledger ]} (fn_Factory demo_built) (fn_Curves demo_built) 0 0.

Definition demo_server (i clock : nat) (post : rpcPost) : httpReply := (handle sum_hash (λ _, EmptyString) post demo_node).1.

(** Two such nodes, read through the Reader. *)
Example demo_reads_transfers :
  let at_ n i ts := mkSite n (HashOf sum_hash demo_node n) i ts in
  (Transfers sum_hash demo_server hour_schedule hour_config 0 6 newWire).1 =
  Ok [mkChainTransfer (at_ 1 0 1800) zeroAddress (address_of 1) (Some 100);
      mkChainTransfer (at_ 2 2 3600) (address_of 1) (address_of 2) (Some 40)].
Proof. by vm_compute. Qed.

Example demo_reads_ledger :
  (ReadLedger sum_hash demo_server hour_schedule hour_config KindEpoch 0 6 newWire).1 = Ok (bookOf demo_ledger).
Proof. by vm_compute. Qed.

Lemma demo_is_built : built sum_hash demo_node.
Proof.
  apply (built_fields _ demo_built); [|done].
  assert (∃ n, demo_logs = Ok n) as [n Hn] by by eexists.
  unfold demo_built. rewrite Hn. cbn [ok_of default from_option id]. unfold demo_logs in Hn.
  apply bind_Ok in Hn as (n1 & H1 & Hn). apply bind_Ok in Hn as (n2 & H2 & Hn).
  assert (∀ z, 0 ≤ z < 2 ^ 64 → is_u64 z) as Hz by done.
  eapply (built_root _ _ 4); [|apply Hz; lia|exact Hn]. eapply (built_transfer _ _ 2); [|apply Hz; lia|exact H2].
  apply built_exclusion; [|apply Hz; lia]. eapply (built_transfer _ _ 1); [|apply Hz; lia|exact H1].
  apply built_launch, built_new.
Qed.

Lemma demo_ok : node_ok demo_node.
Proof.
  assert (fn_Timestamps demo_node = [0; 1800; 3600; 5400; 7200; 9000; 10800]) as Hts by by vm_compute.
  assert (fn_Tips demo_node = (<["latest" := 6]> (<["safe" := 6]> {[ "finalized" := 6 ]}))%string) as Htips by by vm_compute.
  split; rewrite ?Hts, ?Htips; clear Hts Htips.
  - by split.
  - repeat (apply Forall_cons; split; [lia|]). constructor.
  - intros tag number. rewrite !lookup_insert_Some, lookup_singleton_Some. cbn [length].
    intros [[<- <-]|[_ [[<- <-]|[_ [<- <-]]]]]; (split; [unfold Latest, Safe, Finalized; set_solver|lia]).
  - intros level. rewrite !elem_of_cons, elem_of_nil. intros [->|[->|[->|[]]]]; by eexists.
  - by vm_compute.
  - assert (length (fn_logs demo_node) = 4%nat) as -> by by vm_compute. lia.
  - intros key l. cbn [demo_node fn_Ledgers]. intros [<- <-]%lookup_singleton_Some.
    split; [cbn; lia|split; repeat constructor].
  - done.
Qed.

Lemma Fake_node_serves_witness :
  truthful (nodeWorld sum_hash demo_node) demo_server 1 ∧ helpful (nodeWorld sum_hash demo_node) demo_server 1 ∧
  decodeLedger (wo_call (nodeWorld sum_hash demo_node) hour_distributor (encodeLedgerCall sum_hash KindEpoch 0) 6) =
    Ok (bookOf demo_ledger).
Proof.
  destruct (Fake_node_serves sum_hash (λ _, EmptyString) demo_node demo_server 1 demo_is_built demo_ok) as (_ & Ht & Hh & Hl & _).
  { intros clock post. by exists []. }
  split; [exact Ht|]. split; [exact Hh|]. apply (Hl hour_distributor 0 6); [by vm_compute|by right|by vm_compute].
Defined.

Lemma Builders_read_back_witness :
  ∃ e n', nodeTransfer (E:=fakeError) sum_hash 5 hour_token (address_of 2) (address_of 1) (-7) demo_node = Ok n' ∧
    wo_logs (nodeWorld sum_hash n') ≡ₚ e :: wo_logs (nodeWorld sum_hash demo_node) ∧
    decodeTransfer sum_hash e = Ok (mkChainTransfer (site e) (address_of 2) (address_of 1) (Some 7)).
Proof.
  destruct (Builders_read_back sum_hash demo_node 5 demo_is_built ltac:(by vm_compute)) as [Ht _].
  destruct (Ht hour_token (address_of 2) (address_of 1) (-7) _ eq_refl) as (e & (Hp & _) & Hd).
  eexists e, _. split; [reflexivity|]. split; [exact Hp|exact Hd].
Defined.
