(* ===== verification/JsonFacts.v ===== *)
(** * The scanner reads back what the encoder writes

    Strings as the JSON encoder quotes them, documents as it indents them, and the
    lemmas on string concatenation both need. [scanText_step] follows the scanner of
    [Json] over one written value; a reader of the printed text gets the tree back. *)
From S2P Require Import Prelude Sorts Bytes Text Json.

Lemma string_app_cons c (s t : string) : String c s +:+ t = String c (s +:+ t).
Proof. done. Qed.

Lemma string_app_nil (t : string) : EmptyString +:+ t = t.
Proof. done. Qed.

Lemma string_app_assoc (a b c : string) : (a +:+ b) +:+ c = a +:+ (b +:+ c).
Proof. induction a as [|x a IH]; [done|]. by rewrite !string_app_cons, IH. Qed.

Lemma string_app_nil_r (s : string) : s +:+ EmptyString = s.
Proof. induction s as [|c s IH]; [done|]. by rewrite string_app_cons, IH. Qed.

(** The text of an append, written out from its first character. *)
Ltac strings := rewrite ?string_app_assoc, ?string_app_cons, ?string_app_nil.

(** ** Documents that can be written *)

Section json_induction.
Context (P : json → Prop).
Hypothesis Hnull : P JNull.
Hypothesis Hbool : ∀ b, P (JBool b).
Hypothesis Hnum : ∀ s, P (JNum s).
Hypothesis Hstr : ∀ s, P (JStr s).
Hypothesis Harr : ∀ l, Forall P l → P (JArr l).
Hypothesis Hobj : ∀ l, Forall (λ f, P f.2) l → P (JObj l).

Fixpoint json_rect' (j : json) : P j :=
  match j with
  | JNull => Hnull
  | JBool b => Hbool b
  | JNum s => Hnum s
  | JStr s => Hstr s
  | JArr l => Harr l ((fix go l := match l return Forall P l with
                       | [] => Forall_nil_2 P
                       | j :: l => Forall_cons_2 P j l (json_rect' j) (go l) end) l)
  | JObj l => Hobj l ((fix go l := match l return Forall (λ f, P f.2) l with
                       | [] => Forall_nil_2 _
                       | f :: l => Forall_cons_2 _ f l (json_rect' f.2) (go l) end) l)
  end.
End json_induction.

(** The text between two quotes. *)
Fixpoint rawScan (st : strState) (s : string) : option strState :=
  match s with
  | EmptyString => Some st
  | String c s =>
      match st with
      | InText => if bool_decide (c = quoteChar) then None else st' ← strStep st c; rawScan st' s
      | _ => st' ← strStep st c; rawScan st' s
      end
  end.
Definition raw_ok (s : string) : Prop := rawScan InText s = Some InText.

Fixpoint numScan (st : numState) (s : string) : option numState :=
  match s with
  | EmptyString => Some st
  | String c s => st' ← numberStep st c; numScan st' s
  end.
(** A number literal. *)
Definition num_ok (s : string) : Prop :=
  ∃ c rest st0 st, s = String c rest ∧ beginValue c [] = Some (MNumber st0 [c], []) ∧
    numScan st0 rest = Some st ∧ numberEnds st = true.

Fixpoint json_ok (j : json) : Prop :=
  match j with
  | JNull | JBool _ => True
  | JNum s => num_ok s
  | JStr s => raw_ok s
  | JArr l => fold_right (λ j P, json_ok j ∧ P) True l
  | JObj l => fold_right (λ f P, (raw_ok f.1 ∧ json_ok f.2) ∧ P) True l
  end.

(** How deep a document is nested. *)
Fixpoint height (j : json) : Z :=
  match j with
  | JArr l => 1 + fold_right (λ j m, Z.max (height j) m) 0 l
  | JObj l => 1 + fold_right (λ f m, Z.max (height f.2) m) 0 l
  | _ => 0
  end.

(** What follows a value in a written document. *)
Definition follows (c : ascii) : Prop := c = ","%char ∨ c = newline.

(** ** Strings and numbers *)

Lemma text_cons_app acc s : text (reverse (String.list_ascii_of_string s) ++ acc) = text acc +:+ s.
Proof.
  revert acc. unfold text. intros acc. rewrite reverse_app, reverse_involutive.
  generalize (reverse acc). intros l. induction l as [|c l IH]; [apply String.string_of_list_ascii_of_string|].
  change (String.string_of_list_ascii (c :: l)) with (String c (String.string_of_list_ascii l)).
  rewrite string_app_cons, <-IH. done.
Qed.

Lemma rawScan_cons st c s : rawScan st (String c s) = Some InText →
  ∃ st', strStep st c = Some st' ∧ rawScan st' s = Some InText ∧ (st = InText → c ≠ quoteChar).
Proof.
  cbn [rawScan]. intros H. destruct st; [case_bool_decide; [done|]|..];
    apply bind_Some in H as (st' & ? & ?); eauto.
Qed.

Lemma scanStep_string key st c acc stk st' : strStep st c = Some st' → (st = InText → c ≠ quoteChar) →
  scanStep c (MString key st acc, stk) = Some (MString key st' (c :: acc), stk).
Proof.
  intros H Hc. destruct st; cbn [scanStep]; [rewrite (bool_decide_eq_false_2 _ (Hc eq_refl))|..]; by rewrite H.
Qed.

Lemma scan_raw (key : bool) st s acc rest stk :
  rawScan st s = Some InText →
  scanFrom (s +:+ String quoteChar rest) (MString key st acc, stk) =
  (st' ← endString key (text (reverse (String.list_ascii_of_string s) ++ acc)) stk; scanFrom rest st').
Proof.
  revert st acc. induction s as [|c s IH]; intros st acc H.
  - by injection H as ->.
  - apply rawScan_cons in H as (st' & Hst & Hs & Hc). strings. cbn [scanFrom String.list_ascii_of_string].
    rewrite (scanStep_string key st c acc stk st' Hst Hc), reverse_cons, <-app_assoc. by apply IH.
Qed.

Lemma scan_quoted (key : bool) s rest stk : raw_ok s →
  scanFrom (quoted s +:+ rest) ((if key then MKey else MValue), stk) =
  (st' ← endString key s stk; scanFrom rest st').
Proof.
  intros Hs. unfold quoted. strings. rewrite string_app_assoc. cbn [String.append].
  destruct key; cbn [scanFrom scanStep isSpace beginValue quoteChar];
    rewrite ?bool_decide_eq_true_2 by done; cbn [mbind option_bind];
    (etrans; [by apply (scan_raw _ InText)|]); rewrite text_cons_app; done.
Qed.

Lemma scan_digits st s st' acc c rest stk :
  numScan st s = Some st' → numberEnds st' = true → numberStep st' c = None →
  scanFrom (s +:+ String c rest) (MNumber st acc, stk) =
  (st' ← pastValue c (complete (JNum (text (reverse (String.list_ascii_of_string s) ++ acc))) stk); scanFrom rest st').
Proof.
  intros H Hend Hc. revert st acc H. induction s as [|d s IH]; intros st acc H; cbn [numScan] in H.
  - injection H as ->. strings. cbn [scanFrom scanStep]. by rewrite Hc, Hend.
  - destruct (numberStep st d) as [st1|] eqn:E; [|done]. cbn [mbind option_bind] in H.
    strings. cbn [scanFrom scanStep String.list_ascii_of_string]. rewrite E. cbn [mbind option_bind].
    rewrite reverse_cons, <-app_assoc. by apply IH.
Qed.

Lemma numberStep_follows st c : follows c → numberEnds st = true → numberStep st c = None.
Proof. intros [-> | ->]; by destruct st. Qed.

Lemma scan_number s c rest stk : num_ok s → follows c →
  scanFrom (s +:+ String c rest) (MValue, stk) = (st' ← pastValue c (complete (JNum s) stk); scanFrom rest st').
Proof.
  intros (d & s' & st0 & st & -> & Hd & Hs & Hend) Hc. strings. cbn [scanFrom scanStep].
  assert (isSpace d = false ∧ beginValue d stk = Some (MNumber st0 [d], stk)) as [-> ->].
  { split; [|]; revert Hd; clear; destruct d as [[] [] [] [] [] [] [] []]; cbn; try done; by intros [= <-]. }
  cbn [mbind option_bind]. rewrite (scan_digits st0 s' st) by first [done|by apply numberStep_follows].
  rewrite text_cons_app. done.
Qed.

(** ** Layout *)

Definition skips (m : scanMode) : bool :=
  match m with MValue | MValueOrEnd | MKey | MKeyOrEnd | MColon | MAfter => true | _ => false end.

Lemma scan_indent m n s stk : skips m = true → scanFrom (newlineAt n +:+ s) (m, stk) = scanFrom s (m, stk).
Proof.
  intros Hm. unfold newlineAt. strings.
  assert (scanFrom (indent n +:+ s) (m, stk) = scanFrom s (m, stk)) as H.
  { induction n as [|n IH]; [done|]. cbn [indent String.append scanFrom]. destruct m; done. }
  by destruct m.
Qed.

(** A written value starts with neither a space nor a closing bracket. *)
Lemma scan_first j depth s stk : json_ok j →
  scanFrom (showAt depth j +:+ s) (MValueOrEnd, stk) = scanFrom (showAt depth j +:+ s) (MValue, stk).
Proof.
  intros Hj. assert (∀ c s', isSpace c = false → c ≠ "]"%char → scanFrom (String c s') (MValueOrEnd, stk) = scanFrom (String c s') (MValue, stk)) as H.
  { intros c s' Hc Hne. cbn [scanFrom scanStep]. by rewrite Hc, (bool_decide_eq_false_2 _ Hne). }
  destruct j as [|[]|n|r|l|l]; cbn [showAt]; try (by apply H).
  - destruct Hj as (d & s' & st0 & st & -> & Hd & _). strings. apply H.
    + revert Hd. clear. by destruct d as [[] [] [] [] [] [] [] []].
    + by intros ->.
  - destruct l; by apply H.
  - destruct l; by apply H.
Qed.

Lemma scanText_step c s st : scanFrom (String c s) st = (st' ← scanStep c st; scanFrom s st').
Proof. done. Qed.

Lemma scanStep_complete c j stk : scanStep c (complete j stk) = pastValue c (complete j stk).
Proof. by destruct stk as [|[] stk]. Qed.

(** What [scan_show] says of one value. *)
Definition scans (j : json) : Prop := ∀ depth c rest stk, follows c → Z.of_nat (length stk) + height j ≤ maxNestingDepth →
  scanFrom (showAt depth j +:+ String c rest) (MValue, stk) = (st' ← pastValue c (complete j stk); scanFrom rest st').

Lemma concat_cons sep (x y : string) l : String.concat sep (x :: y :: l) = x +:+ (sep +:+ String.concat sep (y :: l)).
Proof. done. Qed.

Lemma concat_one sep (x : string) : String.concat sep [x] = x.
Proof. done. Qed.

Lemma concat_head sep (x : string) l : ∃ s, String.concat sep (x :: l) = x +:+ s.
Proof. destruct l as [|y l]; [exists EmptyString; by rewrite concat_one, string_app_nil_r|by eexists]. Qed.

(** The frame with one more value in it. *)
Definition extend (f : frame) (j : json) : frame :=
  match f with InArray items => InArray (j :: items) | InObject fields key => InObject ((key, j) :: fields) key end.

Lemma complete_frame j f stk : complete j (f :: stk) = (MAfter, extend f j :: stk).
Proof. by destruct f. Qed.

Definition in_depth (stk : list frame) (j : json) : Prop := Z.of_nat (length stk) + 1 + height j ≤ maxNestingDepth.

(** A value inside a frame, the last one and any other. *)
Lemma scan_last depth j f stk rest n : scans j → in_depth stk j →
  scanFrom (showAt depth j +:+ newlineAt n +:+ rest) (MValue, f :: stk) = scanFrom rest (MAfter, extend f j :: stk).
Proof.
  intros Hj Hh. unfold in_depth in Hh. rewrite <-(scan_indent MAfter n rest) by done. unfold newlineAt. strings.
  rewrite Hj by first [by right | cbn [length]; lia]. by rewrite complete_frame.
Qed.

Lemma scan_more depth j f stk rest n : scans j → in_depth stk j →
  scanFrom (showAt depth j +:+ String "," (newlineAt n) +:+ rest) (MValue, f :: stk) =
  scanFrom rest (match f with InArray _ => MValue | InObject _ _ => MKey end, extend f j :: stk).
Proof.
  intros Hj Hh. unfold in_depth in Hh. strings. rewrite Hj by first [by left | cbn [length]; lia]. rewrite complete_frame.
  destruct f; cbn [extend pastValue afterValue isSpace mbind option_bind]; by rewrite scan_indent.
Qed.

Lemma scan_items depth j l items c rest stk :
  Forall scans (j :: l) → Forall (in_depth stk) (j :: l) →
  scanFrom (String.concat (String "," (newlineAt (S depth))) (map (showAt (S depth)) (j :: l)) +:+
            newlineAt depth +:+ "]" +:+ String c rest) (MValue, InArray items :: stk) =
  scanFrom (String c rest) (complete (JArr (reverse items ++ j :: l)) stk).
Proof.
  revert j items. induction l as [|y l IH]; intros j items [Hj Hl]%Forall_cons [Hhj Hhl]%Forall_cons; cbn [map].
  - rewrite concat_one, scan_last by done. cbn [extend]. by rewrite <-reverse_cons.
  - rewrite concat_cons, !string_app_assoc, scan_more by done. cbn [extend].
    change (showAt (S depth) y :: map (showAt (S depth)) l) with (map (showAt (S depth)) (y :: l)).
    rewrite IH by done. by rewrite reverse_cons, <-app_assoc.
Qed.

Definition showField (depth : nat) : string * json → string := λ '(k, v), quoted k +:+ ": " +:+ showAt depth v.

Lemma show_object depth fields :
  showAt depth (JObj fields) = bracketed "{" "}" depth (map (showField (S depth)) fields).
Proof. done. Qed.

Lemma scan_first_key depth f s stk :
  scanFrom (showField depth f +:+ s) (MKeyOrEnd, stk) = scanFrom (showField depth f +:+ s) (MKey, stk).
Proof. by destruct f. Qed.

Lemma scan_key depth k j fields k0 stk rest : raw_ok k →
  scanFrom (showField depth (k, j) +:+ rest) (MKey, InObject fields k0 :: stk) =
  scanFrom (showAt depth j +:+ rest) (MValue, InObject fields k :: stk).
Proof. intros Hk. unfold showField. rewrite !string_app_assoc. by rewrite (scan_quoted true). Qed.

Lemma scan_fields depth f l fields k0 c rest stk :
  Forall (λ f, scans f.2) (f :: l) → Forall (λ f, raw_ok f.1) (f :: l) → Forall (λ f, in_depth stk f.2) (f :: l) →
  scanFrom (String.concat (String "," (newlineAt (S depth))) (map (showField (S depth)) (f :: l)) +:+
            newlineAt depth +:+ "}" +:+ String c rest) (MKey, InObject fields k0 :: stk) =
  scanFrom (String c rest) (complete (JObj (reverse fields ++ f :: l)) stk).
Proof.
  revert f fields k0. induction l as [|g l IH]; intros [k j] fields k0 [Hj Hl]%Forall_cons [Hk Hkl]%Forall_cons [Hhj Hhl]%Forall_cons;
    cbn [map].
  - rewrite concat_one, scan_key, scan_last by done. cbn [extend]. by rewrite <-reverse_cons.
  - rewrite concat_cons, !string_app_assoc, scan_key, scan_more by done. cbn [extend].
    change (showField (S depth) g :: map (showField (S depth)) l) with (map (showField (S depth)) (g :: l)).
    rewrite IH by done. by rewrite reverse_cons, <-app_assoc.
Qed.

Lemma Forall_fold {A} (P : A → Prop) l : fold_right (λ x Q, P x ∧ Q) True l ↔ Forall P l.
Proof. induction l as [|x l IH]; cbn; [by split; constructor|]. by rewrite Forall_cons, IH. Qed.

Lemma fold_max {A} (h : A → Z) l : 0 ≤ fold_right (λ x m, Z.max (h x) m) 0 l ∧
  Forall (λ x, h x ≤ fold_right (λ x m, Z.max (h x) m) 0 l) l.
Proof.
  induction l as [|x l [H0 IH]]; cbn; [split; [done|constructor]|]. split; [lia|]. constructor; [lia|].
  eapply Forall_impl; [exact IH|]. cbn. lia.
Qed.

(** What is inside brackets is one level down, and there is room for it. *)
Lemma room {A} (h : A → Z) (stk : list frame) m f l :
  Z.of_nat (length stk) + (1 + fold_right (λ x m, Z.max (h x) m) 0 l) ≤ maxNestingDepth →
  push m f stk = Some (m, f :: stk) ∧ Forall (λ x, Z.of_nat (length stk) + 1 + h x ≤ maxNestingDepth) l.
Proof.
  intros Hh. destruct (fold_max h l) as [H0 Hl]. split.
  - unfold push. by rewrite (proj2 (Z.ltb_lt _ _)) by lia.
  - eapply Forall_impl; [exact Hl|]. cbn. lia.
Qed.

(** A written value is read back, from wherever a value may start. *)
Lemma scan_show j : json_ok j → scans j.
Proof.
  induction j as [|b|s|s|l IH|l IH] using json_rect'; intros Hj depth c rest stk Hc Hh; try rewrite show_object; cbn [showAt].
  - transitivity (scanFrom (String c rest) (complete JNull stk)); [done|]. by rewrite scanText_step, scanStep_complete.
  - transitivity (scanFrom (String c rest) (complete (JBool b) stk)); [by destruct b|].
    by rewrite scanText_step, scanStep_complete.
  - by apply scan_number.
  - rewrite (scan_quoted false) by done. cbn [endString mbind option_bind]. by rewrite scanText_step, scanStep_complete.
  - cbn [json_ok] in Hj. apply Forall_fold in Hj. cbn [height] in Hh. apply (room height stk MValueOrEnd (InArray [])) in Hh as [Hp Hh].
    destruct l as [|j l]; cbn [bracketed map]; change ("[" +:+ ?x) with (String "[" x); strings;
      rewrite scanText_step; cbn [scanStep isSpace beginValue]; rewrite Hp; cbn [mbind option_bind].
    + transitivity (scanFrom (String c rest) (complete (JArr []) stk)); [done|]. by rewrite scanText_step, scanStep_complete.
    + rewrite !string_app_assoc, scan_indent by done. destruct (concat_head (String "," (newlineAt (S depth))) (showAt (S depth) j) (map (showAt (S depth)) l)) as [s Hs].
      rewrite Hs, string_app_assoc, scan_first, <-string_app_assoc, <-Hs by by inversion Hj.
      rewrite (scan_items depth j l []), scanText_step, scanStep_complete; [done| |done].
      rewrite Forall_forall in IH, Hj |- *. auto.
  - cbn [json_ok] in Hj. apply Forall_fold in Hj. cbn [height] in Hh. apply (room (λ f, height f.2) stk MKeyOrEnd (InObject [] EmptyString)) in Hh as [Hp Hh].
    destruct l as [|f l]; rewrite ?show_object; cbn [bracketed map]; change ("{" +:+ ?x) with (String "{" x); strings;
      rewrite scanText_step; cbn [scanStep isSpace beginValue]; rewrite Hp; cbn [mbind option_bind].
    + transitivity (scanFrom (String c rest) (complete (JObj []) stk)); [done|]. by rewrite scanText_step, scanStep_complete.
    + rewrite !string_app_assoc, scan_indent by done.
      destruct (concat_head (String "," (newlineAt (S depth))) (showField (S depth) f) (map (showField (S depth)) l)) as [s Hs].
      rewrite Hs, string_app_assoc, scan_first_key, <-string_app_assoc, <-Hs.
      rewrite (scan_fields depth f l []), scanText_step, scanStep_complete; [done|..|done].
      * rewrite Forall_forall in IH, Hj |- *. intros x Hx. apply IH; [done|]. by apply Hj.
      * eapply Forall_impl; [exact Hj|]. by intros x [? _].
Qed.

(** A document encoded is the document scanned. *)
Lemma ScanJSON_Encode j : json_ok j → height j ≤ maxNestingDepth → ScanJSON (EncodeJSON j) = Some j.
Proof.
  intros Hj Hh. unfold ScanJSON, EncodeJSON. by rewrite (scan_show j Hj 0%nat newline EmptyString []) by first [by right | cbn; lia].
Qed.

(** ** Strings *)

(** The bytes a rune goes on with are not ASCII. *)
Fixpoint tail_ok (n : nat) (s : string) : Prop :=
  match n, s with
  | O, _ => True
  | S n, String c s => 128 ≤ ascii_code c ∧ tail_ok n s
  | S _, EmptyString => False
  end.

Lemma cont_high lo hi c : contBetween lo hi c = true → 128 ≤ lo → 128 ≤ ascii_code c.
Proof. unfold contBetween. intros [?%Z.leb_le _]%andb_true_iff. lia. Qed.

(** A rune is recognised by its own bytes. *)
Lemma runeTail_quote c s n : runeTail c s = Some n → 128 ≤ ascii_code c →
  tail_ok n s ∧ runeTail c (quoteFrom n s) = Some n.
Proof.
  unfold runeTail. intros H Hc. rewrite (proj2 (Z.ltb_ge (ascii_code c) 128)) in H |- * by lia.
  destruct s as [|c1 s]; [done|].
  destruct ((194 <=? ascii_code c) && (ascii_code c <=? 223)) eqn:E2.
  { destruct (cont c1) eqn:H1; [|done]. injection H as <-. cbn [quoteFrom]. rewrite ?H1.
    apply cont_high in H1; [|lia]. by split; [split|]. }
  destruct s as [|c2 s]; [done|].
  destruct ((224 <=? ascii_code c) && (ascii_code c <=? 239)) eqn:E3.
  { match type of H with (if ?b && _ then _ else _) = _ => destruct b eqn:H1; [|done] end.
    destruct (cont c2) eqn:H2; [|done]. injection H as <-. cbn [quoteFrom]. rewrite ?H1, ?H2.
    apply cont_high in H2; [|lia]. split; [|done].
    repeat case_match; (apply cont_high in H1; [by split|lia]). }
  destruct s as [|c3 s]; [done|].
  destruct ((240 <=? ascii_code c) && (ascii_code c <=? 244)) eqn:E4; [|done].
  match type of H with (if ?b && _ && _ then _ else _) = _ => destruct b eqn:H1; [|done] end.
  destruct (cont c2) eqn:H2; [|done]. destruct (cont c3) eqn:H3; [|done]. injection H as <-. cbn [quoteFrom].
  rewrite ?H1, ?H2, ?H3. apply cont_high in H2; [|lia]. apply cont_high in H3; [|lia]. split; [|done].
  repeat case_match; (apply cont_high in H1; [by split|lia]).
Qed.

(** The control characters and the two escaped ones, one by one. *)
Lemma escapeByte_raw c s : ascii_code c < 128 →
  rawScan InText (escapeByte c s) = rawScan InText s ∧ unquoteFrom 0 (escapeByte c s) = String c (unquoteFrom 0 s).
Proof. destruct c as [[] [] [] [] [] [] [] []]; intros H; first [by split | by vm_compute in H]. Qed.

Lemma high_plain c : 128 ≤ ascii_code c → c ≠ quoteChar ∧ c ≠ backslash ∧ strStep InText c = Some InText.
Proof. destruct c as [[] [] [] [] [] [] [] []]; intros H; first [by split_and! | by vm_compute in H]. Qed.

Lemma rawScan_high c s : 128 ≤ ascii_code c → rawScan InText (String c s) = rawScan InText s.
Proof. intros (? & _ & Hs)%high_plain. cbn [rawScan]. by rewrite bool_decide_eq_false_2, Hs. Qed.

(** What is quoted holds no bare quote, whatever was copied. *)
Lemma quoteFrom_raw copy s : tail_ok copy s → rawScan InText (quoteFrom copy s) = Some InText.
Proof.
  remember (String.length s) as n eqn:Hn. assert (String.length s ≤ n)%nat as Hle by lia. clear Hn.
  revert copy s Hle. induction n as [|n IH]; intros copy [|c s] Hle; cbn in Hle; try lia; try done.
  destruct copy as [|copy]; cbn [quoteFrom].
  2:{ intros [Hc Ht]. rewrite rawScan_high by done. apply IH; [lia|done]. }
  intros _. destruct (Z.ltb_spec (ascii_code c) 128) as [Hc|Hc].
  { rewrite (proj1 (escapeByte_raw c _ Hc)). apply IH; [lia|done]. }
  assert (rawScan InText (match runeTail c s with
    | Some n => String c (quoteFrom n s)
    | None => unicodeEscape "f" "f" "f" "d" (quoteFrom 0 s) end) = Some InText) as Hrest.
  { destruct (runeTail c s) as [m|] eqn:E.
    - rewrite rawScan_high by done. apply IH; [lia|]. by apply (runeTail_quote c s m).
    - change (rawScan InText (quoteFrom 0 s) = Some InText). apply IH; [lia|done]. }
  destruct s as [|c1 [|c2 s]]; [exact Hrest|by destruct c1 as [[] [] [] [] [] [] [] []]|].
  cbn in Hle. destruct (decide (c1 = "128"%char)) as [->|Hne].
  - destruct (_ && _) eqn:E; [|exact Hrest]. apply andb_true_iff in E as [_ [E%bool_decide_eq_true|E%bool_decide_eq_true]%orb_true_iff]; subst;
      change (rawScan InText (quoteFrom 0 s) = Some InText); apply IH; [lia|done|lia|done].
  - destruct c1 as [[] [] [] [] [] [] [] []]; first [exact Hrest|done].
Qed.

Lemma quoteString_raw s : raw_ok (quoteString s).
Proof. by apply quoteFrom_raw. Qed.

(** A string is read back as its runes. *)
Lemma unquote_quoteFrom copy s : tail_ok copy s → unquoteFrom copy (quoteFrom copy s) = runesFrom copy s.
Proof.
  remember (String.length s) as n eqn:Hn. assert (String.length s ≤ n)%nat as Hle by lia. clear Hn.
  revert copy s Hle. induction n as [|n IH]; intros copy [|c s] Hle; cbn in Hle; try lia; try done.
  destruct copy as [|copy]; cbn [quoteFrom runesFrom].
  2:{ intros [Hc Ht]. cbn [unquoteFrom]. by rewrite IH by first [lia|done]. }
  intros _. destruct (Z.ltb_spec (ascii_code c) 128) as [Hc|Hc].
  { rewrite (proj2 (escapeByte_raw c _ Hc)), IH by first [lia|done]. unfold runeTail. by rewrite (proj2 (Z.ltb_lt _ _)). }
  set (bare := match runeTail c s with Some n => String c (runesFrom n s) | None => _ end).
  assert (unquoteFrom 0 (match runeTail c s with
    | Some n => String c (quoteFrom n s)
    | None => unicodeEscape "f" "f" "f" "d" (quoteFrom 0 s) end) = bare) as Hrest.
  { unfold bare. destruct (runeTail c s) as [m|] eqn:E.
    - destruct (runeTail_quote c s m E Hc) as [Ht Hq]. cbn [unquoteFrom].
      rewrite bool_decide_eq_false_2, Hq by by apply high_plain. by rewrite IH by first [lia|done].
    - change (replacementText (unquoteFrom 0 (quoteFrom 0 s)) = replacementText (runesFrom 0 s)). by rewrite IH by first [lia|done]. }
  destruct s as [|c1 [|c2 s]]; [exact Hrest|by destruct c1 as [[] [] [] [] [] [] [] []]|].
  cbn in Hle. destruct (decide (c1 = "128"%char)) as [->|Hne].
  - destruct (_ && _) eqn:E'; [|exact Hrest].
    apply andb_true_iff in E' as [E1%bool_decide_eq_true [E2%bool_decide_eq_true|E2%bool_decide_eq_true]%orb_true_iff]; subst;
      (etrans; [|apply (f_equal (λ t, String "226" (String "128" (String _ t)))); apply (IH 0%nat s ltac:(lia) I)]); done.
  - destruct c1 as [[] [] [] [] [] [] [] []]; first [exact Hrest|done].
Qed.

Lemma unquote_quoteString s : unquote (quoteString s) = runesText s.
Proof. by apply unquote_quoteFrom. Qed.

(** Valid UTF-8 is its own runes. *)
Lemma runesFrom_valid copy s : validFrom copy s = true → runesFrom copy s = s.
Proof.
  revert copy. induction s as [|c s IH]; intros copy; [done|]. destruct copy as [|copy]; cbn [validFrom runesFrom].
  - destruct (runeTail c s) as [n|]; [|done]. intros H. by rewrite IH.
  - intros H. by rewrite IH.
Qed.
Lemma runesText_valid s : ValidString s = true → runesText s = s.
Proof. apply runesFrom_valid. Qed.
