(* ===== verification/Render.v ===== *)
(** * internal/report: the Report and its two renderings

    [report.go]. The Report's structs with their JSON tags, the text form line by
    line, and the JSON form as a document of [Json]. Calls per second are a float64;
    how one is formatted, with the verb g and in JSON, is a parameter. *)
From S2P Require Import Prelude Sorts Bytes Text Json Report.

Open Scope Z_scope.

Definition SchemaVersion : string := "nutz-verify-report/1".

(** ** The structs *)

Record TipDoc := mkTipDoc { td_Number : Z; td_Hash : string; td_Lag : Z }.

Record ReorgDoc := mkReorgDoc { rod_Block : Z; rod_Dropped : Z }.

Record CacheDoc := mkCacheDoc {
  cd_Dir : string;
  cd_Records : Z;
  cd_Through : Z;
  cd_Appended : Z;
  cd_Reorg : option ReorgDoc;
  cd_Repaired : string;
}.

(** [report.Run]. *)
Record RunDoc := mkRunDoc {
  rd_ChainID : Z;
  rd_DistributorText : string;
  rd_TokenText : string;
  rd_DevWalletText : string;
  rd_Finality : string;
  rd_Expected : string;
  rd_Endpoints : list string;
  rd_CallsPerSecond : float64;
  rd_Tip : option TipDoc;
  rd_Cache : option CacheDoc;
}.

Record WindowDoc := mkWindowDoc { wd_Start : Z; wd_End : Z }.
Record BlockDoc := mkBlockDoc { bd_Number : Z; bd_Hash : string }.

Record RecomputedDoc := mkRecomputedDoc {
  rcd_HasRoot : bool;
  rcd_Root : string;
  rcd_Totals : list string;
  rcd_CarryOut : list string;
  rcd_TotalWeight : string;
  rcd_CarryIn : list string;
}.

(** [report.PostedRoot]. *)
Record PostedDoc := mkPostedDoc {
  pd_Root : string;
  pd_Block : Z;
  pd_Totals : list string;
  pd_Funded : list string;
  pd_CarryIn : list string;
}.

(** [report.Epoch]. *)
Record EpochDoc := mkEpochDoc {
  ed_ID : Z;
  ed_Window : WindowDoc;
  ed_EndBlock : option BlockDoc;
  ed_Holders : Z;
  ed_Recomputed : RecomputedDoc;
  ed_Posted : option PostedDoc;
  ed_Expected : string;
  ed_Skipped : bool;
  ed_Assertions : list Assertion;
  ed_Verdict : Verdict;
  ed_Reason : string;
}.

(** [report.Artifacts]. *)
Record ArtifactsDoc := mkArtifactsDoc {
  ad_Path : string;
  ad_Rows : Z;
  ad_Root : string;
  ad_Diff : string;
  ad_Error : string;
}.

(** [report.Report]. *)
Record ReportDoc := mkReportDoc {
  rep_Schema : string;
  rep_Command : string;
  rep_Run : RunDoc;
  rep_Verdict : Verdict;
  rep_ReasonText : string;
  rep_Epochs : list EpochDoc;
  rep_Artifacts : option ArtifactsDoc;
}.

(** The writes to a Report's fields. *)
Definition withRun (run : RunDoc) (r : ReportDoc) : ReportDoc :=
  mkReportDoc (rep_Schema r) (rep_Command r) run (rep_Verdict r) (rep_ReasonText r) (rep_Epochs r) (rep_Artifacts r).
Definition withVerdict (v : Verdict) (r : ReportDoc) : ReportDoc :=
  mkReportDoc (rep_Schema r) (rep_Command r) (rep_Run r) v (rep_ReasonText r) (rep_Epochs r) (rep_Artifacts r).
Definition withReason (reason : string) (r : ReportDoc) : ReportDoc :=
  mkReportDoc (rep_Schema r) (rep_Command r) (rep_Run r) (rep_Verdict r) reason (rep_Epochs r) (rep_Artifacts r).
Definition withEpochs (es : list EpochDoc) (r : ReportDoc) : ReportDoc :=
  mkReportDoc (rep_Schema r) (rep_Command r) (rep_Run r) (rep_Verdict r) (rep_ReasonText r) es (rep_Artifacts r).
Definition withArtifacts (a : option ArtifactsDoc) (r : ReportDoc) : ReportDoc :=
  mkReportDoc (rep_Schema r) (rep_Command r) (rep_Run r) (rep_Verdict r) (rep_ReasonText r) (rep_Epochs r) a.
Definition withSchema (schema : string) (r : ReportDoc) : ReportDoc :=
  mkReportDoc schema (rep_Command r) (rep_Run r) (rep_Verdict r) (rep_ReasonText r) (rep_Epochs r) (rep_Artifacts r).

(** The same of its run header. *)
Definition withEndpoints (endpoints : list string) (r : RunDoc) : RunDoc :=
  mkRunDoc (rd_ChainID r) (rd_DistributorText r) (rd_TokenText r) (rd_DevWalletText r) (rd_Finality r) (rd_Expected r)
    endpoints (rd_CallsPerSecond r) (rd_Tip r) (rd_Cache r).
Definition withTip (tip : TipDoc) (r : RunDoc) : RunDoc :=
  mkRunDoc (rd_ChainID r) (rd_DistributorText r) (rd_TokenText r) (rd_DevWalletText r) (rd_Finality r) (rd_Expected r)
    (rd_Endpoints r) (rd_CallsPerSecond r) (Some tip) (rd_Cache r).
Definition withCache (c : CacheDoc) (r : RunDoc) : RunDoc :=
  mkRunDoc (rd_ChainID r) (rd_DistributorText r) (rd_TokenText r) (rd_DevWalletText r) (rd_Finality r) (rd_Expected r)
    (rd_Endpoints r) (rd_CallsPerSecond r) (rd_Tip r) (Some c).

Section render.
Context (formatG formatJSON : float64 → string).

(** ** JSON *)

(** [json.Marshal] of a struct field, and of one with [omitempty]. *)
Definition member (key : string) (j : json) : list (string * json) := [(quoteString key, j)].
Definition memberText (key value : string) : list (string * json) := member key (JText value).
Definition memberInt (key : string) (value : Z) : list (string * json) := member key (JNum (BigString value)).
Definition memberTexts (key : string) (values : list string) : list (string * json) :=
  member key (JArr (map JText values)).
Definition omitText (key value : string) : list (string * json) :=
  if decide (value = EmptyString) then [] else memberText key value.
Definition omitNil {A} (key : string) (f : A → json) (value : option A) : list (string * json) :=
  match value with Some x => member key (f x) | None => [] end.
Definition omitEmpty {A} (key : string) (f : A → json) (values : list A) : list (string * json) :=
  match values with [] => [] | _ => member key (JArr (map f values)) end.

Definition jsonTip (t : TipDoc) : json :=
  JObj (memberInt "number" (td_Number t) ++ memberText "hash" (td_Hash t) ++ memberInt "lag" (td_Lag t)).

Definition jsonReorg (r : ReorgDoc) : json :=
  JObj (memberInt "block" (rod_Block r) ++ memberInt "dropped" (rod_Dropped r)).

Definition jsonCache (c : CacheDoc) : json :=
  JObj (memberText "dir" (cd_Dir c) ++ memberInt "records" (cd_Records c) ++ memberInt "through" (cd_Through c) ++
        memberInt "appended" (cd_Appended c) ++ omitNil "reorg" jsonReorg (cd_Reorg c) ++
        omitText "repaired" (cd_Repaired c)).

Definition jsonRun (r : RunDoc) : json :=
  JObj (memberInt "chainId" (rd_ChainID r) ++ memberText "distributor" (rd_DistributorText r) ++
        memberText "token" (rd_TokenText r) ++ memberText "devWallet" (rd_DevWalletText r) ++
        memberText "finality" (rd_Finality r) ++ omitText "expected" (rd_Expected r) ++
        memberTexts "endpoints" (rd_Endpoints r) ++
        member "callsPerSecond" (JNum (formatJSON (rd_CallsPerSecond r))) ++
        omitNil "tip" jsonTip (rd_Tip r) ++ omitNil "cache" jsonCache (rd_Cache r)).

Definition jsonWindow (w : WindowDoc) : json :=
  JObj (memberInt "start" (wd_Start w) ++ memberInt "end" (wd_End w)).

Definition jsonBlock (b : BlockDoc) : json :=
  JObj (memberInt "number" (bd_Number b) ++ memberText "hash" (bd_Hash b)).

Definition jsonRecomputed (r : RecomputedDoc) : json :=
  JObj (member "hasRoot" (JBool (rcd_HasRoot r)) ++ omitText "root" (rcd_Root r) ++
        memberTexts "totals" (rcd_Totals r) ++ memberTexts "carryOut" (rcd_CarryOut r) ++
        memberText "totalWeight" (rcd_TotalWeight r) ++ memberTexts "carryIn" (rcd_CarryIn r)).

Definition jsonPosted (p : PostedDoc) : json :=
  JObj (memberText "root" (pd_Root p) ++ memberInt "block" (pd_Block p) ++ memberTexts "totals" (pd_Totals p) ++
        memberTexts "funded" (pd_Funded p) ++ memberTexts "carryIn" (pd_CarryIn p)).

Definition jsonAssertion (a : Assertion) : json :=
  JObj (memberText "name" (as_Name a) ++ memberText "status" (as_Status a) ++ memberText "detail" (as_Detail a)).

Definition jsonEpoch (e : EpochDoc) : json :=
  JObj (memberInt "id" (ed_ID e) ++ member "window" (jsonWindow (ed_Window e)) ++
        omitNil "endBlock" jsonBlock (ed_EndBlock e) ++ memberInt "holders" (ed_Holders e) ++
        member "recomputed" (jsonRecomputed (ed_Recomputed e)) ++ omitNil "posted" jsonPosted (ed_Posted e) ++
        omitText "expected" (ed_Expected e) ++
        (if ed_Skipped e then member "skipped" (JBool true) else []) ++
        omitEmpty "assertions" jsonAssertion (ed_Assertions e) ++ memberText "verdict" (ed_Verdict e) ++
        omitText "reason" (ed_Reason e)).

Definition jsonArtifacts (a : ArtifactsDoc) : json :=
  JObj (memberText "path" (ad_Path a) ++ memberInt "rows" (ad_Rows a) ++ omitText "root" (ad_Root a) ++
        omitText "diff" (ad_Diff a) ++ omitText "error" (ad_Error a)).

Definition jsonReport (r : ReportDoc) : json :=
  JObj (memberText "schema" (rep_Schema r) ++ memberText "command" (rep_Command r) ++
        member "run" (jsonRun (rep_Run r)) ++ omitText "verdict" (rep_Verdict r) ++
        omitText "reason" (rep_ReasonText r) ++ omitEmpty "epochs" jsonEpoch (rep_Epochs r) ++
        omitNil "artifacts" jsonArtifacts (rep_Artifacts r)).

(** [WriteJSON], to what it hands to the writer: nothing when there is a float that is
    NaN or an infinity, which encoding/json has no text for. *)
Definition WriteJSON (r : ReportDoc) : option string :=
  if is_finite (rd_CallsPerSecond (rep_Run r)) then Some (EncodeJSON (jsonReport (withSchema SchemaVersion r))) else None.

(** ** Text *)

(** A value padded on the right; what is padded is ASCII. *)
Definition padRight (width : nat) (s : string) : string :=
  s +:+ String.string_of_list_ascii (replicate (width - String.length s) " "%char).

Open Scope string_scope.

Definition field (label value : string) : string := "  " +:+ padRight 13 label +:+ value.

Definition cacheLines (c : CacheDoc) : list string :=
  ([field "cache" (cd_Dir c +:+ ": " +:+
     (if 0 <? cd_Records c
      then BigString (cd_Records c) +:+ " records through block " +:+ BigString (cd_Through c) else "empty")%Z)] ++
   (if decide (cd_Repaired c = EmptyString) then [] else [field "" ("repaired: " +:+ cd_Repaired c)]) ++
   match cd_Reorg c with
   | Some r => [field "" ("reorg: dropped " +:+ BigString (rod_Dropped r) +:+ " records from block " +:+
                          BigString (rod_Block r) +:+ " on")]
   | None => []
   end ++
   (if (0 <? cd_Appended c)%Z then [field "" ("synced: " +:+ BigString (cd_Appended c) +:+ " records appended")] else []))%list.

Definition headerLines (r : ReportDoc) : list string :=
  let run := rep_Run r in
  ([ "nutz-verify " +:+ rep_Command r;
     field "chain" (BigString (rd_ChainID run));
     field "distributor" (rd_DistributorText run);
     field "token" (rd_TokenText run);
     field "dev wallet" (rd_DevWalletText run) ] ++
   (if decide (rd_Expected run = EmptyString) then [] else [field "expected" (rd_Expected run)]) ++
   match rd_Tip run with
   | Some t => [field "finality" (rd_Finality run +:+ ": block " +:+ BigString (td_Number t) +:+ " " +:+ td_Hash t +:+
                  ", endpoints within " +:+ BigString (td_Lag t) +:+ " blocks of each other")]
   | None => [field "finality" (rd_Finality run)]
   end ++
   [field "endpoints" (String.concat ", " (rd_Endpoints run) +:+ ", at " +:+ formatG (rd_CallsPerSecond run) +:+ " calls/s each")] ++
   match rd_Cache run with Some c => cacheLines c | None => [] end)%list.

(** [status]. *)
Definition statusText (s : Status) : string :=
  if decide (s = Pass) then "ok" else if decide (s = Fail_) then "FAIL" else s.

Definition assertionLine (a : Assertion) : string :=
  "  " +:+ padRight 9 (as_Name a) +:+ padRight 6 (statusText (as_Status a)) +:+ as_Detail a.

Definition epochLines (e : EpochDoc) : list string :=
  let window := "epoch " +:+ BigString (ed_ID e) +:+ "  window [" +:+ BigString (wd_Start (ed_Window e)) +:+ ", " +:+
                BigString (wd_End (ed_Window e)) +:+ ")" in
  let r := ed_Recomputed e in
  ([ "";
     match ed_EndBlock e with
     | Some b => window +:+ "  end block " +:+ BigString (bd_Number b) +:+ " " +:+ bd_Hash b
     | None => window
     end;
     field "holders" (BigString (ed_Holders e) +:+ " in the tree, W = " +:+ rcd_TotalWeight r);
     if rcd_HasRoot r
     then field "recomputed" ("root " +:+ rcd_Root r +:+ "  totals " +:+ list_ (rcd_Totals r) +:+
                              "  carryOut " +:+ list_ (rcd_CarryOut r))
     else field "recomputed" ("no Root: no allocation survives  carryOut " +:+ list_ (rcd_CarryOut r));
     match ed_Posted e with
     | Some p => field "posted" ("root " +:+ pd_Root p +:+ " at block " +:+ BigString (pd_Block p) +:+ "  totals " +:+
                   list_ (pd_Totals p) +:+ "  funded " +:+ list_ (pd_Funded p) +:+ "  carryIn " +:+ list_ (pd_CarryIn p))
     | None => if ed_Skipped e then field "posted" "no Root: skipped by a later Root" else field "posted" "no Root"
     end ] ++
   (if decide (ed_Expected e = EmptyString) then [] else [field "expected" ("root " +:+ ed_Expected e)]) ++
   map assertionLine (ed_Assertions e) ++
   (if decide (ed_Reason e = EmptyString) then [] else [field "verdict" (ed_Verdict e +:+ ": " +:+ ed_Reason e)]))%list.

Definition artifactsLines (a : ArtifactsDoc) : list string :=
  if decide (ad_Error a = EmptyString) then
    let root := if decide (ad_Root a = EmptyString) then "no root.txt" else "root.txt " +:+ ad_Root a in
    [ ""; "artifacts " +:+ ad_Path a +:+ "  " +:+ BigString (ad_Rows a) +:+ " rows, " +:+ root;
      if decide (ad_Diff a = EmptyString) then field "" "agrees with the Recompute"
      else field "" ("DIFFERS: " +:+ ad_Diff a) ]
  else [ ""; "artifacts " +:+ ad_Path a +:+ "  NOT COMPARED: " +:+ ad_Error a ].

Definition verdictLines (r : ReportDoc) : list string :=
  if decide (rep_Verdict r = EmptyString) then []
  else [ ""; if decide (rep_ReasonText r = EmptyString) then rep_Verdict r else rep_Verdict r +:+ ": " +:+ rep_ReasonText r ].

(** Every line [Write] prints, each with its newline. *)
Definition reportLines (r : ReportDoc) : list string :=
  (headerLines r ++ (rep_Epochs r ≫= epochLines) ++
   match rep_Artifacts r with Some a => artifactsLines a | None => [] end ++ verdictLines r)%list.

Definition WriteText (r : ReportDoc) : string :=
  foldr (λ line rest, line +:+ String newline rest) EmptyString (reportLines r).

Close Scope string_scope.
End render.
