(* ===== verification/RenderTheorems.v ===== *)
(** * What the Report's two forms promise

    The JSON form is well formed whatever strings the Report holds, and a JSON reader
    that knows the schema's names finds in it the Report it was written from: integers
    as number literals, strings as they were quoted, one object per Epoch and per
    Assertion, what was left out as empty. *)
From S2P Require Import Prelude Sorts Bytes Text Json JsonFacts Report Render.
From Stdlib Require Import QArith.

Open Scope Z_scope.

(** ** Integers as number literals *)

(** [s] is digits. *)
Fixpoint digits (s : string) : Prop :=
  match s with EmptyString => True | String c s => isDigit c = true ∧ digits s end.

Lemma digit_isDigit d : 0 ≤ d < 10 → isDigit (digit d) = true ∧ (0 < d → ∀ stk, isSpace (digit d) = false ∧
  beginValue (digit d) stk = Some (MNumber NInt [digit d], stk) ∧ numberStep NNeg (digit d) = Some NInt).
Proof.
  intros Hd. assert (d ∈ seqZ 0 10) as Hin by (apply elem_of_seqZ; lia). change (seqZ 0 10) with [0;1;2;3;4;5;6;7;8;9] in Hin.
  clear Hd. repeat (apply elem_of_cons in Hin as [->|Hin]; [split; [done|]; intros ?; try lia; done|]). by apply not_elem_of_nil in Hin.
Qed.

Lemma numScan_digits s : digits s → numScan NInt s = Some NInt.
Proof. induction s as [|c s IH]; [done|]. intros [Hc Hs]. cbn [numScan numberStep]. rewrite Hc. cbn. by apply IH. Qed.

Lemma format_loop_digits fuel n acc : 0 < n < 2 ^ Z.of_nat fuel → digits acc →
  ∃ d s, format_loop fuel 10 n acc = String (digit d) s ∧ 0 < d < 10 ∧ digits s.
Proof.
  revert n acc. induction fuel as [|fuel IH]; intros n acc Hn Hacc; [cbn in Hn; lia|]. cbn [format_loop].
  rewrite (proj2 (Z.eqb_neq n 0)) by lia.
  pose proof (Z.div_mod n 10 ltac:(lia)) as Hdm. pose proof (Z.mod_pos_bound n 10 ltac:(lia)) as Hm.
  destruct (decide (n / 10 = 0)) as [Hq|Hq].
  - rewrite Hq. exists (n `mod` 10), acc. split_and!; [by destruct fuel|lia|lia|done].
  - assert (0 <= n / 10) by (apply Z.div_pos; lia). apply IH.
    + split; [lia|]. apply Z.div_lt_upper_bound; [lia|]. rewrite Nat2Z.inj_succ, Z.pow_succ_r in Hn by lia. lia.
    + split; [by apply digit_isDigit|done].
Qed.

Lemma FormatUint_digits n : 0 < n → ∃ d s, FormatUint 10 n = String (digit d) s ∧ 0 < d < 10 ∧ digits s.
Proof.
  intros Hn. unfold FormatUint. rewrite (proj2 (Z.eqb_neq n 0)) by lia. apply format_loop_digits; [|done].
  pose proof (Z.log2_spec n Hn). pose proof (Z.log2_nonneg n). rewrite Z2Nat.id; lia.
Qed.

Lemma BigString_num z : num_ok (BigString z).
Proof.
  unfold BigString. destruct (Z.ltb_spec z 0) as [Hz|Hz].
  - destruct (FormatUint_digits (- z)) as (d & s & Hs & Hd & Hds); [lia|]. rewrite Hs.
    destruct (digit_isDigit d) as [_ Hb]; [lia|]. destruct (Hb ltac:(lia) []) as (_ & _ & Hn).
    exists "-"%char, (String (digit d) s), NNeg, NInt. split_and!; [done|done| |done].
    cbn [numScan]. rewrite Hn. cbn [mbind option_bind]. by apply numScan_digits.
  - destruct (decide (z = 0)) as [->|Hz0]; [by exists "0"%char, EmptyString, NZero, NZero|].
    destruct (FormatUint_digits z) as (d & s & Hs & Hd & Hds); [lia|]. rewrite Hs.
    destruct (digit_isDigit d) as [_ Hb]; [lia|]. destruct (Hb ltac:(lia) []) as (_ & Hbv & _).
    exists (digit d), s, NInt, NInt. split_and!; [done|done|by apply numScan_digits|done].
Qed.

(** ** Every document the Report is written as can be read *)

(** Well formed and nested at most [h] deep. *)
Definition doc_ok (h : Z) (j : json) : Prop := json_ok j ∧ height j ≤ h.
Definition fields_ok (h : Z) (l : list (string * json)) : Prop := Forall (λ f, raw_ok f.1 ∧ doc_ok h f.2) l.

Lemma doc_ok_mono h h' j : h ≤ h' → doc_ok h j → doc_ok h' j.
Proof. intros Hh [? ?]. split; [done|lia]. Qed.

Lemma fold_max_le {A} (f : A → Z) l m : 0 ≤ m → Forall (λ x, f x ≤ m) l → fold_right (λ x m, Z.max (f x) m) 0 l ≤ m.
Proof. intros Hm. induction 1; cbn; lia. Qed.

Lemma doc_object h l : 0 ≤ h → fields_ok h l → doc_ok (1 + h) (JObj l).
Proof.
  intros Hh Hl. unfold fields_ok in Hl. split; cbn [json_ok height].
  - apply Forall_fold. eapply Forall_impl; [exact Hl|]. intros f (? & ? & _). by split.
  - apply Zplus_le_compat_l, fold_max_le; [done|]. eapply Forall_impl; [exact Hl|]. by intros f (_ & _ & ?).
Qed.

Lemma doc_array h l : 0 ≤ h → Forall (doc_ok h) l → doc_ok (1 + h) (JArr l).
Proof.
  intros Hh Hl. split; cbn [json_ok height].
  - apply Forall_fold. eapply Forall_impl; [exact Hl|]. by intros j [? _].
  - apply Zplus_le_compat_l, fold_max_le; [done|]. eapply Forall_impl; [exact Hl|]. by intros j [_ ?].
Qed.

Lemma doc_text h s : 0 ≤ h → doc_ok h (JText s).
Proof. split; [apply quoteString_raw|done]. Qed.

Section fields.
Context (h : Z) (Hh : 0 ≤ h).

Lemma fields_app l k : fields_ok h l → fields_ok h k → fields_ok h (l ++ k).
Proof using Type. apply Forall_app_2. Qed.
Lemma fields_nil : fields_ok h [].
Proof using Type. constructor. Qed.
Lemma fields_member key j : doc_ok h j → fields_ok h (member key j).
Proof using Type. intros Hj. repeat constructor; [apply quoteString_raw|apply Hj..]. Qed.
Lemma fields_memberText key s : fields_ok h (memberText key s).
Proof using Hh. by apply fields_member, doc_text. Qed.
Lemma fields_memberNum key s : num_ok s → fields_ok h (member key (JNum s)).
Proof using Hh. intros. apply fields_member. by split. Qed.
Lemma fields_memberInt key z : fields_ok h (memberInt key z).
Proof using Hh. apply fields_memberNum, BigString_num. Qed.
Lemma fields_memberBool key b : fields_ok h (member key (JBool b)).
Proof using Hh. by apply fields_member. Qed.
Lemma fields_omitText key s : fields_ok h (omitText key s).
Proof using Hh. unfold omitText. case_decide; [constructor|apply fields_memberText]. Qed.
Lemma fields_omitNil {A} key (f : A → json) o : (∀ x, doc_ok h (f x)) → fields_ok h (omitNil key f o).
Proof using Type. intros Hf. destruct o; [by apply fields_member|constructor]. Qed.
Lemma fields_memberTexts key l : 1 ≤ h → fields_ok h (memberTexts key l).
Proof using Type.
  intros H1. apply fields_member. replace h with (1 + (h - 1)) by lia. apply doc_array; [lia|].
  apply Forall_fmap, Forall_true. intros s. apply doc_text. lia.
Qed.
Lemma fields_omitEmpty {A} key (f : A → json) l : 1 ≤ h → (∀ x, doc_ok (h - 1) (f x)) → fields_ok h (omitEmpty key f l).
Proof using Type.
  intros H1 Hf. destruct l as [|x l]; [constructor|]. apply fields_member. replace h with (1 + (h - 1)) at 1 by lia.
  apply doc_array; [lia|]. by apply Forall_fmap, Forall_true.
Qed.
End fields.

Create HintDb doc.
#[export] Hint Resolve fields_app fields_nil fields_memberText fields_memberInt fields_memberBool fields_omitText
  fields_memberTexts fields_omitNil fields_omitEmpty fields_memberNum : doc.
#[export] Hint Extern 1 (_ ≤ _) => lia : doc.

(** An object whose members are found in the database. *)
Ltac solve_doc h := apply (doc_object h); [lia|]; repeat apply fields_app; eauto with doc.

Section documents.
Context (formatG formatJSON : float64 → string).

Lemma doc_jsonTip t : doc_ok 1 (jsonTip t).
Proof using Type. solve_doc 0. Qed.
Lemma doc_jsonReorg r : doc_ok 1 (jsonReorg r).
Proof using Type. solve_doc 0. Qed.
Hint Resolve doc_jsonTip doc_jsonReorg : doc.
Lemma doc_jsonCache c : doc_ok 2 (jsonCache c).
Proof using Type. solve_doc 1. Qed.
Lemma doc_jsonTip2 t : doc_ok 2 (jsonTip t).
Proof using Type. eapply doc_ok_mono; [|apply doc_jsonTip]. lia. Qed.
Hint Resolve doc_jsonCache doc_jsonTip2 : doc.
Lemma doc_jsonRun r : num_ok (formatJSON (rd_CallsPerSecond r)) → doc_ok 3 (jsonRun formatJSON r).
Proof using Type. intros Hfloat. solve_doc 2. Qed.
Lemma doc_jsonWindow w : doc_ok 2 (jsonWindow w).
Proof using Type. eapply (doc_ok_mono 1); [lia|]. solve_doc 0. Qed.
Lemma doc_jsonBlock b : doc_ok 2 (jsonBlock b).
Proof using Type. eapply (doc_ok_mono 1); [lia|]. solve_doc 0. Qed.
Lemma doc_jsonRecomputed r : doc_ok 2 (jsonRecomputed r).
Proof using Type. solve_doc 1. Qed.
Lemma doc_jsonPosted p : doc_ok 2 (jsonPosted p).
Proof using Type. solve_doc 1. Qed.
Lemma doc_jsonAssertion a : doc_ok 1 (jsonAssertion a).
Proof using Type. solve_doc 0. Qed.
Hint Resolve doc_jsonWindow doc_jsonBlock doc_jsonRecomputed doc_jsonPosted doc_jsonAssertion fields_member : doc.
Lemma doc_jsonEpoch e : doc_ok 3 (jsonEpoch e).
Proof using Type. solve_doc 2. destruct (ed_Skipped e); eauto with doc. Qed.
Lemma doc_jsonArtifacts a : doc_ok 4 (jsonArtifacts a).
Proof using Type. eapply (doc_ok_mono 1); [lia|]. solve_doc 0. Qed.
Lemma doc_jsonRun4 r : num_ok (formatJSON (rd_CallsPerSecond r)) → doc_ok 4 (jsonRun formatJSON r).
Proof using Type. intros Hfloat. eapply doc_ok_mono; [|by apply doc_jsonRun]. lia. Qed.
Hint Resolve doc_jsonRun4 doc_jsonEpoch doc_jsonArtifacts : doc.
Lemma doc_jsonReport r : num_ok (formatJSON (rd_CallsPerSecond (rep_Run r))) → doc_ok 5 (jsonReport formatJSON r).
Proof using Type. intros Hfloat. solve_doc 4. Qed.
End documents.

(** ** Reading a document *)

(** The first member of that name, as a reader of the schema finds it. *)
Fixpoint memberNamed (key : string) (l : list (string * json)) : option json :=
  match l with
  | [] => None
  | (k, j) :: l => if decide (unquote k = key) then Some j else memberNamed key l
  end.
Definition memberOf (key : string) (j : json) : option json :=
  match j with JObj l => memberNamed key l | _ => None end.

Lemma memberNamed_app key l k :
  memberNamed key (l ++ k) = match memberNamed key l with Some j => Some j | None => memberNamed key k end.
Proof. induction l as [|[k' j] l IH]; [done|]. cbn. by case_decide. Qed.

Lemma memberNamed_member key k j : ValidString k = true →
  memberNamed key (member k j) = if String.eqb k key then Some j else None.
Proof.
  intros Hk. cbn. rewrite unquote_quoteString, runesText_valid by done.
  destruct (String.eqb_spec k key); by case_decide.
Qed.

Lemma memberNamed_omitText key k s : ValidString k = true →
  memberNamed key (omitText k s) = if String.eqb k key then (if decide (s = EmptyString) then None else Some (JText s)) else None.
Proof. intros Hk. unfold omitText, memberText. case_decide; [by case_match|by apply memberNamed_member]. Qed.

Lemma memberNamed_omitNil {A} key k (f : A → json) o : ValidString k = true →
  memberNamed key (omitNil k f o) = if String.eqb k key then f <$> o else None.
Proof. intros Hk. destruct o; cbn [omitNil]; [by apply memberNamed_member|by case_match]. Qed.

Lemma memberNamed_omitEmpty {A} key k (f : A → json) l : ValidString k = true →
  memberNamed key (omitEmpty k f l) = if String.eqb k key then (match l with [] => None | _ => Some (JArr (map f l)) end) else None.
Proof. intros Hk. destruct l; cbn [omitEmpty]; [by case_match|by apply memberNamed_member]. Qed.

Lemma memberNamed_flag key k (b : bool) : ValidString k = true →
  memberNamed key (if b then member k (JBool true) else []) = if String.eqb k key then (if b then Some (JBool true) else None) else None.
Proof. intros Hk. destruct b; [by apply memberNamed_member|by case_match]. Qed.

Lemma option_some_eta {A} (o : option A) : match o with Some x => Some x | None => None end = o.
Proof. by destruct o. Qed.

(** What [json.Unmarshal] leaves in a field of each type. *)
Definition textIn (o : option json) : string := match o with Some (JStr raw) => unquote raw | _ => EmptyString end.
Definition boolIn (o : option json) : bool := match o with Some (JBool b) => b | _ => false end.
Definition itemsIn (o : option json) : list json := match o with Some (JArr l) => l | _ => [] end.
Definition readInt (literal : string) : option Z :=
  match literal with String "-" digits => Z.opp <$> ParseDigits 10 digits | digits => ParseDigits 10 digits end.
Definition intIn (o : option json) : Z := match o with Some (JNum literal) => default 0 (readInt literal) | _ => 0 end.

Lemma readInt_BigString z : readInt (BigString z) = Some z.
Proof.
  unfold BigString. destruct (Z.ltb_spec z 0) as [Hz|Hz].
  - change (Z.opp <$> ParseDigits 10 (FormatUint 10 (- z)) = Some z). rewrite ParseDigits_FormatUint by lia. cbn. f_equal. lia.
  - destruct (decide (z = 0)) as [->|Hz0]; [done|]. destruct (FormatUint_digits z) as (d & s & Hs & Hd & _); [lia|].
    pose proof (ParseDigits_FormatUint 10 ltac:(lia) z Hz) as Hp. rewrite Hs in *. unfold readInt.
    assert (∃ k, k ∈ [1;2;3;4;5;6;7;8;9] ∧ k = d) as (k & Hk & <-) by (exists d; split; [apply (elem_of_seqZ 1 9); lia|done]).
    revert Hp. by repeat (apply elem_of_cons in Hk as [->|Hk]; [done|]); apply not_elem_of_nil in Hk.
Qed.

Lemma intIn_BigString z : intIn (Some (JNum (BigString z))) = z.
Proof. cbn [intIn]. by rewrite readInt_BigString. Qed.
Lemma textIn_JText s : textIn (Some (JText s)) = runesText s.
Proof. apply unquote_quoteString. Qed.
Lemma textIn_omitted s : textIn (if decide (s = EmptyString) then None else Some (JText s)) = runesText s.
Proof. case_decide as H; [by rewrite H|apply textIn_JText]. Qed.
Lemma itemsIn_omitted {A} (f : A → json) l : itemsIn (match l with [] => None | _ => Some (JArr (map f l)) end) = f <$> l.
Proof. by destruct l. Qed.
Lemma textsIn_JText l : (λ j, textIn (Some j)) <$> map JText l = runesText <$> l.
Proof. induction l as [|s l IH]; [done|]. cbn [map]. rewrite !fmap_cons. f_equal; [apply textIn_JText|exact IH]. Qed.

(** A Report read by its schema, a struct at a time. *)
Section read.
Context (ParseFloat : string → option float64).

Definition getText (key : string) (j : json) : string := textIn (memberOf key j).
Definition getInt (key : string) (j : json) : Z := intIn (memberOf key j).
Definition getBool (key : string) (j : json) : bool := boolIn (memberOf key j).
Definition getItems {A} (key : string) (f : json → A) (j : json) : list A := f <$> itemsIn (memberOf key j).
Definition getTexts (key : string) (j : json) : list string := getItems key (λ j, textIn (Some j)) j.
Definition getStruct {A} (key : string) (f : json → A) (j : json) : A := f (default JNull (memberOf key j)).
Definition getPointer {A} (key : string) (f : json → A) (j : json) : option A := f <$> memberOf key j.
Definition getFloat (key : string) (j : json) : float64 :=
  match memberOf key j with Some (JNum literal) => default (Float 0) (ParseFloat literal) | _ => Float 0 end.

Definition readTip (j : json) : TipDoc := mkTipDoc (getInt "number" j) (getText "hash" j) (getInt "lag" j).
Definition readReorg (j : json) : ReorgDoc := mkReorgDoc (getInt "block" j) (getInt "dropped" j).
Definition readCache (j : json) : CacheDoc :=
  mkCacheDoc (getText "dir" j) (getInt "records" j) (getInt "through" j) (getInt "appended" j)
    (getPointer "reorg" readReorg j) (getText "repaired" j).
Definition readRun (j : json) : RunDoc :=
  mkRunDoc (getInt "chainId" j) (getText "distributor" j) (getText "token" j) (getText "devWallet" j)
    (getText "finality" j) (getText "expected" j) (getTexts "endpoints" j) (getFloat "callsPerSecond" j)
    (getPointer "tip" readTip j) (getPointer "cache" readCache j).
Definition readWindow (j : json) : WindowDoc := mkWindowDoc (getInt "start" j) (getInt "end" j).
Definition readBlock (j : json) : BlockDoc := mkBlockDoc (getInt "number" j) (getText "hash" j).
Definition readRecomputed (j : json) : RecomputedDoc :=
  mkRecomputedDoc (getBool "hasRoot" j) (getText "root" j) (getTexts "totals" j) (getTexts "carryOut" j)
    (getText "totalWeight" j) (getTexts "carryIn" j).
Definition readPosted (j : json) : PostedDoc :=
  mkPostedDoc (getText "root" j) (getInt "block" j) (getTexts "totals" j) (getTexts "funded" j) (getTexts "carryIn" j).
Definition readAssertion (j : json) : Assertion :=
  mkAssertion (getText "name" j) (getText "status" j) (getText "detail" j).
Definition readEpoch (j : json) : EpochDoc :=
  mkEpochDoc (getInt "id" j) (getStruct "window" readWindow j) (getPointer "endBlock" readBlock j) (getInt "holders" j)
    (getStruct "recomputed" readRecomputed j) (getPointer "posted" readPosted j) (getText "expected" j)
    (getBool "skipped" j) (getItems "assertions" readAssertion j) (getText "verdict" j) (getText "reason" j).
Definition readArtifacts (j : json) : ArtifactsDoc :=
  mkArtifactsDoc (getText "path" j) (getInt "rows" j) (getText "root" j) (getText "diff" j) (getText "error" j).
Definition readReport (j : json) : ReportDoc :=
  mkReportDoc (getText "schema" j) (getText "command" j) (getStruct "run" readRun j) (getText "verdict" j)
    (getText "reason" j) (getItems "epochs" readEpoch j) (getPointer "artifacts" readArtifacts j).
End read.

(** A Report with every string of it replaced. *)
Section texts.
Context (f : string → string).

Definition mapTip (t : TipDoc) : TipDoc := mkTipDoc (td_Number t) (f (td_Hash t)) (td_Lag t).
Definition mapCache (c : CacheDoc) : CacheDoc :=
  mkCacheDoc (f (cd_Dir c)) (cd_Records c) (cd_Through c) (cd_Appended c) (cd_Reorg c) (f (cd_Repaired c)).
Definition mapRun (r : RunDoc) : RunDoc :=
  mkRunDoc (rd_ChainID r) (f (rd_DistributorText r)) (f (rd_TokenText r)) (f (rd_DevWalletText r)) (f (rd_Finality r))
    (f (rd_Expected r)) (f <$> rd_Endpoints r) (rd_CallsPerSecond r) (mapTip <$> rd_Tip r) (mapCache <$> rd_Cache r).
Definition mapBlock (b : BlockDoc) : BlockDoc := mkBlockDoc (bd_Number b) (f (bd_Hash b)).
Definition mapRecomputed (r : RecomputedDoc) : RecomputedDoc :=
  mkRecomputedDoc (rcd_HasRoot r) (f (rcd_Root r)) (f <$> rcd_Totals r) (f <$> rcd_CarryOut r) (f (rcd_TotalWeight r))
    (f <$> rcd_CarryIn r).
Definition mapPosted (p : PostedDoc) : PostedDoc :=
  mkPostedDoc (f (pd_Root p)) (pd_Block p) (f <$> pd_Totals p) (f <$> pd_Funded p) (f <$> pd_CarryIn p).
Definition mapAssertion (a : Assertion) : Assertion := mkAssertion (f (as_Name a)) (f (as_Status a)) (f (as_Detail a)).
Definition mapEpoch (e : EpochDoc) : EpochDoc :=
  mkEpochDoc (ed_ID e) (ed_Window e) (mapBlock <$> ed_EndBlock e) (ed_Holders e) (mapRecomputed (ed_Recomputed e))
    (mapPosted <$> ed_Posted e) (f (ed_Expected e)) (ed_Skipped e) (mapAssertion <$> ed_Assertions e) (f (ed_Verdict e))
    (f (ed_Reason e)).
Definition mapArtifacts (a : ArtifactsDoc) : ArtifactsDoc :=
  mkArtifactsDoc (f (ad_Path a)) (ad_Rows a) (f (ad_Root a)) (f (ad_Diff a)) (f (ad_Error a)).
Definition mapReport (r : ReportDoc) : ReportDoc :=
  mkReportDoc (f (rep_Schema r)) (f (rep_Command r)) (mapRun (rep_Run r)) (f (rep_Verdict r)) (f (rep_ReasonText r))
    (mapEpoch <$> rep_Epochs r) (mapArtifacts <$> rep_Artifacts r).
End texts.

(** Looks a literal key up among the members of a struct. *)
Ltac find_member :=
  unfold getText, getInt, getBool, getTexts, getItems, getStruct, getPointer; cbn [memberOf];
  unfold memberText, memberInt, memberTexts; rewrite ?memberNamed_app;
  repeat first
    [ rewrite memberNamed_member by reflexivity
    | rewrite memberNamed_omitText by reflexivity
    | rewrite memberNamed_omitEmpty by reflexivity
    | rewrite memberNamed_omitNil by reflexivity
    | rewrite memberNamed_flag by reflexivity ];
  cbn [String.eqb Ascii.eqb Bool.eqb]; rewrite ?option_some_eta;
  rewrite ?intIn_BigString, ?textIn_JText, ?textIn_omitted, ?itemsIn_omitted.

Lemma readTip_json t : readTip (jsonTip t) = mapTip runesText t.
Proof. unfold readTip, jsonTip. by find_member. Qed.
Lemma readReorg_json r : readReorg (jsonReorg r) = r.
Proof. unfold readReorg, jsonReorg. find_member. by destruct r. Qed.
Lemma readBlock_json b : readBlock (jsonBlock b) = mapBlock runesText b.
Proof. unfold readBlock, jsonBlock. by find_member. Qed.
Lemma readWindow_json w : readWindow (jsonWindow w) = w.
Proof. unfold readWindow, jsonWindow. find_member. by destruct w. Qed.
Lemma readAssertion_json a : readAssertion (jsonAssertion a) = mapAssertion runesText a.
Proof. unfold readAssertion, jsonAssertion. by find_member. Qed.
Lemma readArtifacts_json a : readArtifacts (jsonArtifacts a) = mapArtifacts runesText a.
Proof. unfold readArtifacts, jsonArtifacts. by find_member. Qed.
Lemma readRecomputed_json r : readRecomputed (jsonRecomputed r) = mapRecomputed runesText r.
Proof. unfold readRecomputed, jsonRecomputed. find_member. cbn [itemsIn boolIn]. by rewrite !textsIn_JText. Qed.
Lemma readPosted_json p : readPosted (jsonPosted p) = mapPosted runesText p.
Proof. unfold readPosted, jsonPosted. find_member. cbn [itemsIn]. by rewrite !textsIn_JText. Qed.

(** What a pointer and a list are read as. *)
Lemma pointer_json {A B} (read : json → B) (write : A → json) (f : A → B) (o : option A) :
  (∀ x, read (write x) = f x) → read <$> (write <$> o) = f <$> o.
Proof. intros H. destruct o; [|done]. cbn. by rewrite H. Qed.
Lemma list_json {A B} (read : json → B) (write : A → json) (f : A → B) (l : list A) :
  (∀ x, read (write x) = f x) → read <$> (write <$> l) = f <$> l.
Proof. intros H. rewrite <-list_fmap_compose. apply list_fmap_ext. intros ? x _. apply H. Qed.

Lemma readCache_json c : readCache (jsonCache c) = mapCache runesText c.
Proof.
  unfold readCache, jsonCache. find_member. rewrite (pointer_json _ _ id) by apply readReorg_json.
  by rewrite option_fmap_id.
Qed.

Lemma readEpoch_json e : readEpoch (jsonEpoch e) = mapEpoch runesText e.
Proof.
  unfold readEpoch, jsonEpoch. find_member. cbn [default from_option id].
  rewrite readWindow_json, readRecomputed_json, (pointer_json _ _ _ _ readBlock_json), (pointer_json _ _ _ _ readPosted_json),
    (list_json _ _ _ _ readAssertion_json). unfold mapEpoch. f_equal. by destruct (ed_Skipped e).
Qed.

Section theorems.
Context (formatJSON : float64 → string) (ParseFloat : string → option float64).

(** encoding/json writes a float as a number that is read back as it was. *)
Definition writes_float (x : float64) : Prop := num_ok (formatJSON x) ∧ ParseFloat (formatJSON x) = Some x.

Lemma readRun_json r : writes_float (rd_CallsPerSecond r) → readRun ParseFloat (jsonRun formatJSON r) = mapRun runesText r.
Proof.
  intros [_ Hfloat]. unfold readRun, jsonRun, getFloat. find_member. cbn [itemsIn]. rewrite Hfloat, textsIn_JText.
  by rewrite (pointer_json _ _ _ _ readTip_json), (pointer_json _ _ _ _ readCache_json).
Qed.

Lemma readReport_json r : writes_float (rd_CallsPerSecond (rep_Run r)) →
  readReport ParseFloat (jsonReport formatJSON r) = mapReport runesText r.
Proof.
  intros Hfloat. unfold readReport, jsonReport. find_member. cbn [default from_option id].
  by rewrite readRun_json, (list_json _ _ _ _ readEpoch_json), (pointer_json _ _ _ _ readArtifacts_json).
Qed.

(** C35: the --json document is the Report. At a rate that is a number, WriteJSON writes
    a text that the scanner of encoding/json accepts, and a reader of the schema gets
    back from it the whole Report, every field of every struct and every Epoch and
    Assertion in order, under the schema's version: integers, flags and what was left
    out as they were, and each string rune for rune, so byte for byte when it is valid
    UTF-8 and with U+FFFD for each byte that is not, whatever an endpoint's error put
    there. At a rate that is NaN or an infinity there is no document. *)
Theorem WriteJSON_read r :
  match rd_CallsPerSecond (rep_Run r) with
  | Float q =>
      writes_float (Float q) →
      ∃ written doc, WriteJSON formatJSON r = Some written ∧ ScanJSON written = Some doc ∧
        readReport ParseFloat doc = mapReport runesText (withSchema SchemaVersion r)
  | _ => WriteJSON formatJSON r = None
  end ∧
  (∀ s, ValidString s = true → runesText s = s).
Proof.
  split; [|apply runesText_valid]. unfold WriteJSON.
  destruct (rd_CallsPerSecond (rep_Run r)) as [q|negative|] eqn:Hrate; [|done..]. intros Hfloat.
  assert (rd_CallsPerSecond (rep_Run (withSchema SchemaVersion r)) = Float q) as Hrate' by (by destruct r).
  eexists _, (jsonReport formatJSON (withSchema SchemaVersion r)). split; [done|]. split.
  - destruct (doc_jsonReport formatJSON (withSchema SchemaVersion r)) as [Hok Hh]; [rewrite Hrate'; apply Hfloat|].
    apply ScanJSON_Encode; [done|unfold maxNestingDepth; lia].
  - apply readReport_json. by rewrite Hrate'.
Qed.
End theorems.

(** ** A Report written out *)

Open Scope string_scope.

Definition sample_report : ReportDoc := mkReportDoc "" "epoch"
  (mkRunDoc 4663 "0x22" "0x11" "0xdd" "safe" "" ["endpoint 1 (rpc.example)"] (Float 15)
    (Some (mkTipDoc 41000 "0x41" 3))
    (Some (mkCacheDoc "/home/x/.cache" 12345 40990 17 (Some (mkReorgDoc 40980 4)) "a record that fails its checksum")))
  Match ""
  [mkEpochDoc 1000 (mkWindowDoc 3600000 3603600) (Some (mkBlockDoc 40990 "0x40")) 2
    (mkRecomputedDoc true "0xa1" ["5"] ["0"] "40000" ["1"]) (Some (mkPostedDoc "0xa1" 41003 ["5"] ["4"] ["1"])) "" false
    [mkAssertion "root" Pass "0xa1"; mkAssertion "cap" Fail_ "token 0"] Match ""]
  (Some (mkArtifactsDoc "/srv/1000" 2 "" "row 1" "")).

Example sample_text : reportLines (λ _, "15") sample_report =
  [ "nutz-verify epoch";
    "  chain        4663";
    "  distributor  0x22";
    "  token        0x11";
    "  dev wallet   0xdd";
    "  finality     safe: block 41000 0x41, endpoints within 3 blocks of each other";
    "  endpoints    endpoint 1 (rpc.example), at 15 calls/s each";
    "  cache        /home/x/.cache: 12345 records through block 40990";
    "               repaired: a record that fails its checksum";
    "               reorg: dropped 4 records from block 40980 on";
    "               synced: 17 records appended";
    "";
    "epoch 1000  window [3600000, 3603600)  end block 40990 0x40";
    "  holders      2 in the tree, W = 40000";
    "  recomputed   root 0xa1  totals [5]  carryOut [0]";
    "  posted       root 0xa1 at block 41003  totals [5]  funded [4]  carryIn [1]";
    "  root     ok    0xa1";
    "  cap      FAIL  token 0";
    "";
    "artifacts /srv/1000  2 rows, no root.txt";
    "               DIFFERS: row 1";
    "";
    "MATCH" ].
Proof. by vm_compute. Qed.

(** The same Report, with a byte of no rune in its reason. *)
Definition torn_report : ReportDoc := withReason ("HTTP 502: " +:+ String "200" "!") sample_report.

Lemma WriteJSON_read_witness :
  ∃ written doc, WriteJSON (λ _, "15") torn_report = Some written ∧ ScanJSON written = Some doc ∧
    readReport (λ _, Some (Float 15)) doc =
      withSchema SchemaVersion (withReason ("HTTP 502: " +:+ replacementText "!") sample_report).
Proof.
  apply (WriteJSON_read (λ _, "15") (λ _, Some (Float 15)) torn_report).
  split; [|reflexivity]. by exists "1"%char, "5", NInt, NInt.
Defined.
