(* ===== verification/Artifacts.v ===== *)
(** * cmd/nutz-verify: a published bundle against the Recompute

    [artifacts.go]. Files are read through [Files]: what Stat and ReadFile answer for
    a path. Rows are decoded from the document's tree the way encoding/json drives
    the code's unmarshallers: nulls, short and long arrays, repeated and differently
    cased keys included. The text of an error is a parameter of the caller. *)
From S2P Require Import Prelude Sorts Bytes Text Json Paths Merkle Chain StateMonad Reader Report Render Epoch.

Inductive fileResult := FileText (s : string) | FileMissing | FileError.

Record Files := mkFiles {
  fl_Stat : string → option bool;      (* whether it is a directory *)
  fl_ReadFile : string → fileResult;
}.

Definition allocationsFile : string := "allocations.json".
Definition rootFile : string := "root.txt".

Inductive artifactError :=
  | errStat (path : string)
  | errReadFile (path : string)
  | errNotJSON (path : string)
  | errJSONValue (path : string) (cause : artifactError)
  | errJSONType
  | errDecimal (text : string)
  | errElements (n : nat)
  | errAccount (account : string) (cause : chainError)
  | errMultBps (multBps : Z)
  | errRootText (path text : string).

Record artifactRow := mkArtifactRow {
  ar_Account : Address;
  ar_Amounts : vec Z 5;
  ar_TWAB : Z;
  ar_MultBps : Z;
}.

(** ** Decoding a row *)

(** [big.Int.SetString(text, 10)]. *)
Definition SetString10 (s : string) : option Z :=
  match s with
  | String "-" s => Z.opp <$> ParseDigits 10 s
  | String "+" s => ParseDigits 10 s
  | _ => ParseDigits 10 s
  end.

(** A value's own text, as an unmarshaller is handed it; of an array or an object
    only its first byte matters here. *)
Definition valueText (j : json) : string :=
  match j with
  | JNull => "null"
  | JBool true => "true"
  | JBool false => "false"
  | JNum literal => literal
  | JStr raw => quoted raw
  | JArr _ => "["
  | JObj _ => "{"
  end.

(** [decimal.UnmarshalJSON]. *)
Definition decodeDecimal (j : json) : Res artifactError Z :=
  or_err (SetString10 (TrimQuotes (TrimSpace (valueText j)))) (errDecimal (valueText j)).

(** A string, which null leaves as it was. *)
Definition decodeText (old : string) (j : json) : Res artifactError string :=
  match j with JStr raw => Ok (unquote raw) | JNull => Ok old | _ => Err errJSONType end.

(** [[chain.TokenCount]decimal]: what a short array does not reach is zero, what a
    long one has more is dropped. *)
Definition decodeAmounts (old : vec Z 5) (j : json) : Res artifactError (vec Z 5) :=
  match j with
  | JArr items => vtraverseI (λ t _, match items !! t with Some j => decodeDecimal j | None => Ok 0 end) 0 old
  | JNull => Ok old
  | _ => Err errJSONType
  end.

(** The row's fields before they are checked. *)
Record rowFields := mkRowFields { rf_account : string; rf_amounts : vec Z 5; rf_twab : Z; rf_multBps : Z }.
Definition zeroRow : rowFields := mkRowFields EmptyString (vreplicate 5 0) 0 0.

(** A tuple element: a null takes the pointer away, and the field stays zero. *)
Definition tupleElement {A} (zero : A) (decode : json → Res artifactError A) (j : option json) : Res artifactError A :=
  match j with None | Some JNull => Ok zero | Some j => decode j end.

Definition decodeTuple (items : list json) : Res artifactError rowFields :=
  account ← tupleElement EmptyString (decodeText EmptyString) (items !! 0%nat);
  amounts ← tupleElement (vreplicate 5 0) (decodeAmounts (vreplicate 5 0)) (items !! 1%nat);
  twab ← tupleElement 0 decodeDecimal (items !! 2%nat);
  multBps ← tupleElement 0 decodeDecimal (items !! 3%nat);
  if negb (length items =? 4)%nat then Err (errElements (length items))
  else mret (mkRowFields account amounts twab multBps).

(** encoding/json's [foldName], where it yields ASCII. *)
Fixpoint foldName (s : string) : string :=
  match s with
  | EmptyString => EmptyString
  | String "197" (String "191" s) => String "S" (foldName s)
  | String "226" (String "132" (String "170" s)) => String "K" (foldName s)
  | String c s =>
      let k := ascii_code c in
      String (if (97 <=? k) && (k <=? 122) then ascii_at (k - 32) else c) (foldName s)
  end.

(** One member of a row written as an object. *)
Definition decodeMember (r : rowFields) (f : string * json) : Res artifactError rowFields :=
  let '(key, j) := f in
  let name := foldName (unquote key) in
  if decide (name = "ACCOUNT"%string) then
    account ← decodeText (rf_account r) j; mret (mkRowFields account (rf_amounts r) (rf_twab r) (rf_multBps r))
  else if decide (name = "AMOUNTS"%string) then
    amounts ← decodeAmounts (rf_amounts r) j; mret (mkRowFields (rf_account r) amounts (rf_twab r) (rf_multBps r))
  else if decide (name = "TWAB"%string) then
    twab ← decodeDecimal j; mret (mkRowFields (rf_account r) (rf_amounts r) twab (rf_multBps r))
  else if decide (name = "MULTBPS"%string) then
    multBps ← decodeDecimal j; mret (mkRowFields (rf_account r) (rf_amounts r) (rf_twab r) multBps)
  else mret r.

Definition decodeFields (j : json) : Res artifactError rowFields :=
  match j with
  | JArr items => decodeTuple items
  | JObj fields => foldM decodeMember fields zeroRow
  | JNull => Ok zeroRow
  | _ => Err errJSONType
  end.

(** [artifactRow.UnmarshalJSON]. *)
Definition decodeRow (j : json) : Res artifactError artifactRow :=
  r ← decodeFields j;
  account ← wrap (errAccount (rf_account r)) (ParseAddress (rf_account r));
  if negb ((- 2 ^ 63 <=? rf_multBps r) && (rf_multBps r <? 2 ^ 63)) then Err (errMultBps (rf_multBps r))
  else mret (mkArtifactRow account (rf_amounts r) (rf_twab r) (rf_multBps r)).

(** [json.Unmarshal] into the rows. *)
Definition decodeRows (j : json) : Res artifactError (list artifactRow) :=
  match j with
  | JArr items => traverse decodeRow items
  | JNull => Ok []
  | _ => Err errJSONType
  end.

Section files.
Context (files : Files).

Definition readAllocations (path : string) : Res artifactError (list artifactRow) :=
  match fl_ReadFile files path with
  | FileText s =>
      match ScanJSON s with
      | None => Err (errNotJSON path)
      | Some j => wrap (errJSONValue path) (decodeRows j)
      end
  | _ => Err (errReadFile path)
  end.

(** [readRoot]: a file that is not there is no Root. *)
Definition readRoot (path : string) : Res artifactError (option Hash) :=
  match fl_ReadFile files path with
  | FileMissing => Ok None
  | FileError => Err (errReadFile path)
  | FileText s =>
      let text := TrimSpace s in
      match DecodeString (TrimHexPrefix text) with
      | Some raw => if negb (length raw =? 32)%nat then Err (errRootText path text) else Ok (Some (copy_array 32 raw))
      | None => Err (errRootText path text)
      end
  end.

(** ** Comparing *)

Open Scope string_scope.

Definition rowAt (i : nat) (account : Address) : string :=
  "row " +:+ natText i +:+ " (" +:+ AddressString account +:+ ")".

(** The first amount that differs, from token [t] on. *)
Fixpoint diffAmounts (i : nat) (account : Address) (t : nat) (published recomputed : list Z) : string :=
  match published, recomputed with
  | p :: published, r :: recomputed =>
      if (p =? r)%Z then diffAmounts i account (S t) published recomputed
      else rowAt i account +:+ ": amounts[" +:+ natText t +:+ "] published " +:+ BigString p +:+
           ", recomputed " +:+ BigString r
  | _, _ => ""
  end.

(** The body of the loop of [diffRows] where both have a row. *)
Definition diffRow (i : nat) (p : artifactRow) (r : EngineAllocation) : string :=
  if negb (bool_decide (ar_Account p = ea_Account r)) then
    "row " +:+ natText i +:+ ": published account " +:+ AddressString (ar_Account p) +:+
    ", recomputed " +:+ AddressString (ea_Account r)
  else
    let amounts := diffAmounts i (ar_Account p) 0 (vec_to_list (ar_Amounts p)) (vec_to_list (ea_Amounts r)) in
    if negb (bool_decide (amounts = EmptyString)) then amounts
    else if negb (ar_TWAB p =? ea_TWAB r)%Z then
      rowAt i (ar_Account p) +:+ ": twab published " +:+ BigString (ar_TWAB p) +:+ ", recomputed " +:+ BigString (ea_TWAB r)
    else if negb (ar_MultBps p =? ea_MultBps r)%Z then
      rowAt i (ar_Account p) +:+ ": multBps published " +:+ BigString (ar_MultBps p) +:+ ", recomputed " +:+
      BigString (ea_MultBps r)
    else "".

(** The loop of [diffRows] from row [i] on; [np] and [nr] are the whole lengths. *)
Fixpoint diffRowsFrom (i np nr : nat) (published : list artifactRow) (recomputed : list EngineAllocation) : string :=
  match published, recomputed with
  | [], [] => ""
  | [], r :: _ =>
      "row " +:+ natText i +:+ ": the bundle ends after " +:+ natText np +:+ " rows, and the Recompute has " +:+
      natText nr +:+ " (next is " +:+ AddressString (ea_Account r) +:+ ")"
  | p :: _, [] =>
      rowAt i (ar_Account p) +:+ ": the Recompute ends after " +:+ natText nr +:+ " rows, and the bundle has " +:+ natText np
  | p :: published, r :: recomputed =>
      let diff := diffRow i p r in
      if bool_decide (diff = EmptyString) then diffRowsFrom (S i) np nr published recomputed else diff
  end.

Definition diffRows (published : list artifactRow) (recomputed : list EngineAllocation) : string :=
  diffRowsFrom 0 (length published) (length recomputed) published recomputed.

Definition diffRoot (published : Hash) (result : EngineResult) : string :=
  if negb (er_HasRoot result) then "root.txt is " +:+ HashString published +:+ ", and the Recompute posts no Root"
  else if negb (bool_decide (published = er_Root result)) then
    "root.txt is " +:+ HashString published +:+ ", recomputed " +:+ HashString (er_Root result)
  else "".

Definition diffBundle (path : string) (result : EngineResult) : Res artifactError ArtifactsDoc :=
  isDir ← or_err (fl_Stat files path) (errStat path);
  let dir := if (isDir : bool) then path else PathDir path in
  rows ← readAllocations (Join [dir; allocationsFile]);
  let diff := diffRows rows (er_Allocations result) in
  root ← readRoot (Join [dir; rootFile]);
  mret match root with
       | Some h => mkArtifactsDoc dir (Z.of_nat (length rows)) (HashString h)
                     (if decide (diff = EmptyString) then diffRoot h result else diff) ""
       | None => mkArtifactsDoc dir (Z.of_nat (length rows)) "" diff ""
       end.

Close Scope string_scope.

(** [compareArtifacts]; a Fault stands for a panic. *)
Definition compareArtifacts (errorText : artifactError → string) (path : string) (result : EngineResult)
    : Res Empty_set ArtifactsDoc :=
  match diffBundle path result with
  | Ok doc => Ok doc
  | Err err => Ok (mkArtifactsDoc path 0 EmptyString EmptyString (errorText err))
  | Fault x => Fault x
  end.
End files.
