(* ===== verification/ArtifactsTheorems.v ===== *)
(** * What the comparison with a published bundle says

    What a published bundle is ([published]: its files, row by row, in either of the
    two forms rows have), and that its comparison shows no difference exactly when it
    holds the recomputed Allocations and Root, else the first row that differs. It
    always ends with a section of the Report, never with an error. *)
From S2P Require Import Prelude Sorts Bytes Text Json JsonFacts Paths Merkle Twab Chain ChainTheorems StateMonad Wire Reader ChainReader Node Report Render RenderTheorems Epoch Artifacts.

Open Scope Z_scope.

(** ** Decoding never panics *)

Lemma decodeDecimal_faults j : no_fault (decodeDecimal j).
Proof. unfold decodeDecimal. solve_faults. Qed.
Lemma decodeText_faults old j : no_fault (decodeText old j).
Proof. unfold decodeText. solve_faults. Qed.
#[export] Hint Resolve decodeDecimal_faults decodeText_faults : faults.
Lemma decodeAmounts_faults old j : no_fault (decodeAmounts old j).
Proof. unfold decodeAmounts. solve_faults. Qed.
#[export] Hint Resolve decodeAmounts_faults : faults.
Lemma decodeMember_faults r f : no_fault (decodeMember r f).
Proof. unfold decodeMember. destruct f as [key j]. cbn zeta. solve_faults. Qed.
#[export] Hint Resolve decodeMember_faults : faults.
Lemma decodeRow_faults j : no_fault (decodeRow j).
Proof.
  unfold decodeRow. apply no_fault_bind; [|intros r; solve_faults]. unfold decodeFields, decodeTuple, tupleElement. solve_faults.
Qed.
#[export] Hint Resolve decodeRow_faults : faults.

Lemma diffBundle_faults files path result : no_fault (diffBundle files path result).
Proof.
  unfold diffBundle. apply no_fault_bind; [solve_faults|]. intros isDir. cbn zeta. apply no_fault_bind.
  { unfold readAllocations, decodeRows, traverse. solve_faults. }
  intros rows. apply no_fault_bind; [|solve_faults]. unfold readRoot. cbn zeta. solve_faults.
Qed.

Lemma compareArtifacts_Ok files errorText path result : ∃ doc, compareArtifacts files errorText path result = Ok doc.
Proof.
  unfold compareArtifacts. destruct (diffBundle files path result) as [doc|err|x] eqn:E; [by exists doc|by eexists|].
  by apply diffBundle_faults in E.
Qed.

(** ** Rows *)

Definition row_agrees (p : artifactRow) (r : EngineAllocation) : Prop :=
  ar_Account p = ea_Account r ∧ ar_Amounts p = ea_Amounts r ∧ ar_TWAB p = ea_TWAB r ∧ ar_MultBps p = ea_MultBps r.

(** A difference at row [k]. *)
Definition names_row (k : nat) (diff : string) : Prop := ∃ rest, diff = ("row " +:+ natText k +:+ rest)%string.

Lemma names_row_nonempty k diff : names_row k diff → diff ≠ EmptyString.
Proof. intros [rest ->]. by rewrite string_app_cons. Qed.

Lemma rowAt_names k account rest : names_row k (rowAt k account +:+ rest)%string.
Proof. unfold rowAt. rewrite !string_app_assoc. by eexists. Qed.

Lemma diffAmounts_spec i account t p r : length p = length r →
  diffAmounts i account t p r = EmptyString ∧ p = r ∨ names_row i (diffAmounts i account t p r) ∧ p ≠ r.
Proof.
  revert t r. induction p as [|x p IH]; intros t [|y r] Hlen; try done; [by left|]. cbn [diffAmounts].
  destruct (Z.eqb_spec x y) as [->|Hne].
  - destruct (IH (S t) r) as [[-> ->]|[Hd Hr]]; [by injection Hlen|by left|right]. split; [done|]. by intros [= ->].
  - right. split; [|by intros [= ? ?]]. rewrite ?string_app_assoc. apply rowAt_names.
Qed.

Lemma diffRow_spec i p r :
  diffRow i p r = EmptyString ∧ row_agrees p r ∨ names_row i (diffRow i p r) ∧ ¬ row_agrees p r.
Proof.
  unfold diffRow, row_agrees. case_bool_decide as Ha; cbn [negb]; [|right; split; [by eexists|tauto]].
  destruct (diffAmounts_spec i (ar_Account p) 0 (vec_to_list (ar_Amounts p)) (vec_to_list (ea_Amounts r))) as [[Hd Hv]|[Hd Hv]];
    [by rewrite !length_vec_to_list|..].
  - rewrite Hd. cbn zeta. rewrite bool_decide_eq_true_2 by done. cbn [negb]. apply vec_to_list_inj2 in Hv.
    destruct (Z.eqb_spec (ar_TWAB p) (ea_TWAB r)); cbn [negb]; [|right; split; [apply rowAt_names|tauto]].
    destruct (Z.eqb_spec (ar_MultBps p) (ea_MultBps r)); cbn [negb]; [|right; split; [apply rowAt_names|tauto]].
    left. by split_and!.
  - pose proof (names_row_nonempty _ _ Hd) as Hne. cbn zeta. rewrite bool_decide_eq_false_2 by done. cbn [negb].
    right. split; [done|]. intros (_ & Heq & _). by rewrite Heq in Hv.
Qed.

(** [k] is the first row at which the two do not agree. *)
Definition first_disagreement (k : nat) (published : list artifactRow) (recomputed : list EngineAllocation) : Prop :=
  (k < max (length published) (length recomputed))%nat ∧
  Forall2 row_agrees (take k published) (take k recomputed) ∧
  ¬ (∃ p r, published !! k = Some p ∧ recomputed !! k = Some r ∧ row_agrees p r).

Lemma first_disagreement_not k published recomputed :
  first_disagreement k published recomputed → ¬ Forall2 row_agrees published recomputed.
Proof.
  intros (Hlt & _ & Hno) Hall. pose proof (Forall2_length _ _ _ Hall) as Hlen.
  destruct (lookup_lt_is_Some_2 published k) as [p Hp]; [lia|].
  destruct (Forall2_lookup_l _ _ _ _ _ Hall Hp) as (r & Hr & Ha). apply Hno. by exists p, r.
Qed.

Lemma diffRowsFrom_spec i np nr published recomputed :
  let diff := diffRowsFrom i np nr published recomputed in
  diff = EmptyString ∧ Forall2 row_agrees published recomputed ∨
  ∃ k, names_row (i + k) diff ∧ first_disagreement k published recomputed.
Proof.
  cbn zeta. revert i recomputed. induction published as [|p published IH]; intros i [|r recomputed]; cbn [diffRowsFrom].
  - by left.
  - right. exists 0%nat. rewrite Nat.add_0_r. split; [by eexists|]. split; [cbn; lia|]. split; [constructor|]. by intros (? & ? & ? & _).
  - right. exists 0%nat. rewrite Nat.add_0_r. split; [apply rowAt_names|]. split; [cbn; lia|]. split; [constructor|]. by intros (? & ? & _ & ? & _).
  - destruct (diffRow_spec i p r) as [[-> Ha]|[Hd Ha]].
    + rewrite bool_decide_eq_true_2 by done. destruct (IH (S i) recomputed) as [[-> Hall]|(k & Hk & Hlt & Hall & Hno)].
      * left. split; [done|]. by constructor.
      * right. exists (S k). rewrite Nat.add_succ_r. split; [done|]. split; [cbn; lia|]. split; [by constructor|done].
    + cbn zeta. rewrite bool_decide_eq_false_2 by by eapply names_row_nonempty. right. exists 0%nat. rewrite Nat.add_0_r.
      split; [done|]. split; [cbn; lia|]. split; [constructor|]. intros (? & ? & [= <-] & [= <-] & ?). done.
Qed.

Lemma diffRoot_spec h result : diffRoot h result = EmptyString ↔ er_HasRoot result = true ∧ h = er_Root result.
Proof.
  unfold diffRoot. destruct (er_HasRoot result); cbn [negb].
  - case_bool_decide; cbn [negb]; [by split|]. split; [by rewrite string_app_cons|by intros [_ ?]].
  - split; [by rewrite string_app_cons|by intros [? _]].
Qed.

(** ** Text that is taken as it is *)

Fixpoint every (P : ascii → bool) (s : string) : bool :=
  match s with EmptyString => true | String c s => P c && every P s end.

Lemma every_weaken (P Q : ascii → bool) s : (∀ c, P c = true → Q c = true) → every P s = true → every Q s = true.
Proof.
  intros HPQ. induction s as [|c s IH]; [done|]. cbn [every]. intros [Hc Hs]%andb_true_iff. by rewrite HPQ, IH.
Qed.
Lemma every_rev_app P s : ∀ t, every P (String.rev_app s t) = every P s && every P t.
Proof.
  induction s as [|c s IH]; intros t; [done|]. cbn [String.rev_app every]. rewrite IH. cbn [every].
  by destruct (P c), (every P s), (every P t).
Qed.
Lemma every_app P s t : every P (s +:+ t) = every P s && every P t.
Proof. induction s as [|c s IH]; [done|]. rewrite string_app_cons. cbn [every]. by rewrite IH, andb_assoc. Qed.

Lemma rev_app_twice s : ∀ t u, String.rev_app (String.rev_app s t) u = String.rev_app t (s +:+ u).
Proof. induction s as [|c s IH]; intros t u; [done|]. cbn [String.rev_app]. rewrite IH, string_app_cons. done. Qed.
Lemma rev_twice s : String.rev (String.rev s) = s.
Proof. unfold String.rev. rewrite rev_app_twice. cbn. apply string_app_nil_r. Qed.
Lemma rev_snoc s c : String.rev (s +:+ String c EmptyString) = String c (String.rev s).
Proof.
  unfold String.rev. assert (∀ t, String.rev_app (s +:+ String c EmptyString) t = String c (String.rev_app s t)) as H; [|apply H].
  induction s as [|d s IH]; intros t; [done|]. rewrite string_app_cons. cbn [String.rev_app]. apply IH.
Qed.

(** ASCII that is neither space nor control. *)
Definition visible (c : ascii) : bool := (32 <? ascii_code c) && (ascii_code c <? 127).
(** And no quote, and no backslash. *)
Definition bare (c : ascii) : bool := visible c && negb (bool_decide (c = quoteChar)) && negb (bool_decide (c = backslash)).

Lemma bare_visible c : bare c = true → visible c = true.
Proof. unfold bare. by intros [[? _]%andb_true_iff _]%andb_true_iff. Qed.

Lemma trimLeft_visible s : every visible s = true → trimLeft s = s.
Proof.
  destruct s as [|c s]; [done|]. cbn [every]. intros [Hc _]%andb_true_iff.
  destruct c as [[] [] [] [] [] [] [] []]; first [done|by vm_compute in Hc].
Qed.
Lemma trimReversed_visible s : every visible s = true → trimReversed s = s.
Proof.
  destruct s as [|c s]; [done|]. cbn [every]. intros [Hc Hs]%andb_true_iff.
  assert (∀ c3 s', String c s = String c3 (String "128" (String "226" s')) → False) as Hno.
  { intros c3 s' [= _ ->]. by cbn in Hs. }
  destruct c as [[] [] [] [] [] [] [] []]; try (by vm_compute in Hc); cbn [trimReversed];
    (destruct s as [|d s]; [done|]); destruct d as [[] [] [] [] [] [] [] []]; try done; by cbn in Hs.
Qed.
Lemma TrimSpace_visible s : every visible s = true → TrimSpace s = s.
Proof.
  intros Hs. unfold TrimSpace. rewrite (trimLeft_visible s) by done. rewrite trimReversed_visible; [apply rev_twice|].
  unfold String.rev. by rewrite every_rev_app, Hs.
Qed.

Lemma trimLeftQuotes_bare s : every bare s = true → trimLeftQuotes s = s.
Proof.
  destruct s as [|c s]; [done|]. cbn [every trimLeftQuotes]. intros [Hc _]%andb_true_iff.
  unfold bare in Hc. rewrite !andb_true_iff, negb_true_iff in Hc. destruct Hc as [[_ Hc] _]. by rewrite Hc.
Qed.
Lemma TrimQuotes_bare s : every bare s = true → TrimQuotes s = s.
Proof.
  intros Hs. unfold TrimQuotes. rewrite (trimLeftQuotes_bare s) by done. rewrite trimLeftQuotes_bare; [apply rev_twice|].
  unfold String.rev. by rewrite every_rev_app, Hs.
Qed.
Lemma TrimQuotes_quoted s : every bare s = true → TrimQuotes (quoted s) = s.
Proof.
  intros Hs. destruct s as [|c s]; [done|]. unfold TrimQuotes, quoted. cbn [trimLeftQuotes].
  rewrite bool_decide_eq_true_2, string_app_cons by done. cbn [trimLeftQuotes]. pose proof Hs as Hs'.
  cbn [every] in Hs'. apply andb_true_iff in Hs' as [Hc _]. unfold bare in Hc. rewrite !andb_true_iff, negb_true_iff in Hc.
  destruct Hc as [[_ Hc] _]. rewrite Hc, <-string_app_cons, rev_snoc. cbn [trimLeftQuotes].
  rewrite bool_decide_eq_true_2 by done. rewrite trimLeftQuotes_bare; [apply rev_twice|].
  unfold String.rev. by rewrite every_rev_app, Hs.
Qed.

Lemma quoteString_bare s : every bare s = true → quoteString s = s.
Proof.
  unfold quoteString. induction s as [|c s IH]; [done|]. cbn [every]. intros [Hc Hs]%andb_true_iff. cbn [quoteFrom].
  rewrite IH by done. destruct c as [[] [] [] [] [] [] [] []]; first [done|by vm_compute in Hc].
Qed.
Lemma runesText_bare s : every bare s = true → runesText s = s.
Proof.
  intros Hs. apply runesText_valid. unfold ValidString. induction s as [|c s IH]; [done|]. cbn [every] in Hs.
  apply andb_true_iff in Hs as [Hc Hs]. cbn [validFrom]. assert (runeTail c s = Some 0%nat) as ->; [|by apply IH].
  unfold runeTail. apply bare_visible in Hc. unfold visible in Hc. apply andb_true_iff in Hc as [_ Hc%Z.ltb_lt].
  by rewrite (proj2 (Z.ltb_lt _ _)) by lia.
Qed.

Lemma digit_bare d : 0 ≤ d < 16 → bare (digit d) = true.
Proof.
  intros Hd. assert (d ∈ seqZ 0 16) as Hin by (apply elem_of_seqZ; lia).
  change (seqZ 0 16) with [0;1;2;3;4;5;6;7;8;9;10;11;12;13;14;15] in Hin. clear Hd. by each_in Hin.
Qed.
Lemma Encode_bare l : every bare (EncodeToString l) = true.
Proof.
  induction l as [|b l IH]; [done|]. cbn [EncodeToString foldr hex_byte every]. pose proof (byte_to_Z_range b).
  pose proof (Z.mod_pos_bound (byte_to_Z b) 16 ltac:(lia)).
  rewrite !digit_bare by (split; [first [apply Z.div_pos; lia|lia]|first [apply Z.div_lt_upper_bound; lia|lia]]). exact IH.
Qed.
Lemma hexBytes_bare l : every bare (hexBytes l) = true.
Proof. unfold hexBytes. cbn [every]. by rewrite Encode_bare. Qed.

Lemma digits_bare s : digits s → every bare s = true.
Proof.
  induction s as [|c s IH]; [done|]. intros [Hc Hs]. cbn [every]. rewrite IH by done. rewrite andb_true_r.
  destruct c as [[] [] [] [] [] [] [] []]; first [done|by vm_compute in Hc].
Qed.
Lemma FormatUint_bare n : 0 ≤ n → every bare (FormatUint 10 n) = true.
Proof.
  intros Hn. destruct (decide (n = 0)) as [->|Hne]; [done|]. destruct (FormatUint_digits n) as (d & s & -> & Hd & Hs); [lia|].
  cbn [every]. by rewrite digit_bare, digits_bare by first [lia|done].
Qed.
Lemma BigString_bare z : every bare (BigString z) = true.
Proof.
  unfold BigString. destruct (Z.ltb_spec z 0); [|by apply FormatUint_bare].
  rewrite every_app, FormatUint_bare by lia. done.
Qed.

Lemma SetString10_BigString z : SetString10 (BigString z) = Some z.
Proof.
  pose proof (readInt_BigString z) as Hz. unfold BigString in *. destruct (Z.ltb_spec z 0) as [Hneg|Hneg]; [exact Hz|].
  destruct (decide (z = 0)) as [->|Hne]; [done|]. destruct (FormatUint_digits z) as (d & s & Hs & Hd & _); [lia|].
  rewrite Hs in *. assert (d ∈ seqZ 1 9) as Hin by (apply elem_of_seqZ; lia).
  change (seqZ 1 9) with [1;2;3;4;5;6;7;8;9] in Hin. clear Hd Hs. revert Hz. by each_in Hin.
Qed.

(** ** What a bundle is *)

(** An integer: a decimal number, or one in quotes. *)
Definition writes_int (z : Z) (j : json) : Prop := j = JNum (BigString z) ∨ j = JText (BigString z).

(** A row as the tuple of spec 4.5, or as the Cases' object with its members in any
    order. *)
Inductive writes_row (p : artifactRow) : json → Prop :=
  | row_tuple amounts twab mult :
      Forall2 writes_int (vec_to_list (ar_Amounts p)) amounts → writes_int (ar_TWAB p) twab → writes_int (ar_MultBps p) mult →
      writes_row p (JArr [JText (AddressString (ar_Account p)); JArr amounts; twab; mult])
  | row_object amounts twab mult fields :
      Forall2 writes_int (vec_to_list (ar_Amounts p)) amounts → writes_int (ar_TWAB p) twab → writes_int (ar_MultBps p) mult →
      fields ≡ₚ member "account" (JText (AddressString (ar_Account p))) ++ member "amounts" (JArr amounts) ++
                member "twab" twab ++ member "multBps" mult →
      writes_row p (JObj fields).

(** The files of a bundle in [dir]: allocations.json is the array of these rows, and
    root.txt this Root as hex, or not there. *)
Definition published (files : Files) (dir : string) (rows : list artifactRow) (root : option Hash) : Prop :=
  (∃ text items, fl_ReadFile files (Join [dir; allocationsFile]) = FileText text ∧ ScanJSON text = Some (JArr items) ∧
     Forall2 writes_row rows items) ∧
  match root with
  | None => fl_ReadFile files (Join [dir; rootFile]) = FileMissing
  | Some h => ∃ text, fl_ReadFile files (Join [dir; rootFile]) = FileText text ∧ TrimSpace text = HashString h
  end.

Lemma decodeDecimal_writes z j : writes_int z j → decodeDecimal j = Ok z.
Proof.
  pose proof (BigString_bare z) as Hb. pose proof (every_weaken _ _ _ bare_visible Hb) as Hv. unfold decodeDecimal.
  intros [-> | ->]; cbn [valueText JText].
  - by rewrite TrimSpace_visible, TrimQuotes_bare, SetString10_BigString.
  - rewrite quoteString_bare, TrimSpace_visible, TrimQuotes_quoted, SetString10_BigString by first
      [done|unfold quoted; cbn [every]; rewrite every_app, Hv; done]. done.
Qed.

Lemma decodeAmounts_writes old v items : Forall2 writes_int (vec_to_list v) items → decodeAmounts old (JArr items) = Ok v.
Proof.
  intros Hv. cbn [decodeAmounts]. apply vtraverseI_Ok. intros t. cbn [Nat.add].
  destruct (Forall2_lookup_l _ _ _ t (v !!! t) Hv) as (j & -> & Hj); [by apply vlookup_lookup|]. by apply decodeDecimal_writes.
Qed.

Lemma decodeText_address old a : decodeText old (JText (AddressString a)) = Ok (AddressString a).
Proof. cbn [decodeText JText]. rewrite unquote_quoteString, runesText_bare; [done|apply hexBytes_bare]. Qed.

Lemma writes_int_some z j : writes_int z j → j ≠ JNull.
Proof. by intros [-> | ->]. Qed.
Lemma tupleElement_some {A} (zero : A) decode j : j ≠ JNull → tupleElement zero decode (Some j) = decode j.
Proof. by destruct j. Qed.

Section row.
Context (p : artifactRow) (amounts : list json) (twab mult : json).
Context (Ha : Forall2 writes_int (vec_to_list (ar_Amounts p)) amounts).
Context (Ht : writes_int (ar_TWAB p) twab) (Hm : writes_int (ar_MultBps p) mult).

Definition fieldsOf : rowFields := mkRowFields (AddressString (ar_Account p)) (ar_Amounts p) (ar_TWAB p) (ar_MultBps p).

Lemma decodeTuple_writes : decodeTuple [JText (AddressString (ar_Account p)); JArr amounts; twab; mult] = Ok fieldsOf.
Proof using Ha Ht Hm.
  pose proof (writes_int_some _ _ Ht) as Ht'. pose proof (writes_int_some _ _ Hm) as Hm'. unfold decodeTuple. cbn [lookup list_lookup].
  rewrite !tupleElement_some, decodeText_address by done. cbn [mbind Res_bind]. rewrite (decodeAmounts_writes _ _ _ Ha).
  cbn [mbind Res_bind]. rewrite (decodeDecimal_writes _ _ Ht). cbn [mbind Res_bind]. by rewrite (decodeDecimal_writes _ _ Hm).
Qed.

(** Members set their own field, in whatever order. *)
Definition members : list (string * json) :=
  member "account" (JText (AddressString (ar_Account p))) ++ member "amounts" (JArr amounts) ++ member "twab" twab ++ member "multBps" mult.

Lemma decodeMember_writes f r : f ∈ members → ∃ r', decodeMember r f = Ok r' ∧
  (rf_account r' = rf_account fieldsOf ∨ rf_account r' = rf_account r ∧ f ≠ (quoteString "account", JText (AddressString (ar_Account p)))) ∧
  (rf_amounts r' = rf_amounts fieldsOf ∨ rf_amounts r' = rf_amounts r ∧ f ≠ (quoteString "amounts", JArr amounts)) ∧
  (rf_twab r' = rf_twab fieldsOf ∨ rf_twab r' = rf_twab r ∧ f ≠ (quoteString "twab", twab)) ∧
  (rf_multBps r' = rf_multBps fieldsOf ∨ rf_multBps r' = rf_multBps r ∧ f ≠ (quoteString "multBps", mult)).
Proof using Ha Ht Hm.
  intros Hf. unfold members, member in Hf. cbn [app] in Hf. each_in Hf; unfold decodeMember.
  - change (foldName _) with "ACCOUNT"%string. rewrite decodeText_address. eexists. split; [reflexivity|].
    split; [by left|]. split_and!; right; split; first [done|by intros [=]].
  - change (foldName _) with "AMOUNTS"%string. rewrite (decodeAmounts_writes _ _ _ Ha). eexists. split; [reflexivity|].
    split_and!; first [by left|right; split; [done|by intros [=]]].
  - change (foldName _) with "TWAB"%string. rewrite (decodeDecimal_writes _ _ Ht). eexists. split; [reflexivity|].
    split_and!; first [by left|right; split; [done|by intros [=]]].
  - change (foldName _) with "MULTBPS"%string. rewrite (decodeDecimal_writes _ _ Hm). eexists. split; [reflexivity|].
    split_and!; first [by left|right; split; [done|by intros [=]]].
Qed.

(** A field is as it was, or it was set. *)
Definition set_by {A} (f : string * json) (fields : list (string * json)) (new was now : A) : Prop :=
  now = new ∨ now = was ∧ f ∉ fields.

Lemma set_by_cons {A} f g fields (new was mid now : A) :
  (mid = new ∨ mid = was ∧ g ≠ f) → set_by f fields new mid now → set_by f (g :: fields) new was now.
Proof using Type.
  intros Hmid [->|[-> Hf]]; [by left|]. destruct Hmid as [->|[-> Hg]]; [by left|]. right. split; [done|].
  rewrite elem_of_cons. naive_solver.
Qed.

Lemma decodeMembers_writes fields : Forall (λ f, f ∈ members) fields → ∀ r, ∃ r', foldM decodeMember fields r = Ok r' ∧
  set_by (quoteString "account", JText (AddressString (ar_Account p))) fields (rf_account fieldsOf) (rf_account r) (rf_account r') ∧
  set_by (quoteString "amounts", JArr amounts) fields (rf_amounts fieldsOf) (rf_amounts r) (rf_amounts r') ∧
  set_by (quoteString "twab", twab) fields (rf_twab fieldsOf) (rf_twab r) (rf_twab r') ∧
  set_by (quoteString "multBps", mult) fields (rf_multBps fieldsOf) (rf_multBps r) (rf_multBps r').
Proof using Ha Ht Hm.
  induction 1 as [|f fields Hf _ IH]; intros r.
  - exists r. split; [done|]. split_and!; right; by split; [|apply not_elem_of_nil].
  - destruct (decodeMember_writes f r Hf) as (r1 & Hr1 & H1 & H2 & H3 & H4). destruct (IH r1) as (r' & Hr' & G1 & G2 & G3 & G4).
    exists r'. cbn [foldM]. rewrite Hr1. split; [exact Hr'|]. split_and!; by eapply set_by_cons.
Qed.

Lemma decodeObject_writes fields : fields ≡ₚ members → foldM decodeMember fields zeroRow = Ok fieldsOf.
Proof using Ha Ht Hm.
  intros Hp. destruct (decodeMembers_writes fields) with (r := zeroRow) as (r' & -> & H1 & H2 & H3 & H4).
  { apply Forall_forall. intros f Hf. by rewrite <-Hp. }
  assert (∀ f A (new was now : A), f ∈ members → set_by f fields new was now → now = new) as Hset.
  { intros f A new was now Hf [->|[_ Hnot]]; [done|]. by rewrite Hp in Hnot. }
  f_equal. destruct r' as [a v t m]. cbn in H1, H2, H3, H4.
  apply Hset in H1; [|unfold members, member; set_solver]. apply Hset in H2; [|unfold members, member; set_solver].
  apply Hset in H3; [|unfold members, member; set_solver]. apply Hset in H4; [|unfold members, member; set_solver]. by subst.
Qed.
End row.

Lemma decodeRow_writes p j : is_i64 (ar_MultBps p) → writes_row p j → decodeRow j = Ok p.
Proof.
  intros Hi Hj. assert (decodeFields j = Ok (fieldsOf p)) as Hf.
  { destruct Hj as [amounts twab mult Ha Ht Hm|amounts twab mult fields Ha Ht Hm Hp]; cbn [decodeFields].
    - by apply decodeTuple_writes.
    - by eapply (decodeObject_writes p amounts twab mult Ha Ht Hm). }
  unfold decodeRow. rewrite Hf. cbn [mbind Res_bind fieldsOf rf_account rf_amounts rf_twab rf_multBps].
  rewrite ParseAddress_AddressString. cbn [wrap mbind Res_bind]. unfold is_i64 in Hi.
  rewrite (proj2 (Z.leb_le _ _)), (proj2 (Z.ltb_lt _ _)) by lia. by destruct p.
Qed.

Lemma published_rows files dir rows root : published files dir rows root → Forall (λ p, is_i64 (ar_MultBps p)) rows →
  readAllocations files (Join [dir; allocationsFile]) = Ok rows.
Proof.
  intros [(text & items & Hread & Hscan & Hrows) _] Hi. unfold readAllocations. rewrite Hread, Hscan. cbn [decodeRows].
  assert (traverse decodeRow items = Ok rows) as ->; [|done]. apply traverse_Ok.
  clear Hscan. induction Hrows as [|p j rows items Hj _ IH]; [constructor|]. apply Forall_cons in Hi as [Hp Hi].
  constructor; [by apply decodeRow_writes|by apply IH].
Qed.

Lemma published_root files dir rows root : published files dir rows root → readRoot files (Join [dir; rootFile]) = Ok root.
Proof.
  intros [_ Hroot]. unfold readRoot. destruct root as [h|]; [|by rewrite Hroot]. destruct Hroot as (text & -> & ->).
  cbn zeta. unfold HashString. change (TrimHexPrefix (hexBytes h)) with (EncodeToString h).
  rewrite DecodeString_EncodeToString, length_vec_to_list. cbn. by rewrite copy_array_of_list.
Qed.
(** C36: the comparison with a bundle says what the bundle holds. When allocations.json is
    an array of rows, each as a tuple or an object, its integers as numbers or decimal
    strings, and root.txt a Root or not there, the section has the directory, the number
    of rows and the Root; it shows no difference exactly when every row has the account,
    the five amounts, the TWAB and the Multiplier of the Allocation in its place, no row
    is missing or added, and the Root, if there, is the recomputed one; where rows
    differ it names the first row at which they do. Whatever the files hold, there is a
    section and never a panic: one that cannot be read is that section's error, with no
    rows and no difference, as when the path or allocations.json is not there. *)
Theorem compareArtifacts_correct files errorText path result :
  (∀ isDir rows root, fl_Stat files path = Some isDir →
     let dir := if (isDir : bool) then path else PathDir path in
     published files dir rows root → Forall (λ p, is_i64 (ar_MultBps p)) rows →
     ∃ diff, compareArtifacts files errorText path result =
         Ok (mkArtifactsDoc dir (Z.of_nat (length rows)) (from_option HashString EmptyString root) diff EmptyString) ∧
       (diff = EmptyString ↔ Forall2 row_agrees rows (er_Allocations result) ∧
          from_option (λ h, er_HasRoot result = true ∧ h = er_Root result) True root) ∧
       (Forall2 row_agrees rows (er_Allocations result) ∨
        ∃ k, names_row k diff ∧ first_disagreement k rows (er_Allocations result))) ∧
  (∃ doc, compareArtifacts files errorText path result = Ok doc ∧
     (ad_Error doc = EmptyString ∨ ∃ err, doc = mkArtifactsDoc path 0 EmptyString EmptyString (errorText err))) ∧
  (fl_Stat files path = None → compareArtifacts files errorText path result =
     Ok (mkArtifactsDoc path 0 EmptyString EmptyString (errorText (errStat path)))) ∧
  (∀ isDir, fl_Stat files path = Some isDir →
     let file := Join [if (isDir : bool) then path else PathDir path; allocationsFile] in
     fl_ReadFile files file = FileMissing → compareArtifacts files errorText path result =
       Ok (mkArtifactsDoc path 0 EmptyString EmptyString (errorText (errReadFile file)))).
Proof.
  unfold compareArtifacts. split_and!.
  - intros isDir rows root Hstat Hpub Hi. unfold diffBundle. rewrite Hstat. cbn [or_err mbind Res_bind].
    rewrite (published_rows _ _ _ _ Hpub Hi). cbn [mbind Res_bind]. rewrite (published_root _ _ _ _ Hpub). cbn [mbind Res_bind].
    pose proof (diffRowsFrom_spec 0 (length rows) (length (er_Allocations result)) rows (er_Allocations result)) as Hdiff.
    cbn zeta in Hdiff. fold (diffRows rows (er_Allocations result)) in Hdiff.
    destruct root as [h|]; eexists; (split; [reflexivity|]); cbn [from_option];
      destruct Hdiff as [[Hd Hall]|(k & Hk & Hfirst)].
    + rewrite decide_True by done. rewrite diffRoot_spec. split; [tauto|by left].
    + pose proof (names_row_nonempty _ _ Hk) as Hne. rewrite decide_False by done. split; [|right; by exists k].
      split; [done|]. intros [Hall _]. by destruct (first_disagreement_not k _ _ Hfirst).
    + split; [tauto|by left].
    + pose proof (names_row_nonempty _ _ Hk) as Hne. split; [|right; by exists k].
      split; [done|]. intros [Hall _]. by destruct (first_disagreement_not k _ _ Hfirst).
  - destruct (diffBundle files path result) as [doc|err|x] eqn:E; [|by eexists; split; [|right; eexists]|by apply diffBundle_faults in E].
    exists doc. split; [done|]. left. unfold diffBundle in E. apply bind_Ok in E as (isDir & _ & E). cbn zeta in E.
    apply bind_Ok in E as (rows & _ & E). apply bind_Ok in E as (root & _ & E). injection E as <-. by destruct root.
  - intros Hstat. unfold diffBundle. by rewrite Hstat.
  - intros isDir Hstat Hread. unfold diffBundle. rewrite Hstat. cbn [or_err mbind Res_bind]. unfold readAllocations.
    by rewrite Hread.
Qed.

(** ** The claim applied to a bundle

    Two rows, one in each form, the second with a TWAB that is not the recomputed one. *)

Definition sample_account (b : byte) : Address := copy_array 20 (replicate 20 b).
Definition sample_amounts (n : Z) : list json := replicate 4 (JNum (BigString n)) ++ [JText (BigString n)].
Definition sample_rows : list artifactRow :=
  [mkArtifactRow (sample_account xa1) (vreplicate 5 500) 60 12500; mkArtifactRow (sample_account xb2) (vreplicate 5 7) 3 10000].
Definition sample_items : list json :=
  [JArr [JText (AddressString (sample_account xa1)); JArr (sample_amounts 500); JText "60"; JNum "12500"];
   JObj (member "twab" (JNum "3") ++ member "account" (JText (AddressString (sample_account xb2))) ++
         member "multBps" (JText "10000") ++ member "amounts" (JArr (sample_amounts 7)))]%string.
Definition sample_files : Files :=
  mkFiles (λ _, Some true) (λ path, if String.eqb path "/b/allocations.json" then FileText (EncodeJSON (JArr sample_items)) else FileMissing).
Definition sample_result : EngineResult :=
  mkEngineResult 1 (mkWindow 3600 7200) Safe None false (vreplicate 5 None) (vreplicate 5 None) (vreplicate 5 None) EmptyString
    None (vreplicate 5 507) (vreplicate 5 0) 0 [] true zeroHash None
    [mkEngineAllocation (sample_account xa1) (vreplicate 5 500) 60 12500 750000 0;
     mkEngineAllocation (sample_account xb2) (vreplicate 5 7) 4 10000 40000 1].

Lemma sample_published : published sample_files "/b" sample_rows None.
Proof.
  split; [|reflexivity]. exists (EncodeJSON (JArr sample_items)), sample_items. split; [reflexivity|]. split; [vm_compute; reflexivity|].
  constructor; [|constructor; [|constructor]].
  - constructor; [|by right|by left]. repeat constructor; first [by left|by right].
  - apply (row_object _ (sample_amounts 7) (JNum "3") (JText "10000")); [|by left|by right|].
    + repeat constructor; first [by left|by right].
    + cbn [member app ar_Account]. apply NoDup_Permutation; [| |intros f; set_solver];
        repeat (constructor; [set_unfold; naive_solver|]); constructor.
Qed.

Lemma compareArtifacts_correct_witness : ∃ diff,
  compareArtifacts sample_files (λ _, EmptyString) "/b" sample_result = Ok (mkArtifactsDoc "/b" 2 EmptyString diff EmptyString) ∧
  diff ≠ EmptyString.
Proof.
  destruct (proj1 (compareArtifacts_correct sample_files (λ _, EmptyString) "/b" sample_result) true sample_rows None
    eq_refl sample_published ltac:(repeat constructor; unfold is_i64; cbn; lia)) as (diff & Hd & Hiff & _).
  exists diff. split; [exact Hd|]. intros Hempty. apply Hiff in Hempty as [Hall _].
  apply Forall2_cons_1 in Hall as [_ Hall]. apply Forall2_cons_1 in Hall as [(_ & _ & Htwab & _) _]. cbn in Htwab. lia.
Defined.
