(* ===== verification/Verify.v ===== *)
(** * cmd/nutz-verify

    [run.go], [recompute.go] and [main.go], with [cache.Dir]: the command line, one
    run of a command filling its Report, the exit status, and [main], which runs with
    the pinned Deployment. [Machine] is all a run has from outside: the network, the
    files, the environment and, as parameters, the formatting of floats and the text
    of errors. Progress lines and what goes to stderr are not modelled. *)
From S2P Require Import Prelude Sorts Bytes Text Json Paths Merkle Twab Alloc Chain Crc Cache StateMonad Wire Reader Epoch ChainReader Report Render Artifacts.
From Stdlib Require Import QArith.

Open Scope Z_scope.

(** ** The command line *)

Record cmdOptions := mkCmdOptions {
  fo_rpc : list string;
  fo_finality : Finality;
  fo_rate : float64;
  fo_fresh : bool;
  fo_chain : bool;
  fo_artifacts : string;
  fo_expect : option Hash;
  fo_json : bool;
}.

Record command := mkCommand { cm_name : string; cm_epochID : Z; cm_options : cmdOptions }.

Inductive parseError :=
  | errFlagSyntax (arg : string)
  | errHelp
  | errUndefinedFlag (name : string)
  | errFlagNeedsArgument (name : string)
  | errFlagValue (name value : string)
  | errNoCommand
  | errEpochArguments
  | errEpochNumber (text : string)
  | errTakesNone (name : string)
  | errSyncRecomputes
  | errExpectFor (name : string)
  | errUnknownCommand (name : string)
  | errLevel (cause : chainError)
  | errNoRPC
  | errNotRate (rate : float64).

(** How [flag.FlagSet.Parse] reads one argument. *)
Inductive argument :=
  | Positional
  | Terminator
  | BadSyntax
  | Flag (name : string) (value : option string).

(** A flag's name up to the first equals sign past its first byte, and what follows. *)
Fixpoint cutEquals (s : string) : string * option string :=
  match s with
  | EmptyString => (EmptyString, None)
  | String c s =>
      if bool_decide (c = "="%char) then (EmptyString, Some s)
      else let '(name, value) := cutEquals s in (String c name, value)
  end.

Definition flagNamed (name : string) : argument :=
  match name with
  | EmptyString => BadSyntax
  | String c rest =>
      if bool_decide (c = "-"%char) || bool_decide (c = "="%char) then BadSyntax
      else let '(name, value) := cutEquals rest in Flag (String c name) value
  end.

Definition classify (s : string) : argument :=
  match s with
  | String "-" (String "-" EmptyString) => Terminator
  | String "-" (String "-" name) => flagNamed name
  | String "-" (String c name) => flagNamed (String c name)
  | _ => Positional
  end.

(** [strconv.ParseBool]. *)
Definition ParseBool (s : string) : option bool :=
  if decide (s ∈ ["1"; "t"; "T"; "true"; "TRUE"; "True"]%string) then Some true
  else if decide (s ∈ ["0"; "f"; "F"; "false"; "FALSE"; "False"]%string) then Some false
  else None.

Definition boolFlags : list string := ["fresh"; "chain"; "json"]%string.
Definition valueFlags : list string := ["finality"; "rate"; "artifacts"; "expect"; "rpc"]%string.

Definition defaultOptions : cmdOptions :=
  mkCmdOptions [] Safe DefaultCallsPerSecond false false EmptyString None false.

Section parse.
(** [strconv.ParseFloat], which takes NaN and Inf too. *)
Context (ParseFloat : string → option float64).

Definition setBool (name value : string) (o : cmdOptions) : Res parseError cmdOptions :=
  b ← or_err (ParseBool value) (errFlagValue name value);
  mret (if decide (name = "fresh"%string)
        then mkCmdOptions (fo_rpc o) (fo_finality o) (fo_rate o) b (fo_chain o) (fo_artifacts o) (fo_expect o) (fo_json o)
        else if decide (name = "chain"%string)
        then mkCmdOptions (fo_rpc o) (fo_finality o) (fo_rate o) (fo_fresh o) b (fo_artifacts o) (fo_expect o) (fo_json o)
        else mkCmdOptions (fo_rpc o) (fo_finality o) (fo_rate o) (fo_fresh o) (fo_chain o) (fo_artifacts o) (fo_expect o) b).

(** The closure of --expect. *)
Definition parseExpect (value : string) : Res parseError Hash :=
  match ParseHash value with
  | Ok h => if decide (h = zeroHash) then Err (errFlagValue "expect" value) else Ok h
  | _ => Err (errFlagValue "expect" value)
  end.

Definition setValue (name value : string) (o : cmdOptions) : Res parseError cmdOptions :=
  if decide (name = "finality"%string) then
    Ok (mkCmdOptions (fo_rpc o) value (fo_rate o) (fo_fresh o) (fo_chain o) (fo_artifacts o) (fo_expect o) (fo_json o))
  else if decide (name = "rate"%string) then
    rate ← or_err (ParseFloat value) (errFlagValue name value);
    mret (mkCmdOptions (fo_rpc o) (fo_finality o) rate (fo_fresh o) (fo_chain o) (fo_artifacts o) (fo_expect o) (fo_json o))
  else if decide (name = "artifacts"%string) then
    Ok (mkCmdOptions (fo_rpc o) (fo_finality o) (fo_rate o) (fo_fresh o) (fo_chain o) value (fo_expect o) (fo_json o))
  else if decide (name = "expect"%string) then
    h ← parseExpect value;
    mret (mkCmdOptions (fo_rpc o) (fo_finality o) (fo_rate o) (fo_fresh o) (fo_chain o) (fo_artifacts o) (Some h) (fo_json o))
  else
    Ok (mkCmdOptions (fo_rpc o ++ [value]) (fo_finality o) (fo_rate o) (fo_fresh o) (fo_chain o) (fo_artifacts o)
          (fo_expect o) (fo_json o)).

(** The loop of [parse]: each Parse stops at a positional argument, which is taken
    off, or behind a terminator. *)
Fixpoint parseArgs (args : list string) (o : cmdOptions) (positional : list string)
    : Res parseError (cmdOptions * list string) :=
  match args with
  | [] => Ok (o, positional)
  | s :: rest =>
      match classify s with
      | Positional => parseArgs rest o (positional ++ [s])
      | Terminator => match rest with [] => Ok (o, positional) | p :: rest => parseArgs rest o (positional ++ [p]) end
      | BadSyntax => Err (errFlagSyntax s)
      | Flag name value =>
          if decide (name ∈ boolFlags) then
            o ← setBool name (default "true"%string value) o;
            parseArgs rest o positional
          else if decide (name ∈ valueFlags) then
            match value, rest with
            | Some value, _ => o ← setValue name value o; parseArgs rest o positional
            | None, value :: rest => o ← setValue name value o; parseArgs rest o positional
            | None, [] => Err (errFlagNeedsArgument name)
            end
          else if decide (name = "help"%string ∨ name = "h"%string) then Err errHelp
          else Err (errUndefinedFlag name)
      end
  end.

(** The switch on the command. *)
Definition parseCommand (positional : list string) (o : cmdOptions) : Res parseError (string * Z) :=
  match positional with
  | [] => Err errNoCommand
  | name :: arguments =>
      if decide (name = "epoch"%string) then
        match arguments with
        | [text] => id ← or_err (ParseUint 10 text) (errEpochNumber text); mret (name, id)
        | _ => Err errEpochArguments
        end
      else if decide (name = "latest"%string ∨ name = "sync"%string) then
        if negb (length arguments =? 0)%nat then Err (errTakesNone name)
        else if bool_decide (name = "sync"%string) && (fo_chain o || negb (bool_decide (fo_artifacts o = EmptyString)))
        then Err errSyncRecomputes
        else match fo_expect o with Some _ => Err (errExpectFor name) | None => Ok (name, 0) end
      else Err (errUnknownCommand name)
  end.

(** [parse]. *)
Definition parse (args : list string) : Res parseError command :=
  '(o, positional) ← parseArgs args defaultOptions [];
  '(name, id) ← parseCommand positional o;
  level ← wrap errLevel (ParseFinality (fo_finality o));
  match fo_rpc o with
  | [] => Err errNoRPC
  | _ => if float_le (fo_rate o) (Float 0) then Err (errNotRate (fo_rate o)) else mret (mkCommand name id o)
  end.
End parse.

(** ** A run *)

Inductive runError :=
  | runEpochError (cause : epochError)
  | runChainError (cause : chainError)
  | runWrongChain (served pinned : Z)
  | runNoHome.

Record Machine := mkMachine {
  mc_keccak256 : list byte → Hash;
  mc_server : nat → nat → rpcPost → httpReply;
  mc_schedule : nat → nat → list nat;
  mc_urlParse : string → option (string * string);
  mc_ParseFloat : string → option float64;
  mc_formatG : float64 → string;
  mc_formatJSON : float64 → string;
  mc_errorText : runError → string;
  mc_artifactText : artifactError → string;
  mc_files : Files;
  mc_XDG_CACHE_HOME : string;
  mc_UserHomeDir : option string;
  mc_cacheFile : string → list byte;     (* what a Cache directory holds when the run starts *)
  mc_stdoutFails : bool;                 (* whether a write to stdout fails *)
}.

(** [verifier], with the Report it fills and what the calls it makes remember. *)
Record runState := mkRunState {
  rs_report : ReportDoc;
  rs_wire : wireState;
  rs_engine : option (Engine * EngineState);
}.

Abbreviation V := (StM runState runError).

Definition setReport (f : ReportDoc → ReportDoc) : V () :=
  modify (λ s, mkRunState (f (rs_report s)) (rs_wire s) (rs_engine s)).
Definition setRun (f : RunDoc → RunDoc) : V () := setReport (λ r, withRun (f (rep_Run r)) r).

(** A call of the chain Reader. *)
Definition onWire {A} (m : Wire A) : V A := λ s,
  let '(r, w) := m (rs_wire s) in (wrap runChainError r, mkRunState (rs_report s) w (rs_engine s)).

(** A call of the Engine, which panics before there is one. The Engine's Reader is the
    run's own: its calls go on from the wire as it is, and leave it as they do. *)
Definition onEngine {A} (m : Engine → StM EngineState epochError A) : V A := λ s,
  match rs_engine s with
  | None => (Fault GoPanic, s)
  | Some (e, es) =>
      let '(r, es) := m e (setWire (rs_wire s) es) in
      (wrap runEpochError r, mkRunState (rs_report s) (st_wire es) (Some (e, es)))
  end.

(** A call that returns no error. *)
Definition total {A} (m : Res Empty_set A) : V A := lift (wrap (λ x : Empty_set, match x with end) m).

(** [cache.Dir]. *)
Definition CacheDir (xdg : string) (home : option string) (chainID : Z) (token : Address) : Res runError string :=
  base ← (if decide (xdg = EmptyString)
          then match home with Some home => Ok (Join [home; ".cache"%string]) | None => Err runNoHome end
          else Ok xdg);
  mret (Join [base; "nutz-verify"%string; (BigString chainID +:+ "-" +:+ AddressString token)%string]).

(** ** recompute.go *)

Definition engineRecompute (r : EngineResult) : Recompute :=
  mkRecompute (er_HasRoot r) (er_Root r) (vmap Some (er_Totals r)) (Z.of_nat (length (er_Allocations r)))
    (er_ExpectedCarryIn r) (er_CarryFrom r).

(** [chainSide]: without a posted Root its fields stay zero, the amounts nil. *)
Definition enginePosted (r : EngineResult) : Posted :=
  match er_Posted r with
  | Some p => mkPosted true (er_Skipped r) (rp_Root p) (rp_Totals p) (er_Funded r) (rp_CarryIn p)
  | None => mkPosted false (er_Skipped r) zeroHash (vreplicate 5 None) (er_Funded r) (vreplicate 5 None)
  end.

Definition epochDoc (r : EngineResult) (expected : option Hash) (assessed : Assessment) : EpochDoc :=
  mkEpochDoc (er_EpochID r) (mkWindowDoc (w_Start (er_Window r)) (w_End (er_Window r)))
    ((λ b, mkBlockDoc (b_Number b) (HashString (b_Hash b))) <$> er_EndBlock r)
    (Z.of_nat (length (er_Allocations r)))
    (mkRecomputedDoc (er_HasRoot r) (if er_HasRoot r then HashString (er_Root r) else EmptyString)
      (Decimals (vmap Some (er_Totals r))) (Decimals (vmap Some (er_CarryOut r))) (BigString (er_TotalWeight r))
      (Decimals (er_CarryIn r)))
    ((λ p, mkPostedDoc (HashString (rp_Root p)) (site_BlockNumber (rp_Site p)) (Decimals (rp_Totals p))
             (Decimals (er_Funded r)) (Decimals (rp_CarryIn p))) <$> er_Posted r)
    (match expected with Some h => HashString h | None => EmptyString end)
    (er_Skipped r) (as_Assertions assessed) (as_Verdict assessed) (as_Reason assessed).

(** [assess]. *)
Definition assess (r : EngineResult) (expected : option Hash) : Res Empty_set EpochDoc :=
  assessed ← Assess (engineRecompute r) (enginePosted r) expected;
  mret (epochDoc r expected assessed).

(** The Report's Cache section of what the Engine synced. *)
Definition cacheDoc (s : EngineSynced) : CacheDoc :=
  mkCacheDoc (es_Dir s) (Z.of_nat (es_Records s)) (es_Through s) (es_Appended s)
    ((λ r, mkReorgDoc (ro_Block r) (Z.of_nat (ro_Dropped r))) <$> es_Reorg s) (es_Repaired s).

(** [verifier.reportCache], which reads the Engine's Synced. *)
Definition reportCache (s : runState) : runState :=
  match rs_engine s with
  | Some (_, es) =>
      match st_synced es with
      | Some synced =>
          mkRunState (withRun (withCache (cacheDoc synced) (rep_Run (rs_report s))) (rs_report s)) (rs_wire s) (rs_engine s)
      | None => s
      end
  | None => s
  end.

Section run.
Context (mc : Machine) (dep : Deployment).

(** One Result assessed and added to the Report. The Expectation is for the last. *)
Definition assessStep (opts : cmdOptions) (n : nat) (p : nat * EngineResult) : V Verdict :=
  let '(i, r) := p in
  assessed ← total (assess r (if (i =? n - 1)%nat then fo_expect opts else None));
  _ ← setReport (λ rep, withEpochs (rep_Epochs rep ++ [assessed]) rep);
  mret (ed_Verdict assessed).

(** The --artifacts section, of the last Result. *)
Definition artifactsStep (opts : cmdOptions) (results : list EngineResult) : V () :=
  if decide (fo_artifacts opts = EmptyString) then mret ()
  else match last results with
       | None => lift (Fault GoPanic)
       | Some r =>
           doc ← total (compareArtifacts (mc_files mc) (mc_artifactText mc) (fo_artifacts opts) r);
           setReport (withArtifacts (Some doc))
       end.

(** The Engine's Results: every link with --chain, else the Epoch's own. *)
Definition recompute (opts : cmdOptions) (id : Z) : V (list EngineResult) :=
  if fo_chain opts then onEngine (λ e, Walk (mc_keccak256 mc) e id)
  else one ← onEngine (λ e, EngineCompute (mc_keccak256 mc) e id); mret [one].

(** The body of [verifier.epoch]. *)
Definition epochBody (opts : cmdOptions) (id : Z) : V () :=
  results ← recompute opts id;
  verdicts ← mapS (assessStep opts (length results)) (zip (seq 0 (length results)) results);
  _ ← setReport (withVerdict (Worst verdicts));
  epochs ← gets (λ s, rep_Epochs (rs_report s));
  match last epochs with
  | None => lift (Fault GoPanic)
  | Some target =>
      _ ← (if decide (ed_Reason target = EmptyString) then mret () else setReport (withReason (ed_Reason target)));
      artifactsStep opts results
  end.

(** [verifier.epoch], with its deferred call. *)
Definition verifyEpoch (opts : cmdOptions) (id : Z) : V () := λ s,
  let '(r, s) := epochBody opts id s in (r, reportCache s).

(** [verifier.sync]. *)
Definition verifySync : V () := λ s,
  let '(r, s) := onEngine (λ e es, let '(_, r, es) := EngineSync e es in (r, es)) s in (r, reportCache s).

(** ** run.go *)

(** Up to the Engine. *)
Definition connect (opts : cmdOptions) : V () :=
  _ ← lift (wrap runEpochError (CheckDeployment dep));
  reader ← lift (wrap runChainError (ChainNew (mc_urlParse mc)
    (mkConfig (fo_rpc opts) (dp_Token dep) (dp_Distributor dep) (dp_PonsFactory dep) (fo_rate opts) 0)));
  _ ← setRun (withEndpoints (endpointLabels reader));
  id ← onWire (ChainID (mc_server mc) (mc_schedule mc) reader);
  if negb (id =? dp_ChainID dep) then throw (runWrongChain id (dp_ChainID dep))
  else
    tip ← onWire (Head (mc_server mc) (mc_schedule mc) reader (fo_finality opts));
    _ ← setRun (withTip (mkTipDoc (b_Number (tip_Block tip)) (HashString (b_Hash (tip_Block tip))) (tip_Lag tip)));
    dir ← lift (CacheDir (mc_XDG_CACHE_HOME mc) (mc_UserHomeDir mc) (dp_ChainID dep) (dp_Token dep));
    engine ← lift (wrap runEpochError
      (EngineNew (Some (readerOf (mc_keccak256 mc) (mc_server mc) (mc_schedule mc) reader)) tip dir dep (mkEngineOptions 0 (fo_fresh opts))));
    modify (λ s, mkRunState (rs_report s) (rs_wire s) (Some (engine, newEngineState (mc_cacheFile mc dir) (rs_wire s)))).

(** [verifier.execute]. *)
Definition execute (cmd : command) : V () :=
  _ ← connect (cm_options cmd);
  if decide (cm_name cmd = "sync"%string) then verifySync
  else if decide (cm_name cmd = "latest"%string) then
    latest ← onEngine LatestRoot;
    verifyEpoch (cm_options cmd) latest
  else verifyEpoch (cm_options cmd) (cm_epochID cmd).

(** The Report a run starts from. *)
Definition initialReport (cmd : command) : ReportDoc :=
  let o := cm_options cmd in
  mkReportDoc EmptyString (cm_name cmd)
    (mkRunDoc (dp_ChainID dep) (AddressString (dp_Distributor dep)) (AddressString (dp_Token dep))
      (AddressString (dp_DevWallet dep)) (fo_finality o)
      (match fo_expect o with Some h => HashString h | None => EmptyString end) [] (fo_rate o) None None)
    EmptyString EmptyString [] None.

Definition initialState (cmd : command) : runState :=
  mkRunState (initialReport cmd) newWire None.

(** What a process leaves: its exit status, its stdout and the Report behind it. *)
Record outcome := mkOutcome { oc_exit : Z; oc_stdout : string; oc_report : option ReportDoc }.

(** Rendering and the exit status. *)
Definition finish (opts : cmdOptions) (rep : ReportDoc) : outcome :=
  let unwritten := mkOutcome (ExitCode Indeterminate) EmptyString (Some rep) in
  let written stdout := mkOutcome (if decide (rep_Verdict rep = EmptyString) then 0 else ExitCode (rep_Verdict rep)) stdout (Some rep) in
  if fo_json opts then
    match WriteJSON (mc_formatJSON mc) rep with
    | Some stdout => if mc_stdoutFails mc then unwritten else written stdout
    | None => unwritten
    end
  else written (if mc_stdoutFails mc then EmptyString else WriteText (mc_formatG mc) rep).

(** What is made of an error [execute] returned. *)
Definition settle (r : Res runError ()) (rep : ReportDoc) : Res Empty_set ReportDoc :=
  match r with
  | Ok _ => Ok rep
  | Err err => Ok (withReason (mc_errorText mc err) (withVerdict Indeterminate rep))
  | Fault x => Fault x
  end.

(** [run] past the command line. *)
Definition runCommand (cmd : command) : Res Empty_set outcome :=
  let '(r, s) := execute cmd (initialState cmd) in
  rep ← settle r (rs_report s);
  mret (finish (cm_options cmd) rep).

(** [run]. A command line that does not parse prints its usage to stderr. *)
Definition run (args : list string) : Res Empty_set outcome :=
  match parse (mc_ParseFloat mc) args with
  | Err _ => Ok (mkOutcome (ExitCode Indeterminate) EmptyString None)
  | Fault x => Fault x
  | Ok cmd => runCommand cmd
  end.
End run.

(** [main], by the status it hands to [os.Exit]: the arguments go to [run] with the
    Deployment this build is pinned to. *)
Definition main (mc : Machine) (args : list string) : Res Empty_set Z := oc_exit <$> run mc Pinned args.
