(* ===== verification/ParseTheorems.v ===== *)
(** * What the command line accepts

    [parse] of run.go: what it lets through is a command a run can act on, and flags
    mean the same wherever they stand. *)
From S2P Require Import Prelude Sorts Bytes Text Json JsonFacts Paths Merkle Twab Alloc Chain ChainTheorems Crc Cache StateMonad Wire Reader Epoch ChainReader WireSpec Report Render Artifacts Verify.
From Stdlib Require Import QArith.

Open Scope Z_scope.

Section parse.
Context (ParseFloat : string → option float64).

(** ** No command line panics *)

Lemma setBool_faults name value o : no_fault (setBool name value o).
Proof. unfold setBool. solve_faults. Qed.
Lemma setValue_faults name value o : no_fault (setValue ParseFloat name value o).
Proof. unfold setValue, parseExpect. solve_faults. Qed.

Lemma parseArgs_faults args : ∀ o positional, no_fault (parseArgs ParseFloat args o positional).
Proof.
  induction args as [args IH] using (induction_ltof1 _ (@length string)). unfold ltof in IH.
  intros o positional. destruct args as [|s rest]; cbn [parseArgs]; [apply no_fault_Ok|].
  destruct (classify s) as [| | |name value].
  - apply IH. cbn. lia.
  - destruct rest as [|p rest]; [apply no_fault_Ok|]. apply IH. cbn. lia.
  - apply no_fault_Err.
  - destruct (decide (name ∈ boolFlags)).
    { apply no_fault_bind; [apply setBool_faults|]. intros o1. apply IH. cbn. lia. }
    destruct (decide (name ∈ valueFlags)); [|case_decide; apply no_fault_Err].
    destruct value as [value|]; [|destruct rest as [|value rest]; [apply no_fault_Err|]];
      (apply no_fault_bind; [apply setValue_faults|]; intros o1; apply IH; cbn; lia).
Qed.

Lemma parse_faults args : no_fault (parse ParseFloat args).
Proof.
  unfold parse. apply no_fault_bind; [apply parseArgs_faults|]. intros [o positional].
  apply no_fault_bind; [unfold parseCommand; solve_faults|]. intros [name id].
  apply no_fault_bind; [apply no_fault_wrap; unfold ParseFinality; solve_faults|]. intros level. solve_faults.
Qed.

(** ** What is accepted *)

(** No option takes a zero Root to expect. *)
Definition expect_ok (o : cmdOptions) : Prop := fo_expect o ≠ Some zeroHash.

Lemma setBool_expect name value o o' : setBool name value o = Ok o' → fo_expect o' = fo_expect o.
Proof.
  unfold setBool. intros (b & _ & H)%bind_Ok. injection H as <-. by repeat case_decide.
Qed.

Lemma parseExpect_Ok value h : parseExpect value = Ok h → h ≠ zeroHash.
Proof. unfold parseExpect. destruct (ParseHash value); [|done..]. case_decide; [done|]. by intros [= <-]. Qed.

Lemma setValue_expect name value o o' : expect_ok o → setValue ParseFloat name value o = Ok o' → expect_ok o'.
Proof.
  unfold setValue, expect_ok. intros Ho. repeat case_decide.
  - by intros [= <-].
  - intros (q & _ & [= <-])%bind_Ok. done.
  - by intros [= <-].
  - intros (h & Hh%parseExpect_Ok & [= <-])%bind_Ok. cbn. by intros [= ->].
  - by intros [= <-].
Qed.

Lemma parseArgs_expect args : ∀ o positional o' positional', expect_ok o →
  parseArgs ParseFloat args o positional = Ok (o', positional') → expect_ok o'.
Proof.
  induction args as [args IH] using (induction_ltof1 _ (@length string)). unfold ltof in IH.
  intros o positional o' positional' Ho. destruct args as [|s rest]; cbn [parseArgs]; [by intros [= <- _]|].
  destruct (classify s) as [| | |name value].
  - apply IH; [cbn; lia|done].
  - destruct rest as [|p rest]; [by intros [= <- _]|]. apply IH; [cbn; lia|done].
  - done.
  - destruct (decide (name ∈ boolFlags)).
    { intros (o1 & H1%setBool_expect & H)%bind_Ok. eapply IH; [| |exact H]; [cbn; lia|]. unfold expect_ok. by rewrite H1. }
    destruct (decide (name ∈ valueFlags)); [|by case_decide].
    destruct value as [value|]; [|destruct rest as [|value rest]; [done|]];
      intros (o1 & H1%setValue_expect & H)%bind_Ok; try done; (eapply IH; [|exact H1|exact H]; cbn; lia).
Qed.

(** The rates that are let through: what is not known to be zero or less. *)
Definition rate_ok (rate : float64) : Prop :=
  match rate with Float q => (0 < q)%Q | Infinite negative => negative = false | NaN => True end.

Lemma rate_checked rate : float_le rate (Float 0) = false ↔ rate_ok rate.
Proof.
  destruct rate as [q|[]|]; cbn; [|done..]. rewrite <-not_true_iff_false, Qle_bool_iff. split; [apply Qnot_le_lt|apply Qlt_not_le].
Qed.

Lemma nan_parses url : ParseFloat "NaN" = Some NaN →
  let nan := mkCommand "sync" 0 (mkCmdOptions [url] Safe NaN false false EmptyString None false) in
  parse ParseFloat ["sync"; "--rpc"; url; "--rate"; "NaN"]%string = Ok nan ∧ fo_rate (cm_options nan) = NaN.
Proof.
  intros Hnan. cbn zeta. split; [|done]. unfold parse.
  assert (parseArgs ParseFloat ["sync"; "--rpc"; url; "--rate"; "NaN"]%string defaultOptions [] =
    (o ← setValue ParseFloat "rate" "NaN" (mkCmdOptions [url] Safe DefaultCallsPerSecond false false EmptyString None false);
     Ok (o, ["sync"%string]))) as -> by reflexivity.
  assert (∀ o, setValue ParseFloat "rate" "NaN" o =
    Ok (mkCmdOptions (fo_rpc o) (fo_finality o) NaN (fo_fresh o) (fo_chain o) (fo_artifacts o) (fo_expect o) (fo_json o))) as ->
    by (intros o; unfold setValue; by rewrite decide_False, decide_True, Hnan by done).
  reflexivity.
Qed.

(** C37: a command line that is accepted is one a run can act on, but for one rate: at
    least one endpoint, a known Finality level, never the zero Root to expect; an Epoch
    number is a uint64; [latest] takes no Root to expect, nor does [sync], which
    recomputes nothing, take --chain or --artifacts; and the rate is a positive number,
    positive infinity, or NaN, since NaN is not zero or less. NaN does get in: with
    strconv.ParseFloat reading it, as it does, [--rate NaN] is a command line like any
    other. *)
Theorem parse_valid args cmd : parse ParseFloat args = Ok cmd →
  let o := cm_options cmd in
  fo_rpc o ≠ [] ∧ rate_ok (fo_rate o) ∧ fo_finality o ∈ [Latest; Safe; Finalized] ∧ fo_expect o ≠ Some zeroHash ∧
  (cm_name cmd = "epoch"%string ∧ is_u64 (cm_epochID cmd) ∨
   cm_name cmd = "latest"%string ∧ fo_expect o = None ∨
   cm_name cmd = "sync"%string ∧ fo_expect o = None ∧ fo_chain o = false ∧ fo_artifacts o = EmptyString) ∧
  (∀ url, ParseFloat "NaN" = Some NaN →
     ∃ nan, parse ParseFloat ["sync"; "--rpc"; url; "--rate"; "NaN"]%string = Ok nan ∧ fo_rate (cm_options nan) = NaN).
Proof.
  unfold parse. intros ([o positional] & Hargs & H)%bind_Ok. apply bind_Ok in H as ([name id] & Hcmd & H).
  apply bind_Ok in H as (level & Hlevel%wrap_Ok & H). destruct (fo_rpc o) as [|url urls] eqn:Hrpc; [done|].
  destruct (float_le (fo_rate o) (Float 0)) eqn:Hrate; [done|]. injection H as <-. cbn [cm_options cm_name cm_epochID]. cbn zeta.
  rewrite Hrpc. split; [done|]. split; [by apply rate_checked|]. split.
  { unfold ParseFinality in Hlevel. repeat (case_decide; [set_solver|]). done. }
  split; [by eapply (parseArgs_expect args defaultOptions)|]. clear Hargs Hlevel Hrpc Hrate. split.
  2:{ intros url' Hnan. exists (mkCommand "sync" 0 (mkCmdOptions [url'] Safe NaN false false EmptyString None false)).
      by apply nan_parses. }
  unfold parseCommand in Hcmd. destruct positional as [|word arguments]; [done|]. case_decide as Hepoch.
  - left. destruct arguments as [|text [|? ?]]; [done| |done]. apply bind_Ok in Hcmd as (n & Hn & [= <- <-]).
    split; [done|]. destruct (ParseUint 10 text) as [m|] eqn:Em; [|done]. injection Hn as <-. by eapply (ParseUint_u64 10); [|exact Em].
  - right. case_decide as Hword; [|done]. destruct (negb _); [done|].
    destruct (bool_decide (word = "sync"%string) && _) eqn:Hsync; [done|].
    destruct (fo_expect o); [done|]. injection Hcmd as <- <-. destruct Hword as [->| ->]; [by left|right].
    rewrite bool_decide_eq_true_2 in Hsync by done. apply orb_false_iff in Hsync as [Hchain Hart].
    split_and!; [done..|]. apply negb_false_iff in Hart. by apply bool_decide_eq_true in Hart.
Qed.
(** ** Where flags may stand *)

(** One thing on a command line: a word, a boolean flag with or without a value, or a
    flag with a value of its own or in the argument that follows. *)
Inductive piece :=
  | Word (s : string)
  | Switch (dashes : bool) (name : string) (value : option string)
  | Setting (dashes joined : bool) (name value : string).

Definition dash (dashes : bool) (s : string) : string := if dashes then String "-" (String "-" s) else String "-" s.
Definition spell (p : piece) : list string :=
  match p with
  | Word s => [s]
  | Switch dashes name None => [dash dashes name]
  | Switch dashes name (Some value) => [dash dashes (name +:+ String "=" value)%string]
  | Setting dashes true name value => [dash dashes (name +:+ String "=" value)%string]
  | Setting dashes false name value => [dash dashes name; value]
  end.

Definition piece_ok (p : piece) : Prop :=
  match p with
  | Word s => classify s = Positional
  | Switch _ name _ => name ∈ boolFlags
  | Setting _ _ name _ => name ∈ valueFlags
  end.

Definition is_word (p : piece) : Prop := match p with Word _ => True | _ => False end.
#[local] Instance is_word_dec p : Decision (is_word p).
Proof. destruct p; apply _. Defined.

(** What a piece does to the options, and the words among pieces. *)
Definition setPiece (o : cmdOptions) (p : piece) : Res parseError cmdOptions :=
  match p with
  | Word _ => Ok o
  | Switch _ name value => setBool name (default "true"%string value) o
  | Setting _ _ name value => setValue ParseFloat name value o
  end.
Definition words (pieces : list piece) : list string := omap (λ p, match p with Word s => Some s | _ => None end) pieces.

Lemma classify_flag dashes name : name ∈ boolFlags ++ valueFlags → classify (dash dashes name) = Flag name None.
Proof.
  intros Hn. unfold boolFlags, valueFlags in Hn. cbn [app] in Hn. each_in Hn; by destruct dashes.
Qed.

Lemma classify_joined dashes name value : name ∈ boolFlags ++ valueFlags →
  classify (dash dashes (name +:+ String "=" value)%string) = Flag name (Some value).
Proof.
  intros Hn. unfold boolFlags, valueFlags in Hn. cbn [app] in Hn. each_in Hn; by destruct dashes; unfold dash; strings.
Qed.

Lemma flags_disjoint name : name ∈ valueFlags → name ∉ boolFlags.
Proof.
  unfold valueFlags. intros Hn. each_in Hn; by apply (bool_decide_eq_false_1 _).
Qed.

Lemma parseArgs_spell pieces : ∀ o positional, Forall piece_ok pieces →
  parseArgs ParseFloat (pieces ≫= spell) o positional =
  (o' ← foldM setPiece pieces o; mret (o', positional ++ words pieces)).
Proof.
  induction pieces as [|p pieces IH]; intros o positional Hok; [cbn; by rewrite app_nil_r|].
  apply Forall_cons in Hok as [Hp Hok]. rewrite bind_cons. cbn [foldM].
  destruct p as [s|dashes name value|dashes joined name value]; cbn [piece_ok setPiece] in *.
  - cbn [spell app parseArgs]. rewrite Hp, IH by done. cbn [mbind Res_bind words omap list_omap]. by rewrite <-app_assoc.
  - assert (name ∈ boolFlags ++ valueFlags) as Hin by (apply elem_of_app; by left).
    assert (spell (Switch dashes name value) = [match value with Some v => dash dashes (name +:+ String "=" v)%string | None => dash dashes name end])
      as -> by by destruct value.
    cbn [app parseArgs].
    assert (classify match value with Some v => dash dashes (name +:+ String "=" v)%string | None => dash dashes name end = Flag name value) as ->
      by (destruct value; [by apply classify_joined|by apply classify_flag]).
    rewrite decide_True by done. destruct (setBool name (default "true"%string value) o) as [o1| |]; [|done..].
    cbn [mbind Res_bind]. by rewrite IH.
  - assert (name ∈ boolFlags ++ valueFlags) as Hin by (apply elem_of_app; by right).
    destruct joined; cbn [spell app parseArgs]; [rewrite classify_joined by done|rewrite classify_flag by done];
      (rewrite decide_False by by apply flags_disjoint); (rewrite decide_True by done);
      (destruct (setValue ParseFloat name value o) as [o1| |]; [|done..]); cbn [mbind Res_bind]; by rewrite IH.
Qed.

(** The words change no option, and the flags are no words. *)
Lemma setPiece_words pieces o : foldM setPiece (filter is_word pieces) o = Ok o.
Proof. induction pieces as [|p pieces IH]; [done|]. rewrite filter_cons. case_decide; [|done]. by destruct p. Qed.
Lemma setPiece_flags pieces o : foldM setPiece (filter (λ p, ¬ is_word p) pieces) o = foldM setPiece pieces o.
Proof.
  revert o. induction pieces as [|p pieces IH]; intros o; [done|]. rewrite filter_cons. destruct p; case_decide as H; try (by destruct H);
    cbn [foldM setPiece mbind Res_bind]; try apply IH; [destruct (setBool _ _ _); [apply IH|done..]|destruct (setValue _ _ _ _); [apply IH|done..]].
Qed.
Lemma words_split pieces : words (filter is_word pieces ++ filter (λ p, ¬ is_word p) pieces) = words pieces.
Proof.
  unfold words. rewrite omap_app. induction pieces as [|p pieces IH]; [done|]. rewrite !filter_cons. cbn [omap list_omap].
  destruct p; repeat case_decide; try done; try (by destruct H); cbn [omap list_omap app]; first [done|by f_equal].
Qed.

(** Flags mean the same wherever they stand. Any interleaving of words and flags,
    with one dash or two, values joined by an equals sign or in the next argument, is
    parsed as the words followed by the flags in the order given. *)
Theorem parse_anywhere pieces : Forall piece_ok pieces →
  parse ParseFloat (pieces ≫= spell) =
  parse ParseFloat ((filter is_word pieces ++ filter (λ p, ¬ is_word p) pieces) ≫= spell).
Proof.
  intros Hok. unfold parse. rewrite !parseArgs_spell; [|by apply Forall_app; split; apply Forall_filter_keep|done].
  rewrite foldM_app, setPiece_words, words_split. cbn [mbind Res_bind]. by rewrite setPiece_flags.
Qed.
End parse.

(** ** The claims applied to a command line *)

Definition sample_args : list piece :=
  [Setting true false "rpc" "https://one"; Word "epoch"; Switch false "json" None; Setting false true "rpc" "https://two"; Word "7"]%string.

Lemma parse_valid_witness :
  parse (λ _, None) (sample_args ≫= spell) =
    Ok (mkCommand "epoch" 7 (mkCmdOptions ["https://one"; "https://two"]%string Safe DefaultCallsPerSecond false false EmptyString None true)) ∧
  is_u64 7.
Proof.
  assert (parse (λ _, None) (sample_args ≫= spell) =
    Ok (mkCommand "epoch" 7 (mkCmdOptions ["https://one"; "https://two"]%string Safe DefaultCallsPerSecond false false EmptyString None true)))
    as Hp by reflexivity.
  split; [exact Hp|]. by destruct (parse_valid (λ _, None) _ _ Hp) as (_ & _ & _ & _ & [[_ H]|[[? _]|[? _]]] & _).
Defined.

Lemma parse_anywhere_witness :
  parse (λ _, None) ["--rpc"; "https://one"; "epoch"; "-json"; "-rpc=https://two"; "7"]%string =
  parse (λ _, None) ["epoch"; "7"; "--rpc"; "https://one"; "-json"; "-rpc=https://two"]%string.
Proof.
  apply (parse_anywhere (λ _, None) sample_args). unfold sample_args. repeat (constructor; [cbn; first [reflexivity|set_solver]|]). constructor.
Defined.
