(* ===== verification/Below.v ===== *)
(** * An Engine over a Reader that fails more often

    [extends rd rd']: whatever [rd] answers, [rd'] answers too. Every Engine call
    that succeeds over [rd] then succeeds over [rd'] with the same result and the
    same state, so what is proved of a Reader that always answers holds of one that
    may fail. *)
From S2P Require Import Prelude Sorts Bytes Text Merkle Twab Alloc Chain Crc Cache StateMonad Wire Reader Epoch.

(** ** Results and calls that say no more *)

Definition res_below {E A} (m m' : Res E A) : Prop := ∀ a, m = Ok a → m' = Ok a.
Definition below {S E A} (m m' : StM S E A) : Prop := ∀ s a s', m s = (Ok a, s') → m' s = (Ok a, s').

Section res.
Context {E : Type}.

Lemma res_below_refl {A} (m : Res E A) : res_below m m.
Proof. by intros a. Qed.
Lemma res_below_bind {A B} (m m' : Res E A) (f f' : A → Res E B) :
  res_below m m' → (∀ a, res_below (f a) (f' a)) → res_below (m ≫= f) (m' ≫= f').
Proof. intros Hm Hf b (a & Ha & Hb)%bind_Ok. apply bind_Ok. exists a. split; [by apply Hm|by apply Hf]. Qed.
Lemma res_below_wrap {E' A} (g : E → E') (m m' : Res E A) : res_below m m' → res_below (wrap g m) (wrap g m').
Proof. intros Hm a Ha%wrap_Ok. by apply wrap_Ok, Hm. Qed.
End res.

Section stm.
Context {S E : Type}.

Lemma below_refl {A} (m : StM S E A) : below m m.
Proof. by intros s a s'. Qed.
Lemma below_lift {A} (m m' : Res E A) : res_below m m' → below (lift m : StM S E A) (lift m').
Proof. intros Hm s a s' [= Ha <-]. unfold lift. by rewrite (Hm a Ha). Qed.
Lemma below_bind {A B} (m m' : StM S E A) (f f' : A → StM S E B) :
  below m m' → (∀ a, below (f a) (f' a)) → below (m ≫= f) (m' ≫= f').
Proof.
  intros Hm Hf s b s'. unfold mbind, StM_bind. destruct (m s) as [[a|e|x] s1] eqn:E1; [|done..].
  rewrite (Hm _ _ _ E1). apply Hf.
Qed.
Lemma below_wrapS {E' A} (g : E' → E) (m m' : StM S E' A) : below m m' → below (wrapS g m) (wrapS g m').
Proof.
  intros Hm s a s'. unfold wrapS. destruct (m s) as [r s1] eqn:E1. intros [= Hr <-].
  destruct r as [b|x|x]; [|done..]. injection Hr as <-. by rewrite (Hm _ _ _ E1).
Qed.
Lemma below_SearchS n (f f' : nat → StM S E bool) : (∀ h, below (f h) (f' h)) → below (SearchS n f) (SearchS n f').
Proof.
  intros Hf. unfold SearchS. generalize 0%nat as i, n at 2 4 as j. induction n as [|fuel IH]; intros i j; cbn [search_loopS];
    (destruct (i <? j)%nat; [|apply below_refl]); [apply below_refl|].
  apply below_bind; [apply Hf|]. intros []; apply IH.
Qed.
Lemma below_foldS {A B} (f f' : B → A → StM S E B) l b :
  (∀ b x, below (f b x) (f' b x)) → below (foldS f l b) (foldS f' l b).
Proof.
  intros Hf. revert b. induction l as [|x l IH]; intros b; cbn [foldS]; [apply below_refl|].
  apply below_bind; [apply Hf|]. intros b'. apply IH.
Qed.
End stm.

Create HintDb below.
#[export] Hint Resolve res_below_refl below_refl : below.

(** Goes through a call's steps; what is left are its reads. *)
Ltac solve_below :=
  repeat first
    [ progress eauto with below
    | apply below_bind; [|intros ?]
    | apply below_foldS; intros ? ?
    | apply res_below_bind; [|intros ?]
    | apply below_lift
    | apply res_below_wrap
    | match goal with |- context [match ?x with _ => _ end] => is_var x; destruct x end
    | case_match ].

Record extends (rd rd' : Reader) : Prop := Extends {
  ex_block : ∀ n, below (rd_BlockByNumber rd n) (rd_BlockByNumber rd' n);
  ex_transfers : ∀ from to, below (rd_Transfers rd from to) (rd_Transfers rd' from to);
  ex_exclusions : ∀ from to, below (rd_Exclusions rd from to) (rd_Exclusions rd' from to);
  ex_roots : ∀ from to, below (rd_Roots rd from to) (rd_Roots rd' from to);
  ex_ledger : ∀ kind id at_, below (rd_Ledger rd kind id at_) (rd_Ledger rd' kind id at_);
  ex_curve : ∀ at_, below (rd_LaunchCurve rd at_) (rd_LaunchCurve rd' at_);
  ex_end : ∀ id tip, below (rd_EndBlock rd id tip) (rd_EndBlock rd' id tip);
}.

(** ** The Cache's Sync *)

Section sync.
Context {N : Type} (src src' : Source N).
Hypothesis Htransfers : ∀ from to, below (src_Transfers src from to) (src_Transfers src' from to).
Hypothesis Hblock : ∀ n, below (src_BlockByNumber src n) (src_BlockByNumber src' n).

Lemma stillOnChain_below c i : below (stillOnChain src c i) (stillOnChain src' c i).
Proof using Hblock.
  apply below_bind; [eauto with below|]. intros r. apply below_bind; [apply below_wrapS, Hblock|eauto with below].
Qed.

Lemma verify_below tip c : below (verify src tip c) (verify src' tip c).
Proof using Hblock.
  unfold verify. case_match; [eauto with below|]. apply below_bind; [eauto with below|]. intros n.
  case_match; [eauto with below|]. apply below_bind; [apply stillOnChain_below|]. intros [|]; [eauto with below|].
  apply below_bind; [|eauto with below]. apply below_SearchS. intros h.
  apply below_bind; [apply stillOnChain_below|eauto with below].
Qed.

Lemma syncFrom_below fuel tip chunk : ∀ start synced c w synced1 c1 w1,
  syncFrom src fuel tip chunk start synced c w = (synced1, c1, Ok (), w1) →
  syncFrom src' fuel tip chunk start synced c w = (synced1, c1, Ok (), w1).
Proof using Htransfers.
  induction fuel as [|fuel IH]; intros start synced c w synced1 c1 w1; cbn [syncFrom]; (case_match; [done|]); [done|].
  set (end_ := if chunk <=? _ then _ else _).
  destruct (src_Transfers src start end_ w) as [[ts|x|x] w2] eqn:E; [|done..]. rewrite (Htransfers _ _ _ _ _ E).
  destruct (wrap _ _ ≫= _) as [[n c2]|x|x]; [|done..]. case_match; [done|apply IH].
Qed.

Lemma Sync_below tip chunk c w synced c1 w1 :
  Sync src tip chunk c w = (synced, c1, Ok (), w1) → Sync src' tip chunk c w = (synced, c1, Ok (), w1).
Proof using Hblock Htransfers.
  unfold Sync. case_match; [done|]. destruct (verify src _ c w) as [[[reorg c']|e|x] w2] eqn:E; [|done..].
  rewrite (verify_below _ _ _ _ _ E). destruct (Last c'); [case_match; [done|]|]; apply syncFrom_below.
Qed.
End sync.

(** ** The Engine *)

(** The Engine over another Reader. *)
Definition withReader (rd : Reader) (e : Engine) : Engine :=
  mkEngine rd (e_tip e) (e_cacheDir e) (e_dep e) (e_opts e).

Section engine.
Context (keccak256 : list byte → Hash) (e : Engine) (rd : Reader).
Hypothesis Hext : extends (e_reader e) rd.

Abbreviation e' := (withReader rd e).

Lemma read_below {A} (m m' : Wire A) : below m m' → below (read m) (read m').
Proof using Type.
  intros Hm s a s'. unfold read. destruct (m (st_wire s)) as [r w] eqn:E1. intros [= Hr <-].
  destruct r as [b|x|x]; [|done..]. injection Hr as <-. by rewrite (Hm _ _ _ E1).
Qed.

Lemma bookLedger_below id : below (bookLedger e id) (bookLedger e' id).
Proof using Hext.
  unfold bookLedger. apply below_bind; [eauto with below|]. intros [l|]; [eauto with below|].
  apply below_bind; [apply read_below, (ex_ledger _ _ Hext)|eauto with below].
Qed.

Lemma addFunding_below carry id : below (addFunding e carry id) (addFunding e' carry id).
Proof using Hext. apply below_bind; [apply bookLedger_below|eauto with below]. Qed.

Lemma stands_below p : below (stands e p) (stands e' p).
Proof using Hext. apply below_bind; [apply bookLedger_below|eauto with below]. Qed.

Lemma standingRoot_below id from to : below (standingRoot e id from to) (standingRoot e' id from to).
Proof using Hext.
  apply below_bind; [apply bookLedger_below|]. intros l. repeat (case_match; [eauto with below|]).
  apply below_bind; [apply read_below, (ex_roots _ _ Hext)|eauto with below].
Qed.

Lemma firstWanted_below {B} (want want' : B → RootPosted → StM EngineState epochError (bool * B)) logs b :
  (∀ b r, below (want b r) (want' b r)) → below (firstWanted want logs b) (firstWanted want' logs b).
Proof using Type.
  intros Hw. revert b. induction logs as [|r logs IH]; intros b; cbn [firstWanted]; [eauto with below|].
  apply below_bind; [apply Hw|]. intros [[] b']; [eauto with below|apply IH].
Qed.

Lemma searchPages_below {B} (want want' : B → RootPosted → StM EngineState epochError (bool * B)) fuel :
  (∀ b r, below (want b r) (want' b r)) →
  ∀ floor hi span b, below (searchPages e want fuel floor hi span b) (searchPages e' want' fuel floor hi span b).
Proof using Hext.
  intros Hw. induction fuel as [|fuel IH]; intros floor hi span b; cbn [searchPages]; (case_match; [eauto with below|]); [eauto with below|].
  apply below_bind; [apply read_below, (ex_roots _ _ Hext)|]. intros roots.
  apply below_bind; [by apply firstWanted_below|]. intros [[r|] b']; [eauto with below|].
  case_match; [eauto with below|apply IH].
Qed.

Lemma previousRoot_below target : below (previousRoot e target) (previousRoot e' target).
Proof using Hext.
  apply searchPages_below. intros bound r. unfold wantPrevious. case_match; [eauto with below|].
  apply below_bind; [apply stands_below|eauto with below].
Qed.

Lemma LatestRoot_below : below (LatestRoot e) (LatestRoot e').
Proof using Hext.
  apply below_bind; [|eauto with below]. apply searchPages_below. intros [] r. unfold wantLatest.
  case_match; [eauto with below|]. apply below_bind; [apply stands_below|eauto with below].
Qed.

Lemma standingRoots_below first last : below (standingRoots e first last) (standingRoots e' first last).
Proof using Hext.
  apply below_bind; [apply read_below, (ex_roots _ _ Hext)|]. intros roots. apply below_foldS. intros out p.
  unfold standingStep. case_match; [eauto with below|]. apply below_bind; [apply stands_below|eauto with below].
Qed.

Lemma deployEpoch_below : below (deployEpoch e) (deployEpoch e').
Proof using Hext.
  apply below_bind; [eauto with below|]. intros [f|]; [eauto with below|].
  apply below_bind; [apply read_below, (ex_block _ _ Hext)|eauto with below].
Qed.

Lemma syncCache_below disk w status history disk1 w1 :
  syncCache e disk w = (status, Ok history, disk1, w1) → syncCache e' disk w = (status, Ok history, disk1, w1).
Proof using Hext.
  unfold syncCache. change (cacheOptions e') with (cacheOptions e). cbn [e_opts e_cacheDir e_tip withReader].
  destruct (Open_ disk _) as [c|x|x]; [|done..].
  destruct (Sync (readerSource e) _ _ c w) as [[[synced c1] [[]|x|x]] w2] eqn:E; [|done..].
  by rewrite (Sync_below (readerSource e) (readerSource e') (ex_transfers _ _ Hext) (ex_block _ _ Hext) _ _ _ _ _ _ _ E).
Qed.

Lemma EngineSync_below s status s' : EngineSync e s = (status, Ok (), s') → EngineSync e' s = (status, Ok (), s').
Proof using Hext.
  unfold EngineSync. destruct (st_synced s); [done|].
  destruct (syncCache e (st_disk s) (st_wire s)) as [[[status1 [history|x|x]] disk] w] eqn:E; [|done..].
  by rewrite (syncCache_below _ _ _ _ _ _ E).
Qed.

Lemma loadHistory_below : below (loadHistory e) (loadHistory e').
Proof using Hext.
  apply below_bind; [eauto with below|]. intros []; [eauto with below|]. apply below_bind.
  { intros s [] s'. destruct (EngineSync e s) as [[status r] s1] eqn:E. intros [= -> <-].
    by rewrite (EngineSync_below _ _ _ E). }
  intros _. apply below_bind; [apply read_below, (ex_exclusions _ _ Hext)|]. intros stream.
  apply below_bind; [apply read_below, (ex_curve _ _ Hext)|eauto with below].
Qed.

Lemma computeEpoch_below id posted expected from :
  below (computeEpoch keccak256 e id posted expected from) (computeEpoch keccak256 e' id posted expected from).
Proof using Hext. apply below_bind; [apply bookLedger_below|eauto with below]. Qed.

Lemma carryOver_below carry from to source : below (carryOver e carry from to source) (carryOver e' carry from to source).
Proof using Hext.
  apply below_bind; [|intros []; eauto with below]. apply below_foldS. intros [c n] id.
  apply below_bind; [apply addFunding_below|eauto with below].
Qed.

Lemma expectedCarry_below target : below (expectedCarry keccak256 e target) (expectedCarry keccak256 e' target).
Proof using Hext.
  apply below_bind; [apply previousRoot_below|]. intros [p|].
  - apply below_bind; [apply computeEpoch_below|intros r; apply carryOver_below].
  - apply below_bind; [apply deployEpoch_below|]. intros first. case_match; [eauto with below|apply carryOver_below].
Qed.

Lemma EngineCompute_below id : below (EngineCompute keccak256 e id) (EngineCompute keccak256 e' id).
Proof using Hext.
  apply below_bind; [apply read_below, (ex_end _ _ Hext)|]. intros b.
  apply below_bind; [apply loadHistory_below|]. intros _. apply below_bind; [apply expectedCarry_below|]. intros [c from].
  apply below_bind; [apply standingRoot_below|]. intros posted. apply below_bind; [apply computeEpoch_below|eauto with below].
Qed.

Lemma Walk_below target : below (Walk keccak256 e target) (Walk keccak256 e' target).
Proof using Hext.
  apply below_bind; [apply read_below, (ex_end _ _ Hext)|]. intros b.
  apply below_bind; [apply loadHistory_below|]. intros _. apply below_bind; [apply deployEpoch_below|]. intros first.
  case_match; [eauto with below|]. apply below_bind; [apply standingRoots_below|]. intros standing.
  apply below_bind.
  { apply below_foldS. intros w id. unfold walkStep. case_match.
    - apply below_bind; [apply computeEpoch_below|eauto with below].
    - apply below_bind; [apply addFunding_below|eauto with below]. }
  intros w. apply below_bind; [apply standingRoot_below|]. intros posted.
  apply below_bind; [apply computeEpoch_below|eauto with below].
Qed.
End engine.
