(* ===== verification/ReaderIdeal.v ===== *)
(** * One truthful endpoint, as a Reader that always answers

    Whatever a Reader with one truthful endpoint answers up to a tip, [completed]
    answers, and it keeps the promise [ReadsChain]. The tip such a Reader settles on
    and the chain id it reads are the chain's own. *)
From S2P Require Import Prelude Sorts Bytes Text Merkle Twab Chain StateMonad Wire Reader Epoch ChainReader WireSpec Honest ReaderSpec ReaderTruth ReaderLive ReaderServes Below.

(** ** A Reader filled in from a chain *)

Section completed.
Context (rd : Reader) (cv : ChainView) (tip : Tip).
Abbreviation tipN := (b_Number (tip_Block tip)).

Definition within (n : Z) : bool := (0 <=? n) && (n <=? tipN).
Definition between (from to : Z) : bool := (0 <=? from) && (from <=? to) && (to <=? tipN).

(** A last block before an instant, by looking at every one. *)
Definition lastBlockBefore (t : Z) : option Block :=
  cv_block cv <$> head (filter (λ n, b_Timestamp (cv_block cv n) < t ∧ t ≤ b_Timestamp (cv_block cv (n + 1))) (seqZ 0 tipN)).

(** The answer [a], at the cost of the read that was to give it. *)
Definition fill {A} (m : Wire A) (a : A) : Wire A := λ w, (Ok a, (m w).2).

Definition completed : Reader := mkReader (rd_Token rd) (rd_Distributor rd) (rd_PonsFactory rd)
  (λ n, if within n then fill (rd_BlockByNumber rd n) (cv_block cv n) else rd_BlockByNumber rd n)
  (λ from to, if between from to
              then fill (rd_Transfers rd from to) (filter (λ t, in_blocks from to (ct_Site t)) (cv_transfers cv))
              else rd_Transfers rd from to)
  (λ from to, if between from to
              then fill (rd_Exclusions rd from to) (filter (λ x, in_blocks from to (ce_Site x)) (cv_exclusions cv))
              else rd_Exclusions rd from to)
  (λ from to, if between from to
              then fill (rd_Roots rd from to) (filter (λ p, in_blocks from to (rp_Site p)) (cv_roots cv))
              else rd_Roots rd from to)
  (λ kind id at_, if bool_decide (kind = KindEpoch ∧ at_ = tipN) then fill (rd_Ledger rd kind id at_) (cv_ledger cv id)
                  else rd_Ledger rd kind id at_)
  (λ at_, if at_ =? tipN then fill (rd_LaunchCurve rd at_) (cv_curve cv) else rd_LaunchCurve rd at_)
  (λ id t w, match rd_EndBlock rd id t w with
             | (Ok b, w) => (Ok b, w)
             | (r, w) => (match lastBlockBefore (w_End (WindowOf id)) with Some b => Ok b | None => r end, w)
             end).

Lemma fill_below {A} (m : Wire A) (a : A) : ensures m (λ x, x = a) → below m (fill m a).
Proof. intros Hm w x w' H. unfold fill. by rewrite <-(Hm _ _ _ H), H. Qed.

Lemma fill_always {A} (m : Wire A) (a : A) : always (fill m a) (Ok a).
Proof. intros w _. by eexists. Qed.

Lemma between_spec from to : between from to = true ↔ 0 ≤ from ≤ to ∧ to ≤ tipN.
Proof. unfold between. rewrite !andb_true_iff, !Z.leb_le. tauto. Qed.

Lemma within_spec n : within n = true ↔ 0 ≤ n ≤ tipN.
Proof. unfold within. rewrite andb_true_iff, !Z.leb_le. tauto. Qed.

Lemma between_true from to : 0 ≤ from ≤ to → to ≤ tipN → between from to = true.
Proof. intros. apply between_spec. lia. Qed.

(** What the reads that succeed must be for nothing to be made up. *)
Record answers_from : Prop := AnswersFrom {
  af_block : ∀ n, 0 ≤ n ≤ tipN → ensures (rd_BlockByNumber rd n) (λ b, b = cv_block cv n);
  af_transfers : ∀ from to, 0 ≤ from ≤ to → to ≤ tipN →
    ensures (rd_Transfers rd from to) (λ l, l = filter (λ t, in_blocks from to (ct_Site t)) (cv_transfers cv));
  af_exclusions : ∀ from to, 0 ≤ from ≤ to → to ≤ tipN →
    ensures (rd_Exclusions rd from to) (λ l, l = filter (λ x, in_blocks from to (ce_Site x)) (cv_exclusions cv));
  af_roots : ∀ from to, 0 ≤ from ≤ to → to ≤ tipN →
    ensures (rd_Roots rd from to) (λ l, l = filter (λ p, in_blocks from to (rp_Site p)) (cv_roots cv));
  af_ledger : ∀ id, ensures (rd_Ledger rd KindEpoch id tipN) (λ l, l = cv_ledger cv id);
  af_curve : ensures (rd_LaunchCurve rd tipN) (λ a, a = cv_curve cv);
  af_end : ∀ id, ensures (rd_EndBlock rd id tip) (last_before cv tipN (w_End (WindowOf id)));
}.

Context (Haf : answers_from).

Lemma completed_extends : extends rd completed.
Proof using Haf.
  split; intros; cbn [completed rd_BlockByNumber rd_Transfers rd_Exclusions rd_Roots rd_Ledger rd_LaunchCurve rd_EndBlock].
  - destruct (within n) eqn:E; [|apply below_refl]. apply within_spec in E. by apply fill_below, (af_block Haf).
  - destruct (between from to) eqn:E; [|apply below_refl]. apply between_spec in E as [? ?]. by apply fill_below, (af_transfers Haf).
  - destruct (between from to) eqn:E; [|apply below_refl]. apply between_spec in E as [? ?]. by apply fill_below, (af_exclusions Haf).
  - destruct (between from to) eqn:E; [|apply below_refl]. apply between_spec in E as [? ?]. by apply fill_below, (af_roots Haf).
  - case_bool_decide as Hk; [|apply below_refl]. destruct Hk as [-> ->]. apply fill_below, (af_ledger Haf).
  - destruct (Z.eqb_spec at_ tipN) as [->|]; [|apply below_refl]. apply fill_below, (af_curve Haf).
  - intros w b w' H. cbn beta. by rewrite H.
Qed.

Lemma crossing t (m : nat) : b_Timestamp (cv_block cv 0) < t → t ≤ b_Timestamp (cv_block cv (Z.of_nat m)) →
  ∃ n, 0 ≤ n < Z.of_nat m ∧ b_Timestamp (cv_block cv n) < t ∧ t ≤ b_Timestamp (cv_block cv (n + 1)).
Proof using Type.
  intros H0. induction m as [|m IH]; intros Hm; [change (Z.of_nat 0) with 0 in Hm; lia|].
  destruct (Z.le_gt_cases t (b_Timestamp (cv_block cv (Z.of_nat m)))) as [Hle|Hgt].
  - destruct (IH Hle) as (n & ? & ?). exists n. split; [lia|done].
  - exists (Z.of_nat m). split; [lia|]. split; [lia|]. by rewrite Nat2Z.inj_succ in Hm.
Qed.

Lemma lastBlockBefore_spec t :
  0 ≤ tipN → b_Timestamp (cv_block cv 0) < t → t ≤ b_Timestamp (cv_block cv tipN) →
  ∃ b, lastBlockBefore t = Some b ∧ last_before cv tipN t b.
Proof using Type.
  intros H0 Hfirst Hlast. destruct (crossing t (Z.to_nat tipN) Hfirst) as (n & Hn & Hlt & Hle); [by rewrite Z2Nat.id|].
  rewrite Z2Nat.id in Hn by done. unfold lastBlockBefore.
  set (P := λ n, b_Timestamp (cv_block cv n) < t ∧ t ≤ b_Timestamp (cv_block cv (n + 1))).
  destruct (filter P (seqZ 0 tipN)) as [|k l] eqn:E.
  - exfalso. assert (n ∈ filter P (seqZ 0 tipN)) as Hin; [|rewrite E in Hin; by apply not_elem_of_nil in Hin].
    apply list_elem_of_filter. split; [done|]. apply elem_of_seqZ. lia.
  - exists (cv_block cv k). split; [done|]. assert (k ∈ filter P (seqZ 0 tipN)) as Hk by (rewrite E; by constructor).
    apply list_elem_of_filter in Hk as [[? ?] Hk%elem_of_seqZ]. exists k. split; [lia|]. by split.
Qed.

Lemma completed_reads : 0 ≤ tipN → tip_Block tip = cv_block cv tipN → ReadsChain completed cv tip.
Proof using Haf.
  intros H0 Htip.
  split; intros; cbn [completed rd_BlockByNumber rd_Transfers rd_Exclusions rd_Roots rd_Ledger rd_LaunchCurve rd_EndBlock].
  - rewrite (proj2 (within_spec n)) by done. apply fill_always.
  - rewrite between_true by done. apply fill_always.
  - rewrite between_true by done. apply fill_always.
  - rewrite between_true by done. apply fill_always.
  - rewrite bool_decide_eq_true_2 by done. apply fill_always.
  - rewrite Z.eqb_refl. apply fill_always.
  - destruct (rd_EndBlock rd id tip w) as [[b|x|x] w'] eqn:E; [exists b, w'; split; [done|by eapply (af_end Haf)]|..];
      (destruct (lastBlockBefore_spec (w_End (WindowOf id))) as (b & -> & Hb); [done|done|by rewrite <-Htip|]; by exists b, w').
Qed.
End completed.

(** ** The tip and the chain id *)

Lemma lowestBlock_le b l : b_Number (lowestBlock b l) ≤ b_Number b ∧
  (∀ x, x ∈ l → b_Number (lowestBlock b l) ≤ b_Number x) ∧ (lowestBlock b l = b ∨ lowestBlock b l ∈ l).
Proof.
  unfold lowestBlock. revert b. induction l as [|x l IH]; intros b; cbn [foldl]; [split_and!; [done|set_solver|by left]|].
  destruct (IH (if b_Number x <? b_Number b then x else b)) as (Hb & Hl & Hin).
  destruct (Z.ltb_spec (b_Number x) (b_Number b)).
  - split_and!; [lia| |set_solver]. intros y [->|Hy]%elem_of_cons; [done|by apply Hl].
  - split_and!; [done| |set_solver]. intros y [->|Hy]%elem_of_cons; [lia|by apply Hl].
Qed.

Lemma blockByTag_held W server i (Htrue : truthful W server i) tag : ensures (blockByTag server i tag) (λ b, ∃ n, 0 ≤ n ≤ wo_head W ∧ b = wo_block W n).
Proof.
  unfold blockByTag. eapply ensures_bind; [by apply (callOne_true server i W)|]. intros raw Hraw.
  eapply ensures_bind; [apply ensures_lift, unmarshalBlock_Ok|]. intros w ->. apply ensures_lift. intros b Hb.
  by eapply (rt_held _ _ _ Hraw).
Qed.

(** Endpoints that all serve the chain settle on a tip of it. *)
Lemma Head_defined W server schedule r level :
  world_ok W → (∀ clock n, schedule clock n ≡ₚ seq 0 n) → (0 < endpoints r)%nat →
  (∀ i, (i < endpoints r)%nat → truthful W server i ∧ helpful W server i) →
  level ∈ [Latest; Safe; Finalized] → defined (Head server schedule r level).
Proof.
  intros HW Hsch Hsome Hall Hl. unfold Head. eapply defined_bind.
  - apply (eachEndpoint_defined schedule r Hsch). intros i Hi. destruct (Hall i Hi) as [_ Hh]. by apply (tip_defined W server i).
  - apply (eachEndpoint_ensures schedule r _ (λ i b, (i < endpoints r)%nat → ∃ n, 0 ≤ n ≤ wo_head W ∧ b = wo_block W n)).
    intros i s b s' Hb Hi. destruct (Hall i Hi) as [Ht _]. by eapply (blockByTag_held W server i Ht).
  - intros [|b tips] [Hlen Hheld]; [cbn in Hlen; lia|]. cbn zeta. destruct (_ =? 1)%nat; [apply defined_ret|].
    destruct (lowestBlock_le b tips) as (_ & _ & Hin).
    assert (lowestBlock b tips ∈ b :: tips) as [k Hk]%list_elem_of_lookup by (apply elem_of_cons; tauto).
    destruct (Hheld k _ Hk) as (n & Hn & Hb); [rewrite <-Hlen; by eapply lookup_lt_Some|].
    assert (b_Number (lowestBlock b tips) = n) as -> by (rewrite Hb; apply (wk_blocks _ HW n Hn)).
    eapply defined_bind; [by apply (BlockByNumber_defined W HW server schedule r)|apply ensures_any|]. intros. apply defined_ret.
Qed.

Section truth.
Context (keccak256 : list byte → Hash) (W : World) (HW : world_ok W).
Context (server : nat → nat → rpcPost → httpReply) (schedule : nat → nat → list nat) (r : chainReader).
Context (Hschedule : ∀ clock n, schedule clock n ≡ₚ seq 0 n).
Context (i : nat) (Hi : (i < endpoints r)%nat) (Htrue : truthful W server i).

Lemma chainIdOf_typed j : ensures (chainIdOf server j) is_u64.
Proof using Type.
  unfold chainIdOf. eapply ensures_bind; [apply ensures_any|]. intros raw _.
  eapply ensures_bind; [apply ensures_any|]. intros s _. apply ensures_lift. intros n. apply parseQuantity_u64.
Qed.

Lemma ChainID_true : ensures (ChainID server schedule r) (λ n, n = wo_chainID W).
Proof using HW Hi Htrue.
  apply (crossCheck_true _ _ _ _ is_u64 i); [done|..].
  - apply chainIdOf_typed.
  - by apply chainIdOf_true.
  - intros n Hn. unfold appendUint64. cbn [app]. apply be_encode_inj; [exact Hn|apply (wk_chainID _ HW)].
Qed.

(** A lie can only make the tip older. *)
Lemma Head_true level : ensures (Head server schedule r level)
  (λ tip, 0 ≤ b_Number (tip_Block tip) ≤ wo_head W ∧ tip_Block tip = wo_block W (b_Number (tip_Block tip)) ∧
          tip_Finality tip = level).
Proof using HW Hi Htrue.
  assert (∀ n, 0 ≤ n ≤ wo_head W → b_Number (wo_block W n) = n) as Hnum by (intros n Hn; apply (wk_blocks _ HW n Hn)).
  unfold Head. eapply ensures_bind.
  { apply (eachEndpoint_ensures schedule r _ (λ j b, block_typed b ∧ (j = i → ∃ n, 0 ≤ n ≤ wo_head W ∧ b = wo_block W n))).
    intros j. apply ensures_and; [apply blockByTag_typed|]. intros s a s' H ->. by eapply (blockByTag_held W server i Htrue). }
  intros [|b tips] [Hlen Hall]; [by apply ensures_lift|]. cbn zeta.
  destruct (lowestBlock_le b tips) as (Hb & Htips & Hin).
  destruct (Nat.eqb_spec (endpoints r) 1) as [H1|H1].
  - apply ensures_ret. assert (i = 0%nat) as -> by lia. destruct tips; [|cbn in Hlen; lia].
    destruct (Hall 0%nat b eq_refl) as [_ Hn]. destruct (Hn eq_refl) as (n & Hr & ->). cbn. by rewrite Hnum.
  - assert (0 ≤ b_Number (lowestBlock b tips) ≤ wo_head W) as Hrange.
    { assert (lowestBlock b tips ∈ b :: tips) as Hmem by (apply elem_of_cons; tauto).
      apply list_elem_of_lookup in Hmem as [k Hk]. destruct (Hall k _ Hk) as [[? ?] _].
      destruct (lookup_lt_is_Some_2 (b :: tips) i) as [x Hx]; [lia|].
      destruct (Hall i x Hx) as [_ Hn]. destruct (Hn eq_refl) as (n & Hr & ->). unfold is_u64 in *.
      assert (b_Number (lowestBlock b tips) ≤ b_Number (wo_block W n)); [|rewrite (Hnum n Hr) in *; lia].
      apply list_elem_of_lookup_2, elem_of_cons in Hx as [<-|Hx]; [done|by apply Htips]. }
    eapply ensures_bind; [by apply (BlockByNumber_true W HW server schedule r i Hi Htrue)|]. intros agreed ->.
    apply ensures_ret. cbn. by rewrite Hnum.
Qed.

(** ** What the Reader answers is the chain's *)

Context (tip : Tip) (Htip : 0 ≤ b_Number (tip_Block tip) ≤ wo_head W)
  (Hblock : tip_Block tip = wo_block W (b_Number (tip_Block tip))).

Abbreviation cv := (view keccak256 W r (b_Number (tip_Block tip))).

Lemma readerOf_answers : answers_from (readerOf keccak256 server schedule r) cv tip.
Proof using All.
  split; intros; cbn [readerOf rd_BlockByNumber rd_Transfers rd_Exclusions rd_Roots rd_Ledger rd_LaunchCurve rd_EndBlock].
  - apply (BlockByNumber_true W HW server schedule r i Hi Htrue). lia.
  - apply (Transfers_true keccak256 W HW server schedule r Hschedule i Hi Htrue); lia.
  - apply (Exclusions_true keccak256 W HW server schedule r Hschedule i Hi Htrue); lia.
  - apply (Roots_true keccak256 W HW server schedule r Hschedule i Hi Htrue); lia.
  - eapply ensures_mono; [apply (ReadLedger_true keccak256 W server schedule r i Hi Htrue KindEpoch id _ Htip)|].
    intros l Hl. cbn [view cv_ledger]. by rewrite Hl.
  - eapply ensures_mono; [apply (LaunchCurve_true keccak256 W server schedule r i Hi Htrue _ Htip)|].
    intros a Ha. cbn [view cv_curve]. by rewrite Ha.
  - by apply (EndBlock_true keccak256 W HW server schedule r i Hi Htrue).
Qed.

Lemma idealReader : ∃ rd, extends (readerOf keccak256 server schedule r) rd ∧ ReadsChain rd cv tip.
Proof using All.
  exists (completed (readerOf keccak256 server schedule r) cv tip).
  split; [apply completed_extends|apply completed_reads]; try apply readerOf_answers; try done; lia.
Qed.
End truth.
