(* ===== verification/RunSpec.v ===== *)
(** * One run of the Verifier, step by step

    What a run that ends has done: how it connected, which Results it assessed, and
    where its exit status comes from. *)
From S2P Require Import Prelude Sorts Bytes Text Json Paths Merkle Twab Alloc Chain Crc Cache StateMonad Wire Reader Epoch ChainReader Report ReportTheorems Render Artifacts Verify ParseTheorems.

(** ** Steps of a call *)

Section steps.
Context {S E : Type}.

Lemma step_Ok {A B} (m : StM S E A) (f : A → StM S E B) s b s' :
  (m ≫= f) s = (Ok b, s') ↔ ∃ a s1, m s = (Ok a, s1) ∧ f a s1 = (Ok b, s').
Proof. unfold mbind, StM_bind. destruct (m s) as [[a|e|x] s1]; naive_solver. Qed.

Lemma lift_Ok {A} (r : Res E A) (s : S) a s' : lift r s = (Ok a, s') ↔ r = Ok a ∧ s' = s.
Proof. unfold lift. naive_solver. Qed.
End steps.

Lemma total_Ok {A} (m : Res Empty_set A) s a s' : total m s = (Ok a, s') ↔ m = Ok a ∧ s' = s.
Proof. unfold total. by rewrite lift_Ok, wrap_Ok. Qed.

Lemma onWire_Ok {A} (m : Wire A) s a s' :
  onWire m s = (Ok a, s') ↔ ∃ w, m (rs_wire s) = (Ok a, w) ∧ s' = mkRunState (rs_report s) w (rs_engine s).
Proof. unfold onWire. destruct (m (rs_wire s)) as [[b|e|x] w]; cbn; naive_solver. Qed.

Lemma onEngine_Ok {A} (m : Engine → StM EngineState epochError A) s a s' :
  onEngine m s = (Ok a, s') ↔ ∃ e es es', rs_engine s = Some (e, es) ∧ m e (setWire (rs_wire s) es) = (Ok a, es') ∧
    s' = mkRunState (rs_report s) (st_wire es') (Some (e, es')).
Proof.
  unfold onEngine. split.
  - destruct (rs_engine s) as [[e es]|]; [|done]. destruct (m e _) as [[b|x|x] es'] eqn:E; cbn; [|done..].
    intros [= -> <-]. by exists e, es, es'.
  - intros (e & es & es' & -> & -> & ->). done.
Qed.

(** A run whose Engine reads from the wire as the run left it. *)
Definition withEngine (rep : ReportDoc) (e : Engine) (es : EngineState) : runState := mkRunState rep (st_wire es) (Some (e, es)).

Lemma onEngine_with {A} (m : Engine → StM EngineState epochError A) rep e es a s' :
  onEngine m (withEngine rep e es) = (Ok a, s') ↔ ∃ es', m e es = (Ok a, es') ∧ s' = withEngine rep e es'.
Proof.
  rewrite onEngine_Ok. assert (setWire (st_wire es) es = es) as Hes by by destruct es. split.
  - intros (e' & es1 & es' & [= <- <-] & H & ->). cbn [rs_wire withEngine] in H. rewrite Hes in H. by exists es'.
  - intros (es' & H & ->). exists e, es, es'. cbn [rs_wire withEngine]. by rewrite Hes.
Qed.

(** ** Verdicts *)

Lemma Worst_cases vs : Worst vs =
  if decide (Indeterminate ∈ vs) then Indeterminate else if decide (Mismatch ∈ vs) then Mismatch else Match.
Proof.
  assert (∀ w, w = Match ∨ w = Mismatch → worst_loop w vs =
    if decide (Indeterminate ∈ vs) then Indeterminate else if decide (Mismatch ∈ vs) then Mismatch else w) as Hw.
  { induction vs as [|x vs IH]; intros w Hw; cbn [worst_loop]; [done|].
    destruct (decide (x = Indeterminate)) as [->|Hi]; [by rewrite decide_True by set_solver|].
    rewrite (decide_ext (Indeterminate ∈ x :: vs) (Indeterminate ∈ vs)) by set_solver.
    destruct (decide (x = Mismatch)) as [->|Hm]; rewrite IH by auto.
    - destruct (decide (Indeterminate ∈ vs)); [done|]. rewrite (decide_True (P := Mismatch ∈ Mismatch :: vs)) by set_solver.
      by destruct (decide (Mismatch ∈ vs)).
    - by rewrite (decide_ext (Mismatch ∈ x :: vs) (Mismatch ∈ vs)) by set_solver. }
  apply Hw. by left.
Qed.

Lemma ExitCode_zero v : ExitCode v = 0 ↔ v = Match.
Proof. unfold ExitCode. destruct (decide (v = Match)); [done|]. by destruct (decide (v = Mismatch)). Qed.

Definition is_verdict (v : Verdict) : Prop := v = Match ∨ v = Mismatch ∨ v = Indeterminate.

Lemma Worst_verdict vs : is_verdict (Worst vs).
Proof. rewrite Worst_cases. unfold is_verdict. repeat case_decide; auto. Qed.

Lemma Worst_Match vs : Forall is_verdict vs → Worst vs = Match ↔ Forall (λ v, v = Match) vs.
Proof.
  intros Hv. rewrite Worst_cases, !Forall_forall in *. repeat case_decide; split; try done.
  - intros Ha. by specialize (Ha _ ltac:(eassumption)).
  - intros Ha. by specialize (Ha _ ltac:(eassumption)).
  - intros _ v Hin. destruct (Hv v Hin) as [?|[E|E]]; subst; done.
Qed.

Lemma ExitCode_one v : 1 = ExitCode v → v = Mismatch.
Proof. unfold ExitCode. destruct (decide (v = Match)); [done|]. by destruct (decide (v = Mismatch)). Qed.

Lemma Worst_Mismatch vs : Worst vs = Mismatch → Mismatch ∈ vs.
Proof. rewrite Worst_cases. by repeat case_decide. Qed.

Lemma Worst_one v : is_verdict v → Worst [v] = v.
Proof. intros [H|[H|H]]; by subst. Qed.

(** ** Assessing *)

Lemma overCap_within {n} (totals funded carryIn : vec (option Z) n) t0 :
  overCap t0 (vec_to_list totals) (vec_to_list funded) (vec_to_list carryIn) = Ok None →
  ∀ t, ∃ x f c, totals !!! t = Some x ∧ funded !!! t = Some f ∧ carryIn !!! t = Some c ∧ x ≤ f + c.
Proof.
  revert t0 funded carryIn. induction totals as [|x n totals IH]; intros t0 funded carryIn H t; [inv_fin t|].
  revert H. inv_vec funded; intros f funded. inv_vec carryIn; intros c carryIn. cbn.
  destruct x as [x|], f as [f|], c as [c|]; try done. destruct (Z.ltb_spec (f + c) x); [done|]. intros H'.
  inv_fin t; [by exists x, f, c|]. intros t. by apply (IH (S t0)).
Qed.

Lemma assertCapOver_pass totals funded carryIn a :
  assertCapOver totals funded carryIn = Ok a → as_Status a ≠ Fail_ → within_cap totals funded carryIn.
Proof.
  unfold assertCapOver. intros (o & Ho & Ha)%bind_Ok Hs. injection Ha as <-.
  destruct o as [t|]; [done|]. intros t. by eapply overCap_within.
Qed.

(** A MATCH is never a guess: even over amounts that may be nil it means what it says. *)
Lemma Assess_Match rc po expected a :
  Assess rc po expected = Ok a → as_Verdict a = Match → matches rc po expected.
Proof.
  unfold Assess, matches. destruct (po_HasRoot po).
  { intros (b & Hb & Ha)%bind_Ok. injection Ha as <-. unfold assessPosted, assertCap in Hb.
    apply bind_Ok in Hb as (cap & Hcap & Hb). injection Hb as <-.
    destruct (assertRoot_spec rc po) as [_ Hrs], (assertTotals_spec (rc_Totals rc) (po_Totals po)) as [_ Hts],
      (assertCarryIn_spec rc (po_CarryIn po)) as [_ His].
    pose proof (assertCapOver_pass _ _ _ _ Hcap) as Hcs.
    destruct expected as [e|]; cbn [from_option].
    - destruct (assertExpected_spec e (po_Root po)) as [_ Hes]. unfold withExpected. rewrite fromAssertions_Match.
      cbn [as_Assertions fromAssertions app]. rewrite !Forall_cons, Hrs, Hts, His, Hes. tauto.
    - rewrite fromAssertions_Match, !Forall_cons, Hrs, Hts, His. tauto. }
  destruct (po_Skipped po).
  { destruct expected as [e|]; intros [= <-]; unfold withExpected, assessSkipped; rewrite fromAssertions_Match;
      cbn [as_Assertions fromAssertions app]; destruct (rc_HasRoot rc); rewrite !Forall_cons; cbn [as_Status]; intros;
      destruct_and?; done. }
  destruct expected as [e|].
  - unfold assessExpected. destruct (rc_HasRoot rc); cbn [negb].
    + intros (cap & Hcap & Ha)%bind_Ok. injection Ha as <-. rewrite fromAssertions_Match, !Forall_cons.
      intros (Hr & _ & Hc & _). pose proof (assertCapOver_pass _ _ _ _ Hcap Hc).
      destruct (decide (rc_Root rc = e)); done.
    + intros [= <-]. rewrite fromAssertions_Match, !Forall_cons. cbn [as_Status]. intros [? _]. done.
  - destruct (rc_HasRoot rc); intros [= <-]; done.
Qed.

Lemma Assess_is_verdict rc po expected a : Assess rc po expected = Ok a → is_verdict (as_Verdict a).
Proof.
  intros HA. destruct (Assess_from rc po expected a HA) as [(H1 & H2 & -> & H4)|[l ->]].
  - unfold Assess in HA. rewrite H1, H2, H4 in HA. injection HA as <-. by right; right.
  - destruct (fromAssertions_verdict l) as [->| ->]; [by left|by right; left].
Qed.

Lemma assess_Ok r expected doc : assess r expected = Ok doc →
  ∃ a, Assess (engineRecompute r) (enginePosted r) expected = Ok a ∧ doc = epochDoc r expected a.
Proof. intros (a & Ha & Hd)%bind_Ok. injection Hd as <-. by exists a. Qed.

Lemma assess_is_verdict r expected doc : assess r expected = Ok doc → is_verdict (ed_Verdict doc).
Proof. intros (a & Ha & ->)%assess_Ok. by eapply Assess_is_verdict. Qed.

Lemma assess_Match r expected doc : assess r expected = Ok doc → ed_Verdict doc = Match →
  matches (engineRecompute r) (enginePosted r) expected.
Proof. intros (a & Ha & ->)%assess_Ok Hv. by eapply Assess_Match. Qed.

(** The Expectation of the [i]-th of [n] Results. *)
Definition expectationOf (opts : cmdOptions) (n i : nat) : option Hash := if (i =? n - 1)%nat then fo_expect opts else None.

Definition addEpochs (docs : list EpochDoc) (s : runState) : runState :=
  mkRunState (withEpochs (rep_Epochs (rs_report s) ++ docs) (rs_report s)) (rs_wire s) (rs_engine s).

Lemma addEpochs_nil s : addEpochs [] s = s.
Proof. unfold addEpochs. rewrite app_nil_r. by destruct s as [[] ? ?]. Qed.

Lemma assessSteps_Ok opts n rs i s vs s' :
  mapS (assessStep opts n) (zip (seq i (length rs)) rs) s = (Ok vs, s') ↔
  ∃ docs, traverseI (λ j r, assess r (expectationOf opts n j)) i rs = Ok docs ∧
    vs = ed_Verdict <$> docs ∧ s' = addEpochs docs s.
Proof.
  revert i s vs s'. induction rs as [|r rs IH]; intros i s vs s'; cbn [length seq zip_with mapS traverseI].
  { split; [intros [= <- <-]; exists []; by rewrite addEpochs_nil|]. intros (docs & [= <-] & -> & ->). by rewrite addEpochs_nil. }
  rewrite step_Ok. split.
  - intros (v & s1 & H1 & H2). apply step_Ok in H2 as (vs' & s2 & H2 & [= <- <-]).
    unfold assessStep in H1. apply step_Ok in H1 as (doc & s3 & [Hdoc ->]%total_Ok & H1). injection H1 as <- <-.
    apply IH in H2 as (docs & Hdocs & -> & ->). exists (doc :: docs). change (assess r (expectationOf opts n i) = Ok doc) in Hdoc. rewrite Hdoc. cbn [mbind Res_bind].
    rewrite Hdocs. split; [done|]. split; [done|]. unfold addEpochs. cbn. by rewrite <-app_assoc.
  - intros (docs & Hdocs & -> & ->). apply bind_Ok in Hdocs as (doc & Hdoc & Hdocs).
    apply bind_Ok in Hdocs as (docs' & Hdocs & [= <-]).
    exists (ed_Verdict doc), (addEpochs [doc] s). split.
    + unfold assessStep. apply step_Ok. exists doc, s. split; [by apply total_Ok|done].
    + apply step_Ok. exists (ed_Verdict <$> docs'), (addEpochs docs' (addEpochs [doc] s)). split; [apply IH; by exists docs'|].
      unfold addEpochs. cbn. rewrite <-app_assoc. done.
Qed.

(** ** The body of verifier.epoch *)

Section run.
Context (mc : Machine) (dep : Deployment).

(** The --artifacts section, if there is to be one. *)
Definition bundleDoc (opts : cmdOptions) (results : list EngineResult) : Res Empty_set (option ArtifactsDoc) :=
  if decide (fo_artifacts opts = EmptyString) then Ok None
  else match last results with
       | None => Fault GoPanic
       | Some r => Some <$> compareArtifacts (mc_files mc) (mc_artifactText mc) (fo_artifacts opts) r
       end.

(** The Report once the Epochs are assessed. *)
Definition judged (docs : list EpochDoc) (rep : ReportDoc) : ReportDoc :=
  let rep := withVerdict (Worst (ed_Verdict <$> docs)) (withEpochs (rep_Epochs rep ++ docs) rep) in
  match last (rep_Epochs rep) with
  | Some target => if decide (ed_Reason target = EmptyString) then rep else withReason (ed_Reason target) rep
  | None => rep
  end.
Definition bundled (a : option ArtifactsDoc) (rep : ReportDoc) : ReportDoc :=
  match a with Some a => withArtifacts (Some a) rep | None => rep end.

Lemma artifactsStep_Ok opts results s u s' : artifactsStep mc opts results s = (Ok u, s') ↔
  ∃ a, bundleDoc opts results = Ok a ∧ s' = mkRunState (bundled a (rs_report s)) (rs_wire s) (rs_engine s).
Proof.
  unfold artifactsStep, bundleDoc. destruct u. destruct (decide (fo_artifacts opts = EmptyString)).
  { split; [intros [= <-]; exists None; split; [done|by destruct s]|]. intros (a & [= <-] & ->). by destruct s. }
  destruct (last results) as [r|]; [|split; [done|by intros (a & ? & _)]]. rewrite step_Ok. split.
  - intros (doc & s1 & [Hdoc ->]%total_Ok & [= <-]). rewrite Hdoc. by exists (Some doc).
  - intros (a & (doc & Hdoc & <-)%fmap_Ok & ->). exists doc, s. split; [by apply total_Ok|done].
Qed.

Lemma epochBody_Ok opts id s u s' : epochBody mc opts id s = (Ok u, s') ↔
  ∃ results s1 docs a, recompute mc opts id s = (Ok results, s1) ∧
    traverseI (λ j r, assess r (expectationOf opts (length results) j)) 0 results = Ok docs ∧
    rep_Epochs (rs_report s1) ++ docs ≠ [] ∧ bundleDoc opts results = Ok a ∧
    s' = mkRunState (bundled a (judged docs (rs_report s1))) (rs_wire s1) (rs_engine s1).
Proof.
  unfold epochBody. rewrite step_Ok. split.
  - intros (results & s1 & Hres & H). apply step_Ok in H as (vs & s2 & H2 & H).
    apply assessSteps_Ok in H2 as (docs & Hdocs & -> & ->). apply step_Ok in H as ([] & s3 & [= <-] & H).
    apply step_Ok in H as (epochs & s4 & [= <- <-] & H). cbn [rs_report addEpochs rep_Epochs withEpochs withVerdict] in H.
    destruct (last (rep_Epochs (rs_report s1) ++ docs)) as [target|] eqn:Hlast; [|done].
    apply step_Ok in H as ([] & s5 & H5 & H). apply artifactsStep_Ok in H as (a & Ha & ->).
    exists results, s1, docs, a. split_and!; [done|done| |done|].
    { intros Hnil. by rewrite Hnil in Hlast. }
    unfold judged. cbn [withVerdict withEpochs rep_Epochs]. rewrite Hlast.
    destruct (decide _); injection H5 as <-; done.
  - intros (results & s1 & docs & a & Hres & Hdocs & Hne & Ha & ->). exists results, s1. split; [done|].
    apply step_Ok. exists (ed_Verdict <$> docs), (addEpochs docs s1). split; [apply assessSteps_Ok; by exists docs|].
    apply step_Ok. eexists (), _. split; [done|]. apply step_Ok. eexists _, _. split; [done|].
    unfold judged. cbn [rs_report addEpochs rep_Epochs withEpochs withVerdict].
    destruct (last (rep_Epochs (rs_report s1) ++ docs)) as [target|] eqn:Hlast; [|by apply last_None in Hlast].
    apply step_Ok. destruct (decide (ed_Reason target = EmptyString)).
    + eexists (), _. split; [done|]. destruct u. apply artifactsStep_Ok. by exists a.
    + eexists (), _. split; [done|]. destruct u. apply artifactsStep_Ok. by exists a.
Qed.

(** ** Connecting *)

Definition chainConfig (opts : cmdOptions) : Config :=
  mkConfig (fo_rpc opts) (dp_Token dep) (dp_Distributor dep) (dp_PonsFactory dep) (fo_rate opts) 0.

Definition connectedReport (r : chainReader) (tip : Tip) (rep : ReportDoc) : ReportDoc :=
  withRun (withTip (mkTipDoc (b_Number (tip_Block tip)) (HashString (b_Hash (tip_Block tip))) (tip_Lag tip))
    (withEndpoints (endpointLabels r) (rep_Run rep))) rep.

(** The Engine a run binds. *)
Definition boundEngine (r : chainReader) (tip : Tip) (dir : string) (fresh : bool) : Engine :=
  mkEngine (readerOf (mc_keccak256 mc) (mc_server mc) (mc_schedule mc) r) tip dir dep (mkEngineOptions DefaultSyncChunk fresh).

(** How a run has connected. *)
Record connects (opts : cmdOptions) (w0 : wireState) (r : chainReader) (tip : Tip) (dir : string) (w : wireState) : Prop := Connects {
  cn_deployment : CheckDeployment dep = Ok ();
  cn_reader : ChainNew (mc_urlParse mc) (chainConfig opts) = Ok r;
  cn_network : ∃ w1, ChainID (mc_server mc) (mc_schedule mc) r w0 = (Ok (dp_ChainID dep), w1) ∧
    Head (mc_server mc) (mc_schedule mc) r (fo_finality opts) w1 = (Ok tip, w);
  cn_dir : CacheDir (mc_XDG_CACHE_HOME mc) (mc_UserHomeDir mc) (dp_ChainID dep) (dp_Token dep) = Ok dir;
}.

Lemma ChainNew_fields parseURL cfg r : ChainNew parseURL cfg = Ok r →
  cr_token r = cfg_Token cfg ∧ cr_distributor r = cfg_Distributor cfg ∧ cr_factory r = cfg_PonsFactory cfg ∧
  endpoints r = length (cfg_Endpoints cfg) ∧ (0 < endpoints r)%nat.
Proof using Type.
  unfold ChainNew. destruct (Nat.eqb_spec (length (cfg_Endpoints cfg)) 0) as [|Hne]; [done|].
  destruct (float_lt _ _); [done|]. intros (es & Hes & H)%bind_Ok. repeat (case_match; [done|]). injection H as <-.
  unfold endpoints. cbn. apply traverseI_Ok in Hes as [Hes _]. split_and!; try done; lia.
Qed.

Lemma Clean_nonempty s : Clean s ≠ EmptyString.
Proof using Type. unfold Clean. cbn zeta. destruct (isRooted s); [done|]. by case_decide. Qed.

Lemma CacheDir_nonempty xdg home id token dir : CacheDir xdg home id token = Ok dir → dir ≠ EmptyString.
Proof using Type.
  unfold CacheDir. intros (base & _ & [= <-])%bind_Ok. unfold Join.
  repeat (case_decide; try apply Clean_nonempty); done.
Qed.

Lemma EngineNew_bound opts w0 r tip dir w : connects opts w0 r tip dir w →
  EngineNew (Some (readerOf (mc_keccak256 mc) (mc_server mc) (mc_schedule mc) r)) tip dir dep (mkEngineOptions 0 (fo_fresh opts)) =
  Ok (boundEngine r tip dir (fo_fresh opts)).
Proof using Type.
  intros [Hd Hr _ Hdir]. destruct (ChainNew_fields _ _ _ Hr) as (Ht & Hdi & Hf & _).
  unfold EngineNew. rewrite Hd. cbn [mbind Res_bind readerOf rd_Token rd_Distributor rd_PonsFactory].
  rewrite !bool_decide_eq_true_2 by done. cbn [negb orb]. by rewrite decide_False by by eapply CacheDir_nonempty.
Qed.

Lemma connect_Ok opts s u s' : connect mc dep opts s = (Ok u, s') ↔
  ∃ r tip dir w, connects opts (rs_wire s) r tip dir w ∧
    s' = withEngine (connectedReport r tip (rs_report s)) (boundEngine r tip dir (fo_fresh opts))
           (newEngineState (mc_cacheFile mc dir) w).
Proof using Type.
  destruct u. unfold connect. rewrite step_Ok. split.
  - intros ([] & s1 & [Hd%wrap_Ok ->]%lift_Ok & H). apply step_Ok in H as (r & s2 & [Hr%wrap_Ok ->]%lift_Ok & H).
    apply step_Ok in H as ([] & s3 & [= <-] & H). apply step_Ok in H as (id & s4 & (w1 & Hid & ->)%onWire_Ok & H).
    destruct (Z.eqb_spec id (dp_ChainID dep)) as [->|]; cbn [negb] in H; [|done].
    apply step_Ok in H as (tip & s5 & (w & Htip & ->)%onWire_Ok & H). apply step_Ok in H as ([] & s6 & [= <-] & H).
    apply step_Ok in H as (dir & s7 & [Hdir ->]%lift_Ok & H).
    cbn [rs_wire rs_report rs_engine] in *.
    assert (connects opts (rs_wire s) r tip dir w) as Hc by (split; eauto).
    apply step_Ok in H as (e & s9 & [He%wrap_Ok ->]%lift_Ok & [= <-]).
    rewrite (EngineNew_bound _ _ _ _ _ _ Hc) in He. injection He as <-. by exists r, tip, dir, w.
  - intros (r & tip & dir & w & Hc & ->). pose proof Hc as [Hd Hr (w1 & Hid & Htip) Hdir].
    exists (), s. split; [by rewrite lift_Ok, Hd|]. apply step_Ok. exists r, s. split; [by apply lift_Ok; rewrite wrap_Ok|].
    apply step_Ok. eexists (), _. split; [done|]. apply step_Ok. eexists _, _. split; [by apply onWire_Ok; eauto|].
    rewrite Z.eqb_refl. cbn [negb]. apply step_Ok. eexists _, _. split; [by apply onWire_Ok; eauto|].
    apply step_Ok. eexists (), _. split; [done|]. apply step_Ok. eexists _, _. split; [by apply lift_Ok|].
    apply step_Ok. eexists _, _. cbn [rs_wire].
    split; [apply lift_Ok; split; [apply wrap_Ok; by eapply EngineNew_bound|reflexivity]|]. done.
Qed.

(** ** A whole run *)

Lemma recompute_Ok opts id rep e es1 results s' :
  recompute mc opts id (withEngine rep e es1) = (Ok results, s') ↔
  ∃ es, s' = withEngine rep e es ∧
    if fo_chain opts then Walk (mc_keccak256 mc) e id es1 = (Ok results, es)
    else ∃ one, EngineCompute (mc_keccak256 mc) e id es1 = (Ok one, es) ∧ results = [one].
Proof using Type.
  unfold recompute. destruct (fo_chain opts).
  - rewrite onEngine_with. naive_solver.
  - rewrite step_Ok. split.
    + intros (one & s1 & (es & H & ->)%onEngine_with & [= <- <-]). exists es. eauto.
    + intros (es & -> & one & H & ->). exists one, (withEngine rep e es). split; [|done].
      apply onEngine_with. by exists es.
Qed.

(** The Report of a run that assessed these Epochs. *)
Definition finalReport (cmd : command) (r : chainReader) (tip : Tip) (docs : list EpochDoc) (a : option ArtifactsDoc)
    (es : EngineState) : ReportDoc :=
  let rep := bundled a (judged docs (connectedReport r tip (initialReport dep cmd))) in
  match st_synced es with
  | Some synced => withRun (withCache (cacheDoc synced) (rep_Run rep)) rep
  | None => rep
  end.

Lemma reportCache_report rep e es :
  rs_report (reportCache (withEngine rep e es)) =
  match st_synced es with Some synced => withRun (withCache (cacheDoc synced) (rep_Run rep)) rep | None => rep end.
Proof using Type. unfold reportCache. cbn. by destruct (st_synced es). Qed.

(** What the Engine recomputed, from its state [es1]. *)
Definition recomputed (opts : cmdOptions) (e : Engine) (id : Z) (es1 : EngineState) (results : list EngineResult)
    (es : EngineState) : Prop :=
  if fo_chain opts then Walk (mc_keccak256 mc) e id es1 = (Ok results, es)
  else ∃ one, EngineCompute (mc_keccak256 mc) e id es1 = (Ok one, es) ∧ results = [one].

(** What is made of the Results. *)
Definition assessedAs (opts : cmdOptions) (results : list EngineResult) (docs : list EpochDoc) (a : option ArtifactsDoc) : Prop :=
  traverseI (λ j r, assess r (expectationOf opts (length results) j)) 0 results = Ok docs ∧ docs ≠ [] ∧
  bundleDoc opts results = Ok a.

Lemma verifyEpoch_Ok opts id rep e es1 s' : rep_Epochs rep = [] →
  verifyEpoch mc opts id (withEngine rep e es1) = (Ok (), s') ↔
  ∃ results es docs a, recomputed opts e id es1 results es ∧ assessedAs opts results docs a ∧
    s' = reportCache (withEngine (bundled a (judged docs rep)) e es).
Proof using Type.
  intros Hnil. unfold verifyEpoch. destruct (epochBody mc opts id _) as [res s2] eqn:E. split.
  - intros [= -> <-]. apply epochBody_Ok in E as (results & s1 & docs & a & Hres & Hdocs & Hne & Ha & ->).
    apply recompute_Ok in Hres as (es & -> & Hres). cbn [rs_report withEngine] in Hne. rewrite Hnil in Hne.
    exists results, es, docs, a. by split_and!.
  - intros (results & es & docs & a & Hres & (Hdocs & Hne & Ha) & ->).
    assert (epochBody mc opts id (withEngine rep e es1) =
      (Ok (), withEngine (bundled a (judged docs rep)) e es)) as Hb.
    { apply epochBody_Ok. exists results, (withEngine rep e es), docs, a. cbn [rs_report withEngine]. rewrite Hnil.
      split_and!; try done. apply recompute_Ok. by exists es. }
    rewrite Hb in E. by injection E as <- <-.
Qed.

(** How a run got to its Results. *)
Record computes (cmd : command) (r : chainReader) (tip : Tip) (dir : string) (w : wireState) (id : Z)
    (results : list EngineResult) (es : EngineState) : Prop := Computes {
  cp_connects : connects (cm_options cmd) newWire r tip dir w;
  cp_results : let e := boundEngine r tip dir (fo_fresh (cm_options cmd)) in
    let es0 := newEngineState (mc_cacheFile mc dir) w in
    ∃ es1, (if decide (cm_name cmd = "latest"%string) then LatestRoot e es0 = (Ok id, es1)
            else id = cm_epochID cmd ∧ es1 = es0) ∧ recomputed (cm_options cmd) e id es1 results es;
}.

(** A command other than sync that ends without an error, and the Report it leaves. *)
Lemma execute_Ok cmd s' : cm_name cmd ≠ "sync"%string →
  execute mc dep cmd (initialState dep cmd) = (Ok (), s') →
  ∃ r tip dir w id results es docs a, computes cmd r tip dir w id results es ∧
    assessedAs (cm_options cmd) results docs a ∧ rs_report s' = finalReport cmd r tip docs a es.
Proof using Type.
  intros Hname H. unfold execute in H. rewrite decide_False in H by done.
  apply step_Ok in H as ([] & s1 & Hc & H). apply connect_Ok in Hc as (r & tip & dir & w & Hc & ->).
  cbn [rs_report initialState] in H.
  assert (∃ id es1, (if decide (cm_name cmd = "latest"%string)
      then LatestRoot (boundEngine r tip dir (fo_fresh (cm_options cmd))) (newEngineState (mc_cacheFile mc dir) w) = (Ok id, es1)
      else id = cm_epochID cmd ∧ es1 = newEngineState (mc_cacheFile mc dir) w) ∧
    verifyEpoch mc (cm_options cmd) id (withEngine (connectedReport r tip (initialReport dep cmd))
      (boundEngine r tip dir (fo_fresh (cm_options cmd))) es1) = (Ok (), s')) as (id & es1 & Hid & Hv).
  { destruct (decide (cm_name cmd = "latest"%string)); [|by eexists _, _].
    apply step_Ok in H as (id & s2 & H2 & H). apply onEngine_with in H2 as (es1 & H2 & ->).
    by exists id, es1. }
  apply verifyEpoch_Ok in Hv as (results & es & docs & a & Hres & Ha & ->); [|done].
  exists r, tip, dir, w, id, results, es, docs, a. split; [split; [done|by exists es1]|]. split; [done|]. apply reportCache_report.
Qed.

Lemma execute_runs cmd r tip dir w id results es docs a : cm_name cmd ≠ "sync"%string →
  computes cmd r tip dir w id results es → assessedAs (cm_options cmd) results docs a →
  ∃ s', execute mc dep cmd (initialState dep cmd) = (Ok (), s') ∧ rs_report s' = finalReport cmd r tip docs a es.
Proof using Type.
  intros Hname [Hc (es1 & Hid & Hres)] Ha.
  exists (reportCache (withEngine (bundled a (judged docs (connectedReport r tip (initialReport dep cmd))))
      (boundEngine r tip dir (fo_fresh (cm_options cmd))) es)). split; [|apply reportCache_report].
  unfold execute. rewrite decide_False by done. apply step_Ok. eexists (), _.
  split; [apply connect_Ok; exists r, tip, dir, w; by split|]. cbn [rs_report rs_wire initialState].
  assert (verifyEpoch mc (cm_options cmd) id (withEngine (connectedReport r tip (initialReport dep cmd))
    (boundEngine r tip dir (fo_fresh (cm_options cmd))) es1) =
    (Ok (), reportCache (withEngine (bundled a (judged docs (connectedReport r tip (initialReport dep cmd))))
      (boundEngine r tip dir (fo_fresh (cm_options cmd))) es))) as Hv.
  { apply verifyEpoch_Ok; [done|]. by exists results, es, docs, a. }
  destruct (decide (cm_name cmd = "latest"%string)).
  - apply step_Ok. eexists id, _. split; [apply onEngine_with; by exists es1|exact Hv].
  - destruct Hid as [-> ->]. exact Hv.
Qed.

(** ** The exit status *)

Lemma judged_verdict docs a es cmd r tip : rep_Verdict (finalReport cmd r tip docs a es) = Worst (ed_Verdict <$> docs).
Proof using Type.
  unfold finalReport, judged. cbn zeta. destruct (st_synced es); destruct a; cbn; repeat case_match; done.
Qed.

Lemma judged_epochs docs a es cmd r tip : rep_Epochs (finalReport cmd r tip docs a es) = docs.
Proof using Type.
  unfold finalReport, judged. cbn zeta. destruct (st_synced es); destruct a; cbn; repeat case_match; done.
Qed.

Lemma judged_tip docs a es cmd r tip : td_Number <$> rd_Tip (rep_Run (finalReport cmd r tip docs a es)) = Some (b_Number (tip_Block tip)).
Proof using Type.
  unfold finalReport, judged. cbn zeta. destruct (st_synced es); destruct a; cbn; repeat case_match; done.
Qed.

Lemma judged_rate docs a es cmd r tip : rd_CallsPerSecond (rep_Run (finalReport cmd r tip docs a es)) = fo_rate (cm_options cmd).
Proof using Type.
  unfold finalReport, judged. cbn zeta. destruct (st_synced es); destruct a; cbn; repeat case_match; done.
Qed.

(** A Report that can be written, and a stdout to write it to. *)
Definition stdout_ok (opts : cmdOptions) : Prop :=
  mc_stdoutFails mc = false ∧ (fo_json opts = true → is_finite (fo_rate opts) = true).

(** Exit 0 and 1 are told by the Verdict, but for a sync that ended. *)
Lemma finish_decided opts rep : rep_Verdict rep ≠ EmptyString → oc_exit (finish mc opts rep) ≠ 2 →
  oc_exit (finish mc opts rep) = ExitCode (rep_Verdict rep) ∧ oc_report (finish mc opts rep) = Some rep.
Proof.
  intros Hv. unfold finish. cbn zeta. rewrite (decide_False _ _ Hv). destruct (fo_json opts); [|done].
  destruct (WriteJSON _ rep); [|done]. by destruct (mc_stdoutFails mc).
Qed.

Lemma finish_written opts rep : stdout_ok opts → rd_CallsPerSecond (rep_Run rep) = fo_rate opts →
  rep_Verdict rep ≠ EmptyString → oc_exit (finish mc opts rep) = ExitCode (rep_Verdict rep).
Proof using Type.
  intros [Hstdout Hjson] Hrate Hv. unfold finish. cbn zeta. rewrite (decide_False _ _ Hv), Hstdout.
  destruct (fo_json opts); [|done]. unfold WriteJSON. by rewrite Hrate, Hjson.
Qed.

Lemma Worst_nonempty vs : Worst vs ≠ EmptyString.
Proof. destruct (Worst_verdict vs) as [->|[->| ->]]; done. Qed.

Lemma verdicts_ok opts results docs a : assessedAs opts results docs a → Forall is_verdict (ed_Verdict <$> docs).
Proof.
  intros (Hd & _). apply Forall_fmap, Forall_forall. apply traverseI_Ok in Hd as [Hlen Hd].
  intros d [j Hj]%list_elem_of_lookup.
  destruct (lookup_lt_is_Some_2 results j) as [x Hx]; [rewrite <-Hlen; by eapply lookup_lt_Some|].
  destruct (Hd j x Hx) as (d' & Hd' & Ha). rewrite Hj in Hd'. injection Hd' as <-. by eapply assess_is_verdict.
Qed.

Lemma settled_verdict err s : rep_Verdict (withReason (mc_errorText mc err) (withVerdict Indeterminate (rs_report s))) ≠ EmptyString.
Proof. done. Qed.

(** A run that does not exit 2 has assessed its Epochs. *)
Lemma runCommand_decided cmd out : cm_name cmd ≠ "sync"%string → runCommand mc dep cmd = Ok out → oc_exit out ≠ 2 →
  ∃ r tip dir w id results es docs a, computes cmd r tip dir w id results es ∧ assessedAs (cm_options cmd) results docs a ∧
    oc_exit out = ExitCode (Worst (ed_Verdict <$> docs)) ∧ oc_report out = Some (finalReport cmd r tip docs a es).
Proof.
  intros Hname. unfold runCommand. destruct (execute mc dep cmd (initialState dep cmd)) as [[[]|err|x] s] eqn:E; cbn [settle]; [| |done].
  - intros [= <-] Hexit. apply execute_Ok in E as (r & tip & dir & w & id & results & es & docs & a & Hcp & Ha & Hrep); [|done].
    exists r, tip, dir, w, id, results, es, docs, a. rewrite Hrep in Hexit |- *. rewrite <-(judged_verdict docs a es cmd r tip).
    split; [done|]. split; [done|]. apply finish_decided; [|done]. rewrite judged_verdict. apply Worst_nonempty.
  - intros [= <-] Hexit. destruct (finish_decided _ _ (settled_verdict err s) Hexit) as [H _]. by rewrite H in Hexit.
Qed.

(** An error ends in exit 2, with the Report that says so. *)
Lemma finish_settled opts err s : let rep := withReason (mc_errorText mc err) (withVerdict Indeterminate (rs_report s)) in
  oc_exit (finish mc opts rep) = 2 ∧ oc_report (finish mc opts rep) = Some rep.
Proof using Type.
  cbn zeta. unfold finish. destruct (fo_json opts); [|done]. destruct (WriteJSON _ _); [|done]. by destruct (mc_stdoutFails mc).
Qed.

(** A Deployment that is not pinned is the first thing a run finds. *)
Lemma unpinned_run args : CheckDeployment dep ≠ Ok () → ∃ out, run mc dep args = Ok out ∧ oc_exit out = 2.
Proof using Type.
  intros Hd. unfold run. destruct (parse (mc_ParseFloat mc) args) as [cmd|err|x] eqn:Hp; [|by eexists|by apply parse_faults in Hp].
  unfold runCommand, execute, connect. destruct (CheckDeployment dep) as [[]|err|x] eqn:E; [done| |].
  - eexists. split; [reflexivity|]. apply finish_settled.
  - by unfold CheckDeployment in E; destruct (_ || _).
Qed.
End run.
