(* ===== verification/RunTruth.v ===== *)
(** * What a run's Engine can have computed

    The Reader of a run may fail, but what it answers is the chain's. Whatever its
    Engine then computes is what the rules give over that chain: an Epoch's Result, the
    links of a Walk, the newest standing Root. *)
From S2P Require Import Prelude Sorts Bytes Text Merkle Twab TwabSpec TwabLedger Alloc Chain Crc Cache CacheSpec CacheOps CacheSync StateMonad Reader Epoch RootStream EpochSpec EpochRefine EpochHistory EpochWalk Wire ChainReader WireSpec Honest ReaderSpec ReaderTruth ReaderLive ReaderServes Below ReaderIdeal Report ReportTheorems Render Artifacts Verify.

(** [chain_ok] and [ready] say nothing of the Reader. *)
Lemma chain_ok_reader e rd cv stack : chain_ok e cv stack → chain_ok (withReader rd e) cv stack.
Proof. intros H. split; apply H. Qed.

Lemma engine_ok_reader e rd cv s : engine_ok e cv s → engine_ok (withReader rd e) cv s.
Proof. intros H. split; apply H. Qed.

Lemma ready_reader e rd cv loaded s : ready e cv loaded s → ready (withReader rd e) cv loaded s.
Proof. intros [H ?]. split; [by apply engine_ok_reader|done]. Qed.

(** An Engine that has read nothing yet, over a file of this chain. *)
Lemma new_ready e cv disk w : disk_ok e cv disk → ready e cv false (newEngineState disk w).
Proof. intros H. split; [|done]. split; cbn; try done; by intros [? ?]. Qed.

(** Where there is no file, or it is not to be kept, there is nothing to get wrong. *)
Lemma fresh_disk e cv stack disk : chain_ok e cv stack → eo_Fresh (e_opts e) = true ∨ disk = [] → disk_ok e cv disk.
Proof.
  intros Hchain Hnew. exists (writeHeader (cacheOptions e false) (mkCache [] [] 0 zeroRecord (dp_TokenBlock (e_dep e)) 0 None)), (-1), [].
  split. { unfold Open_. by destruct Hnew as [-> | ->]; [|destruct (o_Fresh _)]. }
  split. { pose proof (co_tip _ _ _ Hchain). lia. }
  split; [constructor|]. rewrite app_nil_r, filter_none; [by split|].
  eapply Forall_impl; [exact (co_records _ _ _ Hchain)|]. intros r [Hr _]. destruct Hr. unfold is_u64 in *. lia.
Qed.

(** Below is what a call answers, if it answers. *)
Lemma below_answers {S E A} (I J : S → Prop) (m m' : StM S E A) r s a s' :
  below m m' → answers_to I J m' r → I s → m s = (Ok a, s') → r = Ok a ∧ J s'.
Proof.
  intros Hb Ha Hs H. destruct (Ha s Hs) as (s'' & H' & HJ). rewrite (Hb _ _ _ H) in H'. by injection H' as <- <-.
Qed.

(** A call that starts by looking for an end has found it. *)
Lemma end_found {A} (m : Wire Block) (f : Block → StM EngineState epochError A) s a s' :
  (b ← read m; f b) s = (Ok a, s') → ∃ b w, m (st_wire s) = (Ok b, w).
Proof.
  unfold mbind, StM_bind, read. destruct (m (st_wire s)) as [[b|x|x] w]; [by exists b, w|done..].
Qed.

Section truth.
Context (keccak256 : list byte → Hash) (e : Engine) (cv : ChainView) (stack : list RootPosted).
Context (Hans : answers_from (e_reader e) cv (e_tip e)) (Htip : tip_Block (e_tip e) = cv_block cv (tipNumber e)).
Context (Hchain : chain_ok e cv stack).

Definition idealEngine : Engine := withReader (completed (e_reader e) cv (e_tip e)) e.

Lemma ideal_extends : extends (e_reader e) (completed (e_reader e) cv (e_tip e)).
Proof using Hans. by apply completed_extends. Qed.

#[local] Instance ideal_reads : ReadsChain (e_reader idealEngine) cv (e_tip idealEngine).
Proof using Hans Htip Hchain. apply completed_reads; [done|apply (co_tip _ _ _ Hchain)|done]. Qed.

Lemma ideal_chain : chain_ok idealEngine cv stack.
Proof using Hchain. by apply chain_ok_reader. Qed.

(** An Epoch whose end the Reader found has closed under the tip. *)
Lemma end_closed id b w w' : rd_EndBlock (e_reader e) id (e_tip e) w = (Ok b, w') → closed_by idealEngine cv id.
Proof using Hans Htip Hchain.
  intros H. destruct (af_end _ _ _ Hans id _ _ _ H) as (k & Hk & -> & Hlt & Hle). clear H. fold (tipNumber e) in Hk. split.
  - change (w_End (WindowOf id) ≤ b_Timestamp (tip_Block (e_tip e))). rewrite Htip.
    etrans; [exact Hle|]. apply (co_times _ _ _ Hchain); lia.
  - eapply Z.le_lt_trans; [|exact Hlt]. apply (co_times _ _ _ Hchain); lia.
Qed.

Lemma LatestRoot_true loaded s id s' : ready e cv loaded s → LatestRoot e s = (Ok id, s') →
  rp_ID <$> head stack = Some id ∧ ready idealEngine cv loaded s'.
Proof using Hans Htip Hchain.
  intros Hs H. eapply below_answers in H as [Hh Hr];
    [|apply LatestRoot_below, ideal_extends|apply (answers_LatestRoot idealEngine cv stack ideal_chain loaded)|by apply ready_reader].
  split; [|exact Hr]. destruct (head stack); [|done]. by injection Hh as <-.
Qed.

Section epoch.
Context (loaded : bool) (id : Z) (Hid : epoch_ok id) (Hcomplete : history_ok (w_End (WindowOf id)) (chain_history e cv)).

Lemma Compute_true s r s' : ready idealEngine cv loaded s → EngineCompute keccak256 e id s = (Ok r, s') →
  ∃ r0 b, epoch_result keccak256 e cv stack id = Ok r0 ∧ r = setEndBlock b r0.
Proof using All.
  intros Hs H. destruct (end_found _ _ _ _ _ H) as (b0 & w0 & Hb0).
  destruct (closed_ends idealEngine cv stack ideal_chain id (end_closed id b0 _ _ Hb0)) as [b Hb].
  eapply below_answers in H as [Hr _]; [|apply EngineCompute_below, ideal_extends|
    apply (answers_Compute keccak256 idealEngine cv stack ideal_chain id Hid Hcomplete loaded id b);
      [destruct Hid; lia|exact Hb]|exact Hs].
  change (epoch_result keccak256 idealEngine cv stack id) with (epoch_result keccak256 e cv stack id) in Hr.
  destruct (epoch_result keccak256 e cv stack id) as [r0| |]; [|done..]. injection Hr as <-. by exists r0, b.
Qed.

(** Walk goes back no further than deploy. *)
Lemma Walk_from_deploy s results s' : ready idealEngine cv loaded s → Walk keccak256 e id s = (Ok results, s') →
  deploy_epoch (e_dep e) cv ≤ id.
Proof using All.
  intros Hs H. destruct (Z.le_gt_cases (deploy_epoch (e_dep e) cv) id) as [|Hlt]; [done|]. exfalso.
  destruct (end_found _ _ _ _ _ H) as (b & w0 & Hb). destruct (closed_ends idealEngine cv stack ideal_chain id (end_closed id b _ _ Hb)) as [b' [Hb' _]].
  assert (answers_to (ready idealEngine cv loaded) (ready idealEngine cv true) (Walk keccak256 idealEngine id)
    (Err (errPredates id (deploy_epoch (e_dep e) cv)))) as Hw; cycle 1.
  { by eapply below_answers in H as [Hr _]; [|apply Walk_below, ideal_extends|exact Hw|exact Hs]. }
  unfold Walk. eapply answers_to_step; [apply (answers_read idealEngine cv loaded _ _ Hb')|].
  eapply answers_to_step; [apply (answers_load idealEngine cv stack ideal_chain loaded)|]. apply answers_to_answers.
  eapply answers_step; [apply (answers_deployEpoch idealEngine cv stack ideal_chain)|].
  rewrite (proj2 (Z.ltb_lt _ _)) by exact Hlt. apply answers_throw.
Qed.

Lemma Walk_true s results s' : ready idealEngine cv loaded s → Walk keccak256 e id s = (Ok results, s') →
  ∃ links r0 b, traverse (epoch_result keccak256 e cv stack) (rooted_before e cv stack id) = Ok links ∧
    epoch_result keccak256 e cv stack id = Ok r0 ∧ results = links ++ [setEndBlock b r0].
Proof using All.
  intros Hs H. pose proof (Walk_from_deploy s results s' Hs H) as Hfirst.
  destruct (end_found _ _ _ _ _ H) as (b0 & w0 & Hb0). destruct (closed_ends idealEngine cv stack ideal_chain id (end_closed id b0 _ _ Hb0)) as [b Hb].
  eapply below_answers in H as [Hr _]; [|apply Walk_below, ideal_extends|
    apply (answers_Walk keccak256 idealEngine cv stack ideal_chain id Hid Hcomplete loaded id b);
      [destruct Hid; lia|exact Hfirst|exact Hb]|exact Hs].
  change (epoch_result keccak256 idealEngine cv stack) with (epoch_result keccak256 e cv stack) in Hr.
  change (rooted_before idealEngine cv stack id) with (rooted_before e cv stack id) in Hr.
  apply bind_Ok in Hr as (links & Hl & Hr). apply bind_Ok in Hr as (last & Hlast & [= <-]).
  destruct (epoch_result keccak256 e cv stack id) as [r0| |]; [|done..]. injection Hlast as <-. by exists links, r0, b.
Qed.
End epoch.
End truth.

(** ** The amounts an assessment compares *)

Lemma fold_funding_set cv l carry : all_set carry → all_set (foldl (add_funding cv) carry l).
Proof. revert carry. induction l as [|x l IH]; intros carry Hc; [done|]. apply IH, add_funding_set. Qed.

Lemma expected_carry_set keccak256 e cv stack target c from :
  expected_carry keccak256 e cv stack target = Ok (c, from) → all_set c.
Proof.
  intros ([[c0 j] src] & Hb & [= <- _])%bind_Ok. apply fold_funding_set. unfold carry_base in Hb.
  destruct (previous_of stack target) as [p|].
  - apply bind_Ok in Hb as (r & _ & [= <- _ _]). intros t. apply vmap_Some_each.
  - destruct (target <? _); [done|]. injection Hb as <- _ _. apply zeroAmounts_set.
Qed.

Lemma rebuilt_fields keccak256 e cv id posted expected from r : rebuilt keccak256 e cv id posted expected from = Ok r →
  er_EpochID r = id ∧ er_ExpectedCarryIn r = expected ∧ er_Funded r = lb_Funded (cv_ledger cv id) ∧ er_Posted r = posted ∧
  er_Skipped r = lb_Skipped (cv_ledger cv id).
Proof. unfold rebuilt. cbn zeta. by intros (hs & _ & (a & _ & (rows & _ & [= <-])%bind_Ok)%bind_Ok)%bind_Ok. Qed.

(** None of them is nil. *)
Lemma result_inputs keccak256 e cv stack id res : is_u64 id → chain_ok e cv stack →
  (∀ p, p ∈ cv_roots cv → all_set (rp_Totals p) ∧ all_set (rp_CarryIn p)) →
  epoch_result keccak256 e cv stack id = Ok res → inputs_set (engineRecompute res) (enginePosted res).
Proof.
  intros Hid Hchain Hroots ([c from] & Hc & Hr)%bind_Ok. apply rebuilt_fields in Hr as (_ & He & Hf & Hp & _).
  unfold inputs_set, engineRecompute, enginePosted. cbn [rc_Totals rc_ExpectedCarryIn]. rewrite He, Hp.
  split; [intros t; apply vmap_Some_each|]. split; [by eapply expected_carry_set|].
  destruct (standing_for stack id) as [p|] eqn:Es; cbn [po_Funded po_HasRoot po_Totals po_CarryIn]; rewrite Hf.
  - split; [apply (co_funded _ _ _ Hchain _ Hid)|]. intros _. apply Hroots, (stack_root _ _ _ Hchain).
    apply head_Some_elem_of, list_elem_of_filter in Es. tauto.
  - split; [apply (co_funded _ _ _ Hchain _ Hid)|done].
Qed.

(** Nor are those of a posted Root that a node serves. *)
Lemma view_roots_set keccak256 W r tip p : p ∈ cv_roots (view keccak256 W r tip) → all_set (rp_Totals p) ∧ all_set (rp_CarryIn p).
Proof.
  cbn [view cv_roots]. unfold events. intros (l & _ & Hl)%list_elem_of_omap.
  destruct (decodeRootPosted keccak256 l) as [q| |] eqn:E; [|done..]. injection Hl as <-.
  apply (decodeRootPosted_typed _ _ _ ∅) in E as (_ & Ht & Hc). cbn in Ht, Hc |- *.
  split; intros t; [destruct (Ht t) as (x & Hx & _)|destruct (Hc t) as (x & Hx & _)]; by eexists.
Qed.
