(* ===== verification/RunDocs.v ===== *)
(** * What a Report says of the chain

    [requested] is what a run is asked to verify; with one truthful endpoint every Epoch
    of the Report of a run that does not exit 2 is assessed as the rules assess it. *)
From S2P Require Import Prelude Sorts Bytes Text Json Paths Merkle Twab TwabSpec Alloc Chain Crc Cache CacheSpec CacheOps CacheSync StateMonad Reader Epoch RootStream EpochSpec EpochWalk Wire ChainReader WireSpec Honest ReaderSpec ReaderTruth ReaderLive ReaderServes Below ReaderIdeal Report ReportTheorems Render Artifacts Verify RunSpec RunTruth.

(** A tip on the chain. *)
Definition tip_of (W : World) (tip : Tip) : Prop :=
  0 ≤ b_Number (tip_Block tip) ≤ wo_head W ∧ tip_Block tip = wo_block W (b_Number (tip_Block tip)).

(** The Epochs a run verifies, each with the Root expected of it. *)
Definition requested (opts : cmdOptions) (e : Engine) (cv : ChainView) (stack : list RootPosted) (id : Z) : list (Z * option Hash) :=
  ((λ id', (id', None)) <$> (if fo_chain opts then rooted_before e cv stack id else [])) ++ [(id, fo_expect opts)].

Lemma requested_ids opts e cv stack id :
  (requested opts e cv stack id).*1 = (if fo_chain opts then rooted_before e cv stack id else []) ++ [id].
Proof.
  unfold requested. rewrite fmap_app, <-list_fmap_compose. cbn [fmap list_fmap fst]. f_equal.
  generalize (if fo_chain opts then rooted_before e cv stack id else []). intros l. induction l; cbn; by f_equal.
Qed.

(** The rules, applied to the chain, give an Epoch a Result that matches what is
    posted and expected, or one that does not. *)
Definition epoch_matches (keccak256 : list byte → Hash) (e : Engine) (cv : ChainView) (stack : list RootPosted)
    (q : Z * option Hash) : Prop :=
  ∃ res, epoch_result keccak256 e cv stack q.1 = Ok res ∧ matches (engineRecompute res) (enginePosted res) q.2.
Definition epoch_differs (keccak256 : list byte → Hash) (e : Engine) (cv : ChainView) (stack : list RootPosted)
    (q : Z * option Hash) : Prop :=
  ∃ res, epoch_result keccak256 e cv stack q.1 = Ok res ∧ ¬ matches (engineRecompute res) (enginePosted res) q.2.

(** What [Compute] and [Walk] leave of the rules' Result: only its end is added. *)
Definition result_at (keccak256 : list byte → Hash) (e : Engine) (cv : ChainView) (stack : list RootPosted)
    (id : Z) (x : EngineResult) : Prop :=
  is_u64 id ∧ ∃ res, epoch_result keccak256 e cv stack id = Ok res ∧
    engineRecompute x = engineRecompute res ∧ enginePosted x = enginePosted res.

(** What an Epoch of the Report says of the chain. *)
Definition doc_true (keccak256 : list byte → Hash) (e : Engine) (cv : ChainView) (stack : list RootPosted)
    (q : Z * option Hash) (d : EpochDoc) : Prop :=
  is_u64 q.1 ∧ ∃ res a, epoch_result keccak256 e cv stack q.1 = Ok res ∧
    Assess (engineRecompute res) (enginePosted res) q.2 = Ok a ∧ ed_Verdict d = as_Verdict a.

Lemma epoch_u64 id : epoch_ok id → is_u64 id.
Proof. unfold epoch_ok, is_u64, EpochSeconds. lia. Qed.

Lemma rooted_u64 e cv stack id : epoch_ok id → Forall is_u64 (rooted_before e cv stack id).
Proof.
  intros Hid%epoch_u64. apply Forall_forall. intros x [_ Hx%elem_of_seqZ]%list_elem_of_filter.
  assert (0 ≤ deploy_epoch (e_dep e) cv) by apply u64_range. unfold is_u64 in *. lia.
Qed.

Lemma links_at keccak256 e cv stack l links : Forall is_u64 l → traverse (epoch_result keccak256 e cv stack) l = Ok links →
  Forall2 (result_at keccak256 e cv stack) l links.
Proof.
  intros Hl Hlinks%traverse_Ok. induction Hlinks as [|x y l k Hxy _ IH]; [constructor|]. inversion Hl; subst.
  constructor; [split; [done|by exists y]|by apply IH].
Qed.

Section exit.
Context (mc : Machine) (dep : Deployment) (W : World) (HW : world_ok W).
Context (Hschedule : ∀ clock n, mc_schedule mc clock n ≡ₚ seq 0 n).
Context (i : nat) (Htrue : truthful W (mc_server mc) i).

Section connected.
Context (opts : cmdOptions) (Hi : (i < length (fo_rpc opts))%nat).
Context (w0 : wireState) (r : chainReader) (tip : Tip) (dir : string) (w : wireState).
Context (Hc : connects mc dep opts w0 r tip dir w).

Lemma connects_endpoint : (i < endpoints r)%nat.
Proof using Hi Hc. destruct (ChainNew_fields _ _ _ (cn_reader _ _ _ _ _ _ _ _ Hc)) as (_ & _ & _ & -> & _). exact Hi. Qed.

Lemma connects_truth : wo_chainID W = dp_ChainID dep ∧ tip_of W tip ∧ tip_Finality tip = fo_finality opts.
Proof using All.
  destruct (cn_network _ _ _ _ _ _ _ _ Hc) as (w1 & Hid & Htip). pose proof connects_endpoint as He.
  apply (ChainID_true W HW _ _ r i He Htrue) in Hid. apply (Head_true W HW _ _ r i He Htrue) in Htip. destruct Htip as (? & ? & ?). by split_and!.
Qed.

Lemma connects_answers : answers_from (readerOf (mc_keccak256 mc) (mc_server mc) (mc_schedule mc) r)
  (view (mc_keccak256 mc) W r (b_Number (tip_Block tip))) tip.
Proof using All.
  destruct connects_truth as (_ & [Hr Hb] & _).
  apply (readerOf_answers (mc_keccak256 mc) W HW (mc_server mc) (mc_schedule mc) r Hschedule i connects_endpoint Htrue tip Hr Hb).
Qed.
End connected.

Context (cmd : command) (Hi : (i < length (fo_rpc (cm_options cmd)))%nat).
Context (r : chainReader) (tip : Tip) (dir : string) (w : wireState) (id : Z) (results : list EngineResult) (es : EngineState).
Context (Hcomputes : computes mc dep cmd r tip dir w id results es).

Abbreviation opts := (cm_options cmd).
Abbreviation e := (boundEngine mc dep r tip dir (fo_fresh opts)).
Abbreviation cv := (view (mc_keccak256 mc) W r (b_Number (tip_Block tip))).

(** What the rules give for the Epochs of the run. *)
Lemma computes_true stack : chain_ok e cv stack → disk_ok e cv (mc_cacheFile mc dir) → epoch_ok id →
  history_ok (w_End (WindowOf id)) (chain_history e cv) →
  (cm_name cmd = "latest"%string → rp_ID <$> head stack = Some id) ∧
  Forall2 (result_at (mc_keccak256 mc) e cv stack) ((requested opts e cv stack id).*1) results.
Proof using HW Hschedule Htrue Hi Hcomputes.
  intros Hchain Hdisk Hid Hcomplete. destruct Hcomputes as [Hc (es1 & Htarget & Hres)].
  destruct (connects_truth opts Hi _ _ _ _ _ Hc) as (_ & [Hrange Hblock] & _).
  pose proof (connects_answers opts Hi _ _ _ _ _ Hc) as Hans. apply (new_ready _ _ _ w) in Hdisk.
  assert ((cm_name cmd = "latest"%string → rp_ID <$> head stack = Some id) ∧
    ready (idealEngine e cv) cv false es1) as [Hlatest Hready].
  { destruct (decide (cm_name cmd = "latest"%string)) as [Hl|Hl].
    - by destruct (LatestRoot_true e cv stack Hans Hblock Hchain false _ _ _ Hdisk Htarget).
    - destruct Htarget as [-> ->]. split; [done|]. by apply ready_reader. }
  split; [exact Hlatest|]. unfold recomputed in Hres. rewrite requested_ids. destruct (fo_chain opts).
  - destruct (Walk_true _ e cv stack Hans Hblock Hchain false id Hid Hcomplete es1 results es Hready Hres)
      as (links & r0 & b & Hl & Hr & ->).
    apply Forall2_app; [by apply links_at; [apply rooted_u64|]|]. constructor; [split; [by apply epoch_u64|by exists r0]|constructor].
  - destruct Hres as (one & Hone & ->).
    destruct (Compute_true _ e cv stack Hans Hblock Hchain false id Hid Hcomplete es1 one es Hready Hone) as (r0 & b & Hr & ->).
    constructor; [split; [by apply epoch_u64|by exists r0]|constructor].
Qed.
End exit.

(** The Expectation is for the last Epoch alone. *)
Lemma requested_expectation opts e cv stack id j q : requested opts e cv stack id !! j = Some q →
  expectationOf opts (length (requested opts e cv stack id)) j = q.2.
Proof.
  unfold requested, expectationOf. set (l := if fo_chain opts then _ else _). rewrite length_app, length_fmap. cbn [length].
  rewrite Nat.add_sub. intros [Hj|[Hj Hq]]%lookup_app_Some.
  - pose proof (lookup_lt_Some _ _ _ Hj) as Hlt. rewrite length_fmap in Hlt. rewrite (proj2 (Nat.eqb_neq _ _)) by lia.
    rewrite list_lookup_fmap in Hj. destruct (l !! j); [|done]. by injection Hj as <-.
  - rewrite length_fmap in Hj, Hq. destruct (j - length l)%nat eqn:E; [|done]. injection Hq as <-.
    by rewrite (proj2 (Nat.eqb_eq _ _)) by lia.
Qed.

(** Every Epoch of the Report says what the rules say. *)
Lemma docs_true mc opts keccak256 e cv stack id results docs a :
  Forall2 (result_at keccak256 e cv stack) ((requested opts e cv stack id).*1) results →
  assessedAs mc opts results docs a → Forall2 (doc_true keccak256 e cv stack) (requested opts e cv stack id) docs.
Proof.
  intros Hres (Hd & _). apply traverseI_Ok in Hd as [Hlen Hd]. pose proof (Forall2_length _ _ _ Hres) as Hreq.
  rewrite length_fmap in Hreq. apply Forall2_same_length_lookup_2; [by rewrite Hreq, Hlen|]. intros j q d Hq Hdoc.
  destruct (lookup_lt_is_Some_2 results j) as [x Hx]; [rewrite <-Hreq; by eapply lookup_lt_Some|].
  destruct (Hd j x Hx) as (d' & Hd' & Ha). rewrite Hdoc in Hd'. injection Hd' as <-. cbn [Nat.add] in Ha.
  rewrite <-Hreq, (requested_expectation _ _ _ _ _ _ _ Hq) in Ha. apply assess_Ok in Ha as (as_ & Has & ->).
  assert ((requested opts e cv stack id).*1 !! j = Some q.1) as Hq1 by by rewrite list_lookup_fmap, Hq.
  destruct (Forall2_lookup_lr _ _ _ _ _ _ Hres Hq1 Hx) as (Hu & res & Hr & Hrec & Hpost). split; [exact Hu|]. exists res, as_.
  by rewrite <-Hrec, <-Hpost.
Qed.

Lemma doc_match keccak256 e cv stack q d : doc_true keccak256 e cv stack q d → ed_Verdict d = Match →
  epoch_matches keccak256 e cv stack q.
Proof. intros (_ & res & a & Hr & Ha & Hv) Hm. exists res. split; [done|]. eapply Assess_Match; [exact Ha|congruence]. Qed.

(** A MISMATCH is one, since none of the amounts compared is nil. *)
Lemma doc_mismatch keccak256 e cv stack q d : chain_ok e cv stack →
  (∀ p, p ∈ cv_roots cv → all_set (rp_Totals p) ∧ all_set (rp_CarryIn p)) →
  doc_true keccak256 e cv stack q d → ed_Verdict d = Mismatch → epoch_differs keccak256 e cv stack q.
Proof.
  intros Hchain Hroots (Hu & res & a & Hr & Ha & Hv) Hm. exists res. split; [done|].
  destruct (Assess_spec _ _ q.2 (result_inputs _ _ _ _ _ _ Hu Hchain Hroots Hr)) as (a' & Ha' & Hspec).
  assert (a' = a) as -> by congruence. rewrite Hv in Hm. case_decide; [destruct Hspec as [Hi _]; by rewrite Hi in Hm|]. by apply Hspec.
Qed.

Section decided.
Context (mc : Machine) (dep : Deployment) (W : World).

(** What a run shows, and rests on: a tip of the pinned chain, and [P] of the Epoch it was
    asked for, provided the chain up to there is one the contracts can have made with
    these Roots standing ([chain_ok]), its transfers are a complete history up to the
    Epoch's end ([history_ok]), the Epoch's window fits an int64 ([epoch_ok]), and,
    unless the run is --fresh or there is no Cache file, that file opens on a part of the
    chain in whole blocks ([disk_ok]): a file that has lost records of a block does not. *)
Definition run_over (cmd : command) (out : outcome) (P : Engine → ChainView → list RootPosted → Z → Prop) : Prop :=
  wo_chainID W = dp_ChainID dep ∧
  ∃ r tip dir id rep,
    let e := boundEngine mc dep r tip dir (fo_fresh (cm_options cmd)) in
    let cv := view (mc_keccak256 mc) W r (b_Number (tip_Block tip)) in
    tip_of W tip ∧ tip_Finality tip = fo_finality (cm_options cmd) ∧
    (cr_token r, cr_distributor r, cr_factory r) = (dp_Token dep, dp_Distributor dep, dp_PonsFactory dep) ∧
    oc_report out = Some rep ∧ td_Number <$> rd_Tip (rep_Run rep) = Some (b_Number (tip_Block tip)) ∧
    (cm_name cmd ≠ "latest"%string → id = cm_epochID cmd) ∧
    ∀ stack, chain_ok e cv stack →
      (fo_fresh (cm_options cmd) = false → mc_cacheFile mc dir ≠ [] → disk_ok e cv (mc_cacheFile mc dir)) → epoch_ok id →
      history_ok (w_End (WindowOf id)) (chain_history e cv) →
      (cm_name cmd = "latest"%string → rp_ID <$> head stack = Some id) ∧ P e cv stack id.

Lemma kept_disk cmd r tip dir stack :
  let e := boundEngine mc dep r tip dir (fo_fresh (cm_options cmd)) in
  let cv := view (mc_keccak256 mc) W r (b_Number (tip_Block tip)) in
  chain_ok e cv stack → (fo_fresh (cm_options cmd) = false → mc_cacheFile mc dir ≠ [] → disk_ok e cv (mc_cacheFile mc dir)) →
  disk_ok e cv (mc_cacheFile mc dir).
Proof using Type.
  cbn zeta. intros Hchain Hkept. destruct (fo_fresh (cm_options cmd)) eqn:Hfresh.
  - eapply fresh_disk; [exact Hchain|by left].
  - destruct (decide (mc_cacheFile mc dir = [])) as [Hd|Hd]; [|by apply Hkept]. eapply fresh_disk; [exact Hchain|by right].
Qed.

(** A run that did not exit 2, with one truthful endpoint. *)
Lemma decided_run i args cmd out :
  world_ok W → (∀ clock n, mc_schedule mc clock n ≡ₚ seq 0 n) →
  parse (mc_ParseFloat mc) args = Ok cmd → cm_name cmd ≠ "sync"%string →
  (i < length (fo_rpc (cm_options cmd)))%nat → truthful W (mc_server mc) i →
  run mc dep args = Ok out → oc_exit out ≠ 2 →
  ∃ docs, Forall is_verdict (ed_Verdict <$> docs) ∧ oc_exit out = ExitCode (Worst (ed_Verdict <$> docs)) ∧
    run_over cmd out (λ e cv stack id, chain_ok e cv stack ∧
      (∀ p, p ∈ cv_roots cv → all_set (rp_Totals p) ∧ all_set (rp_CarryIn p)) ∧
      Forall2 (doc_true (mc_keccak256 mc) e cv stack) (requested (cm_options cmd) e cv stack id) docs).
Proof.
  intros HW Hsch Hparse Hname Hi Htrue Hrun Hexit. unfold run in Hrun. rewrite Hparse in Hrun.
  destruct (runCommand_decided mc dep cmd out Hname Hrun Hexit) as (r & tip & dir & w & id & results & es & docs & a & Hcp & Ha & Hcode & Hrep).
  exists docs. split; [by eapply verdicts_ok|]. split; [exact Hcode|]. pose proof (cp_connects _ _ _ _ _ _ _ _ _ _ Hcp) as Hc.
  destruct (connects_truth mc dep W HW Hsch i Htrue _ Hi _ _ _ _ _ Hc) as (Hchainid & Htip & Hfin). split; [exact Hchainid|].
  exists r, tip, dir, id, (finalReport dep cmd r tip docs a es). cbn zeta.
  destruct (ChainNew_fields _ _ _ (cn_reader _ _ _ _ _ _ _ _ Hc)) as (-> & -> & -> & _).
  split_and!; try done; [by rewrite judged_tip|..].
  { intros Hl. destruct (cp_results _ _ _ _ _ _ _ _ _ _ Hcp) as (es1 & Ht & _). rewrite decide_False in Ht by done. by destruct Ht. }
  intros stack Hchain Hkept Hid Hcomplete.
  pose proof (kept_disk cmd r tip dir stack Hchain Hkept) as Hdisk.
  destruct (computes_true mc dep W HW Hsch i Htrue cmd Hi _ _ _ _ _ _ _ Hcp stack Hchain Hdisk Hid Hcomplete) as (Hlatest & Hres).
  split; [exact Hlatest|]. split; [exact Hchain|]. split; [intros p; apply view_roots_set|]. by eapply docs_true.
Qed.

Lemma run_over_weaken cmd out (P Q : Engine → ChainView → list RootPosted → Z → Prop) :
  (∀ e cv stack id, P e cv stack id → Q e cv stack id) → run_over cmd out P → run_over cmd out Q.
Proof.
  intros HPQ (Hid & r & tip & dir & id & rep & H1 & H2 & H3 & H4 & H5 & H6 & H). split; [exact Hid|].
  exists r, tip, dir, id, rep. split_and!; try done. intros stack Hc Hd He Hh.
  destruct (H stack Hc Hd He Hh) as [? HP]. split; [done|by apply HPQ].
Qed.
End decided.
