(* ===== verification/RunLive.v ===== *)
(** * A run over honest endpoints

    When all endpoints serve one chain, with whatever refusals and delays [helpful]
    allows, a run gets to its Verdict, and the Verdict is the rules'. *)
From S2P Require Import Prelude Sorts Bytes Text Json Paths Merkle Twab TwabSpec Alloc Chain Crc Cache CacheSpec CacheOps CacheSync StateMonad Reader Epoch RootStream EpochSpec EpochRefine EpochHistory EpochWalk Wire ChainReader WireSpec Honest ReaderSpec ReaderTruth ReaderLive ReaderServes Below ReaderIdeal Report ReportTheorems Render Artifacts ArtifactsTheorems Verify RunSpec RunTruth RunDocs.

Lemma traverse_total {E A B} (f : A → Res E B) l : Forall (λ x, is_Ok (f x)) l → ∃ k, traverse f l = Ok k.
Proof.
  induction 1 as [|x l [y Hy] _ [k IH]]; [by exists []|]. exists (y :: k). apply traverse_Ok in IH. apply traverse_Ok. by constructor.
Qed.

Lemma traverseI_total {E A B} (f : nat → A → Res E B) i l : (∀ j x, l !! j = Some x → is_Ok (f (i + j)%nat x)) →
  ∃ k, traverseI f i l = Ok k.
Proof.
  revert i. induction l as [|x l IH]; intros i Hf; cbn [traverseI]; [by exists []|].
  destruct (Hf 0%nat x eq_refl) as [y Hy]. rewrite Nat.add_0_r in Hy. rewrite Hy. cbn [mbind Res_bind].
  destruct (IH (S i)) as [k ->]; [|by eexists]. intros j z Hz. rewrite Nat.add_succ_l, <-Nat.add_succ_r. by apply (Hf (S j)).
Qed.

Section honest.
Context (mc : Machine) (dep : Deployment) (W : World) (HW : world_ok W).
Context (Hschedule : ∀ clock n, mc_schedule mc clock n ≡ₚ seq 0 n).
Context (cmd : command) (r : chainReader) (dir : string).

Abbreviation opts := (cm_options cmd).

(** What the command line and the machine bring. *)
Record well_set : Prop := WellSet {
  ws_deployment : CheckDeployment dep = Ok ();
  ws_reader : ChainNew (mc_urlParse mc) (chainConfig dep opts) = Ok r;
  ws_endpoints : ∀ i, (i < endpoints r)%nat → truthful W (mc_server mc) i ∧ helpful W (mc_server mc) i;
  ws_network : wo_chainID W = dp_ChainID dep;
  ws_level : fo_finality opts ∈ [Latest; Safe; Finalized];
  ws_dir : CacheDir (mc_XDG_CACHE_HOME mc) (mc_UserHomeDir mc) (dp_ChainID dep) (dp_Token dep) = Ok dir;
}.
Context (Hset : well_set).

Lemma well_set_some : (0 < endpoints r)%nat.
Proof using Hset. by destruct (ChainNew_fields _ _ _ (ws_reader Hset)) as (_ & _ & _ & _ & ?). Qed.

Lemma honest_connects : ∃ tip w, connects mc dep opts newWire r tip dir w ∧ tip_of W tip.
Proof using HW Hschedule Hset.
  pose proof well_set_some as Hsome. pose proof Hset as [Hdep Hr Hall Hnet Hlevel Hdir].
  destruct (Hall 0%nat Hsome) as [Ht _].
  destruct (ChainID_defined W HW (mc_server mc) (mc_schedule mc) r Hschedule Hsome Hall newWire) as (id & w1 & Hid).
  destruct (Head_defined W (mc_server mc) (mc_schedule mc) r _ HW Hschedule Hsome Hall Hlevel w1) as (tip & w & Htip).
  pose proof (ChainID_true W HW _ _ r 0 Hsome Ht _ _ _ Hid) as ->. rewrite Hnet in Hid.
  pose proof (Head_true W HW _ _ r 0 Hsome Ht _ _ _ _ Htip) as (? & ? & _). exists tip, w. split; [|done].
  split; [done|done|by exists w1|done].
Qed.

Section connected.
Context (tip : Tip) (w : wireState) (Hc : connects mc dep opts newWire r tip dir w) (Htip : tip_of W tip).

Abbreviation e := (boundEngine mc dep r tip dir (fo_fresh opts)).
Abbreviation cv := (view (mc_keccak256 mc) W r (b_Number (tip_Block tip))).
Abbreviation result := (epoch_result (mc_keccak256 mc) e cv).

(** What the chain, the Cache's file and the Epoch asked for must be. *)
Record well_asked (stack : list RootPosted) (id : Z) : Prop := WellAsked {
  wa_contracts : contracts_ok (mc_keccak256 mc) W r (b_Number (tip_Block tip));
  wa_chain : chain_ok e cv stack;
  wa_disk : disk_ok e cv (mc_cacheFile mc dir);
  wa_epoch : epoch_ok id;
  wa_history : history_ok (w_End (WindowOf id)) (chain_history e cv);
  wa_closed : closed_by e cv id;
  wa_target : if decide (cm_name cmd = "latest"%string) then rp_ID <$> head stack = Some id else id = cm_epochID cmd;
  wa_deploy : fo_chain opts = true → deploy_epoch dep cv ≤ id;
  wa_results : Forall (λ id, is_Ok (result stack id)) ((requested opts e cv stack id).*1);
}.

Context (stack : list RootPosted) (id : Z) (Hask : well_asked stack id).

#[local] Instance honest_reads : ReadsChain (e_reader e) cv (e_tip e).
Proof using HW Hschedule Hset Htip Hask.
  destruct Htip as [Hr Hb]. apply (readerOf_reads (mc_keccak256 mc) W HW (mc_server mc) (mc_schedule mc) r Hschedule
    well_set_some (ws_endpoints Hset) tip Hr Hb (wa_contracts _ _ Hask)).
Qed.

Lemma honest_computes : ∃ results es, computes mc dep cmd r tip dir w id results es ∧
  Forall2 (result_at (mc_keccak256 mc) e cv stack) ((requested opts e cv stack id).*1) results.
Proof using All.
  pose proof Hask as [_ Hchain Hdisk Hid Hcomplete Hclosed Htarget Hdeploy Hres]. apply (new_ready _ _ _ w) in Hdisk.
  assert (∃ es1, (if decide (cm_name cmd = "latest"%string)
      then LatestRoot e (newEngineState (mc_cacheFile mc dir) w) = (Ok id, es1)
      else id = cm_epochID cmd ∧ es1 = newEngineState (mc_cacheFile mc dir) w) ∧ ready e cv false es1) as (es1 & Htgt & Hready).
  { destruct (decide (cm_name cmd = "latest"%string)) as [Hl|Hl]; [|by eexists].
    destruct (answers_LatestRoot e cv stack Hchain false _ Hdisk) as (es1 & HL & Hr). destruct (head stack) as [p|]; [|done].
    injection Htarget as <-. by exists es1. }
  destruct (closed_ends e cv stack Hchain id Hclosed) as [b Hb]. rewrite requested_ids in Hres |- *. apply Forall_app in Hres as [Hlinks Hlast].
  inversion Hlast as [|? ? [res Hr] _]; subst. destruct (fo_chain opts) eqn:Hwalk.
  - destruct (answers_Walk (mc_keccak256 mc) e cv stack Hchain id Hid Hcomplete false id b) with es1 as (es & HW' & _);
      [destruct Hid; lia|by apply Hdeploy|exact Hb|exact Hready|].
    destruct (traverse_total _ _ Hlinks) as [links Hl]. rewrite Hl, Hr in HW'. exists (links ++ [setEndBlock b res]), es.
    split; [split; [exact Hc|exists es1; split; [exact Htgt|by unfold recomputed; rewrite Hwalk]]|].
    apply Forall2_app; [by apply links_at; [apply rooted_u64|]|]. constructor; [split; [by apply epoch_u64|by exists res]|constructor].
  - destruct (answers_Compute (mc_keccak256 mc) e cv stack Hchain id Hid Hcomplete false id b) with es1 as (es & HC & _);
      [destruct Hid; lia|exact Hb|exact Hready|].
    rewrite Hr in HC. exists [setEndBlock b res], es. split.
    + split; [exact Hc|]. exists es1. split; [exact Htgt|]. unfold recomputed. rewrite Hwalk. by eexists.
    + constructor; [split; [by apply epoch_u64|by exists res]|constructor].
Qed.

(** The run itself: what it leaves, with its documents true of the chain. *)
Lemma honest_outcome : stdout_ok mc opts → cm_name cmd ≠ "sync"%string →
  ∃ out docs, runCommand mc dep cmd = Ok out ∧ oc_exit out = ExitCode (Worst (ed_Verdict <$> docs)) ∧
    Forall2 (doc_true (mc_keccak256 mc) e cv stack) (requested opts e cv stack id) docs.
Proof using All.
  intros Hstdout Hname. destruct honest_computes as (results & es & Hcp & Hres).
  pose proof (wa_chain _ _ Hask) as Hchain.
  destruct (traverseI_total (λ j x, assess x (expectationOf opts (length results) j)) 0 results) as [docs Hdocs].
  { intros j x [id' Hx]%(Forall2_lookup_r _ _ _ _ _ Hres). destruct Hx as (_ & Hu & res & Hr & Hrec & Hpost). unfold assess.
    rewrite Hrec, Hpost. destruct (Assess_spec (engineRecompute res) (enginePosted res) (expectationOf opts (length results) (0 + j)))
      as (a & -> & _); [|by eexists]. eapply result_inputs; [exact Hu|exact Hchain| |exact Hr]. intros p. apply view_roots_set. }
  assert (results ≠ []) as Hne.
  { intros ->. apply Forall2_length in Hres. rewrite requested_ids, length_app in Hres. cbn in Hres. lia. }
  assert (∃ a, bundleDoc mc opts results = Ok a) as [a Ha].
  { unfold bundleDoc. destruct (decide _); [by eexists|]. destruct (last results) as [x|] eqn:E; [|by apply last_None in E].
    destruct (compareArtifacts_Ok (mc_files mc) (mc_artifactText mc) (fo_artifacts opts) x) as [doc ->]. by eexists. }
  assert (docs ≠ []) as Hdne.
  { intros ->. apply traverseI_Ok in Hdocs as [Hlen _]. by destruct results. }
  assert (assessedAs mc opts results docs a) as Has by done.
  destruct (execute_runs mc dep cmd r tip dir w id results es docs a Hname Hcp Has) as (s' & He & Hrep).
  exists (finish mc opts (finalReport dep cmd r tip docs a es)), docs. split; [|split].
  - unfold runCommand. rewrite He. cbn [settle mbind Res_bind mret Res_ret]. by rewrite Hrep.
  - rewrite (finish_written mc opts), judged_verdict; [done|exact Hstdout|apply judged_rate|].
    rewrite judged_verdict. apply Worst_nonempty.
  - by eapply docs_true.
Qed.
End connected.
End honest.

Definition epoch_unposted (keccak256 : list byte → Hash) (e : Engine) (cv : ChainView) (stack : list RootPosted)
    (q : Z * option Hash) : Prop :=
  ∃ res, epoch_result keccak256 e cv stack q.1 = Ok res ∧ unposted (engineRecompute res) (enginePosted res) q.2.

(** A document's Verdict, case by case. *)
Lemma doc_verdict keccak256 W e r tip stack q d : chain_ok e (view keccak256 W r tip) stack →
  doc_true keccak256 e (view keccak256 W r tip) stack q d →
  (ed_Verdict d = Match ↔ epoch_matches keccak256 e (view keccak256 W r tip) stack q) ∧
  (ed_Verdict d = Indeterminate ↔ epoch_unposted keccak256 e (view keccak256 W r tip) stack q) ∧
  (ed_Verdict d ≠ Match ↔ epoch_differs keccak256 e (view keccak256 W r tip) stack q) ∧ is_verdict (ed_Verdict d).
Proof.
  intros Hchain (Hid & res & a & Hr & Ha & Hv).
  destruct (Assess_spec _ _ q.2 (result_inputs _ _ _ _ _ _ Hid Hchain (view_roots_set keccak256 W r tip) Hr)) as (a' & Ha' & Hspec).
  assert (a' = a) as -> by congruence. rewrite Hv. unfold epoch_matches, epoch_unposted, epoch_differs.
  assert (∀ P : EngineResult → Prop, (∃ x, epoch_result keccak256 e (view keccak256 W r tip) stack q.1 = Ok x ∧ P x) ↔ P res) as Hex.
  { intros P. split; [intros (x & Hx & HP); rewrite Hr in Hx; by injection Hx as <-|by exists res]. }
  rewrite !Hex. pose proof (Assess_is_verdict _ _ _ _ Ha) as His. case_decide as Hu.
  - destruct Hspec as [-> _]. destruct Hu as (Hu1 & Hu2 & Hu3 & Hu4). unfold matches, is_verdict. rewrite Hu1, Hu2, Hu3, Hu4.
    split_and!; try tauto; by split.
  - destruct Hspec as (Hm & Hmm & _). destruct His as [E|[E|E]]; rewrite E in Hm, Hmm |- *.
    + assert (matches (engineRecompute res) (enginePosted res) q.2) by by apply Hm. split_and!; [by split..|by split|by left].
    + assert (¬ matches (engineRecompute res) (enginePosted res) q.2) by by apply Hmm. split_and!; [by split..|by split|by right; left].
    + exfalso. assert (¬ matches (engineRecompute res) (enginePosted res) q.2) as Hn by (intros H%Hm; done).
      apply Hmm in Hn. done.
Qed.

(** The exit status of a list of documents, by what holds of their Epochs. *)
Lemma exit_codes {A} (M U D : A → Prop) qs docs :
  Forall2 (λ q d, (ed_Verdict d = Match ↔ M q) ∧ (ed_Verdict d = Indeterminate ↔ U q) ∧ (ed_Verdict d ≠ Match ↔ D q) ∧
    is_verdict (ed_Verdict d)) qs docs →
  (ExitCode (Worst (ed_Verdict <$> docs)) = 0 ↔ Forall M qs) ∧
  (ExitCode (Worst (ed_Verdict <$> docs)) = 2 ↔ Exists U qs) ∧
  (ExitCode (Worst (ed_Verdict <$> docs)) = 1 ↔ Exists D qs ∧ ¬ Exists U qs).
Proof.
  intros H. set (vs := ed_Verdict <$> docs).
  assert (Forall is_verdict vs ∧ (Forall (λ v, v = Match) vs ↔ Forall M qs) ∧ (Indeterminate ∈ vs ↔ Exists U qs) ∧
    (¬ Forall (λ v, v = Match) vs ↔ Exists D qs)) as (Hv & HM & HU & HD).
  { unfold vs. clear vs. induction H as [|q d qs docs (HM & HU & HD & Hv) _ (IHv & IHM & IHU & IHD)].
    - split_and!; [constructor|by split; constructor|by rewrite elem_of_nil, Exists_nil|].
      rewrite Exists_nil. split; [|done]. intros Hn. apply Hn. constructor.
    - rewrite fmap_cons, !Forall_cons, !Exists_cons, elem_of_cons, IHM, IHU, <-IHD, HM, <-HD, <-HU.
      split; [by split|]. split; [tauto|]. split; [split; intros [?|?]; auto|].
      destruct (decide (ed_Verdict d = Match)) as [Hd|Hd]; [|tauto]. rewrite <-HM. tauto. }
  rewrite ExitCode_zero, Worst_Match, HM by done. split; [done|]. rewrite <-HU, <-HD.
  pose proof (Worst_Match vs Hv) as HW. rewrite Worst_cases in HW |- *. unfold ExitCode.
  destruct (decide (Indeterminate ∈ vs)); [cbn; split; [by split|split; [done|tauto]]|].
  destruct (decide (Mismatch ∈ vs)); cbn; (split; [by split|]).
  - split; [|done]. intros _. split; [|done]. by intros H1%HW.
  - split; [done|]. intros [Hn _]. destruct Hn. by apply HW.
Qed.

(** ** A bundle has no say

    Two runs that differ only in the bundle they are shown: everything up to the
    comparison is the same, and the comparison touches one section of the Report. *)


(** Another bundle, in other files. *)
Definition withBundle (path : string) (cmd : command) : command :=
  let o := cm_options cmd in
  mkCommand (cm_name cmd) (cm_epochID cmd)
    (mkCmdOptions (fo_rpc o) (fo_finality o) (fo_rate o) (fo_fresh o) (fo_chain o) path (fo_expect o) (fo_json o)).
Definition withFiles (files : Files) (text : artifactError → string) (mc : Machine) : Machine :=
  mkMachine (mc_keccak256 mc) (mc_server mc) (mc_schedule mc) (mc_urlParse mc) (mc_ParseFloat mc) (mc_formatG mc)
    (mc_formatJSON mc) (mc_errorText mc) text files (mc_XDG_CACHE_HOME mc) (mc_UserHomeDir mc) (mc_cacheFile mc) (mc_stdoutFails mc).

(** Two calls that end alike, in states alike but for the section. *)
Definition alike (s t : runState) : Prop :=
  withArtifacts None (rs_report s) = withArtifacts None (rs_report t) ∧ rs_wire s = rs_wire t ∧ rs_engine s = rs_engine t.
Definition ends_alike {A} (p q : Res runError A * runState) : Prop := p.1 = q.1 ∧ alike p.2 q.2.

Lemma alike_refl s : alike s s.
Proof. done. Qed.
Lemma ends_alike_refl {A} (p : Res runError A * runState) : ends_alike p p.
Proof. done. Qed.

Lemma bind_alike {A B} (m m' : V A) (f f' : A → V B) s : m s = m' s →
  (∀ a s', m s = (Ok a, s') → ends_alike (f a s') (f' a s')) → ends_alike ((m ≫= f) s) ((m' ≫= f') s).
Proof.
  unfold mbind, StM_bind. intros <- Hf. destruct (m s) as [[a|x|x] s1]; [by apply Hf|apply ends_alike_refl..].
Qed.

Section inert.
Context (mc : Machine) (dep : Deployment) (files : Files) (text : artifactError → string) (path : string).

Abbreviation mc' := (withFiles files text mc).

(** With an Epoch to compare, the comparison ends, and adds at most a section. *)
Lemma artifactsStep_section (mc0 : Machine) opts results s : results ≠ [] →
  ∃ a, artifactsStep mc0 opts results s = (Ok (), mkRunState (bundled a (rs_report s)) (rs_wire s) (rs_engine s)).
Proof using Type.
  intros Hne. assert (∃ a, bundleDoc mc0 opts results = Ok a) as [a Ha].
  { unfold bundleDoc. destruct (decide _); [by eexists|]. destruct (last results) as [r|] eqn:E; [|by apply last_None in E].
    destruct (compareArtifacts_Ok (mc_files mc0) (mc_artifactText mc0) (fo_artifacts opts) r) as [doc ->]. by eexists. }
  exists a. apply artifactsStep_Ok. by exists a.
Qed.

Lemma bundled_section a rep : withArtifacts None (bundled a rep) = withArtifacts None rep.
Proof using Type. by destruct a. Qed.

Lemma artifactsStep_alike (mc1 mc2 : Machine) opts1 opts2 results s : results ≠ [] →
  ends_alike (artifactsStep mc1 opts1 results s) (artifactsStep mc2 opts2 results s).
Proof using Type.
  intros Hne. destruct (artifactsStep_section mc1 opts1 results s Hne) as [a1 ->].
  destruct (artifactsStep_section mc2 opts2 results s Hne) as [a2 ->].
  split; [done|]. split; [|done]. cbn [snd rs_report]. by rewrite !bundled_section.
Qed.

(** An Engine call leaves the Report alone. *)
Lemma onEngine_report {A} (m : Engine → StM EngineState epochError A) s : rs_report (onEngine m s).2 = rs_report s.
Proof using Type. unfold onEngine. destruct (rs_engine s) as [[e es]|]; [|done]. by destruct (m e _). Qed.

Lemma recompute_report opts id s results s' : recompute mc opts id s = (Ok results, s') → rs_report s' = rs_report s.
Proof using Type.
  unfold recompute. destruct (fo_chain opts).
  - intros H. rewrite <-(onEngine_report (λ e, Walk (mc_keccak256 mc) e id) s). by rewrite H.
  - intros (one & s1 & H & [= <- <-])%step_Ok. rewrite <-(onEngine_report (λ e, EngineCompute (mc_keccak256 mc) e id) s). by rewrite H.
Qed.

Lemma epochBody_alike cmd id s : rep_Epochs (rs_report s) = [] →
  ends_alike (epochBody mc (cm_options cmd) id s) (epochBody mc' (cm_options (withBundle path cmd)) id s).
Proof using Type.
  intros Hnil. set (opts := cm_options cmd). set (opts' := cm_options (withBundle path cmd)).
  unfold epochBody. apply bind_alike; [done|]. intros results s1 Hres. apply bind_alike; [done|].
  intros vs s2 (docs & [Hlen _]%traverseI_Ok & -> & ->)%assessSteps_Ok. apply recompute_report in Hres.
  apply bind_alike; [done|]. intros [] s3 [= <-]. apply bind_alike; [done|]. intros epochs s4 [= <- <-].
  cbn [rs_report addEpochs rep_Epochs withEpochs withVerdict]. rewrite Hres, Hnil. cbn [app].
  destruct (last docs) as [target|] eqn:Hlast; [|apply ends_alike_refl].
  apply bind_alike; [done|]. intros [] s5 _. apply artifactsStep_alike. intros ->. by destruct docs.
Qed.

Lemma reportCache_alike s t : alike s t → alike (reportCache s) (reportCache t).
Proof using Type.
  destruct s as [rep w e], t as [rep' w' e']. intros (Hr & Hw & He). cbn [rs_report rs_wire rs_engine] in *. subst w' e'.
  unfold reportCache. cbn [rs_engine rs_report rs_wire]. destruct e as [[e es]|]; [|by split_and!].
  destruct (st_synced es) as [synced|]; [|by split_and!]. destruct rep, rep'. by injection Hr as -> -> -> -> -> ->.
Qed.

Lemma execute_alike cmd : ends_alike (execute mc dep cmd (initialState dep cmd))
  (execute mc' dep (withBundle path cmd) (initialState dep (withBundle path cmd))).
Proof using Type.
  change (initialState dep (withBundle path cmd)) with (initialState dep cmd). unfold execute.
  apply bind_alike; [done|]. intros [] s1 Hc. change (cm_name (withBundle path cmd)) with (cm_name cmd).
  destruct (decide (cm_name cmd = "sync"%string)); [apply ends_alike_refl|].
  assert (rep_Epochs (rs_report s1) = []) as Hnil.
  { apply connect_Ok in Hc as (r & tip & dir & w & _ & ->). done. }
  assert (∀ id s, rs_report s = rs_report s1 → ends_alike (verifyEpoch mc (cm_options cmd) id s)
    (verifyEpoch mc' (cm_options (withBundle path cmd)) id s)) as Hv.
  { intros id s Hs. unfold verifyEpoch. rewrite <-Hs in Hnil. destruct (epochBody_alike cmd id s Hnil) as [H1 H2].
    destruct (epochBody mc (cm_options cmd) id s) as [res t], (epochBody mc' (cm_options (withBundle path cmd)) id s) as [res' t'].
    cbn in H1, H2. subst res'. split; [done|]. by apply reportCache_alike. }
  destruct (decide (cm_name cmd = "latest"%string)).
  - apply bind_alike; [done|]. intros id s2 H. apply Hv. rewrite <-(onEngine_report LatestRoot s1). by rewrite H.
  - by apply Hv.
Qed.
End inert.

Lemma verdict_alike rep rep' : withArtifacts None rep = withArtifacts None rep' → rep_Verdict rep = rep_Verdict rep'.
Proof. intros H. by apply (f_equal rep_Verdict) in H. Qed.

Lemma rate_alike rep rep' : withArtifacts None rep = withArtifacts None rep' →
  rd_CallsPerSecond (rep_Run rep) = rd_CallsPerSecond (rep_Run rep').
Proof. intros H. by apply (f_equal (λ r, rd_CallsPerSecond (rep_Run r))) in H. Qed.

Lemma finish_alike mc files text path cmd rep rep' : withArtifacts None rep = withArtifacts None rep' →
  (oc_exit (finish mc (cm_options cmd) rep), withArtifacts None <$> oc_report (finish mc (cm_options cmd) rep)) =
  (oc_exit (finish (withFiles files text mc) (cm_options (withBundle path cmd)) rep'),
   withArtifacts None <$> oc_report (finish (withFiles files text mc) (cm_options (withBundle path cmd)) rep')).
Proof.
  intros H. unfold finish, WriteJSON. cbn [withBundle withFiles cm_options fo_json mc_stdoutFails mc_formatJSON].
  rewrite (verdict_alike _ _ H), (rate_alike _ _ H). cbn zeta.
  destruct (fo_json (cm_options cmd)), (is_finite (rd_CallsPerSecond (rep_Run rep'))), (mc_stdoutFails mc); cbn [oc_exit oc_report fmap option_fmap option_map]; by rewrite H.
Qed.

Lemma settled_alike reason rep rep' : withArtifacts None rep = withArtifacts None rep' →
  withArtifacts None (withReason reason (withVerdict Indeterminate rep)) =
  withArtifacts None (withReason reason (withVerdict Indeterminate rep')).
Proof. intros H. destruct rep, rep'. by injection H as -> -> -> -> -> ->. Qed.
