(* ===== verification/RunTheorems.v ===== *)
(** * What the binary's exit status means

    The claims on a whole run of nutz-verify, from its arguments to its exit status. *)
From S2P Require Import Prelude Sorts Bytes Text Json Paths Merkle Twab TwabSpec Alloc Chain Crc Cache CacheSpec CacheOps CacheSync StateMonad Reader Epoch RootStream EpochSpec EpochWalk Wire ChainReader WireSpec Honest ReaderSpec ReaderTruth ReaderLive ReaderServes Below ReaderIdeal Report ReportTheorems Render Artifacts ArtifactsTheorems Verify RunSpec RunTruth RunDocs RunLive Node Cases EpochCase ReaderCase CacheCase.

Section theorems.
Context (mc : Machine) (dep : Deployment) (W : World).

(** C1: exit status 0 is never wrong. If a run of [epoch] or [latest] exits 0 and one
    of its endpoints tells the truth, whatever the other endpoints served, in whatever
    order they finished, whatever was retried, refused or cut short, then the chain is
    the pinned one, the tip of the Report is on it, and over that chain the documented
    rules give the requested Epoch (the newest standing Root's, for [latest]) a Result
    that matches what was posted and, when one was given, the expected Root; with
    --chain so do all Epochs before it whose Root stands. The terms are [run_over]'s: a
    chain the contracts can have made with a complete history, an Epoch whose window
    fits an int64, and a Cache file that, if one is kept, holds whole blocks of it. *)
Theorem Exit_zero i args cmd out :
  world_ok W → (∀ clock n, mc_schedule mc clock n ≡ₚ seq 0 n) →
  parse (mc_ParseFloat mc) args = Ok cmd → cm_name cmd ≠ "sync"%string →
  (i < length (fo_rpc (cm_options cmd)))%nat → truthful W (mc_server mc) i →
  run mc dep args = Ok out → oc_exit out = 0 →
  run_over mc dep W cmd out (λ e cv stack id,
    Forall (epoch_matches (mc_keccak256 mc) e cv stack) (requested (cm_options cmd) e cv stack id)).
Proof.
  intros HW Hsch Hparse Hname Hi Htrue Hrun Hzero.
  destruct (decided_run mc dep W i args cmd out HW Hsch Hparse Hname Hi Htrue Hrun) as (docs & Hv & Hcode & Hover); [by rewrite Hzero|].
  rewrite Hzero in Hcode. symmetry in Hcode. apply ExitCode_zero in Hcode. rewrite Worst_Match, Forall_fmap in Hcode by done.
  eapply run_over_weaken; [|exact Hover]. intros e cv stack id (_ & _ & Hdocs).
  apply Forall_lookup. intros j q Hq. destruct (Forall2_lookup_l _ _ _ _ _ Hdocs Hq) as (d & Hd & Hdoc).
  eapply doc_match; [exact Hdoc|]. by eapply Forall_lookup_1 in Hcode.
Qed.

(** C2: nor is exit status 1. With one truthful endpoint a run of [epoch] or [latest]
    exits 1 only when the rules, over the pinned chain, give one of the Epochs it was
    asked to verify a Result that does not match what was posted or expected, on the
    same terms as exit 0 ([run_over]): no lie or failure of the other endpoints, no
    refusal, cut page or error of the network passes for a MISMATCH. A Cache file may:
    one that opens without the last records of a block ([Torn_block_lost]) is not what
    [disk_ok] asks of a file that is kept; with --fresh, or with no file yet, nothing is
    asked. *)
Theorem Exit_one i args cmd out :
  world_ok W → (∀ clock n, mc_schedule mc clock n ≡ₚ seq 0 n) →
  parse (mc_ParseFloat mc) args = Ok cmd → cm_name cmd ≠ "sync"%string →
  (i < length (fo_rpc (cm_options cmd)))%nat → truthful W (mc_server mc) i →
  run mc dep args = Ok out → oc_exit out = 1 →
  run_over mc dep W cmd out (λ e cv stack id,
    Exists (epoch_differs (mc_keccak256 mc) e cv stack) (requested (cm_options cmd) e cv stack id)).
Proof.
  intros HW Hsch Hparse Hname Hi Htrue Hrun Hone.
  destruct (decided_run mc dep W i args cmd out HW Hsch Hparse Hname Hi Htrue Hrun) as (docs & Hv & Hcode & Hover); [by rewrite Hone|].
  rewrite Hone in Hcode. apply ExitCode_one, Worst_Mismatch in Hcode.
  eapply run_over_weaken; [|exact Hover]. intros e cv stack id (Hchain & Hroots & Hdocs). clear Hover Hv.
  apply list_elem_of_fmap in Hcode as (d & Hd & [j Hj]%list_elem_of_lookup).
  destruct (Forall2_lookup_r _ _ _ _ _ Hdocs Hj) as (q & Hq & Hdoc). apply Exists_exists. exists q.
  split; [by eapply list_elem_of_lookup_2|]. by eapply doc_mismatch.
Qed.

(** C8: a run over honest endpoints ends with the rules' Verdict. When all endpoints
    serve one chain, each rate-limiting, refusing batches and cutting pages as it likes,
    a run of [epoch] or [latest] settles on a tip of it and exits: 0 exactly when the
    rules over the chain match what is posted and expected for every requested Epoch, 2
    exactly when one of them has earned a Root that nobody posted or expects, else 1. The
    terms are [well_set] and [well_asked]: the chain, its history, the Epoch and the Cache
    file as in [run_over], a closed Epoch; and [stdout_ok]: a stdout that takes the
    Report and, with --json, a rate that is a number. *)
Theorem Honest_run args cmd r dir :
  world_ok W → (∀ clock n, mc_schedule mc clock n ≡ₚ seq 0 n) →
  parse (mc_ParseFloat mc) args = Ok cmd → cm_name cmd ≠ "sync"%string → stdout_ok mc (cm_options cmd) →
  well_set mc dep W cmd r dir →
  ∃ tip w, connects mc dep (cm_options cmd) newWire r tip dir w ∧ tip_of W tip ∧
    ∀ stack id, well_asked mc dep W cmd r dir tip stack id →
      let e := boundEngine mc dep r tip dir (fo_fresh (cm_options cmd)) in
      let cv := view (mc_keccak256 mc) W r (b_Number (tip_Block tip)) in
      let epochs := requested (cm_options cmd) e cv stack id in
      ∃ out, run mc dep args = Ok out ∧
        (oc_exit out = 0 ↔ Forall (epoch_matches (mc_keccak256 mc) e cv stack) epochs) ∧
        (oc_exit out = 2 ↔ Exists (epoch_unposted (mc_keccak256 mc) e cv stack) epochs) ∧
        (oc_exit out = 1 ↔ Exists (epoch_differs (mc_keccak256 mc) e cv stack) epochs ∧
           ¬ Exists (epoch_unposted (mc_keccak256 mc) e cv stack) epochs).
Proof.
  intros HW Hsch Hparse Hname Hstdout Hset.
  destruct (honest_connects mc dep W HW Hsch cmd r dir Hset) as (tip & w & Hc & Htip). exists tip, w. split; [done|]. split; [done|].
  intros stack id Hask. cbn zeta.
  destruct (honest_outcome mc dep W HW Hsch cmd r dir Hset tip w Hc Htip stack id Hask Hstdout Hname) as (out & docs & Hrun & Hcode & Hdocs).
  exists out. unfold run. rewrite Hparse, Hcode. split; [done|]. apply (exit_codes _ _ _ _ docs).
  eapply Forall2_impl; [exact Hdocs|]. intros q d. apply doc_verdict. apply Hask.
Qed.
End theorems.

(** C21: whatever stops a run is exit status 2, never a Verdict on the Root. A command line
    that does not parse leaves no Report; an error on the way leaves one that says
    INDETERMINATE and why, with everything established before; a Deployment that is not
    pinned stops every run, so this build, whose addresses are still zero, always exits 2. *)
Theorem Error_exit mc dep args :
  (∀ err, parse (mc_ParseFloat mc) args = Err err → run mc dep args = Ok (mkOutcome 2 EmptyString None)) ∧
  (∀ cmd err s, parse (mc_ParseFloat mc) args = Ok cmd → execute mc dep cmd (initialState dep cmd) = (Err err, s) →
     ∃ out rep, run mc dep args = Ok out ∧ oc_exit out = 2 ∧ oc_report out = Some rep ∧
       rep = withReason (mc_errorText mc err) (withVerdict Indeterminate (rs_report s))) ∧
  (CheckDeployment dep ≠ Ok () → ∃ out, run mc dep args = Ok out ∧ oc_exit out = 2) ∧
  main mc args = Ok 2.
Proof.
  split_and!.
  - intros err Hp. unfold run. by rewrite Hp.
  - intros cmd err s Hp He. unfold run, runCommand. rewrite Hp, He. cbn [settle mbind Res_bind mret Res_ret].
    eexists _, _. split; [reflexivity|]. destruct (finish_settled mc (cm_options cmd) err s) as [-> ->]. done.
  - intros Hd. destruct (unpinned_run mc dep args Hd) as (out & -> & Hout). by exists out.
  - unfold main. by destruct (unpinned_run mc Pinned args) as (out & -> & <-).
Qed.

(** C15: nothing of a bundle reaches what a run computes or how it exits. For any two
    sets of files and any two --artifacts paths, none included, a run ends with the same
    exit status and, but for the section about the bundle itself, the same Report: a bad
    bundle cannot hide a MISMATCH, nor a good one make up for it. *)
Theorem Artifacts_inert mc dep files text path cmd :
  (λ out, (oc_exit out, withArtifacts None <$> oc_report out)) <$> runCommand mc dep cmd =
  (λ out, (oc_exit out, withArtifacts None <$> oc_report out)) <$>
    runCommand (withFiles files text mc) dep (withBundle path cmd).
Proof.
  unfold runCommand. destruct (execute_alike mc dep files text path cmd) as [H1 (H2 & _ & _)].
  destruct (execute mc dep cmd (initialState dep cmd)) as [res s],
    (execute (withFiles files text mc) dep (withBundle path cmd) (initialState dep (withBundle path cmd))) as [res' s'].
  cbn [fst snd] in H1, H2. subst res'. destruct res as [u|err|x]; cbn [settle mbind Res_bind mret Res_ret fmap Res_fmap]; [| |done].
  - f_equal. by apply finish_alike.
  - f_equal. apply finish_alike. by apply settled_alike.
Qed.

(** ** Runs over the hourly chain

    nutz-verify against the two nodes of [ReaderCase]: Epoch 0 is a MATCH, Epoch 2,
    whose Root nobody posted though it was not skipped, is not. *)


Definition hour_machine : Machine :=
  mkMachine sum_hash hour_server hour_schedule (λ s, Some ("https", s)%string) (λ _, None) (λ _, "15"%string) (λ _, "15"%string)
    (λ _, "error"%string) (λ _, "error"%string) (mkFiles (λ _, None) (λ _, FileMissing)) "/cache" None (λ _, []) false.
Definition hour_dep : Deployment := e_dep hour_engine.
Definition hour_args (text : string) : list string :=
  ["epoch"; text; "--rpc"; "https://small"; "--rpc=https://large"]%string.
Definition hour_command (id : Z) : command :=
  mkCommand "epoch" id (mkCmdOptions ["https://small"; "https://large"]%string Safe DefaultCallsPerSecond false false EmptyString None false).

Example hour_parses : parse (mc_ParseFloat hour_machine) (hour_args "2") = Ok (hour_command 2).
Proof. reflexivity. Qed.

Definition hour_reader_of : chainReader :=
  default hour_config (ok_of (ChainNew (mc_urlParse hour_machine) (chainConfig hour_dep (cm_options (hour_command 0))))).
Definition hour_dir : string :=
  default EmptyString (ok_of (CacheDir (mc_XDG_CACHE_HOME hour_machine) (mc_UserHomeDir hour_machine) (dp_ChainID hour_dep) (dp_Token hour_dep))).

Lemma hour_well_set id : well_set hour_machine hour_dep hour_world (hour_command id) hour_reader_of hour_dir.
Proof.
  split.
  - by vm_compute.
  - by vm_compute.
  - exact hour_endpoints.
  - done.
  - cbn. set_solver.
  - by vm_compute.
Qed.

(** ** The tip it settles on *)

Definition hour_run_tip : Tip := mkTip (hour_block 6) Safe 0.
Definition hour_connected (id : Z) : Res chainError Tip * wireState :=
  let '(_, w) := ChainID hour_server hour_schedule hour_reader_of newWire in
  Head hour_server hour_schedule hour_reader_of (fo_finality (cm_options (hour_command id))) w.

Lemma hour_settles id : (hour_connected id).1 = Ok hour_run_tip.
Proof. by vm_compute. Qed.

Lemma hour_tip_only id tip w : connects hour_machine hour_dep (cm_options (hour_command id)) newWire hour_reader_of tip hour_dir w →
  tip = hour_run_tip.
Proof.
  intros [_ _ (w1 & Hid & Htip) _]. pose proof (hour_settles id) as Hs. unfold hour_connected in Hs.
  change (mc_server hour_machine) with hour_server in *. change (mc_schedule hour_machine) with hour_schedule in *.
  rewrite Hid in Hs. cbn iota in Hs. rewrite Htip in Hs. by injection Hs as ->.
Qed.

(** ** The chain it reads *)

Definition hour_view : ChainView := view sum_hash hour_world hour_reader_of 6.

Lemma drop_splice out n w : (n ≤ length out)%nat → (length out ≤ n + length w)%nat → drop n (splice out n w) = w.
Proof.
  intros Hn Hw. unfold splice. rewrite drop_app_ge by (rewrite length_take; lia). rewrite length_take, Nat.min_l, Nat.sub_diag by done.
  rewrite (drop_ge out) by done. by rewrite app_nil_r.
Qed.

(** The node reads back the Epoch it is asked about. *)
Lemma hour_view_ledger id : is_u64 id → cv_ledger hour_view id = hour_ledger id.
Proof.
  intros Hid. cbn [hour_view view cv_ledger wo_call hour_world hour_reader_of]. unfold hour_call.
  rewrite decide_False by (intros H; apply (f_equal vec_to_list) in H; by vm_compute in H).
  assert (be_decode (drop 36 (encodeLedgerCall sum_hash KindEpoch id)) = id) as ->.
  { unfold encodeLedgerCall. cbn zeta. change 36%nat with (selectorSize + wordSize)%nat.
    set (out := splice (splice (replicate _ _) _ _) _ _). assert (length out = 68%nat) as Hlen by reflexivity.
    rewrite drop_splice; [|by rewrite Hlen; unfold selectorSize, wordSize; lia|
      by rewrite Hlen, length_be_encode; unfold selectorSize, wordSize; lia].
    apply be_decode_encode. unfold is_u64, wordSize in *. lia. }
  unfold hour_ledger. destruct (Z.eqb_spec id 0) as [->|Hne]; by vm_compute.
Qed.

Lemma hour_view_streams : cv_transfers hour_view = hour_transfers ∧ cv_roots hour_view = hour_roots.
Proof. split; by vm_compute. Qed.

Lemma hour_view_agrees : agrees (cv_ledger hour_view) [hour_root].
Proof.
  assert (is_u64 (rp_ID hour_root)) as Hu by by vm_compute. split.
  - intros id Hid. rewrite hour_view_ledger by done. by apply (ag_has _ _ hour_agrees).
  - intros r Hr. assert (r = hour_root) as E by by apply list_elem_of_singleton in Hr. rewrite E, (hour_view_ledger _ Hu), <-E.
    by apply (ag_root _ _ hour_agrees).
Qed.

Definition hour_bound : Engine := boundEngine hour_machine hour_dep hour_reader_of hour_run_tip hour_dir false.

Lemma hour_view_chain_ok : chain_ok hour_bound hour_view [hour_root].
Proof.
  destruct hour_view_streams as [Ht Hr]. pose proof hour_chain_ok as H.
  assert (chain_records hour_view = chain_records hour_chain) as Hrec by by (unfold chain_records; rewrite Ht).
  split; rewrite ?Hrec, ?Hr; try exact (co_tip _ _ _ H); try apply H.
  - exact hour_view_agrees.
  - intros id Hid. rewrite hour_view_ledger by done. by apply (co_funded _ _ _ H).
Qed.

Lemma hour_disk_ok : disk_ok hour_bound hour_view (mc_cacheFile hour_machine hour_dir).
Proof.
  unfold disk_ok, chain_records. rewrite (proj1 hour_view_streams).
  eexists _, 0, []. split; [reflexivity|]. split; [done|]. split; [constructor|]. by split.
Qed.

Lemma hour_view_history : chain_history hour_bound hour_view = chain_history hour_engine hour_chain.
Proof. unfold chain_history, chain_records. by rewrite (proj1 hour_view_streams). Qed.

Lemma hour_first_history : history_ok (w_End (WindowOf 0)) (chain_history hour_engine hour_chain).
Proof. split; intros tr Htr; each_in Htr; vm_compute; intros; first [done | by eexists]. Qed.

Lemma hour_run_contracts : contracts_ok sum_hash hour_world hour_reader_of 6.
Proof. split; apply hour_contracts. Qed.

Lemma hour_tip_of : tip_of hour_world hour_run_tip.
Proof. by split. Qed.

(** What the rules make of Epochs 0 and 2, and how it compares with what is posted. *)
Definition hour_judgement (id : Z) : Res epochError (option Verdict) :=
  res ← epoch_result sum_hash hour_bound hour_view [hour_root] id;
  mret (as_Verdict <$> ok_of (Assess (engineRecompute res) (enginePosted res) None)).

Lemma hour_judged_0 : hour_judgement 0 = Ok (Some Match).
Proof. by vm_compute. Qed.
Lemma hour_judged_2 : hour_judgement 2 = Ok (Some Mismatch).
Proof. by vm_compute. Qed.

Lemma hour_judged_Ok id v : hour_judgement id = Ok (Some v) →
  ∃ res a, epoch_result sum_hash hour_bound hour_view [hour_root] id = Ok res ∧
    Assess (engineRecompute res) (enginePosted res) None = Ok a ∧ as_Verdict a = v.
Proof.
  intros (res & Hr & H)%bind_Ok. injection H as H. exists res.
  destruct (Assess _ _ _) as [a| |] eqn:E; [|done..]. injection H as H. by exists a.
Qed.

Lemma hour_closed_view id : 0 ≤ id ≤ 2 → closed_by hour_bound hour_view id.
Proof. apply (hour_closed id). Qed.

Lemma hour_well_asked id : id = 0 ∨ id = 2 →
  well_asked hour_machine hour_dep hour_world (hour_command id) hour_reader_of hour_dir hour_run_tip [hour_root] id.
Proof.
  intros Hid. split.
  - exact hour_run_contracts.
  - exact hour_view_chain_ok.
  - exact hour_disk_ok.
  - by destruct Hid as [-> | ->]; unfold epoch_ok, EpochSeconds.
  - change (history_ok (w_End (WindowOf id)) (chain_history hour_bound hour_view)). rewrite hour_view_history.
    destruct Hid as [-> | ->]; [exact hour_first_history|exact hour_history_ok].
  - apply hour_closed_view. lia.
  - done.
  - done.
  - cbn [requested fo_chain hour_command cm_options fmap list_fmap app fst fo_expect]. constructor; [|constructor].
    destruct Hid as [-> | ->]; [destruct (hour_judged_Ok 0 _ hour_judged_0) as (res & _ & Hr & _)|
      destruct (hour_judged_Ok 2 _ hour_judged_2) as (res & _ & Hr & _)]; by exists res.
Qed.

(** The run itself, as its claims make it. *)
Lemma hour_run text id v : parse (mc_ParseFloat hour_machine) (hour_args text) = Ok (hour_command id) → id = 0 ∨ id = 2 →
  hour_judgement id = Ok (Some v) → is_verdict v →
  ∃ out, run hour_machine hour_dep (hour_args text) = Ok out ∧ oc_exit out = ExitCode v.
Proof.
  intros Hparse Hid Hv His.
  destruct (honest_connects hour_machine hour_dep hour_world hour_world_ok hour_schedule_ok (hour_command id) hour_reader_of hour_dir
    (hour_well_set id)) as (tip & w & Hc & Htip). pose proof (hour_tip_only id tip w Hc) as ->.
  destruct (honest_outcome hour_machine hour_dep hour_world hour_world_ok hour_schedule_ok (hour_command id) hour_reader_of hour_dir
    (hour_well_set id) hour_run_tip w Hc Htip [hour_root] id (hour_well_asked id Hid) (conj eq_refl (λ _, eq_refl)) ltac:(done)) as (out & docs & Hrun & Hcode & Hdocs).
  exists out. unfold run. rewrite Hparse. split; [exact Hrun|]. rewrite Hcode. clear Hcode Hrun Hparse.
  destruct (hour_judged_Ok id v Hv) as (res & a & Hr & Ha & <-).
  inversion Hdocs as [|q d qs ds (_ & res' & a' & Hr' & Ha' & Hd) Hnil]; subst. inversion Hnil; subst.
  cbn [fmap list_fmap]. f_equal. rewrite Hd. change (epoch_result sum_hash hour_bound hour_view [hour_root] id = Ok res') in Hr'.
  rewrite Hr in Hr'. injection Hr' as <-.
  change (Assess (engineRecompute res) (enginePosted res) None = Ok a') in Ha'. rewrite Ha in Ha'. injection Ha' as <-. by apply Worst_one.
Qed.

Lemma hour_matches : ∃ out, run hour_machine hour_dep (hour_args "0") = Ok out ∧ oc_exit out = 0.
Proof. apply (hour_run "0" 0 Match); [done|by left|apply hour_judged_0|by left]. Qed.
Lemma hour_differs : ∃ out, run hour_machine hour_dep (hour_args "2") = Ok out ∧ oc_exit out = 1.
Proof. apply (hour_run "2" 2 Mismatch); [done|by right|apply hour_judged_2|by right; left]. Qed.

(** ** The claims applied to the hourly chain *)

Lemma Exit_zero_witness :
  ∃ out, run hour_machine hour_dep (hour_args "0") = Ok out ∧ oc_exit out = 0 ∧
    run_over hour_machine hour_dep hour_world (hour_command 0) out (λ e cv stack id,
      Forall (epoch_matches sum_hash e cv stack) (requested (cm_options (hour_command 0)) e cv stack id)).
Proof.
  destruct hour_matches as (out & Hrun & Hzero). exists out. split; [exact Hrun|]. split; [exact Hzero|].
  apply (Exit_zero hour_machine hour_dep hour_world 1 (hour_args "0") (hour_command 0)).
  - exact hour_world_ok.
  - exact hour_schedule_ok.
  - reflexivity.
  - done.
  - cbn. lia.
  - apply (hour_endpoints 1). cbn. lia.
  - exact Hrun.
  - exact Hzero.
Defined.

Lemma Exit_one_witness :
  ∃ out, run hour_machine hour_dep (hour_args "2") = Ok out ∧ oc_exit out = 1 ∧
    run_over hour_machine hour_dep hour_world (hour_command 2) out (λ e cv stack id,
      Exists (epoch_differs sum_hash e cv stack) (requested (cm_options (hour_command 2)) e cv stack id)).
Proof.
  destruct hour_differs as (out & Hrun & Hone). exists out. split; [exact Hrun|]. split; [exact Hone|].
  apply (Exit_one hour_machine hour_dep hour_world 0 (hour_args "2") (hour_command 2)).
  - exact hour_world_ok.
  - exact hour_schedule_ok.
  - reflexivity.
  - done.
  - cbn. lia.
  - apply (hour_endpoints 0). cbn. lia.
  - exact Hrun.
  - exact Hone.
Defined.

Lemma Honest_run_witness :
  ∃ out, run hour_machine hour_dep (hour_args "0") = Ok out ∧ oc_exit out = 0.
Proof.
  destruct (Honest_run hour_machine hour_dep hour_world (hour_args "0") (hour_command 0) hour_reader_of hour_dir
    hour_world_ok hour_schedule_ok eq_refl ltac:(done) (conj eq_refl (λ _, eq_refl)) (hour_well_set 0)) as (tip & w & Hc & _ & Hall).
  pose proof (hour_tip_only 0 tip w Hc) as ->.
  destruct (Hall [hour_root] 0 (hour_well_asked 0 (or_introl eq_refl))) as (out & Hrun & Hzero & _).
  exists out. split; [exact Hrun|]. apply Hzero. constructor; [|constructor].
  destruct (hour_judged_Ok 0 Match hour_judged_0) as (res & a & Hr & Ha & Hv).
  exists res. split; [exact Hr|]. by apply (Assess_Match _ _ _ a).
Defined.

Lemma Error_exit_witness :
  (∃ err, parse (mc_ParseFloat hour_machine) ["epoch"; "x"]%string = Err err) ∧
  run hour_machine hour_dep ["epoch"; "x"]%string = Ok (mkOutcome 2 EmptyString None) ∧
  main hour_machine (hour_args "0") = Ok 2.
Proof.
  split; [by eexists|]. split.
  - by apply (proj1 (Error_exit hour_machine hour_dep ["epoch"; "x"]%string) (errEpochNumber "x")).
  - apply (Error_exit hour_machine hour_dep (hour_args "0")).
Defined.
